(* ===== verification/_CoqProject ===== *)
-Q . S2P
Prelude.v
Persister.v
RaftNode.v
RaftStep.v
RaftElection.v
RaftElectionRun.v
RaftLog.v
RaftSpec.v
RaftFollower.v
RaftApply.v
RaftLeader.v
RaftCluster.v
RaftTester.v
RaftRefine.v
RaftSafety.v
RaftProgress.v
RaftOrigin.v
RaftSnapshot.v
Kv.v
KvClerk.v
KvCalls.v
Lock.v
KvModel.v
KvTest.v
KvTestRun.v
ShardCfg.v
MrCoordinator.v
MrWorker.v
MrJob.v
MrTest.v
Rsm.v
RsmCluster.v
RsmRun.v
RsmSafety.v
RsmProgress.v
KvCluster.v
Labrpc.v
NetRun.v
Labgob.v
Transport.v
Demux.v
Sockrpc.v
Daemon.v
TesterGroup.v
Annotate.v
KvHistory.v
RsmTest.v
Config.v
Fixtures.v
