(* ===== verification/Prelude.v ===== *)
(** * Verification of the 6.5840 labs

  The repository holds the labs of a distributed systems course with one
  solution: MapReduce ([src/mr]), a versioned key/value server with a
  lock on top ([src/kvsrv1]), Raft ([src/raft1]), a replicated state
  machine layer and a key/value server over it ([src/kvraft1]), shard
  configurations ([src/shardkv1]), and the framework that tests them
  ([src/labrpc], [src/tester1], [src/models1]).  This library translates
  the code under [src/src] into Rocq functions and step relations and
  proves what makes each part correct.

  ** Files

  This file: the type [Res] of Go code that returns or stops the process,
  machine integers, slices, the interface [Codec] to the encoder,
  reachability, and tactics.

  Raft ([raft1/raft.go], [raftapi], [tester1/persister.go]):
  - [Persister]: the durable store.
  - [RaftNode]: the state of a [Raft] object and its operations.  An RPC
    handler is one definition; a function that gives up [rf.mu] to wait
    is split there ([startElection] sends, [voteReply] handles one reply;
    [applierSnapshot] and [applierCommands] are the two halves of one
    round of [applier]).  Goroutines started and conditions signalled are
    returned as effects.
  - [RaftStep]: [node_step], one critical section or a crash and restart,
    and what every such step preserves.
  - [RaftElection], [RaftElectionRun]: clusters of peers, a network that
    loses, delays, reorders and replays messages, and election safety.
  - [RaftLog], [RaftFollower], [RaftLeader], [RaftApply]: the log as an
    abstract sequence of entries; the handlers on a follower; commit and
    the next-index search on a leader; the delivery of commands.
  - [RaftSpec]: Raft without messages: votes, logs and what each leader
    wrote, with leader completeness.
  - [RaftCluster]: the cluster with the messages of log replication, the
    commands of services, deliveries and crashes.
  - [RaftRefine], [RaftSafety]: the cluster implements [RaftSpec], and what
    follows: state machine safety, log matching, leader completeness,
    absence of panics, bounds of the indices, all under the conditions
    below.
  - [RaftProgress]: from every state reached under these conditions the
    cluster can go on to elect a leader, take a command and deliver it
    everywhere.
  - [RaftOrigin]: every entry of a log, of a call under way and of a
    delivery is where some [Start] put it.
  - [RaftSnapshot]: the cluster with the snapshot operations, and an
    execution of it in which two servers apply different commands at one
    index.
  - [RaftTester]: the servers of the Raft tests and the tester's checks
    ([raft1/server.go], [raft1/test.go], [raft1/proxy.go]).  The servers
    see the tester through the class [Itester].

  Key/value service:
  - [Kv]: the single server ([kvsrv1/server.go], [Kvsrv]), the replicated
    state machine ([kvraft1/server.go], [Kvraft]), the abstract register
    ([Spec]) and the class [KVService] that both implement.
  - [KvClerk]: the two clerks ([kvsrv1/client.go], [kvraft1/client.go])
    over a network that loses requests and replies, proved against
    [KVService].
  - [KvCalls]: a put of either clerk as one atomic call, [clerk_put].
  - [Lock]: the lock client ([kvsrv1/lock]) as a transition system of any
    number of clients with abandoned requests still under way.
  - [KvModel]: the linearizability model of the tests
    ([models1/kv.go], [kvtest1/porcupine.go]).
  - [KvTest], [KvTestRun]: the functions of the test harness on a clerk
    ([kvtest1/kvtest.go]) and its racing clients, with the proof that
    the clients' checks never fail, and the final ones when their counts
    are without doubt.
  - [Rsm]: [kvraft1/rsm]: [Submit], [applyReader], the table of waiting
    calls and the counter server, one server at a time.
  - [RsmCluster], [RsmRun], [RsmSafety]: all servers, each an [RSM] on a
    Raft peer of [RaftCluster], with a history of the calls of [Submit];
    executions as lists of labels; linearizability of the history, for
    any state machine and for the key/value server.
  - [RsmProgress]: the readers of the servers never block, and from every
    state reached under the conditions below the service can go on to
    answer the next [Submit].
  - [KvCluster]: any number of clerks over those servers; what the clients
    of the replicated store see is linearizable, but for late puts that
    ended in [ErrMaybe].
  - [KvHistory]: the log of operations that the tests keep and the check
    that they run on it at the end ([checkPorcupine]); the check passes on
    every log of an execution of [KvCluster].
  - [RsmTest]: the helpers of the tests of the state machine layer
    ([rsm/test.go], [rsm/proxy.go]).
  - [Fixtures]: how the key/value tests build their servers, clerks and
    partitions ([kvraft1/test.go], [kvsrv1/test.go], [kvtest1]), and which
    servers a client reaches after any history of fault injection
    ([tester1/clnts.go]).

  The rest:
  - [ShardCfg]: [shardkv1/shardcfg].
  - [MrCoordinator], [MrWorker]: the coordinator's handlers and executions
    of a job; map and reduce tasks, the intermediate files, the
    sequential program and two applications.
  - [MrJob]: the main loop of any number of workers against those handlers
    and a file system, with the proof that a job leaves the output of the
    sequential program.
  - [MrTest]: what the MapReduce tests compare and the applications they
    run ([mr/util.go], [mrapps]).
  - [Labrpc]: the simulated network ([labrpc/labrpc.go]), one operation
    at a time.
  - [NetRun]: the same network with any number of calls under way: clients,
    the goroutines of the network and the tester as one step relation.
  - [Labgob]: the checks that the encoder makes of types and values, for
    one caller and for any number at once ([labgob/labgob.go]).
  - [Transport], [Demux]: messages on a byte stream, and calls of many
    goroutines multiplexed over it ([tester1/demux]): the transport
    implements the queues of messages that [Demux] uses.
  - [Sockrpc]: remote calls between the tester and server processes on top
    of [Demux] ([tester1/sockrpc], [testsrv.go]), with the calls a server
    forwards into the network of the tester.
  - [Daemon]: a server process from its command line to its restart
    ([tester1/daemonsrv.go], [daemonclnt.go], [srv.go]).
  - [TesterGroup]: groups of servers and clients on that network
    ([tester1/group.go], [srv.go], [clnts.go]).
  - [Annotate]: the annotations of a test run ([tester1/annotation.go]).
  - [Config]: the configuration of a test, its counters and its checks
    ([tester1/config.go]).

  ** Conventions

  - Code that runs under one lock is one step.  What a goroutine reads
    after it has given the lock up is an argument of the next step.
  - An explicit panic, [log.Fatalf], a test failure, an index out of
    range and a failed type assertion are all [Panic].
  - [uint64] and [int] are integers with the wrap-around written out
    ([u64], [i64]); theorems that need the absence of overflow say so
    (indices below 2^63 or 2^64, versions below 2^64).
  - Time, random draws, the outcome of a call over the network and the
    order in which Go visits a map are arguments or nondeterministic
    steps.  The random identities that [Lock] and [Submit] draw
    are taken to be fresh, and the random end names of [TesterGroup] to be
    distinct.
  - Encoding is used through [Codec], and JSON in the tests through [Json]:
    decoding gives back what was encoded.  Sorting in [MrWorker] is used through [Sorter].
  - Strings are sequences of bytes; letters and spaces in [MrWorker] are
    the ASCII ones.

  ** Loops and fuel

  Loops over a slice are structural.  [Rebalance] gets fuel above the
  square of the number of shards, and [Rebalance_checks] proves that this is enough; the
  grouping loop of a reduce task gets one more than the number of pairs,
  and [reduce_groups_by_key] proves the same.  [checkType] gets fuel above the
  number of types and [checkDefault] above its depth of three, which
  [Encode_checks] and [Decode_checks] prove to be enough.  The clerks' retry loops consume a list of
  network outcomes, one per attempt: their theorems speak of every finite
  list.  [one] and [wait] of the Raft
  tester consume the rounds that fit into their time limits.

  ** What holds under which conditions

  The theorems on clusters speak of executions ([rc_quiet], [sys_quiet])
  in which no peer becomes leader between the role test of its [ticker]
  and the [startElection] that follows - with that race,
  [two_leaders_reachable] shows two leaders of one term - and in which
  terms stay below 2^64 - 1 and logs below 2^63 - 1 entries.  Their peers
  take no snapshots ([maxraftstate] is -1).  This holds for every theorem
  of [RaftSafety], [RaftProgress], [RsmSafety], [RsmProgress], [KvCluster],
  [KvHistory] and [RsmTest]; those on progress also start from states that
  such executions reach.  With snapshots state machine
  safety is false for the code, by [snapshots_break_safety]: a call that
  starts before a follower's snapshot is answered with success.  What the
  snapshot operations do is proved for one peer and for one [RSM], and
  election safety for clusters that use them.

  [Demux] needs fewer than 2^32 - 1 calls on one connection, since tags are
  reused after that, and [Transport] messages below 4 GiB.  [MrJob] needs
  input files that are not named like the intermediate ones, keys and
  values that are words, and a reduce function that does not depend on the
  order of its values; a worker that cannot dial the coordinator stops on
  an error, as [call] does, and no worker stops on any other.  [KvTestRun]
  needs counts without [ErrMaybe] for the check of a reliable network,
  which the clerk of the replicated service does not always give
  ([reliable_check_can_fail]).  [Labgob] needs a
  finite set of types, which every program has.

  ** Liveness

  [RaftProgress] and [RsmProgress] show that executions which make
  progress exist from every state that is reached under the conditions
  above and has room for two terms and one entry, and [Demux], [NetRun], [MrCoordinator] and [Lock] that a
  call, a job or an acquisition ends when its steps are taken.  That the
  scheduler and the random sleeps choose such an execution is not stated:
  time is not modelled.

  ** Not modelled

  Processes, sockets, signals and the layout of directories: starting a
  process, dialing and listening are steps that may fail; [encoding/gob]
  and [reflect] below [labgob]; [porcupine] itself, of which [KvHistory]
  uses only that it finds no linearizable history illegal; the goroutines
  that only pass messages on; the drawing of histories and annotations;
  debug lines; the test functions, the main programs and the
  applications of MapReduce that only measure timing; the sharded
  service, whose operations are stubs.

  State machine safety of clusters that take snapshots is not stated for
  a restricted set of executions: besides the call that
  [snapshots_break_safety] turns on, [InstallSnapshot] does not adopt the
  term of its call, so the executions to exclude are not those of one
  step but depend on the history of terms. *)
From stdpp Require Export base list gmap strings sorting.
From stdpp Require Export tactics.
From Stdlib Require Export ZArith Lia.

Global Set Default Goal Selector "!".
Global Unset Program Cases.
#[global] Open Scope Z_scope.

(** ** Outcomes of Go code

  A piece of Go code either returns a value or stops the process:
  an explicit [panic], [log.Fatalf], a failed index or type assertion
  all end the program, so they are one constructor. *)
Inductive Res (A : Type) : Type :=
| Ok (a : A)
| Panic.
Arguments Ok {A} a.
Arguments Panic {A}.

Declare Scope go_scope.
Delimit Scope go_scope with go.

Definition res_bind {A B} (m : Res A) (f : A -> Res B) : Res B :=
  match m with
  | Ok a => f a
  | Panic => Panic
  end.

Notation "'let*' x := m 'in' k" := (res_bind m (fun x => k))
  (at level 10, x binder, m at level 100, k at level 200) : go_scope.
Notation "'let*' ' p := m 'in' k" := (res_bind m (fun p => k))
  (at level 10, p strict pattern, m at level 100, k at level 200) : go_scope.
#[global] Open Scope go_scope.

Definition is_ok {A} (m : Res A) : Prop := exists a, m = Ok a.

Lemma res_bind_ok {A B} (m : Res A) (f : A -> Res B) b :
  res_bind m f = Ok b -> exists a, m = Ok a /\ f a = Ok b.
Proof. destruct m; simpl; [eauto | done]. Qed.

Lemma is_ok_Ok {A} (a : A) : is_ok (Ok a).
Proof. by exists a. Qed.

(** ** Machine integers

  [uint64] (terms, log indices, versions) and [int] (64 bits wide on
  the platforms the labs run on) are integers in [Z]; the wrap-around
  is written where the code computes. *)
Definition u64 (x : Z) : Z := x mod 2 ^ 64.
Definition u32 (x : Z) : Z := x mod 2 ^ 32.
Definition i64 (x : Z) : Z := (x + 2 ^ 63) mod 2 ^ 64 - 2 ^ 63.
Definition i32 (x : Z) : Z := (x + 2 ^ 31) mod 2 ^ 32 - 2 ^ 31.

Lemma u64_small x : 0 <= x < 2 ^ 64 -> u64 x = x.
Proof. intros H. by apply Z.mod_small. Qed.

Lemma u64_range x : 0 <= u64 x < 2 ^ 64.
Proof. by apply Z.mod_pos_bound. Qed.

Lemma u32_small x : 0 <= x < 2 ^ 32 -> u32 x = x.
Proof. intros H. by apply Z.mod_small. Qed.

Lemma u32_range x : 0 <= u32 x < 2 ^ 32.
Proof. by apply Z.mod_pos_bound. Qed.

Lemma i64_small x : - 2 ^ 63 <= x < 2 ^ 63 -> i64 x = x.
Proof. intros H. unfold i64. rewrite Z.mod_small; lia. Qed.

(** A counter that is added to wraps around as the sum does. *)
Lemma i64_add x y : i64 (i64 x + y) = i64 (x + y).
Proof.
  unfold i64. replace ((x + 2 ^ 63) mod 2 ^ 64 - 2 ^ 63 + y + 2 ^ 63)
    with ((x + 2 ^ 63) mod 2 ^ 64 + y) by lia.
  rewrite Zplus_mod_idemp_l. do 2 f_equal. lia.
Qed.

Lemma i32_add x y : i32 (i32 x + y) = i32 (x + y).
Proof.
  unfold i32. replace ((x + 2 ^ 31) mod 2 ^ 32 - 2 ^ 31 + y + 2 ^ 31)
    with ((x + 2 ^ 31) mod 2 ^ 32 + y) by lia.
  rewrite Zplus_mod_idemp_l. do 2 f_equal. lia.
Qed.

(** ** Slices

  Go indexes a slice with an [int] and panics outside of
  [0, len). *)
Definition zlen {A} (l : list A) : Z := Z.of_nat (length l).

Definition zlookup {A} (l : list A) (i : Z) : option A :=
  if decide (0 <= i) then l !! Z.to_nat i else None.

Definition slice_get {A} (l : list A) (i : Z) : Res A :=
  match zlookup l i with
  | Some a => Ok a
  | None => Panic
  end.

Definition slice_set {A} (l : list A) (i : Z) (a : A) : Res (list A) :=
  if decide (0 <= i < zlen l) then Ok (<[Z.to_nat i := a]> l) else Panic.

(** [l[b:e]], with the bounds checked against the length: every slice
  the modelled code takes ends at or before the length. *)
Definition slice_sub {A} (l : list A) (b e : Z) : Res (list A) :=
  if decide (0 <= b <= e /\ e <= zlen l)
  then Ok (take (Z.to_nat (e - b)) (drop (Z.to_nat b) l))
  else Panic.

#[global] Arguments zlookup : simpl never.
#[global] Arguments zlen : simpl never.
#[global] Arguments u64 : simpl never.
#[global] Arguments u32 : simpl never.
#[global] Arguments i64 : simpl never.

Lemma zlen_nonneg {A} (l : list A) : 0 <= zlen l.
Proof. unfold zlen. lia. Qed.

Lemma zlen_nil {A} : zlen (@nil A) = 0.
Proof. done. Qed.

Lemma zlen_app {A} (l k : list A) : zlen (l ++ k) = zlen l + zlen k.
Proof. unfold zlen. rewrite length_app. lia. Qed.

Lemma zlen_cons {A} (x : A) l : zlen (x :: l) = 1 + zlen l.
Proof. unfold zlen. simpl. lia. Qed.

Lemma zlookup_is_Some {A} (l : list A) i :
  is_Some (zlookup l i) <-> 0 <= i < zlen l.
Proof.
  unfold zlookup, zlen. case_decide.
  - rewrite lookup_lt_is_Some. lia.
  - split; [by intros [? ?] | lia].
Qed.

Lemma zlookup_Some_range {A} (l : list A) i a :
  zlookup l i = Some a -> 0 <= i < zlen l.
Proof. intros H. apply zlookup_is_Some. eauto. Qed.

Lemma zlookup_None {A} (l : list A) i :
  zlookup l i = None <-> ~ (0 <= i < zlen l).
Proof. rewrite <- zlookup_is_Some, eq_None_not_Some. done. Qed.

Lemma slice_get_ok {A} (l : list A) i :
  0 <= i < zlen l -> exists a, zlookup l i = Some a /\ slice_get l i = Ok a.
Proof.
  intros H. apply zlookup_is_Some in H as [a Ha].
  exists a. unfold slice_get. by rewrite Ha.
Qed.

Lemma slice_get_Ok_inv {A} (l : list A) i a :
  slice_get l i = Ok a -> zlookup l i = Some a.
Proof. unfold slice_get. by destruct (zlookup l i); intros [= ->]. Qed.

Lemma slice_set_Ok_inv {A} (l : list A) k x l' : slice_set l k x = Ok l' ->
  0 <= k < zlen l /\ l' = <[Z.to_nat k := x]> l.
Proof. unfold slice_set. case_decide; [| done]. by intros [= <-]. Qed.

Lemma zlookup_app_l {A} (l k : list A) i :
  i < zlen l -> zlookup (l ++ k) i = zlookup l i.
Proof.
  unfold zlookup, zlen. intros H. case_decide; [| done].
  apply lookup_app_l. lia.
Qed.

Lemma zlookup_app_r {A} (l k : list A) i :
  zlen l <= i -> zlookup (l ++ k) i = zlookup k (i - zlen l).
Proof.
  unfold zlookup, zlen. intros H.
  rewrite !decide_True by lia.
  rewrite lookup_app_r by lia. f_equal. lia.
Qed.

Lemma zlookup_take {A} (l : list A) n i :
  i < n -> zlookup (take (Z.to_nat n) l) i = zlookup l i.
Proof.
  unfold zlookup. intros H. case_decide; [| done].
  apply lookup_take_lt. lia.
Qed.

Lemma zlookup_drop {A} (l : list A) n i :
  0 <= n -> 0 <= i -> zlookup (drop (Z.to_nat n) l) i = zlookup l (n + i).
Proof.
  unfold zlookup. intros ??. rewrite !decide_True by lia.
  rewrite lookup_drop. f_equal. lia.
Qed.

Lemma zlookup_insert_ne {A} (l : list A) i j (a : A) :
  0 <= i -> i <> j -> zlookup (<[Z.to_nat i := a]> l) j = zlookup l j.
Proof.
  unfold zlookup. intros ??. case_decide; [| done].
  apply list_lookup_insert_ne. lia.
Qed.

Lemma zlookup_insert_eq {A} (l : list A) i (a : A) :
  0 <= i < zlen l -> zlookup (<[Z.to_nat i := a]> l) i = Some a.
Proof.
  unfold zlookup, zlen. intros ?. rewrite decide_True by lia.
  apply list_lookup_insert_eq. lia.
Qed.

Lemma zlen_take {A} (l : list A) n :
  0 <= n -> zlen (take (Z.to_nat n) l) = Z.min n (zlen l).
Proof. unfold zlen. rewrite length_take. lia. Qed.

Lemma zlen_drop {A} (l : list A) n :
  0 <= n -> zlen (drop (Z.to_nat n) l) = Z.max 0 (zlen l - n).
Proof. unfold zlen. rewrite length_drop. lia. Qed.

Lemma zlen_insert {A} (l : list A) n (a : A) : zlen (<[n := a]> l) = zlen l.
Proof. unfold zlen. by rewrite length_insert. Qed.

Lemma zlookup_ext {A} (l k : list A) :
  (forall i, zlookup l i = zlookup k i) -> l = k.
Proof.
  intros H. apply list_eq. intros i.
  specialize (H (Z.of_nat i)). unfold zlookup in H.
  rewrite !decide_True in H by lia. by rewrite Nat2Z.id in H.
Qed.

Lemma filter_snoc {A} (P : A -> Prop) `{forall x, Decision (P x)} (l : list A) x :
  filter P (l ++ [x]) = filter P l ++ (if decide (P x) then [x] else []).
Proof.
  induction l as [|y l IH]; simpl; [by rewrite filter_cons |].
  rewrite !filter_cons, IH. by destruct (decide (P y)).
Qed.

(** Splitting a list by a key and putting the parts together again. *)
Lemma filter_concat_Permutation {A K} `{EqDecision K} (key : A -> K) (ks : list K) (l : list A) :
  NoDup ks ->
  concat ((fun k => filter (fun x => key x = k) l) <$> ks) ≡ₚ filter (fun x => key x ∈ ks) l.
Proof.
  induction 1 as [|k ks Hk Hnd IH]; simpl.
  - induction l as [|x l IHl]; [done |]. rewrite filter_cons_False by apply not_elem_of_nil. done.
  - rewrite IH. clear IH. induction l as [|x l IHl]; [done |]. rewrite !filter_cons.
    destruct (decide (key x = k)) as [->|Hne].
    + rewrite (decide_True (P := k ∈ k :: ks)) by apply list_elem_of_here.
      rewrite decide_False by done. simpl. by rewrite IHl.
    + destruct (decide (key x ∈ ks)) as [Hin|Hin].
      * rewrite (decide_True (P := key x ∈ k :: ks)) by (by apply list_elem_of_further).
        rewrite <- Permutation_middle. by rewrite IHl.
      * rewrite (decide_False (P := key x ∈ k :: ks)) by (by intros [?|?]%elem_of_cons). done.
Qed.

Lemma filter_all {A} (P : A -> Prop) `{forall x, Decision (P x)} (l : list A) :
  (forall x, x ∈ l -> P x) -> filter P l = l.
Proof.
  induction l as [|x l IH]; intros Hall; [done |].
  rewrite filter_cons_True by (apply Hall, list_elem_of_here). f_equal.
  apply IH. intros y Hy. by apply Hall, list_elem_of_further.
Qed.

(** ** Encoders

  [labgob] (and, below it, [encoding/gob]) is used through one promise:
  decoding what was encoded gives the value back, and an encoding is
  never the empty byte string.  Components that persist or transmit
  values are written against this interface. *)
Class Codec (A : Type) := {
  encode : A -> list Z;
  decode : list Z -> option A;
  decode_encode : forall a, decode (encode a) = Some a;
  encode_nonempty : forall a, encode a <> [];
}.

(** A concrete codec for integers, used to build the ones the witnesses
  run on. *)
#[export] Program Instance Z_codec : Codec Z := {
  encode := fun z => [z];
  decode := fun l => match l with [z] => Some z | _ => None end;
}.
Next Obligation. done. Qed.
Next Obligation. done. Qed.

(** Any countable type has a codec: the code of a value is one number. *)
Program Definition countable_codec (A : Type) `{Countable A} : Codec A := {|
  encode := fun a => [Z.pos (countable.encode a)];
  decode := fun l => match l with [Z.pos p] => countable.decode p | _ => None end;
|}.
Next Obligation. intros A ?? a. simpl. apply countable.decode_encode. Qed.
Next Obligation. done. Qed.

(** ** Reachability

  Executions of the concurrent parts are finite sequences of steps. *)
Section Reach.
Context {S : Type} (init : S -> Prop) (step : S -> S -> Prop).

Inductive reachable : S -> Prop :=
| reach_init s : init s -> reachable s
| reach_step s s' : reachable s -> step s s' -> reachable s'.

Lemma invariant_reachable (I : S -> Prop) :
  (forall s, init s -> I s) ->
  (forall s s', I s -> step s s' -> I s') ->
  forall s, reachable s -> I s.
Proof. intros Hi Hs s. induction 1; eauto. Qed.
End Reach.

(** ** Automation *)
Create HintDb go.
#[export] Hint Resolve is_ok_Ok zlen_nonneg : go.

(** Split a [Res] computation that returned into its stages. *)
Ltac res_inv :=
  repeat match goal with
  | H : res_bind _ _ = Ok _ |- _ =>
    let x := fresh "x" in let E := fresh "E" in
    apply res_bind_ok in H as (x & E & H)
  | H : Ok _ = Ok _ |- _ => injection H; clear H; intros; subst
  | x : _ * _ |- _ => destruct x
  | H : Panic = Ok _ |- _ => discriminate H
  | H : slice_get _ _ = Ok _ |- _ => apply slice_get_Ok_inv in H
  end.

(** Case analysis on every guard of the code. *)
Ltac go_cases :=
  repeat (simpl in *;
  match goal with
  | |- context [decide _] => case_decide
  | |- context [match ?x with _ => _ end] => destruct x eqn:?
  end; try done).

Ltac go_cases_in H :=
  repeat (simpl in H;
  match type of H with
  | context [decide ?P] => destruct (decide P)
  | context [match ?x with _ => _ end] => destruct x eqn:?
  end; try done).
