(* ===== verification/Persister.v ===== *)
(** * The persister ([tester1/persister.go])

    Stable storage of one server: the encoded Raft state and the service
    snapshot, saved together.  Every read and write goes through
    [clone]; byte slices are lists, a nil slice is the empty list. *)
From S2P Require Import Prelude.

(** Go's [copy(dst, src)]: overwrites the common prefix. *)
Definition go_copy {A} (dst src : list A) : list A :=
  take (length dst) src ++ drop (length src) dst.

Record Persister := mkPersister {
  raftstate : list Z;
  snapshot : list Z;
}.

Definition MakePersister : Persister := mkPersister [] [].

Definition clone (orig : list Z) : list Z :=
  go_copy (replicate (length orig) 0) orig.

Definition ReadRaftState (ps : Persister) : list Z := clone (raftstate ps).
Definition RaftStateSize (ps : Persister) : Z := zlen (raftstate ps).
Definition ReadSnapshot (ps : Persister) : list Z := clone (snapshot ps).
Definition SnapshotSize (ps : Persister) : Z := zlen (snapshot ps).

Definition Save (rs sn : list Z) (ps : Persister) : Persister :=
  mkPersister (clone rs) (clone sn).

Definition Checkpoint (ps : Persister) : Persister :=
  let np := MakePersister in
  mkPersister (clone (raftstate ps)) (clone (snapshot ps)).

Lemma clone_id l : clone l = l.
Proof.
  unfold clone, go_copy. rewrite length_replicate.
  rewrite firstn_all, drop_ge by (rewrite length_replicate; lia).
  apply app_nil_r.
Qed.

(** What [Save] stores is what a later incarnation of the server
    reads, for the Raft state and for the snapshot at once, also through
    the [Checkpoint] the tester takes when it kills the server. *)
Theorem save_checkpoint_read rs sn ps :
  ReadRaftState (Checkpoint (Save rs sn ps)) = rs /\
  ReadSnapshot (Checkpoint (Save rs sn ps)) = sn /\
  RaftStateSize (Checkpoint (Save rs sn ps)) = zlen rs /\
  SnapshotSize (Checkpoint (Save rs sn ps)) = zlen sn.
Proof.
  unfold ReadRaftState, ReadSnapshot, RaftStateSize, SnapshotSize, Checkpoint, Save.
  simpl. by rewrite !clone_id.
Qed.
