(* ===== verification/RaftNode.v ===== *)
(** * One Raft peer ([raft1/raft.go])

  The state of a [Raft] object and its operations, one definition per
  piece of code that runs under [rf.mu]: an RPC handler is one
  definition; a function that unlocks to wait for an RPC is split
  where it unlocks.  Goroutines started and condition variables
  signalled are returned as effects. *)
From S2P Require Import Prelude Persister.

(** ** Data *)

Inductive RoleType := Follower | Candidate | Leader.
#[export] Instance RoleType_eq_dec : EqDecision RoleType.
Proof. solve_decision. Defined.

Record LogEntry (Cmd : Type) := mkEntry {
  Command_ : option Cmd;   (* an [interface{}]; [None] is nil *)
  Term_ : Z;
}.
Arguments mkEntry {Cmd} _ _.
Arguments Command_ {Cmd} _.
Arguments Term_ {Cmd} _.

(** [LogEntry{}], the zero value [make([]LogEntry, n)] fills with. *)
Definition zeroEntry {Cmd} : LogEntry Cmd := mkEntry None 0.

(** What [persist] encodes, in the order it encodes it. *)
Record RaftState (Cmd : Type) := mkRaftState {
  ps_current_term : Z;
  ps_voted_for : Z;
  ps_logs : list (LogEntry Cmd);
  ps_last_included_index : Z;
  ps_last_included_term : Z;
}.
Arguments mkRaftState {Cmd} _ _ _ _ _.
Arguments ps_current_term {Cmd} _.
Arguments ps_voted_for {Cmd} _.
Arguments ps_logs {Cmd} _.
Arguments ps_last_included_index {Cmd} _.
Arguments ps_last_included_term {Cmd} _.

Record Raft (Cmd : Type) := mkRaft {
  peers : Z;                       (* len(rf.peers) *)
  me : Z;
  persister : Persister;
  role_ : RoleType;
  current_term_ : Z;
  voted_for_ : Z;
  logs_ : list (LogEntry Cmd);
  last_included_index_ : Z;
  last_included_term_ : Z;
  snapshot_ : list Z;
  commit_index_ : Z;
  last_applied_ : Z;
  next_index_ : list Z;
  match_index_ : list Z;
  last_heartbeat_time_ : Z;
}.
Arguments mkRaft {Cmd} _ _ _ _ _ _ _ _ _ _ _ _ _ _ _.
Arguments peers {Cmd} _.
Arguments me {Cmd} _.
Arguments persister {Cmd} _.
Arguments role_ {Cmd} _.
Arguments current_term_ {Cmd} _.
Arguments voted_for_ {Cmd} _.
Arguments logs_ {Cmd} _.
Arguments last_included_index_ {Cmd} _.
Arguments last_included_term_ {Cmd} _.
Arguments snapshot_ {Cmd} _.
Arguments commit_index_ {Cmd} _.
Arguments last_applied_ {Cmd} _.
Arguments next_index_ {Cmd} _.
Arguments match_index_ {Cmd} _.
Arguments last_heartbeat_time_ {Cmd} _.

Record RequestVoteArgs := mkRVArgs {
  rv_Term : Z;
  rv_Candidate_ID : Z;
  rv_LastLogIndex : Z;
  rv_LastLogTerm : Z;
}.

Record RequestVoteReply := mkRVReply {
  rvr_Term : Z;
  rvr_VoteGranted : bool;
}.

Record AppendEntriesArgs (Cmd : Type) := mkAEArgs {
  ae_Term : Z;
  ae_LeaderID : Z;
  ae_PreviousLogIndex : Z;
  ae_PreviousLogTerm : Z;
  ae_Entries : list (LogEntry Cmd);
  ae_LeaderCommit : Z;
}.
Arguments mkAEArgs {Cmd} _ _ _ _ _ _.
Arguments ae_Term {Cmd} _.
Arguments ae_LeaderID {Cmd} _.
Arguments ae_PreviousLogIndex {Cmd} _.
Arguments ae_PreviousLogTerm {Cmd} _.
Arguments ae_Entries {Cmd} _.
Arguments ae_LeaderCommit {Cmd} _.

Record AppendEntriesReplys := mkAEReply {
  aer_Term : Z;
  aer_Success : bool;
  aer_ConflictEntryTerm : Z;
  aer_FirstIndexOfConflictEntryTerm : Z;
  aer_LogLenth : Z;
}.

Record InstallSnapshotArgs := mkISArgs {
  is_Term : Z;
  is_LeaderID : Z;
  is_LastIncludedIndex : Z;
  is_LastIncludedTerm : Z;
  is_Data : list Z;
}.

Record InstallSnapshotReplys := mkISReply { isr_Term : Z }.

(** [raftapi.ApplyMsg] *)
Record ApplyMsg (Cmd : Type) := mkApplyMsg {
  CommandValid : bool;
  Command : option Cmd;
  CommandIndex : Z;
  SnapshotValid : bool;
  Snapshot_ : list Z;
  SnapshotTerm : Z;
  SnapshotIndex : Z;
}.
Arguments mkApplyMsg {Cmd} _ _ _ _ _ _ _.
Arguments CommandValid {Cmd} _.
Arguments Command {Cmd} _.
Arguments CommandIndex {Cmd} _.
Arguments SnapshotValid {Cmd} _.
Arguments Snapshot_ {Cmd} _.
Arguments SnapshotTerm {Cmd} _.
Arguments SnapshotIndex {Cmd} _.

(** What a piece of code leaves behind besides its state: condition
  variables it signals and goroutines it starts. *)
Inductive Eff (Cmd : Type) :=
| SignalApply                 (* rf.apply_cond_.Signal() *)
| SignalSend                  (* rf.send_entries_cond_.Signal() *)
| GoCommit                    (* go rf.commit() *)
| GoBroadcast                 (* go rf.broadcastHeartbeats() *)
| GoInstallSnapshot (server : Z)
| GoAppendEntries (server : Z) (args : AppendEntriesArgs Cmd).
Arguments SignalApply {Cmd}.
Arguments SignalSend {Cmd}.
Arguments GoCommit {Cmd}.
Arguments GoBroadcast {Cmd}.
Arguments GoInstallSnapshot {Cmd} server.
Arguments GoAppendEntries {Cmd} server args.

(** In nanoseconds, as [time.Duration]. *)
Definition HEARTBEAT_INTERVAL : Z := 100 * 1000000.
Definition ELECTION_TIMEOUT : Z := 400 * 1000000.
Definition RANDOM_SLEEP_MIN : Z := 0 * 1000000.
Definition RANDOM_SLEEP_MAX : Z := 300 * 1000000.

(** ** A concrete encoding

    The development is generic in [labgob]; this instance, for integer
    commands, lets the examples run. *)
Definition entry_encode (e : LogEntry Z) : list Z :=
  match Command_ e with None => [0; 0; Term_ e] | Some c => [1; c; Term_ e] end.

Fixpoint entries_decode (l : list Z) : option (list (LogEntry Z)) :=
  match l with
  | [] => Some []
  | k :: c :: t :: rest =>
      match entries_decode rest with
      | Some es => Some (mkEntry (if decide (k = 0) then None else Some c) t :: es)
      | None => None
      end
  | _ => None
  end.

Lemma entries_decode_encode es : entries_decode (es ≫= entry_encode) = Some es.
Proof.
  induction es as [|[[c|] t] es IH]; [done | |];
    cbn [mbind list_bind entry_encode Command_ Term_ app entries_decode];
    change (list_bind _ _ entry_encode es) with (es ≫= entry_encode); by rewrite IH.
Qed.

#[export] Program Instance RaftState_codec : Codec (RaftState Z) := {
  encode st := ps_current_term st :: ps_voted_for st :: ps_last_included_index st
               :: ps_last_included_term st :: (ps_logs st ≫= entry_encode);
  decode l :=
    match l with
    | t :: v :: i :: it :: rest =>
        match entries_decode rest with
        | Some es => Some (mkRaftState t v es i it)
        | None => None
        end
    | _ => None
    end;
}.
Next Obligation. intros [????? ]. cbn. by rewrite entries_decode_encode. Qed.
Next Obligation. done. Qed.

Section Node.
Context {Cmd : Type} `{!Codec (RaftState Cmd)}.
Implicit Types (rf : Raft Cmd) (l : list (LogEntry Cmd)).

(** ** Assignments to the fields *)
Definition with_persister p rf := mkRaft (peers rf) (me rf) p (role_ rf) (current_term_ rf) (voted_for_ rf) (logs_ rf) (last_included_index_ rf) (last_included_term_ rf) (snapshot_ rf) (commit_index_ rf) (last_applied_ rf) (next_index_ rf) (match_index_ rf) (last_heartbeat_time_ rf).
Definition with_role r rf := mkRaft (peers rf) (me rf) (persister rf) r (current_term_ rf) (voted_for_ rf) (logs_ rf) (last_included_index_ rf) (last_included_term_ rf) (snapshot_ rf) (commit_index_ rf) (last_applied_ rf) (next_index_ rf) (match_index_ rf) (last_heartbeat_time_ rf).
Definition with_term t rf := mkRaft (peers rf) (me rf) (persister rf) (role_ rf) t (voted_for_ rf) (logs_ rf) (last_included_index_ rf) (last_included_term_ rf) (snapshot_ rf) (commit_index_ rf) (last_applied_ rf) (next_index_ rf) (match_index_ rf) (last_heartbeat_time_ rf).
Definition with_voted_for v rf := mkRaft (peers rf) (me rf) (persister rf) (role_ rf) (current_term_ rf) v (logs_ rf) (last_included_index_ rf) (last_included_term_ rf) (snapshot_ rf) (commit_index_ rf) (last_applied_ rf) (next_index_ rf) (match_index_ rf) (last_heartbeat_time_ rf).
Definition with_logs l rf := mkRaft (peers rf) (me rf) (persister rf) (role_ rf) (current_term_ rf) (voted_for_ rf) l (last_included_index_ rf) (last_included_term_ rf) (snapshot_ rf) (commit_index_ rf) (last_applied_ rf) (next_index_ rf) (match_index_ rf) (last_heartbeat_time_ rf).
Definition with_included i t rf := mkRaft (peers rf) (me rf) (persister rf) (role_ rf) (current_term_ rf) (voted_for_ rf) (logs_ rf) i t (snapshot_ rf) (commit_index_ rf) (last_applied_ rf) (next_index_ rf) (match_index_ rf) (last_heartbeat_time_ rf).
Definition with_snapshot s rf := mkRaft (peers rf) (me rf) (persister rf) (role_ rf) (current_term_ rf) (voted_for_ rf) (logs_ rf) (last_included_index_ rf) (last_included_term_ rf) s (commit_index_ rf) (last_applied_ rf) (next_index_ rf) (match_index_ rf) (last_heartbeat_time_ rf).
Definition with_commit c rf := mkRaft (peers rf) (me rf) (persister rf) (role_ rf) (current_term_ rf) (voted_for_ rf) (logs_ rf) (last_included_index_ rf) (last_included_term_ rf) (snapshot_ rf) c (last_applied_ rf) (next_index_ rf) (match_index_ rf) (last_heartbeat_time_ rf).
Definition with_applied a rf := mkRaft (peers rf) (me rf) (persister rf) (role_ rf) (current_term_ rf) (voted_for_ rf) (logs_ rf) (last_included_index_ rf) (last_included_term_ rf) (snapshot_ rf) (commit_index_ rf) a (next_index_ rf) (match_index_ rf) (last_heartbeat_time_ rf).
Definition with_indexes n m rf := mkRaft (peers rf) (me rf) (persister rf) (role_ rf) (current_term_ rf) (voted_for_ rf) (logs_ rf) (last_included_index_ rf) (last_included_term_ rf) (snapshot_ rf) (commit_index_ rf) (last_applied_ rf) n m (last_heartbeat_time_ rf).
Definition with_heartbeat t rf := mkRaft (peers rf) (me rf) (persister rf) (role_ rf) (current_term_ rf) (voted_for_ rf) (logs_ rf) (last_included_index_ rf) (last_included_term_ rf) (snapshot_ rf) (commit_index_ rf) (last_applied_ rf) (next_index_ rf) (match_index_ rf) t.

(** ** Log indexing *)
Definition logicalIndexToPhysicalIndex (index : Z) rf : Res Z :=
  if decide (index < last_included_index_ rf) then Panic
  else Ok (u64 (index - last_included_index_ rf)).

Definition getLogEntry (index : Z) rf : Res (LogEntry Cmd) :=
  let* phys := logicalIndexToPhysicalIndex index rf in
  slice_get (logs_ rf) phys.

Definition getLogLength rf : Z :=
  u64 (last_included_index_ rf + u64 (zlen (logs_ rf))).

Definition getLogSlice (b e : Z) rf : Res (list (LogEntry Cmd)) :=
  if decide (b < last_included_index_ rf \/ e > getLogLength rf) then Panic
  else
    let* pb := logicalIndexToPhysicalIndex b rf in
    let* pe := logicalIndexToPhysicalIndex e rf in
    slice_sub (logs_ rf) pb pe.

(** [slices.Clone]: a fresh slice with the same elements. *)
Definition getLogSliceCopy (b e : Z) rf : Res (list (LogEntry Cmd)) :=
  getLogSlice b e rf.

(** ** Persistence *)
Definition persist rf : Raft Cmd :=
  let raft_state := encode (mkRaftState (current_term_ rf) (voted_for_ rf)
                      (logs_ rf) (last_included_index_ rf) (last_included_term_ rf)) in
  with_persister (Save raft_state (snapshot_ rf) (persister rf)) rf.

Definition readPersist (data : list Z) rf : Raft Cmd :=
  if decide (zlen data < 1) then rf else
  match decode data with
  | None => rf
  | Some st =>
      let rf := with_term (ps_current_term st) rf in
      let rf := with_voted_for (ps_voted_for st) rf in
      let rf := with_logs (ps_logs st) rf in
      let rf := with_included (ps_last_included_index st) (ps_last_included_term st) rf in
      with_snapshot (ReadSnapshot (persister rf)) rf
  end.

Definition PersistBytes rf : Z := RaftStateSize (persister rf).

(** [Make]: the peer before its goroutines run.  [n] is [len(peers)]. *)
Definition Make (n my_id : Z) (p : Persister) : Raft Cmd :=
  let rf := mkRaft n my_id p Follower 0 (-1) [zeroEntry (Cmd := Cmd)] 0 0 [] 0 0
              [] [] 0 in
  let rf := with_indexes (replicate (Z.to_nat n) (getLogLength rf))
              (replicate (Z.to_nat n) 0) rf in
  readPersist (ReadRaftState p) rf.

Definition GetState rf : Z * bool :=
  (i64 (current_term_ rf), bool_decide (role_ rf = Leader)).

(** ** Elections *)

(** Adopting a higher term: the four assignments the code makes wherever
    it sees one. *)
Definition stepDown (term : Z) rf : Raft Cmd :=
  persist (with_voted_for (-1) (with_role Follower (with_term term rf))).

(** Giving the vote of the current term. *)
Definition grantVote (now candidate : Z) rf : Raft Cmd :=
  persist (with_heartbeat now (with_voted_for candidate rf)).

(** [RequestVote] from the point where [rf.current_term_ = args.Term_].
    The RPC layer hands every handler a zeroed reply; a field a branch
    does not assign keeps its zero. *)
Definition requestVoteBody (now : Z) (args : RequestVoteArgs) rf : Res (Raft Cmd * RequestVoteReply) :=
  if decide (voted_for_ rf = rv_Candidate_ID args) then
    Ok (with_heartbeat now rf, mkRVReply 0 true)
  else if decide (voted_for_ rf <> -1) then
    Ok (rf, mkRVReply (current_term_ rf) false)
  else
  let* last := getLogEntry (u64 (getLogLength rf - 1)) rf in
  if decide (rv_LastLogTerm args > Term_ last) then
    Ok (grantVote now (rv_Candidate_ID args) rf, mkRVReply (current_term_ rf) true)
  else if decide (rv_LastLogTerm args < Term_ last) then
    Ok (rf, mkRVReply (current_term_ rf) false)
  else if decide (rv_LastLogIndex args >= u64 (getLogLength rf - 1)) then
    (* this branch also assigns current_term_, before persisting *)
    let* rf := Ok (grantVote now (rv_Candidate_ID args) (with_term (rv_Term args) rf)) in
    Ok (rf, mkRVReply (current_term_ rf) true)
  else
    Ok (rf, mkRVReply (current_term_ rf) false).

Definition RequestVote (now : Z) (args : RequestVoteArgs) rf : Res (Raft Cmd * RequestVoteReply) :=
  if decide (rv_Term args < current_term_ rf) then
    Ok (rf, mkRVReply (current_term_ rf) false)
  else
    requestVoteBody now args
      (if decide (rv_Term args > current_term_ rf) then stepDown (rv_Term args) rf else rf).

(** [startElection] up to its [Unlock]: the new term, and the arguments
    every vote goroutine shares. *)
Definition newElection (now : Z) rf : Raft Cmd :=
  persist (with_heartbeat now (with_voted_for (me rf)
    (with_term (u64 (current_term_ rf + 1)) rf))).

Definition startElection (now : Z) rf : Res (Raft Cmd * RequestVoteArgs) :=
  let* rf := Ok (newElection now rf) in
  let* last := getLogEntry (u64 (getLogLength rf - 1)) rf in
  Ok (rf, mkRVArgs (current_term_ rf) (me rf) (u64 (getLogLength rf - 1)) (Term_ last)).

Definition becomeLeader rf : Raft Cmd :=
  with_indexes ((fun _ => getLogLength rf) <$> next_index_ rf)
    ((fun _ => 0) <$> match_index_ rf) (with_role Leader rf).

(** The goroutine of [startElection] that got a reply: [vote_count] is
    the variable the goroutines of one election share; the boolean says
    whether [election_done] receives. *)
Definition voteReply (args : RequestVoteArgs) (reply : RequestVoteReply) (vote_count : Z) rf
  : Raft Cmd * Z * bool * list (Eff Cmd) :=
  if decide (rvr_Term reply > current_term_ rf) then
    (stepDown (rvr_Term reply) rf, vote_count, true, [])
  else if decide (role_ rf <> Candidate \/ current_term_ rf <> rv_Term args) then
    (rf, vote_count, false, [])
  else if rvr_VoteGranted reply then
    if decide (vote_count + 1 > Z.quot (peers rf) 2) then
      (becomeLeader rf, vote_count + 1, true, [GoBroadcast])
    else (rf, vote_count + 1, false, [])
  else (rf, vote_count, false, []).

(** ** Log replication, the follower *)

(** The loop over [args.Entries_]; [index] is computed from
    [relative_index] as the code does. *)
Fixpoint appendEntriesLoop (prev relative_index : Z) (entries : list (LogEntry Cmd))
    (modified : bool) (rf : Raft Cmd) : Res (Raft Cmd * bool) :=
  match entries with
  | [] => Ok (rf, modified)
  | leader_log_entry :: rest =>
      let index := u64 (u64 (prev + 1) + u64 relative_index) in
      if decide (index = getLogLength rf) then
        let rf := with_logs (logs_ rf ++ [leader_log_entry]) rf in
        appendEntriesLoop prev (relative_index + 1) rest true rf
      else
        let* curr_log_entry := getLogEntry index rf in
        if decide (Term_ curr_log_entry <> Term_ leader_log_entry) then
          let* phys := logicalIndexToPhysicalIndex index rf in
          let* l := slice_set (logs_ rf) phys
                      (mkEntry (Command_ leader_log_entry) (Term_ leader_log_entry)) in
          let rf := with_logs l rf in
          let* l := getLogSlice (last_included_index_ rf) (u64 (index + 1)) rf in
          let rf := with_logs l rf in
          appendEntriesLoop prev (relative_index + 1) rest true rf
        else
          appendEntriesLoop prev (relative_index + 1) rest modified rf
  end.

(** The loop that walks back to the first entry of the conflicting term.
    The fuel is the number of entries between the snapshot and the start
    of the walk; running out of it is a panic, and
    [RaftFollower] shows that it does not happen. *)
Fixpoint firstConflict (fuel : nat) (first conflict_term : Z) (rf : Raft Cmd) : Res Z :=
  if decide (first > u64 (last_included_index_ rf + 1)) then
    let* e := getLogEntry (u64 (first - 1)) rf in
    if decide (Term_ e = conflict_term) then
      match fuel with
      | O => Panic
      | S fuel => firstConflict fuel (u64 (first - 1)) conflict_term rf
      end
    else Ok first
  else Ok first.

(** The end of [AppendEntries]: both clamps on the leader's commit index. *)
Definition newCommitIndex (args : AppendEntriesArgs Cmd) rf : Z :=
  Z.min (Z.min (ae_LeaderCommit args) (u64 (getLogLength rf - 1)))
        (u64 (ae_PreviousLogIndex args + u64 (zlen (ae_Entries args)))).

Definition followerCommit (args : AppendEntriesArgs Cmd) rf : Raft Cmd * list (Eff Cmd) :=
  if decide (newCommitIndex args rf <= commit_index_ rf) then (rf, [])
  else (persist (with_commit (newCommitIndex args rf) rf), [SignalApply]).

(** [AppendEntries] after the term is settled and the heartbeat noted. *)
Definition appendEntriesBody (args : AppendEntriesArgs Cmd) rf
  : Res (Raft Cmd * AppendEntriesReplys * list (Eff Cmd)) :=
  if decide (getLogLength rf <= ae_PreviousLogIndex args) then
    Ok (rf, mkAEReply 0 false 0 0 (getLogLength rf), [])
  else if decide (ae_PreviousLogIndex args < last_included_index_ rf) then
    Ok (rf, mkAEReply 0 true 0 0 (getLogLength rf), [])
  else
  let* prev_entry := getLogEntry (ae_PreviousLogIndex args) rf in
  if decide (Term_ prev_entry <> ae_PreviousLogTerm args) then
    let* first_conflict_index :=
      firstConflict (Z.to_nat (ae_PreviousLogIndex args - last_included_index_ rf))
        (ae_PreviousLogIndex args) (Term_ prev_entry) rf in
    Ok (rf, mkAEReply 0 false (Term_ prev_entry) first_conflict_index (getLogLength rf), [])
  else
  let* '(rf, is_logs_modified) :=
    appendEntriesLoop (ae_PreviousLogIndex args) 0 (ae_Entries args) false rf in
  let* '(rf, effs) :=
    Ok (followerCommit args (if is_logs_modified : bool then persist rf else rf)) in
  Ok (rf, mkAEReply 0 true 0 0 0, effs).

(** Adopting the term here leaves the role to the next assignment. *)
Definition adoptTerm (term : Z) rf : Raft Cmd :=
  persist (with_voted_for (-1) (with_term term rf)).

Definition AppendEntries (now : Z) (args : AppendEntriesArgs Cmd) rf
  : Res (Raft Cmd * AppendEntriesReplys * list (Eff Cmd)) :=
  if decide (ae_Term args < current_term_ rf) then
    Ok (rf, mkAEReply (current_term_ rf) false 0 0 0, [])
  else
    appendEntriesBody args
      (with_role Follower (with_heartbeat now
        (if decide (ae_Term args > current_term_ rf) then adoptTerm (ae_Term args) rf else rf))).

(** ** Snapshots *)

(** The service calls [Snapshot] with an [int]. *)
Definition Snapshot (index : Z) (snap : list Z) rf : Res (Raft Cmd) :=
  if decide (u64 index > last_applied_ rf \/ u64 index <= last_included_index_ rf) then
    Ok rf
  else
  let* rf := Ok (with_snapshot snap rf) in
  let* l := getLogSliceCopy (u64 index) (getLogLength rf) rf in
  let* rf := Ok (with_included (u64 index) (last_included_term_ rf) (with_logs l rf)) in
  let* e := getLogEntry (u64 index) rf in
  Ok (persist (with_included (u64 index) (Term_ e) rf)).

Definition InstallSnapshot (args : InstallSnapshotArgs) rf
  : Res (Raft Cmd * InstallSnapshotReplys * list (Eff Cmd)) :=
  if decide (is_Term args < current_term_ rf) then
    Ok (rf, mkISReply (current_term_ rf), [])
  else if decide (is_LastIncludedIndex args <= last_included_index_ rf) then
    Ok (rf, mkISReply (current_term_ rf), [])
  else
  let* keep :=
    if decide (getLogLength rf > is_LastIncludedIndex args) then
      let* e := getLogEntry (is_LastIncludedIndex args) rf in
      Ok (bool_decide (Term_ e = is_LastIncludedTerm args))
    else Ok false in
  let* l :=
    if keep : bool then
      getLogSliceCopy (is_LastIncludedIndex args) (getLogLength rf) rf
    else Ok [zeroEntry] in
  let* rf := Ok (with_included (is_LastIncludedIndex args) (is_LastIncludedTerm args)
                   (with_snapshot (is_Data args) (with_logs l rf))) in
  let* phys := logicalIndexToPhysicalIndex (last_included_index_ rf) rf in
  let* e := slice_get (logs_ rf) phys in
  let* l := slice_set (logs_ rf) phys (mkEntry (Command_ e) (last_included_term_ rf)) in
  let* rf := Ok (with_commit (Z.max (commit_index_ rf) (is_LastIncludedIndex args))
                   (with_logs l rf)) in
  Ok (persist rf, mkISReply (current_term_ rf), [SignalApply]).

(** [sendInstallSnapshot] up to its [Unlock]. *)
Definition installSnapshotArgs rf : InstallSnapshotArgs :=
  mkISArgs (current_term_ rf) (me rf) (last_included_index_ rf)
    (last_included_term_ rf) (snapshot_ rf).

(** [sendInstallSnapshot] from its second [Lock]: [reply] is [None] when
    [Call] returned false. *)
Definition installSnapshotReply (server : Z) (args : InstallSnapshotArgs)
    (reply : option InstallSnapshotReplys) rf : Res (Raft Cmd * list (Eff Cmd)) :=
  match reply with
  | None => Ok (rf, [])
  | Some reply =>
      if decide (isr_Term reply > current_term_ rf) then
        Ok (stepDown (isr_Term reply) rf, [])
      else
        let* m := slice_set (match_index_ rf) server (is_LastIncludedIndex args) in
        let* n := slice_set (next_index_ rf) server (u64 (is_LastIncludedIndex args + 1)) in
        Ok (with_indexes n m rf, [GoCommit])
  end.

(** ** Log replication, the leader *)

Definition sendAppendEntriesHelper (server : Z) rf : Res (list (Eff Cmd)) :=
  let* next := slice_get (next_index_ rf) server in
  if decide (next <= last_included_index_ rf) then Ok [GoInstallSnapshot server]
  else
  let previous_log_index := u64 (next - 1) in
  let* prev := getLogEntry previous_log_index rf in
  let* matched := slice_get (match_index_ rf) server in
  let* entries :=
    if decide (next = u64 (matched + 1)) then
      getLogSliceCopy (u64 (previous_log_index + 1)) (getLogLength rf) rf
    else Ok [] in
  Ok [GoAppendEntries server
        (mkAEArgs (current_term_ rf) (me rf) previous_log_index (Term_ prev) entries
          (commit_index_ rf))].

(** One round of [entriesSender] after [Wait] returned; [i] runs over
    [rf.peers]. *)
Fixpoint sendToPeers (n : nat) (i : Z) (rf : Raft Cmd) : Res (list (Eff Cmd)) :=
  match n with
  | O => Ok []
  | S n =>
      let* effs := if decide (i = me rf) then Ok [] else sendAppendEntriesHelper i rf in
      let* rest := sendToPeers n (i + 1) rf in
      Ok (effs ++ rest)
  end.

Definition entriesSender rf : Res (list (Eff Cmd)) :=
  if decide (role_ rf <> Leader) then Ok []
  else sendToPeers (Z.to_nat (peers rf)) 0 rf.

(** The backwards search for the conflicting term in the leader's log.
    Its fuel is the distance to the snapshot. *)
Fixpoint searchTerm (fuel : nat) (start_index conflict_term : Z) (rf : Raft Cmd) : Res Z :=
  if decide (start_index > last_included_index_ rf) then
    let* e := getLogEntry start_index rf in
    if decide (Term_ e <> conflict_term /\ start_index > 0) then
      match fuel with
      | O => Panic
      | S fuel => searchTerm fuel (u64 (start_index - 1)) conflict_term rf
      end
    else Ok start_index
  else Ok start_index.

Definition newNextIndex (args : AppendEntriesArgs Cmd) (reply : AppendEntriesReplys) rf : Res Z :=
  if decide (aer_LogLenth reply <= ae_PreviousLogIndex args) then Ok (aer_LogLenth reply)
  else if decide (aer_ConflictEntryTerm reply > ae_PreviousLogTerm args) then
    Ok (aer_FirstIndexOfConflictEntryTerm reply)
  else
    let* start_index :=
      searchTerm (Z.to_nat (ae_PreviousLogIndex args - last_included_index_ rf))
        (ae_PreviousLogIndex args) (aer_ConflictEntryTerm reply) rf in
    if decide (start_index = last_included_index_ rf) then
      Ok (aer_FirstIndexOfConflictEntryTerm reply)
    else Ok (u64 (start_index + 1)).

(** [sendAppendEntries] once [Call] returned true. *)
Definition appendEntriesReply (server : Z) (args : AppendEntriesArgs Cmd)
    (reply : AppendEntriesReplys) rf : Res (Raft Cmd * list (Eff Cmd)) :=
  if decide (aer_Term reply > current_term_ rf) then
    Ok (stepDown (aer_Term reply) rf, [])
  else if decide (role_ rf <> Leader \/ current_term_ rf <> ae_Term args) then
    Ok (rf, [])
  else if negb (aer_Success reply) then
    let* matched := slice_get (match_index_ rf) server in
    if decide (matched >= ae_PreviousLogIndex args) then Ok (rf, [])
    else
    let* new_next_index := newNextIndex args reply rf in
    if decide (matched >= new_next_index) then Ok (rf, [])
    else if decide (new_next_index <= last_included_index_ rf) then
      Ok (rf, [GoInstallSnapshot server])
    else
    let* n := slice_set (next_index_ rf) server new_next_index in
    let rf := with_indexes n (match_index_ rf) rf in
    let* effs := sendAppendEntriesHelper server rf in
    Ok (rf, effs)
  else
    let new_match := u64 (ae_PreviousLogIndex args + u64 (zlen (ae_Entries args))) in
    let* matched := slice_get (match_index_ rf) server in
    if decide (new_match > matched) then
      let* m := slice_set (match_index_ rf) server new_match in
      let* n := slice_set (next_index_ rf) server (u64 (new_match + 1)) in
      Ok (with_indexes n m rf, [GoCommit])
    else Ok (rf, [GoCommit]).

(** [slices.SortFunc] with a comparison of integers: the result is the
    one descending arrangement. *)
Fixpoint insert_desc (x : Z) (l : list Z) : list Z :=
  match l with
  | [] => [x]
  | y :: k => if decide (x >= y) then x :: l else y :: insert_desc x k
  end.

Fixpoint sort_desc (l : list Z) : list Z :=
  match l with
  | [] => []
  | x :: k => insert_desc x (sort_desc k)
  end.

Definition majorityIndex rf : Res Z :=
  let* matched := slice_set (match_index_ rf) (me rf) (u64 (getLogLength rf - 1)) in
  slice_get (sort_desc matched) (Z.quot (peers rf) 2).

Definition commit rf : Res (Raft Cmd * list (Eff Cmd)) :=
  if decide (role_ rf <> Leader) then Ok (rf, [])
  else
  let* majority_index := majorityIndex rf in
  if decide (majority_index > commit_index_ rf) then
    let* e := getLogEntry majority_index rf in
    if decide (Term_ e = current_term_ rf) then
      Ok (with_commit majority_index rf, [SignalApply])
    else Ok (rf, [])
  else Ok (rf, []).

(** [Start] returns the index, the term and whether this peer leads. *)
Definition Start (command : Cmd) rf : Raft Cmd * (Z * Z * bool) * list (Eff Cmd) :=
  if decide (role_ rf <> Leader) then
    (rf, (i64 (commit_index_ rf), i64 (current_term_ rf), false), [])
  else
  let rf := with_logs (logs_ rf ++ [mkEntry (Some command) (current_term_ rf)]) rf in
  let index := i64 (i64 (getLogLength rf) - 1) in
  let term := i64 (current_term_ rf) in
  let rf := persist rf in
  (rf, (index, term, true), [SignalSend]).

(** ** Applying *)

(** The applier is awake when [last_applied_ <> commit_index_].  The
    first critical section delivers a snapshot the service has not seen:
    the message goes out after the unlock. *)
Definition applierSnapshot rf : Raft Cmd * option (ApplyMsg Cmd) :=
  if decide (last_applied_ rf < last_included_index_ rf) then
    (with_applied (last_included_index_ rf) rf,
     Some (mkApplyMsg false None 0 true (snapshot_ rf)
             (i64 (last_included_term_ rf)) (i64 (last_included_index_ rf))))
  else (rf, None).

Fixpoint commandMsgs (index : Z) (entries : list (LogEntry Cmd)) : list (ApplyMsg Cmd) :=
  match entries with
  | [] => []
  | e :: rest => mkApplyMsg true (Command_ e) index false [] 0 0
                 :: commandMsgs (i64 (index + 1)) rest
  end.

(** The second critical section, entered with the lock held again. *)
Definition applierCommands rf : Res (Raft Cmd * list (ApplyMsg Cmd)) :=
  if decide (last_applied_ rf = commit_index_ rf) then Ok (rf, [])
  else
  let start := u64 (last_applied_ rf + 1) in
  let* entries := getLogSliceCopy start (u64 (commit_index_ rf + 1)) rf in
  Ok (with_applied (commit_index_ rf) rf, commandMsgs (i64 start) entries).

(** ** The ticker *)

(** After the sleep of a [Follower]. *)
Definition tickerFollower (now : Z) rf : Raft Cmd :=
  if decide (role_ rf = Follower /\ now - last_heartbeat_time_ rf >= ELECTION_TIMEOUT)
  then with_role Candidate rf
  else rf.

(** After the random sleep of a [Candidate]: whether [startElection] is
    called.  The lock is released between this test and the call. *)
Definition tickerCandidate rf : bool := bool_decide (role_ rf = Candidate).

(** The duration [randomSleep] sleeps, from the random draw [r]. *)
Definition randomSleepTime (min_time max_time r : Z) : Z :=
  if decide (max_time <= min_time) then 0
  else min_time + Z.rem r (max_time - min_time).
End Node.
