(* ===== verification/RaftStep.v ===== *)
(** * The life of one peer: every way its state can change

    [node_step] has one constructor per critical section of
    [raft1/raft.go] and puts no condition on messages, so what it
    preserves holds whatever the network and the other peers do.  The
    file proves the term and vote discipline and the durability
    invariant behind crash recovery. *)
From S2P Require Import Prelude Persister RaftNode.

Section Step.
Context {Cmd : Type} `{!Codec (RaftState Cmd)}.
Implicit Types (rf : Raft Cmd).

(** The critical sections that take no part in an election. *)
Inductive local_step : Raft Cmd -> Raft Cmd -> Prop :=
| ls_AppendEntries now args rf rf' reply effs :
    AppendEntries now args rf = Ok (rf', reply, effs) -> local_step rf rf'
| ls_InstallSnapshot args rf rf' reply effs :
    InstallSnapshot args rf = Ok (rf', reply, effs) -> local_step rf rf'
| ls_installSnapshotReply server args reply rf rf' effs :
    installSnapshotReply server args reply rf = Ok (rf', effs) -> local_step rf rf'
| ls_appendEntriesReply server args reply rf rf' effs :
    appendEntriesReply server args reply rf = Ok (rf', effs) -> local_step rf rf'
| ls_commit rf rf' effs :
    commit rf = Ok (rf', effs) -> local_step rf rf'
| ls_Start cmd rf rf' r effs :
    Start cmd rf = (rf', r, effs) -> local_step rf rf'
| ls_Snapshot index snap rf rf' :
    Snapshot index snap rf = Ok rf' -> local_step rf rf'
| ls_applierSnapshot rf rf' msg :
    applierSnapshot rf = (rf', msg) -> local_step rf rf'
| ls_applierCommands rf rf' msgs :
    applierCommands rf = Ok (rf', msgs) -> local_step rf rf'
| ls_tickerFollower now rf :
    local_step rf (tickerFollower now rf).

(** Every way a peer changes, a crash and restart from its persister
    included.  The term counter is assumed not to wrap. *)
Inductive node_step : Raft Cmd -> Raft Cmd -> Prop :=
| ns_local rf rf' :
    local_step rf rf' -> node_step rf rf'
| ns_RequestVote now args rf rf' reply :
    RequestVote now args rf = Ok (rf', reply) -> node_step rf rf'
| ns_startElection now rf rf' args :
    startElection now rf = Ok (rf', args) ->
    0 <= current_term_ rf < 2 ^ 64 - 1 ->
    node_step rf rf'
| ns_voteReply args reply count rf rf' count' done effs :
    voteReply args reply count rf = (rf', count', done, effs) -> node_step rf rf'
| ns_restart rf :
    node_step rf (Make (peers rf) (me rf) (persister rf)).

(** ** The loop of AppendEntries changes the log only *)
Definition same_but_logs rf rf' : Prop := rf' = with_logs (logs_ rf') rf.

Lemma same_but_logs_trans a b c :
  same_but_logs a b -> same_but_logs b c -> same_but_logs a c.
Proof. unfold same_but_logs. intros -> H. rewrite H. by destruct a. Qed.

Lemma same_but_logs_with_logs l rf : same_but_logs rf (with_logs l rf).
Proof. done. Qed.

Lemma same_but_logs_refl rf : same_but_logs rf rf.
Proof. by destruct rf. Qed.

Lemma appendEntriesLoop_frame prev es rel m rf rf' m' :
  appendEntriesLoop prev rel es m rf = Ok (rf', m') -> same_but_logs rf rf'.
Proof.
  revert rel m rf. induction es as [|e es IH]; intros rel m rf H; simpl in H.
  - injection H as <- <-. apply same_but_logs_refl.
  - case_decide; [| res_inv; case_decide].
    + eapply same_but_logs_trans; [apply same_but_logs_with_logs | by eapply IH].
    + res_inv. eapply same_but_logs_trans;
        [ apply same_but_logs_with_logs | ].
      eapply same_but_logs_trans; [| by eapply IH]. apply same_but_logs_with_logs.
    + by eapply IH.
Qed.

(** When the loop reports no modification the log is the old one. *)
Lemma appendEntriesLoop_unmodified prev es rel m rf rf' :
  appendEntriesLoop prev rel es m rf = Ok (rf', false) -> rf' = rf /\ m = false.
Proof.
  revert rel m rf. induction es as [|e es IH]; intros rel m rf H; simpl in H.
  - by injection H as <- <-.
  - case_decide; [| res_inv; case_decide].
    + apply IH in H as [_ ?]; done.
    + res_inv. apply IH in H as [_ ?]; done.
    + by eapply IH.
Qed.

(** ** Durability *)

Definition persisted rf : RaftState Cmd :=
  mkRaftState (current_term_ rf) (voted_for_ rf) (logs_ rf)
    (last_included_index_ rf) (last_included_term_ rf).

Definition fresh_state : RaftState Cmd := mkRaftState 0 (-1) [zeroEntry] 0 0.

(** What is on stable storage is what is in memory; before the first
    [persist], storage is empty and memory holds the initial values. *)
Definition durable rf : Prop :=
  (persister rf = MakePersister /\ persisted rf = fresh_state /\ snapshot_ rf = []) \/
  (raftstate (persister rf) = encode (persisted rf) /\
   snapshot (persister rf) = snapshot_ rf).

Lemma persist_durable rf : durable (persist rf).
Proof. right. unfold persist, Save, persisted. simpl. by rewrite !clone_id. Qed.

(** Changes that do not touch the persistent fields keep durability. *)
Lemma durable_frame rf rf' :
  durable rf -> persisted rf' = persisted rf -> snapshot_ rf' = snapshot_ rf ->
  persister rf' = persister rf -> durable rf'.
Proof. unfold durable. intros H -> -> ->. done. Qed.

Lemma Make_recovers n i rf :
  durable rf ->
  let rf' := Make n i (persister rf) in
  persisted rf' = persisted rf /\ snapshot_ rf' = snapshot_ rf /\ persister rf' = persister rf.
Proof.
  unfold Make, readPersist, ReadRaftState, ReadSnapshot. rewrite clone_id.
  intros [(Hp & Hs & Hsn) | [Hr Hs]].
  - rewrite Hp. simpl. by rewrite Hs, Hsn.
  - rewrite Hr, decode_encode. case_decide as Hl; simpl.
    { exfalso. pose proof (encode_nonempty (persisted rf)).
      destruct (encode (persisted rf)); [done |].
      rewrite zlen_cons in Hl. pose proof (zlen_nonneg l). lia. }
    unfold ReadSnapshot. rewrite clone_id, Hs. done.
Qed.

#[local] Hint Resolve persist_durable : go.
#[local] Hint Extern 1 (durable _) => (eapply durable_frame; [eassumption | reflexivity ..]) : go.
#[local] Hint Extern 2 (durable _) => (eapply durable_frame; [apply persist_durable | reflexivity ..]) : go.

Lemma durable_RequestVote now args rf rf' reply :
  RequestVote now args rf = Ok (rf', reply) -> durable rf -> durable rf'.
Proof.
  unfold RequestVote. intros H D. case_decide; [res_inv; done |].
  assert (forall rf1, durable rf1 -> requestVoteBody now args rf1 = Ok (rf', reply) -> durable rf') as K.
  { clear. unfold requestVoteBody, grantVote. intros rf1 D H.
    repeat (case_decide; res_inv; eauto with go). }
  eapply K; [| exact H]. case_decide; unfold stepDown; eauto with go.
Qed.

Lemma durable_AppendEntries now args rf rf' reply effs :
  AppendEntries now args rf = Ok (rf', reply, effs) -> durable rf -> durable rf'.
Proof.
  unfold AppendEntries. intros H D. case_decide; [res_inv; done |].
  assert (forall rf1, durable rf1 -> appendEntriesBody args rf1 = Ok (rf', reply, effs) ->
    durable rf') as K.
  { clear. unfold appendEntriesBody. intros rf1 D H.
    repeat (case_decide; res_inv; eauto with go).
    match goal with E : appendEntriesLoop _ _ _ _ _ = Ok (?rf2, ?modified) |- _ =>
      assert (durable (if modified then persist rf2 else rf2)) as D2;
      [ destruct modified; [by apply persist_durable |];
        apply appendEntriesLoop_unmodified in E as [-> _]; done |] end.
    unfold followerCommit in *. case_decide; simplify_eq; eauto with go. }
  eapply K; [| exact H]. case_decide; unfold adoptTerm; eauto with go.
Qed.

Lemma durable_InstallSnapshot args rf rf' reply effs :
  InstallSnapshot args rf = Ok (rf', reply, effs) -> durable rf -> durable rf'.
Proof.
  unfold InstallSnapshot. intros H D.
  repeat (case_decide; [res_inv; done |]).
  apply res_bind_ok in H as (keep & _ & H). apply res_bind_ok in H as (l & _ & H).
  res_inv. apply persist_durable.
Qed.

Lemma durable_local rf rf' : local_step rf rf' -> durable rf -> durable rf'.
Proof.
  intros H D. destruct H.
  - eauto using durable_AppendEntries.
  - eauto using durable_InstallSnapshot.
  - unfold installSnapshotReply in H. destruct reply; [| res_inv; done].
    case_decide; res_inv; unfold stepDown; eauto with go.
  - unfold appendEntriesReply in H. destruct (aer_Success reply); simpl in H.
    all: repeat (case_decide; res_inv; unfold stepDown; eauto with go).
  - unfold commit in H. repeat (case_decide; res_inv; eauto with go).
  - unfold Start in H. case_decide; simplify_eq; eauto with go.
  - unfold Snapshot in H. case_decide; res_inv; eauto with go.
  - unfold applierSnapshot in H. case_decide; simplify_eq; eauto with go.
  - unfold applierCommands in H. case_decide; res_inv; eauto with go.
  - unfold tickerFollower. case_decide; eauto with go.
Qed.

Lemma durable_node rf rf' : node_step rf rf' -> durable rf -> durable rf'.
Proof.
  intros H D. destruct H.
  - eauto using durable_local.
  - eauto using durable_RequestVote.
  - unfold startElection in H. res_inv. apply persist_durable.
  - unfold voteReply in H. go_cases_in H; simplify_eq; unfold stepDown, becomeLeader; eauto with go.
  - destruct (Make_recovers (peers rf) (me rf) rf D) as (? & ? & ?).
    eapply durable_frame; eauto.
Qed.

(** ** Terms and votes *)

(** What an operation does to the fields an election depends on: either
    nothing, or it moves to a higher term without a vote and without
    leading it. *)
Definition votes_frame rf rf' : Prop :=
  peers rf' = peers rf /\ me rf' = me rf /\
  ((current_term_ rf' = current_term_ rf /\ voted_for_ rf' = voted_for_ rf /\
    (role_ rf' = Leader -> role_ rf = Leader)) \/
   (current_term_ rf < current_term_ rf' /\ voted_for_ rf' = -1 /\ role_ rf' <> Leader)).

Lemma votes_frame_refl rf rf' :
  peers rf' = peers rf -> me rf' = me rf -> current_term_ rf' = current_term_ rf ->
  voted_for_ rf' = voted_for_ rf -> (role_ rf' = Leader -> role_ rf = Leader) ->
  votes_frame rf rf'.
Proof. unfold votes_frame. auto 10. Qed.

Lemma votes_frame_stepDown t rf : t > current_term_ rf -> votes_frame rf (stepDown t rf).
Proof. unfold votes_frame. intros. split_and!; [done.. |]. right. simpl. split_and!; [lia | done..]. Qed.

#[local] Hint Extern 1 (votes_frame _ _) => (apply votes_frame_refl; solve [reflexivity | tauto | discriminate]) : go.
#[local] Hint Resolve votes_frame_stepDown : go.

Lemma votes_AppendEntries now args rf rf' reply effs :
  AppendEntries now args rf = Ok (rf', reply, effs) -> votes_frame rf rf'.
Proof.
  unfold AppendEntries. intros H. case_decide; [res_inv; eauto with go |].
  set (rf1 := with_role Follower _) in H.
  assert (votes_frame rf rf1 /\ role_ rf1 = Follower) as [V1 R1].
  { subst rf1. case_decide; split; try done; eauto with go.
    unfold votes_frame; simpl. split_and!; [done.. |]. right. split_and!; [lia | done..]. }
  clearbody rf1.
  assert (peers rf' = peers rf1 /\ me rf' = me rf1 /\ current_term_ rf' = current_term_ rf1 /\
    voted_for_ rf' = voted_for_ rf1 /\ role_ rf' = role_ rf1) as (Hp & Hm & Ht & Hv & Hr).
  { unfold appendEntriesBody in H. repeat (case_decide; res_inv; try done).
    match goal with E : appendEntriesLoop _ _ _ _ _ = _ |- _ =>
      apply appendEntriesLoop_frame in E; unfold same_but_logs in E; rewrite E in * end.
    unfold followerCommit in *. case_decide; simplify_eq; destruct b; done. }
  unfold votes_frame in *. rewrite Hp, Hm, Ht, Hv, Hr, R1 in *. naive_solver.
Qed.

Lemma votes_local rf rf' : local_step rf rf' -> votes_frame rf rf'.
Proof.
  intros H. destruct H.
  - eauto using votes_AppendEntries.
  - unfold InstallSnapshot in H.
    repeat (case_decide; [res_inv; eauto with go |]).
    apply res_bind_ok in H as (keep & _ & H). apply res_bind_ok in H as (l & _ & H).
    res_inv. apply votes_frame_refl; auto.
  - unfold installSnapshotReply in H. destruct reply; [| res_inv; eauto with go].
    case_decide; res_inv; eauto with go.
  - unfold appendEntriesReply in H. destruct (aer_Success reply); simpl in H.
    all: repeat (case_decide; res_inv; eauto with go).
  - unfold commit in H. repeat (case_decide; res_inv; eauto with go).
  - unfold Start in H. case_decide; simplify_eq; eauto with go.
  - unfold Snapshot in H. case_decide; res_inv; eauto with go.
  - unfold applierSnapshot in H. case_decide; simplify_eq; eauto with go.
  - unfold applierCommands in H. case_decide; res_inv; eauto with go.
  - unfold tickerFollower. case_decide; eauto with go.
Qed.

Lemma votes_RequestVote now args rf rf' reply :
  RequestVote now args rf = Ok (rf', reply) ->
  peers rf' = peers rf /\ me rf' = me rf /\
  (role_ rf' = Leader -> role_ rf = Leader /\ current_term_ rf' = current_term_ rf) /\
  current_term_ rf' = Z.max (current_term_ rf) (rv_Term args) /\
  (current_term_ rf' = current_term_ rf -> voted_for_ rf <> -1 -> voted_for_ rf' = voted_for_ rf) /\
  (rvr_VoteGranted reply = true ->
     current_term_ rf' = rv_Term args /\ voted_for_ rf' = rv_Candidate_ID args).
Proof.
  unfold RequestVote. intros H. case_decide; [res_inv; simpl; split_and!; auto; lia |].
  set (rf1 := if decide _ then _ else _) in H.
  assert (peers rf1 = peers rf /\ me rf1 = me rf /\
    (role_ rf1 = Leader -> role_ rf = Leader /\ current_term_ rf1 = current_term_ rf) /\
    current_term_ rf1 = rv_Term args /\ current_term_ rf <= current_term_ rf1 /\
    (current_term_ rf1 = current_term_ rf -> voted_for_ rf1 = voted_for_ rf))
    as (Hp & Hm & Hr & Ht & Hle & Hv).
  { subst rf1. case_decide; simpl; split_and!; auto; try lia; discriminate. }
  clearbody rf1. unfold requestVoteBody, grantVote in H.
  repeat (case_decide; res_inv; simpl in *).
  all: split_and!; first [lia | congruence | intuition (lia || congruence)].
Qed.

Lemma votes_startElection now rf rf' args :
  startElection now rf = Ok (rf', args) -> 0 <= current_term_ rf < 2 ^ 64 - 1 ->
  peers rf' = peers rf /\ me rf' = me rf /\ role_ rf' = role_ rf /\
  current_term_ rf' = current_term_ rf + 1 /\ voted_for_ rf' = me rf /\
  rv_Term args = current_term_ rf' /\ rv_Candidate_ID args = me rf.
Proof.
  unfold startElection. intros H Ht. res_inv. simpl.
  rewrite u64_small by lia. done.
Qed.

Lemma votes_voteReply args reply count rf rf' count' done effs :
  voteReply args reply count rf = (rf', count', done, effs) ->
  votes_frame rf rf' /\ count' = count \/
  (peers rf' = peers rf /\ me rf' = me rf /\ current_term_ rf' = current_term_ rf /\
   voted_for_ rf' = voted_for_ rf /\ current_term_ rf = rv_Term args /\
   rvr_VoteGranted reply = true /\ count' = count + 1 /\ role_ rf = Candidate /\
   (role_ rf' = Leader -> count' > Z.quot (peers rf) 2)).
Proof.
  unfold voteReply. intros H. go_cases_in H; simplify_eq.
  all: try (left; split; eauto with go; fail).
  - right. apply Decidable.not_or in n0 as [Hr Ht].
    apply dec_stable in Hr, Ht. simpl. split_and!; auto.
  - right. apply Decidable.not_or in n0 as [Hr Ht].
    apply dec_stable in Hr, Ht. simpl. split_and!; auto. congruence.
Qed.

(** Restarting recovers the term and the vote. *)
Lemma votes_restart rf :
  durable rf ->
  let rf' := Make (peers rf) (me rf) (persister rf) in
  peers rf' = peers rf /\ me rf' = me rf /\ current_term_ rf' = current_term_ rf /\
  voted_for_ rf' = voted_for_ rf /\ role_ rf' = Follower.
Proof.
  intros D. destruct (Make_recovers (peers rf) (me rf) rf D) as (Hs & _ & _).
  unfold persisted in Hs. cbv zeta. injection Hs as Ht Hv _ _ _.
  split_and!; auto.
  all: unfold Make, readPersist; case_decide; [done |]; by destruct (decode _).
Qed.

End Step.

(** ** Properties *)

(** The life of a peer from its first start. *)
Definition lives {Cmd} `{!Codec (RaftState Cmd)} (n i : Z) : Raft Cmd -> Prop :=
  reachable (fun rf => rf = Make n i MakePersister) node_step.

Lemma lives_durable {Cmd} `{!Codec (RaftState Cmd)} n i (rf : Raft Cmd) :
  lives n i rf -> durable rf.
Proof.
  apply invariant_reachable.
  - intros ? ->. left. done.
  - intros ? ? D H. by eapply durable_node.
Qed.

(** C18: Crash safety.  At any moment of a peer's life, also between two
    critical sections of one RPC exchange, a crash and restart from the
    persister recovers the term, the vote, the log, the snapshot's index
    and term and the snapshot itself exactly as they were in memory. *)
Theorem restart_recovers {Cmd} `{!Codec (RaftState Cmd)} n i (rf : Raft Cmd) :
  lives n i rf ->
  persisted (Make (peers rf) (me rf) (persister rf)) = persisted rf /\
  snapshot_ (Make (peers rf) (me rf) (persister rf)) = snapshot_ rf.
Proof.
  intros L%lives_durable. by destruct (Make_recovers (peers rf) (me rf) rf L) as (? & ? & _).
Qed.

(** One vote per term.  No critical section and no crash lowers the
    term, and within a term a vote, once given, is never changed. *)
Theorem one_vote_per_term {Cmd} `{!Codec (RaftState Cmd)} n i (rf rf' : Raft Cmd) :
  lives n i rf -> node_step rf rf' ->
  current_term_ rf <= current_term_ rf' /\
  (current_term_ rf' = current_term_ rf -> voted_for_ rf <> -1 -> voted_for_ rf' = voted_for_ rf).
Proof.
  intros L%lives_durable H. destruct H.
  - destruct (votes_local _ _ H) as (_ & _ & [(-> & -> & _) | (? & _ & _)]); [done | lia].
  - destruct (votes_RequestVote _ _ _ _ _ H) as (_ & _ & _ & -> & Hv & _). split; [lia | done].
  - destruct (votes_startElection _ _ _ _ H) as (_ & _ & _ & -> & _); lia.
  - apply votes_voteReply in H as [[(_ & _ & [(-> & -> & _) | (? & _ & _)]) _] | (_ & _ & -> & -> & _)];
      [done | lia | done].
  - destruct (votes_restart _ L) as (_ & _ & -> & -> & _). done.
Qed.

(** Peer 1 of three votes for peer 0 in term 1. *)
Definition ex_voter : Raft Z :=
  match RequestVote 5 (mkRVArgs 1 0 0 0) (Make 3 1 MakePersister) with
  | Ok (rf, _) => rf
  | Panic => Make 3 1 MakePersister
  end.

Lemma ex_voter_lives : lives 3 1 ex_voter.
Proof.
  eapply reach_step; [by apply reach_init |].
  apply (ns_RequestVote 5 (mkRVArgs 1 0 0 0) _ _ (mkRVReply 1 true)). vm_compute. reflexivity.
Qed.

Lemma restart_recovers_witness :
  lives 3 1 ex_voter /\
  voted_for_ (Make (peers ex_voter) (me ex_voter) (persister ex_voter)) = 0.
Proof.
  split; [apply ex_voter_lives |].
  destruct (restart_recovers 3 1 ex_voter ex_voter_lives) as [H _].
  change (ps_voted_for (persisted (Make (peers ex_voter) (me ex_voter) (persister ex_voter))) = 0).
  rewrite H. reflexivity.
Defined.

(** Candidate 2 asks in the same term. *)
Lemma one_vote_per_term_witness :
  exists rf' reply, RequestVote 6 (mkRVArgs 1 2 9 9) ex_voter = Ok (rf', reply) /\
    voted_for_ rf' = 0.
Proof.
  destruct (RequestVote 6 (mkRVArgs 1 2 9 9) ex_voter) as [[rf' reply]|] eqn:H;
    [| vm_compute in H; discriminate H].
  exists rf', reply. split; [reflexivity |].
  destruct (one_vote_per_term 3 1 ex_voter rf' ex_voter_lives
    (ns_RequestVote _ _ _ _ _ H)) as [_ K].
  rewrite K; [reflexivity | vm_compute in H; injection H as <- _; reflexivity
             | vm_compute; discriminate].
Defined.
