(* ===== verification/RaftElection.v ===== *)
(** * Elections in a cluster ([raft1/raft.go], [ticker] and [startElection])

    All peers of a cluster with the vote requests and replies in flight.
    Requests and replies are never forgotten: any of them may be
    delivered at any time and in any order, which covers loss, delay and
    reordering.  The critical sections that take no part in elections
    run with arbitrary messages.  Peers crash and restart from their
    persisters.  The ticker of a [Candidate] tests the role in one
    critical section and calls [startElection] in a later one, and
    anything may happen in between. *)
From stdpp Require Import functions.
From S2P Require Import Prelude Persister RaftNode RaftStep.

(** The vote goroutines of one call of [startElection]. *)
Record Election := mkElection {
  el_args : RequestVoteArgs;
  el_pending : list Z;        (* the servers whose goroutine still waits *)
  el_count : Z;               (* the shared [vote_count] *)
}.

Section Cluster.
Context {Cmd : Type} `{!Codec (RaftState Cmd)}.
Variable n : Z.               (* len(peers) *)

Record Cluster := mkCluster {
  node : Z -> Raft Cmd;
  elections : Z -> list Election;
  starting : Z -> bool;       (* the ticker passed its test, startElection not yet called *)
  requests : list (RequestVoteArgs * Z);
  replies : list (RequestVoteArgs * Z * RequestVoteReply);
}.

Definition is_peer (i : Z) : Prop := 0 <= i < n.

(** [for index := range rf.peers], without [rf.me]. *)
Definition others (i : Z) : list Z := filter (fun k : Z => k <> i) (seqZ 0 n).

Definition init_cluster (cl : Cluster) : Prop :=
  (forall i, is_peer i -> node cl i = Make n i MakePersister) /\
  (forall i, elections cl i = []) /\ (forall i, starting cl i = false) /\
  requests cl = [] /\ replies cl = [].

Definition set_node i rf cl :=
  mkCluster (<[i := rf]> (node cl)) (elections cl) (starting cl) (requests cl) (replies cl).
Definition set_elections i es cl :=
  mkCluster (node cl) (<[i := es]> (elections cl)) (starting cl) (requests cl) (replies cl).
Definition set_starting i b cl :=
  mkCluster (node cl) (elections cl) (<[i := b]> (starting cl)) (requests cl) (replies cl).
Definition add_requests qs cl :=
  mkCluster (node cl) (elections cl) (starting cl) (qs ++ requests cl) (replies cl).
Definition add_reply r cl :=
  mkCluster (node cl) (elections cl) (starting cl) (requests cl) (r :: replies cl).

(** A crash and restart from the persister. *)
Definition restarted i cl :=
  set_starting i false (set_elections i []
    (set_node i (Make (peers (node cl i)) (me (node cl i)) (persister (node cl i))) cl)).

#[local] Unset Elimination Schemes.
(** The steps of elections: the handler of a request, the goroutines that
    wait for replies, and the ticker of a candidate. *)
Inductive election_step (cl : Cluster) : Cluster -> Prop :=
| cs_vote i now args rf reply :
    is_peer i -> (args, i) ∈ requests cl ->
    RequestVote now args (node cl i) = Ok (rf, reply) ->
    election_step cl (add_reply (args, i, reply) (set_node i rf cl))
| cs_vote_reply i e before after server reply rf count done effs :
    is_peer i -> elections cl i = before ++ e :: after ->
    server ∈ el_pending e -> (el_args e, server, reply) ∈ replies cl ->
    voteReply (el_args e) reply (el_count e) (node cl i) = (rf, count, done, effs) ->
    election_step cl
      (set_elections i
         (before ++ mkElection (el_args e) (remove Z.eq_dec server (el_pending e)) count :: after)
         (set_node i rf cl))
| cs_call_failed i e before after server :
    is_peer i -> elections cl i = before ++ e :: after -> server ∈ el_pending e ->
    election_step cl
      (set_elections i
         (before ++ mkElection (el_args e) (remove Z.eq_dec server (el_pending e)) (el_count e)
            :: after) cl)
| cs_ticker_test i :
    is_peer i -> tickerCandidate (node cl i) = true ->
    election_step cl (set_starting i true cl)
| cs_start i now rf args :
    is_peer i -> starting cl i = true ->
    startElection now (node cl i) = Ok (rf, args) ->
    election_step cl
      (set_starting i false
        (set_elections i (mkElection args (others i) 1 :: elections cl i)
          (add_requests ((fun s => (args, s)) <$> others i) (set_node i rf cl)))).
#[local] Set Elimination Schemes.

#[local] Unset Elimination Schemes.
Inductive cluster_step (cl : Cluster) : Cluster -> Prop :=
| cs_local i rf :
    is_peer i -> local_step (node cl i) rf ->
    cluster_step cl (set_node i rf cl)
| cs_election cl' :
    election_step cl cl' -> cluster_step cl cl'
| cs_restart i :
    is_peer i -> cluster_step cl (restarted i cl).
#[local] Set Elimination Schemes.

(** [startElection] ran at a peer that was already leading: it became
    leader after the ticker's test. *)
Definition starts_while_leader (cl cl' : Cluster) : Prop :=
  exists i, is_peer i /\ starting cl i = true /\ starting cl' i = false /\
    role_ (node cl i) = Leader /\ role_ (node cl' i) = Leader.

(** The steps without that race and before any term counter wraps. *)
Definition quiet_step (cl cl' : Cluster) : Prop :=
  cluster_step cl cl' /\ ~ starts_while_leader cl cl' /\
  (forall i, is_peer i -> current_term_ (node cl i) < 2 ^ 64 - 1).

Definition one_leader_per_term (cl : Cluster) : Prop :=
  forall i j, is_peer i -> is_peer j ->
    role_ (node cl i) = Leader -> role_ (node cl j) = Leader ->
    current_term_ (node cl i) = current_term_ (node cl j) -> i = j.

(** ** The invariant *)

(** Server [s] voted for [c] in term [t]: it answered so, or it is the
    candidate itself and asked others to. *)
Definition voted (cl : Cluster) (s t c : Z) : Prop :=
  (exists args r, (args, s, r) ∈ replies cl /\ rvr_VoteGranted r = true /\
     rv_Term args = t /\ rv_Candidate_ID args = c) \/
  (s = c /\ exists args k, (args, k) ∈ requests cl /\ rv_Term args = t /\ rv_Candidate_ID args = c).

Definition peer_set : gset Z := list_to_set (seqZ 0 n).

(** What the vote goroutines of peer [i] may know. *)
Definition election_ok (cl : Cluster) (i : Z) (e : Election) : Prop :=
  rv_Candidate_ID (el_args e) = i /\ (i ∉ el_pending e) /\
  (forall s, s ∈ el_pending e -> (el_args e, s) ∈ requests cl) /\
  exists Q : gset Z, (Q ⊆ peer_set) /\ (i ∉ Q) /\ (forall s, s ∈ Q -> s ∉ el_pending e) /\
    el_count e = 1 + Z.of_nat (size Q) /\
    (forall s, s ∈ Q -> voted cl s (rv_Term (el_args e)) i).

Record inv (cl : Cluster) : Prop := {
  inv_nodes : forall i, is_peer i ->
    peers (node cl i) = n /\ me (node cl i) = i /\ 0 <= current_term_ (node cl i) /\
    durable (node cl i);
  inv_requests : forall args k, (args, k) ∈ requests cl -> is_peer (rv_Candidate_ID args);
  inv_replies : forall args s r, (args, s, r) ∈ replies cl ->
    is_peer s /\ exists k, (args, k) ∈ requests cl;
  inv_voted : forall s t c, voted cl s t c ->
    t < current_term_ (node cl s) \/
    (t = current_term_ (node cl s) /\ voted_for_ (node cl s) = c);
  inv_unique : forall s t c c', voted cl s t c -> voted cl s t c' -> c = c';
  inv_elections : forall i e, is_peer i -> e ∈ elections cl i -> election_ok cl i e;
  inv_leader : forall i, is_peer i -> role_ (node cl i) = Leader ->
    exists Q : gset Z, (Q ⊆ peer_set) /\ n < 2 * Z.of_nat (size Q) /\
      forall s, s ∈ Q -> voted cl s (current_term_ (node cl i)) i;
}.

Lemma fn_insert_eq {A} (f : Z -> A) i x : <[i := x]> f i = x.
Proof. apply fn_lookup_insert. Qed.
Lemma fn_insert_ne {A} (f : Z -> A) i j x : i <> j -> <[i := x]> f j = f j.
Proof. apply fn_lookup_insert_ne. Qed.

Lemma elem_of_peer_set i : i ∈ peer_set <-> is_peer i.
Proof. unfold peer_set, is_peer. rewrite elem_of_list_to_set, elem_of_seqZ. lia. Qed.

Lemma size_peer_set : 0 <= n -> Z.of_nat (size peer_set) = n.
Proof.
  intros. unfold peer_set. rewrite size_list_to_set by apply NoDup_seqZ.
  rewrite length_seqZ. lia.
Qed.

(** Two majorities of the peers share a server. *)
Lemma majorities_intersect (Q1 Q2 : gset Z) :
  0 <= n -> Q1 ⊆ peer_set -> Q2 ⊆ peer_set ->
  n < 2 * Z.of_nat (size Q1) -> n < 2 * Z.of_nat (size Q2) -> exists s, s ∈ Q1 /\ s ∈ Q2.
Proof.
  intros Hn H1 H2 S1 S2.
  destruct (decide (Q1 ∩ Q2 = ∅)) as [E|E].
  - exfalso. assert (size (Q1 ∪ Q2) = (size Q1 + size Q2)%nat) as Hs
      by (apply size_union; set_solver).
    assert (Q1 ∪ Q2 ⊆ peer_set) as Hle by set_solver.
    apply subseteq_size in Hle. pose proof (size_peer_set Hn). lia.
  - apply set_choose_L in E as [s Hs]. exists s. set_solver.
Qed.

Lemma inv_one_leader cl : 0 <= n -> inv cl -> one_leader_per_term cl.
Proof.
  intros Hn I i j Hi Hj Li Lj Ht.
  destruct (inv_leader _ I i Hi Li) as (Q1 & Hs1 & Hm1 & Hv1).
  destruct (inv_leader _ I j Hj Lj) as (Q2 & Hs2 & Hm2 & Hv2).
  destruct (majorities_intersect Q1 Q2) as (s & E1 & E2); [done.. |].
  eapply (inv_unique _ I); [by apply Hv1 |]. rewrite Ht. by apply Hv2.
Qed.

(** ** Preservation *)

(** [voted] only grows. *)
Lemma voted_mono cl cl' s t c :
  replies cl ⊆ replies cl' -> requests cl ⊆ requests cl' -> voted cl s t c -> voted cl' s t c.
Proof. intros Hr Hq [(a & r & ? & ?) | (? & a & k & ? & ?)]; [left | right]; naive_solver. Qed.

Lemma voted_same cl cl' s t c :
  replies cl' = replies cl -> requests cl' = requests cl -> voted cl' s t c <-> voted cl s t c.
Proof. unfold voted. intros -> ->. done. Qed.

Lemma voted_candidate cl s t c : inv cl -> voted cl s t c -> is_peer c.
Proof.
  intros I [(a & r & Ha & _ & _ & <-) | (-> & a & k & Ha & _ & <-)].
  - destruct (inv_replies _ I _ _ _ Ha) as (_ & k & Hk). by apply (inv_requests _ I) in Hk.
  - by apply (inv_requests _ I) in Ha.
Qed.

Lemma voted_server cl s t c : inv cl -> voted cl s t c -> is_peer s.
Proof.
  intros I V. destruct V as [(a & r & Ha & _) | (-> & ?)].
  - by destruct (inv_replies _ I _ _ _ Ha).
  - eapply voted_candidate; [done |]. right. eauto.
Qed.

(** A peer's step that respects the votes it gave. *)
Definition keeps_votes (rf rf' : Raft Cmd) : Prop :=
  current_term_ rf < current_term_ rf' \/
  (current_term_ rf' = current_term_ rf /\
   (voted_for_ rf <> -1 -> voted_for_ rf' = voted_for_ rf)).

Lemma keeps_voted cl i rf s t c :
  inv cl -> keeps_votes (node cl i) rf -> voted cl s t c ->
  t < current_term_ (<[i := rf]> (node cl) s) \/
  (t = current_term_ (<[i := rf]> (node cl) s) /\ voted_for_ (<[i := rf]> (node cl) s) = c).
Proof.
  intros I K V. pose proof (voted_candidate _ _ _ _ I V) as Hc.
  pose proof (inv_voted _ I _ _ _ V) as W. unfold is_peer in Hc.
  destruct (decide (i = s)) as [->|Hne]; [| by rewrite fn_insert_ne].
  rewrite fn_insert_eq. destruct K as [K|[K1 K2]]; [left; lia |].
  destruct W as [W|[W1 W2]]; [left; lia |]. right. split; [lia |]. rewrite K2; lia.
Qed.

Lemma inv_init cl : init_cluster cl -> inv cl.
Proof.
  intros (Hn & He & Hs & Hq & Hr).
  assert (forall s t c, ~ voted cl s t c) as Hv.
  { intros s t c [(a & r & H & _) | (_ & a & k & H & _)];
      rewrite ?Hq, ?Hr in H; by apply elem_of_nil in H. }
  split.
  - intros i Hi. rewrite Hn by done. unfold Make. simpl.
    split_and!; [done.. |]. left. done.
  - intros a k. rewrite Hq. by intros ?%elem_of_nil.
  - intros a s r. rewrite Hr. by intros ?%elem_of_nil.
  - intros s t c H. by apply Hv in H.
  - intros s t c c' H. by apply Hv in H.
  - intros i e Hi. rewrite He. by intros ?%elem_of_nil.
  - intros i Hi. by rewrite Hn.
Qed.

(** A step of peer [i] that sends nothing. *)
Lemma inv_quiet_node cl i rf :
  inv cl -> is_peer i ->
  peers rf = n -> me rf = i -> 0 <= current_term_ rf -> durable rf ->
  keeps_votes (node cl i) rf ->
  (role_ rf = Leader -> exists Q : gset Z, (Q ⊆ peer_set) /\ n < 2 * Z.of_nat (size Q) /\
     forall s, s ∈ Q -> voted cl s (current_term_ rf) i) ->
  inv (set_node i rf cl).
Proof.
  intros I Hi Hp Hm Ht Hd K HL.
  assert (forall s t c, voted (set_node i rf cl) s t c <-> voted cl s t c) as Hv
    by (intros; by apply voted_same).
  split; simpl.
  - intros j Hj. destruct (decide (i = j)) as [->|Hne].
    + rewrite fn_insert_eq. done.
    + rewrite fn_insert_ne by done. by apply (inv_nodes _ I).
  - apply (inv_requests _ I).
  - apply (inv_replies _ I).
  - intros s t c V. apply Hv in V. by apply keeps_voted.
  - intros s t c c'. rewrite !Hv. apply (inv_unique _ I).
  - intros j e Hj He. destruct (inv_elections _ I j e Hj He) as (? & ? & ? & Q & ?). split_and!; [done.. |].
    exists Q. setoid_rewrite Hv. done.
  - intros j Hj. destruct (decide (i = j)) as [->|Hne].
    + rewrite fn_insert_eq. setoid_rewrite Hv. done.
    + rewrite fn_insert_ne by done. setoid_rewrite Hv. by apply (inv_leader _ I).
Qed.

Lemma inv_set_elections cl i es :
  inv cl -> (forall e, e ∈ es -> election_ok cl i e) -> inv (set_elections i es cl).
Proof.
  intros I He. destruct I. split; try done.
  intros j e Hj. simpl. destruct (decide (i = j)) as [->|Hne].
  - rewrite fn_insert_eq. apply He.
  - rewrite fn_insert_ne by done. intros He2. apply (inv_elections0 j e Hj He2).
Qed.

Lemma inv_set_starting cl i b : inv cl -> inv (set_starting i b cl).
Proof. intros []. by split. Qed.

(** Adding evidence of a vote that [s] has just given. *)
Lemma inv_new_votes cl cl' :
  inv cl -> node cl' = node cl -> elections cl' = elections cl ->
  requests cl ⊆ requests cl' -> replies cl ⊆ replies cl' ->
  (forall args k, (args, k) ∈ requests cl' -> is_peer (rv_Candidate_ID args)) ->
  (forall args s r, (args, s, r) ∈ replies cl' ->
    is_peer s /\ exists k, (args, k) ∈ requests cl') ->
  (forall s t c, voted cl' s t c -> voted cl s t c \/
     (t = current_term_ (node cl s) /\ voted_for_ (node cl s) = c)) ->
  inv cl'.
Proof.
  intros I En Ee Hq Hr Iq Ir Hv.
  split; rewrite ?En, ?Ee; try done; try apply I.
  - intros s t c V. apply Hv in V as [V|V]; [by apply (inv_voted _ I) | by right].
  - intros s t c c' V V'. apply Hv in V as [V|[-> <-]], V' as [V'|[E <-]].
    + by eapply (inv_unique _ I).
    + subst t. apply (inv_voted _ I) in V as [?|[_ ?]]; [lia | done].
    + apply (inv_voted _ I) in V' as [?|[_ ?]]; [lia | done].
    + done.
  - intros i e Hi He. destruct (inv_elections _ I i e Hi He) as (? & ? & HR & Q & ? & ? & ? & ? & HV).
    split_and!; [done.. | by intros s Hs; apply Hq, HR |]. exists Q. split_and!; try done.
    intros s Hs. eapply voted_mono; [.. | by apply HV]; done.
  - intros i Hi L. destruct (inv_leader _ I i Hi L) as (Q & ? & ? & HV).
    exists Q. split_and!; try done.
    intros s Hs. eapply voted_mono; [.. | by apply HV]; done.
Qed.

Lemma frame_keeps (rf rf' : Raft Cmd) : votes_frame rf rf' -> keeps_votes rf rf'.
Proof. unfold votes_frame, keeps_votes. naive_solver. Qed.

Lemma inv_frame_node cl i rf :
  inv cl -> is_peer i -> votes_frame (node cl i) rf -> durable rf -> inv (set_node i rf cl).
Proof.
  intros I Hi F D. destruct (inv_nodes _ I i Hi) as (Hp & Hm & Ht & _).
  pose proof (frame_keeps _ _ F) as K. destruct F as (Fp & Fm & F).
  apply inv_quiet_node; try done.
  - congruence.
  - congruence.
  - destruct F as [(-> & _)|[? _]]; lia.
  - intros L. destruct F as [(-> & _ & Hl) | (_ & _ & ?)]; [| done].
    apply (inv_leader _ I); auto.
Qed.

Lemma inv_local cl i rf :
  inv cl -> is_peer i -> local_step (node cl i) rf -> inv (set_node i rf cl).
Proof.
  intros I Hi H. apply inv_frame_node; try done; [by apply votes_local |].
  eapply durable_local; [done | by apply (inv_nodes _ I)].
Qed.

Lemma inv_restart cl i :
  inv cl -> is_peer i -> inv (restarted i cl).
Proof.
  intros I Hi. unfold restarted. apply inv_set_starting, inv_set_elections; [| by intros ? ?%elem_of_nil].
  destruct (inv_nodes _ I i Hi) as (Hp & Hm & Ht & Hd).
  destruct (votes_restart _ Hd) as (? & ? & ? & ? & R).
  apply inv_frame_node; try done; [| by apply (durable_node (node cl i)); [constructor |]].
  unfold votes_frame. split_and!; [done.. |]. left. split_and!; try done.
  rewrite R. done.
Qed.

Lemma inv_vote cl i now args rf reply :
  inv cl -> is_peer i -> (args, i) ∈ requests cl ->
  RequestVote now args (node cl i) = Ok (rf, reply) ->
  inv (add_reply (args, i, reply) (set_node i rf cl)).
Proof.
  intros I Hi Hq H. destruct (inv_nodes _ I i Hi) as (Hp & Hm & Ht & Hd).
  pose proof (inv_requests _ I _ _ Hq) as Hc. unfold is_peer in Hc.
  destruct (votes_RequestVote _ _ _ _ _ H) as (Hp' & Hm' & HL & Ht' & Hv & Hg).
  assert (inv (set_node i rf cl)) as I'.
  { apply inv_quiet_node; try done; try congruence; [lia | by eapply durable_RequestVote | |].
    - unfold keeps_votes. destruct (decide (current_term_ rf = current_term_ (node cl i))); [|left; lia].
      right. eauto.
    - intros L. destruct (HL L) as [L0 E]. rewrite E. by apply (inv_leader _ I). }
  eapply (inv_new_votes _ _ I'); try done; simpl.
  - apply list_subseteq_cons. done.
  - apply (inv_requests _ I).
  - intros a s r [[= -> -> ->]|Hr]%elem_of_cons; [eauto |]. by apply (inv_replies _ I) in Hr.
  - intros s t c [(a & r & [[= -> -> ->]|Hr]%elem_of_cons & G & <- & <-) | V].
    + right. destruct (Hg G) as [E1 E2]. rewrite fn_insert_eq. done.
    + left. left. eauto 10.
    + left. right. done.
Qed.

Lemma inv_start cl i now rf args :
  inv cl -> is_peer i -> current_term_ (node cl i) < 2 ^ 64 - 1 ->
  role_ (node cl i) <> Leader ->
  startElection now (node cl i) = Ok (rf, args) ->
  inv (set_starting i false
        (set_elections i (mkElection args (others i) 1 :: elections cl i)
          (add_requests ((fun s => (args, s)) <$> others i) (set_node i rf cl)))).
Proof.
  intros I Hi Hw HL H. destruct (inv_nodes _ I i Hi) as (Hp & Hm & Ht & Hd).
  destruct (votes_startElection _ _ _ _ H) as (Hp' & Hm' & Hr' & Ht' & Hv' & Ha & Hc); [lia |].
  assert (durable rf) as Hd'.
  { eapply durable_node; [eapply ns_startElection; [done | lia] | done]. }
  assert (inv (set_node i rf cl)) as I'.
  { apply inv_quiet_node; try done; try congruence; try lia. by left; lia. }
  assert (inv (add_requests ((fun s => (args, s)) <$> others i) (set_node i rf cl))) as I2.
  { eapply (inv_new_votes _ _ I'); try done; simpl.
    - apply list_subseteq_app_r; done.
    - intros a k [(x & [= -> ->] & _)%list_elem_of_fmap | Hk]%elem_of_app.
      + rewrite Hc, Hm. done.
      + by eapply (inv_requests _ I).
    - intros a s r Hr. destruct (inv_replies _ I _ _ _ Hr) as (? & k & Hk).
      split; [done |]. exists k. apply elem_of_app. by right.
    - intros s t c [V | (-> & a & k & [(x & [= -> ->] & _)%list_elem_of_fmap | Hk]%elem_of_app & <- & E)].
      + left. left. done.
      + right. assert (c = i) as -> by congruence. rewrite fn_insert_eq. split; congruence.
      + left. right. eauto 10. }
  apply inv_set_starting, inv_set_elections; [done |].
  intros e [->|He]%elem_of_cons.
  - split_and!; simpl.
    + congruence.
    + unfold others. rewrite list_elem_of_filter. naive_solver.
    + intros s Hs. apply elem_of_app. left. apply list_elem_of_fmap. eauto.
    + exists ∅. split_and!; set_solver.
  - apply (inv_elections _ I2 i e Hi). done.
Qed.


Lemma elem_of_remove_Z (x y : Z) l : x ∈ remove Z.eq_dec y l <-> x ∈ l /\ x <> y.
Proof.
  rewrite !list_elem_of_In. split; [apply in_remove |]. intros [? ?]. by apply in_in_remove.
Qed.

(** Replacing one of the elections of [i]. *)
Lemma inv_replace_election cl i e e' before after :
  inv cl -> elections cl i = before ++ e :: after -> is_peer i ->
  election_ok cl i e' ->
  inv (set_elections i (before ++ e' :: after) cl).
Proof.
  intros I He Hi He'. pose proof (inv_elections _ I i) as HE. rewrite He in HE.
  apply inv_set_elections; [done |].
  intros e2 [Hb|[->|Hb]%elem_of_cons]%elem_of_app; [apply HE; set_solver | done | apply HE; set_solver].
Qed.

Lemma election_ok_drop cl i e server :
  election_ok cl i e ->
  election_ok cl i (mkElection (el_args e) (remove Z.eq_dec server (el_pending e)) (el_count e)).
Proof.
  intros (Hc & Hi & HR & Q & HQ & Hn & Hp & Hk & HV). split_and!; simpl; try done.
  - rewrite elem_of_remove_Z. naive_solver.
  - intros s [? _]%elem_of_remove_Z. eauto.
  - exists Q. split_and!; try done. intros s Hs. rewrite elem_of_remove_Z. naive_solver.
Qed.

(** A counted vote. *)
Lemma election_ok_count cl i e server r :
  inv cl -> election_ok cl i e -> server ∈ el_pending e ->
  (el_args e, server, r) ∈ replies cl -> rvr_VoteGranted r = true ->
  election_ok cl i
    (mkElection (el_args e) (remove Z.eq_dec server (el_pending e)) (el_count e + 1)).
Proof.
  intros I (Hc & Hi & HR & Q & HQ & Hn & Hp & Hk & HV) Hs Hr G.
  split_and!; simpl; try done.
  - rewrite elem_of_remove_Z. naive_solver.
  - intros s [? _]%elem_of_remove_Z. eauto.
  - assert (server ∉ Q) as HsQ by (intros ?; by apply (Hp server)).
    exists ({[server]} ∪ Q). split_and!.
    + assert (server ∈ peer_set); [| set_solver].
      apply elem_of_peer_set. by destruct (inv_replies _ I _ _ _ Hr).
    + set_solver.
    + intros s Hs'. rewrite elem_of_remove_Z. set_solver.
    + rewrite size_union, size_singleton by set_solver. lia.
    + intros s [->%elem_of_singleton|?]%elem_of_union; [| by apply HV].
      left. eauto 10.
Qed.

(** The candidate and those it counted, when they are enough. *)
Lemma election_majority cl i e e' server :
  0 <= n -> inv cl -> is_peer i -> election_ok cl i e -> server ∈ el_pending e ->
  election_ok cl i e' -> el_args e' = el_args e -> el_count e' > Z.quot n 2 ->
  exists Q : gset Z, (Q ⊆ peer_set) /\ n < 2 * Z.of_nat (size Q) /\
    forall s, s ∈ Q -> voted cl s (rv_Term (el_args e)) i.
Proof.
  intros Hn I Hi (Hc & _ & HR & _) Hs (_ & _ & _ & Q & HQ & HiQ & _ & Hk & HV) Ea Hm.
  rewrite Ea in HV. rewrite Z.quot_div_nonneg in Hm by lia.
  exists ({[i]} ∪ Q). split_and!.
  - apply elem_of_peer_set in Hi. set_solver.
  - rewrite size_union, size_singleton by set_solver.
    pose proof (Z.mul_succ_div_gt n 2 ltac:(lia)). lia.
  - intros s [->%elem_of_singleton|?]%elem_of_union; [| by apply HV].
    right. split; [done |]. exists (el_args e), server. eauto.
Qed.

Lemma inv_vote_reply cl i e before after server reply rf count done effs :
  0 <= n -> inv cl -> is_peer i -> elections cl i = before ++ e :: after ->
  server ∈ el_pending e -> (el_args e, server, reply) ∈ replies cl ->
  voteReply (el_args e) reply (el_count e) (node cl i) = (rf, count, done, effs) ->
  inv (set_elections i
     (before ++ mkElection (el_args e) (remove Z.eq_dec server (el_pending e)) count :: after)
     (set_node i rf cl)).
Proof.
  intros Hn I Hi He Hs Hr H.
  destruct (inv_nodes _ I i Hi) as (Hp & Hm & Ht & Hd).
  assert (durable rf) as Hd' by (by eapply durable_node; [eapply ns_voteReply |]).
  assert (election_ok cl i e) as HE by (apply (inv_elections _ I); [done | rewrite He; set_solver]).
  assert (forall e', election_ok cl i e' <-> election_ok (set_node i rf cl) i e') as HE'.
  { intros e'. unfold election_ok. by setoid_rewrite (voted_same cl (set_node i rf cl)). }
  apply votes_voteReply in H as [[F ->] | (Hp' & Hm' & Ht' & Hv' & Ha & G & -> & _ & HL)].
  - eapply (inv_replace_election (set_node i rf cl)); try done; [by apply inv_frame_node |].
    apply HE'. by apply election_ok_drop.
  - pose proof (election_ok_count _ _ _ _ _ I HE Hs Hr G) as HC.
    apply (inv_replace_election (set_node i rf cl) i e); try done.
    apply inv_quiet_node; try done; try congruence; try lia; [by right |].
    intros L. apply HL in L. rewrite Ht', Ha.
    eapply election_majority; try done. simpl. congruence.
Qed.

Lemma inv_step cl cl' : 0 <= n -> inv cl -> quiet_step cl cl' -> inv cl'.
Proof.
  intros Hn I (H & Hq & Hw). destruct H as [i rf Hi Hl | cl' H | i Hi]; [by apply inv_local | | by apply inv_restart].
  destruct H.
  - by eapply inv_vote.
  - by eapply inv_vote_reply.
  - eapply inv_replace_election; try done. apply election_ok_drop.
    apply (inv_elections _ I); [done |]. rewrite H0. set_solver.
  - by apply inv_set_starting.
  - eapply inv_start; eauto. intros L. apply Hq. exists i. simpl.
    rewrite !fn_insert_eq. split_and!; try done.
    destruct (inv_nodes _ I i H) as (_ & _ & Ht & _). specialize (Hw i H).
    by destruct (votes_startElection _ _ _ _ H1) as (_ & _ & -> & _); [lia |].
Qed.

Lemma quiet_inv cl : 0 <= n -> reachable init_cluster quiet_step cl -> inv cl.
Proof.
  intros Hn. apply invariant_reachable; [by apply inv_init |]. intros. by eapply inv_step.
Qed.
End Cluster.
