(* ===== verification/RaftElectionRun.v ===== *)
(** * Running the cluster

    An executable form of [RaftElection.cluster_step]: a label names the
    step to take and [run] takes it when its guards hold.  Executions
    are computed with it: one that elects a leader, and one that ends
    with two leaders of the same term. *)
From stdpp Require Import functions.
From S2P Require Import Prelude Persister RaftNode RaftStep RaftElection.

Inductive Label :=
| LFollower (i now : Z)                   (* a follower's ticker wakes up *)
| LTest (i : Z)                           (* a candidate's ticker tests the role *)
| LStart (i now : Z)                      (* the startElection it decided on *)
| LVote (i : Z) (k : nat) (now : Z)       (* server i handles the k-th request *)
| LReply (i : Z) (j k : nat) (server : Z) (* i's j-th election handles the k-th reply *)
| LRestart (i : Z).

Section Run.
Context {Cmd : Type} `{!Codec (RaftState Cmd)}.
Variable n : Z.
Notation Cluster := (Cluster (Cmd := Cmd)).

#[export] Instance is_peer_dec i : Decision (is_peer n i).
Proof. unfold is_peer. apply _. Defined.

Definition initial : Cluster :=
  mkCluster (fun i => Make n i MakePersister) (fun _ => []) (fun _ => false) [] [].

Definition reply_eqb (a b : RequestVoteArgs) : bool :=
  bool_decide (rv_Term a = rv_Term b) && bool_decide (rv_Candidate_ID a = rv_Candidate_ID b) &&
  bool_decide (rv_LastLogIndex a = rv_LastLogIndex b) &&
  bool_decide (rv_LastLogTerm a = rv_LastLogTerm b).

Lemma reply_eqb_eq a b : reply_eqb a b = true -> a = b.
Proof.
  unfold reply_eqb. rewrite !andb_true_iff, !bool_decide_eq_true.
  destruct a, b; simpl. naive_solver.
Qed.

Definition run_label (l : Label) (cl : Cluster) : option Cluster :=
  match l with
  | LFollower i now =>
      if decide (is_peer n i) then Some (set_node i (tickerFollower now (node cl i)) cl) else None
  | LTest i =>
      if decide (is_peer n i) then
        if tickerCandidate (node cl i) then Some (set_starting i true cl) else None
      else None
  | LStart i now =>
      if decide (is_peer n i) then
        if starting cl i then
          match startElection now (node cl i) with
          | Ok (rf, args) =>
              Some (set_starting i false
                (set_elections i (mkElection args (others n i) 1 :: elections cl i)
                  (add_requests ((fun s => (args, s)) <$> others n i) (set_node i rf cl))))
          | Panic => None
          end
        else None
      else None
  | LVote i k now =>
      if decide (is_peer n i) then
        match requests cl !! k with
        | Some (args, i') =>
            if decide (i' = i) then
              match RequestVote now args (node cl i) with
              | Ok (rf, reply) => Some (add_reply (args, i, reply) (set_node i rf cl))
              | Panic => None
              end
            else None
        | None => None
        end
      else None
  | LReply i j k server =>
      if decide (is_peer n i) then
        match elections cl i !! j, replies cl !! k with
        | Some e, Some (args, s, reply) =>
            if decide (s = server /\ server ∈ el_pending e) then
              if reply_eqb args (el_args e) then
                let '(rf, count, _, _) := voteReply (el_args e) reply (el_count e) (node cl i) in
                Some (set_elections i
                  (take j (elections cl i) ++
                   mkElection (el_args e) (remove Z.eq_dec server (el_pending e)) count
                   :: drop (S j) (elections cl i))
                  (set_node i rf cl))
              else None
            else None
        | _, _ => None
        end
      else None
  | LRestart i =>
      if decide (is_peer n i) then
        Some (restarted i cl)
      else None
  end.

Lemma run_label_election l cl cl' :
  (forall i now, l <> LFollower i now) -> (forall i, l <> LRestart i) -> run_label l cl = Some cl' -> election_step n cl cl'.
Proof.
  intros Hl Hr H. destruct l; simpl in H; case_decide; try done.
  { by destruct (Hl i now). }
  5: { by destruct (Hr i). }
  - destruct (tickerCandidate _) eqn:E; [| done]. injection H as <-. by constructor.
  - destruct (starting cl i) eqn:E; [| done].
    destruct (startElection _ _) as [[rf args]|] eqn:E2; [| done].
    injection H as <-. by eapply cs_start.
  - destruct (requests cl !! k) as [[args i']|] eqn:E; [| done].
    case_decide; [subst | done].
    destruct (RequestVote _ _ _) as [[rf reply]|] eqn:E2; [| done].
    injection H as <-. eapply cs_vote; try done. by eapply list_elem_of_lookup_2.
  - destruct (elections cl i !! j) as [e|] eqn:E; [| done].
    destruct (replies cl !! k) as [[[args s] reply]|] eqn:E2; [| done].
    case_decide as Hs; [destruct Hs as [-> Hs] | done].
    destruct (reply_eqb _ _) eqn:E3; [apply reply_eqb_eq in E3; subst args | done].
    destruct (voteReply _ _ _ _) as [[[rf count] done] effs] eqn:E4.
    injection H as <-. eapply cs_vote_reply; eauto.
    + by rewrite take_drop_middle.
    + by eapply list_elem_of_lookup_2.
Qed.

Lemma run_label_sound l cl cl' : run_label l cl = Some cl' -> cluster_step n cl cl'.
Proof.
  intros H. destruct l; try (apply cs_election; eapply run_label_election; [| | exact H]; done).
  all: simpl in H; case_decide; [| done]; injection H as <-.
  - apply cs_local; [done | constructor].
  - by apply cs_restart.
Qed.

(** The conditions of [quiet_step], as a test. *)
Definition quiet_check (cl cl' : Cluster) : bool :=
  forallb (fun i =>
    negb (starting cl i && negb (starting cl' i) &&
          bool_decide (role_ (node cl i) = Leader) && bool_decide (role_ (node cl' i) = Leader)) &&
    bool_decide (current_term_ (node cl i) < 2 ^ 64 - 1)) (seqZ 0 n).

Lemma quiet_check_conditions cl cl' : quiet_check cl cl' = true ->
  ~ starts_while_leader n cl cl' /\ forall i, is_peer n i -> current_term_ (node cl i) < 2 ^ 64 - 1.
Proof.
  unfold quiet_check. intros Hq. rewrite forallb_forall in Hq.
  assert (forall i, is_peer n i -> List.In i (seqZ 0 n)) as Hin.
  { intros i Hi. apply list_elem_of_In, elem_of_seqZ. unfold is_peer in Hi. lia. }
  split.
  - intros (i & Hi & S1 & S2 & L1 & L2). specialize (Hq i (Hin i Hi)).
    rewrite S1, S2, L1, L2 in Hq. done.
  - intros i Hi. specialize (Hq i (Hin i Hi)). apply andb_true_iff in Hq as [_ Hq].
    by apply bool_decide_eq_true in Hq.
Qed.

Lemma quiet_check_sound cl cl' :
  cluster_step n cl cl' -> quiet_check cl cl' = true -> quiet_step n cl cl'.
Proof. intros H Hq. destruct (quiet_check_conditions _ _ Hq). by split_and!. Qed.

Fixpoint run (ls : list Label) (cl : Cluster) : option Cluster :=
  match ls with
  | [] => Some cl
  | l :: ls => match run_label l cl with Some cl => run ls cl | None => None end
  end.

Fixpoint quiet_run (ls : list Label) (cl : Cluster) : option Cluster :=
  match ls with
  | [] => Some cl
  | l :: ls =>
      match run_label l cl with
      | Some cl' => if quiet_check cl cl' then quiet_run ls cl' else None
      | None => None
      end
  end.

Lemma initial_init : init_cluster n initial.
Proof. by unfold init_cluster. Qed.

Lemma run_reachable ls cl cl' :
  reachable (init_cluster n) (cluster_step n) cl -> run ls cl = Some cl' ->
  reachable (init_cluster n) (cluster_step n) cl'.
Proof.
  revert cl. induction ls as [|l ls IH]; intros cl R H; simpl in H.
  - by injection H as <-.
  - destruct (run_label l cl) as [c|] eqn:E; [| done].
    eapply IH; [| done]. eapply reach_step; [done |]. by eapply run_label_sound.
Qed.

Lemma quiet_run_reachable ls cl cl' :
  reachable (init_cluster n) (quiet_step n) cl -> quiet_run ls cl = Some cl' ->
  reachable (init_cluster n) (quiet_step n) cl'.
Proof.
  revert cl. induction ls as [|l ls IH]; intros cl R H; simpl in H.
  - by injection H as <-.
  - destruct (run_label l cl) as [c|] eqn:E; [| done].
    destruct (quiet_check cl c) eqn:Eq; [| done].
    eapply IH; [| done]. eapply reach_step; [done |].
    apply quiet_check_sound; [by eapply run_label_sound | done].
Qed.

(** A computed execution, with a test of its last state. *)
Lemma run_witness ls (P : Cluster -> bool) :
  match run ls initial with Some cl => P cl | None => false end = true ->
  exists cl, reachable (init_cluster n) (cluster_step n) cl /\ P cl = true.
Proof.
  destruct (run ls initial) as [cl|] eqn:E; [| done].
  intros H. exists cl. split; [| done].
  eapply run_reachable; [apply reach_init, initial_init | done].
Qed.

Lemma quiet_run_witness ls (P : Cluster -> bool) :
  match quiet_run ls initial with Some cl => P cl | None => false end = true ->
  exists cl, reachable (init_cluster n) (quiet_step n) cl /\ P cl = true.
Proof.
  destruct (quiet_run ls initial) as [cl|] eqn:E; [| done].
  intros H. exists cl. split; [| done].
  eapply quiet_run_reachable; [apply reach_init, initial_init | done].
Qed.
End Run.

Definition leads {Cmd} (cl : Cluster (Cmd := Cmd)) (i t : Z) : bool :=
  bool_decide (role_ (node cl i) = Leader) && bool_decide (current_term_ (node cl i) = t).

(** Peer 0 times out, asks, peer 1 answers: peer 0 leads term 1. *)
Definition elect_peer_0 : list Label :=
  [LFollower 0 1000000000; LTest 0; LStart 0 1100000000;
   LVote 1 0 1200000000; LReply 0 0 0 1].

(** Peer 0's first election times out and its ticker decides to start a
    second one; then the late vote of peer 1 makes it the leader of term
    1; then the second [startElection] runs and moves the leader to term
    2.  Meanwhile peer 2, after one election without votes, wins term 2
    with the vote of peer 1. *)
Definition split_brain : list Label :=
  [LFollower 0 1000000000; LTest 0; LStart 0 1100000000;
   LTest 0; LVote 1 0 1200000000; LReply 0 0 0 1; LStart 0 1600000000;
   LFollower 2 1000000000; LTest 2; LStart 2 1100000000; LTest 2; LStart 2 1600000000;
   LVote 1 1 1700000000; LReply 2 0 0 1].

(** C8: Election safety.  In every execution of a cluster of any size
    under loss, delay, reordering and crashes, with arbitrary other
    messages, in which no peer becomes leader between its ticker's role
    test and the [startElection] that follows, two leaders of the same
    term are the same peer. *)
Theorem election_safety {Cmd} `{!Codec (RaftState Cmd)} n (cl : Cluster (Cmd := Cmd)) :
  0 <= n -> reachable (init_cluster n) (quiet_step n) cl -> one_leader_per_term n cl.
Proof. intros Hn R. apply inv_one_leader; [done |]. by apply quiet_inv. Qed.

Lemma election_safety_witness :
  exists cl : Cluster (Cmd := Z), reachable (init_cluster 3) (quiet_step 3) cl /\
    leads cl 0 1 = true /\ one_leader_per_term 3 cl.
Proof.
  destruct (quiet_run_witness (Cmd := Z) 3 elect_peer_0 (fun cl => leads cl 0 1)) as (cl & R & L);
    [vm_compute; reflexivity |].
  exists cl. split; [exact R |]. split; [exact L |].
  apply (election_safety 3 cl); [lia | exact R].
Defined.

(** C14: The code as written, without that condition, reaches a state with
    two leaders of the same term: [ticker] releases the lock between
    testing that the peer is a candidate and calling [startElection],
    which increments the term without testing again. *)
Theorem two_leaders_reachable :
  exists cl : Cluster (Cmd := Z), reachable (init_cluster 3) (cluster_step 3) cl /\
    ~ one_leader_per_term 3 cl.
Proof.
  destruct (run_witness (Cmd := Z) 3 split_brain (fun cl => leads cl 0 2 && leads cl 2 2))
    as (cl & R & H); [vm_compute; reflexivity |].
  exists cl. split; [exact R |]. unfold leads in H.
  rewrite !andb_true_iff, !bool_decide_eq_true in H. destruct H as [[L0 T0] [L2 T2]].
  intros U. assert (0 = 2); [| lia].
  apply U; try done; unfold is_peer; lia.
Qed.
