(* ===== verification/RaftLog.v ===== *)
(** * The log of a peer

    [entry_at] reads the log by logical index, below the snapshot
    excluded.  On a well-formed peer the indexing functions of
    [raft1/raft.go] do not panic and agree with it; what [Snapshot] and
    the follower's loop do to the log is stated with it. *)
From S2P Require Import Prelude Persister RaftNode.

Section Log.
Context {Cmd : Type} `{!Codec (RaftState Cmd)}.
Implicit Types (rf : Raft Cmd) (l es : list (LogEntry Cmd)).

(** The log holds at least the entry of the snapshot and its indices do
    not wrap. *)
Record wf_log rf : Prop := {
  wf_len : 1 <= zlen (logs_ rf);
  wf_lii : 0 <= last_included_index_ rf;
  wf_bound : last_included_index_ rf + zlen (logs_ rf) < 2 ^ 64;
}.

Definition entry_at rf (i : Z) : option (LogEntry Cmd) :=
  zlookup (logs_ rf) (i - last_included_index_ rf).

Lemma getLogLength_wf rf :
  wf_log rf -> getLogLength rf = last_included_index_ rf + zlen (logs_ rf).
Proof.
  intros [? ? ?]. unfold getLogLength. rewrite (u64_small (zlen _)) by lia.
  apply u64_small. lia.
Qed.

Lemma lastIndex_wf rf :
  wf_log rf -> u64 (getLogLength rf - 1) = last_included_index_ rf + zlen (logs_ rf) - 1.
Proof. intros W. rewrite getLogLength_wf by done. destruct W. apply u64_small. lia. Qed.

Lemma phys_wf rf i :
  wf_log rf -> last_included_index_ rf <= i < 2 ^ 64 ->
  logicalIndexToPhysicalIndex i rf = Ok (i - last_included_index_ rf).
Proof.
  intros [? ? ?] ?. unfold logicalIndexToPhysicalIndex.
  rewrite decide_False by lia. rewrite u64_small by lia. done.
Qed.

Lemma getLogEntry_wf rf i :
  wf_log rf -> last_included_index_ rf <= i < last_included_index_ rf + zlen (logs_ rf) ->
  exists e, entry_at rf i = Some e /\ getLogEntry i rf = Ok e.
Proof.
  intros W Hi. unfold getLogEntry, entry_at.
  rewrite phys_wf by (try done; destruct W; lia). simpl.
  apply slice_get_ok. lia.
Qed.

Lemma getLogEntry_Ok rf i e :
  wf_log rf -> 0 <= i < 2 ^ 64 -> getLogEntry i rf = Ok e ->
  last_included_index_ rf <= i /\ entry_at rf i = Some e.
Proof.
  intros W Hi. unfold getLogEntry, entry_at.
  destruct (decide (i < last_included_index_ rf)) as [?|?].
  - unfold logicalIndexToPhysicalIndex. by rewrite decide_True by lia.
  - rewrite phys_wf by (try done; lia). simpl. intros H. res_inv. auto with lia.
Qed.

Lemma getLogSlice_wf rf b e :
  wf_log rf -> last_included_index_ rf <= b <= e ->
  e <= last_included_index_ rf + zlen (logs_ rf) ->
  getLogSlice b e rf =
    Ok (take (Z.to_nat (e - b)) (drop (Z.to_nat (b - last_included_index_ rf)) (logs_ rf))).
Proof.
  intros W ? ?. unfold getLogSlice. rewrite getLogLength_wf by done.
  rewrite decide_False by lia. rewrite !phys_wf by (try done; destruct W; lia). simpl.
  unfold slice_sub. rewrite decide_True by lia. do 2 f_equal. lia.
Qed.

Lemma zlookup_full_take {A} (l : list A) n : zlen l <= n -> take (Z.to_nat n) l = l.
Proof. unfold zlen. intros. apply firstn_all2. lia. Qed.

(** ** The log a successful AppendEntries leaves

    [merge l es] is what becomes of the log [l] after the entry at
    [PreviousLogIndex] when the leader sends [es]: the common part is
    kept, and from the first entry whose term differs the leader's
    entries replace everything. *)
Fixpoint merge (l es : list (LogEntry Cmd)) : list (LogEntry Cmd) :=
  match es, l with
  | [], _ => l
  | es, [] => es
  | e :: es, x :: l => if decide (Term_ x = Term_ e) then x :: merge l es else e :: es
  end.

Lemma merge_nil_l es : merge [] es = es.
Proof. by destruct es. Qed.

Lemma zlen_merge l es : zlen (merge l es) <= Z.max (zlen l) (zlen es).
Proof.
  revert es. induction l as [|x l IH]; intros [|e es]; simpl; rewrite ?zlen_nil; try lia.
  specialize (IH es). case_decide; rewrite ?zlen_cons in *; lia.
Qed.

Lemma zlen_merge_ge l es : zlen es <= zlen (merge l es).
Proof.
  revert es. induction l as [|x l IH]; intros [|e es]; simpl; rewrite ?zlen_nil;
    try lia; [apply zlen_nonneg |].
  specialize (IH es). case_decide; rewrite ?zlen_cons in *; lia.
Qed.

(** The terms of what the leader sent are all there. *)
Lemma merge_terms l es i e :
  es !! i = Some e -> exists e', merge l es !! i = Some e' /\ Term_ e' = Term_ e.
Proof.
  revert l i. induction es as [|e0 es IH]; intros l i H; [done |].
  destruct l as [|x l]; simpl; [by eauto |].
  case_decide; [| by eauto].
  destruct i as [|i]; simpl in *; [naive_solver | by apply IH].
Qed.

(** An entry survives unless some entry at or before it conflicts. *)
Lemma merge_keeps l es i x :
  l !! i = Some x ->
  (forall j y e, (j <= i)%nat -> l !! j = Some y -> es !! j = Some e -> Term_ y = Term_ e) ->
  merge l es !! i = Some x.
Proof.
  revert es i. induction l as [|y l IH]; intros es i H Hc; [done |].
  destruct es as [|e es]; simpl; [done |].
  rewrite decide_True by (apply (Hc O); [lia | done..]).
  destruct i as [|i]; [done |]. simpl in *. apply IH; [done |].
  intros j y' e' ?. apply (Hc (S j)). lia.
Qed.

Lemma entry_eta (e : LogEntry Cmd) : mkEntry (Command_ e) (Term_ e) = e.
Proof. by destruct e. Qed.

(** The entry after a part of the log. *)
Lemma getLogEntry_mid i rf pre x suf : wf_log rf -> logs_ rf = pre ++ x :: suf ->
  i = last_included_index_ rf + zlen pre -> getLogEntry i rf = Ok x.
Proof.
  intros W Hl ->. pose proof (zlen_nonneg pre). pose proof (zlen_nonneg suf).
  destruct (getLogEntry_wf rf (last_included_index_ rf + zlen pre) W) as (x' & Hx' & ->).
  { rewrite Hl, zlen_app, zlen_cons. lia. }
  unfold entry_at in Hx'. rewrite Hl, zlookup_app_r in Hx' by lia.
  replace (last_included_index_ rf + zlen pre - last_included_index_ rf - zlen pre) with 0 in Hx' by lia.
  cbv in Hx'. congruence.
Qed.

(** The loop of [AppendEntries] computes [merge]. *)
Lemma appendEntriesLoop_merge prev es : forall rel m rf pre suf,
  wf_log rf -> logs_ rf = pre ++ suf ->
  last_included_index_ rf + zlen pre = prev + 1 + rel ->
  last_included_index_ rf <= prev -> 0 <= rel ->
  prev + 1 + rel + zlen es < 2 ^ 64 ->
  exists m', appendEntriesLoop prev rel es m rf = Ok (with_logs (pre ++ merge suf es) rf, m').
Proof.
  induction es as [|e es IH]; intros rel m rf pre suf W Hl Hp Hge Hrel Hb.
  - exists m. simpl. replace (merge suf []) with suf by (by destruct suf).
    rewrite <- Hl. by destruct rf.
  - rewrite zlen_cons in Hb. pose proof (zlen_nonneg es). simpl.
    pose proof (wf_lii _ W).
    rewrite (u64_small (prev + 1)), (u64_small rel), (u64_small (prev + 1 + rel)) by lia.
    rewrite getLogLength_wf by done.
    assert (zlen (logs_ rf) = zlen pre + zlen suf) as Hlen by (rewrite Hl; apply zlen_app).
    destruct suf as [|x suf]; rewrite ?zlen_nil, ?zlen_cons in Hlen.
    + rewrite decide_True by lia.
      edestruct (IH (rel + 1) true (with_logs (logs_ rf ++ [e]) rf) (pre ++ [e]) []) as [m' E];
        simpl; rewrite ?Hl, ?app_nil_r, ?zlen_app, ?zlen_cons, ?zlen_nil; try lia; try done.
      { split; simpl; destruct W; rewrite ?Hl, ?app_nil_r, ?zlen_app, ?zlen_cons, ?zlen_nil; lia. }
      exists m'. rewrite Hl, app_nil_r in E. rewrite E.
      rewrite merge_nil_l, <- app_assoc. done.
    + pose proof (zlen_nonneg suf). rewrite decide_False by lia.
      rewrite (getLogEntry_mid (prev + 1 + rel) rf pre x suf) by (done || lia). simpl. destruct (decide (Term_ x = Term_ e)) as [Et|Et].
      * rewrite decide_False by (intros K; by apply K).
        edestruct (IH (rel + 1) m rf (pre ++ [x]) suf) as [m' E]; try lia; try done.
        { by rewrite <- app_assoc. }
        { rewrite zlen_app, zlen_cons, zlen_nil. lia. }
        exists m'. rewrite E, <- app_assoc. done.
      * rewrite decide_True by done. rewrite phys_wf by (try done; lia). simpl.
        unfold slice_set. rewrite decide_True by lia. simpl. rewrite entry_eta.
        replace (Z.to_nat (prev + 1 + rel - last_included_index_ rf)) with (length pre + 0)%nat
          by (unfold zlen in *; lia).
        rewrite Hl, insert_app_r. simpl. rewrite (u64_small (prev + 1 + rel + 1)) by lia.
        set (rf1 := with_logs (pre ++ e :: suf) rf).
        assert (wf_log rf1) as W1.
        { destruct W. split; simpl; rewrite ?zlen_app, ?zlen_cons; lia. }
        rewrite getLogSlice_wf; simpl; rewrite ?zlen_app, ?zlen_cons; try done; try lia.
        replace (last_included_index_ rf - last_included_index_ rf) with 0 by lia.
        rewrite drop_0. simpl.
        replace (take _ (pre ++ e :: suf)) with (pre ++ [e]).
        2:{ replace (Z.to_nat (prev + 1 + rel + 1 - last_included_index_ rf))
              with (length pre + 1)%nat by (unfold zlen in *; lia).
            by rewrite take_app_add. }
        edestruct (IH (rel + 1) true (with_logs (pre ++ [e]) rf1) (pre ++ [e]) []) as [m' E];
          simpl; rewrite ?app_nil_r, ?zlen_app, ?zlen_cons, ?zlen_nil; try lia; try done.
        { destruct W. split; simpl; rewrite ?zlen_app, ?zlen_cons, ?zlen_nil; lia. }
        exists m'. unfold rf1 in *. rewrite E, merge_nil_l, <- app_assoc. done.
Qed.
End Log.
