(* ===== verification/RaftSpec.v ===== *)
(** * An abstract specification of Raft

    What the peers of [raft1/raft.go] promise together, without messages,
    timers or indices: terms and logs of the peers, and the history that
    the safety argument speaks of - which log a voter had when it voted,
    the log of each term's leader, and how much of it each peer has
    acknowledged.  [RaftRefine] shows that the code implements it. *)
From stdpp Require Import functions.
From S2P Require Import Prelude RaftNode RaftLog RaftElection.
#[local] Open Scope Z_scope.

(** ** Common prefixes *)
Section Shares.
Context {A : Type}.
Implicit Types (l k : list A).

(** The first [m] elements exist in both lists and are the same. *)
Definition shares (m : nat) l k : Prop := take m l = take m k /\ (m <= length l)%nat /\ (m <= length k)%nat.

Lemma shares_sym m l k : shares m l k -> shares m k l.
Proof. unfold shares. intuition congruence. Qed.

Lemma shares_refl m l : (m <= length l)%nat -> shares m l l.
Proof. done. Qed.

Lemma shares_trans m l k j : shares m l k -> shares m k j -> shares m l j.
Proof. unfold shares. intuition congruence. Qed.

Lemma shares_le m m' l k : (m' <= m)%nat -> shares m l k -> shares m' l k.
Proof.
  intros Hle (E & ? & ?). split_and!; [| lia..].
  replace m' with (m' `min` m)%nat by lia. rewrite <- !take_take. by rewrite E.
Qed.

Lemma shares_lookup m l k j : shares m l k -> (j < m)%nat -> l !! j = k !! j.
Proof. intros (E & _) Hj. rewrite <- (lookup_take_lt l m j), E by done. by apply lookup_take_lt. Qed.

Lemma shares_app_l m l k x : shares m l k -> shares m (l ++ x) k.
Proof. intros (E & ? & ?). split_and!; [| rewrite length_app; lia | done]. by rewrite take_app_le. Qed.

Lemma shares_app_r m l k x : shares m l k -> shares m l (k ++ x).
Proof. intros H. by apply shares_sym, shares_app_l, shares_sym. Qed.

Lemma shares_take m (c : nat) l : (m <= c)%nat -> (m <= length l)%nat -> shares m (take c l) l.
Proof. intros ? ?. split_and!; [rewrite take_take; f_equal; lia | rewrite length_take; lia | done]. Qed.

Lemma shares_prefix m l k : l `prefix_of` k -> (m <= length l)%nat -> shares m l k.
Proof. intros [x ->] ?. by apply shares_app_r, shares_refl. Qed.
End Shares.

Section Merge.
Context {Cmd : Type}.
Implicit Types (l es : list (LogEntry Cmd)).

Lemma merge_prefix l es : es `prefix_of` l -> merge l es = l.
Proof.
  revert es. induction l as [|x l IH]; intros es Hp.
  - by apply prefix_nil_inv in Hp as ->.
  - destruct es as [|e es]; [done |]. simpl.
    rewrite (prefix_cons_inv_1 _ _ _ _ Hp). rewrite decide_True by done.
    f_equal. apply IH. by eapply prefix_cons_inv_2.
Qed.

(** When equal terms mean equal entries, merging takes the one list or
    the other. *)
Lemma merge_cases l es :
  (forall j x e, l !! j = Some x -> es !! j = Some e -> Term_ x = Term_ e -> x = e) ->
  merge l es = es \/ (merge l es = l /\ es `prefix_of` l).
Proof.
  revert es. induction l as [|x l IH]; intros es H.
  - rewrite merge_nil_l. by left.
  - destruct es as [|e es]; [right; split; [done | apply prefix_nil] |]. simpl.
    case_decide as Ht; [| by left].
    pose proof (H 0%nat x e eq_refl eq_refl Ht) as ->.
    destruct (IH es) as [->|[-> Hp]].
    + intros j. apply (H (S j)).
    + by left.
    + right. split; [done |]. by apply prefix_cons.
Qed.
End Merge.

(** ** The state *)
Section Spec.
Context {Cmd : Type}.
Variable n : Z.
Notation Entry := (LogEntry Cmd).
Implicit Types (L V : list Entry) (s i t : Z).

Record AState := mkA {
  a_term : Z -> Z;
  a_log : Z -> list Entry;                    (* from index 0, the zero entry *)
  a_vote : Z -> Z -> option (Z * list Entry); (* voter, term: for whom, and the voter's log *)
  a_tlog : Z -> option (Z * list Entry);      (* term: its leader and the log it has built *)
  a_ack : Z -> Z -> nat;                      (* peer, term: how many entries of that log it stored *)
}.
Implicit Types (a : AState).

Definition majority (Q : gset Z) : Prop := (Q ⊆ peer_set n) /\ n < 2 * Z.of_nat (size Q).

(** Section 5.4.1 of the paper, on logs. *)
Definition up_to_date L V : Prop := exists e v, list.last L = Some e /\ list.last V = Some v /\
  (Term_ v < Term_ e \/ Term_ v = Term_ e /\ (length V <= length L)%nat).

Definition upd2 {A} (s t : Z) (x : A) (f : Z -> Z -> A) : Z -> Z -> A := <[s := <[t := x]> (f s)]> f.

Lemma upd2_eq {A} s t (x : A) f : upd2 s t x f s t = x.
Proof. unfold upd2. by rewrite !fn_lookup_insert. Qed.

Lemma upd2_ne {A} s t (x : A) f s' t' : ~ (s' = s /\ t' = t) -> upd2 s t x f s' t' = f s' t'.
Proof.
  intros H. unfold upd2. destruct (decide (s = s')) as [<-|]; [| by rewrite fn_lookup_insert_ne].
  rewrite fn_lookup_insert. rewrite fn_lookup_insert_ne; [done | naive_solver].
Qed.

(** The log of [s] after it took entries [p] to [k] of the leader's log. *)
Definition accepted (p k : nat) L (l : list Entry) : list Entry :=
  take p l ++ merge (drop p l) (take (k - p) (drop p L)).

(** One step, by the peer named. *)
Inductive spec_step_of a : Z -> AState -> Prop :=
| sp_term s t :
    is_peer n s -> a_term a s <= t ->
    spec_step_of a s (mkA (<[s := t]> (a_term a)) (a_log a) (a_vote a) (a_tlog a) (a_ack a))
| sp_vote s c :
    is_peer n s -> 0 < a_term a s -> a_vote a s (a_term a s) = None ->
    s = c \/ (exists V : list Entry, a_vote a c (a_term a s) = Some (c, V) /\ up_to_date V (a_log a s)) ->
    spec_step_of a s (mkA (a_term a) (a_log a) (upd2 s (a_term a s) (Some (c, a_log a s)) (a_vote a))
                   (a_tlog a) (a_ack a))
| sp_elect i Q :
    is_peer n i -> 0 < a_term a i -> a_tlog a (a_term a i) = None -> majority Q ->
    (forall s, s ∈ Q -> exists V : list Entry, a_vote a s (a_term a i) = Some (i, V)) ->
    spec_step_of a i (mkA (a_term a) (a_log a) (a_vote a) (<[a_term a i := Some (i, a_log a i)]> (a_tlog a))
                   (upd2 i (a_term a i) (length (a_log a i)) (a_ack a)))
| sp_append i L e :
    a_tlog a (a_term a i) = Some (i, L) -> Term_ e = a_term a i ->
    spec_step_of a i (mkA (a_term a) (<[i := L ++ [e]]> (a_log a)) (a_vote a)
                   (<[a_term a i := Some (i, L ++ [e])]> (a_tlog a))
                   (upd2 i (a_term a i) (length (L ++ [e])) (a_ack a)))
| sp_accept s i p k L x y :
    is_peer n s -> a_tlog a (a_term a s) = Some (i, L) -> (0 < p <= k)%nat -> (k <= length L)%nat ->
    a_log a s !! (p - 1)%nat = Some x -> L !! (p - 1)%nat = Some y -> Term_ x = Term_ y ->
    spec_step_of a s (mkA (a_term a) (<[s := accepted p k L (a_log a s)]> (a_log a)) (a_vote a) (a_tlog a)
                   (upd2 s (a_term a s) (Nat.max k (a_ack a s (a_term a s))) (a_ack a))).

Definition spec_step a a' : Prop := exists i, spec_step_of a i a'.

Definition spec_init a : Prop :=
  (forall s, a_term a s = 0) /\ (forall s, a_log a s = [zeroEntry]) /\ (forall s t, a_vote a s t = None) /\
  (forall t, a_tlog a t = None) /\ (forall s t, a_ack a s t = 0%nat).

(** The first [k] entries of the log of term [t], the last of them of
    this term, are on a majority. *)
Definition chosen a t (k : nat) L : Prop :=
  exists i Q e, a_tlog a t = Some (i, L) /\ (0 < k)%nat /\ L !! (k - 1)%nat = Some e /\ Term_ e = t /\
    majority Q /\ forall s, s ∈ Q -> (k <= a_ack a s t)%nat.

(** ** The invariant *)

(** Every entry sits where the leader of its term put it, after the
    same entries. *)
Definition chain a L : Prop := L !! 0%nat = Some zeroEntry /\
  forall j e, (0 < j)%nat -> L !! j = Some e -> exists i L', a_tlog a (Term_ e) = Some (i, L') /\ shares (S j) L L'.

Definition terms_le t L : Prop := forall e, e ∈ L -> Term_ e <= t.

(** Every leader of a term after [t], up to [t'], has the first [m]
    entries of [L]. *)
Definition kept a t t' m L : Prop :=
  forall u j L', t < u <= t' -> a_tlog a u = Some (j, L') -> shares m L L'.

(** Whatever [s] acknowledged in term [t] is in [V], if the leaders after
    [t], up to [t'], kept it. *)
Definition holds_ack a s t t' V : Prop :=
  forall i L m, a_tlog a t = Some (i, L) -> (0 < m <= a_ack a s t)%nat -> kept a t t' m L -> shares m L V.

Record spec_inv a : Prop := mkSpecInv {
  si_log : forall s, is_peer n s -> 0 <= a_term a s /\ chain a (a_log a s) /\ terms_le (a_term a s) (a_log a s);
  si_tlog : forall t i L, a_tlog a t = Some (i, L) ->
    0 < t <= a_term a i /\ is_peer n i /\ chain a L /\ terms_le t L /\ (a_term a i = t -> a_log a i = L);
  si_vote : forall s t c V, a_vote a s t = Some (c, V) ->
    0 < t <= a_term a s /\ V <> [] /\ (a_term a s = t -> a_tlog a t = None -> a_log a s = V) /\ chain a V;
  si_vote_acked : forall s t c V u, a_vote a s t = Some (c, V) -> u < t -> holds_ack a s u t V;
  si_candidate : forall s t c V, a_vote a s t = Some (c, V) ->
    exists V0, a_vote a c t = Some (c, V0) /\ up_to_date V0 V;
  si_ack : forall s t, (0 < a_ack a s t)%nat -> is_peer n s /\ t <= a_term a s /\
    exists i L, a_tlog a t = Some (i, L) /\ (a_ack a s t <= length L)%nat;
  si_acked : forall s t, holds_ack a s t (a_term a s) (a_log a s);
  si_elected : forall t i L, a_tlog a t = Some (i, L) ->
    exists L0 Q, L0 `prefix_of` L /\ (forall e, e ∈ L0 -> Term_ e < t) /\ majority Q /\
      forall s, s ∈ Q -> exists V : list Entry, a_vote a s t = Some (i, V) /\ up_to_date L0 V /\
        forall u, u < t -> holds_ack a s u (t - 1) V;
}.

(** *** Facts about chains *)

Lemma chain_nonempty a L : chain a L -> L <> [].
Proof. by intros [H _] ->. Qed.

Lemma chain_app_inv a L x : L <> [] -> chain a (L ++ x) -> chain a L.
Proof.
  intros Hne [H0 H]. split.
  - by destruct L.
  - intros j e Hj He. destruct (H j e Hj) as (i & L' & Ht & Hs); [by apply lookup_app_l_Some |].
    exists i, L'. split; [done |]. eapply shares_trans; [| done]. apply shares_app_r, shares_refl.
    by apply lookup_lt_Some in He.
Qed.

Lemma chain_take a L k : (0 < k)%nat -> chain a L -> chain a (take k L).
Proof.
  intros Hk H. apply (chain_app_inv _ _ (drop k L)); [| by rewrite take_drop].
  pose proof (chain_nonempty _ _ H). destruct L, k; done || lia.
Qed.

(** Log matching: an index and a term determine the log up to there. *)
Lemma chain_matching a L1 L2 j x y : chain a L1 -> chain a L2 ->
  L1 !! j = Some x -> L2 !! j = Some y -> Term_ x = Term_ y -> shares (S j) L1 L2.
Proof.
  intros [Z1 H1] [Z2 H2] Hx Hy Ht. destruct j as [|j].
  - destruct L1, L2; simplify_eq/=. split_and!; simpl; [by rewrite !take_0 | lia..].
  - destruct (H1 (S j) x ltac:(lia) Hx) as (i & L & Hl & Hs).
    destruct (H2 (S j) y ltac:(lia) Hy) as (i' & L' & Hl' & Hs'). rewrite Ht in Hl. simplify_eq.
    eapply shares_trans; [done |]. by apply shares_sym.
Qed.

(** *** Growth of the leaders' logs *)

(** A step only extends the log of a term, by entries of this term, or
    starts the log of a term that had none. *)
Definition tlog_grows a a' : Prop := forall t i L, a_tlog a t = Some (i, L) ->
  exists x, a_tlog a' t = Some (i, L ++ x) /\ terms_le t x /\ forall e, e ∈ x -> Term_ e = t.

Lemma tlog_grows_refl a a' : a_tlog a' = a_tlog a -> tlog_grows a a'.
Proof.
  intros E t i L H. exists []. rewrite E, app_nil_r. split_and!; [done | by intros ? ?%not_elem_of_nil..].
Qed.

Lemma chain_grows a a' L : tlog_grows a a' -> chain a L -> chain a' L.
Proof.
  intros G [H0 H]. split; [done |]. intros j e Hj He. destruct (H j e Hj He) as (i & L' & Ht & Hs).
  destruct (G _ _ _ Ht) as (x & Ht' & _). exists i, (L' ++ x). split; [done |]. by apply shares_app_r.
Qed.

Lemma kept_grows a a' t t' m L x : tlog_grows a a' -> (m <= length L)%nat -> terms_le t L ->
  kept a' t t' m (L ++ x) -> kept a t t' m L.
Proof.
  intros G Hm HT K u j L' Hu HL. destruct (G _ _ _ HL) as (z & Ht' & _ & Hz).
  specialize (K u j _ Hu Ht').
  assert (shares m L (L' ++ z)) as K'.
  { eapply shares_trans; [| done]. apply shares_app_r. by apply shares_refl. }
  destruct (decide (m <= length L')%nat) as [Hle|Hgt].
  { eapply shares_trans; [done |]. by apply shares_app_l, shares_refl. }
  exfalso. assert ((length L' < length (L' ++ z))%nat) as Hlt by (destruct K' as (_ & _ & ?); lia).
  apply lookup_lt_is_Some_2 in Hlt as [e He].
  assert (L !! length L' = Some e) as HeL by (rewrite (shares_lookup _ _ _ _ K') by lia; done).
  rewrite lookup_app_r, Nat.sub_diag in He by lia. apply list_elem_of_lookup_2 in He, HeL.
  specialize (Hz e He). specialize (HT e HeL). lia.
Qed.

(** What a peer acknowledged stays held, as long as it acknowledges
    nothing else in that term. *)
Lemma holds_ack_grows a a' s t t' V : spec_inv a -> tlog_grows a a' -> a_ack a' s t = a_ack a s t ->
  holds_ack a s t t' V -> holds_ack a' s t t' V.
Proof.
  intros I G E H i L' m HL' Hpos K. rewrite E in Hpos.
  destruct (si_ack _ I s t ltac:(lia)) as (_ & _ & i0 & L & HL & Hle).
  destruct (G _ _ _ HL) as (x & HLx & _). rewrite HLx in HL'. injection HL' as <- <-.
  apply shares_app_l. apply (H i0); [done.. |]. eapply kept_grows; [done | lia | | done].
  by apply (si_tlog _ I) in HL as (_ & _ & _ & ? & _).
Qed.

Lemma kept_weaken a t t1 t2 m L : t1 <= t2 -> kept a t t2 m L -> kept a t t1 m L.
Proof. intros Hle K u j L' Hu. apply K. lia. Qed.

Lemma holds_ack_weaken a s t t1 t2 V : t1 <= t2 -> holds_ack a s t t1 V -> holds_ack a s t t2 V.
Proof. intros Hle H i L m HL Hp K. apply (H i); [done.. |]. by eapply kept_weaken. Qed.

Lemma holds_ack_zero a s t t' V : a_ack a s t = 0%nat -> holds_ack a s t t' V.
Proof. intros E i L m _ Hp. lia. Qed.

Lemma terms_le_weaken t t' L : t <= t' -> terms_le t L -> terms_le t' L.
Proof. intros Hle H e He. specialize (H e He). lia. Qed.

Lemma up_to_date_refl L : L <> [] -> up_to_date L L.
Proof. intros H. apply last_is_Some in H as [e He]. exists e, e. auto. Qed.

(** *** Preservation *)

Lemma spec_inv_init a : spec_init a -> spec_inv a.
Proof.
  intros (Ht & Hl & Hv & Htl & Ha). split.
  - intros s _. rewrite Ht, Hl. split_and!; [done | | by intros e ->%list_elem_of_singleton].
    split; [done |]. intros [|j] e Hj He; [lia | done].
  - intros t i L. by rewrite Htl.
  - intros s t c V. by rewrite Hv.
  - intros s t c V u. by rewrite Hv.
  - intros s t c V. by rewrite Hv.
  - intros s t. rewrite Ha. lia.
  - intros s t. apply holds_ack_zero, Ha.
  - intros t i L. by rewrite Htl.
Qed.

Lemma inv_sp_term a s t : spec_inv a -> a_term a s <= t ->
  spec_inv (mkA (<[s := t]> (a_term a)) (a_log a) (a_vote a) (a_tlog a) (a_ack a)).
Proof.
  intros I Ht. set (a' := mkA _ _ _ _ _).
  assert (forall s', a_term a s' <= a_term a' s') as Hmono.
  { intros s'. simpl. destruct (decide (s = s')) as [<-|]; [by rewrite fn_insert_eq | by rewrite fn_insert_ne]. }
  split.
  - intros s' Hs'. destruct (si_log _ I s' Hs') as (H1 & H2 & H3). specialize (Hmono s').
    split_and!; [lia | done | by eapply terms_le_weaken].
  - intros u i L HL. destruct (si_tlog _ I u i L HL) as (H1 & H2 & H3 & H4 & H5). specialize (Hmono i).
    split_and!; try done; [lia.. |]. intros Hu. apply H5. lia.
  - intros s' u c V HV. destruct (si_vote _ I s' u c V HV) as (H1 & H2 & H3 & H4). specialize (Hmono s').
    split_and!; try done; [lia.. |]. intros Hu. apply H3. lia.
  - apply (si_vote_acked _ I).
  - apply (si_candidate _ I).
  - intros s' u Hp. destruct (si_ack _ I s' u Hp) as (H1 & H2 & H3). specialize (Hmono s').
    split_and!; [done | lia | done].
  - intros s' u. apply (holds_ack_weaken a s' u (a_term a s') (a_term a' s')); [done | apply (si_acked _ I)].
  - apply (si_elected _ I).
Qed.

Lemma inv_sp_vote a s c : spec_inv a -> is_peer n s -> 0 < a_term a s -> a_vote a s (a_term a s) = None ->
  s = c \/ (exists V, a_vote a c (a_term a s) = Some (c, V) /\ up_to_date V (a_log a s)) ->
  spec_inv (mkA (a_term a) (a_log a) (upd2 s (a_term a s) (Some (c, a_log a s)) (a_vote a)) (a_tlog a) (a_ack a)).
Proof.
  intros I Hs Hpos Hnone Hc. set (a' := mkA _ _ _ _ _).
  destruct (si_log _ I s Hs) as (Ht & Hch & Hle).
  assert (a_vote a' s (a_term a s) = Some (c, a_log a s)) as Hnew by (simpl; by rewrite upd2_eq).
  assert (forall s' t x, a_vote a s' t = Some x -> a_vote a' s' t = Some x) as Hold.
  { intros s' t x Hx. simpl. rewrite upd2_ne; [done |]. intros [-> ->]. congruence. }
  assert (forall s' t c' V, a_vote a' s' t = Some (c', V) ->
    (s' = s /\ t = a_term a s /\ c' = c /\ V = a_log a s) \/ a_vote a s' t = Some (c', V)) as Hcase.
  { intros s' t c' V. simpl. destruct (decide (s' = s /\ t = a_term a s)) as [[-> ->]|Hne].
    - rewrite upd2_eq. intros [= <- <-]. by left.
    - rewrite upd2_ne by done. by right. }
  split.
  - apply (si_log _ I).
  - apply (si_tlog _ I).
  - intros s' t c' V [(-> & -> & -> & ->)|HV]%Hcase; [| by apply (si_vote _ I) in HV].
    split_and!; try done. by eapply chain_nonempty.
  - intros s' t c' V u [(-> & -> & -> & ->)|HV]%Hcase Hu; [| by eapply (si_vote_acked _ I)].
    apply (si_acked _ I).
  - intros s' t c' V [(-> & -> & -> & ->)|HV]%Hcase.
    + destruct Hc as [->|(V0 & HV0 & Hutd)].
      * exists (a_log a c). split; [done |]. apply up_to_date_refl. by eapply chain_nonempty.
      * exists V0. split; [by apply Hold | done].
    + destruct (si_candidate _ I _ _ _ _ HV) as (V0 & HV0 & Hutd). exists V0. split; [by apply Hold | done].
  - apply (si_ack _ I).
  - apply (si_acked _ I).
  - intros t i L HL. destruct (si_elected _ I t i L HL) as (L0 & Q & H1 & H2 & H3 & H4).
    exists L0, Q. split_and!; try done. intros s' Hs'. destruct (H4 s' Hs') as (V & HV & HV').
    exists V. split; [by apply Hold | done].
Qed.

(** The invariant after a step that changes the logs of terms and what
    one peer [s0] acknowledged in its own term, no votes and no terms. *)
Lemma inv_history a a' s0 : spec_inv a -> tlog_grows a a' ->
  a_term a' = a_term a -> a_vote a' = a_vote a ->
  (forall s t, ~ (s = s0 /\ t = a_term a s0) -> a_ack a' s t = a_ack a s t) ->
  (forall s t c V, a_vote a s t = Some (c, V) -> a_term a s = t -> a_tlog a' t = None -> a_log a' s = V) ->
  (forall s, is_peer n s -> chain a' (a_log a' s) /\ terms_le (a_term a s) (a_log a' s)) ->
  (forall t i L, a_tlog a' t = Some (i, L) ->
     0 < t <= a_term a i /\ is_peer n i /\ chain a' L /\ terms_le t L /\ (a_term a i = t -> a_log a' i = L)) ->
  ((0 < a_ack a' s0 (a_term a s0))%nat -> is_peer n s0 /\
     exists i L, a_tlog a' (a_term a s0) = Some (i, L) /\ (a_ack a' s0 (a_term a s0) <= length L)%nat) ->
  (forall s t, holds_ack a' s t (a_term a s) (a_log a' s)) ->
  (forall t i L, a_tlog a t = None -> a_tlog a' t = Some (i, L) ->
     exists L0 Q, L0 `prefix_of` L /\ (forall e, e ∈ L0 -> Term_ e < t) /\ majority Q /\
       forall s, s ∈ Q -> exists V, a_vote a s t = Some (i, V) /\ up_to_date L0 V /\
         forall u, u < t -> holds_ack a s u (t - 1) V) ->
  spec_inv a'.
Proof.
  intros I G Et Ev Ha Hvl Hlog Htl Hack Hacked Hel.
  assert (forall s t c V u t' W, a_vote a s t = Some (c, V) -> u < t -> holds_ack a s u t' W ->
    holds_ack a' s u t' W) as Hmono.
  { intros s t c V u t' W HV Hu. apply holds_ack_grows; [done.. |]. apply Ha. intros [-> ->].
    apply (si_vote _ I) in HV. lia. }
  split; rewrite ?Et, ?Ev.
  - intros s Hs. destruct (si_log _ I s Hs) as (? & _). by destruct (Hlog s Hs).
  - done.
  - intros s t c V HV. destruct (si_vote _ I s t c V HV) as (? & ? & ? & ?).
    split_and!; try done; [lia.. | by eapply Hvl | by eapply chain_grows].
  - intros s t c V u HV Hu. eapply Hmono; [done.. |]. by eapply (si_vote_acked _ I).
  - apply (si_candidate _ I).
  - intros s t Hp. destruct (decide (s = s0 /\ t = a_term a s0)) as [[-> ->]|Hne]; [by destruct (Hack Hp) |].
    rewrite Ha in * by done. destruct (si_ack _ I s t Hp) as (H1 & H2 & i & L & HL & Hle).
    destruct (G _ _ _ HL) as (x & HLx & _). split_and!; [done.. |]. exists i, (L ++ x).
    split; [done |]. rewrite length_app. lia.
  - done.
  - intros t i L HL. destruct (a_tlog a t) as [[i0 L1]|] eqn:E.
    + destruct (G _ _ _ E) as (x & HLx & _). rewrite HL in HLx. injection HLx as -> ->.
      destruct (si_elected _ I t i0 L1 E) as (L0 & Q & H1 & H2 & H3 & H4). exists L0, Q. split_and!; try done.
      * by apply prefix_app_r.
      * intros s Hs. destruct (H4 s Hs) as (V & HV & Hutd & HA). exists V. split_and!; try done.
        intros u Hu. eapply Hmono; eauto.
    + destruct (Hel t i L E HL) as (L0 & Q & H1 & H2 & H3 & H4). exists L0, Q. split_and!; try done.
      intros s Hs. destruct (H4 s Hs) as (V & HV & Hutd & HA). exists V. split_and!; try done.
      intros u Hu. eapply Hmono; eauto.
Qed.

Lemma inv_sp_elect a i Q : spec_inv a -> is_peer n i -> 0 < a_term a i -> a_tlog a (a_term a i) = None ->
  majority Q -> (forall s, s ∈ Q -> exists V, a_vote a s (a_term a i) = Some (i, V)) ->
  spec_inv (mkA (a_term a) (a_log a) (a_vote a) (<[a_term a i := Some (i, a_log a i)]> (a_tlog a))
              (upd2 i (a_term a i) (length (a_log a i)) (a_ack a))).
Proof.
  intros I Hi Hpos Hnone HQ Hv. set (a' := mkA _ _ _ _ _).
  destruct (si_log _ I i Hi) as (Ht & Hch & Hle).
  assert (tlog_grows a a') as G.
  { intros t j L HL. exists []. rewrite app_nil_r. split_and!; [| by intros ? ?%not_elem_of_nil..].
    simpl. rewrite fn_insert_ne; [done |]. intros <-. congruence. }
  assert (a_tlog a' (a_term a i) = Some (i, a_log a i)) as Hnew by (simpl; by rewrite fn_insert_eq).
  assert (a_ack a' i (a_term a i) = length (a_log a i)) as Hacki by (simpl; by rewrite upd2_eq).
  apply (inv_history a a' i); try done.
  - intros s t Hne. simpl. by apply upd2_ne.
  - intros s t c V HV Hs HN. eapply (si_vote _ I); [done | done |]. simpl in HN.
    destruct (decide (a_term a i = t)) as [E|Hne]; [by rewrite E, fn_insert_eq in HN | by rewrite fn_insert_ne in HN].
  - intros s Hs. destruct (si_log _ I s Hs) as (_ & ? & ?). split; [by eapply chain_grows | done].
  - intros t j L HL. destruct (decide (a_term a i = t)) as [<-|Hne].
    + rewrite Hnew in HL. injection HL as <- <-. split_and!; try done; try lia; by eapply chain_grows.
    + simpl in HL. rewrite fn_insert_ne in HL by done. destruct (si_tlog _ I t j L HL) as (? & ? & ? & ? & ?).
      split_and!; try done; try lia; by eapply chain_grows.
  - intros _. split; [done |]. exists i, (a_log a i). rewrite Hacki. done.
  - intros s t. destruct (decide (s = i /\ t = a_term a i)) as [[-> ->]|Hne].
    + intros j L m HL Hm _. rewrite Hnew in HL. injection HL as <- <-. rewrite Hacki in Hm. apply shares_refl. simpl. lia.
    + apply (holds_ack_grows a); [done.. | simpl; by apply upd2_ne | apply (si_acked _ I)].
  - intros t j L HN HL. destruct (decide (a_term a i = t)) as [<-|Hne];
      [| by simpl in HL; rewrite fn_insert_ne, HN in HL].
    rewrite Hnew in HL. injection HL as <- <-. exists (a_log a i), Q. split_and!; try done.
    + intros e [k Hk]%list_elem_of_lookup. destruct Hch as [H0 H]. destruct k as [|k].
      * rewrite H0 in Hk. injection Hk as <-. done.
      * destruct (H (S k) e ltac:(lia) Hk) as (j & L' & HL' & _).
        assert (Term_ e <= a_term a i) by (apply Hle; by eapply list_elem_of_lookup_2).
        destruct (decide (Term_ e = a_term a i)); [congruence | lia].
    + intros s Hs. destruct (Hv s Hs) as (V & HV). exists V. split; [done |].
      destruct (si_candidate _ I _ _ _ _ HV) as (V0 & HV0 & Hutd).
      assert (a_log a i = V0) as <- by (by eapply (si_vote _ I)). split; [done |].
      intros u Hu k L m HL Hp K. eapply (si_vote_acked _ I); [done.. |].
      intros w k' L' Hw HL'. apply (K w k' L'); [| done].
      destruct (decide (w = a_term a i)) as [->|]; [congruence | lia].
Qed.

Lemma inv_sp_append a i L e : spec_inv a -> a_tlog a (a_term a i) = Some (i, L) -> Term_ e = a_term a i ->
  spec_inv (mkA (a_term a) (<[i := L ++ [e]]> (a_log a)) (a_vote a) (<[a_term a i := Some (i, L ++ [e])]> (a_tlog a))
              (upd2 i (a_term a i) (length (L ++ [e])) (a_ack a))).
Proof.
  intros I HL He. set (a' := mkA _ _ _ _ _).
  destruct (si_tlog _ I _ _ _ HL) as (Ht & Hi & Hch & Hle & Hlog). specialize (Hlog eq_refl).
  assert (a_tlog a' (a_term a i) = Some (i, L ++ [e])) as Hnew by (simpl; by rewrite fn_insert_eq).
  assert (tlog_grows a a') as G.
  { intros t j K HK. destruct (decide (a_term a i = t)) as [<-|Hne].
    - rewrite HL in HK. injection HK as <- <-. exists [e]. split_and!; [done | |];
        intros e' ->%list_elem_of_singleton; lia.
    - exists []. rewrite app_nil_r. split_and!; [| by intros ? ?%not_elem_of_nil..].
      simpl. by rewrite fn_insert_ne. }
  assert (chain a' (L ++ [e])) as Hch'.
  { destruct (chain_grows a a' L G Hch) as [H0 H]. split; [by apply lookup_app_l_Some |].
    intros j e' Hj He'. apply lookup_app_Some in He' as [He'|[Hlen He']].
    - destruct (H j e' Hj He') as (k & L' & HL' & Hs). exists k, L'. split; [done |]. by apply shares_app_l.
    - apply list_lookup_singleton_Some in He' as [Hj' <-]. rewrite He, Hnew. exists i, (L ++ [e]).
      split; [done |]. apply shares_refl. rewrite length_app. simpl. lia. }
  assert (terms_le (a_term a i) (L ++ [e])) as Hle'.
  { intros e' [He'| ->%list_elem_of_singleton]%elem_of_app; [by apply Hle | lia]. }
  assert (a_ack a' i (a_term a i) = length (L ++ [e])) as Hacki by (simpl; by rewrite upd2_eq).
  apply (inv_history a a' i); try done.
  - intros s t Hne. simpl. by apply upd2_ne.
  - intros s t c V HV Hs HN. simpl in HN |- *.
    destruct (decide (a_term a i = t)) as [E|Hne]; [by rewrite E, fn_insert_eq in HN |].
    rewrite fn_insert_ne in HN by done. rewrite fn_insert_ne by (intros ->; done). by eapply (si_vote _ I).
  - intros s Hs. simpl. destruct (decide (i = s)) as [<-|Hne]; [by rewrite fn_insert_eq |].
    rewrite fn_insert_ne by done. destruct (si_log _ I s Hs) as (_ & ? & ?). split; [by eapply chain_grows | done].
  - intros t j K HK. destruct (decide (a_term a i = t)) as [<-|Hne].
    + rewrite Hnew in HK. injection HK as <- <-. split_and!; try done; [lia.. |]. intros _. simpl. by rewrite fn_insert_eq.
    + simpl in HK. rewrite fn_insert_ne in HK by done. destruct (si_tlog _ I t j K HK) as (? & ? & ? & ? & ?).
      split_and!; try done; [lia.. | by eapply chain_grows |]. intros Hj. simpl.
      rewrite fn_insert_ne by (intros ->; done). auto.
  - intros _. split; [done |]. exists i, (L ++ [e]). rewrite Hacki. done.
  - intros s t. destruct (decide (s = i /\ t = a_term a i)) as [[-> ->]|Hne].
    + intros j K m HK Hm _. rewrite Hnew in HK. injection HK as <- <-. rewrite Hacki in Hm. simpl. rewrite fn_insert_eq.
      apply shares_refl. lia.
    + assert (holds_ack a' s t (a_term a s) (a_log a s)) as H.
      { apply (holds_ack_grows a); [done.. | simpl; by apply upd2_ne | apply (si_acked _ I)]. }
      simpl. destruct (decide (i = s)) as [<-|His]; [rewrite fn_insert_eq | by rewrite fn_insert_ne].
      rewrite Hlog in H. intros j K m HK Hp HKp. apply shares_app_r. by apply (H j).
  - intros t j K HN HK. simpl in HK. rewrite fn_insert_ne in HK by (intros <-; congruence). congruence.
Qed.

(** Taking entries [p] to [k] of the leader's log gives the old log or
    the first [k] entries of the leader's. *)
Lemma accepted_cases a L l p k : chain a L -> chain a l -> (p <= k)%nat -> (k <= length L)%nat -> shares p l L ->
  (accepted p k L l = l /\ shares k l L) \/ accepted p k L l = take k L.
Proof.
  intros HL Hl Hp Hk Hs. unfold accepted. set (es := take (k - p) (drop p L)).
  assert (take k L = take p L ++ es) as Ek.
  { unfold es. rewrite take_drop_commute. replace (p + (k - p))%nat with k by lia.
    rewrite <- (take_drop p (take k L)) at 1. f_equal. rewrite take_take. f_equal. lia. }
  assert (take p l = take p L) as Ep by apply Hs.
  destruct (merge_cases (drop p l) es) as [->|[-> Hpre]].
  - intros j x e Hx He Ht. rewrite lookup_drop in Hx. unfold es in He.
    apply lookup_take_Some in He as [He _]. rewrite lookup_drop in He.
    pose proof (chain_matching a l L (p + j) x e Hl HL Hx He Ht) as Hm.
    apply (shares_lookup _ _ _ (p + j)) in Hm; [congruence | lia].
  - right. by rewrite Ek, Ep.
  - left. split; [apply take_drop |]. destruct Hpre as [z Hz].
    assert (l = take k L ++ z) as ->.
    { rewrite Ek, <- Ep, <- app_assoc, <- Hz. by rewrite take_drop. }
    apply shares_app_l, shares_take; lia.
Qed.

Lemma accepted_shares a L l p k m : chain a L -> chain a l -> (p <= k)%nat -> (k <= length L)%nat ->
  shares p l L -> shares m l L -> shares m (accepted p k L l) L.
Proof.
  intros HL Hl Hp Hk Hs Hm. destruct (decide (m <= k)%nat) as [Hmk|Hkm].
  - destruct (accepted_cases a L l p k) as [[-> ?]| ->]; [done.. |].
    apply shares_take; [done | lia].
  - unfold accepted. rewrite merge_prefix; [by rewrite take_drop |].
    exists (drop (k - p) (drop p l)). rewrite <- (take_drop (k - p) (drop p l)) at 1. f_equal.
    apply (shares_le m k) in Hm; [| lia]. destruct Hm as (E & _).
    rewrite !take_drop_commute. replace (p + (k - p))%nat with k by lia. by rewrite E.
Qed.

Lemma inv_sp_accept a s i p k L x y : spec_inv a -> is_peer n s ->
  a_tlog a (a_term a s) = Some (i, L) -> (0 < p <= k)%nat -> (k <= length L)%nat ->
  a_log a s !! (p - 1)%nat = Some x -> L !! (p - 1)%nat = Some y -> Term_ x = Term_ y ->
  spec_inv (mkA (a_term a) (<[s := accepted p k L (a_log a s)]> (a_log a)) (a_vote a) (a_tlog a)
              (upd2 s (a_term a s) (Nat.max k (a_ack a s (a_term a s))) (a_ack a))).
Proof.
  intros I Hs HL Hp Hk Hx Hy Hxy. set (a' := mkA _ _ _ _ _).
  destruct (si_log _ I s Hs) as (Ht & Hch & Hle). destruct (si_tlog _ I _ _ _ HL) as (Hti & Hi & HchL & HleL & Hlog).
  assert (shares p (a_log a s) L) as Hps.
  { replace p with (S (p - 1)) by lia. by eapply chain_matching. }
  set (R := accepted p k L (a_log a s)).
  assert (forall m, shares m (a_log a s) L -> shares m R L) as HR by (intros; apply (accepted_shares a); done || lia).
  assert (shares k R L /\ chain a R /\ terms_le (a_term a s) R) as (HRk & HRc & HRt).
  { destruct (accepted_cases a L (a_log a s) p k) as [[E ?]|E]; try done; try lia; fold R in E; rewrite E; [done |].
    split_and!; [apply shares_take; lia | apply chain_take; [lia | done] |].
    intros e He. apply HleL. by eapply elem_of_take_1 || (apply elem_of_take in He as (? & ? & _); by eapply list_elem_of_lookup_2). }
  assert (tlog_grows a a') as G by (by apply tlog_grows_refl).
  assert (a_ack a' s (a_term a s) = Nat.max k (a_ack a s (a_term a s))) as Hacks by (simpl; by rewrite upd2_eq).
  apply (inv_history a a' s); try done.
  - intros s' t Hne. simpl. by apply upd2_ne.
  - intros s' t c V HV Hs' HN. simpl in HN |- *. rewrite fn_insert_ne; [by eapply (si_vote _ I) |].
    intros ->. congruence.
  - intros s' Hs'. simpl. destruct (decide (s = s')) as [<-|Hne]; [by rewrite fn_insert_eq |].
    rewrite fn_insert_ne by done. by destruct (si_log _ I s' Hs') as (_ & ? & ?).
  - intros t j K HK. destruct (si_tlog _ I t j K HK) as (? & ? & ? & ? & HjK). split_and!; try done; try lia.
    intros Hj. simpl. destruct (decide (s = j)) as [<-|Hne]; [| rewrite fn_insert_ne by done; auto].
    rewrite fn_insert_eq. specialize (HjK Hj). change (a_tlog a t = Some (s, K)) in HK. rewrite <- Hj, HL in HK.
    injection HK as -> ->.
    assert (shares (length K) R K) as (E & _) by (apply HR; rewrite HjK; by apply shares_refl).
    rewrite firstn_all in E. destruct (accepted_cases a K (a_log a s) p k) as [[E' ?]|E']; try done; try lia; fold R in E'.
    + etransitivity; [exact E' | exact HjK].
    + change (R = K). rewrite E' in E |- *. rewrite take_take in E. rewrite <- E at 2. f_equal. lia.
  - intros _. split; [done |]. exists i, L. split; [done |]. rewrite Hacks.
    destruct (decide (a_ack a s (a_term a s) = 0)%nat) as [->|Hne]; [lia |].
    destruct (si_ack _ I s (a_term a s)) as (_ & _ & j & K & HK & ?); [lia |]. rewrite HL in HK. simplify_eq. lia.
  - intros s' t. simpl. destruct (decide (s = s')) as [<-|Hne].
    2:{ rewrite fn_insert_ne by done. apply (holds_ack_grows a); [done.. | | apply (si_acked _ I)].
        simpl. apply upd2_ne. naive_solver. }
    rewrite fn_insert_eq. destruct (decide (t = a_term a s)) as [->|Htt].
    + intros j K m HK Hm _. simpl in HK. rewrite HL in HK. injection HK as <- <-. rewrite Hacks in Hm. apply shares_sym.
      destruct (decide (m <= k)%nat); [by eapply shares_le |].
      apply HR. apply shares_sym, (si_acked _ I s (a_term a s) i); [done | lia |].
      intros u ? ? ?. lia.
    + assert (a_ack a' s t = a_ack a s t) as E by (simpl; apply upd2_ne; naive_solver).
      intros j K m HK Hpos HKp. rewrite E in Hpos.
      pose proof (si_ack _ I s t ltac:(lia)) as (_ & Hle' & _).
      pose proof (si_acked _ I s t j K m HK Hpos HKp) as Hsh.
      assert (shares m K L) as HKL by (apply (HKp (a_term a s) i); [lia | done]).
      apply (shares_trans _ _ L); [done |]. apply shares_sym, HR. apply (shares_trans _ _ K); [by apply shares_sym | done].
  - intros t j K HN HK. simpl in HK. congruence.
Qed.

Theorem spec_inv_step a a' : spec_inv a -> spec_step a a' -> spec_inv a'.
Proof.
  intros I [w H]. destruct H.
  - by apply inv_sp_term.
  - by apply inv_sp_vote.
  - by eapply inv_sp_elect.
  - by apply inv_sp_append.
  - by eapply inv_sp_accept.
Qed.

Lemma spec_inv_reachable a : reachable spec_init spec_step a -> spec_inv a.
Proof. apply invariant_reachable; [apply spec_inv_init | intros ? ?; apply spec_inv_step]. Qed.

(** ** Safety *)

(** The log a majority's vote let win contains what the majority of an
    earlier term acknowledged, if the leaders in between do. *)
Lemma elected_contains a t k L V L0 t' : spec_inv a -> chosen a t k L -> t < t' ->
  chain a V -> chain a L0 -> (forall e, e ∈ L0 -> Term_ e < t') -> up_to_date L0 V -> shares k L V ->
  (forall u j K, t < u < t' -> a_tlog a u = Some (j, K) -> shares k L K) ->
  shares k L L0.
Proof.
  intros I (i & Q & e & HL & Hk & He & Het & _) Htt HV H0 Hlt (e0 & v & He0 & Hv & Hutd) Hs Hbelow.
  rewrite last_lookup in He0, Hv.
  assert (length V <> 0)%nat by (intros E; destruct V; done).
  assert (length L0 <> 0)%nat by (intros E; destruct L0; done).
  destruct (si_tlog _ I _ _ _ HL) as (Hpos & _ & HchL & HleL & _).
  assert (Hkt : t <= Term_ v).
  { pose proof Hs as (_ & _ & HkV). rewrite (shares_lookup k L V) in He by (done || lia).
    destruct (decide (length V = 1)%nat) as [E1|].
    - assert (k = 1)%nat as -> by lia. destruct V as [|? [|? ?]]; simplify_eq/=. lia.
    - destruct HV as [_ HV]. destruct (HV (pred (length V)) v) as (j & K & HK & HsK); [lia | done |].
      rewrite (shares_lookup _ V K (k - 1)) in He by (done || lia). rewrite <- Het.
      apply (si_tlog _ I) in HK as (_ & _ & _ & HleK & _). apply HleK. by eapply list_elem_of_lookup_2. }
  destruct Hutd as [Hut|[Hut Hlen]].
  - assert (Term_ e0 < t') by (apply Hlt; by eapply list_elem_of_lookup_2).
    destruct H0 as [Hz H0]. destruct (decide (pred (length L0) = 0)%nat) as [E|].
    { rewrite E, Hz in He0. injection He0 as <-. simpl in *. lia. }
    destruct (H0 (pred (length L0)) e0) as (j & K & HK & HsK); [lia | done |].
    pose proof (Hbelow (Term_ e0) j K ltac:(lia) HK) as HkK.
    destruct (decide (k <= length L0)%nat) as [Hle|Hgt].
    + apply (shares_trans _ _ K); [done |]. apply shares_sym. eapply shares_le; [| done]. lia.
    + exfalso. assert (L !! pred (length L0) = Some e0) as Hbad.
      { rewrite (shares_lookup k L K), <- (shares_lookup (S (pred (length L0))) L0 K) by (done || lia). done. }
      apply list_elem_of_lookup_2, HleL in Hbad. lia.
  - assert (shares (length V) L0 V) as HLV.
    { destruct (decide (length V = 1)%nat) as [E1|].
      - rewrite E1. destruct HV as [HV _], H0 as [H0 _]. destruct V, L0; simplify_eq/=.
        split_and!; simpl; [by rewrite !take_0 | lia..].
      - destruct HV as [_ HV], H0 as [_ H0].
        destruct (HV (pred (length V)) v) as (j & K & HK & HsK); [lia | done |].
        destruct (H0 (pred (length L0)) e0) as (j' & K' & HK' & HsK'); [lia | done |].
        rewrite <- Hut in HK'. rewrite HK in HK'. injection HK' as <- <-.
        apply (shares_le _ (length V)) in HsK; [| lia]. apply (shares_le _ (length V)) in HsK'; [| lia].
        apply (shares_trans _ _ K); [done |]. by apply shares_sym. }
    apply (shares_trans _ _ V); [done |]. apply shares_sym. eapply shares_le; [| done]. apply Hs.
Qed.

(** Leader completeness: what a majority acknowledged in a term is in the
    log of every later leader. *)
Lemma leader_completeness a t k L : 0 <= n -> spec_inv a -> chosen a t k L ->
  forall t' j K, t < t' -> a_tlog a t' = Some (j, K) -> shares k L K.
Proof.
  intros Hn I Hc t'. induction t' as [t' IH] using (well_founded_induction (Z.lt_wf t)).
  intros j K Htt HK. destruct (si_elected _ I t' j K HK) as (L0 & Q' & Hpre & Hlt & [HQ' Hm'] & HV).
  pose proof Hc as (i & Q & e & HL & Hk & He & Het & [HQ Hm] & Hack).
  destruct (majorities_intersect n Q Q') as (s & HsQ & HsQ'); [done.. |].
  destruct (HV s HsQ') as (V & Hvote & Hutd & Hholds).
  specialize (Hack s HsQ).
  assert (forall u j K, t < u < t' -> a_tlog a u = Some (j, K) -> shares k L K) as Hbelow.
  { intros u j' K' Hu. apply IH; lia. }
  assert (shares k L V) as HkV.
  { apply (Hholds t Htt i); [done | lia |]. intros u j' K' Hu. apply Hbelow. lia. }
  destruct (si_tlog _ I _ _ _ HK) as (_ & _ & HchK & _).
  destruct (si_vote _ I _ _ _ _ Hvote) as (_ & _ & _ & HchV).
  assert (chain a L0) as Hch0.
  { destruct Hpre as [z ->]. eapply chain_app_inv; [| done]. destruct Hutd as (? & ? & Hl & _). by intros ->. }
  assert (shares k L L0) as H0 by (by apply (elected_contains a t k L V L0 t')).
  destruct Hpre as [z ->]. by apply shares_app_r.
Qed.

(** The common prefix of two chosen logs. *)
Lemma chosen_agree a t k L t' k' L' : 0 <= n -> spec_inv a -> chosen a t k L -> chosen a t' k' L' ->
  shares (k `min` k') L L'.
Proof.
  intros Hn I H H'. pose proof H as (i & Q & e & HL & _). pose proof H' as (i' & Q' & e' & HL' & _ & He' & _).
  apply lookup_lt_Some in He'.
  destruct (Z.lt_trichotomy t t') as [Hlt|[<-|Hlt]].
  - eapply shares_le; [| by eapply (leader_completeness a t k L)]. lia.
  - rewrite HL in HL'. injection HL' as _ <-. apply shares_refl. lia.
  - apply shares_sym. eapply shares_le; [| by eapply (leader_completeness a t' k' L')]. lia.
Qed.

(** What is chosen stays chosen. *)
Lemma chosen_step a a' t k L : spec_inv a -> spec_step a a' -> chosen a t k L ->
  exists x, chosen a' t k (L ++ x).
Proof.
  intros I [w H] (i & Q & e & HL & Hk & He & Het & HQ & Hack).
  assert (exists x, a_tlog a' t = Some (i, L ++ x)) as [x Hx].
  { destruct H; simpl.
    - exists []. by rewrite app_nil_r.
    - exists []. by rewrite app_nil_r.
    - exists []. rewrite app_nil_r. rewrite fn_insert_ne; [done | congruence].
    - destruct (decide (a_term a i0 = t)) as [<-|Hne].
      + rewrite fn_insert_eq. exists [e0]. rewrite HL in H. by injection H as <- <-.
      + exists []. rewrite app_nil_r. by rewrite fn_insert_ne.
    - exists []. by rewrite app_nil_r. }
  exists x, i, Q, e. split_and!; try done; [by apply lookup_app_l_Some |].
  intros s Hs. specialize (Hack s Hs). pose proof (lookup_lt_Some _ _ _ He) as Hlt.
  destruct H; simpl; try done.
  - destruct (decide (s = i0 /\ t = a_term a i0)) as [[-> ->]|Hne]; [| by rewrite upd2_ne].
    congruence.
  - destruct (decide (s = i0 /\ t = a_term a i0)) as [[-> ->]|Hne]; [| by rewrite upd2_ne].
    rewrite upd2_eq, length_app. destruct (si_ack _ I i0 (a_term a i0)) as (_ & _ & ? & ? & HK & ?); [lia |].
    rewrite H in HK. simplify_eq. lia.
  - destruct (decide (s = s0 /\ t = a_term a s0)) as [[-> ->]|Hne]; [| by rewrite upd2_ne].
    rewrite upd2_eq. lia.
Qed.

(** A leader has acknowledged its own log. *)
Definition self_ack a : Prop := forall t i L, a_tlog a t = Some (i, L) -> (length L <= a_ack a i t)%nat.

Lemma self_ack_reachable a : reachable spec_init spec_step a -> self_ack a.
Proof.
  apply invariant_reachable.
  - intros a0 (_ & _ & _ & Ht & _) t i L. by rewrite Ht.
  - intros a1 a2 H [w S] t j K. destruct S; simpl; try apply H.
    + destruct (decide (a_term a1 i = t)) as [<-|Hne].
      * rewrite fn_insert_eq. intros [= <- <-]. by rewrite upd2_eq.
      * rewrite fn_insert_ne by done. rewrite upd2_ne by naive_solver. apply H.
    + destruct (decide (a_term a1 i = t)) as [<-|Hne].
      * rewrite fn_insert_eq. intros [= <- <-]. by rewrite upd2_eq.
      * rewrite fn_insert_ne by done. rewrite upd2_ne by naive_solver. apply H.
    + intros HK. specialize (H t j K HK). destruct (decide (j = s /\ t = a_term a1 s)) as [[-> ->]|Hne].
      * rewrite upd2_eq. lia.
      * by rewrite upd2_ne.
Qed.

(** What everybody else may rely on when peer [w] steps. *)
Record evolves a w a' : Prop := mkEvolves {
  ev_term : forall s, s <> w -> a_term a' s = a_term a s;
  ev_log : forall s, s <> w -> a_log a' s = a_log a s;
  ev_row : forall s t, s <> w -> a_vote a' s t = a_vote a s t;
  ev_vote : forall s t x, a_vote a s t = Some x -> a_vote a' s t = Some x;
  ev_other : forall t j L, j <> w -> a_tlog a t = Some (j, L) -> a_tlog a' t = Some (j, L);
  ev_tlog : forall t j L, a_tlog a t = Some (j, L) -> exists x, a_tlog a' t = Some (j, L ++ x);
  ev_ack : forall s t, (a_ack a s t <= a_ack a' s t)%nat;
  ev_chosen : forall t k L, chosen a t k L -> exists x, chosen a' t k (L ++ x);
}.

Lemma spec_step_evolves a w a' : spec_inv a -> spec_step_of a w a' -> evolves a w a'.
Proof.
  intros I S. pose proof (fun t k L => chosen_step a a' t k L I (ex_intro _ w S)) as Hch.
  destruct S; split; try done; simpl; intros.
  all: try (by rewrite fn_insert_ne).
  all: try (by eexists; rewrite app_nil_r).
  - rewrite upd2_ne; [done | naive_solver].
  - rewrite upd2_ne; [done |]. intros [-> ->]. congruence.
  - rewrite fn_insert_ne; [done |]. intros <-. congruence.
  - exists []. rewrite app_nil_r, fn_insert_ne; [done |]. intros <-. congruence.
  - destruct (decide (s = i /\ t = a_term a i)) as [[-> ->]|Hne]; [| by rewrite upd2_ne].
    rewrite upd2_eq. destruct (decide (a_ack a i (a_term a i) = 0)%nat); [lia |].
    destruct (si_ack _ I i (a_term a i)) as (_ & _ & ? & ? & HK & _); [lia | congruence].
  - rewrite fn_insert_ne; [done |]. intros <-. congruence.
  - destruct (decide (a_term a i = t)) as [<-|Hne].
    + rewrite fn_insert_eq. exists [e]. congruence.
    + exists []. by rewrite app_nil_r, fn_insert_ne.
  - destruct (decide (s = i /\ t = a_term a i)) as [[-> ->]|Hne]; [| by rewrite upd2_ne].
    rewrite upd2_eq. destruct (decide (a_ack a i (a_term a i) = 0)%nat); [lia |].
    destruct (si_ack _ I i (a_term a i)) as (_ & _ & ? & ? & HK & ?); [lia |].
    rewrite length_app. rewrite H in HK. simplify_eq. lia.
  - destruct (decide (s0 = s /\ t = a_term a s)) as [[-> ->]|Hne]; [| by rewrite upd2_ne].
    rewrite upd2_eq. lia.
Qed.

Lemma evolves_refl a w : evolves a w a.
Proof. split; try done; intros; exists []; by rewrite app_nil_r. Qed.

Lemma evolves_trans a w b c : evolves a w b -> evolves b w c -> evolves a w c.
Proof.
  intros A B. split.
  - intros s Hs. by rewrite (ev_term _ _ _ B), (ev_term _ _ _ A).
  - intros s Hs. by rewrite (ev_log _ _ _ B), (ev_log _ _ _ A).
  - intros s t Hs. by rewrite (ev_row _ _ _ B), (ev_row _ _ _ A).
  - intros s t x Hx. by apply (ev_vote _ _ _ B), (ev_vote _ _ _ A).
  - intros t j L Hj Hx. by apply (ev_other _ _ _ B), (ev_other _ _ _ A).
  - intros t j L (x & Hx)%(ev_tlog _ _ _ A). destruct (ev_tlog _ _ _ B _ _ _ Hx) as [y Hy].
    exists (x ++ y). by rewrite app_assoc.
  - intros s t. pose proof (ev_ack _ _ _ A s t). pose proof (ev_ack _ _ _ B s t). lia.
  - intros t k L (x & Hx)%(ev_chosen _ _ _ A). destruct (ev_chosen _ _ _ B _ _ _ Hx) as [y Hy].
    exists (x ++ y). by rewrite app_assoc.
Qed.

(** Several steps of one peer. *)
Definition spec_steps a w a' : Prop := rtc (fun x y => spec_step_of x w y) a a'.

Lemma spec_steps_reachable a w a' :
  spec_steps a w a' -> reachable spec_init spec_step a -> reachable spec_init spec_step a'.
Proof. induction 1 as [|a b c S _ IH]; [done |]. intros R. apply IH. eapply reach_step; [done |]. by exists w. Qed.

Lemma spec_steps_evolves a w a' :
  spec_steps a w a' -> reachable spec_init spec_step a -> evolves a w a'.
Proof.
  induction 1 as [|a b c S _ IH]; intros R; [apply evolves_refl |].
  eapply evolves_trans; [apply spec_step_evolves; [by apply spec_inv_reachable | done] |].
  apply IH. eapply reach_step; [done |]. by exists w.
Qed.

Lemma spec_steps_rtc a w a' : spec_steps a w a' -> rtc spec_step a a'.
Proof. induction 1 as [|a b c S _ IH]; [done |]. eapply rtc_l; [by exists w | done]. Qed.
End Spec.
