(* ===== verification/RaftFollower.v ===== *)
(** * The follower's side of [raft1/raft.go]

    What the RPC handlers answer and leave behind, branch by branch, on
    a peer whose log is well-formed: the vote decision, the reply to a
    failed consistency check, the log after a successful one, and the
    two ways of cutting the log at a snapshot.  That each handler
    returns, the fuel of its loops included, is part of each statement. *)
From S2P Require Import Prelude Persister RaftNode RaftStep RaftLog.

Section Follower.
Context {Cmd : Type} `{!Codec (RaftState Cmd)}.
Implicit Types (rf : Raft Cmd) (l es : list (LogEntry Cmd)).

Definition last_index rf : Z := last_included_index_ rf + zlen (logs_ rf) - 1.

Definition term_at rf (i : Z) : option Z := Term_ <$> entry_at rf i.

(** ** Frames *)
Lemma wf_log_frame rf rf' :
  logs_ rf' = logs_ rf -> last_included_index_ rf' = last_included_index_ rf ->
  wf_log rf -> wf_log rf'.
Proof. intros El Ei [? ? ?]. split; by rewrite ?El, ?Ei. Qed.

Lemma entry_at_frame rf rf' i :
  logs_ rf' = logs_ rf -> last_included_index_ rf' = last_included_index_ rf ->
  entry_at rf' i = entry_at rf i.
Proof. unfold entry_at. by intros -> ->. Qed.

Lemma last_entry_wf rf :
  wf_log rf -> exists e, entry_at rf (last_index rf) = Some e /\
    getLogEntry (u64 (getLogLength rf - 1)) rf = Ok e.
Proof.
  intros W. rewrite lastIndex_wf by done. apply getLogEntry_wf; [done |].
  unfold last_index. destruct W. lia.
Qed.

(** ** The vote *)

(** The order on logs of section 5.4.1 of the Raft paper. *)
Definition up_to_date (args : RequestVoteArgs) (my_term my_index : Z) : bool :=
  bool_decide (my_term < rv_LastLogTerm args) ||
  (bool_decide (my_term = rv_LastLogTerm args) && bool_decide (my_index <= rv_LastLogIndex args)).

(** The decision: the term is not stale, and in that term the peer has
    voted for the candidate, or for nobody while the candidate's log is
    at least as up to date as its own. *)
Definition vote_decision (args : RequestVoteArgs) rf (my_last_term : Z) : bool :=
  bool_decide (current_term_ rf <= rv_Term args) &&
  (if decide (current_term_ rf = rv_Term args /\ voted_for_ rf <> -1)
   then bool_decide (voted_for_ rf = rv_Candidate_ID args)
   else up_to_date args my_last_term (last_index rf)).

Lemma requestVoteBody_decision now args rf :
  wf_log rf -> 0 <= rv_Candidate_ID args -> current_term_ rf = rv_Term args ->
  exists rf' reply last,
    requestVoteBody now args rf = Ok (rf', reply) /\
    entry_at rf (last_index rf) = Some last /\
    rvr_VoteGranted reply =
      (if decide (voted_for_ rf <> -1) then bool_decide (voted_for_ rf = rv_Candidate_ID args)
       else up_to_date args (Term_ last) (last_index rf)) /\
    logs_ rf' = logs_ rf /\ last_included_index_ rf' = last_included_index_ rf.
Proof.
  intros W Hc Ht. destruct (last_entry_wf rf W) as (last & Hl & Hg).
  unfold requestVoteBody. rewrite Hg. rewrite lastIndex_wf by done. simpl.
  unfold up_to_date, last_index in *.
  repeat case_decide; do 3 eexists; (split; [reflexivity |]); (split; [exact Hl |]); simpl;
    (split; [| done]); repeat case_bool_decide; simpl; try lia; try done.
Qed.

Lemma RequestVote_decision now args rf :
  wf_log rf -> 0 <= rv_Candidate_ID args ->
  exists rf' reply last,
    RequestVote now args rf = Ok (rf', reply) /\
    entry_at rf (last_index rf) = Some last /\
    rvr_VoteGranted reply = vote_decision args rf (Term_ last) /\
    logs_ rf' = logs_ rf /\ last_included_index_ rf' = last_included_index_ rf.
Proof.
  intros W Hc. unfold RequestVote, vote_decision.
  destruct (last_entry_wf rf W) as (last & Hl & _).
  destruct (decide (rv_Term args < current_term_ rf)) as [?|?].
  { do 3 eexists. split; [reflexivity |]. split; [exact Hl |].
    by rewrite bool_decide_eq_false_2 by lia. }
  rewrite (bool_decide_eq_true_2 (_ <= _)) by lia. simpl.
  destruct (decide (rv_Term args > current_term_ rf)) as [Hgt|Hle].
  - destruct (requestVoteBody_decision now args (stepDown (rv_Term args) rf))
      as (rf' & reply & last' & H & Hl' & G & El & Ei); try done.
    { by apply (wf_log_frame rf). }
    replace last' with last in * by (unfold last_index, entry_at in *; simpl in *; congruence).
    exists rf', reply, last. split_and!; try done.
    rewrite G. change (voted_for_ (stepDown (rv_Term args) rf)) with (-1).
    rewrite decide_False by lia. by rewrite decide_False by lia.
  - destruct (requestVoteBody_decision now args rf)
      as (rf' & reply & last' & H & Hl' & G & El & Ei); try done; [lia |].
    replace last' with last in * by congruence.
    exists rf', reply, last. split_and!; try done.
    rewrite G. by repeat case_decide; try tauto; try lia.
Qed.

(** ** A failed consistency check *)

Lemma firstConflict_spec fuel : forall first ct rf,
  wf_log rf -> last_included_index_ rf <= first <= last_index rf ->
  term_at rf first = Some ct -> first - last_included_index_ rf <= Z.of_nat fuel ->
  exists f, firstConflict fuel first ct rf = Ok f /\ last_included_index_ rf <= f <= first /\
    (forall i, f <= i <= first -> term_at rf i = Some ct) /\
    (f <= last_included_index_ rf + 1 \/ term_at rf (f - 1) <> Some ct).
Proof.
  induction fuel as [|fuel IH]; intros first ct rf W Hf Ht Hfuel.
  all: pose proof (wf_lii _ W); pose proof (wf_bound _ W); unfold last_index in *.
  all: assert (forall i, first <= i <= first -> term_at rf i = Some ct) as Hone
         by (intros i ?; by replace i with first by lia).
  all: simpl; rewrite (u64_small (last_included_index_ rf + 1)) by lia.
  - rewrite decide_False by lia. exists first. split_and!; auto; lia.
  - destruct (decide (first > last_included_index_ rf + 1)) as [Hgt|?].
    2:{ exists first. split_and!; auto; lia. }
    rewrite u64_small by lia.
    destruct (getLogEntry_wf rf (first - 1) W) as (e & He & ->); [lia |]. simpl.
    case_decide as Hte.
    + destruct (IH (first - 1) ct rf) as (f & Hr & Hb & Hall & Hstop); try done; try lia.
      { unfold term_at. by rewrite He, <- Hte. }
      exists f. split_and!; try done; try lia.
      intros i Hi. destruct (decide (i = first)) as [->|?]; [done | apply Hall; lia].
    + exists first. split_and!; auto; try lia. right. unfold term_at. rewrite He. simpl. congruence.
Qed.

(** ** AppendEntries *)

(** The peer after the term has been settled. *)
Definition heard_leader (now term : Z) rf : Raft Cmd :=
  with_role Follower (with_heartbeat now
    (if decide (term > current_term_ rf) then adoptTerm term rf else rf)).

Lemma heard_leader_logs now term rf :
  logs_ (heard_leader now term rf) = logs_ rf /\
  last_included_index_ (heard_leader now term rf) = last_included_index_ rf /\
  commit_index_ (heard_leader now term rf) = commit_index_ rf.
Proof. unfold heard_leader. by case_decide. Qed.

Lemma heard_leader_wf now term rf : wf_log rf -> wf_log (heard_leader now term rf).
Proof. destruct (heard_leader_logs now term rf) as (? & ? & _). by apply wf_log_frame. Qed.

Lemma AppendEntries_heard now args rf :
  current_term_ rf <= ae_Term args ->
  AppendEntries now args rf = appendEntriesBody args (heard_leader now (ae_Term args) rf).
Proof. intros. unfold AppendEntries. by rewrite decide_False by lia. Qed.

(** The log after entry [prev], and the whole log, once [es] is merged. *)
Definition merged_logs rf (prev : Z) es : list (LogEntry Cmd) :=
  let k := Z.to_nat (prev + 1 - last_included_index_ rf) in
  take k (logs_ rf) ++ merge (drop k (logs_ rf)) es.

Lemma zlen_merged_logs rf prev es :
  wf_log rf -> last_included_index_ rf <= prev <= last_index rf ->
  prev + zlen es <= last_included_index_ rf + zlen (merged_logs rf prev es) - 1 /\
  zlen (merged_logs rf prev es) <=
    Z.max (zlen (logs_ rf)) (prev + 1 - last_included_index_ rf + zlen es).
Proof.
  intros W Hp. unfold merged_logs, last_index in *. rewrite zlen_app.
  pose proof (zlen_merge (drop (Z.to_nat (prev + 1 - last_included_index_ rf)) (logs_ rf)) es).
  pose proof (zlen_merge_ge (drop (Z.to_nat (prev + 1 - last_included_index_ rf)) (logs_ rf)) es).
  rewrite zlen_take by lia. rewrite zlen_drop in * by lia. lia.
Qed.

(** The body's frame; a failure changes nothing. *)
Lemma appendEntriesBody_frame args rf rf' reply effs :
  appendEntriesBody args rf = Ok (rf', reply, effs) ->
  current_term_ rf' = current_term_ rf /\ voted_for_ rf' = voted_for_ rf /\ role_ rf' = role_ rf /\
  last_applied_ rf' = last_applied_ rf /\ next_index_ rf' = next_index_ rf /\
  match_index_ rf' = match_index_ rf /\ snapshot_ rf' = snapshot_ rf /\
  (aer_Success reply = false -> rf' = rf).
Proof.
  unfold appendEntriesBody. intros H. repeat (case_decide; res_inv; try done).
  match goal with E : appendEntriesLoop _ _ _ _ _ = _ |- _ =>
    apply appendEntriesLoop_frame in E; unfold same_but_logs in E; rewrite E in * end.
  unfold followerCommit in *. case_decide; simplify_eq; by destruct b.
Qed.

(** Success means that the check passed. *)
Lemma appendEntriesBody_checked args rf rf' reply effs :
  wf_log rf -> last_included_index_ rf <= ae_PreviousLogIndex args < 2 ^ 64 ->
  appendEntriesBody args rf = Ok (rf', reply, effs) -> aer_Success reply = true ->
  ae_PreviousLogIndex args <= last_index rf /\
  exists e, entry_at rf (ae_PreviousLogIndex args) = Some e /\ Term_ e = ae_PreviousLogTerm args.
Proof.
  intros W Hp. unfold appendEntriesBody. rewrite getLogLength_wf by done. unfold last_index.
  case_decide; [intros [= <- <- <-]; done |]. rewrite decide_False by lia.
  intros (e & He & HB)%res_bind_ok Hs. case_decide as Ht.
  - apply res_bind_ok in HB as (f & _ & HB). injection HB as <- <- <-. done.
  - split; [lia |]. exists e. split; [| done].
    pose proof (wf_lii _ W). apply getLogEntry_Ok in He as [_ He]; [done | done | lia].
Qed.

Lemma appendEntriesBody_accepts args rf e :
  wf_log rf -> last_included_index_ rf <= ae_PreviousLogIndex args <= last_index rf ->
  entry_at rf (ae_PreviousLogIndex args) = Some e -> Term_ e = ae_PreviousLogTerm args ->
  ae_PreviousLogIndex args + 1 + zlen (ae_Entries args) < 2 ^ 64 ->
  exists rf' effs,
    appendEntriesBody args rf = Ok (rf', mkAEReply 0 true 0 0 0, effs) /\
    logs_ rf' = merged_logs rf (ae_PreviousLogIndex args) (ae_Entries args) /\
    last_included_index_ rf' = last_included_index_ rf /\
    commit_index_ rf' =
      Z.max (commit_index_ rf)
        (Z.min (ae_LeaderCommit args) (ae_PreviousLogIndex args + zlen (ae_Entries args))) /\
    wf_log rf'.
Proof.
  intros W Hp He Hte Hb. set (prev := ae_PreviousLogIndex args) in *.
  set (es := ae_Entries args) in *.
  pose proof (zlen_merged_logs rf prev es W Hp) as [Hm1 Hm2].
  pose proof (zlen_nonneg es). pose proof (wf_lii _ W). pose proof (wf_bound _ W).
  unfold last_index in Hp. unfold appendEntriesBody. fold prev es.
  rewrite getLogLength_wf by done. rewrite !decide_False by lia.
  destruct (getLogEntry_wf rf prev W) as (e' & He' & ->); [lia |].
  assert (e' = e) as -> by congruence. simpl.
  rewrite decide_False by (intros K; by apply K).
  set (k := Z.to_nat (prev + 1 - last_included_index_ rf)).
  destruct (appendEntriesLoop_merge prev es 0 false rf (take k (logs_ rf)) (drop k (logs_ rf)))
    as [m' ->]; try done; try lia.
  { by rewrite take_drop. }
  { unfold k. rewrite zlen_take by lia. lia. }
  simpl. set (rf2 := if m' : bool then _ else _).
  assert (logs_ rf2 = merged_logs rf prev es /\
    last_included_index_ rf2 = last_included_index_ rf /\ commit_index_ rf2 = commit_index_ rf)
    as (El2 & Ei2 & Ec2) by (subst rf2; by destruct m').
  assert (wf_log rf2) as W2.
  { split; rewrite ?El2, ?Ei2; destruct W; lia. }
  clearbody rf2. unfold followerCommit.
  assert (newCommitIndex args rf2 = Z.min (ae_LeaderCommit args) (prev + zlen es)) as ->.
  { unfold newCommitIndex. fold prev es. rewrite lastIndex_wf, El2, Ei2 by done.
    rewrite (u64_small (zlen es)), (u64_small (prev + zlen es)) by lia. lia. }
  case_decide; simpl; do 2 eexists; (split; [reflexivity |]); simpl;
    split_and!; try done; try lia; by apply (wf_log_frame rf2).
Qed.

Lemma appendEntries_accepts now args rf e :
  wf_log rf -> current_term_ rf <= ae_Term args ->
  last_included_index_ rf <= ae_PreviousLogIndex args <= last_index rf ->
  entry_at rf (ae_PreviousLogIndex args) = Some e -> Term_ e = ae_PreviousLogTerm args ->
  ae_PreviousLogIndex args + 1 + zlen (ae_Entries args) < 2 ^ 64 ->
  exists rf' effs,
    AppendEntries now args rf = Ok (rf', mkAEReply 0 true 0 0 0, effs) /\
    logs_ rf' = merged_logs rf (ae_PreviousLogIndex args) (ae_Entries args) /\
    last_included_index_ rf' = last_included_index_ rf /\
    commit_index_ rf' =
      Z.max (commit_index_ rf)
        (Z.min (ae_LeaderCommit args) (ae_PreviousLogIndex args + zlen (ae_Entries args))) /\
    wf_log rf'.
Proof.
  intros W Ht Hp He Hte Hb. rewrite AppendEntries_heard by done.
  destruct (heard_leader_logs now (ae_Term args) rf) as (El & Ei & Ec).
  destruct (appendEntriesBody_accepts args (heard_leader now (ae_Term args) rf) e)
    as (rf' & effs & H & El' & Ei' & Ec' & W'); try done.
  - by apply heard_leader_wf.
  - unfold last_index in *. by rewrite El, Ei.
  - by rewrite (entry_at_frame rf).
  - exists rf', effs. unfold merged_logs in *. rewrite <- Ec, <- Ei, <- El. done.
Qed.

(** What the body answers when the check fails. *)
Lemma appendEntriesBody_rejects args rf :
  wf_log rf ->
  ~ (last_included_index_ rf <= ae_PreviousLogIndex args <= last_index rf /\
     term_at rf (ae_PreviousLogIndex args) = Some (ae_PreviousLogTerm args)) ->
  exists reply, appendEntriesBody args rf = Ok (rf, reply, []) /\
    if decide (last_index rf < ae_PreviousLogIndex args) then
      reply = mkAEReply 0 false 0 0 (last_index rf + 1)
    else if decide (ae_PreviousLogIndex args < last_included_index_ rf) then
      reply = mkAEReply 0 true 0 0 (last_index rf + 1)
    else exists ct f,
      reply = mkAEReply 0 false ct f (last_index rf + 1) /\
      last_included_index_ rf <= f <= ae_PreviousLogIndex args /\
      (forall i, f <= i <= ae_PreviousLogIndex args -> term_at rf i = Some ct) /\
      ct <> ae_PreviousLogTerm args /\
      (f <= last_included_index_ rf + 1 \/ term_at rf (f - 1) <> Some ct).
Proof.
  intros W Hno. unfold appendEntriesBody, last_index in *. rewrite getLogLength_wf by done.
  destruct (decide (last_included_index_ rf + zlen (logs_ rf) <= ae_PreviousLogIndex args)).
  { eexists. split; [reflexivity |]. rewrite decide_True by lia. f_equal. lia. }
  destruct (decide (ae_PreviousLogIndex args < last_included_index_ rf)).
  { eexists. split; [reflexivity |]. rewrite decide_False by lia. f_equal. lia. }
  destruct (getLogEntry_wf rf (ae_PreviousLogIndex args) W) as (e & He & ->); [lia |]. simpl.
  assert (term_at rf (ae_PreviousLogIndex args) = Some (Term_ e)) as Hte by (unfold term_at; by rewrite He).
  assert (Term_ e <> ae_PreviousLogTerm args) as Hne by (intros K; apply Hno; split; [lia | congruence]).
  rewrite decide_True by done.
  destruct (firstConflict_spec (Z.to_nat (ae_PreviousLogIndex args - last_included_index_ rf))
    (ae_PreviousLogIndex args) (Term_ e) rf) as (f & -> & Hf & Hall & Hstop); try done;
    [unfold last_index; lia | lia |].
  simpl. eexists. split; [reflexivity |]. rewrite decide_False by lia. exists (Term_ e), f.
  split_and!; try done; try lia. f_equal. lia.
Qed.

Lemma appendEntries_keeps rf prev es i x :
  wf_log rf -> last_included_index_ rf <= prev <= last_index rf ->
  entry_at rf i = Some x ->
  (forall j y e, prev < j <= i -> entry_at rf j = Some y ->
     zlookup es (j - prev - 1) = Some e -> Term_ y = Term_ e) ->
  zlookup (merged_logs rf prev es) (i - last_included_index_ rf) = Some x.
Proof.
  intros W Hp Hi Hc. unfold merged_logs, last_index, entry_at in *.
  pose proof (zlookup_Some_range _ _ _ Hi).
  destruct (decide (i <= prev)) as [Hle|Hgt].
  - rewrite zlookup_app_l by (rewrite zlen_take; lia). by rewrite zlookup_take by lia.
  - rewrite zlookup_app_r by (rewrite zlen_take; lia). rewrite zlen_take by lia.
    replace (_ - Z.min _ _) with (i - prev - 1) by lia.
    unfold zlookup. rewrite decide_True by lia. apply merge_keeps.
    + rewrite lookup_drop. unfold zlookup in Hi. rewrite decide_True in Hi by lia.
      rewrite <- Hi. f_equal. lia.
    + intros j y e Hj Hy He. apply (Hc (prev + 1 + Z.of_nat j)); [lia | |].
      * unfold zlookup. rewrite decide_True by lia. rewrite lookup_drop in Hy.
        rewrite <- Hy. f_equal. lia.
      * unfold zlookup. rewrite decide_True by lia. rewrite <- He. f_equal. lia.
Qed.

(** ** Snapshots *)

Lemma snapshot_drop rf i :
  wf_log rf -> last_included_index_ rf <= i <= last_index rf ->
  getLogSliceCopy i (getLogLength rf) rf =
    Ok (drop (Z.to_nat (i - last_included_index_ rf)) (logs_ rf)).
Proof.
  intros W Hi. unfold getLogSliceCopy, last_index in *. rewrite getLogLength_wf by done.
  rewrite getLogSlice_wf by (try done; lia). f_equal. apply zlookup_full_take.
  rewrite zlen_drop by lia. lia.
Qed.

(** The entry the trimmed log starts with. *)
Lemma first_entry_Ok (rf : Raft Cmd) e :
  last_included_index_ rf < 2 ^ 64 -> zlookup (logs_ rf) 0 = Some e ->
  getLogEntry (last_included_index_ rf) rf = Ok e.
Proof.
  intros Hb H. unfold getLogEntry, logicalIndexToPhysicalIndex. rewrite decide_False by lia.
  rewrite Z.sub_diag. change (u64 0) with 0. simpl. unfold slice_get. by rewrite H.
Qed.

Lemma Snapshot_trims index snap rf :
  wf_log rf -> 0 <= index < 2 ^ 63 -> last_applied_ rf <= last_index rf ->
  exists rf', Snapshot index snap rf = Ok rf' /\
    (last_included_index_ rf < index <= last_applied_ rf ->
       last_included_index_ rf' = index /\ snapshot_ rf' = snap /\
       term_at rf index = Some (last_included_term_ rf') /\
       logs_ rf' = drop (Z.to_nat (index - last_included_index_ rf)) (logs_ rf) /\
       commit_index_ rf' = commit_index_ rf /\ last_applied_ rf' = last_applied_ rf /\
       durable rf') /\
    (~ last_included_index_ rf < index <= last_applied_ rf -> rf' = rf).
Proof.
  intros W Hi Ha. unfold Snapshot. pose proof (wf_lii _ W). pose proof (wf_bound _ W).
  unfold last_index in *. rewrite u64_small by lia. case_decide as Hd.
  { exists rf. split_and!; [done | lia | done]. }
  cbn [res_bind]. rewrite (snapshot_drop (with_snapshot snap rf) index);
    [| by apply (wf_log_frame rf) | unfold last_index; simpl; lia]. simpl.
  set (rf1 := with_included index _ _).
  destruct (getLogEntry_wf rf index W) as (e & He & _); [lia |].
  change (getLogEntry index rf1) with (getLogEntry (last_included_index_ rf1) rf1).
  rewrite (first_entry_Ok rf1 e); simpl; [| lia |].
  2:{ rewrite zlookup_drop by lia. rewrite Z.add_0_r. exact He. }
  eexists. split; [reflexivity |]. split; [| lia]. intros _.
  split_and!; try done; [| apply persist_durable].
  unfold term_at. by rewrite He.
Qed.

Lemma InstallSnapshot_trims args rf :
  wf_log rf -> 0 <= is_LastIncludedIndex args < 2 ^ 64 - 1 ->
  current_term_ rf <= is_Term args -> last_included_index_ rf < is_LastIncludedIndex args ->
  exists rf', InstallSnapshot args rf = Ok (rf', mkISReply (current_term_ rf), [SignalApply]) /\
    wf_log rf' /\ last_included_index_ rf' = is_LastIncludedIndex args /\
    last_included_term_ rf' = is_LastIncludedTerm args /\ snapshot_ rf' = is_Data args /\
    term_at rf' (is_LastIncludedIndex args) = Some (is_LastIncludedTerm args) /\
    commit_index_ rf' = Z.max (commit_index_ rf) (is_LastIncludedIndex args) /\
    current_term_ rf' = current_term_ rf /\ role_ rf' = role_ rf /\
    (if decide (term_at rf (is_LastIncludedIndex args) = Some (is_LastIncludedTerm args))
     then forall i, is_LastIncludedIndex args < i -> entry_at rf' i = entry_at rf i
     else last_index rf' = is_LastIncludedIndex args).
Proof.
  intros W Hi Ht Hl. unfold InstallSnapshot. rewrite !decide_False by lia.
  pose proof (wf_lii _ W). pose proof (wf_bound _ W). rewrite getLogLength_wf by done.
  set (li := is_LastIncludedIndex args) in *. set (lt := is_LastIncludedTerm args).
  match goal with |- context [res_bind ?m _] =>
    assert (m = Ok (bool_decide (term_at rf li = Some lt))) as -> end.
  { case_decide as Hd.
    - destruct (getLogEntry_wf rf li W) as (e & He & ->); [lia |]. simpl.
      unfold term_at. rewrite He. simpl. f_equal. apply bool_decide_ext. split; congruence.
    - f_equal. symmetry. apply bool_decide_eq_false. unfold term_at, entry_at.
      rewrite (proj2 (zlookup_None _ _)) by lia. done. }
  simpl.
  match goal with |- context [res_bind ?m _] =>
    assert (m = Ok (if decide (term_at rf li = Some lt)
      then drop (Z.to_nat (li - last_included_index_ rf)) (logs_ rf) else [zeroEntry])) as -> end.
  { case_bool_decide as Hd; [rewrite decide_True by done | by rewrite decide_False by done].
    unfold term_at, entry_at in Hd. apply fmap_Some in Hd as (x & Hx & _).
    apply zlookup_Some_range in Hx.
    rewrite <- getLogLength_wf by done. apply snapshot_drop; [done | unfold last_index; lia]. }
  set (l := if decide _ then _ else _).
  assert (exists e k, l = e :: k /\ li + 1 + zlen k < 2 ^ 64) as (e & k & El & Hb).
  { subst l. case_decide as Hd; [| exists zeroEntry, []; split; [done | rewrite zlen_nil; lia]].
    unfold term_at, entry_at in Hd. apply fmap_Some in Hd as (x & Hx & _).
    apply zlookup_Some_range in Hx.
    pose proof (zlen_drop (logs_ rf) (li - last_included_index_ rf) ltac:(lia)) as Hz.
    destruct (drop _ _) as [|e k]; rewrite ?zlen_cons, ?zlen_nil in Hz; [lia |].
    exists e, k. split; [done | lia]. }
  simpl. unfold logicalIndexToPhysicalIndex. simpl. rewrite decide_False by lia.
  rewrite Z.sub_diag. simpl. rewrite El. unfold slice_get, slice_set. simpl.
  pose proof (zlen_nonneg k).
  eexists. split; [reflexivity |]. split_and!; simpl; try done.
  - split; simpl; rewrite ?zlen_cons; lia.
  - unfold term_at, entry_at. simpl. by rewrite Z.sub_diag.
  - case_decide as Hd; [| unfold last_index; simpl; subst l; injection El as <- <-;
      rewrite zlen_cons, zlen_nil; lia].
    intros i Hgt. unfold entry_at. simpl. subst l.
    replace (i - last_included_index_ rf)
      with (li - last_included_index_ rf + (i - li)) by lia.
    rewrite <- zlookup_drop by lia. rewrite El.
    unfold zlookup. rewrite !decide_True by lia.
    destruct (Z.to_nat (i - li)) eqn:E; [lia | done].
Qed.
End Follower.

(** ** Properties *)
Section Properties.
Context {Cmd : Type} `{!Codec (RaftState Cmd)}.
Implicit Types (rf : Raft Cmd).

(** [RequestVote] returns on every well-formed peer, grants the vote
    exactly when [vote_decision] says so (no stale term, at most one
    candidate per term, a candidate whose last entry is at least as up
    to date), and leaves the log alone. *)
Theorem RequestVote_grants now args rf :
  wf_log rf -> 0 <= rv_Candidate_ID args ->
  exists rf' reply last,
    RequestVote now args rf = Ok (rf', reply) /\
    entry_at rf (last_index rf) = Some last /\
    rvr_VoteGranted reply = vote_decision args rf (Term_ last) /\
    logs_ rf' = logs_ rf /\ last_included_index_ rf' = last_included_index_ rf.
Proof. apply RequestVote_decision. Qed.

(** C16: [AppendEntries] whose previous entry matches returns success, and
    the log is the old one up to that entry followed by the merge of the
    rest with the leader's entries; the commit index becomes the larger
    of the old one and the leader's clamped to the entries received. *)
Theorem AppendEntries_accepts now args rf e :
  wf_log rf -> current_term_ rf <= ae_Term args ->
  last_included_index_ rf <= ae_PreviousLogIndex args <= last_index rf ->
  entry_at rf (ae_PreviousLogIndex args) = Some e -> Term_ e = ae_PreviousLogTerm args ->
  ae_PreviousLogIndex args + 1 + zlen (ae_Entries args) < 2 ^ 64 ->
  exists rf' effs,
    AppendEntries now args rf = Ok (rf', mkAEReply 0 true 0 0 0, effs) /\
    logs_ rf' = merged_logs rf (ae_PreviousLogIndex args) (ae_Entries args) /\
    last_included_index_ rf' = last_included_index_ rf /\
    commit_index_ rf' =
      Z.max (commit_index_ rf)
        (Z.min (ae_LeaderCommit args) (ae_PreviousLogIndex args + zlen (ae_Entries args))) /\
    wf_log rf'.
Proof. intros. by eapply appendEntries_accepts. Qed.

(** [AppendEntries] never removes an entry that the leader's message
    does not contradict: an entry stays where it is as long as no entry
    of the message at or before its index has another term than the
    entry it meets.  In particular a delayed message that carries a
    prefix of the log truncates nothing. *)
Theorem AppendEntries_keeps now args rf rf' reply effs e i x :
  wf_log rf -> current_term_ rf <= ae_Term args ->
  last_included_index_ rf <= ae_PreviousLogIndex args <= last_index rf ->
  entry_at rf (ae_PreviousLogIndex args) = Some e -> Term_ e = ae_PreviousLogTerm args ->
  ae_PreviousLogIndex args + 1 + zlen (ae_Entries args) < 2 ^ 64 ->
  AppendEntries now args rf = Ok (rf', reply, effs) ->
  entry_at rf i = Some x ->
  (forall j y e, ae_PreviousLogIndex args < j <= i -> entry_at rf j = Some y ->
     zlookup (ae_Entries args) (j - ae_PreviousLogIndex args - 1) = Some e -> Term_ y = Term_ e) ->
  entry_at rf' i = Some x.
Proof.
  intros W Ht Hp He Hte Hb H Hi Hc.
  destruct (appendEntries_accepts now args rf e W Ht Hp He Hte Hb)
    as (rf2 & effs2 & H2 & El & Ei & _).
  rewrite H in H2. injection H2 as -> -> ->.
  unfold entry_at. rewrite El, Ei. by apply appendEntries_keeps.
Qed.

(** C17: A failed consistency check. A stale term, a log too short, a
    previous entry before the snapshot and a previous entry of another term
    each give their own reply; in the last case the reply names the
    conflicting term and the first index from which the log holds that term
    without interruption, the snapshot's entry excluded. The log and the
    commit index do not change in any case. The third of these cases is no
    rejection: a previous entry before the snapshot is answered with
    [Success] although nothing is stored, where the comment says: reject
    this stale request; [snapshots_break_safety] is what that leads to. *)
Theorem AppendEntries_rejects now args rf :
  wf_log rf ->
  (current_term_ rf <= ae_Term args ->
   ~ (last_included_index_ rf <= ae_PreviousLogIndex args <= last_index rf /\
      term_at rf (ae_PreviousLogIndex args) = Some (ae_PreviousLogTerm args))) ->
  exists rf' reply,
    AppendEntries now args rf = Ok (rf', reply, []) /\
    logs_ rf' = logs_ rf /\ commit_index_ rf' = commit_index_ rf /\
    if decide (ae_Term args < current_term_ rf) then
      rf' = rf /\ reply = mkAEReply (current_term_ rf) false 0 0 0
    else if decide (last_index rf < ae_PreviousLogIndex args) then
      reply = mkAEReply 0 false 0 0 (last_index rf + 1)
    else if decide (ae_PreviousLogIndex args < last_included_index_ rf) then
      reply = mkAEReply 0 true 0 0 (last_index rf + 1)
    else exists ct f,
      reply = mkAEReply 0 false ct f (last_index rf + 1) /\
      last_included_index_ rf <= f <= ae_PreviousLogIndex args /\
      (forall i, f <= i <= ae_PreviousLogIndex args -> term_at rf i = Some ct) /\
      (f <= last_included_index_ rf + 1 \/ term_at rf (f - 1) <> Some ct).
Proof.
  intros W Hno. destruct (decide (ae_Term args < current_term_ rf)) as [?|Ht].
  { exists rf. eexists. unfold AppendEntries. rewrite decide_True by done. done. }
  rewrite AppendEntries_heard by lia. specialize (Hno ltac:(lia)).
  destruct (heard_leader_logs now (ae_Term args) rf) as (El & Ei & Ec).
  pose proof (heard_leader_wf now (ae_Term args) rf W) as W1.
  set (rf1 := heard_leader now (ae_Term args) rf) in *. clearbody rf1.
  assert (forall i, term_at rf1 i = term_at rf i) as Et
    by (intros; unfold term_at; by rewrite (entry_at_frame rf)).
  assert (last_index rf1 = last_index rf) as Hl by (unfold last_index; by rewrite El, Ei).
  destruct (appendEntriesBody_rejects args rf1 W1) as (reply & H & HR); [by rewrite Hl, Ei, Et |].
  exists rf1, reply. split_and!; [done.. |]. rewrite Hl, Ei in HR.
  repeat case_decide; try done. destruct HR as (ct & f & ? & ? & Hall & _ & Hstop).
  setoid_rewrite Et in Hall. rewrite Et in Hstop. by exists ct, f.
Qed.

(** [Snapshot] up to an applied index past the current snapshot trims
    the log to start at that index and keeps every later entry, the
    commit index and the applied index, and makes the result durable;
    any other index changes nothing. *)
Theorem Snapshot_keeps_tail index snap rf :
  wf_log rf -> 0 <= index < 2 ^ 63 -> last_applied_ rf <= last_index rf ->
  exists rf', Snapshot index snap rf = Ok rf' /\
    (last_included_index_ rf < index <= last_applied_ rf ->
       last_included_index_ rf' = index /\ snapshot_ rf' = snap /\
       term_at rf index = Some (last_included_term_ rf') /\
       (forall i, index <= i -> entry_at rf' i = entry_at rf i) /\
       commit_index_ rf' = commit_index_ rf /\ last_applied_ rf' = last_applied_ rf /\
       durable rf') /\
    (~ last_included_index_ rf < index <= last_applied_ rf -> rf' = rf).
Proof.
  intros W Hi Ha. destruct (Snapshot_trims index snap rf W Hi Ha) as (rf' & H & HS & HN).
  exists rf'. split_and!; try done. intros Hr.
  destruct (HS Hr) as (Ei & ? & ? & El & ? & ? & ?). split_and!; try done.
  intros i Hge. unfold entry_at. rewrite El, Ei. rewrite zlookup_drop by lia. f_equal. lia.
Qed.

(** C20: An [InstallSnapshot] that is neither stale nor old puts the
    snapshot at the head of the log, with its term; a log that already
    holds the snapshot's entry keeps its tail, any other log is replaced;
    the commit index covers the snapshot; term and role do not change,
    also when the leader's term is higher. *)
Theorem InstallSnapshot_installs args rf :
  wf_log rf -> 0 <= is_LastIncludedIndex args < 2 ^ 64 - 1 ->
  current_term_ rf <= is_Term args -> last_included_index_ rf < is_LastIncludedIndex args ->
  exists rf', InstallSnapshot args rf = Ok (rf', mkISReply (current_term_ rf), [SignalApply]) /\
    wf_log rf' /\ last_included_index_ rf' = is_LastIncludedIndex args /\
    last_included_term_ rf' = is_LastIncludedTerm args /\ snapshot_ rf' = is_Data args /\
    term_at rf' (is_LastIncludedIndex args) = Some (is_LastIncludedTerm args) /\
    commit_index_ rf' = Z.max (commit_index_ rf) (is_LastIncludedIndex args) /\
    current_term_ rf' = current_term_ rf /\ role_ rf' = role_ rf /\
    (if decide (term_at rf (is_LastIncludedIndex args) = Some (is_LastIncludedTerm args))
     then forall i, is_LastIncludedIndex args < i -> entry_at rf' i = entry_at rf i
     else last_index rf' = is_LastIncludedIndex args).
Proof. apply InstallSnapshot_trims. Qed.
End Properties.

(** ** Examples *)

(** A follower of term 2 with a snapshot at index 3 and entries 4 to 6 of
    terms 1, 2, 2. *)
Definition ex_follower : Raft Z :=
  mkRaft 3 1 (mkPersister [] []) Follower 2 (-1)
    [mkEntry None 1; mkEntry (Some 40) 1; mkEntry (Some 50) 2; mkEntry (Some 60) 2]
    3 1 [9] 4 4 [7; 7; 7] [0; 0; 0] 0.

Lemma ex_follower_wf : wf_log ex_follower.
Proof. split; vm_compute; by intuition. Qed.

Lemma RequestVote_grants_witness :
  exists rf' reply,
    RequestVote 100 (mkRVArgs 3 2 6 2) ex_follower = Ok (rf', reply) /\
    rvr_VoteGranted reply = true.
Proof.
  destruct (RequestVote_grants 100 (mkRVArgs 3 2 6 2) ex_follower)
    as (rf' & reply & last & H & Hl & G & _); [apply ex_follower_wf | simpl; lia |].
  exists rf', reply. split; [exact H |]. rewrite G.
  vm_compute in Hl. injection Hl as <-. vm_compute. reflexivity.
Defined.

(** The leader overwrites entry 6. *)
Definition ex_append : AppendEntriesArgs Z :=
  mkAEArgs 3 0 4 1 [mkEntry (Some 50) 2; mkEntry (Some 61) 3] 5.

Lemma AppendEntries_accepts_witness :
  exists rf' effs,
    AppendEntries 100 ex_append ex_follower = Ok (rf', mkAEReply 0 true 0 0 0, effs) /\
    logs_ rf' = [mkEntry None 1; mkEntry (Some 40) 1; mkEntry (Some 50) 2; mkEntry (Some 61) 3] /\
    commit_index_ rf' = 5.
Proof.
  destruct (AppendEntries_accepts 100 ex_append ex_follower (mkEntry (Some 40) 1))
    as (rf' & effs & H & El & _ & Ec & _);
    [apply ex_follower_wf | simpl; lia | vm_compute; by intuition | reflexivity | reflexivity
    | vm_compute; reflexivity |].
  exists rf', effs. split; [exact H |]. rewrite El, Ec. split; reflexivity.
Defined.

Lemma AppendEntries_keeps_witness :
  exists rf' reply effs,
    AppendEntries 100 ex_append ex_follower = Ok (rf', reply, effs) /\
    entry_at rf' 5 = Some (mkEntry (Some 50) 2).
Proof.
  destruct (AppendEntries 100 ex_append ex_follower) as [[[rf' reply] effs]|] eqn:H;
    [| vm_compute in H; discriminate H].
  exists rf', reply, effs. split; [reflexivity |].
  apply (AppendEntries_keeps 100 ex_append ex_follower rf' reply effs (mkEntry (Some 40) 1));
    [apply ex_follower_wf | simpl; lia | vm_compute; by intuition | reflexivity | reflexivity
    | vm_compute; reflexivity | exact H | reflexivity |].
  intros j y e Hj Hy He. assert (j = 5) as -> by (simpl in Hj; lia).
  vm_compute in Hy, He. congruence.
Defined.

(** A previous entry of another term. *)
Lemma AppendEntries_rejects_witness :
  exists rf' reply,
    AppendEntries 100 (mkAEArgs 3 0 6 3 [] 6) ex_follower = Ok (rf', reply, []) /\
    reply = mkAEReply 0 false 2 5 7.
Proof.
  destruct (AppendEntries_rejects 100 (mkAEArgs 3 0 6 3 [] 6) ex_follower)
    as (rf' & reply & H & _ & _ & R);
    [apply ex_follower_wf | intros _ [_ K]; vm_compute in K; discriminate K |].
  exists rf', reply. split; [exact H |].
  vm_compute in R. destruct R as (ct & f & -> & _).
  vm_compute in H. congruence.
Defined.

Lemma Snapshot_keeps_tail_witness :
  exists rf', Snapshot 4 [8; 8] ex_follower = Ok rf' /\
    last_included_index_ rf' = 4 /\ entry_at rf' 6 = Some (mkEntry (Some 60) 2).
Proof.
  destruct (Snapshot_keeps_tail 4 [8; 8] ex_follower) as (rf' & H & HS & _);
    [apply ex_follower_wf | lia | vm_compute; discriminate |].
  exists rf'. split; [exact H |].
  destruct HS as (Ei & _ & _ & HE & _); [vm_compute; by intuition |].
  split; [exact Ei |]. rewrite HE by lia. reflexivity.
Defined.

Lemma InstallSnapshot_installs_witness :
  exists rf' reply effs,
    InstallSnapshot (mkISArgs 3 0 5 2 [7]) ex_follower = Ok (rf', reply, effs) /\
    entry_at rf' 6 = Some (mkEntry (Some 60) 2).
Proof.
  destruct (InstallSnapshot_installs (mkISArgs 3 0 5 2 [7]) ex_follower)
    as (rf' & H & _ & _ & _ & _ & _ & _ & _ & _ & T);
    [apply ex_follower_wf | simpl; lia | simpl; lia | simpl; lia |].
  exists rf', (mkISReply 2), [SignalApply]. split; [exact H |].
  rewrite decide_True in T by reflexivity. rewrite T by (simpl; lia). reflexivity.
Defined.
