(* ===== verification/RaftApply.v ===== *)
(** * The applier ([raft1/raft.go], [applier])

    What the applier sends to the service, and the two executions in
    which its second critical section asks for a part of the log that
    the snapshot has swallowed. *)
From S2P Require Import Prelude Persister RaftNode RaftStep RaftLog RaftFollower.

Section Apply.
Context {Cmd : Type} `{!Codec (RaftState Cmd)}.
Implicit Types (rf : Raft Cmd) (es : list (LogEntry Cmd)).

(** The message for index [i] of the log. *)
Definition msg_for rf (i : Z) : option (ApplyMsg Cmd) :=
  (fun e => mkApplyMsg true (Command_ e) i false [] 0 0) <$> entry_at rf i.

Lemma commandMsgs_lookup es start (k : nat) :
  0 <= start -> start + zlen es < 2 ^ 63 ->
  commandMsgs start es !! k =
    (fun e => mkApplyMsg true (Command_ e) (start + Z.of_nat k) false [] 0 0) <$> es !! k.
Proof.
  revert start k. induction es as [|e es IH]; intros start k Hs Hb; [done |].
  rewrite zlen_cons in Hb. pose proof (zlen_nonneg es). simpl.
  destruct k as [|k]; simpl; [by rewrite Z.add_0_r |].
  rewrite i64_small by lia. rewrite IH by lia. destruct (es !! k); simpl; [| done].
  do 2 f_equal. lia.
Qed.

Lemma commandMsgs_length es (start : Z) :
  length (commandMsgs (Cmd := Cmd) start es) = length es.
Proof. revert start. induction es; simpl; auto. Qed.

Lemma applierCommands_sends rf :
  wf_log rf -> last_included_index_ rf <= last_applied_ rf <= commit_index_ rf ->
  commit_index_ rf <= last_index rf -> commit_index_ rf < 2 ^ 63 - 1 ->
  exists msgs, applierCommands rf = Ok (with_applied (commit_index_ rf) rf, msgs) /\
    zlen msgs = commit_index_ rf - last_applied_ rf /\
    forall k : nat, Z.of_nat k < zlen msgs ->
      msgs !! k = msg_for rf (last_applied_ rf + 1 + Z.of_nat k) /\ is_Some (msgs !! k).
Proof.
  intros W Hap Hc Hb. unfold applierCommands, last_index in *.
  pose proof (wf_lii _ W). case_decide as He.
  { exists []. rewrite <- He. split; [by destruct rf |].
    split; [rewrite zlen_nil; lia | intros k K; rewrite zlen_nil in K; lia]. }
  rewrite !u64_small by lia. unfold getLogSliceCopy.
  rewrite getLogSlice_wf by (try done; lia). simpl.
  set (es := take _ _).
  assert (zlen es = commit_index_ rf - last_applied_ rf) as Hlen.
  { unfold es. rewrite zlen_take, zlen_drop by lia. lia. }
  eexists. split; [reflexivity |]. rewrite i64_small by lia.
  unfold zlen at 1 2. rewrite commandMsgs_length. fold (zlen es).
  split; [done |]. intros k Hk.
  rewrite commandMsgs_lookup by lia. unfold msg_for, entry_at.
  assert (es !! k = zlookup (logs_ rf) (last_applied_ rf + 1 + Z.of_nat k - last_included_index_ rf)) as Ek.
  { unfold zlookup. rewrite decide_True by lia. unfold es.
    rewrite lookup_take_lt, lookup_drop by lia. f_equal. lia. }
  rewrite Ek. split; [done |]. rewrite fmap_is_Some. apply zlookup_is_Some. lia.
Qed.

(** When the snapshot has been delivered, one round of the applier
    sends exactly one command message for every index after
    [last_applied_] up to the commit index, in index order, each with
    the command the log holds there, and records that it did. *)
Theorem applierCommands_in_order rf :
  wf_log rf -> last_included_index_ rf <= last_applied_ rf <= commit_index_ rf ->
  commit_index_ rf <= last_index rf -> commit_index_ rf < 2 ^ 63 - 1 ->
  exists msgs, applierCommands rf = Ok (with_applied (commit_index_ rf) rf, msgs) /\
    zlen msgs = commit_index_ rf - last_applied_ rf /\
    forall k : nat, Z.of_nat k < zlen msgs ->
      msgs !! k = msg_for rf (last_applied_ rf + 1 + Z.of_nat k) /\ is_Some (msgs !! k).
Proof. apply applierCommands_sends. Qed.

Lemma applierSnapshot_delivers rf :
  0 <= last_included_index_ rf < 2 ^ 63 ->
  applierSnapshot rf =
    if decide (last_applied_ rf < last_included_index_ rf) then
      (with_applied (last_included_index_ rf) rf,
       Some (mkApplyMsg false None 0 true (snapshot_ rf)
         (i64 (last_included_term_ rf)) (last_included_index_ rf)))
    else (rf, None).
Proof. intros. unfold applierSnapshot. case_decide; [| done]. by rewrite (i64_small (last_included_index_ rf)) by lia. Qed.
End Apply.

Lemma applierCommands_in_order_witness :
  exists msgs, applierCommands (with_commit 6 ex_follower) =
      Ok (with_applied 6 (with_commit 6 ex_follower), msgs) /\
    msgs !! 1%nat = Some (mkApplyMsg true (Some 60) 6 false [] 0 0).
Proof.
  destruct (applierCommands_in_order (with_commit 6 ex_follower)) as (msgs & H & Hl & Hk);
    [apply (wf_log_frame ex_follower); [reflexivity | reflexivity | apply ex_follower_wf]
    | simpl; lia | vm_compute; discriminate | simpl; lia |].
  exists msgs. split; [exact H |].
  destruct (Hk 1%nat) as [E _]; [rewrite Hl; simpl; lia |]. rewrite E. reflexivity.
Defined.

(** ** Two crashes *)

Definition entries_1_to (n : nat) : list (LogEntry Z) :=
  (fun k => mkEntry (Some (Z.of_nat k)) 1) <$> seq 1 n.

(** A follower stores 12 entries, applies 10, snapshots at 10, crashes
    and restarts; a leader that knows 5 of them to be committed sends a
    heartbeat. *)
Definition restarted_follower : Res (Raft Z) :=
  let* '(rf, _, _) := AppendEntries 0 (mkAEArgs 1 0 0 0 (entries_1_to 12) 10)
                        (Make 3 1 MakePersister) in
  let* '(rf, _) := applierCommands rf in
  let* rf := Snapshot 10 [10] rf in
  let* '(rf, _, _) := AppendEntries 0 (mkAEArgs 2 2 12 1 [] 5)
                        (Make 3 1 (persister rf)) in
  Ok rf.

Lemma restarted_follower_lives :
  exists rf, restarted_follower = Ok rf /\ lives 3 1 rf /\
    applierCommands (applierSnapshot rf).1 = Panic.
Proof.
  unfold restarted_follower.
  destruct (AppendEntries 0 (mkAEArgs 1 0 0 0 (entries_1_to 12) 10) (Make 3 1 MakePersister))
    as [[[rf1 r1] e1]|] eqn:H1; [| vm_compute in H1; discriminate H1].
  cbn [res_bind].
  destruct (applierCommands rf1) as [[rf2 m2]|] eqn:H2;
    [| vm_compute in H1; injection H1 as <- _ _; vm_compute in H2; discriminate H2].
  cbn [res_bind].
  destruct (Snapshot 10 [10] rf2) as [rf3|] eqn:H3;
    [| vm_compute in H1; injection H1 as <- _ _; vm_compute in H2; injection H2 as <- _;
       vm_compute in H3; discriminate H3].
  cbn [res_bind].
  assert (Make (peers rf3) (me rf3) (persister rf3) = Make 3 1 (persister rf3)) as Hm.
  { vm_compute in H1; injection H1 as <- _ _; vm_compute in H2; injection H2 as <- _;
    vm_compute in H3; injection H3 as <-. reflexivity. }
  destruct (AppendEntries 0 (mkAEArgs 2 2 12 1 [] 5) (Make 3 1 (persister rf3)))
    as [[[rf5 r5] e5]|] eqn:H5;
    [| vm_compute in H1; injection H1 as <- _ _; vm_compute in H2; injection H2 as <- _;
       vm_compute in H3; injection H3 as <-; vm_compute in H5; discriminate H5].
  exists rf5. split; [done |]. split.
  - eapply reach_step; [| by eapply ns_local, ls_AppendEntries].
    rewrite <- Hm. eapply reach_step; [| apply ns_restart].
    eapply reach_step; [| by eapply ns_local, ls_Snapshot].
    eapply reach_step; [| by eapply ns_local, ls_applierCommands].
    eapply reach_step; [| by eapply ns_local, ls_AppendEntries].
    by apply reach_init.
  - vm_compute in H1; injection H1 as <- _ _; vm_compute in H2; injection H2 as <- _;
      vm_compute in H3; injection H3 as <-; vm_compute in H5; injection H5 as <- _ _.
    vm_compute. reflexivity.
Qed.

(** A peer that restarts from a snapshot can crash in the applier.
    [readPersist] restores the snapshot's index but leaves the commit
    index at 0; a heartbeat whose [LeaderCommit] is below the snapshot
    raises the commit index to that value, the applier delivers the
    snapshot, and then slices the log from above the snapshot down to
    the commit index: [getLogSlice] panics. *)
Theorem applier_panics_after_restart :
  exists rf : Raft Z, lives 3 1 rf /\
    last_applied_ rf <> commit_index_ rf /\ commit_index_ rf < last_included_index_ rf /\
    applierCommands (applierSnapshot rf).1 = Panic.
Proof.
  destruct restarted_follower_lives as (rf & E & L & P). exists rf. split; [done |].
  vm_compute in E. injection E as <-. split_and!; try done; vm_compute; done.
Qed.

(** The applier releases the lock to deliver a snapshot.  A second
    [InstallSnapshot] that arrives before it has the lock back moves the
    snapshot past [last_applied_ + 1], and the applier's request for the
    entry after the snapshot it delivered panics. *)
Theorem applier_panics_on_second_snapshot :
  exists (rf0 rf1 rf2 : Raft Z) args1 args2 reply1 reply2 effs1 effs2,
    lives 3 1 rf0 /\
    InstallSnapshot args1 rf0 = Ok (rf1, reply1, effs1) /\
    last_applied_ rf1 <> commit_index_ rf1 /\
    InstallSnapshot args2 (applierSnapshot rf1).1 = Ok (rf2, reply2, effs2) /\
    is_Term args1 = is_Term args2 /\ is_LeaderID args1 = is_LeaderID args2 /\
    applierCommands rf2 = Panic.
Proof.
  set (a1 := mkISArgs 1 0 10 1 [1]). set (a2 := mkISArgs 1 0 20 1 [2]).
  destruct (InstallSnapshot a1 (Make (Cmd := Z) 3 1 MakePersister))
    as [[[rf1 r1] e1]|] eqn:H1; [| vm_compute in H1; discriminate H1].
  destruct (InstallSnapshot a2 (applierSnapshot rf1).1)
    as [[[rf3 r3] e3]|] eqn:H3;
    [| vm_compute in H1; injection H1 as <- _ _; vm_compute in H3; discriminate H3].
  exists (Make 3 1 MakePersister), rf1, rf3, a1, a2, r1, r3, e1, e3.
  split; [by apply reach_init |]. split; [done |].
  assert (last_applied_ rf1 <> commit_index_ rf1) as Hne
    by (vm_compute in H1; injection H1 as <- _ _; vm_compute; done).
  assert (applierCommands rf3 = Panic) as HP.
  { vm_compute in H1; injection H1 as <- _ _. vm_compute in H3; injection H3 as <- _ _.
    vm_compute. done. }
  done.
Qed.
