(* ===== verification/RaftLeader.v ===== *)
(** * The leader's side of [raft1/raft.go]

    The choice of the commit index, the search for the index to retry
    after a failed consistency check, and two faults of the snapshot
    path that the model shows. *)
From S2P Require Import Prelude Persister RaftNode RaftStep RaftLog RaftFollower.

(** ** The sort of [commit] *)

Definition count_ge (v : Z) (l : list Z) : Z := zlen (filter (fun x => v <= x) l).

Lemma insert_desc_perm x l : insert_desc x l ≡ₚ x :: l.
Proof. induction l as [|y l IH]; simpl; [done |]. case_decide; [done |]. rewrite IH. constructor. Qed.

Lemma sort_desc_perm l : sort_desc l ≡ₚ l.
Proof. induction l as [|x l IH]; simpl; [done |]. by rewrite insert_desc_perm, IH. Qed.

Lemma insert_desc_sorted x l :
  StronglySorted Z.ge l -> StronglySorted Z.ge (insert_desc x l).
Proof.
  induction 1 as [|y l HS IH HF]; simpl; [by repeat constructor |].
  case_decide as H.
  - constructor; [by constructor |]. constructor; [done |].
    eapply List.Forall_impl; [| exact HF]. simpl. lia.
  - constructor; [done |]. rewrite insert_desc_perm. constructor; [lia | done].
Qed.

Lemma sort_desc_sorted l : StronglySorted Z.ge (sort_desc l).
Proof. induction l; simpl; [constructor | by apply insert_desc_sorted]. Qed.

Lemma count_ge_perm v l k : l ≡ₚ k -> count_ge v l = count_ge v k.
Proof. intros H. unfold count_ge, zlen. by rewrite H. Qed.

Lemma count_ge_cons v x l :
  count_ge v (x :: l) = (if decide (v <= x) then 1 else 0) + count_ge v l.
Proof. unfold count_ge. rewrite filter_cons. case_decide; rewrite ?zlen_cons; lia. Qed.

Lemma count_ge_zero v l : Forall (fun x => x < v) l -> count_ge v l = 0.
Proof. induction 1; [done |]. rewrite count_ge_cons, decide_False by lia. lia. Qed.

(** In a descending list the element at [k] is reached by more than [k]
    elements, and no larger value is. *)
Lemma count_ge_sorted l k m :
  StronglySorted Z.ge l -> l !! k = Some m ->
  Z.of_nat k < count_ge m l /\ forall v, m < v -> count_ge v l <= Z.of_nat k.
Proof.
  intros HS. revert k. induction HS as [|y l HS IH HF]; intros k Hk; [done |].
  setoid_rewrite count_ge_cons. destruct k as [|k]; simpl in Hk.
  - injection Hk as ->. rewrite decide_True by lia. split.
    + pose proof (zlen_nonneg (filter (fun x => m <= x) l)). unfold count_ge. lia.
    + intros v Hv. rewrite decide_False by lia. rewrite count_ge_zero; [lia |].
      eapply List.Forall_impl; [| exact HF]. simpl. lia.
  - destruct (IH k Hk) as [H1 H2].
    assert (y >= m) as Hy by (rewrite Forall_lookup in HF; by eapply HF).
    split; [rewrite decide_True by lia; lia |].
    intros v Hv. specialize (H2 v Hv). case_decide; lia.
Qed.

Section Leader.
Context {Cmd : Type} `{!Codec (RaftState Cmd)}.
Implicit Types (rf : Raft Cmd).

(** The leader's bookkeeping: one index per peer, none past the log, and
    none in the part of the snapshot that is not known to be committed. *)
Record wf_indexes rf : Prop := {
  wfi_me : 0 <= me rf < peers rf;
  wfi_match : zlen (match_index_ rf) = peers rf;
  wfi_next : zlen (next_index_ rf) = peers rf;
  wfi_commit : 0 <= commit_index_ rf;
  wfi_range : Forall (fun m => m <= last_index rf /\
    (last_included_index_ rf <= m \/ m <= commit_index_ rf)) (match_index_ rf);
}.

(** The match indices [commit] looks at: the leader's own is its log. *)
Definition matched rf : list Z := <[Z.to_nat (me rf) := last_index rf]> (match_index_ rf).

Lemma majorityIndex_spec rf :
  wf_log rf -> wf_indexes rf ->
  exists c, majorityIndex rf = Ok c /\ c ∈ matched rf /\
    peers rf / 2 < count_ge c (matched rf) /\
    (forall v, peers rf / 2 < count_ge v (matched rf) -> v <= c).
Proof.
  intros W [Hme Hm Hn Hc HF]. unfold majorityIndex. rewrite lastIndex_wf by done.
  fold (last_index rf). unfold slice_set. rewrite decide_True by lia. simpl.
  fold (matched rf). assert (zlen (matched rf) = peers rf) as Hl by (unfold matched; by rewrite zlen_insert).
  rewrite Z.quot_div_nonneg by lia.
  pose proof (Z.div_lt (peers rf) 2). pose proof (Z.div_pos (peers rf) 2).
  assert (zlen (sort_desc (matched rf)) = peers rf) as Hs
    by (unfold zlen in *; by rewrite sort_desc_perm).
  destruct (slice_get_ok (sort_desc (matched rf)) (peers rf / 2)) as (c & Hk & ->); [lia |].
  unfold zlookup in Hk. rewrite decide_True in Hk by lia.
  destruct (count_ge_sorted _ _ _ (sort_desc_sorted (matched rf)) Hk) as [H1 H2].
  rewrite Z2Nat.id in H1, H2 by lia.
  exists c. split_and!; [done | | | ].
  - apply list_elem_of_lookup_2 in Hk. by rewrite sort_desc_perm in Hk.
  - by rewrite (count_ge_perm _ _ _ (sort_desc_perm _)) in H1.
  - intros v Hv. destruct (decide (c < v)) as [Hlt|?]; [| lia].
    specialize (H2 v Hlt). rewrite (count_ge_perm _ _ _ (sort_desc_perm _)) in H2. lia.
Qed.

Lemma matched_range rf c :
  wf_log rf -> wf_indexes rf -> c ∈ matched rf ->
  c <= last_index rf /\ (last_included_index_ rf <= c \/ c <= commit_index_ rf).
Proof.
  intros W I Hc. unfold matched in Hc. apply list_elem_of_lookup in Hc as [k Hk].
  apply list_lookup_insert_Some in Hk as [(_ & <- & _) | (_ & Hk)].
  - destruct W. unfold last_index. lia.
  - destruct I. rewrite Forall_lookup in wfi_range0. by apply (wfi_range0 k).
Qed.

(** ** Retrying after a failed consistency check *)

Lemma searchTerm_spec fuel : forall start ct rf,
  wf_log rf -> start <= last_index rf -> 0 <= start ->
  start - last_included_index_ rf <= Z.of_nat fuel ->
  exists r, searchTerm fuel start ct rf = Ok r /\ r <= start /\
    (last_included_index_ rf <= start -> last_included_index_ rf <= r) /\
    (forall i, r < i <= start -> term_at rf i <> Some ct) /\
    (last_included_index_ rf < r -> term_at rf r = Some ct) /\
    (start < last_included_index_ rf -> r = start).
Proof.
  induction fuel as [|fuel IH]; intros start ct rf W Hl H0 Hf.
  all: pose proof (wf_lii _ W); pose proof (wf_bound _ W); unfold last_index in *; simpl.
  - rewrite decide_False by lia. exists start. split_and!; try done; lia.
  - destruct (decide (start > last_included_index_ rf)) as [Hgt|?].
    2:{ exists start. split_and!; try done; lia. }
    destruct (getLogEntry_wf rf start W) as (e & He & ->); [lia |]. simpl.
    case_decide as Ht.
    + rewrite u64_small by lia.
      destruct (IH (start - 1) ct rf) as (r & Hr & A1 & A2 & A3 & A4 & A5); try done; try lia.
      exists r. split_and!; try done; try lia.
      intros i Hi. destruct (decide (i = start)) as [->|?]; [| apply A3; lia].
      unfold term_at. rewrite He. simpl. destruct Ht as [Ht _]. congruence.
    + exists start. split_and!; try done; try lia. intros _.
      unfold term_at. rewrite He. simpl. f_equal.
      destruct (decide (Term_ e = ct)) as [?|?]; [done |]. exfalso. apply Ht. split; [done | lia].
Qed.

(** What a follower's failure reply to [args] can say: its log is too
    short, or it names the term it holds at the previous index, which is
    not the one sent, and an index up to there. *)
Definition failure_reply (args : AppendEntriesArgs Cmd) (reply : AppendEntriesReplys) : Prop :=
  aer_Success reply = false /\ 0 <= aer_LogLenth reply /\
  (aer_LogLenth reply <= ae_PreviousLogIndex args \/
   (aer_ConflictEntryTerm reply <> ae_PreviousLogTerm args /\
    0 <= aer_FirstIndexOfConflictEntryTerm reply <= ae_PreviousLogIndex args)).

Lemma newNextIndex_spec args reply rf :
  wf_log rf -> failure_reply args reply ->
  0 <= ae_PreviousLogIndex args <= last_index rf ->
  (last_included_index_ rf <= ae_PreviousLogIndex args ->
   term_at rf (ae_PreviousLogIndex args) = Some (ae_PreviousLogTerm args)) ->
  exists next, newNextIndex args reply rf = Ok next /\
    0 <= next <= Z.max (ae_PreviousLogIndex args) (last_included_index_ rf).
Proof.
  intros W (Hs & H0 & HR) Hp Ht. unfold newNextIndex.
  pose proof (wf_lii _ W). pose proof (wf_bound _ W). unfold last_index in *.
  case_decide; [eexists; split; [reflexivity | lia] |].
  destruct HR as [?|[Hne Hf]]; [lia |].
  case_decide; [eexists; split; [reflexivity | lia] |].
  destruct (searchTerm_spec (Z.to_nat (ae_PreviousLogIndex args - last_included_index_ rf))
    (ae_PreviousLogIndex args) (aer_ConflictEntryTerm reply) rf W)
    as (r & -> & A1 & A2 & A3 & A4 & A5); [unfold last_index; lia.. |]. simpl.
  case_decide; [eexists; split; [reflexivity | lia] |].
  rewrite u64_small by lia. eexists. split; [reflexivity |].
  destruct (decide (last_included_index_ rf <= ae_PreviousLogIndex args)); [| lia].
  assert (r <> ae_PreviousLogIndex args); [| lia].
  intros ->. specialize (Ht ltac:(lia)). rewrite A4 in Ht by lia. congruence.
Qed.
End Leader.

(** ** Properties *)
Section Properties.
Context {Cmd : Type} `{!Codec (RaftState Cmd)}.
Implicit Types (rf : Raft Cmd).

(** C19: [commit] on a leader finds the largest index that more than half
    of the peers are known to hold, the leader's own log included, and
    makes it the commit index exactly when it is above the current one
    and its entry is of the current term; on every other peer it does
    nothing. *)
Theorem commit_majority rf :
  wf_log rf -> wf_indexes rf ->
  exists c, peers rf / 2 < count_ge c (matched rf) /\
    (forall v, peers rf / 2 < count_ge v (matched rf) -> v <= c) /\
    commit rf = Ok (
      if decide (role_ rf = Leader /\ commit_index_ rf < c /\ term_at rf c = Some (current_term_ rf))
      then (with_commit c rf, [SignalApply]) else (rf, [])).
Proof.
  intros W I. destruct (majorityIndex_spec rf W I) as (c & Hm & Hin & H1 & H2).
  exists c. split_and!; [done.. |]. unfold commit.
  destruct (decide (role_ rf <> Leader)) as [Hr|Hr]; [rewrite decide_False by tauto; done |].
  apply dec_stable in Hr. rewrite Hm. simpl.
  destruct (matched_range rf c W I Hin) as [Hl Hi].
  case_decide as Hc; [| by rewrite decide_False by lia].
  unfold last_index in Hl. destruct (getLogEntry_wf rf c W) as (e & He & ->); [lia |]. simpl.
  unfold term_at. rewrite He. simpl.
  case_decide as Ht; [rewrite decide_True | rewrite decide_False]; try done.
  - split_and!; [done | lia | by rewrite Ht].
  - intros (_ & _ & K). congruence.
Qed.

(** Fast backup makes progress.  For every reply a follower can send
    to a failed check, the leader computes a next index, without
    panicking, that is at most the previous index it just tried (or at
    most its snapshot's index, where it sends the snapshot instead), so
    a leader never retries the index that failed. *)
Theorem newNextIndex_decreases args reply rf :
  wf_log rf -> failure_reply args reply ->
  0 <= ae_PreviousLogIndex args <= last_index rf ->
  (last_included_index_ rf <= ae_PreviousLogIndex args ->
   term_at rf (ae_PreviousLogIndex args) = Some (ae_PreviousLogTerm args)) ->
  exists next, newNextIndex args reply rf = Ok next /\
    0 <= next <= Z.max (ae_PreviousLogIndex args) (last_included_index_ rf).
Proof. apply newNextIndex_spec. Qed.

(** A rejected snapshot counts as installed.  The reply to
    [InstallSnapshot] carries only a term; when the leader has meanwhile
    reached that term, [sendInstallSnapshot] takes the rejection for a
    success and records the snapshot's index as matched.  From then on
    the leader's state is not changed, and nothing is sent, by any
    failure reply to a message that tries that index or an earlier one:
    the follower that lacks the snapshot is not repaired. *)
Theorem rejected_snapshot_sticks server args reply rf :
  0 <= server < zlen (match_index_ rf) -> zlen (next_index_ rf) = zlen (match_index_ rf) ->
  is_Term args < isr_Term reply <= current_term_ rf ->
  exists rf', installSnapshotReply server args (Some reply) rf = Ok (rf', [GoCommit]) /\
    zlookup (match_index_ rf') server = Some (is_LastIncludedIndex args) /\
    zlookup (next_index_ rf') server = Some (u64 (is_LastIncludedIndex args + 1)) /\
    forall aargs areply,
      aer_Success areply = false -> aer_Term areply <= current_term_ rf' ->
      ae_PreviousLogIndex aargs <= is_LastIncludedIndex args ->
      appendEntriesReply server aargs areply rf' = Ok (rf', []).
Proof.
  intros Hs Hl Ht. unfold installSnapshotReply. rewrite decide_False by lia.
  unfold slice_set. rewrite !decide_True by lia. simpl.
  eexists. split; [reflexivity |]. simpl.
  rewrite !zlookup_insert_eq by lia. split_and!; [done.. |].
  intros aargs areply Hf Hat Hp. unfold appendEntriesReply. simpl in *.
  rewrite decide_False by lia. case_decide; [done |].
  rewrite Hf. simpl. unfold slice_get. rewrite zlookup_insert_eq by lia. simpl.
  by rewrite decide_True by lia.
Qed.
End Properties.

(** ** Examples *)

(** A leader of term 2 among three peers. *)
Definition ex_leader : Raft Z :=
  mkRaft 3 0 MakePersister Leader 2 0
    [mkEntry None 0; mkEntry (Some 10) 1; mkEntry (Some 20) 2; mkEntry (Some 30) 2]
    0 0 [] 0 0 [4; 3; 1] [0; 2; 0] 0.

Lemma ex_leader_wf : wf_log ex_leader /\ wf_indexes ex_leader.
Proof.
  split; split; try (vm_compute; by intuition).
  repeat constructor; vm_compute; try discriminate; by auto.
Qed.

Lemma commit_majority_witness :
  commit ex_leader = Ok (with_commit 2 ex_leader, [SignalApply]) /\
  exists c, peers ex_leader / 2 < count_ge c (matched ex_leader) /\
    (forall v, peers ex_leader / 2 < count_ge v (matched ex_leader) -> v <= c).
Proof.
  split; [vm_compute; reflexivity |].
  destruct (commit_majority ex_leader) as (c & H1 & H2 & _);
    [apply ex_leader_wf | apply ex_leader_wf |].
  exists c. split; [exact H1 | exact H2].
Defined.

Lemma newNextIndex_decreases_witness :
  exists next,
    newNextIndex (mkAEArgs 2 0 3 2 [] 0) (mkAEReply 0 false 1 2 4) ex_leader = Ok next /\
    0 <= next <= 3.
Proof.
  destruct (newNextIndex_decreases (mkAEArgs 2 0 3 2 [] 0) (mkAEReply 0 false 1 2 4) ex_leader)
    as (next & H & Hb);
    [apply ex_leader_wf
    | split; [reflexivity | split; [simpl; lia | right; split; [simpl; lia | simpl; lia]]]
    | vm_compute; split; discriminate | reflexivity |].
  exists next. split; [exact H | simpl in Hb; lia].
Defined.

Lemma rejected_snapshot_sticks_witness :
  exists rf', installSnapshotReply 2 (mkISArgs 1 0 10 1 []) (Some (mkISReply 2)) ex_leader =
      Ok (rf', [GoCommit]) /\
    appendEntriesReply 2 (mkAEArgs 2 0 10 1 [] 0) (mkAEReply 0 false 0 0 3) rf' = Ok (rf', []).
Proof.
  destruct (rejected_snapshot_sticks 2 (mkISArgs 1 0 10 1 []) (mkISReply 2) ex_leader)
    as (rf' & H & _ & _ & K);
    [vm_compute; split; [discriminate | reflexivity] | reflexivity | simpl; lia |].
  exists rf'. split; [exact H |]. apply K; [reflexivity | | simpl; lia].
  vm_compute in H. injection H as <-. vm_compute. discriminate.
Defined.

(** ** A leader of an old term that receives a snapshot *)

(** Peer 0 stores five entries of term 1, wins term 2, and is told by the
    leader of term 3 to install a snapshot at index 3, where the cluster
    has committed another entry. *)
Definition stale_leader_0 : Res (Raft Z) :=
  let* '(rf, _, _) := AppendEntries 0
    (mkAEArgs 1 1 0 0 ((fun k => mkEntry (Some (Z.of_nat k)) 1) <$> seq 1 5) 0)
    (Make 3 0 MakePersister) in
  Ok (tickerFollower 1000000000 rf).

Definition stale_leader : Res (Raft Z) :=
  let* rf := stale_leader_0 in
  let* '(rf, args) := startElection 1000000000 rf in
  Ok (voteReply args (mkRVReply 2 true) 1 rf).1.1.1.

Lemma stale_leader_lives :
  exists rf, stale_leader = Ok rf /\ lives 3 0 rf.
Proof.
  unfold stale_leader, stale_leader_0.
  match goal with |- context [res_bind (AppendEntries ?a ?b ?c)] =>
    destruct (AppendEntries a b c) as [[[rf1 r1] e1]|] eqn:H1; [| vm_compute in H1; discriminate H1] end.
  cbn [res_bind].
  destruct (startElection 1000000000 (tickerFollower 1000000000 rf1)) as [[rf2 args]|] eqn:H2;
    [| vm_compute in H1; injection H1 as <- _ _; vm_compute in H2; discriminate H2].
  cbn [res_bind].
  destruct (voteReply args (mkRVReply 2 true) 1 rf2) as [[[rf3 c] d] e] eqn:H3.
  exists rf3. split; [done |].
  eapply reach_step; [| by eapply ns_voteReply].
  eapply reach_step; [| eapply ns_startElection; [exact H2 |]].
  - eapply reach_step; [| apply ns_local, ls_tickerFollower].
    eapply reach_step; [| by eapply ns_local, ls_AppendEntries]. by apply reach_init.
  - vm_compute in H1; injection H1 as <- _ _. simpl. lia.
Qed.

(** [InstallSnapshot] neither adopts the higher term of the leader
    that sends it nor steps down.  A peer that still believes it leads an
    older term goes on leading with the log replaced under it, and its
    next round of [AppendEntries] indexes past the end of that log and
    panics. *)
Theorem stale_leader_panics :
  exists (rf rf' : Raft Z) args reply effs,
    lives 3 0 rf /\ role_ rf = Leader /\ current_term_ rf < is_Term args /\
    InstallSnapshot args rf = Ok (rf', reply, effs) /\
    role_ rf' = Leader /\ current_term_ rf' = current_term_ rf /\
    entriesSender rf' = Panic.
Proof.
  destruct stale_leader_lives as (rf & E & L).
  destruct (InstallSnapshot (mkISArgs 3 1 3 3 [3]) rf) as [[[rf' r] e]|] eqn:H;
    [| vm_compute in E; injection E as <-; vm_compute in H; discriminate H].
  exists rf, rf', (mkISArgs 3 1 3 3 [3]), r, e. split; [done |].
  vm_compute in E; injection E as <-. rewrite H. vm_compute in H; injection H as <- _ _.
  split_and!; vm_compute; done.
Qed.
