(* ===== verification/RaftCluster.v ===== *)
(** * Log replication in a cluster ([raft1/raft.go])

    The cluster of [RaftElection] with the messages of log replication
    and with what the peers deliver to their services.  Messages are
    never forgotten, as there: a call or a reply may be lost, delayed,
    reordered and handled again.  The snapshot operations take no part:
    what they do on one peer is in [RaftFollower] and [RaftLeader]. *)
From stdpp Require Import functions.
From S2P Require Import Prelude Persister RaftNode RaftStep RaftElection RaftElectionRun.

Section Replication.
Context {Cmd : Type} `{!Codec (RaftState Cmd)}.
Variable n : Z.               (* len(peers) *)
Notation Args := (AppendEntriesArgs Cmd).

Record RCluster := mkRC {
  base : Cluster (Cmd := Cmd);
  appends : list (Args * Z);                       (* calls, with their server *)
  answers : list (Args * Z * AppendEntriesReplys); (* what the servers answered *)
  applied : list (nat * ApplyMsg Cmd);             (* sent on the apply channels, newest first *)
}.
Implicit Types (rc : RCluster) (rf : Raft Cmd).

Definition peer rc (i : Z) : Raft Cmd := node (base rc) i.

Definition rc_init rc : Prop :=
  init_cluster n (base rc) /\ appends rc = [] /\ answers rc = [] /\ applied rc = [].

(** The calls among the goroutines a piece of code starts. *)
Definition calls (effs : list (Eff Cmd)) : list (Args * Z) :=
  omap (fun e => match e with GoAppendEntries server args => Some (args, server) | _ => None end) effs.

Definition set_peer i rf rc := mkRC (set_node i rf (base rc)) (appends rc) (answers rc) (applied rc).
Definition set_base cl rc := mkRC cl (appends rc) (answers rc) (applied rc).
Definition send msgs rc := mkRC (base rc) (msgs ++ appends rc) (answers rc) (applied rc).
Definition answer r rc := mkRC (base rc) (appends rc) (r :: answers rc) (applied rc).
Definition delivers (i : Z) (msgs : list (ApplyMsg Cmd)) rc :=
  mkRC (base rc) (appends rc) (answers rc) (rev ((fun m => (Z.to_nat i, m)) <$> msgs) ++ applied rc).

#[local] Unset Elimination Schemes.
(** What the peers do among themselves. *)
Inductive rc_internal rc : RCluster -> Prop :=
| rc_election cl :
    election_step n (base rc) cl -> rc_internal rc (set_base cl rc)
| rc_ticker i now :
    is_peer n i -> rc_internal rc (set_peer i (tickerFollower now (peer rc i)) rc)
| rc_append i now args rf reply effs :
    is_peer n i -> (args, i) ∈ appends rc ->
    AppendEntries now args (peer rc i) = Ok (rf, reply, effs) ->
    rc_internal rc (answer (args, i, reply) (set_peer i rf rc))
| rc_answer i server args reply rf effs :
    is_peer n i -> (args, server, reply) ∈ answers rc -> ae_LeaderID args = i ->
    appendEntriesReply server args reply (peer rc i) = Ok (rf, effs) ->
    rc_internal rc (send (calls effs) (set_peer i rf rc))
| rc_send i effs :
    is_peer n i -> entriesSender (peer rc i) = Ok effs ->
    rc_internal rc (send (calls effs) rc)
| rc_commit i rf effs :
    is_peer n i -> commit (peer rc i) = Ok (rf, effs) -> rc_internal rc (set_peer i rf rc).
#[local] Set Elimination Schemes.

#[local] Unset Elimination Schemes.
(** With crashes and what connects a peer to its service. *)
Inductive rc_step rc : RCluster -> Prop :=
| rc_inner rc' :
    rc_internal rc rc' -> rc_step rc rc'
| rc_restart i :
    is_peer n i -> rc_step rc (set_base (restarted i (base rc)) rc)
| rc_start i command rf r effs :
    is_peer n i -> Start command (peer rc i) = (rf, r, effs) -> rc_step rc (set_peer i rf rc)
| rc_apply i rf msgs :
    is_peer n i -> applierCommands (peer rc i) = Ok (rf, msgs) ->
    rc_step rc (delivers i msgs (set_peer i rf rc)).
#[local] Set Elimination Schemes.

(** Terms and log lengths have not reached the end of their types. *)
Definition small rc : Prop := forall i, is_peer n i ->
  current_term_ (peer rc i) < 2 ^ 64 - 1 /\ zlen (logs_ (peer rc i)) < 2 ^ 63 - 1.

(** Steps without the race of the ticker (see [RaftElection]). *)
Definition rc_quiet rc rc' : Prop :=
  rc_step rc rc' /\ ~ starts_while_leader n (base rc) (base rc') /\ small rc.

(** The peers of this cluster live as those of [RaftElection] do. *)
Lemma rc_step_base rc rc' : rc_step rc rc' ->
  base rc' = base rc \/ cluster_step n (base rc) (base rc').
Proof.
  intros [rc1 H | i Hi | i command rf r effs Hi H | i rf msgs Hi H]; [destruct H | ..]; simpl.
  - right. by apply cs_election.
  - right. apply cs_local; [done |]. constructor.
  - right. apply cs_local; [done |]. by eapply ls_AppendEntries.
  - right. apply cs_local; [done |]. by eapply ls_appendEntriesReply.
  - by left.
  - right. apply cs_local; [done |]. by eapply ls_commit.
  - right. by apply cs_restart.
  - right. apply cs_local; [done |]. by eapply ls_Start.
  - right. apply cs_local; [done |]. by eapply ls_applierCommands.
Qed.

Lemma rc_quiet_base rc rc' : rc_quiet rc rc' ->
  base rc' = base rc \/ quiet_step n (base rc) (base rc').
Proof.
  intros (H & Hq & Hs). destruct (rc_step_base _ _ H) as [E|E]; [by left | right].
  split_and!; [done | done |]. intros i Hi. by destruct (Hs i Hi).
Qed.

Lemma base_reachable rc :
  reachable rc_init rc_quiet rc -> reachable (init_cluster n) (quiet_step n) (base rc).
Proof.
  induction 1 as [rc H | rc rc' _ IH H].
  - apply reach_init. apply H.
  - apply rc_quiet_base in H as [-> | H]; [done |]. by eapply reach_step.
Qed.

(** ** Running it *)

Inductive RLabel :=
| RElection (l : Label)
| RRestart (i : Z)
| RTicker (i now : Z)
| RAppend (k : nat) (now : Z)        (* the server of the k-th call handles it *)
| RAnswer (k : nat)                  (* the caller handles the k-th answer *)
| RSend (i : Z)
| RCommit (i : Z)
| RStart (i : Z) (command : Cmd)
| RApply (i : Z).

Definition is_election (l : Label) : bool := match l with LFollower _ _ | LRestart _ => false | _ => true end.

Definition at_peer (i : Z) (r : Res RCluster) : option RCluster :=
  if decide (is_peer n i) then match r with Ok rc => Some rc | Panic => None end else None.

Definition rc_label (l : RLabel) rc : option RCluster :=
  match l with
  | RElection l =>
      if is_election l then (fun cl => set_base cl rc) <$> run_label n l (base rc) else None
  | RRestart i => at_peer i (Ok (set_base (restarted i (base rc)) rc))
  | RTicker i now => at_peer i (Ok (set_peer i (tickerFollower now (peer rc i)) rc))
  | RAppend k now =>
      match appends rc !! k with
      | Some (args, i) => at_peer i
          (let* '(rf, reply, _) := AppendEntries now args (peer rc i) in
           Ok (answer (args, i, reply) (set_peer i rf rc)))
      | None => None
      end
  | RAnswer k =>
      match answers rc !! k with
      | Some (args, server, reply) => at_peer (ae_LeaderID args)
          (let* '(rf, effs) := appendEntriesReply server args reply (peer rc (ae_LeaderID args)) in
           Ok (send (calls effs) (set_peer (ae_LeaderID args) rf rc)))
      | None => None
      end
  | RSend i => at_peer i (let* effs := entriesSender (peer rc i) in Ok (send (calls effs) rc))
  | RCommit i => at_peer i (let* '(rf, _) := commit (peer rc i) in Ok (set_peer i rf rc))
  | RStart i command => at_peer i (Ok (set_peer i (Start command (peer rc i)).1.1 rc))
  | RApply i =>
      at_peer i (let* '(rf, msgs) := applierCommands (peer rc i) in
                 Ok (delivers i msgs (set_peer i rf rc)))
  end.

Lemma at_peer_Some i r rc : at_peer i r = Some rc -> is_peer n i /\ r = Ok rc.
Proof. unfold at_peer. case_decide; [| done]. destruct r; [| done]. by intros [= ->]. Qed.

(** Labels for what the peers do among themselves. *)
Definition is_internal (l : RLabel) : bool :=
  match l with RRestart _ | RStart _ _ | RApply _ => false | _ => true end.

Lemma rc_label_internal l rc rc' : is_internal l = true -> rc_label l rc = Some rc' -> rc_internal rc rc'.
Proof.
  intros Hl H. destruct l; try done; simpl in H.
  1: { destruct (is_election l) eqn:El; [| done]. apply fmap_Some in H as (cl & H & ->).
       apply rc_election. apply (run_label_election n l); [by intros i now -> | by intros i -> | done]. }
  2: destruct (appends rc !! k) as [[args i]|] eqn:Ek; [| done].
  3: destruct (answers rc !! k) as [[[args server] reply]|] eqn:Ek; [| done].
  all: apply at_peer_Some in H as [Hi H]; res_inv.
  - by apply rc_ticker.
  - eapply rc_append; try done. by eapply list_elem_of_lookup_2.
  - eapply rc_answer; try done. by eapply list_elem_of_lookup_2.
  - by eapply rc_send.
  - by eapply rc_commit.
Qed.

Lemma rc_label_sound l rc rc' : rc_label l rc = Some rc' -> rc_step rc rc'.
Proof.
  intros H. destruct (is_internal l) eqn:El; [by eapply rc_inner, rc_label_internal |].
  destruct l; try done; simpl in H; apply at_peer_Some in H as [Hi H]; res_inv.
  - by apply rc_restart.
  - destruct (Start command (peer rc i)) as [[rf r] effs] eqn:E. by eapply rc_start.
  - by eapply rc_apply.
Qed.

Definition rc_check rc rc' : bool :=
  quiet_check n (base rc) (base rc') &&
  forallb (fun i => bool_decide (zlen (logs_ (peer rc i)) < 2 ^ 63 - 1)) (seqZ 0 n).

Lemma rc_check_conditions rc rc' : rc_check rc rc' = true -> ~ starts_while_leader n (base rc) (base rc') /\ small rc.
Proof.
  intros [Hq Hl]%andb_true_iff. rewrite forallb_forall in Hl.
  destruct (quiet_check_conditions n _ _ Hq) as [? Ht]. split; [done |]. intros i Hi. split; [by apply Ht |].
  assert (List.In i (seqZ 0 n)) as Hin by (apply list_elem_of_In, elem_of_seqZ; unfold is_peer in Hi; lia).
  specialize (Hl i Hin). by apply bool_decide_eq_true in Hl.
Qed.

Lemma rc_check_sound rc rc' : rc_step rc rc' -> rc_check rc rc' = true -> rc_quiet rc rc'.
Proof. intros H Hq. destruct (rc_check_conditions _ _ Hq). by split_and!. Qed.

Fixpoint rc_run (ls : list RLabel) rc : option RCluster :=
  match ls with
  | [] => Some rc
  | l :: ls =>
      match rc_label l rc with
      | Some rc' => if rc_check rc rc' then rc_run ls rc' else None
      | None => None
      end
  end.

Definition rc_initial : RCluster := mkRC (initial n) [] [] [].

Lemma rc_run_reachable ls rc rc' :
  reachable rc_init rc_quiet rc -> rc_run ls rc = Some rc' -> reachable rc_init rc_quiet rc'.
Proof.
  revert rc. induction ls as [|l ls IH]; intros rc R H; simpl in H.
  - by injection H as <-.
  - destruct (rc_label l rc) as [c|] eqn:E; [| done].
    destruct (rc_check rc c) eqn:Eq; [| done].
    eapply IH; [| done]. eapply reach_step; [done |].
    apply rc_check_sound; [by eapply rc_label_sound | done].
Qed.

(** A computed execution, with a test of its last state. *)
Lemma rc_run_witness ls (P : RCluster -> bool) :
  match rc_run ls rc_initial with Some rc => P rc | None => false end = true ->
  exists rc, reachable rc_init rc_quiet rc /\ P rc = true.
Proof.
  destruct (rc_run ls rc_initial) as [rc|] eqn:E; [| done].
  intros H. exists rc. split; [| done].
  eapply rc_run_reachable; [| done]. apply reach_init. by split; [apply initial_init |].
Qed.
End Replication.

(** ** An execution

    Peer 0 is elected with the vote of peer 1, is given two commands,
    replicates them to peer 1, commits, tells peer 1, and both apply.
    Peer 2, behind, asks in vain for votes in terms 1 and 2.  Peer 1 wins
    term 3 with the vote of peer 2, is given a third command, finds that
    peer 2's log is too short, sends it everything, commits and applies;
    then peer 2 applies too.  Peer 0 still believes to lead term 1. *)
Definition replicate_run : list (RLabel (Cmd := Z)) :=
  [RTicker 0 1000000000; RElection (LTest 0); RElection (LStart 0 1100000000);
   RElection (LVote 1 0 1200000000); RElection (LReply 0 0 0 1);
   RStart 0 10; RStart 0 20; RSend 0; RAppend 0 1300000000; RAnswer 0; RCommit 0;
   RSend 0; RAppend 0 1400000000; RApply 0; RApply 1;
   RTicker 2 1500000000; RElection (LTest 2); RElection (LStart 2 1500000000);
   RElection (LTest 2); RElection (LStart 2 1900000000); RElection (LVote 1 1 2000000000);
   RTicker 1 2500000000; RElection (LTest 1); RElection (LStart 1 2600000000);
   RElection (LVote 2 1 2700000000); RElection (LReply 1 0 0 2);
   RStart 1 30; RSend 1; RAppend 1 2800000000; RAnswer 0; RAppend 0 2900000000; RAnswer 0;
   RCommit 1; RApply 1; RSend 1; RAppend 1 3000000000; RApply 2].
