(* ===== verification/RaftTester.v ===== *)
(** * The Raft tester and the servers it tests ([raft1/server.go],
      [raft1/test.go], [raft1/proxy.go])

    A server reads its Raft's apply channel and reports every command to
    the tester, which compares it with what the other servers reported.
    The servers see the tester through the interface [Itester]; in the
    tests it is reached through an RPC proxy that may fail. *)
From S2P Require Import Prelude RaftNode.
#[local] Open Scope Z_scope.

(** The error texts; the arguments are what [fmt.Sprintf] prints. *)
Inductive ErrMsg (Cmd : Type) :=
| CommitMismatch (index : Z) (server : nat) (v : option Cmd) (other : nat) (old : option Cmd)
| OutOfOrder (server : nat) (index : Z)
| OutOfOrderExpected (server : nat) (expected got : Z)
| ErrRPC
| NilSnapshot
| DecodeFailed
| SnapshotIndexMismatch (server : nat).
Arguments CommitMismatch {Cmd} _ _ _ _ _.
Arguments OutOfOrder {Cmd} _ _.
Arguments OutOfOrderExpected {Cmd} _ _ _.
Arguments ErrRPC {Cmd}.
Arguments NilSnapshot {Cmd}.
Arguments DecodeFailed {Cmd}.
Arguments SnapshotIndexMismatch {Cmd} _.

#[export] Instance ErrMsg_eq_dec {Cmd} `{EqDecision Cmd} : EqDecision (ErrMsg Cmd).
Proof. solve_decision. Defined.

(** An error text, empty ([None]) when there is no error. *)
Abbreviation Err Cmd := (option (ErrMsg Cmd)) (only parsing).

(** A [map[int]any]: a command may be nil. *)
Abbreviation Log Cmd := (gmap Z (option Cmd)) (only parsing).

(** The interface from a server to the tester. *)
Class Itester (Cmd T : Type) := {
  CheckLogs : nat -> ApplyMsg Cmd -> T -> Res (T * (Err Cmd * bool));
  IngestLog : nat -> Log Cmd -> T -> Res T;
  ApplyErr : nat -> ErrMsg Cmd -> T -> Res T;
}.

(** ** The tester ([raft1/test.go]) *)
Record raftServer (Cmd : Type) := mkRaftServer {
  running : bool;         (* rfsrv is not nil *)
  applyErr : Err Cmd;
  logs : Log Cmd;
}.
Arguments mkRaftServer {Cmd} _ _ _.
Arguments running {Cmd} _.
Arguments applyErr {Cmd} _.
Arguments logs {Cmd} _.

Record Test (Cmd : Type) := mkTest {
  srvs : list (raftServer Cmd);
  maxIndex : Z;
  snapshot : bool;
}.
Arguments mkTest {Cmd} _ _ _.
Arguments srvs {Cmd} _.
Arguments maxIndex {Cmd} _.
Arguments snapshot {Cmd} _.

Section tester.
Context {Cmd : Type} `{EqDecision Cmd}.
Implicit Types (ts : Test Cmd) (m : ApplyMsg Cmd).

Definition newRaftServer : raftServer Cmd := mkRaftServer true None ∅.
Definition entry (rs : raftServer Cmd) (i : Z) : option (option Cmd) := logs rs !! i.

Definition makeTest (n : nat) (snap : bool) : Test Cmd := mkTest (replicate n newRaftServer) 0 snap.

Definition get_srv (i : nat) ts : Res (raftServer Cmd) :=
  match srvs ts !! i with Some rs => Ok rs | None => Panic end.

Definition upd_srv (i : nat) (f : raftServer Cmd -> raftServer Cmd) ts : Res (Test Cmd) :=
  let* rs := get_srv i ts in Ok (mkTest (<[i := f rs]> (srvs ts)) (maxIndex ts) (snapshot ts)).

(** [mksrv] for a server made before, and [kill] and [restart]. *)
Definition mksrv (i : nat) : Test Cmd -> Res (Test Cmd) :=
  upd_srv i (fun rs => mkRaftServer true (applyErr rs) (logs rs)).

Fixpoint upd_srvs (f : raftServer Cmd -> raftServer Cmd) (l : list nat) ts : Res (Test Cmd) :=
  match l with
  | [] => Ok ts
  | i :: l => let* ts := upd_srv i f ts in upd_srvs f l ts
  end.

Definition kill : list nat -> Test Cmd -> Res (Test Cmd) :=
  upd_srvs (fun rs => mkRaftServer false (applyErr rs) (logs rs)).
Definition restart : list nat -> Test Cmd -> Res (Test Cmd) :=
  upd_srvs (fun rs => mkRaftServer true (applyErr rs) (logs rs)).

(** The loop of [Test.CheckLogs] over the servers from number [j] on. *)
Fixpoint mismatch (i : nat) m (j : nat) (l : list (raftServer Cmd)) (err : Err Cmd) : Err Cmd :=
  match l with
  | [] => err
  | rs :: l =>
      mismatch i m (S j) l
        match entry rs (CommandIndex m) with
        | Some old =>
            if decide (old <> Command m)
            then Some (CommitMismatch (CommandIndex m) i (Command m) j old)
            else err
        | None => err
        end
  end.

Definition Test_CheckLogs (i : nat) m ts : Res (Test Cmd * (Err Cmd * bool)) :=
  let* me := get_srv i ts in
  let err_msg := mismatch i m 0 (srvs ts) None in
  let prevok := match entry me (CommandIndex m - 1) with Some _ => true | None => false end in
  let me := mkRaftServer (running me) (applyErr me) (<[CommandIndex m := Command m]> (logs me)) in
  let mx := if decide (CommandIndex m > maxIndex ts) then CommandIndex m else maxIndex ts in
  Ok (mkTest (<[i := me]> (srvs ts)) mx (snapshot ts), (err_msg, prevok)).

Definition Test_IngestLog (i : nat) (xlog : Log Cmd) : Test Cmd -> Res (Test Cmd) :=
  upd_srv i (fun rs => mkRaftServer (running rs) (applyErr rs) xlog).

Definition Test_ApplyErr (i : nat) (err : ErrMsg Cmd) : Test Cmd -> Res (Test Cmd) :=
  upd_srv i (fun rs => mkRaftServer (running rs) (Some err) (logs rs)).

#[export] Instance Test_Itester : Itester Cmd (Test Cmd) := {
  CheckLogs := Test_CheckLogs;
  IngestLog := Test_IngestLog;
  ApplyErr := Test_ApplyErr;
}.

(** [TesterProxy]: the tester behind RPCs.  The list says for each call
    whether it reaches the tester and whether the reply comes back; calls
    past its end succeed. *)
Definition next_call (l : list (bool * bool)) : (bool * bool) * list (bool * bool) :=
  match l with [] => ((true, true), []) | c :: l => (c, l) end.

Section proxy.
Context {T : Type} `{!Itester Cmd T}.

Definition TesterProxy_CheckLogs (i : nat) m (p : list (bool * bool) * T)
    : Res ((list (bool * bool) * T) * (Err Cmd * bool)) :=
  let '((arrives, ok), l) := next_call p.1 in
  if (arrives : bool) then
    let* r := CheckLogs i m p.2 in
    Ok ((l, r.1), if (ok : bool) then r.2 else (Some ErrRPC, false))
  else Ok ((l, p.2), (Some ErrRPC, false)).

Definition proxy_call (f : T -> Res T) (p : list (bool * bool) * T) : Res (list (bool * bool) * T) :=
  let '((arrives, _), l) := next_call p.1 in
  if (arrives : bool) then let* t := f p.2 in Ok (l, t) else Ok (l, p.2).

#[export] Instance TesterProxy_Itester : Itester Cmd (list (bool * bool) * T) := {
  CheckLogs := TesterProxy_CheckLogs;
  IngestLog i xlog := proxy_call (IngestLog i xlog);
  ApplyErr i err := proxy_call (ApplyErr i err);
}.
End proxy.

(** *** What the tests ask *)

Fixpoint nCommitted_loop (index : Z) (l : list (raftServer Cmd)) (count : Z) (cmd : option Cmd)
    : Res (Z * option Cmd) :=
  match l with
  | [] => Ok (count, cmd)
  | rs :: l =>
      match applyErr rs with
      | Some _ => Panic
      | None =>
          match entry rs index with
          | Some cmd1 =>
              if decide (count > 0 /\ cmd <> cmd1) then Panic
              else nCommitted_loop index l (count + 1) cmd1
          | None => nCommitted_loop index l count cmd
          end
      end
  end.

Definition nCommitted (index : Z) ts : Res (Z * option Cmd) := nCommitted_loop index (srvs ts) 0 None.

Definition checkNoAgreement (index : Z) ts : Res unit :=
  let* p := nCommitted index ts in if decide (p.1 > 0) then Panic else Ok tt.

(** What the servers answer to [GetState]; [None] for a server that is
    not connected and is not asked. *)
Abbreviation states := (list (option (Z * bool))) (only parsing).

(** [leaders] of one iteration of [checkOneLeader], by term. *)
Fixpoint leadersOf (i : nat) (l : states) : gmap Z (list nat) :=
  match l with
  | [] => ∅
  | Some (term, true) :: l => let ls := leadersOf (S i) l in <[term := i :: default [] (ls !! term)]> ls
  | _ :: l => leadersOf (S i) l
  end.

Definition lastTerm (leaders : gmap Z (list nat)) : Z :=
  map_fold (fun term _ last => if decide (term > last) then term else last) (-1) leaders.

Definition manyLeaders (leaders : gmap Z (list nat)) : bool :=
  existsb (fun p => bool_decide (1 < length p.2)%nat) (map_to_list leaders).

(** One iteration: a leader, or none yet. *)
Definition checkLeaders (l : states) : Res (option nat) :=
  let leaders := leadersOf 0 l in
  if manyLeaders leaders then Panic
  else if decide (leaders = ∅) then Ok None
  else match leaders !! lastTerm leaders with
       | Some (i :: _) => Ok (Some i)
       | _ => Panic
       end.

(** [checkOneLeader], with what each of its (ten) iterations sees. *)
Fixpoint checkOneLeader (iters : list states) : Res nat :=
  match iters with
  | [] => Panic
  | l :: iters => let* r := checkLeaders l in match r with Some i => Ok i | None => checkOneLeader iters end
  end.

Fixpoint checkTerms_loop (l : states) (term : Z) : Res Z :=
  match l with
  | [] => Ok term
  | None :: l => checkTerms_loop l term
  | Some (xterm, _) :: l =>
      if decide (term = -1) then checkTerms_loop l xterm
      else if decide (term <> xterm) then Panic else checkTerms_loop l term
  end.

Definition checkTerms (l : states) : Res Z := checkTerms_loop l (-1).

Definition checkNoLeader (l : states) : Res unit :=
  if existsb (fun o => match o with Some (_, is_leader) => is_leader | None => false end) l then Panic else Ok tt.

(** [one]: in each round every server is asked to [Start] the command
    ([None] for one that is not connected or not running), until one
    accepts; then the tester polls what is committed. *)
Record Round := mkRound { answers : nat -> option (Z * bool); polls : list (Test Cmd) }.

Fixpoint one_start (n fuel starts : nat) (answers : nat -> option (Z * bool)) : nat * Z :=
  match fuel with
  | O => (starts, -1)
  | S fuel =>
      let starts := (S starts mod n)%nat in
      match answers starts with
      | Some (index1, true) => (starts, index1)
      | _ => one_start n fuel starts answers
      end
  end.

Fixpoint one_poll (cmd : option Cmd) (expectedServers index : Z) (polls : list (Test Cmd)) : Res bool :=
  match polls with
  | [] => Ok false
  | ts :: polls =>
      let* p := nCommitted index ts in
      if decide (p.1 > 0 /\ p.1 >= expectedServers /\ p.2 = cmd) then Ok true
      else one_poll cmd expectedServers index polls
  end.

(** [finished]: is the test over when the time for rounds is? *)
Fixpoint one (cmd : option Cmd) (expectedServers : Z) (retry finished : bool) (n starts : nat)
    (rounds : list Round) : Res Z :=
  match rounds with
  | [] => if finished then Ok (-1) else Panic
  | r :: rounds =>
      let '(starts, index) := one_start n n starts (answers r) in
      if decide (index <> -1) then
        let* b := one_poll cmd expectedServers index (polls r) in
        if (b : bool) then Ok index
        else if retry then one cmd expectedServers retry finished n starts rounds else Panic
      else one cmd expectedServers retry finished n starts rounds
  end.

(** [wait], with what each of its (thirty) iterations and its end see:
    the tester and the terms of the servers. *)
Definition wait_end (index n : Z) (last : Test Cmd) : Res (option (option Cmd)) :=
  let* p := nCommitted index last in
  if decide (p.1 < n) then Panic else Ok (Some p.2).

Fixpoint wait (index n startTerm : Z) (iters : list (Test Cmd * list Z)) (last : Test Cmd) : Res (option (option Cmd)) :=
  match iters with
  | [] => wait_end index n last
  | (ts, terms) :: iters =>
      let* p := nCommitted index ts in
      if decide (p.1 >= n) then wait_end index n last
      else if decide (startTerm > -1 /\ Exists (fun t => t > startTerm) terms) then Ok None
      else wait index n startTerm iters last
  end.
End tester.

(** ** The servers ([raft1/server.go]) *)
Definition SnapShotInterval : Z := 10.

Record rfsrv (Cmd : Type) := mkRfsrv {
  me : nat;
  lastApplied : Z;
  log : Log Cmd;   (* for snapshots *)
}.
Arguments mkRfsrv {Cmd} _ _ _.
Arguments me {Cmd} _.
Arguments lastApplied {Cmd} _.
Arguments log {Cmd} _.

Section server.
Context {Cmd : Type} `{!Codec (Z * list (option Cmd))} {T : Type} `{!Itester Cmd T}.
Implicit Types (rs : rfsrv Cmd) (m : ApplyMsg Cmd).

(** [rs.log[j]] for [j] from [j0] on; a missing key reads as nil. *)
Definition log_range (l : Log Cmd) (j0 n : nat) : list (option Cmd) :=
  (fun j => default None (l !! Z.of_nat j)) <$> seq j0 n.

Definition report rs (err : Err Cmd) (t : T) : Res T :=
  match err with Some e => ApplyErr (me rs) e t | None => Ok t end.

(** One message of [applier]. *)
Definition applier rs m (t : T) : Res T :=
  if CommandValid m then
    let* '(t, (err_msg, prevok)) := CheckLogs (me rs) m t in
    let err_msg := if decide (CommandIndex m > 1 /\ prevok = false)
                   then Some (OutOfOrder (me rs) (CommandIndex m)) else err_msg in
    report rs err_msg t
  else Ok t.

(** The log a snapshot holds, as a map. *)
Definition log_of (xlog : list (option Cmd)) : Log Cmd :=
  list_to_map (zip (Z.of_nat <$> seq 0 (length xlog)) xlog).

(** [index] is -1 at startup; the result is the error text. *)
Definition ingestSnap rs (snapshot : option (list Z)) (index : Z) : rfsrv Cmd * Err Cmd :=
  match snapshot with
  | None => (rs, Some NilSnapshot)
  | Some bytes =>
      match decode bytes with
      | None => (rs, Some DecodeFailed)
      | Some (lastIncludedIndex, xlog) =>
          if decide (index <> -1 /\ index <> lastIncludedIndex)
          then (rs, Some (SnapshotIndexMismatch (me rs)))
          else (mkRfsrv (me rs) lastIncludedIndex (log_of xlog), None)
      end
  end.

(** The snapshot [applierSnap] hands to [Raft.Snapshot]. *)
Definition makeSnapshot rs (index : Z) : list Z :=
  encode (index, log_range (log rs) 0 (Z.to_nat (index + 1))).

(** Go's [%]: the remainder has the sign of the dividend. *)
Definition at_interval (index : Z) : bool := bool_decide (Z.rem (index + 1) SnapShotInterval = 0).

(** [err_msg] after the command branch asked the tester. *)
Definition applierSnap_check rs m (t : T) : Res (T * Err Cmd) :=
  if decide (CommandIndex m <> lastApplied rs + 1)
  then Ok (t, Some (OutOfOrderExpected (me rs) (lastApplied rs + 1) (CommandIndex m)))
  else
    let* '(t, (err_msg, prevok)) := CheckLogs (me rs) m t in
    Ok (t, match err_msg with
           | Some ErrRPC => err_msg
           | _ => if decide (CommandIndex m > 1 /\ prevok = false)
                  then Some (OutOfOrder (me rs) (CommandIndex m)) else err_msg
           end).

(** One message of [applierSnap]; the last component is the call of
    [Raft.Snapshot], if there is one.  An [m.Snapshot] without bytes is taken
    as nil. *)
Definition applierSnap rs m (t : T) : Res (rfsrv Cmd * T * option (Z * list Z)) :=
  if SnapshotValid m then
    let '(rs, err_msg) := ingestSnap rs (if decide (Snapshot_ m = []) then None else Some (Snapshot_ m)) (SnapshotIndex m) in
    let* t := IngestLog (me rs) (log rs) t in
    let* t := report rs err_msg t in
    Ok (rs, t, None)
  else if CommandValid m then
    let* '(t, err_msg) := applierSnap_check rs m t in
    let rs := mkRfsrv (me rs) (CommandIndex m) (<[CommandIndex m := Command m]> (log rs)) in
    let snap := if at_interval (CommandIndex m)
                then Some (CommandIndex m, makeSnapshot rs (CommandIndex m)) else None in
    let* t := report rs err_msg t in
    Ok (rs, t, snap)
  else Ok (rs, t, None).

(** [newRfsrv], without the goroutines it starts; [sn] is the persisted
    snapshot. *)
Definition newRfsrv (srv : nat) (sn : list Z) (snapshot : bool) (t : T) : Res (rfsrv Cmd * T) :=
  let s := mkRfsrv srv 0 ∅ in
  if (snapshot && negb (bool_decide (sn = [])))%bool then
    match ingestSnap s (Some sn) (-1) with
    | (s, Some err) => let* _ := ApplyErr srv err t in Panic
    | (s, None) => let* t := IngestLog srv (log s) t in Ok (s, t)
    end
  else Ok (s, t).
End server.

(** ** What the tester's check decides *)
Section agreement.
Context {Cmd : Type} `{EqDecision Cmd}.
Implicit Types (ts : Test Cmd) (m : ApplyMsg Cmd).

(** Deliveries: server [i] reads the command [m] from its apply channel,
    in this order across the servers; the newest comes first. *)
Abbreviation Delivery := (nat * ApplyMsg Cmd)%type (only parsing).

(** The servers run [applier]; [lastApplied] and [log] are not used. *)
Fixpoint deliver (n : nat) (ds : list Delivery) : Res (Test Cmd) :=
  match ds with
  | [] => Ok (makeTest n false)
  | (i, m) :: ds => let* ts := deliver n ds in applier (mkRfsrv i 0 ∅) m ts
  end.

(** No server has reported an error. *)
Definition no_error ts : Prop := forall i rs, srvs ts !! i = Some rs -> applyErr rs = None.

(** State machine safety, for what was delivered: one command per index. *)
Definition agree (ds : list Delivery) : Prop :=
  forall i m j m', (i, m) ∈ ds -> (j, m') ∈ ds -> CommandIndex m = CommandIndex m' -> Command m = Command m'.

(** Each server received index [k - 1] before an index [k] above 1. *)
Fixpoint in_order (ds : list Delivery) : Prop :=
  match ds with
  | [] => True
  | (i, m) :: ds =>
      (CommandIndex m > 1 -> exists m', (i, m') ∈ ds /\ CommandIndex m' = CommandIndex m - 1) /\ in_order ds
  end.

(** Deliveries of commands to servers that exist. *)
Definition valid (n : nat) (ds : list Delivery) : Prop :=
  forall i m, (i, m) ∈ ds -> (i < n)%nat /\ CommandValid m = true.

(** The last command delivered to [i] at index [k]. *)
Fixpoint received (i : nat) (k : Z) (ds : list Delivery) : option (option Cmd) :=
  match ds with
  | [] => None
  | (j, m) :: ds => if decide (j = i /\ CommandIndex m = k) then Some (Command m) else received i k ds
  end.

Lemma received_Some i k ds v : received i k ds = Some v -> exists m, (i, m) ∈ ds /\ CommandIndex m = k /\ Command m = v.
Proof.
  induction ds as [|[j m] ds IH]; simpl; [done |]. destruct (decide (j = i /\ CommandIndex m = k)) as [[-> <-]|Hn].
  - intros [= <-]. exists m. split_and!; [apply list_elem_of_here | done..].
  - intros (m' & Hm & H)%IH. exists m'. split; [by apply list_elem_of_further | done].
Qed.

Lemma received_exists i m ds : (i, m) ∈ ds -> is_Some (received i (CommandIndex m) ds).
Proof.
  induction ds as [|[j m'] ds IH]; [by intros ?%not_elem_of_nil |]. simpl.
  destruct (decide (j = i /\ CommandIndex m' = CommandIndex m)) as [?|Hn]; [eauto |].
  intros [[= -> ->]|Hin]%elem_of_cons; [exfalso; by apply Hn | by apply IH].
Qed.

(** The loop over the servers finds a mismatch exactly if there is one. *)
Lemma mismatch_None i m l : forall j err,
  mismatch i m j l err = None <->
  err = None /\ forall rs v, rs ∈ l -> entry rs (CommandIndex m) = Some v -> v = Command m.
Proof.
  induction l as [|rs l IH]; intros j err; simpl.
  { split; [intros ->; split; [done | by intros ? ? ?%not_elem_of_nil] | by intros [-> _]]. }
  rewrite IH. destruct (entry rs (CommandIndex m)) as [old|] eqn:E.
  - destruct (decide (old <> Command m)) as [Hne|Heq].
    + split; [by intros [? _] |]. intros [_ H]. exfalso. apply Hne, (H rs); [apply list_elem_of_here | done].
    + apply dec_stable in Heq. split; intros [-> H]; (split; [done |]); intros rs' v Hin Hv.
      * apply elem_of_cons in Hin as [->|Hin]; [congruence | by eapply H].
      * eapply H; [by apply list_elem_of_further | done].
  - split; intros [-> H]; (split; [done |]); intros rs' v Hin Hv.
    * apply elem_of_cons in Hin as [->|Hin]; [congruence | by eapply H].
    * eapply H; [by apply list_elem_of_further | done].
Qed.

Lemma srvs_upd i f ts ts' : upd_srv i f ts = Ok ts' -> exists rs, srvs ts !! i = Some rs /\
  srvs ts' = <[i := f rs]> (srvs ts).
Proof.
  unfold upd_srv, get_srv. destruct (srvs ts !! i) as [rs|] eqn:E; [| done]. intros [= <-]. by exists rs.
Qed.

Lemma in_order_cons i m ds : in_order ((i, m) :: ds) <->
  (CommandIndex m > 1 -> is_Some (received i (CommandIndex m - 1) ds)) /\ in_order ds.
Proof.
  simpl. split; intros [H Hd]; (split; [| done]); intros Hk; specialize (H Hk).
  - destruct H as (m' & Hin & <-). by apply received_exists.
  - destruct H as [v (m' & Hin & Hk' & _)%received_Some]. by exists m'.
Qed.

Lemma agree_cons n i m ds ts : valid n ds -> length (srvs ts) = n ->
  (forall i rs k, srvs ts !! i = Some rs -> entry rs k = received i k ds) ->
  agree ((i, m) :: ds) <->
  agree ds /\ forall rs v, rs ∈ srvs ts -> entry rs (CommandIndex m) = Some v -> v = Command m.
Proof.
  intros Hv Hlen Hent. split.
  - intros H. split.
    + intros j1 m1 j2 m2 H1 H2. apply (H j1 m1 j2 m2); by apply list_elem_of_further.
    + intros rs v [j Hj]%list_elem_of_lookup Hr. rewrite (Hent j rs) in Hr by done.
      apply received_Some in Hr as (m' & Hin & Hk & <-).
      apply (H j m' i m); [by apply list_elem_of_further | apply list_elem_of_here | done].
  - intros [Hd H]. assert (forall j m', (j, m') ∈ ds -> CommandIndex m = CommandIndex m' -> Command m' = Command m) as Hm.
    { intros j m' Hin Hk. destruct (Hv j m' Hin) as [Hj _].
      destruct (lookup_lt_is_Some_2 (srvs ts) j) as [rs Hrs]; [by rewrite Hlen |].
      destruct (received_exists j m' ds Hin) as [v Hr]. rewrite <- Hk in Hr.
      pose proof Hr as (m2 & Hin2 & Hk2 & Hv2)%received_Some.
      rewrite (Hd j m' j m2) by (done || congruence). rewrite Hv2.
      apply (H rs v); [by eapply list_elem_of_lookup_2 | by rewrite (Hent j rs)]. }
    intros j1 m1 j2 m2 [[= -> ->]|H1]%elem_of_cons [[= -> ->]|H2]%elem_of_cons Hk.
    + done.
    + symmetry. by apply (Hm j2).
    + by apply (Hm j1).
    + by apply (Hd j1 m1 j2 m2).
Qed.

(** The error of one delivery. *)
Definition delivery_err (i : nat) m (rs : raftServer Cmd) ts : Err Cmd :=
  if decide (CommandIndex m > 1 /\ entry rs (CommandIndex m - 1) = None)
  then Some (OutOfOrder i (CommandIndex m)) else mismatch i m 0 (srvs ts) None.

Lemma applier_run i m ts rs : srvs ts !! i = Some rs -> CommandValid m = true ->
  exists ts', applier (mkRfsrv i 0 ∅) m ts = Ok ts' /\
    srvs ts' = <[i := mkRaftServer (running rs)
      (match delivery_err i m rs ts with Some e => Some e | None => applyErr rs end)
      (<[CommandIndex m := Command m]> (logs rs))]> (srvs ts).
Proof.
  intros Hi Hv. unfold applier. rewrite Hv. simpl. unfold Test_CheckLogs, get_srv. rewrite Hi. simpl.
  unfold delivery_err.
  assert (forall (b : bool) (e1 e2 : Err Cmd), b = bool_decide (entry rs (CommandIndex m - 1) = None) ->
    (if decide (CommandIndex m > 1 /\ negb b = false) then e1 else e2) =
    (if decide (CommandIndex m > 1 /\ entry rs (CommandIndex m - 1) = None) then e1 else e2)) as Heq.
  { intros b e1 e2 ->. case_bool_decide; repeat case_decide; naive_solver. }
  set (b := match entry rs (CommandIndex m - 1) with Some _ => true | None => false end).
  replace b with (negb (bool_decide (entry rs (CommandIndex m - 1) = None))) by
    (subst b; by destruct (entry rs (CommandIndex m - 1))).
  rewrite (Heq _ _ _ eq_refl). destruct (if decide _ then _ else _) as [e|]; simpl.
  - unfold Test_ApplyErr, upd_srv, get_srv. simpl. rewrite list_lookup_insert_eq by (by eapply lookup_lt_Some).
    simpl. eexists. split; [done |]. simpl. by rewrite list_insert_insert_eq.
  - by eexists.
Qed.

Lemma delivery_err_None i m rs ts : srvs ts !! i = Some rs ->
  delivery_err i m rs ts = None <->
  (forall rs v, rs ∈ srvs ts -> entry rs (CommandIndex m) = Some v -> v = Command m) /\
  (CommandIndex m > 1 -> is_Some (entry rs (CommandIndex m - 1))).
Proof.
  intros Hi. unfold delivery_err. rewrite <- not_eq_None_Some.
  destruct (decide (CommandIndex m > 1 /\ entry rs (CommandIndex m - 1) = None)) as [[H1 H2]|Hn].
  - split; [done |]. intros [_ H]. by destruct (H H1).
  - rewrite mismatch_None. tauto.
Qed.

Lemma no_error_insert i rs rs' ts ts' : srvs ts !! i = Some rs -> srvs ts' = <[i := rs']> (srvs ts) ->
  (applyErr rs' = None -> applyErr rs = None) ->
  no_error ts' <-> no_error ts /\ applyErr rs' = None.
Proof.
  intros Hi Hs Hmono. pose proof (lookup_lt_Some _ _ _ Hi) as Hlt. unfold no_error. rewrite Hs. split.
  - intros H. assert (applyErr rs' = None) as He by (apply (H i); by rewrite list_lookup_insert_eq).
    split; [| done]. intros j rsj Hj. destruct (decide (j = i)) as [->|Hne]; [simplify_eq; auto |].
    apply (H j). by rewrite list_lookup_insert_ne.
  - intros [H He] j rsj [(<- & <- & _)|(Hne & Hj)]%list_lookup_insert_Some; [done | by eapply H].
Qed.

(** After any deliveries the tester's copy of a server's log holds what
    was delivered to it last at each index, and no error is recorded
    exactly if the deliveries agree and are in order. *)
Lemma deliver_spec n ds : valid n ds ->
  exists ts, deliver n ds = Ok ts /\ length (srvs ts) = n /\
    (forall i rs k, srvs ts !! i = Some rs -> entry rs k = received i k ds) /\
    (no_error ts <-> agree ds /\ in_order ds).
Proof.
  induction ds as [|[i m] ds IH]; intros Hv.
  { eexists. split; [done |]. split; [apply length_replicate |]. split.
    - intros i rs k [-> _]%lookup_replicate_1. apply lookup_empty.
    - split; [| intros _ i rs [-> _]%lookup_replicate_1; done].
      intros _. split; [by intros ? ? ? ? ?%not_elem_of_nil | done]. }
  destruct IH as (ts & Hr & Hlen & Hent & Hno).
  { intros j m' Hj. apply Hv. by apply list_elem_of_further. }
  destruct (Hv i m) as [Hi Hcv]; [apply list_elem_of_here |].
  destruct (lookup_lt_is_Some_2 (srvs ts) i) as [rs Hrs]; [by rewrite Hlen |].
  destruct (applier_run i m ts rs Hrs Hcv) as (ts' & Hr' & Hs').
  exists ts'. cbn [deliver]. rewrite Hr. split; [done |]. split; [| split].
  - by rewrite Hs', length_insert.
  - intros j rsj k Hj. rewrite Hs' in Hj. cbn [received]. unfold entry in *.
    apply list_lookup_insert_Some in Hj as [(<- & <- & _)|(Hne & Hj)]; simpl.
    + destruct (decide (CommandIndex m = k)) as [<-|Hk].
      * by rewrite lookup_insert_eq, decide_True.
      * rewrite lookup_insert_ne, decide_False by tauto. by apply Hent.
    + rewrite decide_False by tauto. by apply Hent.
  - rewrite (no_error_insert i rs _ ts ts' Hrs Hs') by (simpl; by destruct (delivery_err i m rs ts)).
    rewrite (agree_cons n i m ds ts), in_order_cons by (try done; intros j m' Hj; apply Hv;
      by apply list_elem_of_further).
    assert (applyErr (mkRaftServer (running rs) (match delivery_err i m rs ts with Some e => Some e
      | None => applyErr rs end) (<[CommandIndex m := Command m]> (logs rs))) = None <->
      delivery_err i m rs ts = None /\ applyErr rs = None) as ->
      by (simpl; destruct (delivery_err i m rs ts); naive_solver).
    rewrite (delivery_err_None i m rs ts Hrs). rewrite (Hent i rs) by done.
    assert (no_error ts -> applyErr rs = None) by (intros H; by apply (H i)). simpl. tauto.
Qed.

(** C21: The tester's check is sound and complete for state machine
    safety: whatever commands Raft delivers to the servers, in any order,
    the servers' appliers and the tester run to the end, and no server has
    an error recorded exactly if any two deliveries at the same index carry
    the same command and each server received index [k - 1] before every
    index [k] above 1. *)
Theorem applier_checks_safety (n : nat) (ds : list Delivery) : valid n ds ->
  exists ts, deliver n ds = Ok ts /\ (no_error ts <-> agree ds /\ in_order ds).
Proof. intros Hv. destruct (deliver_spec n ds Hv) as (ts & ? & _ & _ & ?). by exists ts. Qed.
End agreement.

Definition cmd_msg (k v : Z) : ApplyMsg Z := mkApplyMsg true (Some v) k false [] 0 0.

(** Server 1 received another command at index 2 than server 0. *)
Lemma applier_checks_safety_witness :
  exists ts, deliver 2 [(1%nat, cmd_msg 2 8); (0%nat, cmd_msg 2 7); (1%nat, cmd_msg 1 5); (0%nat, cmd_msg 1 5)] = Ok ts /\
    (no_error ts <-> agree [(1%nat, cmd_msg 2 8); (0%nat, cmd_msg 2 7); (1%nat, cmd_msg 1 5); (0%nat, cmd_msg 1 5)] /\
      in_order [(1%nat, cmd_msg 2 8); (0%nat, cmd_msg 2 7); (1%nat, cmd_msg 1 5); (0%nat, cmd_msg 1 5)]).
Proof.
  apply (applier_checks_safety 2). intros i m Hin. rewrite !elem_of_cons in Hin.
  destruct Hin as [H|[H|[H|[H|H]]]]; [injection H as -> ->; split; [lia | done].. | by apply not_elem_of_nil in H].
Defined.

(** An ingested snapshot is not compared with anything: two servers may
    hold different commands at an index without an error. *)
Lemma IngestLog_not_checked : exists ts : Test Z,
  (let* ts := IngestLog 0%nat (log_of [None; Some 5]) (makeTest 2 true) in
   IngestLog 1%nat (log_of [None; Some 6]) ts) = Ok ts /\ no_error ts /\
  (fun rs => entry rs 1) <$> srvs ts = [Some (Some 5); Some (Some 6)].
Proof.
  eexists. split; [reflexivity |]. split; [| by vm_compute].
  intros [|[|i]] rs H; simpl in H; simplify_eq; done.
Qed.

(** ** What the tests' helpers establish *)
Section helpers.
Context {Cmd : Type} `{EqDecision Cmd}.
Implicit Types (ts : Test Cmd).

(** How many servers hold [cmd] at [index]. *)
Definition holders (index : Z) (cmd : option Cmd) (l : list (raftServer Cmd)) : Z :=
  zlen (filter (fun rs => entry rs index = Some cmd) l).

Lemma nCommitted_loop_spec index l : forall count cmd count' cmd',
  0 <= count -> nCommitted_loop index l count cmd = Ok (count', cmd') ->
  Forall (fun rs => applyErr rs = None /\ (entry rs index = None \/ entry rs index = Some cmd')) l /\
  (count > 0 -> cmd' = cmd) /\ count' = count + holders index cmd' l.
Proof.
  induction l as [|rs l IH]; intros count cmd count' cmd' Hc; simpl.
  { intros [= <- <-]. split_and!; [constructor | done |]. unfold holders. simpl. unfold zlen. simpl. lia. }
  destruct (applyErr rs) eqn:Ea; [done |]. unfold holders. destruct (entry rs index) as [cmd1|] eqn:Ee.
  - destruct (decide (count > 0 /\ cmd <> cmd1)) as [|Hn]; [done |]. intros H.
    apply IH in H as (Hall & Hcm & ->); [| lia..]. specialize (Hcm ltac:(lia)). subst cmd'.
    rewrite filter_cons_True by done. split_and!.
    + constructor; [auto | done].
    + intros Hp. destruct (decide (cmd1 = cmd)); [done | exfalso; apply Hn; auto].
    + rewrite zlen_cons. unfold holders. lia.
  - intros H. apply IH in H as (Hall & Hcmd & ->); [| lia]. rewrite filter_cons_False by (by rewrite Ee).
    split_and!; [constructor; auto | done | done].
Qed.

Lemma nCommitted_spec index ts count cmd : nCommitted index ts = Ok (count, cmd) ->
  Forall (fun rs => applyErr rs = None /\ (entry rs index = None \/ entry rs index = Some cmd)) (srvs ts) /\
  count = holders index cmd (srvs ts).
Proof. intros (? & _ & ->)%nCommitted_loop_spec; [done | lia]. Qed.

(** [ts] shows agreement on [cmd] at [index] by [n] servers. *)
Definition agreed (ts : Test Cmd) (index : Z) (cmd : option Cmd) (n : Z) : Prop :=
  Forall (fun rs => applyErr rs = None /\ (entry rs index = None \/ entry rs index = Some cmd)) (srvs ts) /\
  n <= holders index cmd (srvs ts).

Lemma one_poll_spec cmd expected index polls : one_poll cmd expected index polls = Ok true ->
  exists ts, ts ∈ polls /\ agreed ts index cmd (Z.max 1 expected).
Proof.
  induction polls as [|ts polls IH]; simpl; [done |]. intros H. res_inv. simpl in H.
  match type of H with context [decide ?P] => destruct (decide P) as [(H1 & H2 & ->)|_] end.
  - exists ts. split; [apply list_elem_of_here |]. apply nCommitted_spec in E as [Hall ->]. split; [done | lia].
  - destruct (IH H) as (ts' & Hin & Ha). exists ts'. split; [by apply list_elem_of_further | done].
Qed.

(** When [one] returns an index, the tester saw, after the command was
    submitted, at least the expected number of servers (and at least one)
    apply exactly this command at this index, no server apply another one
    there, and no server report an error; the only other result is -1,
    and only when the test is already over. *)
Theorem one_agreement (cmd : option Cmd) (expected : Z) (retry finished : bool) (n starts : nat)
    (rounds : list (Round (Cmd := Cmd))) (index : Z) :
  one cmd expected retry finished n starts rounds = Ok index ->
  (index = -1 /\ finished = true) \/
  (exists r ts, r ∈ rounds /\ ts ∈ polls r /\ agreed ts index cmd (Z.max 1 expected)).
Proof.
  revert starts. induction rounds as [|r rounds IH]; intros starts; simpl.
  { destruct finished; [intros [= <-]; auto | done]. }
  assert (forall starts, one cmd expected retry finished n starts rounds = Ok index ->
    (index = -1 /\ finished = true) \/
    (exists r0 ts, r0 ∈ r :: rounds /\ ts ∈ polls r0 /\ agreed ts index cmd (Z.max 1 expected))) as Hrest.
  { intros s [?|(r0 & ts & Hr & H)]%IH; [auto | right]. exists r0, ts. split; [by apply list_elem_of_further | done]. }
  destruct (one_start n n starts (answers r)) as [starts' index'].
  destruct (decide (index' <> -1)) as [Hi|Hi]; [| apply Hrest].
  intros H. apply res_bind_ok in H as (b & Hp & H). destruct b.
  - injection H as <-. right. apply one_poll_spec in Hp as (ts & Hin & Ha). exists r, ts.
    split; [apply list_elem_of_here | done].
  - destruct retry; [by apply (Hrest starts') | done].
Qed.

(** *** Leaders *)
Lemma leadersOf_spec l : forall i term,
  match leadersOf i l !! term with
  | Some ls => ls <> [] /\ forall k, k ∈ ls <-> (i <= k)%nat /\ l !! (k - i)%nat = Some (Some (term, true))
  | None => forall k, l !! k <> Some (Some (term, true))
  end.
Proof.
  induction l as [|o l IH]; intros i term; simpl; [by rewrite lookup_empty |].
  assert (forall k, (S i <= k)%nat -> (k - i)%nat = S (k - S i)) as Hk by lia.
  assert (o <> Some (term, true) -> match leadersOf (S i) l !! term with
    | Some ls => ls <> [] /\ forall k, k ∈ ls <-> (i <= k)%nat /\ (o :: l) !! (k - i)%nat = Some (Some (term, true))
    | None => forall k, (o :: l) !! k <> Some (Some (term, true))
    end) as Hother.
  { intros Ho. specialize (IH (S i) term). destruct (leadersOf (S i) l !! term) as [ls|].
    - destruct IH as [Hne IH]. split; [done |]. intros k. rewrite IH. split.
      + intros [Hik Hl]. rewrite Hk by done. split; [lia | done].
      + intros [Hik Hl]. destruct (decide (k = i)) as [->|Hki].
        * rewrite Nat.sub_diag in Hl. simpl in Hl. congruence.
        * rewrite Hk in Hl by lia. split; [lia | done].
    - intros [|k]; simpl; [congruence | apply IH]. }
  destruct o as [[t [|]]|]; [| by apply Hother..]. destruct (decide (t = term)) as [->|Ht].
  - rewrite lookup_insert_eq. split; [done |]. intros k. specialize (IH (S i) term).
    rewrite elem_of_cons. split.
    + intros [->|Hin]; [split; [lia |]; by rewrite Nat.sub_diag |].
      destruct (leadersOf (S i) l !! term) as [ls|]; [| by apply not_elem_of_nil in Hin].
      apply IH in Hin as [Hik Hl]. rewrite Hk by done. split; [lia | done].
    + intros [Hik Hl]. destruct (decide (k = i)) as [->|Hki]; [by left | right].
      rewrite Hk in Hl by lia. simpl in Hl. destruct (leadersOf (S i) l !! term) as [ls|].
      * apply IH. split; [lia | done].
      * by apply IH in Hl.
  - rewrite lookup_insert_ne by done. apply Hother. congruence.
Qed.

Lemma lastTerm_spec leaders term : is_Some (leaders !! term) -> term <= lastTerm leaders.
Proof.
  unfold lastTerm. apply (map_fold_weak_ind (fun last m => is_Some (m !! term) -> term <= last)).
  - rewrite lookup_empty. by intros [? ?].
  - intros k ls m last _ IH H. destruct (decide (k = term)) as [->|Hne].
    + case_decide; lia.
    + rewrite lookup_insert_ne in H by done. specialize (IH H). case_decide; lia.
Qed.

Lemma manyLeaders_false leaders term ls : manyLeaders leaders = false -> leaders !! term = Some ls -> (length ls <= 1)%nat.
Proof.
  intros Hm Hl. destruct (decide (1 < length ls)%nat) as [Hlt|]; [| lia]. exfalso.
  apply not_true_iff_false in Hm. apply Hm. unfold manyLeaders. apply existsb_exists. exists (term, ls).
  split; [apply list_elem_of_In; by apply elem_of_map_to_list |]. by apply bool_decide_eq_true.
Qed.

(** A leader that [checkOneLeader] returns claimed, in one of its
    iterations, to lead in some term; in this iteration no two servers
    claimed to lead in the same term, and no server claimed to lead in a
    later term. *)
Theorem checkOneLeader_sound (iters : list (list (option (Z * bool)))) (i : nat) :
  checkOneLeader iters = Ok i ->
  exists l term, l ∈ iters /\ l !! i = Some (Some (term, true)) /\
    (forall j t, l !! j = Some (Some (t, true)) -> t <= term) /\
    (forall j k t, l !! j = Some (Some (t, true)) -> l !! k = Some (Some (t, true)) -> j = k).
Proof.
  induction iters as [|l iters IH]; simpl; [done |]. intros H.
  apply res_bind_ok in H as (r & Hc & H). destruct r as [i'|].
  2:{ destruct (IH H) as (l' & term & Hin & Hrest). exists l', term.
      split; [by apply list_elem_of_further | done]. }
  injection H as ->. unfold checkLeaders in Hc. destruct (manyLeaders _) eqn:Em; [done |].
  destruct (decide _); [done |]. pose proof (leadersOf_spec l 0) as Hs.
  set (leaders := leadersOf 0 l) in *.
  assert (forall j t, l !! j = Some (Some (t, true)) -> exists ls, leaders !! t = Some ls /\ j ∈ ls) as Hin.
  { intros j t Hj. specialize (Hs t). destruct (leaders !! t) as [ls|].
    - exists ls. split; [done |]. apply Hs. rewrite Nat.sub_0_r. split; [lia | done].
    - by apply Hs in Hj. }
  exists l, (lastTerm leaders). split; [apply list_elem_of_here |]. split_and!.
  - specialize (Hs (lastTerm leaders)). destruct (leaders !! lastTerm leaders) as [[|i' ls]|]; [done | | done].
    injection Hc as ->. destruct (proj1 (proj2 Hs i)) as [_ Hi]; [apply list_elem_of_here |].
    by rewrite Nat.sub_0_r in Hi.
  - intros j t (ls & Hls & _)%Hin. apply lastTerm_spec. eauto.
  - intros j k t (ls & Hls & Hj)%Hin (ls' & Hls' & Hk)%Hin. rewrite Hls in Hls'. injection Hls' as <-.
    pose proof (manyLeaders_false _ _ _ Em Hls) as Hlen. destruct ls as [|x [|y ls]]; simpl in Hlen; [by apply not_elem_of_nil in Hj | | lia].
    rewrite list_elem_of_singleton in Hj, Hk. congruence.
Qed.
End helpers.

(** A round in which server 1 accepts the command and two servers apply it. *)
Definition demo_round : Round (Cmd := Z) :=
  mkRound (fun i => if decide (i = 1%nat) then Some (1, true) else Some (0, false))
    [makeTest 2 false; mkTest [mkRaftServer true None {[ 1 := Some 5 ]}; mkRaftServer true None {[ 1 := Some 5 ]}] 1 false].

Lemma one_agreement_witness :
  (1 = -1 /\ false = true) \/
  (exists r ts, r ∈ [demo_round] /\ ts ∈ polls r /\ agreed ts 1 (Some 5) (Z.max 1 2)).
Proof. apply (one_agreement (Some 5) 2 false false 2 0 [demo_round] 1). vm_compute. reflexivity. Defined.

Lemma checkOneLeader_sound_witness :
  exists l term, l ∈ [[Some (1, false)]; [Some (3, true); None; Some (2, true)]] /\
    l !! 0%nat = Some (Some (term, true)) /\
    (forall j t, l !! j = Some (Some (t, true)) -> t <= term) /\
    (forall j k t, l !! j = Some (Some (t, true)) -> l !! k = Some (Some (t, true)) -> j = k).
Proof. apply (checkOneLeader_sound [[Some (1, false)]; [Some (3, true); None; Some (2, true)]]). vm_compute. reflexivity. Defined.
