(* ===== verification/RaftRefine.v ===== *)
(** * The code implements the abstract specification

    [sim] relates a cluster of peers running the code to a state of
    [RaftSpec]: terms and logs are the same, every message in flight is
    backed by the history (a request by the candidate's vote for itself,
    a granted reply by a vote, a call by a piece of the log of its term,
    a successful answer by an acknowledgement), and every commit index by
    a majority.  Each step of the code is zero, one or two steps of the
    peer that takes it. *)
From stdpp Require Import functions.
From S2P Require Import RaftTester.
From S2P Require Import Prelude Persister RaftNode RaftStep RaftElection RaftLog RaftSpec RaftFollower RaftApply RaftLeader RaftCluster.
#[local] Open Scope Z_scope.

Section Sim.
Context {Cmd : Type} `{!Codec (RaftState Cmd)}.
Variable n : Z.
Hypothesis Hn : 0 <= n.
Notation Entry := (LogEntry Cmd).
Notation AState := (AState (Cmd := Cmd)).
Implicit Types (a : AState) (rf : Raft Cmd) (l L V : list Entry) (rc : RCluster (Cmd := Cmd)) (i s t T c : Z).

(** ** The relation *)

(** The entries up to index [c] of [l] are chosen, in a term up to [T]. *)
Definition committed a T c l : Prop := c = 0 \/
  exists t k L, chosen n a t k L /\ t <= T /\ 0 < c /\ (Z.to_nat c < k)%nat /\ shares (S (Z.to_nat c)) L l.

Definition vote_sim a i rf : Prop :=
  if decide (voted_for_ rf = -1) then a_vote a i (current_term_ rf) = None
  else exists V, a_vote a i (current_term_ rf) = Some (voted_for_ rf, V).

(** A leader's table: an index above 0 was acknowledged in its term. *)
Definition match_sim a rf : Prop := forall (s : nat) m, match_index_ rf !! s = Some m ->
  0 <= m /\ (0 < m -> (Z.to_nat m < a_ack a (Z.of_nat s) (current_term_ rf))%nat).

Record node_sim a i rf : Prop := mkNodeSim {
  ns_term : a_term a i = current_term_ rf;
  ns_log : a_log a i = logs_ rf;
  ns_len : zlen (logs_ rf) < 2 ^ 63;
  ns_lii : last_included_index_ rf = 0;
  ns_snap : snapshot_ rf = [];
  ns_vote : vote_sim a i rf;
  ns_leader : role_ rf = Leader -> a_tlog a (current_term_ rf) = Some (i, logs_ rf) /\ match_sim a rf;
  ns_next : role_ rf = Leader -> Forall (fun x => 0 < x <= zlen (logs_ rf)) (next_index_ rf);
  ns_sizes : zlen (match_index_ rf) = n /\ zlen (next_index_ rf) = n;
  ns_commit : 0 <= commit_index_ rf /\ committed a (current_term_ rf) (commit_index_ rf) (logs_ rf);
  ns_applied : 0 <= last_applied_ rf <= commit_index_ rf;
}.

Definition request_sim a (args : RequestVoteArgs) : Prop := exists V e,
  a_vote a (rv_Candidate_ID args) (rv_Term args) = Some (rv_Candidate_ID args, V) /\
  list.last V = Some e /\ rv_LastLogTerm args = Term_ e /\ rv_LastLogIndex args = zlen V - 1.

Definition reply_sim a (args : RequestVoteArgs) s (reply : RequestVoteReply) : Prop :=
  rvr_VoteGranted reply = true ->
  exists V, a_vote a s (rv_Term args) = Some (rv_Candidate_ID args, V).

Definition append_sim a (args : AppendEntriesArgs Cmd) : Prop := exists L e,
  a_tlog a (ae_Term args) = Some (ae_LeaderID args, L) /\
  0 <= ae_PreviousLogIndex args /\ ae_PreviousLogIndex args + zlen (ae_Entries args) < zlen L /\
  ae_Entries args = take (length (ae_Entries args)) (drop (S (Z.to_nat (ae_PreviousLogIndex args))) L) /\
  L !! Z.to_nat (ae_PreviousLogIndex args) = Some e /\ Term_ e = ae_PreviousLogTerm args /\
  0 <= ae_LeaderCommit args /\ committed a (ae_Term args) (ae_LeaderCommit args) L.

Definition answer_sim a (args : AppendEntriesArgs Cmd) s (reply : AppendEntriesReplys) : Prop :=
  append_sim a args /\ is_peer n s /\
  if aer_Success reply
  then (Z.to_nat (ae_PreviousLogIndex args + zlen (ae_Entries args)) < a_ack a s (ae_Term args))%nat
  else failure_reply args reply.

(** A delivered command is the chosen one for its index. *)
Definition message_sim a (s : nat) (m : ApplyMsg Cmd) : Prop :=
  is_peer n (Z.of_nat s) /\ CommandValid m = true /\ 0 < CommandIndex m /\
  exists t k L e, chosen n a t k L /\ (Z.to_nat (CommandIndex m) < k)%nat /\
    L !! Z.to_nat (CommandIndex m) = Some e /\ Command m = Command_ e.

Record sim rc a : Prop := mkSim {
  sm_node : forall i, is_peer n i -> node_sim a i (peer rc i);
  sm_request : forall args s, (args, s) ∈ requests (base rc) -> request_sim a args;
  sm_reply : forall args s r, (args, s, r) ∈ replies (base rc) -> reply_sim a args s r;
  sm_append : forall args s, (args, s) ∈ appends rc -> append_sim a args;
  sm_answer : forall args s r, (args, s, r) ∈ answers rc -> answer_sim a args s r;
  sm_applied : forall (s : nat) m, (s, m) ∈ applied rc -> message_sim a s m;
  sm_delivered : forall i k, is_peer n i -> 0 < k <= last_applied_ (peer rc i) ->
    exists m, (Z.to_nat i, m) ∈ applied rc /\ CommandIndex m = k;
  sm_order : in_order (applied rc);
  sm_tlog : forall t i L, a_tlog a t = Some (i, L) -> zlen L < 2 ^ 63;
}.

(** ** Commit indices *)

Lemma committed_mono a w a' T T' c l x : evolves n a w a' -> T <= T' ->
  committed a T c l -> committed a' T' c (l ++ x).
Proof.
  intros E HT [->|(t & k & L & Hc & Ht & H0 & Hk & Hs)]; [by left | right].
  destruct (ev_chosen _ _ _ _ E _ _ _ Hc) as [y Hy]. exists t, k, (L ++ y).
  split_and!; [done | lia | done.. |]. by apply shares_app_l, shares_app_r.
Qed.

Lemma committed_down a T c c' l : committed a T c l -> 0 <= c' <= c -> committed a T c' l.
Proof.
  intros H Hc. destruct (decide (c' = 0)) as [->|]; [by left |].
  destruct H as [->|(t & k & L & ? & ? & ? & ? & Hs)]; [lia | right].
  exists t, k, L. split_and!; try done; try lia. eapply shares_le; [| done]. lia.
Qed.

(** The log of a later term has what was committed. *)
Lemma committed_leader a T c l T' i L : spec_inv n a -> committed a T c l ->
  a_tlog a T' = Some (i, L) -> T <= T' ->
  committed a T' c L /\ (0 < c -> shares (S (Z.to_nat c)) l L).
Proof.
  intros I H HL HT. destruct H as [->|(t & k & K & Hc & Ht & H0 & Hk & Hs)]; [split; [by left | lia] |].
  assert (shares k K L) as HK.
  { pose proof Hc as (j & Q & e & HtK & ? & He & _). apply lookup_lt_Some in He.
    destruct (decide (t = T')) as [<-|].
    - rewrite HtK in HL. injection HL as _ <-. apply shares_refl. lia.
    - apply (leader_completeness n a t k K Hn I Hc T' i); [lia | done]. }
  apply (shares_le _ (S (Z.to_nat c))) in HK; [| lia].
  split.
  - right. exists t, k, K. by split_and!; try lia.
  - intros _. apply (shares_trans _ _ K); [by apply shares_sym | done].
Qed.

Lemma committed_shares a T c l l' : committed a T c l -> (0 < c -> shares (S (Z.to_nat c)) l l') ->
  committed a T c l'.
Proof.
  intros [->|(t & k & L & ? & ? & ? & ? & Hs)] HS; [by left | right].
  exists t, k, L. split_and!; try done. eapply shares_trans; [done | auto].
Qed.

Lemma committed_bound a T c l : committed a T c l -> l <> [] -> c < zlen l.
Proof.
  unfold zlen. intros [->|(t & k & L & ? & ? & ? & ? & (_ & _ & Hs))] Hl; [destruct l; simpl; [done | lia] | lia].
Qed.

(** ** Messages and nodes as the history grows *)
Section Evolve.
Variables (a : AState) (w : Z) (a' : AState).
Hypothesis E : evolves n a w a'.

Lemma request_evolves args : request_sim a args -> request_sim a' args.
Proof. intros (V & e & Hv & H). exists V, e. split; [by apply (ev_vote _ _ _ _ E) | done]. Qed.

Lemma reply_evolves args s r : reply_sim a args s r -> reply_sim a' args s r.
Proof. intros H G. destruct (H G) as [V HV]. exists V. by apply (ev_vote _ _ _ _ E). Qed.

Lemma append_evolves args : append_sim a args -> append_sim a' args.
Proof.
  intros (L & e & HL & H0 & Hlen & Hes & He & Ht & Hc0 & Hc).
  destruct (ev_tlog _ _ _ _ E _ _ _ HL) as [x Hx]. exists (L ++ x), e.
  split_and!; try done.
  - rewrite zlen_app. pose proof (zlen_nonneg x). lia.
  - unfold zlen in Hlen. rewrite drop_app_le by lia. rewrite take_app_le; [done |].
    rewrite length_drop. lia.
  - by apply lookup_app_l_Some.
  - by eapply committed_mono.
Qed.

Lemma answer_evolves args s r : answer_sim a args s r -> answer_sim a' args s r.
Proof.
  intros (H & Hs & Ha). split_and!; [by apply append_evolves | done |]. destruct (aer_Success r); [| done].
  pose proof (ev_ack _ _ _ _ E s (ae_Term args)). lia.
Qed.

Lemma message_evolves (s : nat) m : message_sim a s m -> message_sim a' s m.
Proof.
  intros (Hs & Hv & H0 & t & k & L & e & Hc & Hk & He & Hm).
  destruct (ev_chosen _ _ _ _ E _ _ _ Hc) as [x Hx].
  split_and!; try done. exists t, k, (L ++ x), e. split_and!; try done. by apply lookup_app_l_Some.
Qed.

Lemma node_evolves j rf : j <> w -> node_sim a j rf -> node_sim a' j rf.
Proof.
  intros Hj []. split; try done.
  - by rewrite (ev_term _ _ _ _ E).
  - by rewrite (ev_log _ _ _ _ E).
  - unfold vote_sim in *. by rewrite !(ev_row _ _ _ _ E).
  - intros R. destruct (ns_leader0 R) as [HL HM]. split; [by apply (ev_other _ _ _ _ E) |].
    intros s m Hm. destruct (HM s m Hm) as [? Hack]. split; [done |]. intros H0. specialize (Hack H0).
    pose proof (ev_ack _ _ _ _ E (Z.of_nat s) (current_term_ rf)). lia.
  - destruct ns_commit0 as [? Hc]. split; [done |].
    rewrite <- (app_nil_r (logs_ rf)). by eapply committed_mono.
Qed.
End Evolve.

(** A step of peer [i] changes what the relation says of it, and adds
    messages. *)
Lemma sim_update rc a rc' a' i msgs : sim rc a -> evolves n a i a' ->
  (forall j, is_peer n j -> j <> i -> peer rc' j = peer rc j) ->
  (is_peer n i -> node_sim a' i (peer rc' i)) ->
  (forall args s, (args, s) ∈ requests (base rc') -> (args, s) ∈ requests (base rc) \/ request_sim a' args) ->
  (forall args s r, (args, s, r) ∈ replies (base rc') -> (args, s, r) ∈ replies (base rc) \/ reply_sim a' args s r) ->
  (forall args s, (args, s) ∈ appends rc' -> (args, s) ∈ appends rc \/ append_sim a' args) ->
  (forall args s r, (args, s, r) ∈ answers rc' -> (args, s, r) ∈ answers rc \/ answer_sim a' args s r) ->
  applied rc' = msgs ++ applied rc ->
  (forall (s : nat) m, (s, m) ∈ msgs -> message_sim a' s m) ->
  (is_peer n i -> forall k, 0 < k <= last_applied_ (peer rc' i) ->
    exists m, (Z.to_nat i, m) ∈ applied rc' /\ CommandIndex m = k) ->
  in_order (applied rc') ->
  (forall t j L, a_tlog a' t = Some (j, L) -> zlen L < 2 ^ 63) ->
  sim rc' a'.
Proof.
  intros S E Hnode Hi Hrq Hrp Hap Han Hm Hms Hdel Hord Htl. split; try done.
  - intros j Hj. destruct (decide (j = i)) as [->|Hne]; [by apply Hi |].
    rewrite Hnode by done. eapply node_evolves; [done.. |]. by apply (sm_node _ _ S).
  - intros args s [H|H]%Hrq; [| done]. eapply request_evolves; [done |]. by eapply (sm_request _ _ S).
  - intros args s r [H|H]%Hrp; [| done]. eapply reply_evolves; [done |]. by apply (sm_reply _ _ S).
  - intros args s [H|H]%Hap; [| done]. eapply append_evolves; [done |]. by eapply (sm_append _ _ S).
  - intros args s r [H|H]%Han; [| done]. eapply answer_evolves; [done |]. by apply (sm_answer _ _ S).
  - intros s m. rewrite Hm. intros [H|H]%elem_of_app; [by apply Hms |].
    eapply message_evolves; [done |]. by apply (sm_applied _ _ S).
  - intros j k Hj Hk. destruct (decide (j = i)) as [->|Hne]; [by apply Hdel |].
    rewrite Hnode in Hk by done. destruct (sm_delivered _ _ S j k Hj Hk) as (m & ? & ?).
    exists m. split; [| done]. rewrite Hm. apply elem_of_app. by right.
Qed.

(** ** What a peer's operation does to the abstract state *)

Abbreviation abstract a := (reachable spec_init (spec_step n) a) (only parsing).

Definition tlog_small a : Prop := forall t i L, a_tlog a t = Some (i, L) -> zlen L < 2 ^ 63.

(** The abstract state follows peer [i], which is now [rf]. *)
Definition follows a i rf a' : Prop := spec_steps n a i a' /\ node_sim a' i rf /\ tlog_small a'.

Lemma follows_refl a i rf : node_sim a i rf -> tlog_small a -> follows a i rf a.
Proof. split; [apply rtc_refl | done]. Qed.

Lemma follows_step a i (b : AState) rf : spec_step_of n a i b -> node_sim b i rf -> tlog_small b -> follows a i rf b.
Proof. split; [by apply rtc_once | done]. Qed.

Lemma follows_trans a i rf b rf' a' : follows a i rf b -> follows b i rf' a' -> follows a i rf' a'.
Proof. intros (H1 & _) (H2 & ?). split; [unfold spec_steps in *; by etrans | done]. Qed.

Record same_log rf rf' : Prop := mkSameLog {
  sl_logs : logs_ rf' = logs_ rf;
  sl_lii : last_included_index_ rf' = last_included_index_ rf;
  sl_commit : commit_index_ rf' = commit_index_ rf;
  sl_applied : last_applied_ rf' = last_applied_ rf;
  sl_next : next_index_ rf' = next_index_ rf;
  sl_match : match_index_ rf' = match_index_ rf;
  sl_snap : snapshot_ rf' = snapshot_ rf;
}.

Lemma sim_frame a i rf rf' : node_sim a i rf -> same_log rf rf' ->
  current_term_ rf' = current_term_ rf -> voted_for_ rf' = voted_for_ rf ->
  (role_ rf' = Leader -> role_ rf = Leader) -> node_sim a i rf'.
Proof.
  intros [] [E1 E2 E3 E4 E5 E6 E7] Et Ev Er.
  split; unfold vote_sim, match_sim in *; rewrite ?Et, ?Ev, ?E1, ?E2, ?E3, ?E4, ?E5, ?E6, ?E7; auto.
Qed.

Section Moves.
Variables (a : AState) (i : Z) (rf : Raft Cmd).
Hypothesis R : abstract a.
Hypothesis Hi : is_peer n i.
Hypothesis NS : node_sim a i rf.
Hypothesis B : tlog_small a.

Lemma sim_wf : wf_log rf.
Proof.
  destruct (si_log _ _ (spec_inv_reachable _ _ R) i Hi) as (_ & Hc%chain_nonempty & _).
  rewrite (ns_log _ _ _ NS) in Hc. pose proof (ns_len _ _ _ NS).
  split; rewrite ?(ns_lii _ _ _ NS); [| lia..]. unfold zlen. destruct (logs_ rf); simpl; [done | lia].
Qed.

Lemma sim_entry k : entry_at rf k = zlookup (logs_ rf) k.
Proof. unfold entry_at. rewrite (ns_lii _ _ _ NS). by rewrite Z.sub_0_r. Qed.

Lemma sim_term : 0 <= current_term_ rf.
Proof. rewrite <- (ns_term _ _ _ NS). by destruct (si_log _ _ (spec_inv_reachable _ _ R) i Hi). Qed.

Lemma no_later_vote s t : is_peer n s -> a_term a s < t -> a_vote a s t = None.
Proof.
  intros Hs Ht. destruct (a_vote a s t) as [[c V]|] eqn:E; [| done].
  apply (si_vote _ _ (spec_inv_reachable _ _ R)) in E. lia.
Qed.

(** A higher term, without a vote. *)
Lemma follows_term t rf' : current_term_ rf < t -> same_log rf rf' -> current_term_ rf' = t ->
  voted_for_ rf' = -1 -> role_ rf' <> Leader -> exists a', follows a i rf' a'.
Proof.
  intros Ht SL Et Ev Er. eexists. apply follows_step.
  { apply (sp_term _ _ i t); [done |]. rewrite (ns_term _ _ _ NS). lia. }
  2:{ apply B. }
  set (a' := mkA _ _ _ _ _). destruct NS, SL. split; try done; try congruence.
  - simpl. by rewrite fn_insert_eq.
  - simpl. congruence.
  - unfold vote_sim. rewrite Ev, Et, decide_True by done. apply no_later_vote; [done | lia].
  - destruct ns_commit0 as [? Hc]. rewrite sl_commit0, Et, sl_logs0. split; [done |].
    rewrite <- (app_nil_r (logs_ rf)). eapply (committed_mono a i); [| | done]; [| lia].
    apply spec_step_evolves; [by apply spec_inv_reachable |]. constructor; [done | lia].
Qed.

(** A vote. *)
Lemma follows_vote c rf' : 0 < current_term_ rf -> voted_for_ rf = -1 -> 0 <= c ->
  i = c \/ (exists V, a_vote a c (current_term_ rf) = Some (c, V) /\ RaftSpec.up_to_date V (logs_ rf)) ->
  same_log rf rf' -> current_term_ rf' = current_term_ rf -> voted_for_ rf' = c ->
  (role_ rf' = Leader -> role_ rf = Leader) ->
  exists a', follows a i rf' a' /\ a_vote a' i (current_term_ rf) = Some (c, logs_ rf).
Proof.
  intros Ht Hv Hc Hcand SL Et Ev Er.
  assert (a_vote a i (a_term a i) = None) as HN.
  { pose proof (ns_vote _ _ _ NS) as H. unfold vote_sim in H. rewrite decide_True in H by done. by rewrite (ns_term _ _ _ NS). }
  assert (spec_step_of n a i (mkA (a_term a) (a_log a)
    (upd2 i (a_term a i) (Some (c, a_log a i)) (a_vote a)) (a_tlog a) (a_ack a))) as Hstep.
  { apply sp_vote; [done | by rewrite (ns_term _ _ _ NS) | done |].
    by rewrite (ns_term _ _ _ NS), (ns_log _ _ _ NS). }
  pose proof (spec_step_evolves _ _ _ _ (spec_inv_reachable _ _ R) Hstep) as E.
  eexists. split; [apply follows_step; [exact Hstep | | apply B] |].
  2:{ simpl. rewrite (ns_term _ _ _ NS), (ns_log _ _ _ NS). by rewrite upd2_eq. }
  set (a' := mkA _ _ _ _ _) in *. destruct NS, SL. split; try done; try (simpl; congruence).
  - unfold vote_sim. rewrite decide_False by lia. exists (logs_ rf). simpl.
    rewrite ns_term0, ns_log0, Et, Ev. by rewrite upd2_eq.
  - intros H%Er. destruct (ns_leader0 H) as [HL HM]. rewrite Et, sl_logs0. split; [done |].
    intros s m. rewrite sl_match0, Et. by apply HM.
  - intros H%Er. rewrite sl_next0, sl_logs0. auto.
  - destruct ns_commit0 as [? Hcm]. rewrite sl_commit0, Et, sl_logs0. split; [done |].
    rewrite <- (app_nil_r (logs_ rf)). eapply (committed_mono a i); [done | | done]. lia.
Qed.

Lemma new_next : Forall (fun x => 0 < x <= zlen (logs_ rf)) ((fun _ => getLogLength rf) <$> next_index_ rf).
Proof.
  pose proof sim_wf as W. apply Forall_fmap, Forall_true. intros x. simpl.
  rewrite getLogLength_wf, (ns_lii _ _ _ NS) by done. destruct W. lia.
Qed.

(** The votes of a majority. *)
Lemma follows_elect Q : majority n Q ->
  (forall s, s ∈ Q -> exists V, a_vote a s (current_term_ rf) = Some (i, V)) ->
  exists a', follows a i (becomeLeader rf) a'.
Proof.
  intros HQ HV. pose proof (spec_inv_reachable _ _ R) as I.
  assert (0 < current_term_ rf) as Hpos.
  { destruct HQ as [_ Hs]. destruct (decide (Q = ∅)) as [->|Hne]; [rewrite size_empty in Hs; lia |].
    apply set_choose_L in Hne as [s Hs']. destruct (HV s Hs') as [V Hv]. apply (si_vote _ _ I) in Hv. lia. }
  destruct (a_tlog a (current_term_ rf)) as [[j K]|] eqn:HK.
  - exists a. apply follows_refl; [| done].
    destruct (si_elected _ _ I _ _ _ HK) as (L0 & Q' & _ & _ & [HQ' HS'] & HV'). destruct HQ as [HQ HS].
    destruct (majorities_intersect n Q Q') as (s & Hs & Hs'); [done.. |].
    destruct (HV s Hs) as [V Hv]. destruct (HV' s Hs') as (V' & Hv' & _).
    rewrite Hv in Hv'. injection Hv' as <- <-.
    apply (si_tlog _ _ I) in HK as HK'. destruct HK' as (_ & _ & _ & _ & HK').
    rewrite (ns_log _ _ _ NS) in HK'. specialize (HK' (ns_term _ _ _ NS)).
    pose proof new_next. destruct NS. split; try done.
    + intros _. simpl. split; [by rewrite HK' |].
      intros s' m. simpl. rewrite list_lookup_fmap. by intros (? & _ & ->)%fmap_Some.
    + unfold zlen in *. simpl. by rewrite !length_fmap.
  - set (a' := mkA (a_term a) (a_log a) (a_vote a) (<[a_term a i := Some (i, a_log a i)]> (a_tlog a))
                   (upd2 i (a_term a i) (length (a_log a i)) (a_ack a))).
    assert (spec_step_of n a i a') as Hstep.
    { apply (sp_elect _ _ i Q); [done | by rewrite (ns_term _ _ _ NS).. | done |].
      by rewrite (ns_term _ _ _ NS). }
    pose proof (spec_step_evolves _ _ _ _ I Hstep) as E.
    exists a'. apply follows_step; [exact Hstep | |].
    + pose proof new_next. destruct NS. split; try done; simpl.
      * intros _. rewrite ns_term0, ns_log0, fn_insert_eq. split; [done |].
        intros s m. simpl. rewrite list_lookup_fmap. by intros (? & _ & ->)%fmap_Some.
      * unfold zlen in *. by rewrite !length_fmap.
      * destruct ns_commit0 as [? Hcm]. split; [done |].
        rewrite <- (app_nil_r (logs_ rf)). eapply (committed_mono a i); [done | | done]. lia.
    + intros t j L. simpl. destruct (decide (a_term a i = t)) as [<-|Hne].
      * rewrite fn_insert_eq. intros [= <- <-]. rewrite (ns_log _ _ _ NS). apply NS.
      * rewrite fn_insert_ne by done. apply B.
Qed.

(** A command appended by the leader. *)
Lemma follows_append e rf' : role_ rf = Leader -> zlen (logs_ rf) < 2 ^ 63 - 1 ->
  Term_ e = current_term_ rf -> same_log (with_logs (logs_ rf ++ [e]) rf) rf' ->
  current_term_ rf' = current_term_ rf -> voted_for_ rf' = voted_for_ rf ->
  exists a', follows a i rf' a'.
Proof.
  intros Hr Hlen He SL Et Ev. pose proof (spec_inv_reachable _ _ R) as I.
  destruct (ns_leader _ _ _ NS Hr) as [HL HM].
  set (a' := mkA (a_term a) (<[i := logs_ rf ++ [e]]> (a_log a)) (a_vote a)
                 (<[a_term a i := Some (i, logs_ rf ++ [e])]> (a_tlog a))
                 (upd2 i (a_term a i) (length (logs_ rf ++ [e])) (a_ack a))).
  assert (spec_step_of n a i a') as Hstep.
  { apply sp_append; by rewrite (ns_term _ _ _ NS). }
  pose proof (spec_step_evolves _ _ _ _ I Hstep) as E.
  assert (zlen (logs_ rf ++ [e]) < 2 ^ 63) as Hb by (rewrite zlen_app, zlen_cons, zlen_nil; lia).
  exists a'. apply follows_step; [exact Hstep | |].
  - destruct NS, SL. simpl in *. split; try (simpl; congruence).
    + simpl. by rewrite fn_insert_eq.
    + unfold vote_sim in *. simpl. by rewrite Et, Ev.
    + intros _. rewrite Et, sl_logs0. simpl. rewrite ns_term0, fn_insert_eq. split; [done |].
      intros s m. rewrite sl_match0, Et. intros Hm. destruct (HM s m Hm) as [? Hack]. split; [done |].
      intros H0. specialize (Hack H0). pose proof (ev_ack _ _ _ _ E (Z.of_nat s) (current_term_ rf)). simpl in *. lia.
    + intros _. rewrite sl_next0, sl_logs0, zlen_app. eapply List.Forall_impl; [| by apply ns_next0].
      intros x. simpl. pose proof (zlen_nonneg [e]). lia.
    + destruct ns_commit0 as [? Hcm]. rewrite sl_commit0, Et, sl_logs0. split; [done |].
      eapply (committed_mono a i); [done | | done]. lia.
  - intros t j L. simpl. destruct (decide (a_term a i = t)) as [<-|Hne].
    + rewrite fn_insert_eq. by intros [= <- <-].
    + rewrite fn_insert_ne by done. apply B.
Qed.

(** Entries taken from the leader of the term. *)
Lemma follows_accept args e rf' : append_sim a args -> ae_Term args = current_term_ rf ->
  role_ rf' <> Leader ->
  entry_at rf (ae_PreviousLogIndex args) = Some e -> Term_ e = ae_PreviousLogTerm args ->
  current_term_ rf' = current_term_ rf -> voted_for_ rf' = voted_for_ rf ->
  last_included_index_ rf' = last_included_index_ rf -> last_applied_ rf' = last_applied_ rf ->
  next_index_ rf' = next_index_ rf -> match_index_ rf' = match_index_ rf -> snapshot_ rf' = snapshot_ rf ->
  logs_ rf' = merged_logs rf (ae_PreviousLogIndex args) (ae_Entries args) ->
  commit_index_ rf' = Z.max (commit_index_ rf)
    (Z.min (ae_LeaderCommit args) (ae_PreviousLogIndex args + zlen (ae_Entries args))) ->
  exists a', follows a i rf' a' /\ append_sim a' args /\
    (Z.to_nat (ae_PreviousLogIndex args + zlen (ae_Entries args)) < a_ack a' i (ae_Term args))%nat.
Proof.
  intros Ha Ht Hr He Hte Et Ev Ei Eap En Em Esn El Ec. pose proof (spec_inv_reachable _ _ R) as I.
  pose proof Ha as (L & y & HL & Hp0 & Hlen & Hes & Hy & Hyt & Hlc0 & Hlc).
  set (prev := ae_PreviousLogIndex args) in *. set (es := ae_Entries args) in *.
  set (p := S (Z.to_nat prev)). set (k := (p + length es)%nat).
  assert (logs_ rf' = accepted p k L (a_log a i)) as Hacc.
  { rewrite El, (ns_log _ _ _ NS). unfold merged_logs, accepted. rewrite (ns_lii _ _ _ NS).
    replace (Z.to_nat (prev + 1 - 0)) with p by (unfold p; lia).
    replace (k - p)%nat with (length es) by (unfold k; lia).
    fold p in Hes. by rewrite <- Hes. }
  rewrite sim_entry in He. unfold zlookup in He. rewrite decide_True in He by done.
  assert (k <= length L)%nat as HkL by (unfold zlen, k, p in *; lia).
  assert (spec_step_of n a i (mkA (a_term a) (<[i := accepted p k L (a_log a i)]> (a_log a)) (a_vote a) (a_tlog a)
    (upd2 i (a_term a i) (Nat.max k (a_ack a i (a_term a i))) (a_ack a)))) as Hstep.
  { apply (sp_accept _ _ i (ae_LeaderID args) p k L e y); try done.
    - by rewrite (ns_term _ _ _ NS), <- Ht.
    - unfold k, p. lia.
    - rewrite (ns_log _ _ _ NS). unfold p. by rewrite Nat.sub_succ, Nat.sub_0_r.
    - unfold p. by rewrite Nat.sub_succ, Nat.sub_0_r.
    - congruence. }
  pose proof (spec_step_evolves _ _ _ _ I Hstep) as E.
  destruct (si_log _ _ I i Hi) as (_ & Hch & _). destruct (si_tlog _ _ I _ _ _ HL) as (_ & _ & HchL & _).
  assert (shares p (a_log a i) L) as Hsp.
  { eapply chain_matching; [done | done | by rewrite (ns_log _ _ _ NS) | done | congruence]. }
  assert (forall m, shares m (a_log a i) L -> shares m (logs_ rf') L) as Hkeep.
  { intros m Hm. rewrite Hacc. apply (accepted_shares a); try done. unfold k. lia. }
  assert (shares k (logs_ rf') L) as Hk.
  { rewrite Hacc. destruct (accepted_cases a L (a_log a i) p k) as [[-> ?]| ->]; try done; [unfold k; lia |].
    apply shares_take; lia. }
  eexists. split; [apply follows_step; [exact Hstep | | apply B] |].
  2:{ split; [by eapply append_evolves |]. simpl. rewrite (ns_term _ _ _ NS), <- Ht, upd2_eq.
      unfold k, p, zlen in *. lia. }
  set (a' := mkA _ _ _ _ _) in *. destruct NS. split; try done; try congruence.
  - simpl. congruence.
  - simpl. by rewrite fn_insert_eq, Hacc.
  - pose proof (B _ _ _ HL) as HB. rewrite Hacc.
    destruct (accepted_cases a L (a_log a i) p k) as [[-> ?]| ->]; try done; [unfold k; lia | congruence |].
    unfold zlen in *. rewrite length_take. lia.
  - unfold vote_sim in *. by rewrite Et, Ev.
  - rewrite Ec. split; [lia |]. rewrite <- (app_nil_r (logs_ rf')).
    eapply (committed_mono a i); [exact E | reflexivity |]. rewrite Et.
    destruct ns_commit0 as [Hc0 Hcm].
    destruct (committed_leader _ _ _ _ (current_term_ rf) (ae_LeaderID args) L I Hcm) as [HcL HcS];
      [by rewrite <- Ht | lia |].
    destruct (Z.max_spec (commit_index_ rf) (Z.min (ae_LeaderCommit args) (prev + zlen es))) as [[? ->]|[? ->]].
    + apply (committed_down _ _ _ (Z.min (ae_LeaderCommit args) (prev + zlen es))) in Hlc; [| lia].
      rewrite Ht in Hlc. eapply committed_shares; [exact Hlc |]. intros _. apply shares_sym.
      eapply shares_le; [| exact Hk]. unfold k, p, zlen in *. lia.
    + eapply committed_shares; [exact HcL |]. intros H0. apply shares_sym, Hkeep. rewrite ns_log0. by apply HcS.
  - rewrite Eap, Ec. lia.
Qed.
End Moves.

(** ** The operations *)
Section Operations.
Variables (a : AState) (i : Z) (rf : Raft Cmd).
Hypothesis R : abstract a.
Hypothesis Hi : is_peer n i.
Hypothesis NS : node_sim a i rf.
Hypothesis B : tlog_small a.

Lemma follows_evolves rf' a' : follows a i rf' a' -> evolves n a i a'.
Proof. intros (H & _). by apply spec_steps_evolves. Qed.

Lemma follows_abstract rf' a' : follows a i rf' a' -> abstract a'.
Proof. intros (H & _). by eapply spec_steps_reachable. Qed.

Lemma last_log : exists e, list.last (logs_ rf) = Some e /\
  getLogEntry (u64 (getLogLength rf - 1)) rf = Ok e.
Proof.
  pose proof (sim_wf a i rf R Hi NS) as W. destruct (last_entry_wf rf W) as (e & He & Hg).
  exists e. split; [| done]. rewrite (sim_entry a i rf NS) in He. unfold last_index in He. rewrite (ns_lii _ _ _ NS) in He.
  destruct W. unfold zlookup, zlen in *. rewrite decide_True in He by lia.
  rewrite last_lookup. rewrite <- He. f_equal. lia.
Qed.

Lemma last_index_sim : u64 (getLogLength rf - 1) = zlen (logs_ rf) - 1.
Proof. rewrite lastIndex_wf by (by eapply sim_wf). rewrite (ns_lii _ _ _ NS). lia. Qed.

Lemma sim_requestVoteBody now args rf' reply : request_sim a args ->
  current_term_ rf = rv_Term args -> 0 <= rv_Candidate_ID args ->
  requestVoteBody now args rf = Ok (rf', reply) ->
  exists a', follows a i rf' a' /\ reply_sim a' args i reply.
Proof.
  intros (V & e & HV & He & Het & Hidx) Ht Hc. unfold requestVoteBody.
  assert (forall r, rvr_VoteGranted r = false -> reply_sim a args i r) as Hno by (unfold reply_sim; congruence).
  destruct (decide (voted_for_ rf = rv_Candidate_ID args)) as [Hv|Hv].
  { intros [= <- <-]. exists a. split; [apply follows_refl; [by apply (sim_frame _ _ rf) | done] |].
    intros _. pose proof (ns_vote _ _ _ NS) as H. unfold vote_sim in H. rewrite decide_False in H by lia.
    rewrite <- Ht, <- Hv. done. }
  destruct (decide (voted_for_ rf <> -1)) as [?|Hv1].
  { intros [= <- <-]. exists a. split; [by apply follows_refl | by apply Hno]. }
  apply dec_stable in Hv1. destruct last_log as (v & Hlast & ->). simpl. rewrite last_index_sim.
  assert (0 < current_term_ rf) as Hpos.
  { apply (si_vote _ _ (spec_inv_reachable _ _ R)) in HV. lia. }
  assert (forall rf', Term_ v < Term_ e \/ Term_ v = Term_ e /\ zlen (logs_ rf) <= zlen V ->
    same_log rf rf' -> current_term_ rf' = current_term_ rf -> voted_for_ rf' = rv_Candidate_ID args ->
    role_ rf' = role_ rf -> forall t, exists a', follows a i rf' a' /\ reply_sim a' args i (mkRVReply t true)) as Hgrant.
  { intros rf1 Hutd SL Et Ev Er t.
    destruct (follows_vote a i rf R Hi NS B (rv_Candidate_ID args) rf1) as (a' & HF & Hvote); try done.
    - right. exists V. split; [by rewrite Ht |]. exists e, v. split_and!; [done | done |].
      unfold zlen in Hutd. destruct Hutd as [?|[? ?]]; [by left | right; split; [done | lia]].
    - by rewrite Er.
    - exists a'. split; [done |]. intros _. rewrite <- Ht. eauto. }
  destruct (decide (rv_LastLogTerm args > Term_ v)) as [?|?].
  { intros [= <- <-]. apply Hgrant; try done. left. lia. }
  destruct (decide (rv_LastLogTerm args < Term_ v)) as [?|?].
  { intros [= <- <-]. exists a. split; [by apply follows_refl | by apply Hno]. }
  destruct (decide (rv_LastLogIndex args >= zlen (logs_ rf) - 1)) as [?|?]; simpl; intros [= <- <-].
  - apply Hgrant; try done. right. lia.
  - exists a. split; [by apply follows_refl | by apply Hno].
Qed.

Lemma sim_startElection now rf' args : role_ rf <> Leader -> me rf = i ->
  current_term_ rf < 2 ^ 64 - 1 -> startElection now rf = Ok (rf', args) ->
  exists a', follows a i rf' a' /\ request_sim a' args.
Proof.
  intros Hr Hme Hb H. pose proof (sim_term a i rf R Hi NS) as Hpos.
  unfold startElection in H. cbn [res_bind] in H. unfold newElection in H.
  rewrite (u64_small (current_term_ rf + 1)) in H by lia.
  set (rf0 := with_voted_for (-1) (with_term (current_term_ rf + 1) rf)).
  destruct (follows_term a i rf R Hi NS B (current_term_ rf + 1) rf0) as [b HF]; try done; [lia |].
  destruct last_log as (v & Hlast & Hg). pose proof last_index_sim as Hidx.
  set (rf1 := persist _) in H.
  change (getLogEntry (u64 (getLogLength rf1 - 1)) rf1) with (getLogEntry (u64 (getLogLength rf - 1)) rf) in H.
  rewrite Hg in H. cbn [res_bind] in H. injection H as <- <-.
  destruct (follows_vote b i rf0 (follows_abstract _ _ HF) Hi) with (c := i) (rf' := rf1) as (a' & HF' & HV);
    [apply HF | apply HF | simpl; lia | done | unfold is_peer in Hi; lia | by left | done | done | done | done |].
  exists a'. split; [by eapply follows_trans |].
  exists (logs_ rf0), v. simpl. rewrite Hme. split_and!; [exact HV | done | done | exact Hidx].
Qed.

Lemma sim_voteReply args reply count rf' count' fin effs :
  voteReply args reply count rf = (rf', count', fin, effs) ->
  (role_ rf' = Leader -> exists Q, majority n Q /\
    forall s, s ∈ Q -> exists V, a_vote a s (current_term_ rf) = Some (i, V)) \/ current_term_ rf' <> current_term_ rf ->
  exists a', follows a i rf' a'.
Proof.
  unfold voteReply. intros H HL.
  destruct (decide (rvr_Term reply > current_term_ rf)).
  { injection H as <- _ _ _. apply (follows_term a i rf R Hi NS B (rvr_Term reply)); try done. lia. }
  assert (exists a', follows a i rf a') by (exists a; by apply follows_refl).
  repeat case_decide; try (destruct (rvr_VoteGranted reply)); simplify_eq; try done.
  destruct HL as [HL|HL]; [| done]. destruct HL as (Q & HQ & HV); [done |]. by eapply follows_elect.
Qed.
End Operations.

Lemma sim_RequestVote a i rf now args rf' reply : abstract a -> is_peer n i -> node_sim a i rf -> tlog_small a ->
  request_sim a args -> 0 <= rv_Candidate_ID args ->
  RequestVote now args rf = Ok (rf', reply) ->
  exists a', follows a i rf' a' /\ reply_sim a' args i reply.
Proof.
  intros R Hi NS B Hq Hc. unfold RequestVote. case_decide.
  { intros [= <- <-]. exists a. split; [by apply follows_refl | done]. }
  case_decide as Hgt; intros HB.
  - destruct (follows_term a i rf R Hi NS B (rv_Term args) (stepDown (rv_Term args) rf)) as [b HF]; try done; [lia |].
    assert (request_sim b args) as Hqb by (eapply request_evolves; [by eapply follows_evolves | done]).
    destruct HF as (HS & HN & HB').
    destruct (sim_requestVoteBody b i (stepDown (rv_Term args) rf)) with (now := now) (args := args) (rf' := rf') (reply := reply)
      as (a' & HF & Hrep); try done; [by eapply spec_steps_reachable |].
    exists a'. split; [by eapply follows_trans; [| done] |]. done.
  - apply (sim_requestVoteBody a i rf R Hi NS B now); try done. lia.
Qed.

(** A failed check answers as [newNextIndex] expects. *)
Lemma sim_failure a i rf args rf' reply effs : abstract a -> is_peer n i -> node_sim a i rf ->
  tlog_small a -> append_sim a args ->
  appendEntriesBody args rf = Ok (rf', reply, effs) -> aer_Success reply = false -> failure_reply args reply.
Proof.
  intros R Hi NS B (L & y & HL & Hp0 & Hlen & _) H Hs. pose proof (B _ _ _ HL) as HB.
  pose proof (zlen_nonneg (ae_Entries args)).
  pose proof (sim_wf a i rf R Hi NS) as W. pose proof (ns_lii _ _ _ NS) as Hlii. pose proof (wf_len _ W).
  destruct (appendEntriesBody_rejects args rf W) as (reply' & H' & HR).
  { intros [Hr Ht]. unfold term_at in Ht. apply fmap_Some in Ht as (e & He & Hte).
    destruct (appendEntriesBody_accepts args rf e W) as (rf2 & effs2 & H2 & _); try done; [lia |].
    rewrite H in H2. injection H2 as _ -> _. done. }
  rewrite H in H'. injection H' as _ -> _. unfold last_index in HR.
  case_decide; [subst; split_and!; simpl; [done | lia | left; lia] |].
  case_decide; [lia |]. destruct HR as (ct & f & -> & Hf & Hall & Hne & _).
  split_and!; simpl; [done | lia | right]. split; [done | lia].
Qed.

Lemma sim_appendEntriesBody a i rf args rf' reply effs : abstract a -> is_peer n i -> node_sim a i rf -> tlog_small a ->
  append_sim a args -> current_term_ rf = ae_Term args -> role_ rf <> Leader ->
  appendEntriesBody args rf = Ok (rf', reply, effs) ->
  exists a', follows a i rf' a' /\ answer_sim a' args i reply.
Proof.
  intros R Hi NS B Ha Ht Hr H. destruct (appendEntriesBody_frame _ _ _ _ _ H) as (Et & Ev & Er & Eap & En & Em & Esn & HF).
  destruct (aer_Success reply) eqn:Hs.
  2:{ rewrite (HF eq_refl). exists a. split; [by apply follows_refl |]. split_and!; [done | done |]. rewrite Hs.
      by eapply sim_failure. }
  pose proof (sim_wf a i rf R Hi NS) as W. pose proof (ns_lii _ _ _ NS) as Hlii.
  pose proof Ha as (L & y & HL & Hp0 & Hlen & _). specialize (B _ _ _ HL) as HB.
  pose proof (zlen_nonneg (ae_Entries args)).
  destruct (appendEntriesBody_checked args rf rf' reply effs W) as (Hle & e & He & Hte); [lia | done | done |].
  destruct (appendEntriesBody_accepts args rf e W) as (rf2 & effs2 & H2 & El & Ei & Ec & _); try done; [lia | lia |].
  rewrite H in H2. injection H2 as <- -> <-.
  destruct (follows_accept a i rf R Hi NS B args e rf') as (a' & HFol & Ha' & Hack); try done; [congruence |].
  exists a'. split; [done |]. split_and!; [done | done |]. by rewrite Hs.
Qed.

Lemma sim_AppendEntries a i rf now args rf' reply effs : abstract a -> is_peer n i -> node_sim a i rf -> tlog_small a ->
  append_sim a args -> AppendEntries now args rf = Ok (rf', reply, effs) ->
  exists a', follows a i rf' a' /\ answer_sim a' args i reply.
Proof.
  intros R Hi NS B Ha H. destruct (decide (ae_Term args < current_term_ rf)) as [Hlt|Hge].
  { unfold AppendEntries in H. rewrite decide_True in H by done. injection H as <- <- <-.
    exists a. split; [by apply follows_refl |]. split_and!; [done | done |]. destruct Ha as (L & e & _ & Hp & _).
    split_and!; simpl; [done | lia | by left]. }
  rewrite AppendEntries_heard in H by lia. unfold heard_leader in H. case_decide as Hgt.
  - set (rf1 := with_role Follower _) in H.
    destruct (follows_term a i rf R Hi NS B (ae_Term args) rf1) as [b HF]; try done; [lia |].
    assert (append_sim b args) as Hab by (eapply append_evolves; [by eapply follows_evolves | done]).
    pose proof HF as (HS & HN & HB).
    destruct (sim_appendEntriesBody b i rf1 args rf' reply effs) as (a' & HF' & Hans); try done;
      [by eapply follows_abstract |].
    exists a'. split; [by eapply follows_trans | done].
  - eapply sim_appendEntriesBody; [done | done | | done.. | | | exact H]; [| simpl; lia | done].
    by apply (sim_frame _ _ rf).
Qed.

(** What a leader sends comes from its log. *)
Lemma sim_helper a i rf server effs : abstract a -> is_peer n i -> node_sim a i rf -> role_ rf = Leader -> me rf = i ->
  sendAppendEntriesHelper server rf = Ok effs ->
  forall args s, (args, s) ∈ calls effs -> append_sim a args /\ s = server.
Proof.
  intros R Hi NS Hr Hme H args s Hin. pose proof (sim_wf a i rf R Hi NS) as W. pose proof (ns_lii _ _ _ NS) as Hlii.
  pose proof (ns_len _ _ _ NS) as Hb. unfold sendAppendEntriesHelper in H.
  apply res_bind_ok in H as (next & _ & H).
  case_decide; [injection H as <-; simpl in Hin; by apply elem_of_nil in Hin |].
  apply res_bind_ok in H as (e & He & H). apply res_bind_ok in H as (m & _ & H).
  apply getLogEntry_Ok in He as [Hp He]; [| done | apply u64_range].
  set (prev := u64 (next - 1)) in *. rewrite (sim_entry a i rf NS) in He.
  pose proof (zlookup_Some_range _ _ _ He) as Hrange. rewrite (u64_small (prev + 1)) in H by lia.
  assert (exists es, effs = [GoAppendEntries server (mkAEArgs (current_term_ rf) (me rf) prev (Term_ e) es (commit_index_ rf))] /\
    es = take (length es) (drop (S (Z.to_nat prev)) (logs_ rf)) /\ prev + zlen es < zlen (logs_ rf)) as (es & -> & Hes & Hlen).
  { case_decide; simpl in H.
    - apply res_bind_ok in H as (es & Hg & H). injection H as <-. exists es. split; [done |].
      unfold getLogSliceCopy in Hg. rewrite getLogLength_wf in Hg by done.
      rewrite getLogSlice_wf in Hg by (done || lia). injection Hg as <-. rewrite Hlii.
      replace (Z.to_nat (prev + 1 - 0)) with (S (Z.to_nat prev)) by lia.
      rewrite zlookup_full_take.
      2:{ unfold zlen in *. rewrite length_drop. lia. }
      split; [by rewrite firstn_all |]. unfold zlen in *. rewrite length_drop. lia.
    - injection H as <-. exists []. split_and!; [done | done |]. rewrite zlen_nil. lia. }
  simpl in Hin. apply list_elem_of_singleton in Hin as [= -> ->]. split; [| done].
  destruct (ns_leader _ _ _ NS Hr) as [HL _]. destruct (ns_commit _ _ _ NS) as [Hc0 Hc].
  unfold zlookup in He. rewrite decide_True in He by lia.
  exists (logs_ rf), e. simpl. rewrite Hme. by split_and!; try lia.
Qed.

Lemma calls_app (e1 e2 : list (Eff Cmd)) : calls (e1 ++ e2) = calls e1 ++ calls e2.
Proof. apply omap_app. Qed.

Lemma sim_entriesSender a i rf effs : abstract a -> is_peer n i -> node_sim a i rf -> me rf = i ->
  entriesSender rf = Ok effs -> forall args s, (args, s) ∈ calls effs -> append_sim a args.
Proof.
  intros R Hi NS Hme. unfold entriesSender. case_decide as Hr.
  { intros [= <-] args s Hin. by apply elem_of_nil in Hin. }
  generalize 0. generalize (Z.to_nat (peers rf)). intros m. revert effs.
  induction m as [|m IH]; intros effs j H args s Hin; simpl in H.
  - injection H as <-. by apply elem_of_nil in Hin.
  - apply res_bind_ok in H as (e1 & H1 & H). apply res_bind_ok in H as (e2 & H2 & H). injection H as <-.
    rewrite calls_app in Hin. apply elem_of_app in Hin as [Hin|Hin]; [| by eapply IH].
    case_decide; [injection H1 as <-; by apply elem_of_nil in Hin |].
    by eapply sim_helper in H1 as [? _].
Qed.

Lemma sim_indexes a i rf next matched : node_sim a i rf -> zlen next = n -> zlen matched = n ->
  (role_ rf = Leader -> Forall (fun x => 0 < x <= zlen (logs_ rf)) next /\ forall (s : nat) m, matched !! s = Some m ->
     0 <= m /\ (0 < m -> (Z.to_nat m < a_ack a (Z.of_nat s) (current_term_ rf))%nat)) ->
  node_sim a i (with_indexes next matched rf).
Proof.
  intros [] Hnext Hm HM. split; try done; intros Hr; destruct (ns_leader0 Hr), (HM Hr); [by split | done].
Qed.

(** The index to retry. *)
Lemma sim_newNextIndex a i rf args reply : abstract a -> is_peer n i -> node_sim a i rf ->
  role_ rf = Leader -> current_term_ rf = ae_Term args -> append_sim a args -> ae_LeaderID args = i ->
  failure_reply args reply ->
  exists next, newNextIndex args reply rf = Ok next /\ 0 <= next <= ae_PreviousLogIndex args /\
    ae_PreviousLogIndex args < zlen (logs_ rf).
Proof.
  intros R Hi NS Hlead Hterm (L & y & HL & Hp0 & Hlen & _ & Hy & Hyt & _) Hl HF.
  pose proof (sim_wf a i rf R Hi NS) as W. pose proof (ns_lii _ _ _ NS) as Hlii.
  destruct (ns_leader _ _ _ NS Hlead) as [HLi _]. rewrite <- Hterm, HLi in HL. injection HL as _ <-.
  pose proof (zlen_nonneg (ae_Entries args)).
  destruct (newNextIndex_spec args reply rf W HF) as (next & Hnx & Hb).
  - unfold last_index. lia.
  - intros _. unfold term_at. rewrite (sim_entry a i rf NS). unfold zlookup. rewrite decide_True by lia.
    by rewrite Hy, <- Hyt.
  - exists next. split; [done | lia].
Qed.

Lemma sim_appendEntriesReply a i rf server args reply rf' effs : abstract a -> is_peer n i -> node_sim a i rf ->
  tlog_small a -> me rf = i -> answer_sim a args server reply -> ae_LeaderID args = i ->
  appendEntriesReply server args reply rf = Ok (rf', effs) ->
  exists a', follows a i rf' a' /\ forall args s, (args, s) ∈ calls effs -> append_sim a' args.
Proof.
  intros R Hi NS B Hme (Ha & Hs & Hack) Hlid H. unfold appendEntriesReply in H.
  destruct (ns_sizes _ _ _ NS) as [Hm Hnx].
  assert (forall args s, (args, s) ∈ calls (Cmd := Cmd) [] -> append_sim a args) as Hnil
    by (intros ? ? Hin; by apply elem_of_nil in Hin).
  assert (exists a', follows a i rf a' /\ forall args s, (args, s) ∈ calls (Cmd := Cmd) [] -> append_sim a' args) as Hsame
    by (exists a; split; [by apply follows_refl | done]).
  case_decide.
  { injection H as <- <-.
    destruct (follows_term a i rf R Hi NS B (aer_Term reply) (stepDown (aer_Term reply) rf)) as [b HF]; try done; [lia |].
    exists b. split; [done |]. intros ? ? Hin. by apply elem_of_nil in Hin. }
  case_decide as Hd; [by injection H as <- <- |].
  apply Decidable.not_or in Hd as [Hlead Hterm]. apply dec_stable in Hlead, Hterm.
  destruct (ns_leader _ _ _ NS Hlead) as [HLi HM]. pose proof (ns_next _ _ _ NS Hlead) as HN.
  destruct (aer_Success reply) eqn:Hok; simpl in H.
  - destruct Ha as (L & y & HL & Hp0 & Hlen & _). pose proof (B _ _ _ HL) as HB.
    rewrite <- Hterm, HLi in HL. injection HL as _ <-.
    apply res_bind_ok in H as (m & _ & H). rewrite <- Hterm in Hack.
    pose proof (zlen_nonneg (ae_Entries args)).
    rewrite (u64_small (zlen _)), (u64_small (_ + zlen _)) in H by lia.
    case_decide; [| by injection H as <- <-].
    apply res_bind_ok in H as (ms & [Hsv ->]%slice_set_Ok_inv & H).
    apply res_bind_ok in H as (nx & [_ ->]%slice_set_Ok_inv & H). injection H as <- <-.
    exists a. split; [| done]. apply follows_refl; [| done]. rewrite u64_small by lia.
    apply sim_indexes; [done | by rewrite zlen_insert.. |]. intros _. split.
    + apply Forall_insert; [done | lia].
    + intros s' m'. intros [(<- & <- & _) | [_ Hm']]%list_lookup_insert_Some; [| by apply HM].
      split; [lia |]. rewrite Z2Nat.id by lia. done.
  - destruct (sim_newNextIndex a i rf args reply) as (next & Hnext & Hle & Hlt); try done. rewrite Hnext in H.
    apply res_bind_ok in H as (m & _ & H). cbn [res_bind] in H. rewrite (ns_lii _ _ _ NS) in H.
    case_decide; [by injection H as <- <- |]. case_decide; [by injection H as <- <- |].
    case_decide; [by injection H as <- <- |].
    apply res_bind_ok in H as (nx & [Hsv ->]%slice_set_Ok_inv & H).
    set (rf1 := with_indexes _ _ rf) in H. apply res_bind_ok in H as (effs' & Hh & H). injection H as <- <-.
    assert (node_sim a i rf1) as NS1.
    { apply sim_indexes; [done | by rewrite zlen_insert | done |]. intros _. split; [| done].
      apply Forall_insert; [done | lia]. }
    exists a. split; [by apply follows_refl |]. intros args' s' Hin. by eapply (sim_helper a i rf1) in Hin as [? _].
Qed.

Lemma count_ge_snoc v (l : list Z) x : count_ge v (l ++ [x]) = count_ge v l + (if decide (v <= x) then 1 else 0).
Proof. unfold count_ge. rewrite filter_snoc, zlen_app. by case_decide. Qed.

(** The indices of the elements a count counts. *)
Lemma count_ge_set v (l : list Z) : exists Q : gset Z, Z.of_nat (size Q) = count_ge v l /\
  forall s, s ∈ Q -> 0 <= s < zlen l /\ exists m, l !! Z.to_nat s = Some m /\ v <= m.
Proof.
  induction l as [|x l IH] using rev_ind.
  - exists ∅. split; [done |]. intros s Hs. by apply not_elem_of_empty in Hs.
  - destruct IH as (Q & HQ & HS). rewrite count_ge_snoc.
    assert (zlen (l ++ [x]) = zlen l + 1) as Hz by (unfold zlen; rewrite length_app; simpl; lia).
    assert (forall s, s ∈ Q -> 0 <= s < zlen (l ++ [x]) /\ exists m, (l ++ [x]) !! Z.to_nat s = Some m /\ v <= m) as HS'.
    { intros s Hs. destruct (HS s Hs) as (? & m & ? & ?). split; [lia |].
      exists m. split; [by apply lookup_app_l_Some | done]. }
    case_decide; [| exists Q; split; [lia | done]].
    assert (zlen l ∉ Q) as Hni by (intros [? _]%HS; lia).
    exists ({[zlen l]} ∪ Q). split; [rewrite size_union, size_singleton by set_solver; lia |].
    intros s [->%elem_of_singleton|Hs]%elem_of_union; [| by apply HS'].
    pose proof (zlen_nonneg l). split; [lia |].
    exists x. split; [| done]. unfold zlen. rewrite Nat2Z.id, lookup_app_r, Nat.sub_diag by lia. done.
Qed.

Lemma sim_bound a i rf : abstract a -> is_peer n i -> node_sim a i rf -> commit_index_ rf < zlen (logs_ rf).
Proof.
  intros R Hi NS. destruct (ns_commit _ _ _ NS) as [_ Hc]. eapply committed_bound; [done |].
  pose proof (wf_len _ (sim_wf a i rf R Hi NS)). intros E. rewrite E, zlen_nil in *. lia.
Qed.

Lemma sim_wf_indexes a i rf : abstract a -> is_peer n i -> node_sim a i rf -> peers rf = n -> me rf = i ->
  role_ rf = Leader -> wf_indexes rf.
Proof.
  intros R Hi NS Hp Hme Hr. destruct (ns_sizes _ _ _ NS). destruct (ns_leader _ _ _ NS Hr) as [HL HM].
  pose proof (sim_wf a i rf R Hi NS) as W.
  split; try congruence; [rewrite Hp, Hme; apply Hi | apply NS |].
  apply Forall_lookup. intros s m Hm. destruct (HM s m Hm) as [Hm0 Hack]. unfold last_index.
  rewrite (ns_lii _ _ _ NS). split; [| left; lia].
  destruct (decide (m = 0)) as [->|]; [destruct W; lia |]. specialize (Hack ltac:(lia)).
  destruct (si_ack _ _ (spec_inv_reachable _ _ R) (Z.of_nat s) (current_term_ rf)) as (_ & _ & j & K & HK & ?); [lia |].
  rewrite HL in HK. injection HK as <- <-. unfold zlen. lia.
Qed.

Lemma sim_commit a i rf rf' effs : abstract a -> is_peer n i -> node_sim a i rf -> tlog_small a ->
  peers rf = n -> me rf = i -> commit rf = Ok (rf', effs) -> node_sim a i rf' /\ last_applied_ rf' = last_applied_ rf.
Proof.
  intros R Hi NS B Hp Hme H. unfold commit in H. case_decide as Hr; [by injection H as <- <- |].
  pose proof (sim_wf a i rf R Hi NS) as W. pose proof (sim_wf_indexes a i rf R Hi NS Hp Hme Hr) as WI.
  destruct (majorityIndex_spec rf W WI) as (c & Hc & _ & Hmaj & _). rewrite Hc in H. cbn [res_bind] in H.
  case_decide as Hgt; [| by injection H as <- <-]. apply res_bind_ok in H as (e & He & H).
  case_decide as Hte; [| by injection H as <- <-]. injection H as <- <-. split; [| done].
  destruct (ns_commit _ _ _ NS) as [Hc0 _]. pose proof (ns_len _ _ _ NS) as Hlen.
  destruct (count_ge_set c (matched rf)) as (Q & HQ & HQs).
  assert (c < zlen (logs_ rf)) as Hcl.
  { destruct (decide (Q = ∅)) as [->|Hne].
    - rewrite size_empty in HQ. pose proof (Z.div_pos (peers rf) 2 ltac:(lia) ltac:(lia)). lia.
    - apply set_choose_L in Hne as [s Hs]. destruct (HQs s Hs) as (_ & m & Hm & Hle).
      assert (m ∈ matched rf) as Hin by (by eapply list_elem_of_lookup_2).
      destruct (matched_range rf m W WI Hin) as [Hl _]. unfold last_index in Hl. rewrite (ns_lii _ _ _ NS) in Hl. lia. }
  apply getLogEntry_Ok in He as [_ He]; [| done | lia]. rewrite (sim_entry a i rf NS) in He.
  unfold zlookup in He. rewrite decide_True in He by lia.
  destruct (ns_leader _ _ _ NS Hr) as [HL HM].
  destruct NS. split; try done; simpl; [| lia]. split; [lia |]. right.
  exists (current_term_ rf), (S (Z.to_nat c)), (logs_ rf).
  split_and!; [| done | lia | lia | apply shares_refl; unfold zlen in *; lia].
  exists i, Q, e. split_and!; try done; try lia.
  - by rewrite Nat.sub_succ, Nat.sub_0_r.
  - assert (zlen (matched rf) = n) as Hlm by (unfold matched; rewrite zlen_insert; lia). split.
    + intros s Hs. apply elem_of_peer_set. destruct (HQs s Hs) as [? _]. unfold is_peer. lia.
    + pose proof (Z.mul_succ_div_gt (peers rf) 2 ltac:(lia)). lia.
  - intros s Hs. destruct (HQs s Hs) as (Hs0 & m & Hm & Hle). unfold matched in Hm.
    apply list_lookup_insert_Some in Hm as [(Es & <- & _) | [_ Hm]].
    + assert (s = i) as -> by (unfold is_peer in Hi; lia).
      pose proof (self_ack_reachable n a R _ _ _ HL). unfold zlen in Hcl. lia.
    + destruct (HM _ m Hm) as [_ Hack]. rewrite Z2Nat.id in Hack by lia. specialize (Hack ltac:(lia)). lia.
Qed.

Lemma sim_Start a i rf command rf' r effs : abstract a -> is_peer n i -> node_sim a i rf -> tlog_small a ->
  zlen (logs_ rf) < 2 ^ 63 - 1 -> Start command rf = (rf', r, effs) ->
  exists a', follows a i rf' a'.
Proof.
  intros R Hi NS B Hb. unfold Start. case_decide as Hr; intros [= <- _ _].
  - exists a. by apply follows_refl.
  - eapply (follows_append a i rf R NS B (mkEntry (Some command) (current_term_ rf))); try done.
Qed.

Lemma sim_restart a i rf : abstract a -> is_peer n i -> node_sim a i rf -> peers rf = n -> durable rf ->
  node_sim a i (Make (peers rf) (me rf) (persister rf)).
Proof.
  intros R Hi NS Hp Hd. destruct (Make_recovers (peers rf) (me rf) rf Hd) as (Hs & Hsn & _).
  destruct (votes_restart _ Hd) as (_ & _ & _ & _ & Hrole).
  assert (forall p, commit_index_ (Make (Cmd := Cmd) (peers rf) (me rf) p) = 0 /\
    last_applied_ (Make (Cmd := Cmd) (peers rf) (me rf) p) = 0 /\
    zlen (match_index_ (Make (Cmd := Cmd) (peers rf) (me rf) p)) = n /\
    zlen (next_index_ (Make (Cmd := Cmd) (peers rf) (me rf) p)) = n) as HM.
  { intros p. unfold Make, readPersist. case_decide; [| destruct (decode _)]; simpl; unfold zlen;
      rewrite !length_replicate; split_and!; try done; lia. }
  destruct (HM (persister rf)) as (Ec & Ea & Em & En). unfold persisted in Hs. set (rf' := Make _ _ _) in *.
  injection Hs as Et Ev El Ei _. destruct NS.
  split; unfold vote_sim in *; rewrite ?Et, ?Ev, ?El, ?Ei, ?Ec, ?Ea, ?Hsn, ?Hrole; try done.
  split; [done | by left].
Qed.

(** *** Deliveries *)

Lemma in_order_block (j : nat) (msgs : list (ApplyMsg Cmd)) ds b :
  in_order ds -> 0 <= b -> (0 < b -> exists m, (j, m) ∈ ds /\ CommandIndex m = b) ->
  (forall k m, msgs !! k = Some m -> CommandIndex m = b + 1 + Z.of_nat k) ->
  in_order (rev ((fun m => (j, m)) <$> msgs) ++ ds).
Proof.
  intros Hds Hb Hprev. induction msgs as [|m msgs IH] using rev_ind; intros Hidx; [done |].
  rewrite fmap_app, rev_app_distr. simpl. split.
  - intros Hgt. rewrite (Hidx (length msgs) m) in Hgt |- * by (by rewrite lookup_app_r, Nat.sub_diag by lia).
    destruct (msgs !! pred (length msgs)) as [m'|] eqn:Em.
    + exists m'. split.
      * apply elem_of_app. left. apply list_elem_of_In. rewrite <- in_rev. apply list_elem_of_In, list_elem_of_fmap.
        exists m'. split; [done |]. by eapply list_elem_of_lookup_2.
      * pose proof (lookup_lt_Some _ _ _ Em).
        rewrite (Hidx (pred (length msgs)) m') by (by apply lookup_app_l_Some). lia.
    + apply lookup_ge_None in Em. destruct msgs; [| simpl in Em; lia]. simpl in *.
      destruct (Hprev ltac:(lia)) as (m' & Hm' & ?). exists m'. split; [done | lia].
  - apply IH. intros k m' Hk. apply Hidx. by apply lookup_app_l_Some.
Qed.

Lemma sim_applierCommands a i rf rf' msgs : abstract a -> is_peer n i -> node_sim a i rf -> tlog_small a ->
  applierCommands rf = Ok (rf', msgs) ->
  node_sim a i rf' /\ last_applied_ rf' = last_applied_ rf + zlen msgs /\
  forall (k : nat) m, msgs !! k = Some m ->
    CommandIndex m = last_applied_ rf + 1 + Z.of_nat k /\ message_sim a (Z.to_nat i) m.
Proof.
  intros R Hi NS B H. pose proof (sim_wf a i rf R Hi NS) as W. pose proof (sim_bound a i rf R Hi NS) as Hcb.
  pose proof (ns_applied _ _ _ NS) as Hap. pose proof (ns_len _ _ _ NS) as Hb.
  destruct (applierCommands_sends rf W) as (msgs' & H' & Hlen & Hmsg).
  { rewrite (ns_lii _ _ _ NS). lia. } { unfold last_index. rewrite (ns_lii _ _ _ NS). lia. } { lia. }
  rewrite H in H'. injection H' as -> <-. split_and!.
  - destruct NS. split; try done. simpl. lia.
  - simpl. lia.
  - intros k m Hk. pose proof (lookup_lt_Some _ _ _ Hk) as Hlt.
    destruct (Hmsg k) as [E _]; [unfold zlen; lia |]. rewrite Hk in E. unfold msg_for in E.
    symmetry in E. apply fmap_Some in E as (e & He & ->). simpl. split; [done |].
    rewrite (sim_entry a i rf NS) in He. unfold zlookup in He. rewrite decide_True in He by lia.
    split_and!; [by rewrite Z2Nat.id by (unfold is_peer in Hi; lia) | done | simpl; lia |].
    destruct (ns_commit _ _ _ NS) as [_ [E0|(t & k' & L & Hc & _ & _ & Hk' & Hs)]];
      [unfold zlen in Hlen; lia |].
    unfold zlen in Hlen. exists t, k', L, e. simpl. split_and!; [done | lia | | done].
    rewrite (shares_lookup _ _ _ _ Hs) by lia. done.
Qed.

(** ** The refinement *)

Lemma follows_sim rc a rc' a' i : sim rc a -> abstract a -> follows a i (peer rc' i) a' ->
  (forall j, is_peer n j -> j <> i -> peer rc' j = peer rc j) ->
  (forall args s, (args, s) ∈ requests (base rc') -> (args, s) ∈ requests (base rc) \/ request_sim a' args) ->
  (forall args s r, (args, s, r) ∈ replies (base rc') -> (args, s, r) ∈ replies (base rc) \/ reply_sim a' args s r) ->
  (forall args s, (args, s) ∈ appends rc' -> (args, s) ∈ appends rc \/ append_sim a' args) ->
  (forall args s r, (args, s, r) ∈ answers rc' -> (args, s, r) ∈ answers rc \/ answer_sim a' args s r) ->
  applied rc' = applied rc ->
  (is_peer n i -> 0 <= last_applied_ (peer rc' i) <= last_applied_ (peer rc i)) ->
  sim rc' a'.
Proof.
  intros S R HF Hn' H1 H2 H3 H4 Ha Hl. pose proof HF as (_ & HN & HB).
  apply (sim_update rc a rc' a' i []); try done.
  - by eapply follows_evolves.
  - intros s m Hm. by apply elem_of_nil in Hm.
  - intros Hi k Hk. rewrite Ha. apply (sm_delivered _ _ S); [done |]. specialize (Hl Hi). lia.
  - rewrite Ha. apply (sm_order _ _ S).
Qed.

(** Who applies: only the applier moves [last_applied_]. *)
Lemma applied_RequestVote now args rf rf' reply :
  RequestVote now args rf = Ok (rf', reply) -> last_applied_ rf' = last_applied_ rf.
Proof.
  unfold RequestVote, requestVoteBody. intros H. repeat (case_decide; res_inv; try done).
Qed.

Lemma applied_AppendEntries now args rf rf' reply effs :
  AppendEntries now args rf = Ok (rf', reply, effs) -> last_applied_ rf' = last_applied_ rf.
Proof.
  unfold AppendEntries. intros H. case_decide; [by injection H as <- _ _ |].
  apply appendEntriesBody_frame in H as (_ & _ & _ & -> & _). simpl. by case_decide.
Qed.

Lemma applied_startElection now rf rf' args :
  startElection now rf = Ok (rf', args) -> last_applied_ rf' = last_applied_ rf.
Proof. unfold startElection. intros H. by res_inv. Qed.

Lemma applied_voteReply args reply count rf rf' count' fin effs :
  voteReply args reply count rf = (rf', count', fin, effs) -> last_applied_ rf' = last_applied_ rf.
Proof. unfold voteReply. intros H. by go_cases_in H; simplify_eq. Qed.

Lemma applied_appendEntriesReply server args reply rf rf' effs :
  appendEntriesReply server args reply rf = Ok (rf', effs) -> last_applied_ rf' = last_applied_ rf.
Proof.
  unfold appendEntriesReply. intros H. destruct (aer_Success reply); simpl in H; repeat (case_decide; res_inv; try done).
Qed.

Lemma applied_Start command rf rf' r effs :
  Start command rf = (rf', r, effs) -> last_applied_ rf' = last_applied_ rf.
Proof. unfold Start. case_decide; by intros [= <- _ _]. Qed.

(** The votes of [RaftElection] are votes of the specification. *)
Lemma voted_sim rc a s t c : sim rc a -> voted (base rc) s t c -> exists V, a_vote a s t = Some (c, V).
Proof.
  intros S [(args & r & Hr & G & <- & <-) | (-> & args & k & Hq & <- & <-)].
  - by apply (sm_reply _ _ S) in Hr; [apply Hr | ..].
  - apply (sm_request _ _ S) in Hq as (V & e & HV & _). eauto.
Qed.

Lemma sim_election rc a cl : sim rc a -> abstract a -> inv n (base rc) -> small n rc ->
  inv n cl -> ~ starts_while_leader n (base rc) cl -> election_step n (base rc) cl ->
  exists i a', spec_steps n a i a' /\ sim (set_base cl rc) a'.
Proof.
  intros S R I Hsm I' Hq H.
  pose proof (sm_tlog _ _ S : tlog_small a) as B.
  assert (forall i j rf, j <> i -> <[i := rf]> (node (base rc)) j = node (base rc) j) as Hother
    by (intros; by apply fn_insert_ne).
  destruct H as [i now args rf reply Hi Hin Hv | i e before after server reply rf count fin effs Hi He Hs Hr Hv
    | i e before after server Hi He Hs | i Hi Ht | i now rf args Hi Hst Hv].
  all: pose proof (sm_node _ _ S i Hi) as NS; destruct (inv_nodes _ _ I i Hi) as (Hp & Hme & _ & Hd).
  - destruct (sim_RequestVote a i (peer rc i) now args rf reply) as (a' & HF & Hrep); try done.
    { by eapply (sm_request _ _ S). }
    { pose proof (inv_requests _ _ I _ _ Hin) as Hc. apply Hc. }
    exists i, a'. split; [apply HF |].
    apply (follows_sim rc a _ a' i); try done; unfold peer; simpl; rewrite ?fn_insert_eq; auto.
    + intros ag s r [[= -> -> ->]|?]%elem_of_cons; auto.
    + intros _. rewrite (applied_RequestVote _ _ _ _ _ Hv). pose proof (ns_applied _ _ _ NS). unfold peer in *. lia.
  - destruct (sim_voteReply a i (peer rc i) R Hi NS B (el_args e) reply (el_count e) rf count fin effs) as (a' & HF); try done.
    { destruct (decide (current_term_ rf = current_term_ (peer rc i))) as [Et|]; [left | by right].
      intros Hl. destruct (inv_leader _ _ I' i Hi) as (Q & HQ & Hsz & HV); [simpl; by rewrite fn_insert_eq |].
      exists Q. split; [done |]. intros s Hs'. specialize (HV s Hs'). simpl in HV. rewrite fn_insert_eq, Et in HV.
      by eapply (voted_sim rc) in HV. }
    exists i, a'. split; [apply HF |].
    apply (follows_sim rc a _ a' i); try done; unfold peer; simpl; rewrite ?fn_insert_eq; auto.
    intros _. rewrite (applied_voteReply _ _ _ _ _ _ _ _ Hv). pose proof (ns_applied _ _ _ NS). unfold peer in *. lia.
  - exists i, a. split; [apply rtc_refl |].
    apply (follows_sim rc a _ a i); auto; [by apply follows_refl |].
    intros _. pose proof (ns_applied _ _ _ NS). unfold peer in *. simpl. lia.
  - exists i, a. split; [apply rtc_refl |].
    apply (follows_sim rc a _ a i); auto; [by apply follows_refl |].
    intros _. pose proof (ns_applied _ _ _ NS). unfold peer in *. simpl. lia.
  - assert (role_ (peer rc i) <> Leader) as Hnl.
    { intros Hl. apply Hq. exists i. simpl. rewrite !fn_insert_eq. split_and!; try done.
      destruct (inv_nodes _ _ I i Hi) as (_ & _ & Ht & _). destruct (Hsm i Hi) as [Hw _].
      by destruct (votes_startElection _ _ _ _ Hv) as (_ & _ & -> & _). }
    destruct (Hsm i Hi) as [Hw _].
    destruct (sim_startElection a i (peer rc i) R Hi NS B now rf args) as (a' & HF & Hreq); try done.
    exists i, a'. split; [apply HF |].
    apply (follows_sim rc a _ a' i); try done; unfold peer; simpl; rewrite ?fn_insert_eq; auto.
    + intros ag s [(x & [= -> ->] & _)%list_elem_of_fmap|?]%elem_of_app; auto.
    + intros _. rewrite (applied_startElection _ _ _ _ Hv). pose proof (ns_applied _ _ _ NS). unfold peer in *. lia.
Qed.

(** A step of a peer that only moves its own state and sends calls or
    answers. *)
Lemma sim_own rc a rc' a' i rf : sim rc a -> abstract a -> is_peer n i -> follows a i rf a' ->
  base rc' = set_node i rf (base rc) -> last_applied_ rf = last_applied_ (peer rc i) -> applied rc' = applied rc ->
  (forall args s, (args, s) ∈ appends rc' -> (args, s) ∈ appends rc \/ append_sim a' args) ->
  (forall args s r, (args, s, r) ∈ answers rc' -> (args, s, r) ∈ answers rc \/ answer_sim a' args s r) ->
  sim rc' a'.
Proof.
  intros S R Hi HF Eb El Ea H3 H4. pose proof (sm_node _ _ S i Hi) as NS.
  apply (follows_sim rc a rc' a' i); unfold peer; rewrite ?Eb; simpl; rewrite ?fn_insert_eq; auto.
  - intros j _ Hj. by rewrite fn_insert_ne.
  - intros _. rewrite El. pose proof (ns_applied _ _ _ NS). unfold peer in *. lia.
Qed.

Lemma sim_step rc a rc' : sim rc a -> abstract a -> inv n (base rc) -> rc_quiet n rc rc' ->
  exists i a', spec_steps n a i a' /\ sim rc' a'.
Proof.
  intros S R I Hstep. destruct Hstep as (H & Hq & Hsm).
  assert (inv n (base rc')) as I'.
  { destruct (rc_quiet_base n rc rc') as [->|Hs]; [done | done |]. by eapply inv_step. }
  pose proof (sm_tlog _ _ S : tlog_small a) as B.
  destruct H as [rc' [cl H | i now Hi | i now args rf reply effs Hi Hin H | i server args reply rf effs Hi Hin Hl H
    | i effs Hi H | i rf effs Hi H] | i Hi | i command rf r effs Hi H | i rf msgs Hi H].
  1: by apply sim_election.
  all: pose proof (sm_node _ _ S i Hi) as NS; destruct (inv_nodes _ _ I i Hi) as (Hp & Hme & _ & Hd).
  - exists i, a. split; [apply rtc_refl |].
    apply (sim_own rc a _ a i (tickerFollower now (peer rc i))); auto.
    + apply follows_refl; [| done]. unfold tickerFollower. case_decide; [| done]. by apply (sim_frame _ _ (peer rc i)).
    + unfold tickerFollower. by case_decide.
  - destruct (sim_AppendEntries a i (peer rc i) now args rf reply effs) as (a' & HF & Hans); try done.
    { by eapply (sm_append _ _ S). }
    exists i, a'. split; [apply HF |]. apply (sim_own rc a _ a' i rf); auto.
    + by eapply applied_AppendEntries.
    + intros ag s r' [[= -> -> ->]|?]%elem_of_cons; auto.
  - destruct (sim_appendEntriesReply a i (peer rc i) server args reply rf effs) as (a' & HF & Hcalls); try done.
    { by apply (sm_answer _ _ S). }
    exists i, a'. split; [apply HF |]. apply (sim_own rc a _ a' i rf); auto.
    + by eapply applied_appendEntriesReply.
    + intros ag s [?|?]%elem_of_app; eauto.
  - exists i, a. split; [apply rtc_refl |].
    apply (follows_sim rc a _ a i); auto; [by apply follows_refl | |].
    + intros ag s [?|?]%elem_of_app; [right | by left]. by eapply (sim_entriesSender a i (peer rc i)).
    + intros _. pose proof (ns_applied _ _ _ NS). unfold peer in *. simpl. lia.
  - destruct (sim_commit a i (peer rc i) rf effs) as [NS' Ha]; try done.
    exists i, a. split; [apply rtc_refl |]. apply (sim_own rc a _ a i rf); auto. by apply follows_refl.
  - pose proof (sim_restart a i (peer rc i) R Hi NS Hp Hd) as NS'.
    exists i, a. split; [apply rtc_refl |].
    apply (follows_sim rc a _ a i); try done; unfold peer; simpl; rewrite ?fn_insert_eq; auto.
    { by apply follows_refl. }
    { intros j _ Hj. by rewrite fn_insert_ne. }
    intros _. pose proof (ns_applied _ _ _ NS). unfold peer in *.
    unfold Make, readPersist. case_decide; [| destruct (decode _)]; simpl; lia.
  - destruct (sim_Start a i (peer rc i) command rf r effs) as (a' & HF); try done; [by destruct (Hsm i Hi) |].
    exists i, a'. split; [apply HF |]. apply (sim_own rc a _ a' i rf); auto. by eapply applied_Start.
  - destruct (sim_applierCommands a i (peer rc i) rf msgs) as (NS' & Ha & Hm); try done.
    exists i, a. split; [apply rtc_refl |]. pose proof (ns_applied _ _ _ NS) as Hap0.
    assert (forall (s : nat) m, (s, m) ∈ rev ((fun m => (Z.to_nat i, m)) <$> msgs) -> s = Z.to_nat i /\ m ∈ msgs) as Hrev.
    { intros s m Hin%list_elem_of_In%in_rev%list_elem_of_In%list_elem_of_fmap. naive_solver. }
    apply (sim_update rc a _ a i (rev ((fun m => (Z.to_nat i, m)) <$> msgs))); auto.
    + apply evolves_refl.
    + intros j _ Hj. unfold peer. simpl. by rewrite fn_insert_ne.
    + intros _. unfold peer. simpl. by rewrite fn_insert_eq.
    + intros s m [-> Hin]%Hrev. apply list_elem_of_lookup in Hin as [k Hk]. by apply Hm in Hk as [_ ?].
    + intros _ k. unfold peer. simpl. rewrite fn_insert_eq, Ha. intros Hk.
      destruct (decide (k <= last_applied_ (peer rc i))) as [?|?].
      * destruct (sm_delivered _ _ S i k Hi) as (m & Hin & Hc); [unfold peer in *; lia |].
        exists m. split; [| done]. apply elem_of_app. by right.
      * destruct (lookup_lt_is_Some_2 msgs (Z.to_nat (k - last_applied_ (peer rc i) - 1))) as [m Hk'];
          [unfold zlen, peer in *; lia |].
        exists m. destruct (Hm _ _ Hk') as [Hc _]. split; [| unfold peer in *; lia].
        apply elem_of_app. left. apply list_elem_of_In. rewrite <- in_rev. apply list_elem_of_In, list_elem_of_fmap.
        exists m. split; [done |]. by eapply list_elem_of_lookup_2.
    + apply (in_order_block _ _ _ (last_applied_ (peer rc i))); [apply (sm_order _ _ S) | lia | |].
      * intros Hpos. apply (sm_delivered _ _ S); [done | lia].
      * intros k m Hk. by apply Hm in Hk as [? _].
Qed.

Definition spec_start : AState :=
  mkA (fun _ => 0) (fun _ => [zeroEntry]) (fun _ _ => None) (fun _ => None) (fun _ _ => 0%nat).

Lemma sim_init rc : rc_init n rc -> sim rc spec_start.
Proof.
  intros ((Hnode & _ & _ & Hq & Hr) & Hap & Han & Happ).
  split; rewrite ?Hq, ?Hr, ?Hap, ?Han, ?Happ; try done;
    try (by intros ? ? ?%elem_of_nil); try (by intros ? ? ? ?%elem_of_nil).
  - intros i Hi. unfold peer. rewrite Hnode by done. split; try done; simpl.
    + unfold zlen. rewrite !length_replicate. unfold is_peer in Hi. lia.
    + split; [done | by left].
  - intros i k Hi Hk. unfold peer in Hk. rewrite Hnode in Hk by done. simpl in Hk. lia.
Qed.

Lemma spec_start_reachable : abstract spec_start.
Proof. apply reach_init. by split_and!. Qed.

Lemma sim_reachable rc : reachable (rc_init n) (rc_quiet n) rc -> exists a, abstract a /\ sim rc a.
Proof.
  induction 1 as [rc H | rc rc' HR IH H].
  - exists spec_start. split; [apply spec_start_reachable | by apply sim_init].
  - destruct IH as (a & R & S).
    destruct (sim_step rc a rc' S R) as (i & a' & HS & S'); [| done |].
    + apply quiet_inv; [done |]. by apply base_reachable.
    + exists a'. split; [by eapply spec_steps_reachable | done].
Qed.
End Sim.
