(* ===== verification/RaftSafety.v ===== *)
(** * Safety of the Raft cluster

    What follows from the refinement of [RaftRefine] for the peers
    running the code of [raft1/raft.go]: log matching, leader
    completeness, state machine safety, what the Raft tests conclude from
    it, and that no critical section of the cluster panics.  All of it for
    the executions of [rc_quiet]: without the race of the ticker that
    [two_leaders_reachable] shows, without snapshots, and with terms and
    logs below the ends of their types. *)
From S2P Require Import RaftTester.
From S2P Require Import Prelude Persister RaftNode RaftStep RaftElection RaftElectionRun RaftLog RaftSpec RaftFollower RaftApply RaftLeader RaftCluster RaftRefine.
#[local] Open Scope Z_scope.

Section Safety.
Context {Cmd : Type} `{!Codec (RaftState Cmd)}.
Variable n : Z.
Hypothesis Hn : 0 <= n.
Implicit Types (rc : RCluster (Cmd := Cmd)) (a : AState (Cmd := Cmd)) (rf : Raft Cmd).

(** ** Agreement of the logs *)

Lemma sim_log_entry rc a i k : sim n rc a -> is_peer n i -> 0 <= k ->
  entry_at (peer rc i) k = a_log a i !! Z.to_nat k.
Proof.
  intros S Hi Hk. pose proof (sm_node _ _ _ S i Hi) as NS. rewrite (sim_entry n a i _ NS).
  unfold zlookup. rewrite decide_True by done. by rewrite (ns_log _ _ _ _ NS).
Qed.

Lemma sim_matching rc a i j k x y : reachable spec_init (spec_step n) a -> sim n rc a ->
  is_peer n i -> is_peer n j -> 0 <= k ->
  entry_at (peer rc i) k = Some x -> entry_at (peer rc j) k = Some y -> Term_ x = Term_ y ->
  forall k', 0 <= k' <= k -> entry_at (peer rc i) k' = entry_at (peer rc j) k'.
Proof.
  intros R S Hi Hj Hk Hx Hy Ht k' Hk'. pose proof (spec_inv_reachable _ _ R) as I.
  rewrite !(sim_log_entry rc a) in * by (done || lia).
  destruct (si_log _ _ I i Hi) as (_ & Hci & _). destruct (si_log _ _ I j Hj) as (_ & Hcj & _).
  apply (shares_lookup _ _ _ _ (chain_matching a _ _ _ _ _ Hci Hcj Hx Hy Ht)). lia.
Qed.

(** Two committed prefixes agree. *)
Lemma committed_agree a T c l T' c' l' : spec_inv n a -> committed n a T c l -> committed n a T' c' l' ->
  0 < c <= c' -> shares (S (Z.to_nat c)) l l'.
Proof.
  intros I [->|(t & k & L & Hc & _ & _ & Hk & Hs)] [->|(t' & k' & L' & Hc' & _ & _ & Hk' & Hs')] Hle; try lia.
  apply (shares_trans _ _ L); [by apply shares_sym |]. apply (shares_trans _ _ L').
  - eapply shares_le; [| apply (chosen_agree n a t k L t' k' L' Hn I Hc Hc')]. lia.
  - eapply shares_le; [| exact Hs']. lia.
Qed.

Lemma sim_committed_agree rc a i j k : reachable spec_init (spec_step n) a -> sim n rc a ->
  is_peer n i -> is_peer n j -> 0 < k <= commit_index_ (peer rc i) -> k <= commit_index_ (peer rc j) ->
  entry_at (peer rc i) k = entry_at (peer rc j) k /\ is_Some (entry_at (peer rc i) k).
Proof.
  intros R S Hi Hj Hk Hk'. pose proof (spec_inv_reachable _ _ R) as I.
  pose proof (sm_node _ _ _ S i Hi) as NSi. pose proof (sm_node _ _ _ S j Hj) as NSj.
  destruct (ns_commit _ _ _ _ NSi) as [_ Hci]. destruct (ns_commit _ _ _ _ NSj) as [_ Hcj].
  apply (committed_down _ _ _ _ k) in Hci; [| lia]. apply (committed_down _ _ _ _ k) in Hcj; [| lia].
  pose proof (committed_agree a _ k _ _ k _ I Hci Hcj ltac:(lia)) as Hs.
  rewrite !(sim_entry n a _ _ NSi), (sim_entry n a _ _ NSj). unfold zlookup. rewrite !decide_True by lia.
  split; [apply (shares_lookup _ _ _ _ Hs); lia |]. apply lookup_lt_is_Some_2. destruct Hs as (_ & ? & _). lia.
Qed.

Lemma sim_leader_complete rc a i j k : reachable spec_init (spec_step n) a -> sim n rc a ->
  is_peer n i -> is_peer n j -> role_ (peer rc j) = Leader ->
  current_term_ (peer rc i) <= current_term_ (peer rc j) -> 0 <= k <= commit_index_ (peer rc i) ->
  entry_at (peer rc j) k = entry_at (peer rc i) k.
Proof.
  intros R S Hi Hj Hl Ht Hk. pose proof (spec_inv_reachable _ _ R) as I.
  pose proof (sm_node _ _ _ S i Hi) as NSi. pose proof (sm_node _ _ _ S j Hj) as NSj.
  destruct (ns_leader _ _ _ _ NSj Hl) as [HL _]. destruct (ns_commit _ _ _ _ NSi) as [_ Hc].
  destruct (decide (commit_index_ (peer rc i) = 0)) as [E|Hne].
  - assert (k = 0) as -> by lia. rewrite !(sim_log_entry rc a) by done.
    destruct (si_log _ _ I i Hi) as (_ & [Ei _] & _). destruct (si_log _ _ I j Hj) as (_ & [Ej _] & _).
    change (Z.to_nat 0) with 0%nat. congruence.
  - destruct (committed_leader n Hn _ _ _ _ _ _ _ I Hc HL Ht) as [_ Hs].
    rewrite (sim_entry n a _ _ NSi), (sim_entry n a _ _ NSj). unfold zlookup. rewrite !decide_True by lia.
    symmetry. apply (shares_lookup _ _ _ _ (Hs ltac:(lia))). lia.
Qed.

(** ** What the services see *)

Lemma sim_agree rc a : reachable spec_init (spec_step n) a -> sim n rc a -> agree (applied rc).
Proof.
  intros R S i m j m' Him Hjm Hk. pose proof (spec_inv_reachable _ _ R) as I.
  destruct (sm_applied _ _ _ S _ _ Him) as (_ & _ & _ & t & k & L & e & Hc & Hlt & He & ->).
  destruct (sm_applied _ _ _ S _ _ Hjm) as (_ & _ & _ & t' & k' & L' & e' & Hc' & Hlt' & He' & ->).
  rewrite <- Hk in Hlt', He'.
  rewrite (shares_lookup _ _ _ _ (chosen_agree n a t k L t' k' L' Hn I Hc Hc')) in He by lia. congruence.
Qed.

Lemma sim_valid rc a : sim n rc a -> valid (Z.to_nat n) (applied rc).
Proof.
  intros S i m Him. destruct (sm_applied _ _ _ S _ _ Him) as ([_ Hi] & Hv & _). split; [lia | done].
Qed.

(** ** No panic *)

Section Ok.
Variables (a : AState (Cmd := Cmd)) (i : Z) (rf : Raft Cmd).
Hypothesis R : reachable spec_init (spec_step n) a.
Hypothesis Hi : is_peer n i.
Hypothesis NS : node_sim n a i rf.
Hypothesis B : tlog_small a.

Lemma AppendEntries_ok now args : append_sim n a args -> is_ok (AppendEntries now args rf).
Proof.
  intros (L & y & HL & Hp0 & Hlen & _). pose proof (B _ _ _ HL) as HB. pose proof (sim_wf n a i rf R Hi NS) as W.
  destruct (decide (ae_Term args < current_term_ rf)) as [Hlt|Hge].
  { unfold AppendEntries. rewrite decide_True by done. apply is_ok_Ok. }
  rewrite AppendEntries_heard by lia. pose proof (heard_leader_wf now (ae_Term args) rf W) as W1.
  destruct (heard_leader_logs now (ae_Term args) rf) as (_ & Ei & _). set (rf1 := heard_leader _ _ _) in *.
  pose proof (zlen_nonneg (ae_Entries args)).
  destruct (decide (last_included_index_ rf1 <= ae_PreviousLogIndex args <= last_index rf1 /\
    term_at rf1 (ae_PreviousLogIndex args) = Some (ae_PreviousLogTerm args))) as [[Hr Ht]|Hno].
  - unfold term_at in Ht. apply fmap_Some in Ht as (e & He & Hte).
    destruct (appendEntriesBody_accepts args rf1 e W1) as (rf' & effs & -> & _); try done; [lia | apply is_ok_Ok].
  - destruct (appendEntriesBody_rejects args rf1 W1 Hno) as (reply & -> & _). apply is_ok_Ok.
Qed.

Lemma helper_ok server : role_ rf = Leader -> is_peer n server -> is_ok (sendAppendEntriesHelper server rf).
Proof.
  intros Hr Hs. unfold is_peer in Hs. destruct (ns_sizes _ _ _ _ NS) as [Hm Hnx].
  pose proof (sim_wf n a i rf R Hi NS) as W. pose proof (ns_lii _ _ _ _ NS) as Hlii. pose proof (ns_len _ _ _ _ NS).
  unfold sendAppendEntriesHelper. destruct (slice_get_ok (next_index_ rf) server) as (next & Hnext & ->); [lia |].
  cbn [res_bind]. case_decide; [apply is_ok_Ok |].
  assert (0 < next <= zlen (logs_ rf)) as Hb.
  { pose proof (ns_next _ _ _ _ NS Hr) as HF. rewrite Forall_lookup in HF. unfold zlookup in Hnext.
    rewrite decide_True in Hnext by lia. by eapply HF. }
  rewrite !u64_small by lia. destruct (getLogEntry_wf rf (next - 1) W) as (e & _ & ->); [lia |]. cbn [res_bind].
  destruct (slice_get_ok (match_index_ rf) server) as (m & _ & ->); [lia |]. cbn [res_bind].
  case_decide; [| apply is_ok_Ok]. unfold getLogSliceCopy. rewrite getLogLength_wf by done.
  rewrite getLogSlice_wf by (done || lia). apply is_ok_Ok.
Qed.

Lemma sendToPeers_ok m : role_ rf = Leader -> forall j, 0 <= j -> j + Z.of_nat m <= n -> is_ok (sendToPeers m j rf).
Proof.
  intros Hr. induction m as [|m IH]; intros j Hj Hle; simpl; [apply is_ok_Ok |].
  assert (is_ok (if decide (j = me rf) then Ok [] else sendAppendEntriesHelper j rf)) as [effs ->].
  { case_decide; [apply is_ok_Ok |]. apply helper_ok; [done |]. unfold is_peer. lia. }
  cbn [res_bind]. destruct (IH (j + 1)) as [rest ->]; [lia.. |]. apply is_ok_Ok.
Qed.

Lemma entriesSender_ok : peers rf = n -> is_ok (entriesSender rf).
Proof.
  intros Hp. unfold entriesSender. case_decide; [apply is_ok_Ok |]. apply sendToPeers_ok; [done | lia |].
  rewrite Hp. lia.
Qed.

Lemma commit_ok : peers rf = n -> me rf = i -> is_ok (commit rf).
Proof.
  intros Hp Hme. unfold commit. case_decide as Hr; [apply is_ok_Ok |].
  pose proof (sim_wf n a i rf R Hi NS) as W. pose proof (sim_wf_indexes n a i rf R Hi NS Hp Hme Hr) as WI.
  destruct (majorityIndex_spec rf W WI) as (c & -> & Hin & _). cbn [res_bind].
  case_decide; [| apply is_ok_Ok]. destruct (matched_range rf c W WI Hin) as [Hl _]. unfold last_index in Hl.
  destruct (ns_commit _ _ _ _ NS). pose proof (ns_lii _ _ _ _ NS).
  destruct (getLogEntry_wf rf c W) as (e & _ & ->); [lia |]. cbn [res_bind]. case_decide; apply is_ok_Ok.
Qed.

Lemma appendEntriesReply_ok server args reply : answer_sim n a args server reply -> ae_LeaderID args = i ->
  is_ok (appendEntriesReply server args reply rf).
Proof.
  intros (Ha & Hs & Hans) Hl. unfold is_peer in Hs. destruct (ns_sizes _ _ _ _ NS) as [Hm Hnx].
  unfold appendEntriesReply. case_decide; [apply is_ok_Ok |]. case_decide as Hd; [apply is_ok_Ok |].
  apply Decidable.not_or in Hd as [Hlead Hterm]. apply dec_stable in Hlead, Hterm.
  destruct (slice_get_ok (match_index_ rf) server) as (m & _ & Hget); [lia |].
  destruct (aer_Success reply) eqn:Hok; simpl; rewrite Hget; cbn [res_bind].
  - case_decide; [| apply is_ok_Ok]. unfold slice_set. rewrite !decide_True by lia. apply is_ok_Ok.
  - case_decide; [apply is_ok_Ok |].
    destruct (sim_newNextIndex n a i rf args reply) as (next & -> & Hle & Hlt); try done. cbn [res_bind].
    case_decide; [apply is_ok_Ok |]. case_decide; [apply is_ok_Ok |].
    unfold slice_set. rewrite decide_True by lia. cbn [res_bind]. rewrite (ns_lii _ _ _ _ NS) in *.
    pose proof (sim_wf n a i rf R Hi NS) as W. pose proof (ns_lii _ _ _ _ NS) as Hlii. pose proof (ns_len _ _ _ _ NS).
    set (rf1 := with_indexes _ _ rf). assert (wf_log rf1) as W1 by (by apply (wf_log_frame rf)).
    unfold sendAppendEntriesHelper, slice_get. simpl. rewrite zlookup_insert_eq by lia. cbn [res_bind]. rewrite Hlii.
    rewrite decide_False by lia. rewrite !u64_small by lia.
    destruct (getLogEntry_wf rf1 (next - 1) W1) as (e & _ & ->); [simpl; lia |]. cbn [res_bind].
    apply slice_get_Ok_inv in Hget. rewrite Hget. cbn [res_bind].
    case_decide; [| apply is_ok_Ok]. unfold getLogSliceCopy. rewrite getLogLength_wf by done.
    rewrite getLogSlice_wf by (done || (simpl; lia)). apply is_ok_Ok.
Qed.

Lemma applierCommands_ok : is_ok (applierCommands rf).
Proof.
  pose proof (sim_wf n a i rf R Hi NS) as W. pose proof (sim_bound n a i rf R Hi NS).
  pose proof (ns_lii _ _ _ _ NS). pose proof (ns_applied _ _ _ _ NS). pose proof (ns_len _ _ _ _ NS).
  destruct (applierCommands_sends rf W) as (msgs & -> & _); unfold last_index; [lia.. | apply is_ok_Ok].
Qed.

Lemma startElection_ok now : is_ok (startElection now rf).
Proof.
  unfold startElection. cbn [res_bind]. set (rf1 := newElection now rf).
  change (getLogEntry (u64 (getLogLength rf1 - 1)) rf1) with (getLogEntry (u64 (getLogLength rf - 1)) rf).
  destruct (last_log n a i rf R Hi NS) as (e & _ & ->). apply is_ok_Ok.
Qed.
End Ok.
End Safety.

(** ** Properties *)
Section Properties.
Context {Cmd : Type} `{!Codec (RaftState Cmd)}.
Implicit Types (rc : RCluster (Cmd := Cmd)).


(** C10: Log matching. In every execution in which no peer becomes leader
    between the role test of its [ticker] and the [startElection] that
    follows, no snapshot is taken, terms stay below 2^64 - 1 and logs below
    2^63 - 1 entries: if the logs of two peers hold entries of the same term
    at the same index, they are the same up to there. *)
Theorem log_matching n rc i j k x y : 0 <= n -> reachable (rc_init n) (rc_quiet n) rc ->
  is_peer n i -> is_peer n j -> 0 <= k ->
  entry_at (peer rc i) k = Some x -> entry_at (peer rc j) k = Some y -> Term_ x = Term_ y ->
  forall k', 0 <= k' <= k -> entry_at (peer rc i) k' = entry_at (peer rc j) k'.
Proof.
  intros Hn HR. destruct (sim_reachable n Hn rc HR) as (a & R & S). by apply (sim_matching n rc a).
Qed.

(** C9: Leader completeness. In every execution in which no peer becomes
    leader between the role test of its [ticker] and the [startElection]
    that follows, no snapshot is taken, terms stay below 2^64 - 1 and logs
    below 2^63 - 1 entries, a leader holds every entry that any peer of its
    term or an earlier one knows to be committed. *)
Theorem committed_at_leader n rc i j k : 0 <= n -> reachable (rc_init n) (rc_quiet n) rc ->
  is_peer n i -> is_peer n j -> role_ (peer rc j) = Leader ->
  current_term_ (peer rc i) <= current_term_ (peer rc j) -> 0 <= k <= commit_index_ (peer rc i) ->
  entry_at (peer rc j) k = entry_at (peer rc i) k.
Proof.
  intros Hn HR. destruct (sim_reachable n Hn rc HR) as (a & R & S). by apply (sim_leader_complete n Hn rc a).
Qed.

(** C5: State machine safety.  No two servers are ever given different
    commands for one index, not even before and after a crash; each
    server gets the index below first; and any two peers hold the same
    entries as far as both have committed. *)
Theorem state_machine_safety n rc : 0 <= n -> reachable (rc_init n) (rc_quiet n) rc ->
  agree (applied rc) /\ in_order (applied rc) /\
  forall i j k, is_peer n i -> is_peer n j ->
    0 < k <= commit_index_ (peer rc i) -> k <= commit_index_ (peer rc j) ->
    entry_at (peer rc i) k = entry_at (peer rc j) k /\ is_Some (entry_at (peer rc i) k).
Proof.
  intros Hn HR. destruct (sim_reachable n Hn rc HR) as (a & R & S).
  split_and!; [by apply (sim_agree n Hn rc a) | apply (sm_order _ _ _ S) | intros; by apply (sim_committed_agree n Hn rc a)].
Qed.

(** C13: The checks of the Raft tests do not fail: in every execution in
    which no peer becomes leader between the role test of its [ticker] and
    the [startElection] that follows, no snapshot is taken, terms stay below
    2^64 - 1 and logs below 2^63 - 1 entries, the servers that read the
    apply channels and the tester they report to record no error. *)
Theorem tester_sees_no_error `{EqDecision Cmd} n rc : 0 <= n -> reachable (rc_init n) (rc_quiet n) rc ->
  exists ts, deliver (Z.to_nat n) (applied rc) = Ok ts /\ no_error ts.
Proof.
  intros Hn HR. destruct (sim_reachable n Hn rc HR) as (a & R & S).
  destruct (deliver_spec (Z.to_nat n) (applied rc) (sim_valid n rc a S)) as (ts & H & _ & _ & E).
  exists ts. split; [done |]. apply E. split; [by apply (sim_agree n Hn rc a) | apply (sm_order _ _ _ S)].
Qed.

(** C11: In every execution in which no peer becomes leader between the role
    test of its [ticker] and the [startElection] that follows, no snapshot
    is taken, terms stay below 2^64 - 1 and logs below 2^63 - 1 entries,
    none of the critical sections that index the log or a table panics, on
    any message that can be in flight: [RequestVote], [AppendEntries], the
    answer to it, the sender of entries, [commit], the applier and
    [startElection] find every index in range, and the loops that search the
    log end within their fuel. Outside of these conditions some do:
    [applier_panics_after_restart], [applier_panics_on_second_snapshot] and
    [stale_leader_panics] are executions with snapshots. *)
Theorem raft_never_panics n rc i : 0 <= n -> reachable (rc_init n) (rc_quiet n) rc -> is_peer n i ->
  (forall now args, (args, i) ∈ requests (base rc) -> is_ok (RequestVote now args (peer rc i))) /\
  (forall now args, (args, i) ∈ appends rc -> is_ok (AppendEntries now args (peer rc i))) /\
  (forall args server reply, (args, server, reply) ∈ answers rc -> ae_LeaderID args = i ->
     is_ok (appendEntriesReply server args reply (peer rc i))) /\
  is_ok (entriesSender (peer rc i)) /\ is_ok (commit (peer rc i)) /\
  is_ok (applierCommands (peer rc i)) /\ forall now, is_ok (startElection now (peer rc i)).
Proof.
  intros Hn HR Hi. destruct (sim_reachable n Hn rc HR) as (a & R & S).
  pose proof (sm_node _ _ _ S i Hi) as NS. pose proof (sm_tlog _ _ _ S : tlog_small a) as B.
  pose proof (quiet_inv n _ Hn (base_reachable n rc HR)) as I. destruct (inv_nodes _ _ I i Hi) as (Hp & Hme & _).
  split_and!; intros.
  - destruct (RequestVote_decision now args (peer rc i)) as (rf' & reply & last & -> & _); [by eapply sim_wf | | apply is_ok_Ok].
    pose proof (inv_requests _ _ I _ _ H) as Hc. apply Hc.
  - eapply AppendEntries_ok; try done. by eapply (sm_append _ _ _ S).
  - eapply appendEntriesReply_ok; try done. by apply (sm_answer _ _ _ S).
  - by eapply entriesSender_ok.
  - by eapply commit_ok.
  - by eapply applierCommands_ok.
  - by eapply startElection_ok.
Qed.

(** C12: Where the indices of a peer lie. In every execution in which no
    peer becomes leader between the role test of its [ticker] and the
    [startElection] that follows, no snapshot is taken, terms stay below
    2^64 - 1 and logs below 2^63 - 1 entries: what is applied is committed,
    what is committed is in the log, no index wraps, and a leader's tables
    have a place for every peer, with nothing matched past the end of the
    log and the next index at most there. ([readPersist] after a snapshot
    breaks the first part: a restarted peer's commit index is below its
    snapshot.) *)
Theorem raft_index_bounds n rc i : 0 <= n -> reachable (rc_init n) (rc_quiet n) rc -> is_peer n i ->
  let rf := peer rc i in
  0 <= last_applied_ rf <= commit_index_ rf /\ commit_index_ rf < getLogLength rf /\
  getLogLength rf = zlen (logs_ rf) /\ zlen (logs_ rf) < 2 ^ 63 /\
  zlen (match_index_ rf) = n /\ zlen (next_index_ rf) = n /\
  (role_ rf = Leader -> forall s, is_peer n s -> exists matched next,
     zlookup (match_index_ rf) s = Some matched /\ zlookup (next_index_ rf) s = Some next /\
     0 <= matched < getLogLength rf /\ 0 < next <= getLogLength rf).
Proof.
  intros Hn HR Hi rf. destruct (sim_reachable n Hn rc HR) as (a & R & S).
  pose proof (sm_node _ _ _ S i Hi : node_sim n a i rf) as NS.
  pose proof (quiet_inv n _ Hn (base_reachable n rc HR)) as I.
  destruct (inv_nodes _ _ I i Hi) as (Hp & Hme & _). change (node (base rc) i) with rf in *.
  clearbody rf. pose proof (sim_wf n a i rf R Hi NS) as W. pose proof (ns_lii _ _ _ _ NS) as Hlii.
  destruct (ns_sizes _ _ _ _ NS) as [Hm Hx]. rewrite getLogLength_wf, Hlii, Z.add_0_l by done.
  split_and!; try done; [apply NS | apply NS | by eapply sim_bound | apply NS |].
  intros Hl s Hs. unfold is_peer in Hs.
  destruct (slice_get_ok (match_index_ rf) s) as (m & Em & _); [lia |].
  destruct (slice_get_ok (next_index_ rf) s) as (x & Ex & _); [lia |].
  exists m, x. split_and!; try done.
  all: unfold zlookup in Em, Ex; rewrite decide_True in Em, Ex by lia.
  all: pose proof (sim_wf_indexes n a i rf R Hi NS Hp Hme Hl) as WI.
  all: pose proof (wfi_range _ WI) as HF; rewrite Forall_lookup in HF; destruct (HF _ _ Em) as [Hle _].
  all: pose proof (ns_next _ _ _ _ NS Hl) as HX; rewrite Forall_lookup in HX; specialize (HX _ _ Ex).
  all: destruct (ns_leader _ _ _ _ NS Hl) as [_ HM]; destruct (HM _ _ Em) as [? _].
  all: unfold last_index in Hle; lia.
Qed.
End Properties.

(** ** The execution [replicate_run] *)

Definition has_log (rc : RCluster (Cmd := Z)) (i c : Z) (cmds : list (option Z)) : bool :=
  bool_decide (Command_ <$> logs_ (peer rc i) = None :: cmds) && bool_decide (commit_index_ (peer rc i) = c).

Definition replicated (rc : RCluster (Cmd := Z)) : bool :=
  has_log rc 0 2 [Some 10; Some 20] && has_log rc 1 3 [Some 10; Some 20; Some 30] &&
  has_log rc 2 3 [Some 10; Some 20; Some 30] && leads (base rc) 0 1 && leads (base rc) 1 3 &&
  bool_decide ((fun d => (d.1, CommandIndex d.2, Command d.2)) <$> applied rc =
    [(2%nat, 3, Some 30); (2%nat, 2, Some 20); (2%nat, 1, Some 10);
     (1%nat, 3, Some 30); (1%nat, 2, Some 20); (1%nat, 1, Some 10);
     (0%nat, 2, Some 20); (0%nat, 1, Some 10)]).

Lemma replicated_reachable :
  exists rc : RCluster (Cmd := Z), reachable (rc_init 3) (rc_quiet 3) rc /\ replicated rc = true.
Proof. apply (rc_run_witness 3 replicate_run replicated). vm_compute. reflexivity. Qed.

(** What the test says of the peers. *)
Lemma replicated_peers rc : replicated rc = true ->
  (Command_ <$> logs_ (peer rc 0) = [None; Some 10; Some 20] /\ commit_index_ (peer rc 0) = 2) /\
  (Command_ <$> logs_ (peer rc 2) = [None; Some 10; Some 20; Some 30] /\ commit_index_ (peer rc 2) = 3) /\
  (role_ (peer rc 1) = Leader /\ current_term_ (peer rc 1) = 3) /\ current_term_ (peer rc 0) = 1.
Proof.
  unfold replicated, has_log, leads, peer. rewrite !andb_true_iff, !bool_decide_eq_true. tauto.
Qed.

(** Peers 0 and 2 hold the same entry at index 2. *)
Lemma state_machine_safety_entries rc :
  reachable (rc_init 3) (rc_quiet 3) rc -> replicated rc = true ->
  exists x y : LogEntry Z, entry_at (peer rc 0) 2 = Some x /\ entry_at (peer rc 2) 2 = Some y /\ Term_ x = Term_ y.
Proof.
  intros HR H. destruct (sim_reachable 3 ltac:(lia) rc HR) as (a & R & S).
  destruct (replicated_peers rc H) as ((_ & C0) & (_ & C2) & _).
  destruct (sim_committed_agree 3 ltac:(lia) rc a 0 2 2 R S) as [E [x Hx]];
    [unfold is_peer; lia.. | rewrite C2; lia |].
  exists x, x. rewrite <- E. done.
Qed.


Lemma state_machine_safety_witness :
  exists rc : RCluster (Cmd := Z), replicated rc = true /\ agree (applied rc) /\
    entry_at (peer rc 0) 2 = entry_at (peer rc 2) 2.
Proof.
  destruct replicated_reachable as (rc & R & H). exists rc. split; [exact H |].
  destruct (state_machine_safety 3 rc) as (A & _ & E); [lia | exact R |]. split; [exact A |].
  destruct (replicated_peers rc H) as ((_ & C0) & (_ & C2) & _).
  apply (E 0 2 2); [unfold is_peer; lia.. | rewrite C2; lia].
Defined.

Lemma log_matching_witness :
  exists rc : RCluster (Cmd := Z), replicated rc = true /\
    entry_at (peer rc 0) 1 = entry_at (peer rc 2) 1.
Proof.
  destruct replicated_reachable as (rc & R & H). exists rc. split; [exact H |].
  destruct (state_machine_safety_entries rc R H) as (x & y & Hx & Hy & Ht).
  apply (log_matching 3 rc 0 2 2 x y); try assumption; unfold is_peer; lia.
Defined.

Lemma committed_at_leader_witness :
  exists rc : RCluster (Cmd := Z), replicated rc = true /\
    entry_at (peer rc 1) 2 = entry_at (peer rc 0) 2.
Proof.
  destruct replicated_reachable as (rc & R & H). exists rc. split; [exact H |].
  destruct (replicated_peers rc H) as ((_ & C0) & _ & (L1 & T1) & T0).
  apply (committed_at_leader 3 rc 0 1 2); try assumption; try (unfold is_peer; lia).
Defined.

Lemma tester_sees_no_error_witness :
  exists (rc : RCluster (Cmd := Z)) ts, replicated rc = true /\ deliver 3 (applied rc) = Ok ts /\ no_error ts.
Proof.
  destruct replicated_reachable as (rc & R & H).
  destruct (tester_sees_no_error 3 rc) as (ts & E & N); [lia | exact R |].
  exists rc, ts. split; [exact H |]. split; [exact E | exact N].
Defined.

Lemma raft_never_panics_witness :
  exists rc : RCluster (Cmd := Z), replicated rc = true /\ is_ok (entriesSender (peer rc 1)).
Proof.
  destruct replicated_reachable as (rc & R & H). exists rc. split; [exact H |].
  apply (raft_never_panics 3 rc 1); [lia | exact R | unfold is_peer; lia].
Defined.

Lemma raft_index_bounds_witness :
  exists rc : RCluster (Cmd := Z), replicated rc = true /\ commit_index_ (peer rc 2) < getLogLength (peer rc 2).
Proof.
  destruct replicated_reachable as (rc & R & H). exists rc. split; [exact H |].
  apply (raft_index_bounds 3 rc 2); [lia | exact R | unfold is_peer; lia].
Defined.
