(* ===== verification/RaftProgress.v ===== *)
(** * Progress of a Raft cluster ([raft1/raft.go])

    From every state that a cluster of at least two servers reaches under
    the conditions of [rc_quiet] - no race of the ticker, no snapshots -
    with room for two terms and one entry, an execution goes on in which a
    leader is elected, takes a command, and all servers deliver it: no
    sequence of losses, crashes and elections leads to a state that the
    cluster cannot leave ([raft_progress]).

    The execution is built from the steps of [RaftCluster], with what
    [RaftSafety] proves of every reachable state: a candidate asks, the
    server with the most up-to-date log wins the next term and takes the
    command; it probes each server downwards until their logs agree,
    sends the rest, commits, tells everybody, and all apply.  At the end:
    the one size of cluster for which this fails, a single server. *)
From stdpp Require Import functions.
From S2P Require Import Prelude Persister RaftNode RaftStep RaftElection RaftElectionRun RaftLog RaftSpec RaftFollower RaftApply.
From S2P Require Import RaftLeader RaftCluster RaftRefine RaftSafety.
#[local] Open Scope Z_scope.

Section Progress.
Context {Cmd : Type} `{!Codec (RaftState Cmd)}.
Variables (n tmax lmax : Z).
Hypothesis Hn : 2 <= n.
Hypothesis Htmax : tmax < 2 ^ 64 - 1.
Hypothesis Hlmax : lmax < 2 ^ 63 - 1.
Implicit Types (rc : RCluster (Cmd := Cmd)) (rf : Raft Cmd) (i j : Z).

(** A step of a healthy cluster: the peers among themselves, or a round of
    an applier, without the race of the ticker. *)
Definition applies rc rc' : Prop := exists i rf msgs, is_peer n i /\
  applierCommands (peer rc i) = Ok (rf, msgs) /\ rc' = delivers i msgs (set_peer i rf rc).
Definition calm rc rc' : Prop :=
  (rc_internal n rc rc' \/ applies rc rc') /\ ~ starts_while_leader n (base rc) (base rc') /\ small n rc.
Definition go : RCluster (Cmd := Cmd) -> RCluster (Cmd := Cmd) -> Prop := rtc calm.

Lemma go_trans rc1 rc2 rc3 : go rc1 rc2 -> go rc2 rc3 -> go rc1 rc3.
Proof. unfold go. intros. by etrans. Qed.

(** Terms and logs within the bounds of the execution to be built. *)
Record fits rc : Prop := mkFits {
  ft_reach : reachable (rc_init n) (rc_quiet n) rc;
  ft_bounds : forall i, is_peer n i -> current_term_ (peer rc i) <= tmax /\ zlen (logs_ (peer rc i)) <= lmax;
}.

(** What holds of a peer in every reachable state. *)
Record peer_ok i rf : Prop := mkPeerOk {
  po_wf : wf_log rf;
  po_lii : last_included_index_ rf = 0;
  po_me : me rf = i;
  po_peers : peers rf = n;
  po_match : zlen (match_index_ rf) = n;
  po_next : zlen (next_index_ rf) = n;
  po_applied : 0 <= last_applied_ rf <= commit_index_ rf;
  po_commit : commit_index_ rf < zlen (logs_ rf);
  po_term : 0 <= current_term_ rf;
  po_zero : entry_at rf 0 = Some zeroEntry;
  po_len : zlen (logs_ rf) < 2 ^ 63;
  po_matches : role_ rf = Leader -> Forall (fun m => 0 <= m < zlen (logs_ rf)) (match_index_ rf);
  po_nexts : role_ rf = Leader -> Forall (fun x => 0 < x <= zlen (logs_ rf)) (next_index_ rf);
}.

Lemma reach_peer_ok rc i : reachable (rc_init n) (rc_quiet n) rc -> is_peer n i -> peer_ok i (peer rc i).
Proof.
  intros HR Hi. assert (0 <= n) as Hn0 by lia. destruct (sim_reachable n Hn0 rc HR) as (a & R & S).
  pose proof (sm_node _ _ _ S i Hi) as NS.
  pose proof (quiet_inv n _ Hn0 (base_reachable n rc HR)) as I. destruct (inv_nodes _ _ I i Hi) as (Hp & Hme & Ht & _).
  pose proof (sim_wf n a i _ R Hi NS) as W. pose proof (sim_bound n a i _ R Hi NS). destruct (ns_sizes _ _ _ _ NS).
  split; try done; try apply NS.
  - destruct (si_log _ _ (spec_inv_reachable n a R) i Hi) as (_ & [H0' _] & _). rewrite (ns_log _ _ _ _ NS) in H0'.
    rewrite (sim_entry n a i _ NS). unfold zlookup. by rewrite decide_True.
  - intros Hl. pose proof (wfi_range _ (sim_wf_indexes n a i _ R Hi NS Hp Hme Hl)) as HF. rewrite Forall_lookup in HF.
    destruct (ns_leader _ _ _ _ NS Hl) as [_ HM]. apply Forall_lookup. intros k m Hk.
    destruct (HF k m Hk) as [Hle _], (HM k m Hk) as [Hge _]. unfold last_index in Hle. rewrite (ns_lii _ _ _ _ NS) in Hle. lia.
Qed.

Lemma fits_ok rc i : fits rc -> is_peer n i -> peer_ok i (peer rc i).
Proof. intros F. apply reach_peer_ok, F. Qed.

Lemma fits_small rc : fits rc -> small n rc.
Proof. intros F i Hi. destruct (ft_bounds _ F i Hi). lia. Qed.

(** A step of the execution. *)
Lemma move rc rc' : fits rc -> rc_internal n rc rc' \/ applies rc rc' -> ~ starts_while_leader n (base rc) (base rc') ->
  (forall i, is_peer n i -> current_term_ (peer rc' i) <= tmax /\ zlen (logs_ (peer rc' i)) <= lmax) -> go rc rc' /\ fits rc'.
Proof.
  intros F H Hq Hb. pose proof (fits_small rc F) as Hs. split; [by apply rtc_once | split; [| done]].
  eapply reach_step; [apply F |]. split_and!; [| done | done].
  destruct H as [H|(i & rf & msgs & Hi & H & ->)]; [by apply rc_inner | by eapply rc_apply].
Qed.

Lemma no_race rc rc' : (forall k, starting (base rc') k = false -> starting (base rc) k = true -> role_ (peer rc k) <> Leader) ->
  ~ starts_while_leader n (base rc) (base rc').
Proof. intros H (i & _ & H1 & H2 & H3 & _). by apply (H i). Qed.

Lemma peer_set i rf rc j : peer (set_peer i rf rc) j = if decide (i = j) then rf else peer rc j.
Proof. unfold peer, set_peer, set_node. simpl. case_decide as E; [subst; apply fn_insert_eq | by apply fn_insert_ne]. Qed.

(** A step that changes one peer. *)
Lemma move_peer rc rc' i rf : fits rc -> is_peer n i -> rc_internal n rc rc' \/ applies rc rc' -> starting (base rc') = starting (base rc) ->
  (forall j, peer rc' j = if decide (i = j) then rf else peer rc j) ->
  current_term_ rf <= tmax -> zlen (logs_ rf) <= lmax -> go rc rc' /\ fits rc'.
Proof.
  intros F Hi H Hs Hp Ht Hl. apply move; [done | done | apply no_race; rewrite Hs; congruence |].
  intros j Hj. rewrite Hp. case_decide; [done |]. by apply (ft_bounds _ F).
Qed.

(** ** Elections *)

Definition others_same i rc rc' : Prop := forall j, j <> i -> peer rc' j = peer rc j.

Lemma campaign_ready rc i : fits rc -> is_peer n i -> role_ (peer rc i) <> Leader ->
  exists rc', go rc rc' /\ fits rc' /\ role_ (peer rc' i) = Candidate /\ starting (base rc') i = true /\
    current_term_ (peer rc' i) = current_term_ (peer rc i) /\ logs_ (peer rc' i) = logs_ (peer rc i) /\ others_same i rc rc'.
Proof.
  intros F Hi Hr. set (now := last_heartbeat_time_ (peer rc i) + ELECTION_TIMEOUT).
  set (rf := tickerFollower now (peer rc i)).
  assert (role_ rf = Candidate /\ current_term_ rf = current_term_ (peer rc i) /\ logs_ rf = logs_ (peer rc i)) as (H1 & H2 & H3).
  { unfold rf, tickerFollower. destruct (decide _) as [[Hf _]|Hno]; [done |]. split_and!; try done.
    destruct (role_ (peer rc i)) eqn:E; try done. exfalso. apply Hno. split; [done | unfold now; lia]. }
  destruct (ft_bounds _ F i Hi) as [Bt Bl].
  destruct (move_peer rc (set_peer i rf rc) i rf) as [G1 F1]; try done; try (rewrite ?H2, ?H3; done).
  { left. by apply rc_ticker. }
  set (rc1 := set_peer i rf rc) in *. assert (peer rc1 i = rf) as E1 by (unfold rc1; rewrite peer_set; by rewrite decide_True).
  set (rc2 := set_base (set_starting i true (base rc1)) rc1).
  destruct (move rc1 rc2) as [G2 F2]; [done | | | |].
  - left. apply rc_election, cs_ticker_test; [done |]. change (node (base rc1) i) with (peer rc1 i). rewrite E1.
    unfold tickerCandidate. by rewrite H1.
  - apply no_race. intros k. unfold rc2. simpl. destruct (decide (i = k)) as [<-|Hne].
    + by rewrite fn_insert_eq.
    + rewrite fn_insert_ne by done. congruence.
  - intros j Hj. apply (ft_bounds _ F1 j Hj).
  - exists rc2. split_and!; [by eapply go_trans | done | ..]; change (peer rc2) with (peer rc1); rewrite ?E1; try done.
    + simpl. apply fn_insert_eq.
    + intros j Hj. change (peer rc2 j) with (peer rc1 j). unfold rc1. rewrite peer_set. by rewrite decide_False.
Qed.

(** The term and the index of the last entry. *)
Definition last_term rf : Z := match entry_at rf (last_index rf) with Some e => Term_ e | None => 0 end.

Lemma campaign rc i : fits rc -> is_peer n i -> role_ (peer rc i) <> Leader -> current_term_ (peer rc i) < tmax ->
  exists rc' args es, go rc rc' /\ fits rc' /\ role_ (peer rc' i) = Candidate /\
    current_term_ (peer rc' i) = current_term_ (peer rc i) + 1 /\ logs_ (peer rc' i) = logs_ (peer rc i) /\ others_same i rc rc' /\
    rv_Term args = current_term_ (peer rc i) + 1 /\ rv_Candidate_ID args = i /\
    rv_LastLogIndex args = last_index (peer rc i) /\ rv_LastLogTerm args = last_term (peer rc i) /\
    (forall s, s ∈ others n i -> (args, s) ∈ requests (base rc')) /\
    elections (base rc') i = mkElection args (others n i) 1 :: es.
Proof.
  intros F Hi Hr Ht. destruct (campaign_ready rc i F Hi Hr) as (rc1 & G1 & F1 & Hc & Hs & Et & El & Ho).
  pose proof (fits_ok _ _ F1 Hi) as P1. pose proof (fits_ok _ _ F Hi) as P.
  destruct (last_entry_wf (peer rc1 i) (po_wf _ _ P1)) as (e & He & Hg).
  set (rf := newElection 0 (peer rc1 i)).
  set (args := mkRVArgs (current_term_ (peer rc1 i) + 1) i (last_index (peer rc1 i)) (Term_ e)).
  assert (u64 (current_term_ (peer rc1 i) + 1) = current_term_ (peer rc1 i) + 1) as Eu.
  { apply u64_small. pose proof (po_term _ _ P1). lia. }
  assert (startElection 0 (peer rc1 i) = Ok (rf, args)) as Hst.
  { unfold startElection. cbn [res_bind]. fold rf.
    change (getLogEntry (u64 (getLogLength rf - 1)) rf) with (getLogEntry (u64 (getLogLength (peer rc1 i) - 1)) (peer rc1 i)).
    rewrite Hg. cbn [res_bind]. unfold args. do 2 f_equal. f_equal.
    - unfold rf, newElection. simpl. exact Eu.
    - unfold rf, newElection. simpl. apply (po_me _ _ P1).
    - change (getLogLength rf) with (getLogLength (peer rc1 i)). unfold last_index.
      rewrite lastIndex_wf by apply P1. lia. }
  set (rc2 := set_base (set_starting i false (set_elections i (mkElection args (others n i) 1 :: elections (base rc1) i)
     (add_requests ((fun s => (args, s)) <$> others n i) (set_node i rf (base rc1))))) rc1).
  assert (forall j, peer rc2 j = if decide (i = j) then rf else peer rc1 j) as Hp2 by (intros j; apply (peer_set i rf rc1 j)).
  assert (current_term_ rf = current_term_ (peer rc i) + 1) as Etf by (unfold rf, newElection; simpl; rewrite Eu; lia).
  assert (logs_ rf = logs_ (peer rc i)) as Elf by (exact El).
  destruct (move rc1 rc2) as [G2 F2]; [done | | | |].
  - left. apply rc_election. by apply (cs_start n (base rc1) i 0 rf args).
  - apply no_race. intros k. unfold rc2. simpl. destruct (decide (i = k)) as [<-|Hne]; [congruence |].
    rewrite fn_insert_ne by done. congruence.
  - intros j Hj. rewrite Hp2. case_decide; [| by apply (ft_bounds _ F1)]. subst j.
    rewrite Etf, Elf. destruct (ft_bounds _ F i Hi). lia.
  - assert (last_index (peer rc1 i) = last_index (peer rc i) /\ last_term (peer rc i) = Term_ e) as [E3 E4].
    { assert (last_index (peer rc1 i) = last_index (peer rc i)) as E.
      { unfold last_index. by rewrite El, (po_lii _ _ P), (po_lii _ _ P1). }
      split; [done |]. unfold last_term, entry_at in *. rewrite <- E, (po_lii _ _ P), <- (po_lii _ _ P1), <- El. by rewrite He. }
    exists rc2, args, (elections (base rc1) i).
    split_and!; [by eapply go_trans | done | ..]; rewrite ?Hp2, ?decide_True by done; try done.
    + intros j Hj. rewrite Hp2, decide_False by done. by apply Ho.
    + unfold args. simpl. by rewrite Et.
    + intros s Hs'. simpl. apply elem_of_app. left. by apply (list_elem_of_fmap_2 (fun s => (args, s))).
    + simpl. apply fn_insert_eq.
Qed.

(** A peer that has heard of a higher term. *)
Record heard (t : Z) rf rf' : Prop := mkHeard {
  hd_role : role_ rf' = Follower;
  hd_term : current_term_ rf' = t;
  hd_logs : logs_ rf' = logs_ rf;
}.

Lemma requestVoteBody_heard now args rf rf' reply : 0 <= rv_Term args -> current_term_ rf = rv_Term args ->
  requestVoteBody now args rf = Ok (rf', reply) ->
  role_ rf' = role_ rf /\ current_term_ rf' = rv_Term args /\ rvr_Term reply <= rv_Term args.
Proof. intros H0 Ht H. unfold requestVoteBody in H. repeat (case_decide; res_inv); simpl; try done; split_and!; try done; lia. Qed.

(** A server handles a request of a later term. *)
Lemma vote rc args j : fits rc -> is_peer n j -> (args, j) ∈ requests (base rc) -> is_peer n (rv_Candidate_ID args) ->
  current_term_ (peer rc j) < rv_Term args <= tmax ->
  exists rc' reply, go rc rc' /\ fits rc' /\ others_same j rc rc' /\ heard (rv_Term args) (peer rc j) (peer rc' j) /\
    requests (base rc') = requests (base rc) /\ elections (base rc') = elections (base rc) /\
    replies (base rc') = (args, j, reply) :: replies (base rc) /\ rvr_Term reply <= rv_Term args /\
    rvr_VoteGranted reply = up_to_date args (last_term (peer rc j)) (last_index (peer rc j)).
Proof.
  intros F Hj Hq Hc Ht. pose proof (fits_ok _ _ F Hj) as P. pose proof (po_term _ _ P). destruct (ft_bounds _ F j Hj) as [_ Bl].
  destruct (RequestVote_decision 0 args (peer rc j)) as (rf & reply & last & H1 & Hl & Hg & El & _);
    [apply P | unfold is_peer in Hc; lia |].
  assert (role_ rf = Follower /\ current_term_ rf = rv_Term args /\ rvr_Term reply <= rv_Term args) as (Hr & Et & Hrt).
  { pose proof H1 as H2. unfold RequestVote in H2. rewrite decide_False, decide_True in H2 by lia.
    apply requestVoteBody_heard in H2; [done | lia | done]. }
  set (rc' := set_base (add_reply (args, j, reply) (set_node j rf (base rc))) rc).
  assert (forall k, peer rc' k = if decide (j = k) then rf else peer rc k) as Hp by (intros k; apply (peer_set j rf rc k)).
  destruct (move_peer rc rc' j rf) as [G1 F1]; try done; [| lia | by rewrite El |].
  { left. apply rc_election. by apply (cs_vote n (base rc) j 0). }
  exists rc', reply. split_and!; try done.
  - intros k Hk. by rewrite Hp, decide_False.
  - rewrite Hp, decide_True by done. by split.
  - rewrite Hg. unfold vote_decision. rewrite bool_decide_eq_true_2 by lia. rewrite decide_False by lia.
    unfold last_term. by rewrite Hl.
Qed.

(** The servers of [l] answer the candidate. *)
Record answered (args : RequestVoteArgs) rc rc' j : Prop := mkAnswered {
  an_heard : heard (rv_Term args) (peer rc j) (peer rc' j);
  an_reply : exists reply, (args, j, reply) ∈ replies (base rc') /\ rvr_Term reply <= rv_Term args /\
    rvr_VoteGranted reply = up_to_date args (last_term (peer rc j)) (last_index (peer rc j));
}.

Lemma votes args l : is_peer n (rv_Candidate_ID args) -> rv_Term args <= tmax -> NoDup l -> forall rc, fits rc ->
  (forall j, j ∈ l -> is_peer n j /\ (args, j) ∈ requests (base rc) /\ current_term_ (peer rc j) < rv_Term args) ->
  exists rc', go rc rc' /\ fits rc' /\ elections (base rc') = elections (base rc) /\ replies (base rc) ⊆ replies (base rc') /\
    (forall j, j ∉ l -> peer rc' j = peer rc j) /\ forall j, j ∈ l -> answered args rc rc' j.
Proof.
  intros Hc Ht. induction 1 as [|j l Hj _ IH]; intros rc F Hl.
  { exists rc. split_and!; try done; by intros j ?%elem_of_nil. }
  destruct (Hl j) as (Hpj & Hqj & Htj); [by left |].
  destruct (vote rc args j) as (rc1 & reply & G1 & F1 & Ho & Hh & Eq & Ee & Er & Hrt & Hg); try done.
  destruct (IH rc1 F1) as (rc2 & G2 & F2 & Ee2 & Hr2 & Ho2 & Ha2).
  { intros k Hk. assert (k <> j) by (by intros ->). rewrite Eq, Ho by done. apply Hl. by right. }
  exists rc2. split_and!; [by eapply go_trans | done | congruence | | |].
  - intros x Hx. apply Hr2. rewrite Er. by right.
  - intros k [Hkj Hkl]%not_elem_of_cons. by rewrite Ho2, Ho.
  - intros k [->|Hk]%elem_of_cons.
    + split; [by rewrite Ho2 |]. exists reply. split; [apply Hr2; rewrite Er; by left | done].
    + assert (k <> j) by (by intros ->). destruct (Ha2 k Hk) as [H1 H2]. rewrite Ho in H1, H2 by done. by split.
Qed.

Lemma remove_head (j : Z) l : j ∉ l -> remove Z.eq_dec j (j :: l) = l.
Proof.
  intros Hj. simpl. destruct (Z.eq_dec j j) as [_|]; [| done]. apply notin_remove. by rewrite <- list_elem_of_In.
Qed.

(** The candidate counts votes until they are a majority. *)
Lemma count_votes args p pending : is_peer n p -> NoDup pending -> forall k rc es, fits rc ->
  role_ (peer rc p) = Candidate -> current_term_ (peer rc p) = rv_Term args ->
  elections (base rc) p = mkElection args pending k :: es ->
  (forall j, j ∈ pending -> exists reply, (args, j, reply) ∈ replies (base rc) /\ rvr_Term reply <= rv_Term args /\
     rvr_VoteGranted reply = true) ->
  1 <= k <= Z.quot n 2 -> n <= k + zlen pending ->
  exists rc', go rc rc' /\ fits rc' /\ others_same p rc rc' /\ peer rc' p = becomeLeader (peer rc p).
Proof.
  intros Hp. induction 1 as [|j l Hj _ IH]; intros k rc es F Hr Ht He Hrep Hk Hl.
  { rewrite zlen_nil in Hl. exfalso. pose proof (Z.quot_lt n 2). lia. }
  rewrite zlen_cons in Hl. destruct (Hrep j) as (reply & Hin & Hrt & Hg); [by left |].
  pose proof (fits_ok _ _ F Hp) as P. destruct (ft_bounds _ F p Hp) as [Bt Bl].
  set (won := bool_decide (k + 1 > Z.quot n 2)).
  set (rf := if won then becomeLeader (peer rc p) else peer rc p).
  assert (exists effs, voteReply args reply k (peer rc p) = (rf, k + 1, won, effs)) as [effs Hv].
  { unfold voteReply. rewrite decide_False, decide_False by (rewrite ?Hr; tauto || lia || (rewrite Hr; intros [?|?]; done)).
    rewrite Hg, (po_peers _ _ P). unfold rf, won. case_decide; case_bool_decide; try done; by eexists. }
  set (rc1 := set_base (set_elections p (mkElection args l (k + 1) :: es) (set_node p rf (base rc))) rc).
  assert (forall i, peer rc1 i = if decide (p = i) then rf else peer rc i) as Hp1 by (intros i; apply (peer_set p rf rc i)).
  assert (current_term_ rf = current_term_ (peer rc p) /\ logs_ rf = logs_ (peer rc p)) as [Etf Elf]
    by (unfold rf; by destruct won).
  destruct (move_peer rc rc1 p rf) as [G1 F1]; try done; [| by rewrite Etf | by rewrite Elf |].
  { left. apply rc_election. unfold rc1. rewrite <- (remove_head j l) by done.
    eapply (cs_vote_reply n (base rc) p (mkElection args (j :: l) k) [] es j reply rf (k + 1) won effs); try done. by left. }
  destruct won eqn:Ew.
  - exists rc1. split_and!; try done; [| rewrite Hp1; by rewrite decide_True].
    intros i Hi. by rewrite Hp1, decide_False.
  - assert (peer rc1 p = peer rc p) as Ep by (rewrite Hp1; by rewrite decide_True).
    destruct (IH (k + 1) rc1 es) as (rc2 & G2 & F2 & Ho & E); try (rewrite Ep); try done.
    + unfold rc1. simpl. apply fn_insert_eq.
    + intros i Hi. apply Hrep. by right.
    + unfold won in Ew. apply bool_decide_eq_false in Ew. lia.
    + lia.
    + exists rc2. split_and!; [by eapply go_trans | done | | congruence].
      intros i Hi. rewrite Ho, Hp1 by done. by rewrite decide_False.
Qed.

Lemma elem_of_others i j : j ∈ others n i <-> is_peer n j /\ j <> i.
Proof. unfold others, is_peer. rewrite list_elem_of_filter, elem_of_seqZ. intuition lia. Qed.

Lemma NoDup_others i : NoDup (others n i).
Proof. apply list.NoDup_filter, NoDup_seqZ. Qed.

Lemma zlen_others i : is_peer n i -> zlen (others n i) = n - 1.
Proof.
  intros Hi. assert (seqZ 0 n ≡ₚ i :: others n i) as E.
  { apply NoDup_Permutation; [apply NoDup_seqZ | |].
    - constructor; [rewrite elem_of_others; tauto | apply NoDup_others].
    - intros j. rewrite elem_of_cons, elem_of_others, elem_of_seqZ. unfold is_peer in *.
      destruct (decide (j = i)); intuition lia. }
  apply Permutation_length in E. rewrite length_seqZ in E. simpl in E. unfold zlen. lia.
Qed.

(** The log of peer [i] is at least as up to date as that of [j]. *)
Definition newer rc i j : Prop := last_term (peer rc j) < last_term (peer rc i) \/
  (last_term (peer rc j) = last_term (peer rc i) /\ last_index (peer rc j) <= last_index (peer rc i)).

(** All peers follow one that has just been elected. *)
Record fresh p T rc : Prop := mkFresh {
  fr_peer : is_peer n p;
  fr_role : role_ (peer rc p) = Leader;
  fr_term : forall j, is_peer n j -> current_term_ (peer rc j) = T;
  fr_next : Forall (fun x => x = zlen (logs_ (peer rc p))) (next_index_ (peer rc p));
  fr_match : Forall (fun m => m = 0) (match_index_ (peer rc p));
}.

(** A candidate asks all others for their votes. *)
Lemma ask rc p : fits rc -> is_peer n p -> role_ (peer rc p) <> Leader -> current_term_ (peer rc p) < tmax ->
  (forall j, is_peer n j -> current_term_ (peer rc j) <= current_term_ (peer rc p)) ->
  let T := current_term_ (peer rc p) + 1 in
  exists rc' args es, go rc rc' /\ fits rc' /\ role_ (peer rc' p) = Candidate /\ rv_Term args = T /\
    (forall j, is_peer n j -> current_term_ (peer rc' j) = T /\ logs_ (peer rc' j) = logs_ (peer rc j)) /\
    (forall j, is_peer n j -> j <> p -> role_ (peer rc' j) = Follower) /\
    elections (base rc') p = mkElection args (others n p) 1 :: es /\
    forall j, j ∈ others n p -> exists reply, (args, j, reply) ∈ replies (base rc') /\ rvr_Term reply <= T /\
      (newer rc p j -> rvr_VoteGranted reply = true).
Proof.
  intros F Hp Hr Ht Hmax T. destruct (campaign rc p F Hp Hr Ht) as (rc1 & args & es & G1 & F1 & Hc & Et & El & Ho & Ea & Ei & Eli & Elt & Hq & He).
  assert (forall j, j ∈ others n p -> peer rc1 j = peer rc j) as Hsame by (intros j [_ ?]%elem_of_others; by apply Ho).
  destruct (ft_bounds _ F1 p Hp) as [Bt _].
  destruct (votes args (others n p)) with (rc := rc1) as (rc2 & G2 & F2 & Ee & _ & Ho2 & Ha); [congruence | lia | apply NoDup_others | done | |].
  { intros j Hj. rewrite Hsame by done. pose proof Hj as [Hpj _]%elem_of_others. specialize (Hmax j Hpj). split_and!; [done | by apply Hq | lia]. }
  assert (peer rc2 p = peer rc1 p) as Ep by (apply Ho2; rewrite elem_of_others; tauto).
  exists rc2, args, es. split_and!; [by eapply go_trans | done | congruence | done | | | congruence |].
  - intros j Hj. destruct (decide (j = p)) as [->|Hne]; [rewrite Ep; by split |].
    assert (j ∈ others n p) as Hjo by (by apply elem_of_others). destruct (an_heard _ _ _ _ (Ha j Hjo)) as [_ H1 H2].
    rewrite Hsame in H2 by done. by rewrite H1, H2.
  - intros j Hj Hne. by apply (Ha j), elem_of_others.
  - intros j Hj. destruct (an_reply _ _ _ _ (Ha j Hj)) as (reply & Hin & Hrt & Hg). exists reply. split_and!; [done | lia |].
    intros Hnew. rewrite Hg, Hsame by done. unfold up_to_date. rewrite Elt, Eli. unfold newer in Hnew.
    apply orb_true_iff. rewrite andb_true_iff, !bool_decide_eq_true. done.
Qed.

(** The one with the most up-to-date log wins. *)
Lemma elect rc p : fits rc -> is_peer n p -> role_ (peer rc p) <> Leader -> current_term_ (peer rc p) < tmax ->
  (forall j, is_peer n j -> current_term_ (peer rc j) <= current_term_ (peer rc p) /\ newer rc p j) ->
  exists rc', go rc rc' /\ fits rc' /\ fresh p (current_term_ (peer rc p) + 1) rc' /\
    forall j, is_peer n j -> logs_ (peer rc' j) = logs_ (peer rc j).
Proof.
  intros F Hp Hr Ht Hall.
  destruct (ask rc p F Hp Hr Ht) as (rc1 & args & es & G1 & F1 & Hc & Ea & Hj & _ & He & Hrep); [by intros; apply Hall |].
  destruct (Hj p Hp) as [Etp Elp].
  destruct (count_votes args p (others n p) Hp (NoDup_others p) 1 rc1 es) as (rc2 & G2 & F2 & Ho & E); try done.
  - congruence.
  - intros j Hjo. destruct (Hrep j Hjo) as (reply & ? & ? & Hg). exists reply. split_and!; [done | lia |].
    apply elem_of_others in Hjo as [Hpj _]. by apply Hg, Hall.
  - split; [done |]. apply (Z.quot_le_lower_bound n 2); lia.
  - rewrite zlen_others by done. lia.
  - assert (forall j, is_peer n j -> current_term_ (peer rc2 j) = current_term_ (peer rc1 j) /\ logs_ (peer rc2 j) = logs_ (peer rc1 j)) as Hsame.
    { intros j _. destruct (decide (j = p)) as [->|Hne]; [by rewrite E | by rewrite Ho]. }
    exists rc2. split_and!; [by eapply go_trans | done | |].
    + split; [done | by rewrite E | | |].
      * intros j Hpj. destruct (Hsame j Hpj) as [-> _]. by apply Hj.
      * rewrite E. simpl. apply Forall_fmap, Forall_forall. intros x _. simpl.
        rewrite getLogLength_wf by apply (fits_ok _ _ F1 Hp). rewrite (po_lii _ _ (fits_ok _ _ F1 Hp)). lia.
      * rewrite E. simpl. apply Forall_fmap, Forall_forall. done.
    + intros j Hpj. destruct (Hsame j Hpj) as [_ ->]. by apply Hj.
Qed.

(** ** One round of messages *)

(** What the sender reads for server [j]. *)
Record to_send (j : Z) rf (x m : Z) : Prop := mkToSend {
  ts_next : zlookup (next_index_ rf) j = Some x;
  ts_match : zlookup (match_index_ rf) j = Some m;
  ts_x : 0 < x <= zlen (logs_ rf);
  ts_m : 0 <= m < zlen (logs_ rf);
}.

Lemma to_send_exists rf i j : peer_ok i rf -> role_ rf = Leader -> is_peer n j -> exists x m, to_send j rf x m.
Proof.
  intros P Hr Hj. unfold is_peer in Hj.
  destruct (slice_get_ok (next_index_ rf) j) as (x & Hx & _); [rewrite (po_next _ _ P); lia |].
  destruct (slice_get_ok (match_index_ rf) j) as (m & Hm & _); [rewrite (po_match _ _ P); lia |].
  exists x, m. split; try done.
  - pose proof (po_nexts _ _ P Hr) as HF. rewrite Forall_lookup in HF. unfold zlookup in Hx. rewrite decide_True in Hx by lia. by eapply HF.
  - pose proof (po_matches _ _ P Hr) as HF. rewrite Forall_lookup in HF. unfold zlookup in Hm. rewrite decide_True in Hm by lia. by eapply HF.
Qed.

Lemma slice_get_zlookup {A} (l : list A) k x : zlookup l k = Some x -> slice_get l k = Ok x.
Proof. unfold slice_get. by intros ->. Qed.

(** The call for server [j]. *)
Definition the_call rf (x m : Z) (e : LogEntry Cmd) : AppendEntriesArgs Cmd :=
  mkAEArgs (current_term_ rf) (me rf) (x - 1) (Term_ e)
    (if decide (x = m + 1) then drop (Z.to_nat x) (logs_ rf) else []) (commit_index_ rf).

Lemma helper_sends rf i j x m : peer_ok i rf -> to_send j rf x m ->
  exists e, entry_at rf (x - 1) = Some e /\ sendAppendEntriesHelper j rf = Ok [GoAppendEntries j (the_call rf x m e)].
Proof.
  intros P [Hx Hm Hxb Hmb]. pose proof (po_wf _ _ P) as W. pose proof (po_lii _ _ P) as Hlii. pose proof (po_len _ _ P) as Hlen.
  destruct (getLogEntry_wf rf (x - 1) W) as (e & He & Hg); [rewrite Hlii; lia |]. exists e. split; [done |].
  unfold sendAppendEntriesHelper. rewrite (slice_get_zlookup _ _ _ Hx). cbn [res_bind]. rewrite Hlii, decide_False by lia.
  rewrite (u64_small (x - 1)), Hg by lia. cbn [res_bind]. rewrite (slice_get_zlookup _ _ _ Hm). cbn [res_bind].
  rewrite (u64_small (m + 1)), (u64_small (x - 1 + 1)) by lia. unfold the_call. case_decide; [| done].
  unfold getLogSliceCopy. rewrite getLogLength_wf, getLogSlice_wf by (done || lia). cbn [res_bind]. rewrite Hlii.
  replace (x - 1 + 1 - 0) with x by lia. rewrite zlookup_full_take; [done |]. rewrite zlen_drop by lia. lia.
Qed.

Lemma sendToPeers_has rf j m : forall k effs, sendToPeers m k rf = Ok effs -> k <= j < k + Z.of_nat m -> j <> me rf ->
  exists e, sendAppendEntriesHelper j rf = Ok e /\ calls e ⊆ calls effs.
Proof.
  induction m as [|m IH]; intros k effs H Hk Hj; simpl in H; [lia |].
  apply res_bind_ok in H as (e1 & H1 & H). apply res_bind_ok in H as (e2 & H2 & H). injection H as <-.
  rewrite calls_app. destruct (decide (k = j)) as [->|Hne].
  - rewrite decide_False in H1 by done. exists e1. split; [done |]. set_solver.
  - destruct (IH (k + 1) e2 H2) as (e & He & Hs); [lia | done |]. exists e. split; [done |]. set_solver.
Qed.

(** A leader sends. *)
Lemma sends rc p j x m : fits rc -> is_peer n p -> role_ (peer rc p) = Leader -> is_peer n j -> j <> p -> to_send j (peer rc p) x m ->
  exists rc' e, go rc rc' /\ fits rc' /\ (forall i, peer rc' i = peer rc i) /\
    entry_at (peer rc p) (x - 1) = Some e /\ (the_call (peer rc p) x m e, j) ∈ appends rc'.
Proof.
  intros F Hp Hr Hj Hne TS. pose proof (fits_ok _ _ F Hp) as P.
  destruct (helper_sends _ _ _ _ _ P TS) as (e & He & Hh).
  assert (0 <= n) as Hn0 by lia. destruct (sim_reachable n Hn0 rc (ft_reach _ F)) as (a & R & S).
  destruct (entriesSender_ok n Hn0 a p (peer rc p) R Hp (sm_node _ _ _ S p Hp) (po_peers _ _ P)) as [effs Hs].
  pose proof Hs as Hs'. unfold entriesSender in Hs'. rewrite decide_False, (po_peers _ _ P) in Hs' by (by intros Hl).
  destruct (sendToPeers_has _ j _ _ _ Hs') as (e1 & He1 & Hsub).
  { unfold is_peer in Hj. lia. } { by rewrite (po_me _ _ P). }
  rewrite Hh in He1. injection He1 as <-.
  destruct (move rc (send (calls effs) rc)) as [G1 F1]; [done | | by intros (i & _ & H1 & H2 & _); simpl in *; congruence | apply (ft_bounds _ F) |].
  { left. by apply (rc_send n rc p). }
  exists (send (calls effs) rc), e. split_and!; try done. simpl. apply elem_of_app. left. apply Hsub. by left.
Qed.

(** A server handles a call. *)
Lemma handles rc args j rf reply effs : fits rc -> is_peer n j -> (args, j) ∈ appends rc ->
  AppendEntries 0 args (peer rc j) = Ok (rf, reply, effs) -> current_term_ rf <= tmax -> zlen (logs_ rf) <= lmax ->
  exists rc', go rc rc' /\ fits rc' /\ others_same j rc rc' /\ peer rc' j = rf /\ (args, j, reply) ∈ answers rc'.
Proof.
  intros F Hj Hin H Ht Hl. set (rc' := answer (args, j, reply) (set_peer j rf rc)).
  assert (forall i, peer rc' i = if decide (j = i) then rf else peer rc i) as Hp by (intros i; apply (peer_set j rf rc i)).
  destruct (move_peer rc rc' j rf) as [G1 F1]; try done.
  { left. by apply (rc_append n rc j 0 args rf reply effs). }
  exists rc'. split_and!; try done; [| rewrite Hp; by rewrite decide_True | by left].
  intros i Hi. by rewrite Hp, decide_False.
Qed.

Lemma AppendEntries_hears args rf rf' reply effs : current_term_ rf <= ae_Term args ->
  AppendEntries 0 args rf = Ok (rf', reply, effs) ->
  role_ rf' = Follower /\ current_term_ rf' = ae_Term args /\ last_applied_ rf' = last_applied_ rf.
Proof.
  intros Ht H. pose proof (applied_AppendEntries _ _ _ _ _ _ H) as Ha. rewrite AppendEntries_heard in H by done.
  apply appendEntriesBody_frame in H as (Et & _ & Er & _). rewrite Et, Er. unfold heard_leader. simpl.
  case_decide; simpl; split_and!; try done; lia.
Qed.

(** The handler when the check passes. *)
Lemma accepts args rf j : peer_ok j rf -> current_term_ rf <= ae_Term args -> 0 <= ae_PreviousLogIndex args ->
  term_at rf (ae_PreviousLogIndex args) = Some (ae_PreviousLogTerm args) ->
  ae_PreviousLogIndex args + 1 + zlen (ae_Entries args) <= lmax ->
  exists rf' effs, AppendEntries 0 args rf = Ok (rf', mkAEReply 0 true 0 0 0, effs) /\
    logs_ rf' = merged_logs rf (ae_PreviousLogIndex args) (ae_Entries args) /\
    commit_index_ rf' = Z.max (commit_index_ rf) (Z.min (ae_LeaderCommit args) (ae_PreviousLogIndex args + zlen (ae_Entries args))).
Proof.
  intros P Ht Hp Hat Hb. unfold term_at in Hat. apply fmap_Some in Hat as (e & He & Hte).
  pose proof (zlookup_Some_range _ _ _ He) as Hr. rewrite (po_lii _ _ P) in Hr.
  destruct (appendEntries_accepts 0 args rf e (po_wf _ _ P)) as (rf' & effs & H & El & _ & Ec & _); try done.
  - unfold last_index. rewrite (po_lii _ _ P). lia.
  - lia.
  - by exists rf', effs.
Qed.

Lemma firstConflict_positive ct fuel : forall first rf f, last_included_index_ rf = 0 -> 1 <= first < 2 ^ 63 ->
  firstConflict fuel first ct rf = Ok f -> 1 <= f.
Proof.
  induction fuel as [|fuel IH]; intros first rf f Hl Hf H; simpl in H; rewrite Hl, (u64_small (0 + 1)) in H by lia;
    (case_decide; [| injection H as <-; lia]); apply res_bind_ok in H as (e & _ & H); (case_decide; [| injection H as <-; lia]); [done |].
  apply IH in H; [done | done |]. rewrite u64_small; lia.
Qed.

(** An answer from which the leader finds a next index above zero. *)
Record backs_up (args : AppendEntriesArgs Cmd) (reply : AppendEntriesReplys) : Prop := mkBacksUp {
  bu_term : aer_Term reply = 0;
  bu_success : aer_Success reply = false;
  bu_length : 1 <= aer_LogLenth reply;
  bu_first : aer_LogLenth reply <= ae_PreviousLogIndex args \/ 1 <= aer_FirstIndexOfConflictEntryTerm reply;
}.

(** The handler when the check fails. *)
Lemma rejects args rf j : peer_ok j rf -> current_term_ rf <= ae_Term args -> 1 <= ae_PreviousLogIndex args ->
  term_at rf (ae_PreviousLogIndex args) <> Some (ae_PreviousLogTerm args) ->
  exists reply, AppendEntries 0 args rf = Ok (heard_leader 0 (ae_Term args) rf, reply, []) /\ backs_up args reply.
Proof.
  intros P Ht Hp Hat. rewrite AppendEntries_heard by done.
  destruct (heard_leader_logs 0 (ae_Term args) rf) as (El & Ei & _).
  pose proof (heard_leader_wf 0 (ae_Term args) rf (po_wf _ _ P)) as W. set (rf1 := heard_leader _ _ _) in *.
  rewrite (po_lii _ _ P) in Ei. pose proof (po_len _ _ P). pose proof (wf_len _ (po_wf _ _ P)).
  assert (term_at rf1 (ae_PreviousLogIndex args) <> Some (ae_PreviousLogTerm args)) as Hat1.
  { unfold term_at. rewrite (entry_at_frame rf); [done | done |]. by rewrite Ei, (po_lii _ _ P). }
  destruct (appendEntriesBody_rejects args rf1 W) as (reply & H1 & HR); [tauto |]. rewrite H1. exists reply. split; [done |].
  unfold last_index in HR. rewrite Ei, El in HR. case_decide; [| case_decide; [lia |]].
  { subst reply. split; simpl; try done; lia. }
  destruct HR as (ct & f & -> & _). split; simpl; try done; [lia |]. right.
  unfold appendEntriesBody in H1. rewrite getLogLength_wf, Ei, El, !decide_False in H1 by (done || lia).
  apply res_bind_ok in H1 as (e & _ & H1). case_decide.
  - apply res_bind_ok in H1 as (f' & Hf & H1). injection H1 as _ <- _. apply firstConflict_positive in Hf; [done | done | lia].
  - apply res_bind_ok in H1 as ([rf2 b] & _ & H1). apply res_bind_ok in H1 as ([rf3 e2] & _ & H1). done.
Qed.

(** A leader handles an answer. *)
Lemma hears_answer rc p j args reply rf effs : fits rc -> is_peer n p -> (args, j, reply) ∈ answers rc -> ae_LeaderID args = p ->
  appendEntriesReply j args reply (peer rc p) = Ok (rf, effs) -> current_term_ rf <= tmax -> zlen (logs_ rf) <= lmax ->
  exists rc', go rc rc' /\ fits rc' /\ others_same p rc rc' /\ peer rc' p = rf.
Proof.
  intros F Hp Hin Hl H Ht Hlen. set (rc' := send (calls effs) (set_peer p rf rc)).
  assert (forall i, peer rc' i = if decide (p = i) then rf else peer rc i) as Hpeer by (intros i; apply (peer_set p rf rc i)).
  destruct (move_peer rc rc' p rf) as [G1 F1]; try done.
  { left. by apply (rc_answer n rc p j args reply rf effs). }
  exists rc'. split_and!; try done; [| rewrite Hpeer; by rewrite decide_True].
  intros i Hi. by rewrite Hpeer, decide_False.
Qed.

(** The leader's tables with new values for server [j]. *)
Definition tables (j x m : Z) rf : Raft Cmd :=
  with_indexes (<[Z.to_nat j := x]> (next_index_ rf)) (<[Z.to_nat j := m]> (match_index_ rf)) rf.

Lemma success_moves rf p j args x m : peer_ok p rf -> role_ rf = Leader -> current_term_ rf = ae_Term args -> is_peer n j ->
  to_send j rf x m -> 0 <= ae_PreviousLogIndex args -> ae_PreviousLogIndex args + zlen (ae_Entries args) < 2 ^ 63 ->
  let nm := ae_PreviousLogIndex args + zlen (ae_Entries args) in
  appendEntriesReply j args (mkAEReply 0 true 0 0 0) rf = Ok (if decide (nm > m) then tables j (nm + 1) nm rf else rf, [GoCommit]).
Proof.
  intros P Hr Ht Hj TS Hp Hb nm. pose proof (po_term _ _ P). pose proof (zlen_nonneg (ae_Entries args)). unfold is_peer in Hj.
  unfold appendEntriesReply. simpl. rewrite decide_False by lia. rewrite decide_False by (intros [?|?]; [by rewrite Hr in * | lia]).
  rewrite (slice_get_zlookup _ _ _ (ts_match _ _ _ _ TS)). cbn [res_bind]. rewrite (u64_small (zlen _)), u64_small by lia. fold nm.
  case_decide; [| done]. unfold slice_set. rewrite (po_match _ _ P), (po_next _ _ P), !decide_True by lia. cbn [res_bind].
  rewrite u64_small by lia. done.
Qed.

Lemma newNextIndex_positive args reply rf x : peer_ok (me rf) rf -> backs_up args reply ->
  0 <= ae_PreviousLogIndex args <= last_index rf -> newNextIndex args reply rf = Ok x -> 1 <= x.
Proof.
  intros P [_ _ Hlen Hf] Hp H. pose proof (po_lii _ _ P) as Hlii. pose proof (po_len _ _ P).
  unfold newNextIndex in H. case_decide; [injection H as <-; lia |]. destruct Hf as [?|Hf]; [lia |].
  case_decide; [injection H as <-; lia |].
  destruct (searchTerm_spec (Z.to_nat (ae_PreviousLogIndex args - last_included_index_ rf)) (ae_PreviousLogIndex args)
    (aer_ConflictEntryTerm reply) rf (po_wf _ _ P)) as (r & Hr & Hle & Hge & _); [lia.. |].
  rewrite Hr in H. cbn [res_bind] in H. case_decide; [injection H as <-; lia |]. injection H as <-.
  rewrite Hlii in Hge. specialize (Hge ltac:(lia)). unfold last_index in Hp. rewrite u64_small; lia.
Qed.

Lemma failure_moves rc p j args reply : fits rc -> is_peer n p -> role_ (peer rc p) = Leader ->
  current_term_ (peer rc p) = ae_Term args -> ae_LeaderID args = p -> (args, j, reply) ∈ answers rc -> is_peer n j ->
  backs_up args reply -> zlookup (match_index_ (peer rc p)) j = Some 0 -> 1 <= ae_PreviousLogIndex args ->
  exists x effs, 1 <= x <= ae_PreviousLogIndex args /\
    appendEntriesReply j args reply (peer rc p) = Ok (tables j x 0 (peer rc p), effs).
Proof.
  intros F Hp Hr Ht Hl Hin Hj BU Hm Hp1. pose proof (fits_ok _ _ F Hp) as P. assert (0 <= n) as Hn0 by lia.
  destruct (sim_reachable n Hn0 rc (ft_reach _ F)) as (a & R & S). pose proof (sm_node _ _ _ S p Hp) as NS.
  pose proof (sm_answer _ _ _ S _ _ _ Hin) as HA. unfold is_peer in Hj.
  destruct (appendEntriesReply_ok n a p (peer rc p) R Hp NS j args reply HA Hl) as [[rf effs] H].
  destruct HA as (Happ & _ & Hfail). rewrite (bu_success _ _ BU) in Hfail.
  destruct (sim_newNextIndex n a p (peer rc p) args reply R Hp NS Hr Ht Happ Hl Hfail) as (x & Hx & Hxb & Hpl).
  assert (1 <= x) as Hx1.
  { eapply newNextIndex_positive; [rewrite (po_me _ _ P); done | done | | done]. unfold last_index. rewrite (po_lii _ _ P). lia. }
  exists x, effs. split; [lia |]. rewrite H. pose proof H as H2. unfold appendEntriesReply in H2.
  pose proof (po_term _ _ P). rewrite (bu_term _ _ BU), decide_False in H2 by lia.
  rewrite decide_False in H2 by (intros [E|E]; [by rewrite Hr in E | lia]). rewrite (bu_success _ _ BU) in H2. cbn [negb] in H2.
  rewrite (slice_get_zlookup _ _ _ Hm) in H2. cbn [res_bind] in H2. rewrite decide_False, Hx in H2 by lia. cbn [res_bind] in H2.
  rewrite (po_lii _ _ P), !decide_False in H2 by lia. unfold slice_set in H2. rewrite (po_next _ _ P), decide_True in H2 by lia.
  cbn [res_bind] in H2. apply res_bind_ok in H2 as (e & _ & H2). injection H2 as <- _. unfold tables. do 2 f_equal. f_equal.
  rewrite list_insert_id; [done |]. unfold zlookup in Hm. by rewrite decide_True in Hm by lia.
Qed.

(** The peers [p], a leader, and [j] exchange messages: of the leader only
    what it knows of [j] changes. *)
Record exchange (p j : Z) rc rc' : Prop := mkExchange {
  ex_go : go rc rc';
  ex_fits : fits rc';
  ex_others : forall i, i <> p -> i <> j -> peer rc' i = peer rc i;
  ex_leader : peer rc' p = peer rc p \/ exists x m, peer rc' p = tables j x m (peer rc p);
  ex_term : current_term_ (peer rc' j) = current_term_ (peer rc p);
}.

Lemma tables_tables j x m x' m' rf : tables j x m (tables j x' m' rf) = tables j x m rf.
Proof. unfold tables. simpl. by rewrite !list_insert_insert_eq. Qed.

Lemma exchange_trans p j rc1 rc2 rc3 : exchange p j rc1 rc2 -> exchange p j rc2 rc3 -> exchange p j rc1 rc3.
Proof.
  intros [G1 F1 O1 L1 T1] [G2 F2 O2 L2 T2]. split.
  - by eapply go_trans.
  - done.
  - intros i Hp Hj. by rewrite O2, O1.
  - destruct L2 as [->|(x & m & ->)]; [done |]. right. exists x, m. destruct L1 as [->|(x' & m' & ->)]; [done |]. apply tables_tables.
  - rewrite T2. destruct L1 as [->|(x' & m' & ->)]; done.
Qed.

Lemma exchange_frame p j rc rc' : exchange p j rc rc' -> role_ (peer rc' p) = role_ (peer rc p) /\
  current_term_ (peer rc' p) = current_term_ (peer rc p) /\ logs_ (peer rc' p) = logs_ (peer rc p) /\
  commit_index_ (peer rc' p) = commit_index_ (peer rc p) /\ last_included_index_ (peer rc' p) = last_included_index_ (peer rc p).
Proof. intros E. destruct (ex_leader _ _ _ _ E) as [->|(x & m & ->)]; done. Qed.

(** What the leader knows of the other servers stays. *)
Lemma exchange_to_send p j rc rc' i x m : exchange p j rc rc' -> 0 <= i -> 0 <= j -> i <> j -> to_send i (peer rc p) x m -> to_send i (peer rc' p) x m.
Proof.
  intros E Hi Hj Hne [H1 H2 H3 H4]. destruct (ex_leader _ _ _ _ E) as [->|(x' & m' & ->)]; [by split |].
  unfold zlookup in *. rewrite decide_True in * by done.
  split; try done; simpl; unfold zlookup; rewrite decide_True by done; by rewrite list_lookup_insert_ne by lia.
Qed.

Lemma tables_to_send j x m rf i : peer_ok i rf -> is_peer n j -> 0 < x <= zlen (logs_ rf) -> 0 <= m < zlen (logs_ rf) ->
  to_send j (tables j x m rf) x m.
Proof.
  intros P Hj Hx Hm. unfold is_peer in Hj. split; try done; simpl; apply zlookup_insert_eq; [rewrite (po_next _ _ P); lia | rewrite (po_match _ _ P); lia].
Qed.

(** A round in which the check passes. *)
Lemma round_accepted rc p j x m : fits rc -> is_peer n p -> role_ (peer rc p) = Leader -> is_peer n j -> j <> p ->
  current_term_ (peer rc j) <= current_term_ (peer rc p) -> to_send j (peer rc p) x m ->
  term_at (peer rc j) (x - 1) = term_at (peer rc p) (x - 1) ->
  let es := if decide (x = m + 1) then drop (Z.to_nat x) (logs_ (peer rc p)) else [] in
  let nm := x - 1 + zlen es in
  exists rc', exchange p j rc rc' /\ logs_ (peer rc' j) = merged_logs (peer rc j) (x - 1) es /\
    commit_index_ (peer rc' j) = Z.max (commit_index_ (peer rc j)) (Z.min (commit_index_ (peer rc p)) nm) /\
    peer rc' p = if decide (nm > m) then tables j (nm + 1) nm (peer rc p) else peer rc p.
Proof.
  intros F Hp Hr Hj Hne Ht TS Hat es nm. destruct (sends rc p j x m F Hp Hr Hj Hne TS) as (rc1 & e & G1 & F1 & Hp1 & He & Hin).
  set (args := the_call (peer rc p) x m e) in *. pose proof (fits_ok _ _ F Hj) as Pj. pose proof (fits_ok _ _ F Hp) as Pp.
  destruct TS as [Hx Hm Hxb Hmb] eqn:ETS. destruct (ft_bounds _ F p Hp) as [Bt Bl]. destruct (ft_bounds _ F j Hj) as [_ Blj].
  assert (nm < zlen (logs_ (peer rc p))) as Hnm.
  { unfold nm, es. case_decide; [rewrite zlen_drop by lia | rewrite zlen_nil]; lia. }
  assert (term_at (peer rc j) (x - 1) = Some (Term_ e)) as Hate by (rewrite Hat; unfold term_at; by rewrite He).
  assert (0 <= x - 1 <= last_index (peer rc j)) as Hlj.
  { unfold term_at in Hate. apply fmap_Some in Hate as (y & Hy & _). apply zlookup_Some_range in Hy. unfold last_index.
    rewrite (po_lii _ _ Pj) in *. lia. }
  pose proof (zlen_merged_logs (peer rc j) (x - 1) es (po_wf _ _ Pj)) as [_ Hml]; [by rewrite (po_lii _ _ Pj) |].
  rewrite (po_lii _ _ Pj) in Hml.
  destruct (accepts args (peer rc j) j Pj) as (rf & effs & H & El & Ec); [done | unfold args; simpl; lia | done | unfold args; simpl; fold es; lia |].
  destruct (AppendEntries_hears _ _ _ _ _ (Ht : current_term_ (peer rc j) <= ae_Term args) H) as (_ & Etj & _).
  assert (ae_PreviousLogIndex args = x - 1 /\ ae_Entries args = es) as [Ea1 Ea2] by done. rewrite Ea1, Ea2 in El, Ec. fold nm in Ec.
  destruct (handles rc1 args j rf (mkAEReply 0 true 0 0 0) effs) as (rc2 & G2 & F2 & O2 & Ej2 & Hin2); rewrite ?Hp1; try done.
  { rewrite Etj. simpl. lia. } { rewrite El. lia. }
  assert (peer rc2 p = peer rc p) as Ep by (rewrite O2, Hp1 by done; done).
  pose proof (success_moves (peer rc p) p j args x m Pp Hr eq_refl Hj) as HS. rewrite Ea1, Ea2 in HS. fold nm in HS.
  set (rf' := if decide (nm > m) then tables j (nm + 1) nm (peer rc p) else peer rc p) in *.
  assert (current_term_ rf' = current_term_ (peer rc p) /\ logs_ rf' = logs_ (peer rc p)) as [E1 E2] by (unfold rf'; by case_decide).
  destruct (hears_answer rc2 p j args (mkAEReply 0 true 0 0 0) rf' [GoCommit]) as (rc3 & G3 & F3 & O3 & E3); try done.
  { unfold args. simpl. apply (po_me _ _ Pp). } { rewrite Ep. apply HS; [by split | lia | pose proof (po_len _ _ Pp); lia]. } { by rewrite E1. } { by rewrite E2. }
  exists rc3. split_and!.
  - split; [by eapply go_trans; [| eapply go_trans] | done | | | ].
    + intros i Hip Hij. by rewrite O3, O2, Hp1.
    + rewrite E3. unfold rf'. case_decide; [right; by eexists _, _ | by left].
    + rewrite O3, Ej2 by done. exact Etj.
  - by rewrite O3, Ej2.
  - by rewrite O3, Ej2.
  - done.
Qed.

(** A round in which the check fails. *)
Lemma round_rejected rc p j x : fits rc -> is_peer n p -> role_ (peer rc p) = Leader -> is_peer n j -> j <> p ->
  current_term_ (peer rc j) <= current_term_ (peer rc p) -> to_send j (peer rc p) x 0 -> 1 < x ->
  term_at (peer rc j) (x - 1) <> term_at (peer rc p) (x - 1) ->
  exists rc' y, exchange p j rc rc' /\ logs_ (peer rc' j) = logs_ (peer rc j) /\
    1 <= y < x /\ peer rc' p = tables j y 0 (peer rc p).
Proof.
  intros F Hp Hr Hj Hne Ht TS Hx1 Hat. destruct (sends rc p j x 0 F Hp Hr Hj Hne TS) as (rc1 & e & G1 & F1 & Hp1 & He & Hin).
  set (args := the_call (peer rc p) x 0 e) in *. pose proof (fits_ok _ _ F Hj) as Pj. pose proof (fits_ok _ _ F Hp) as Pp.
  destruct (ft_bounds _ F p Hp) as [Bt Bl]. destruct (ft_bounds _ F j Hj) as [_ Blj].
  assert (term_at (peer rc p) (x - 1) = Some (Term_ e)) as Hate by (unfold term_at; by rewrite He).
  destruct (rejects args (peer rc j) j Pj) as (reply & H & BU); [done | unfold args; simpl; lia | unfold args; simpl; congruence |].
  destruct (AppendEntries_hears _ _ _ _ _ (Ht : current_term_ (peer rc j) <= ae_Term args) H) as (_ & Etj & _).
  destruct (heard_leader_logs 0 (ae_Term args) (peer rc j)) as (El & _ & _). set (rf := heard_leader _ _ _) in *.
  destruct (handles rc1 args j rf reply []) as (rc2 & G2 & F2 & O2 & Ej2 & Hin2); rewrite ?Hp1; try done.
  { by rewrite Etj. } { by rewrite El. }
  assert (peer rc2 p = peer rc p) as Ep by (rewrite O2, Hp1 by done; done).
  assert (ae_LeaderID args = p) as Hlead by apply (po_me _ _ Pp).
  destruct (failure_moves rc2 p j args reply) as (y & effs & Hy & HR); try done; rewrite ?Ep; try done.
  { apply TS. } { unfold args. simpl. lia. }
  destruct (hears_answer rc2 p j args reply (tables j y 0 (peer rc p)) effs) as (rc3 & G3 & F3 & O3 & E3); try done; [congruence |].
  exists rc3, y. split_and!.
  - split; [by eapply go_trans; [| eapply go_trans] | done | | | ].
    + intros i Hip Hij. by rewrite O3, O2, Hp1.
    + rewrite E3. right. by eexists _, _.
    + rewrite O3, Ej2 by done. exact Etj.
  - by rewrite O3, Ej2.
  - lia.
  - unfold args in Hy. simpl in Hy. lia.
  - done.
Qed.

Lemma merged_nil rf m : merged_logs rf m [] = logs_ rf.
Proof. unfold merged_logs. replace (merge _ []) with (drop (Z.to_nat (m + 1 - last_included_index_ rf)) (logs_ rf)); [apply take_drop | by destruct (drop _ _)]. Qed.

(** The follower's log after everything from [m] on has been merged. *)
Lemma merged_last rf rf' i L m : peer_ok i rf -> 0 <= m < zlen L -> m <= last_index rf ->
  term_at rf m = Term_ <$> zlookup L m -> logs_ rf' = merged_logs rf m (drop (Z.to_nat (m + 1)) L) ->
  last_included_index_ rf' = 0 -> term_at rf' (zlen L - 1) = Term_ <$> zlookup L (zlen L - 1).
Proof.
  intros P Hm Hl Hat El Hlii. pose proof (po_lii _ _ P) as Hlii0. unfold last_index in Hl.
  unfold term_at, entry_at in *. rewrite Hlii, Z.sub_0_r. rewrite Hlii0, Z.sub_0_r in Hat. destruct (decide (m = zlen L - 1)) as [->|Hne].
  - rewrite El, drop_ge by (unfold zlen; lia). by rewrite merged_nil.
  - set (es := drop (Z.to_nat (m + 1)) L) in *.
    destruct (zlookup L (zlen L - 1)) as [e|] eqn:Ee; [| unfold zlookup in Ee; rewrite decide_True in Ee by lia; apply lookup_ge_None in Ee; unfold zlen in *; lia].
    assert (es !! Z.to_nat (zlen L - 2 - m) = Some e) as Hes.
    { unfold es. rewrite lookup_drop. unfold zlookup in Ee. rewrite decide_True in Ee by lia. rewrite <- Ee. f_equal. lia. }
    destruct (merge_terms (drop (Z.to_nat (m + 1)) (logs_ rf)) es _ _ Hes) as (e' & He' & Ht).
    unfold zlookup. rewrite decide_True, El by lia. unfold merged_logs. rewrite Hlii0, Z.sub_0_r.
    rewrite lookup_app_r; rewrite length_take; unfold zlen in *; [| lia].
    replace (_ - _)%nat with (Z.to_nat (Z.of_nat (length L) - 2 - m)) by lia. rewrite He'. simpl. by rewrite Ht.
Qed.

Lemma term_at_zero rf i : peer_ok i rf -> term_at rf 0 = Some 0.
Proof. intros P. unfold term_at. by rewrite (po_zero _ _ P). Qed.

Lemma term_at_logs rf rf' i j k : peer_ok i rf -> peer_ok j rf' -> logs_ rf' = logs_ rf -> term_at rf' k = term_at rf k.
Proof. intros P P' E. unfold term_at. by rewrite (entry_at_frame rf) by (done || rewrite (po_lii _ _ P'), (po_lii _ _ P); done). Qed.

Lemma exchange_refl p j rc : fits rc -> current_term_ (peer rc j) = current_term_ (peer rc p) -> exchange p j rc rc.
Proof. intros F Ht. split; try done. by left. Qed.

(** A leader that knows nothing of [j] finds where their logs agree. *)
Lemma probe p j : is_peer n p -> is_peer n j -> j <> p -> forall (k : nat) rc x, fits rc -> role_ (peer rc p) = Leader ->
  current_term_ (peer rc j) = current_term_ (peer rc p) -> to_send j (peer rc p) x 0 -> x <= Z.of_nat k ->
  exists rc' m, exchange p j rc rc' /\ logs_ (peer rc' j) = logs_ (peer rc j) /\
    to_send j (peer rc' p) (m + 1) m /\ term_at (peer rc' j) m = term_at (peer rc' p) m.
Proof.
  intros Hp Hj Hne. induction k as [|k IH]; intros rc x F Hr Ht TS Hk; [destruct TS; lia |].
  pose proof (fits_ok _ _ F Hj) as Pj. pose proof (fits_ok _ _ F Hp) as Pp. pose proof (ts_x _ _ _ _ TS) as Hx.
  destruct (decide (x = 1)) as [->|Hx1].
  { exists rc, 0. split_and!; [by apply exchange_refl | done | done |]. by rewrite (term_at_zero _ _ Pj), (term_at_zero _ _ Pp). }
  destruct (decide (term_at (peer rc j) (x - 1) = term_at (peer rc p) (x - 1))) as [Hat|Hat].
  - destruct (round_accepted rc p j x 0) as (rc' & E & El & _ & Ep); try done; [lia |].
    rewrite decide_False in El, Ep by lia. rewrite zlen_nil, decide_True in Ep by lia. replace (x - 1 + 0) with (x - 1) in Ep by lia.
    assert (logs_ (peer rc' j) = logs_ (peer rc j)) as El'.
    { rewrite El. apply merged_nil. }
    exists rc', (x - 1). split_and!; [done | done | |].
    + rewrite Ep. apply (tables_to_send j (x - 1 + 1) (x - 1) _ p); try done; lia.
    + pose proof (ex_fits _ _ _ _ E) as F'. destruct (exchange_frame _ _ _ _ E) as (_ & _ & Elp & _).
      rewrite (term_at_logs (peer rc j) (peer rc' j) j j) by (done || by apply fits_ok).
      by rewrite (term_at_logs (peer rc p) (peer rc' p) p p) by (done || by apply fits_ok).
  - destruct (round_rejected rc p j x) as (rc1 & y & E & El & Hy & Ep); try done; [lia | lia |].
    destruct (exchange_frame _ _ _ _ E) as (Er & Et & _).
    destruct (IH rc1 y) as (rc2 & m & E2 & El2 & TS2 & Hat2).
    + apply E.
    + congruence.
    + rewrite (ex_term _ _ _ _ E). congruence.
    + rewrite Ep. apply (tables_to_send _ _ _ _ p); try done; [lia |]. pose proof (ts_m _ _ _ _ TS). lia.
    + lia.
    + exists rc2, m. split_and!; [by eapply exchange_trans | congruence | done | done].
Qed.

(** Server [j] holds the last entry of the leader, who knows. *)
Record synced (p j : Z) rc : Prop := mkSynced {
  sy_send : to_send j (peer rc p) (zlen (logs_ (peer rc p))) (zlen (logs_ (peer rc p)) - 1);
  sy_term : term_at (peer rc j) (zlen (logs_ (peer rc p)) - 1) = term_at (peer rc p) (zlen (logs_ (peer rc p)) - 1);
}.

(** The leader brings [j] up to date. *)
Lemma sync rc p j x : is_peer n p -> is_peer n j -> j <> p -> fits rc -> role_ (peer rc p) = Leader ->
  current_term_ (peer rc j) = current_term_ (peer rc p) -> to_send j (peer rc p) x 0 ->
  exists rc', exchange p j rc rc' /\ synced p j rc'.
Proof.
  intros Hp Hj Hne F Hr Ht TS.
  destruct (probe p j Hp Hj Hne (Z.to_nat x) rc x) as (rc1 & m & E1 & _ & TS1 & Hat); try done; [destruct TS; lia |].
  pose proof (ex_fits _ _ _ _ E1) as F1. destruct (exchange_frame _ _ _ _ E1) as (Er & Et & _).
  pose proof (fits_ok _ _ F1 Hj) as Pj. pose proof (fits_ok _ _ F1 Hp) as Pp.
  destruct (round_accepted rc1 p j (m + 1) m) as (rc2 & E2 & El & _ & Ep); try done.
  { congruence. } { by rewrite (ex_term _ _ _ _ E1), Et. } { by replace (m + 1 - 1) with m by lia. }
  rewrite decide_True in El, Ep by done. replace (m + 1 - 1) with m in El, Ep by lia.
  exists rc2. split; [by eapply exchange_trans |].
  destruct (exchange_frame _ _ _ _ E2) as (_ & _ & Elp & _). pose proof (ex_fits _ _ _ _ E2) as F2.
  pose proof (ts_m _ _ _ _ TS1) as Hm. pose proof (ts_x _ _ _ _ TS1). rewrite zlen_drop in Ep by lia.
  replace (m + Z.max 0 (zlen (logs_ (peer rc1 p)) - (m + 1))) with (zlen (logs_ (peer rc1 p)) - 1) in Ep by lia.
  assert (forall k, term_at (peer rc1 p) k = Term_ <$> zlookup (logs_ (peer rc1 p)) k) as Htl.
  { intros k. unfold term_at, entry_at. by rewrite (po_lii _ _ Pp), Z.sub_0_r. }
  assert (m <= last_index (peer rc1 j)) as Hmj.
  { unfold last_index. rewrite Htl in Hat. unfold zlookup in Hat. rewrite decide_True in Hat by lia.
    destruct (lookup_lt_is_Some_2 (logs_ (peer rc1 p)) (Z.to_nat m)) as [y Hy]; [unfold zlen in *; lia |]. rewrite Hy in Hat.
    unfold term_at in Hat. apply fmap_Some in Hat as (z & Hz & _). apply zlookup_Some_range in Hz. lia. }
  split; rewrite !Elp.
  - rewrite Ep. case_decide.
    + replace (zlen (logs_ (peer rc1 p)) - 1 + 1) with (zlen (logs_ (peer rc1 p))) by lia.
      apply (tables_to_send _ _ _ _ p); try done; lia.
    + assert (m = zlen (logs_ (peer rc1 p)) - 1) as -> by lia. by replace (zlen (logs_ (peer rc1 p)) - 1 + 1) with (zlen (logs_ (peer rc1 p))) in TS1 by lia.
  - rewrite (term_at_logs (peer rc1 p) (peer rc2 p) p p) by (done || by apply fits_ok). rewrite Htl.
    apply (merged_last (peer rc1 j) _ j _ m); try done; [by rewrite Hat, Htl | apply (fits_ok _ _ F2 Hj)].
Qed.

(** The leader's next message tells [j] the commit index. *)
Lemma learn rc p j : is_peer n p -> is_peer n j -> j <> p -> fits rc -> role_ (peer rc p) = Leader ->
  current_term_ (peer rc j) = current_term_ (peer rc p) -> synced p j rc ->
  exists rc', exchange p j rc rc' /\ Z.min (commit_index_ (peer rc p)) (zlen (logs_ (peer rc p)) - 1) <= commit_index_ (peer rc' j).
Proof.
  intros Hp Hj Hne F Hr Ht [TS Hat].
  destruct (round_accepted rc p j _ _ F Hp Hr Hj Hne ltac:(lia) TS Hat) as (rc' & E & _ & Ec & _).
  exists rc'. split; [done |]. pose proof (ts_m _ _ _ _ TS). rewrite Ec, decide_True by lia. rewrite zlen_drop by lia. lia.
Qed.

(** ** All servers *)

(** Peer [p] leads everybody in term [T] with the log [L] and the commit
    index [c]. *)
Record steady (p T : Z) (L : list (LogEntry Cmd)) (c : Z) rc : Prop := mkSteady {
  st_fits : fits rc;
  st_peer : is_peer n p;
  st_role : role_ (peer rc p) = Leader;
  st_terms : forall j, is_peer n j -> current_term_ (peer rc j) = T;
  st_logs : logs_ (peer rc p) = L;
  st_commit : commit_index_ (peer rc p) = c;
}.

Lemma exchange_steady p T L c j rc rc' : steady p T L c rc -> exchange p j rc rc' -> steady p T L c rc'.
Proof.
  intros [F Hp Hr Ht HL Hc] E. destruct (exchange_frame _ _ _ _ E) as (Er & Et & El & Ec & _).
  split; [apply E | done | congruence | | congruence | congruence].
  intros i Hi. destruct (decide (i = p)) as [->|Hip]; [rewrite Et; by apply Ht |].
  destruct (decide (i = j)) as [->|Hij]; [rewrite (ex_term _ _ _ _ E); by apply Ht |]. rewrite (ex_others _ _ _ _ E) by done. by apply Ht.
Qed.

(** A property of a server that the exchanges of the leader with other
    servers keep. *)
Definition stable (p : Z) (P : Z -> RCluster -> Prop) : Prop := forall rc rc' i j,
  i ∈ others n p -> j ∈ others n p -> i <> j -> exchange p j rc rc' -> P i rc -> P i rc'.

Lemma each p T L c (P Q : Z -> RCluster -> Prop) : stable p P -> stable p Q ->
  (forall rc j, j ∈ others n p -> steady p T L c rc -> P j rc -> exists rc', exchange p j rc rc' /\ Q j rc') ->
  forall l, NoDup l -> l ⊆ others n p -> forall rc, steady p T L c rc -> (forall j, j ∈ l -> P j rc) ->
  exists rc', go rc rc' /\ steady p T L c rc' /\ (forall j, j ∈ l -> Q j rc') /\
    (forall j, j ∈ others n p -> j ∉ l -> Q j rc -> Q j rc').
Proof.
  intros SP SQ Hstep. induction 1 as [|j l Hj _ IH]; intros Hl rc S HP.
  { exists rc. split_and!; try done. by intros j ?%elem_of_nil. }
  assert (j ∈ others n p) as Hjo by (apply Hl; by left).
  assert (forall i, i ∈ l -> i ∈ others n p /\ i <> j) as Hlo by (intros i Hi; split; [apply Hl; by right | by intros ->]).
  destruct (Hstep rc j Hjo S) as (rc1 & E & HQ); [apply HP; by left |].
  destruct (IH) with (rc := rc1) as (rc2 & G2 & S2 & HQ2 & HK2); [intros i Hi; by apply Hlo | by eapply exchange_steady | |].
  { intros i Hi. destruct (Hlo i Hi). apply (SP rc rc1 i j); try done. apply HP. by right. }
  exists rc2. split_and!; [eapply go_trans; [apply E | done] | done | |].
  - intros i [->|Hi]%elem_of_cons; [by apply HK2 | by apply HQ2].
  - intros i Hio [Hij Hil]%not_elem_of_cons Hi. apply HK2; [done | done |]. by apply (SQ rc rc1 i j).
Qed.

Lemma each_other p T L c (P Q : Z -> RCluster -> Prop) rc : stable p P -> stable p Q ->
  (forall rc j, j ∈ others n p -> steady p T L c rc -> P j rc -> exists rc', exchange p j rc rc' /\ Q j rc') ->
  steady p T L c rc -> (forall j, j ∈ others n p -> P j rc) ->
  exists rc', go rc rc' /\ steady p T L c rc' /\ forall j, j ∈ others n p -> Q j rc'.
Proof.
  intros SP SQ H S HP. destruct (each p T L c P Q SP SQ H (others n p) (NoDup_others p) ltac:(done) rc S HP) as (rc' & G & S' & HQ & _).
  by exists rc'.
Qed.

Lemma others_nonneg p j : j ∈ others n p -> 0 <= j.
Proof. intros [[? _] _]%elem_of_others. done. Qed.

Lemma synced_stable p : stable p (synced p).
Proof.
  intros rc rc' i j Hi Hj Hne E [TS Hat]. destruct (exchange_frame _ _ _ _ E) as (_ & _ & El & _ & Ei).
  pose proof Hi as [_ Hip]%elem_of_others.
  pose proof (others_nonneg _ _ Hi). pose proof (others_nonneg _ _ Hj).
  split; rewrite El; [by apply (exchange_to_send p j rc rc') |].
  rewrite (ex_others _ _ _ _ E) by done. rewrite Hat. unfold term_at. by rewrite (entry_at_frame (peer rc p) (peer rc' p)).
Qed.

(** Everybody holds what the leader holds. *)
Lemma sync_all p T L c rc : steady p T L c rc -> (forall j, j ∈ others n p -> exists x, to_send j (peer rc p) x 0) ->
  exists rc', go rc rc' /\ steady p T L c rc' /\ forall j, j ∈ others n p -> synced p j rc'.
Proof.
  apply (each_other p T L c (fun j rc => exists x, to_send j (peer rc p) x 0)).
  - intros rc1 rc2 i j Hi Hj Hne E (x & TS). exists x.
    pose proof (others_nonneg _ _ Hi). pose proof (others_nonneg _ _ Hj). by apply (exchange_to_send p j rc1 rc2).
  - apply synced_stable.
  - intros rc1 j [Hj Hne]%elem_of_others S (x & TS). destruct S. eapply sync; try done. by rewrite !st_terms0.
Qed.

(** Everybody knows of the commit. *)
Lemma learn_all p T L c rc : steady p T L c rc -> (forall j, j ∈ others n p -> synced p j rc) -> c <= zlen L - 1 ->
  exists rc', go rc rc' /\ steady p T L c rc' /\ forall j, j ∈ others n p -> c <= commit_index_ (peer rc' j).
Proof.
  intros S HS Hc. apply (each_other p T L c (synced p)); try done; [apply synced_stable | |].
  - intros rc1 rc2 i j [_ Hi]%elem_of_others Hj Hne E H. by rewrite (ex_others _ _ _ _ E).
  - intros rc1 j [Hj Hne]%elem_of_others [F Hp Hr Ht El Ec] HSj. destruct (learn rc1 p j) as (rc2 & E & H); try done.
    { by rewrite !Ht. } exists rc2. split; [done |]. rewrite Ec, El in H. lia.
Qed.

Lemma count_ge_all v (l : list Z) : Forall (fun x => v <= x) l -> count_ge v l = zlen l.
Proof.
  intros H. unfold count_ge. rewrite filter_all; [done |]. intros x Hx. rewrite list.Forall_forall in H. by apply H.
Qed.

(** The leader commits what everybody holds. *)
Lemma commits p T L c rc : steady p T L c rc -> (forall j, j ∈ others n p -> synced p j rc) ->
  (exists e, list.last L = Some e /\ Term_ e = T) ->
  exists rc', go rc rc' /\ steady p T L (zlen L - 1) rc' /\ forall j, j ∈ others n p -> synced p j rc'.
Proof.
  intros [F Hp Hr Ht El Ec] HS (e & He & Hte). pose proof (fits_ok _ _ F Hp) as P. pose proof (po_wf _ _ P) as W.
  assert (0 <= n) as Hn0 by lia. destruct (sim_reachable n Hn0 rc (ft_reach _ F)) as (a & R & S).
  pose proof (sm_node _ _ _ S p Hp) as NS. pose proof (sim_wf_indexes n a p _ R Hp NS (po_peers _ _ P) (po_me _ _ P) Hr) as WI.
  destruct (majorityIndex_spec (peer rc p) W WI) as (k & Hk & Hin & _ & Hmax).
  destruct (matched_range _ _ W WI Hin) as [Hkl _].
  assert (last_index (peer rc p) = zlen L - 1) as Hli by (unfold last_index; rewrite (po_lii _ _ P), El; lia).
  assert (k = zlen L - 1) as ->.
  { apply Z.le_antisymm; [lia |]. apply Hmax. rewrite count_ge_all.
    - unfold matched. rewrite zlen_insert, (po_match _ _ P), (po_peers _ _ P). apply Z.div_lt; lia.
    - apply Forall_lookup. intros i m [(_ & <- & _) | (Hne & Hm)]%list_lookup_insert_Some; [lia |].
      rewrite (po_me _ _ P) in Hne. pose proof (lookup_lt_Some _ _ _ Hm) as Hlt.
      assert (Z.of_nat i ∈ others n p) as Hio.
      { pose proof (po_match _ _ P). apply elem_of_others. unfold is_peer, zlen in *. split; [lia |]. intros E. apply Hne. by rewrite <- E, Nat2Z.id. }
      pose proof (ts_match _ _ _ _ (sy_send _ _ _ (HS _ Hio))) as Hm'. unfold zlookup in Hm'. rewrite decide_True, Nat2Z.id, Hm in Hm' by lia.
      injection Hm' as ->. rewrite El. lia. }
  pose proof (po_commit _ _ P) as Hcb. rewrite El, Ec in Hcb.
  pose proof (wf_len _ W) as Hlen. rewrite El in Hlen.
  assert (exists effs, commit (peer rc p) = Ok (with_commit (zlen L - 1) (peer rc p), effs)) as [effs Hc].
  { unfold commit. rewrite decide_False, Hk by (by intros Hl). cbn [res_bind]. rewrite Ec. case_decide as Hd.
    - destruct (getLogEntry_wf (peer rc p) (zlen L - 1) W) as (e' & He' & ->); [rewrite (po_lii _ _ P), El; lia |].
      unfold entry_at, zlookup in He'. rewrite (po_lii _ _ P), El, decide_True in He' by lia.
      rewrite last_lookup in He. replace (Z.to_nat (zlen L - 1 - 0)) with (pred (length L)) in He' by (unfold zlen; lia).
      rewrite He in He'. injection He' as <-. cbn [res_bind]. rewrite decide_True by (rewrite Ht; done). by eexists.
    - assert (c = zlen L - 1) as <- by lia. exists []. do 2 f_equal. rewrite <- Ec. by destruct (peer rc p). }
  set (rf := with_commit (zlen L - 1) (peer rc p)) in *. set (rc' := set_peer p rf rc).
  assert (forall i, peer rc' i = if decide (p = i) then rf else peer rc i) as Hpeer by (intros i; apply (peer_set p rf rc i)).
  destruct (ft_bounds _ F p Hp) as [Bt Bl].
  destruct (move_peer rc rc' p rf) as [G1 F1]; try done. { left. by apply (rc_commit n rc p rf effs). }
  assert (peer rc' p = rf) as Ep by (rewrite Hpeer; by rewrite decide_True).
  exists rc'. split_and!; [done | |].
  - split; rewrite ?Ep; try done. intros j Hj. rewrite Hpeer. case_decide; [subst j; by apply Ht | by apply Ht].
  - intros j Hj. destruct (HS j Hj) as [TS Hat]. pose proof Hj as [_ Hne]%elem_of_others.
    split; rewrite Ep; [destruct TS; by split |]. rewrite Hpeer, decide_False by done. exact Hat.
Qed.

(** A peer applies what it knows to be committed. *)
Lemma apply_one rc i : fits rc -> is_peer n i ->
  exists rc', go rc rc' /\ fits rc' /\ others_same i rc rc' /\
    peer rc' i = with_applied (commit_index_ (peer rc i)) (peer rc i).
Proof.
  intros F Hi. pose proof (fits_ok _ _ F Hi) as P. pose proof (po_commit _ _ P). pose proof (po_applied _ _ P). pose proof (po_len _ _ P).
  destruct (applierCommands_sends (peer rc i) (po_wf _ _ P)) as (msgs & Hmsgs & _); rewrite ?(po_lii _ _ P); [lia | unfold last_index; rewrite (po_lii _ _ P); lia | lia |].
  set (rf := with_applied (commit_index_ (peer rc i)) (peer rc i)) in *. set (rc' := delivers i msgs (set_peer i rf rc)).
  assert (forall j, peer rc' j = if decide (i = j) then rf else peer rc j) as Hp by (intros j; apply (peer_set i rf rc j)).
  destruct (ft_bounds _ F i Hi) as [Bt Bl].
  destruct (move_peer rc rc' i rf) as [G1 F1]; try done. { right. by exists i, rf, msgs. }
  exists rc'. split_and!; try done; [| rewrite Hp; by rewrite decide_True].
  intros j Hj. by rewrite Hp, decide_False.
Qed.

Lemma apply_all l : NoDup l -> forall rc, fits rc -> (forall i, i ∈ l -> is_peer n i) ->
  exists rc', go rc rc' /\ fits rc' /\ (forall i, i ∉ l -> peer rc' i = peer rc i) /\
    forall i, i ∈ l -> peer rc' i = with_applied (commit_index_ (peer rc i)) (peer rc i).
Proof.
  induction 1 as [|i l Hi _ IH]; intros rc F Hl.
  { exists rc. split_and!; try done. by intros i ?%elem_of_nil. }
  destruct (apply_one rc i F) as (rc1 & G1 & F1 & O1 & E1); [apply Hl; by left |].
  destruct (IH rc1 F1) as (rc2 & G2 & F2 & O2 & E2); [intros j Hj; apply Hl; by right |].
  exists rc2. split_and!; [by eapply go_trans | done | |].
  - intros j [Hji Hjl]%not_elem_of_cons. by rewrite O2, O1.
  - intros j [->|Hj]%elem_of_cons; [by rewrite O2 |]. assert (j <> i) by (by intros ->). by rewrite E2, O1.
Qed.

(** What everybody has delivered is what the leader committed. *)
Lemma delivered p k e rc : fits rc -> is_peer n p -> 0 < k <= commit_index_ (peer rc p) -> entry_at (peer rc p) k = Some e ->
  forall i, is_peer n i -> k <= last_applied_ (peer rc i) ->
  exists m, (Z.to_nat i, m) ∈ applied rc /\ CommandIndex m = k /\ Command m = Command_ e.
Proof.
  intros F Hp Hk He i Hi Hap. assert (0 <= n) as Hn0 by lia.
  destruct (sim_reachable n Hn0 rc (ft_reach _ F)) as (a & R & S). pose proof (spec_inv_reachable _ _ R) as I.
  pose proof (sm_node _ _ _ S p Hp) as NS. destruct (sm_delivered _ _ _ S i k Hi ltac:(lia)) as (m & Hin & Hidx).
  exists m. split_and!; [done | done |]. destruct (sm_applied _ _ _ S _ _ Hin) as (_ & _ & _ & t & u & L & y & Hc & Hu & Hy & ->).
  rewrite Hidx in Hu, Hy. destruct (ns_commit _ _ _ _ NS) as [_ Hcom]. apply (committed_down _ _ _ _ k) in Hcom; [| lia].
  destruct Hcom as [->|(t' & u' & L' & Hc' & _ & _ & Hu' & Hs')]; [lia |].
  assert (L !! Z.to_nat k = L' !! Z.to_nat k) as E1 by (apply (shares_lookup _ _ _ _ (chosen_agree n a t u L t' u' L' Hn0 I Hc Hc')); lia).
  assert (L' !! Z.to_nat k = logs_ (peer rc p) !! Z.to_nat k) as E2 by (apply (shares_lookup _ _ _ _ Hs'); lia).
  rewrite (sim_log_entry n rc a p k S Hp ltac:(lia)), (ns_log _ _ _ _ NS) in He. congruence.
Qed.

(** Nothing past the log of the leader has been delivered. *)
Lemma not_delivered p T L c rc (s : nat) m : steady p T L c rc -> (s, m) ∈ applied rc -> CommandIndex m < zlen L.
Proof.
  intros [F Hp Hr Ht <- _] Hin. assert (0 <= n) as Hn0 by lia.
  destruct (sim_reachable n Hn0 rc (ft_reach _ F)) as (a & R & S). pose proof (spec_inv_reachable _ _ R) as I.
  destruct (sm_applied _ _ _ S _ _ Hin) as (_ & _ & Hpos & t & u & K & y & Hc & Hu & Hy & _).
  destruct (ns_leader _ _ _ _ (sm_node _ _ _ S p Hp) Hr) as [HL _]. rewrite (Ht p Hp) in HL.
  assert (t <= T) as Hle.
  { pose proof Hc as (i & _ & _ & HK & _). destruct (si_tlog _ _ I _ _ _ HK) as ([_ Hti] & Hi & _).
    rewrite (ns_term _ _ _ _ (sm_node _ _ _ S i Hi)), (Ht i Hi) in Hti. done. }
  destruct (committed_leader n Hn0 a T (CommandIndex m) K T p (logs_ (peer rc p)) I) as [_ Hs]; [| done | done |].
  - right. exists t, u, K. split_and!; try done. apply shares_refl. by apply lookup_lt_Some in Hy.
  - destruct (Hs Hpos) as (_ & _ & Hlen). unfold zlen. lia.
Qed.

(** ** Finding a leader *)

Lemma peer_max (le : Z -> Z -> Prop) : (forall i j, le i j \/ le j i) -> (forall i j k, le i j -> le j k -> le i k) ->
  exists p, is_peer n p /\ forall j, is_peer n j -> le j p.
Proof.
  intros Htot Htr.
  assert (forall k : nat, Z.of_nat (S k) <= n -> exists p, is_peer n p /\ forall j, 0 <= j <= Z.of_nat k -> le j p) as H.
  { induction k as [|k IH]; intros Hk.
    - exists 0. split; [unfold is_peer; lia |]. intros j Hj. assert (j = 0) as -> by lia. by destruct (Htot 0 0).
    - destruct IH as (p & Hp & Hle); [lia |]. destruct (Htot (Z.of_nat (S k)) p) as [H|H].
      + exists p. split; [done |]. intros j Hj. destruct (decide (j = Z.of_nat (S k))) as [->|]; [done | apply Hle; lia].
      + exists (Z.of_nat (S k)). split; [unfold is_peer; lia |]. intros j Hj.
        destruct (decide (j = Z.of_nat (S k))) as [->|]; [by destruct (Htot (Z.of_nat (S k)) (Z.of_nat (S k))) |].
        apply (Htr _ p); [apply Hle; lia | done]. }
  destruct (H (Z.to_nat (n - 1))) as (p & Hp & Hle); [lia |]. exists p. split; [done |].
  intros j Hj. apply Hle. unfold is_peer in Hj. lia.
Qed.

(** What a handled call leaves. *)
Lemma any_call rc p j x m e : fits rc -> is_peer n p -> role_ (peer rc p) = Leader -> is_peer n j ->
  current_term_ (peer rc j) <= current_term_ (peer rc p) -> to_send j (peer rc p) x m -> entry_at (peer rc p) (x - 1) = Some e ->
  exists rf reply effs, AppendEntries 0 (the_call (peer rc p) x m e) (peer rc j) = Ok (rf, reply, effs) /\ zlen (logs_ rf) <= lmax.
Proof.
  intros F Hp Hr Hj Ht TS He. set (args := the_call (peer rc p) x m e).
  pose proof (fits_ok _ _ F Hj) as Pj. pose proof (fits_ok _ _ F Hp) as Pp.
  destruct (ft_bounds _ F p Hp) as [_ Bl]. destruct (ft_bounds _ F j Hj) as [_ Blj].
  pose proof (ts_x _ _ _ _ TS) as Hx. pose proof (ts_m _ _ _ _ TS) as Hm.
  assert (x - 1 + 1 + zlen (ae_Entries args) <= zlen (logs_ (peer rc p))) as Hlen.
  { unfold args. simpl. case_decide; [rewrite zlen_drop by lia | rewrite zlen_nil]; lia. }
  destruct (decide (term_at (peer rc j) (x - 1) = Some (Term_ e))) as [Hat|Hat].
  - destruct (accepts args (peer rc j) j Pj) as (rf & effs & H & El & _); [done | simpl; lia | done | simpl in *; lia |].
    exists rf, (mkAEReply 0 true 0 0 0), effs. split; [done |]. rewrite El.
    pose proof (zlen_merged_logs (peer rc j) (x - 1) (ae_Entries args) (po_wf _ _ Pj)) as HM. rewrite (po_lii _ _ Pj) in HM.
    change (ae_PreviousLogIndex args) with (x - 1).
    assert (x - 1 <= last_index (peer rc j)); [| lia].
    unfold term_at in Hat. apply fmap_Some in Hat as (y & Hy & _). apply zlookup_Some_range in Hy. unfold last_index. lia.
  - destruct (decide (x = 1)) as [->|Hx1].
    { exfalso. apply Hat. change (1 - 1) with 0 in *. rewrite (term_at_zero _ _ Pj). rewrite (po_zero _ _ Pp) in He. by injection He as <-. }
    destruct (rejects args (peer rc j) j Pj) as (reply & H & _); [done | simpl; lia | done |].
    eexists _, reply, []. split; [done |]. destruct (heard_leader_logs 0 (ae_Term args) (peer rc j)) as (-> & _). done.
Qed.

(** Some peer of the highest term does not lead: where the leader is the
    only one, its heartbeat makes it two. *)
Lemma find_candidate rc : fits rc -> exists rc' q, go rc rc' /\ fits rc' /\ is_peer n q /\ role_ (peer rc' q) <> Leader /\
  (forall j, is_peer n j -> current_term_ (peer rc' j) <= current_term_ (peer rc' q)) /\
  exists i, is_peer n i /\ current_term_ (peer rc' q) = current_term_ (peer rc i).
Proof.
  intros F. destruct (peer_max (fun i j => current_term_ (peer rc i) <= current_term_ (peer rc j))) as (p & Hp & Hmax); [lia.. |].
  destruct (decide (role_ (peer rc p) = Leader)) as [Hr|Hr].
  2:{ exists rc, p. split_and!; try done. by exists p. }
  set (q := if decide (p = 0) then 1 else 0).
  assert (is_peer n q /\ q <> p) as [Hq Hne] by (unfold q, is_peer in *; case_decide; lia).
  destruct (to_send_exists (peer rc p) p q (fits_ok _ _ F Hp) Hr Hq) as (x & m & TS).
  destruct (sends rc p q x m F Hp Hr Hq Hne TS) as (rc1 & e & G1 & F1 & E1 & He & Hin).
  destruct (any_call rc p q x m e F Hp Hr Hq (Hmax q Hq) TS He) as (rf & reply & effs & H & Hl).
  destruct (AppendEntries_hears _ _ _ _ _ (Hmax q Hq : _ <= ae_Term (the_call (peer rc p) x m e)) H) as (Hf & Et & _). simpl in Et.
  destruct (handles rc1 (the_call (peer rc p) x m e) q rf reply effs) as (rc2 & G2 & F2 & O2 & E2 & _); rewrite ?E1; try done.
  { rewrite Et. by apply (ft_bounds _ F). }
  exists rc2, q. split_and!; [by eapply go_trans | done | done | by rewrite E2, Hf | |].
  - intros j Hj. rewrite E2, Et. destruct (decide (j = q)) as [->|Hjq]; [rewrite E2; lia |]. rewrite O2, E1 by done. by apply Hmax.
  - exists p. by rewrite E2.
Qed.

(** A leader of everybody, two terms on. *)
Lemma some_leader rc : fits rc -> (forall j, is_peer n j -> current_term_ (peer rc j) + 2 <= tmax) ->
  exists rc' p T, go rc rc' /\ fits rc' /\ fresh p T rc'.
Proof.
  intros F Hb. destruct (find_candidate rc F) as (rc1 & q & G1 & F1 & Hq & Hr & Hmax & i & Hi & Ei). specialize (Hb i Hi).
  destruct (ask rc1 q F1 Hq Hr) as (rc2 & args & es & G2 & F2 & Hc & _ & Hall & Hfol & _ & _); [lia | done |].
  destruct (peer_max (fun i j => newer rc2 j i)) as (p & Hp & Hnew).
  { intros j k. unfold newer. lia. } { intros j k l. unfold newer. lia. }
  destruct (Hall p Hp) as [Etp _].
  destruct (elect rc2 p F2 Hp) as (rc3 & G3 & F3 & Hfr & _).
  - destruct (decide (p = q)) as [->|Hne]; [by rewrite Hc | by rewrite (Hfol p Hp Hne)].
  - lia.
  - intros j Hj. destruct (Hall j Hj) as [-> _]. split; [lia | by apply Hnew].
  - eexists rc3, p, _. split_and!; [by eapply go_trans; [| eapply go_trans] | done | exact Hfr].
Qed.

(** From a log whose last entry is of the leader's term to its delivery
    everywhere. *)
Lemma deliver_last p T L c e rc : steady p T L c rc -> (forall j, j ∈ others n p -> exists x, to_send j (peer rc p) x 0) ->
  list.last L = Some e -> Term_ e = T -> 1 < zlen L ->
  exists rc', go rc rc' /\ fits rc' /\ forall i, is_peer n i -> zlen L - 1 <= last_applied_ (peer rc' i) /\
    exists m, (Z.to_nat i, m) ∈ applied rc' /\ CommandIndex m = zlen L - 1 /\ Command m = Command_ e.
Proof.
  intros S0 HT He Hte Hlen. destruct (sync_all p T L c rc S0 HT) as (rc1 & G1 & S1 & H1).
  destruct (commits p T L c rc1 S1 H1) as (rc2 & G2 & S2 & H2); [by exists e |].
  destruct (learn_all p T L _ rc2 S2 H2 ltac:(lia)) as (rc3 & G3 & S3 & H3).
  destruct (apply_all (seqZ 0 n) (NoDup_seqZ _ _) rc3 (st_fits _ _ _ _ _ S3)) as (rc4 & G4 & F4 & _ & H4).
  { intros i Hi%elem_of_seqZ. unfold is_peer. lia. }
  exists rc4. split; [eapply go_trans; [done |]; eapply go_trans; [done |]; by eapply go_trans |]. split; [done |].
  destruct S3 as [F3 Hp Hr Ht El Ec].
  assert (forall i, is_peer n i -> peer rc4 i = with_applied (commit_index_ (peer rc3 i)) (peer rc3 i)) as H5.
  { intros i Hi. apply H4, elem_of_seqZ. unfold is_peer in Hi. lia. }
  intros i Hi. assert (zlen L - 1 <= last_applied_ (peer rc4 i)) as Hap.
  { rewrite (H5 i Hi). simpl. destruct (decide (i = p)) as [->|Hne]; [lia | by apply H3, elem_of_others]. }
  split; [done |]. apply (delivered p (zlen L - 1) e rc4 F4 Hp); try done.
  - rewrite (H5 p Hp). simpl. lia.
  - pose proof (po_lii _ _ (fits_ok _ _ F3 Hp)) as Hlii. rewrite (H5 p Hp). unfold entry_at. simpl. rewrite El, Hlii.
    unfold zlookup. rewrite decide_True by lia. rewrite last_lookup in He. rewrite <- He. f_equal. unfold zlen in *. lia.
Qed.
End Progress.

(** ** The property *)
Section Property.
Context {Cmd : Type} `{!Codec (RaftState Cmd)}.
Implicit Types (rc : RCluster (Cmd := Cmd)).

Lemma fits_more n t l t' l' rc : t <= t' -> l <= l' -> fits n t l rc -> fits n t' l' rc.
Proof. intros Ht Hl [R B]. split; [done |]. intros i Hi. destruct (B i Hi). lia. Qed.

(** A new leader takes a command. *)
Lemma takes n tmax lmax rc p T c : 2 <= n -> tmax < 2 ^ 64 - 1 -> lmax + 1 < 2 ^ 63 - 1 -> fits n tmax lmax rc -> fresh n p T rc ->
  let L := logs_ (peer rc p) ++ [mkEntry (Some c) T] in
  exists rf effs, Start c (peer rc p) = (rf, (zlen L - 1, i64 T, true), effs) /\
    steady n tmax (lmax + 1) p T L (commit_index_ (peer rc p)) (set_peer p rf rc) /\
    forall j, j ∈ others n p -> exists x, to_send j rf x 0.
Proof.
  intros Hn Ht Hl F [Hp Hr Hterm Hnext Hmatch] L. pose proof (fits_ok n tmax lmax Hn rc p F Hp) as P.
  pose proof (po_wf _ _ _ P) as W. pose proof (wf_len _ W). destruct (ft_bounds _ _ _ _ F p Hp) as [Bt Bl].
  set (rf := persist (with_logs L (peer rc p))).
  assert (zlen L = zlen (logs_ (peer rc p)) + 1) as HL by (unfold L; by rewrite zlen_app).
  assert (Start c (peer rc p) = (rf, (zlen L - 1, i64 T, true), [SignalSend])) as HS.
  { unfold Start. rewrite decide_False by (by intros E). rewrite (Hterm p Hp). fold L. fold rf. do 3 f_equal.
    assert (wf_log (with_logs L (peer rc p))) as W1.
    { destruct W. split; simpl; rewrite ?(po_lii _ _ _ P), ?HL; lia. }
    rewrite (getLogLength_wf (with_logs L (peer rc p))) by done. simpl. rewrite (po_lii _ _ _ P), HL.
    rewrite (i64_small (0 + _)), (Hterm p Hp) by lia. rewrite i64_small by lia. f_equal. }
  exists rf, [SignalSend]. split; [done |].
  assert (forall i, peer (set_peer p rf rc) i = if decide (p = i) then rf else peer rc i) as Hpeer by (intros i; apply peer_set).
  assert (peer (set_peer p rf rc) p = rf) as Ep by (rewrite Hpeer; by rewrite decide_True).
  split.
  - split; rewrite ?Ep; try done.
    + split.
      * eapply reach_step; [apply F |]. split_and!; [by apply (rc_start n rc p c rf _ _ Hp HS) | | apply (fits_small n tmax lmax Ht ltac:(lia) rc F)].
        apply no_race. simpl. congruence.
      * intros i Hi. rewrite Hpeer. case_decide; [| destruct (ft_bounds _ _ _ _ F i Hi); lia].
        simpl. rewrite HL. lia.
    + intros j Hj. rewrite Hpeer. case_decide; [subst j; by apply Hterm | by apply Hterm].
  - intros j [Hj _]%elem_of_others. destruct (to_send_exists n _ p j P Hr Hj) as (x & m & [H1 H2 H3 H4]).
    exists x. assert (m = 0) as ->.
    { rewrite list.Forall_forall in Hmatch. apply Hmatch. unfold zlookup in H2. case_decide; [| done]. by eapply list_elem_of_lookup_2. }
    split; try done; simpl; rewrite HL; lia.
Qed.

(** A run to the delivery of a command, with what a service on top of
    the cluster needs of it. *)
Record delivering n c rc rc1 p rf (index : Z) rc2 : Prop := mkDelivering {
  dl_elect : rtc (calm n) rc rc1;
  dl_peer : is_peer n p;
  dl_start : exists term effs, Start c (peer rc1 p) = (rf, (index, term, true), effs);
  dl_deliver : rtc (calm n) (set_peer p rf rc1) rc2;
  dl_small : small n rc1 /\ small n rc2;
  dl_everywhere : forall i, is_peer n i -> index <= last_applied_ (peer rc2 i) /\
    exists m, (Z.to_nat i, m) ∈ applied rc2 /\ (Z.to_nat i, m) ∉ applied rc1 /\ CommandIndex m = index /\ Command m = Some c;
}.

Lemma raft_runs n rc c : 2 <= n -> reachable (rc_init n) (rc_quiet n) rc ->
  (forall i, is_peer n i -> current_term_ (peer rc i) + 2 < 2 ^ 64 - 1 /\ zlen (logs_ (peer rc i)) + 1 < 2 ^ 63 - 1) ->
  exists rc1 p rf index rc2, delivering n c rc rc1 p rf index rc2.
Proof.
  intros Hn R Hb. set (tmax := 2 ^ 64 - 2). set (lmax := 2 ^ 63 - 3).
  assert (fits n tmax lmax rc) as F by (split; [done |]; intros i Hi; specialize (Hb i Hi); unfold tmax, lmax; lia).
  destruct (some_leader n tmax lmax Hn ltac:(lia) ltac:(lia) rc F) as (rc1 & p & T & G1 & F1 & Hfr).
  { intros j Hj. specialize (Hb j Hj). unfold tmax. lia. }
  destruct (takes n tmax lmax rc1 p T c Hn ltac:(lia) ltac:(lia) F1 Hfr) as (rf & effs & HS & S & HT).
  pose proof (fr_peer _ _ _ _ Hfr) as Hp. set (L := logs_ (peer rc1 p) ++ [mkEntry (Some c) T]) in *.
  assert (peer (set_peer p rf rc1) p = rf) as Ep by (rewrite peer_set; by rewrite decide_True).
  pose proof (wf_len _ (po_wf _ _ _ (fits_ok n tmax lmax Hn rc1 p F1 Hp))) as Hlen.
  assert (zlen L = zlen (logs_ (peer rc1 p)) + 1) as HL by (unfold L; by rewrite zlen_app).
  destruct (deliver_last n tmax (lmax + 1) Hn ltac:(lia) ltac:(lia) p T L _ (mkEntry (Some c) T) _ S) as (rc2 & G2 & F2 & HD).
  - by rewrite Ep.
  - unfold L. apply last_snoc.
  - done.
  - lia.
  - exists rc1, p, rf, (zlen L - 1), rc2. split; try done; [by eexists _, _ | |].
    { split; [apply (fits_small n tmax lmax ltac:(lia) ltac:(lia) rc1 F1) | apply (fits_small n tmax (lmax + 1) ltac:(lia) ltac:(lia) rc2 F2)]. }
    intros i Hi. destruct (HD i Hi) as (Hap & m & Hm & Hidx & Hcm). split; [done |]. exists m. split_and!; try done.
    intros Hold. destruct Hfr as [_ Hr Hterm _ _].
    apply (not_delivered n tmax lmax Hn p T (logs_ (peer rc1 p)) (commit_index_ (peer rc1 p)) rc1) in Hold;
      [lia |]. by split.
Qed.

(** C6: No dead end. Take a state of a cluster of at least two servers which
    an execution reached in which no peer becomes leader between the role
    test of its [ticker] and the [startElection] that follows, no snapshot
    is taken, terms stay below 2^64 - 1 and logs below 2^63 - 1 entries;
    crashes, lost and delayed messages, elections and logs that disagree may
    have come before. As long as every server has two terms and one log
    entry left below these bounds, the cluster can go on without a crash or
    a race from there: some server becomes leader, [Start] takes the next
    command, and every server delivers that command, at the index [Start]
    returned and not before it did. *)
Theorem raft_progress n rc c : 2 <= n -> reachable (rc_init n) (rc_quiet n) rc ->
  (forall i, is_peer n i -> current_term_ (peer rc i) + 2 < 2 ^ 64 - 1 /\ zlen (logs_ (peer rc i)) + 1 < 2 ^ 63 - 1) ->
  exists rc1 p rf index term effs rc2,
    rtc (calm n) rc rc1 /\ is_peer n p /\ Start c (peer rc1 p) = (rf, (index, term, true), effs) /\
    rtc (calm n) (set_peer p rf rc1) rc2 /\
    forall i, is_peer n i -> exists m, (Z.to_nat i, m) ∈ applied rc2 /\ (Z.to_nat i, m) ∉ applied rc1 /\
      CommandIndex m = index /\ Command m = Some c.
Proof.
  intros Hn R Hb. destruct (raft_runs n rc c Hn R Hb) as (rc1 & p & rf & index & rc2 & [G1 Hp (term & effs & HS) G2 _ HD]).
  exists rc1, p, rf, index, term, effs, rc2. split_and!; try done. intros i Hi. by destruct (HD i Hi).
Qed.
End Property.

(** ** A cluster of one

    [startElection] compares its count of votes with a majority only in
    the goroutines that wait for the other servers. *)
Section Alone.
Context {Cmd : Type} `{!Codec (RaftState Cmd)}.
Implicit Types (cl : Cluster (Cmd := Cmd)).

Record alone cl : Prop := mkAlone {
  al_role : role_ (node cl 0) <> Leader;
  al_pending : forall e, e ∈ elections cl 0 -> el_pending e = [];
}.

Lemma alone_node cl i rf : alone cl -> is_peer 1 i -> (role_ rf = Leader -> role_ (node cl i) = Leader) -> alone (set_node i rf cl).
Proof.
  intros [Hr He] Hi H. assert (i = 0) as -> by (unfold is_peer in Hi; lia). split; [| done].
  simpl. rewrite fn_insert_eq. tauto.
Qed.

Lemma Make_role k i p : role_ (Make (Cmd := Cmd) k i p) = Follower.
Proof. unfold Make, readPersist. repeat case_match; reflexivity. Qed.

Lemma startElection_role now (rf rf' : Raft Cmd) args : startElection now rf = Ok (rf', args) -> role_ rf' = role_ rf.
Proof.
  unfold startElection. cbn [res_bind]. intros H. apply res_bind_ok in H as (e & _ & H). injection H as <- _. reflexivity.
Qed.

Lemma alone_step cl cl' : alone cl -> cluster_step 1 cl cl' -> alone cl'.
Proof.
  intros A H. assert (forall i, is_peer 1 i -> i = 0) as H0 by (unfold is_peer; lia).
  destruct H as [i rf Hi H | cl' H | i Hi].
  - apply alone_node; [done | done |]. apply votes_local in H as (_ & _ & H). tauto.
  - destruct H as [i now args rf reply Hi _ H | i e b a s r rf c d effs Hi He Hs | i e b a s Hi He Hs | i Hi H | i now rf args Hi _ H].
    + destruct (alone_node cl i rf A Hi); [by apply votes_RequestVote in H as (_ & _ & H & _); intros E; apply H | by split].
    + rewrite (H0 i Hi) in He. rewrite (al_pending _ A e) in Hs by (rewrite He; apply elem_of_app; right; by left). by apply elem_of_nil in Hs.
    + rewrite (H0 i Hi) in He. rewrite (al_pending _ A e) in Hs by (rewrite He; apply elem_of_app; right; by left). by apply elem_of_nil in Hs.
    + by destruct A.
    + destruct (alone_node cl i rf A Hi) as [Hr _].
      { apply startElection_role in H. by rewrite H. }
      rewrite (H0 i Hi) in *. split; [done |]. simpl. rewrite fn_insert_eq. intros e [->|He]%elem_of_cons; [done | by apply A].
  - destruct A as [Hr He]. rewrite (H0 i Hi). split; simpl; rewrite fn_insert_eq; [| by intros e ?%elem_of_nil].
    by rewrite Make_role.
Qed.

(** A server without peers never leads, so no command is ever taken. *)
Theorem lone_server_never_leads cl : reachable (init_cluster 1) (cluster_step 1) cl ->
  role_ (node cl 0) <> Leader /\ forall c, (Start c (node cl 0)).1.2.2 = false.
Proof.
  intros R. assert (alone cl) as [Hr _].
  { induction R as [cl H | cl cl' _ IH H]; [| by eapply alone_step].
    destruct H as (Hn & He & _). split; [rewrite Hn by (unfold is_peer; lia) | rewrite He; by intros e ?%elem_of_nil].
    by rewrite Make_role. }
  split; [done |]. intros c. unfold Start. by rewrite decide_True.
Qed.
End Alone.

(** ** The execution [replicate_run] goes on *)

Definition roomy (rc : RCluster (Cmd := Z)) : bool :=
  replicated rc &&
  forallb (fun i => bool_decide (current_term_ (peer rc i) <= 5) && bool_decide (zlen (logs_ (peer rc i)) <= 5)) (seqZ 0 3).

Lemma roomy_reachable : exists rc : RCluster (Cmd := Z), reachable (rc_init 3) (rc_quiet 3) rc /\ roomy rc = true.
Proof. apply (rc_run_witness 3 replicate_run roomy). vm_compute. reflexivity. Qed.

Lemma roomy_bounds rc i : roomy rc = true -> is_peer 3 i -> current_term_ (peer rc i) <= 5 /\ zlen (logs_ (peer rc i)) <= 5.
Proof.
  intros [_ H]%andb_true_iff Hi. rewrite forallb_forall in H. specialize (H i).
  rewrite andb_true_iff, !bool_decide_eq_true in H. apply H. apply list_elem_of_In, elem_of_seqZ. unfold is_peer in Hi. lia.
Qed.

Lemma raft_progress_witness :
  exists rc rc2 : RCluster (Cmd := Z), replicated rc = true /\
    forall i, is_peer 3 i -> exists m, (Z.to_nat i, m) ∈ applied rc2 /\ Command m = Some 40.
Proof.
  destruct roomy_reachable as (rc & R & H).
  destruct (raft_progress 3 rc 40) as (rc1 & p & rf & index & term & effs & rc2 & _ & _ & _ & _ & HD); [lia | exact R | |].
  - intros i Hi. destruct (roomy_bounds rc i H Hi). lia.
  - exists rc, rc2. apply andb_true_iff in H as [H _]. split; [exact H |].
    intros i Hi. destruct (HD i Hi) as (m & Hm & _ & _ & Hc). exists m. split; [exact Hm | exact Hc].
Defined.
