(* ===== verification/RaftOrigin.v ===== *)
(** * Where the entries of a log come from

    Every entry of a peer's log and of every call in flight sits at the
    index where some [Start] put it.  [P j e] says that a [Start] was
    given index [j] for the entry [e]. *)
From stdpp Require Import functions.
From S2P Require Import Prelude Persister RaftNode RaftStep RaftElection RaftLog RaftSpec RaftFollower RaftApply RaftLeader RaftCluster RaftRefine.
#[local] Open Scope Z_scope.

Section Origin.
Context {Cmd : Type} `{!Codec (RaftState Cmd)}.
Variable n : Z.
Hypothesis Hn : 0 <= n.
Notation Entry := (LogEntry Cmd).
Implicit Types (rc : RCluster (Cmd := Cmd)) (a : AState (Cmd := Cmd)) (rf : Raft Cmd) (l es : list Entry) (P : nat -> Entry -> Prop).

Definition log_origin P l : Prop := forall j e, (0 < j)%nat -> l !! j = Some e -> P j e.

Definition call_origin P (args : AppendEntriesArgs Cmd) : Prop := forall k e,
  ae_Entries args !! k = Some e -> P (S (Z.to_nat (ae_PreviousLogIndex args)) + k)%nat e.

Record origin P rc : Prop := mkOrigin {
  or_log : forall i, is_peer n i -> log_origin P (logs_ (peer rc i));
  or_call : forall args s, (args, s) ∈ appends rc -> call_origin P args;
  or_applied : forall s m, (s, m) ∈ applied rc ->
    exists e, P (Z.to_nat (CommandIndex m)) e /\ Command m = Command_ e;
}.

Lemma merge_lookup l es j e : merge l es !! j = Some e -> l !! j = Some e \/ es !! j = Some e.
Proof.
  revert es j. induction l as [|x l IH]; intros es j; [rewrite merge_nil_l; auto |].
  destruct es as [|y es]; simpl; [auto |]. case_decide; [| auto].
  destruct j as [|j]; simpl; [auto | apply IH].
Qed.

Lemma merged_origin P rf prev es : last_included_index_ rf = 0 -> 0 <= prev < zlen (logs_ rf) ->
  log_origin P (logs_ rf) -> (forall k e, es !! k = Some e -> P (S (Z.to_nat prev) + k)%nat e) ->
  log_origin P (merged_logs rf prev es).
Proof.
  intros Hlii Hp Hl Hes j e Hj. unfold merged_logs, zlen in *. rewrite Hlii, Z.sub_0_r.
  set (k := Z.to_nat (prev + 1)). destruct (decide (j < k)%nat) as [Hlt|Hge].
  - rewrite lookup_app_l by (rewrite length_take; lia). intros [He _]%lookup_take_Some. by apply Hl.
  - rewrite lookup_app_r by (rewrite length_take; lia). rewrite length_take. intros [He|He]%merge_lookup.
    + rewrite lookup_drop in He. apply Hl; [done |]. rewrite <- He. f_equal. lia.
    + replace j with (S (Z.to_nat prev) + (j - k `min` length (logs_ rf)))%nat by lia. by apply Hes.
Qed.

Lemma AppendEntries_origin P a i rf now args rf' reply effs :
  reachable spec_init (spec_step n) a -> is_peer n i -> node_sim n a i rf -> tlog_small a -> append_sim n a args ->
  log_origin P (logs_ rf) -> call_origin P args ->
  AppendEntries now args rf = Ok (rf', reply, effs) -> log_origin P (logs_ rf').
Proof.
  intros R Hi NS B (L & y & HL & Hp0 & Hlen & _) Hl Hc H. pose proof (B _ _ _ HL) as HB.
  pose proof (sim_wf n a i rf R Hi NS) as W. pose proof (zlen_nonneg (ae_Entries args)) as Hes0.
  destruct (decide (ae_Term args < current_term_ rf)) as [Hlt|Hge].
  { unfold AppendEntries in H. rewrite decide_True in H by done. by injection H as <- _ _. }
  rewrite AppendEntries_heard in H by lia. pose proof (heard_leader_wf now (ae_Term args) rf W) as W1.
  destruct (heard_leader_logs now (ae_Term args) rf) as (El & Ei & _).
  set (rf1 := heard_leader now (ae_Term args) rf) in *. clearbody rf1.
  rewrite <- El in Hl. rewrite (ns_lii _ _ _ _ NS) in Ei.
  destruct (aer_Success reply) eqn:Hs.
  - destruct (appendEntriesBody_checked args rf1 rf' reply effs W1) as (Hle & e & He & Hte); [lia | done | done |].
    destruct (appendEntriesBody_accepts args rf1 e W1) as (rf2 & effs2 & H2 & E2 & _); try done; [lia | lia |].
    rewrite H in H2. injection H2 as <- _ _. rewrite E2. unfold last_index in Hle.
    apply merged_origin; [done | lia | done | done].
  - destruct (appendEntriesBody_frame _ _ _ _ _ H) as (_ & _ & _ & _ & _ & _ & _ & HF). by rewrite (HF Hs).
Qed.

(** Calls carry parts of the sender's log. *)
Lemma helper_term server rf effs : sendAppendEntriesHelper server rf = Ok effs ->
  forall args s, (args, s) ∈ calls effs -> ae_Term args = current_term_ rf.
Proof.
  unfold sendAppendEntriesHelper. intros (next & _ & H)%res_bind_ok args s Hin.
  case_decide; [injection H as <-; by apply elem_of_nil in Hin |].
  apply res_bind_ok in H as (e & _ & H). apply res_bind_ok in H as (m & _ & H).
  apply res_bind_ok in H as (es & _ & H). injection H as <-. simpl in Hin.
  by apply list_elem_of_singleton in Hin as [= -> _].
Qed.

Lemma sent_origin P a rf i args : node_sim n a i rf -> role_ rf = Leader -> append_sim n a args ->
  ae_Term args = current_term_ rf -> log_origin P (logs_ rf) -> call_origin P args.
Proof.
  intros NS Hr (L & y & HL & Hp0 & _ & Hes & _) Ht Hl k e He.
  destruct (ns_leader _ _ _ _ NS Hr) as [HL' _]. rewrite Ht, HL' in HL. injection HL as _ <-.
  rewrite Hes in He. apply lookup_take_Some in He as [He _]. rewrite lookup_drop in He. apply Hl; [lia | done].
Qed.

Lemma entriesSender_origin P a i rf effs : reachable spec_init (spec_step n) a -> is_peer n i -> node_sim n a i rf ->
  me rf = i -> log_origin P (logs_ rf) -> entriesSender rf = Ok effs ->
  forall args s, (args, s) ∈ calls effs -> call_origin P args.
Proof.
  intros R Hi NS Hme Hl H args s Hin. pose proof (sim_entriesSender n a i rf effs R Hi NS Hme H args s Hin) as Ha.
  unfold entriesSender in H. case_decide as Hr; [injection H as <-; by apply elem_of_nil in Hin |].
  apply (sent_origin P a rf i); try done. revert H. generalize 0. generalize (Z.to_nat (peers rf)). intros m.
  clear Ha. revert effs Hin.
  induction m as [|m IH]; intros effs Hin j H; simpl in H; [injection H as <-; by apply elem_of_nil in Hin |].
  apply res_bind_ok in H as (e1 & H1 & H). apply res_bind_ok in H as (e2 & H2 & H). injection H as <-.
  rewrite calls_app in Hin. apply elem_of_app in Hin as [Hin|Hin]; [| by eapply IH].
  case_decide; [injection H1 as <-; by apply elem_of_nil in Hin | by eapply helper_term].
Qed.

Lemma appendEntriesReply_logs server args reply rf rf' effs :
  appendEntriesReply server args reply rf = Ok (rf', effs) -> logs_ rf' = logs_ rf /\
  forall ag s, (ag, s) ∈ calls effs -> role_ rf' = Leader /\ ae_Term ag = current_term_ rf'.
Proof.
  unfold appendEntriesReply. intros H.
  assert (forall ag s, (ag, s) ∈ calls (Cmd := Cmd) [] -> role_ rf' = Leader /\ ae_Term ag = current_term_ rf') as Hnil
    by (by intros ? ? ?%elem_of_nil).
  case_decide; [by injection H as <- <- |]. case_decide as Hd; [by injection H as <- <- |].
  apply Decidable.not_or in Hd as [Hlead _]. apply dec_stable in Hlead.
  destruct (aer_Success reply); simpl in H; apply res_bind_ok in H as (m & _ & H).
  - case_decide; [| by injection H as <- <-]. apply res_bind_ok in H as (m1 & _ & H).
    apply res_bind_ok in H as (n1 & _ & H). by injection H as <- <-.
  - case_decide; [by injection H as <- <- |]. apply res_bind_ok in H as (x & _ & H).
    case_decide; [by injection H as <- <- |]. case_decide; [by injection H as <- <- |].
    apply res_bind_ok in H as (n1 & _ & H). apply res_bind_ok in H as (e & He & H). injection H as <- <-.
    split; [done |]. intros ag s Hin. split; [done |]. by eapply helper_term in He.
Qed.

Lemma commit_logs rf rf' effs : commit rf = Ok (rf', effs) -> logs_ rf' = logs_ rf.
Proof. unfold commit. intros H. by repeat (case_decide; res_inv). Qed.

Lemma RequestVote_logs now args rf rf' reply : RequestVote now args rf = Ok (rf', reply) -> logs_ rf' = logs_ rf.
Proof. unfold RequestVote, requestVoteBody. intros H. repeat (case_decide; res_inv; try done). Qed.

Lemma startElection_logs now rf rf' args : startElection now rf = Ok (rf', args) -> logs_ rf' = logs_ rf.
Proof. unfold startElection. intros H. by res_inv. Qed.

Lemma voteReply_logs args reply count rf rf' count' fin effs :
  voteReply args reply count rf = (rf', count', fin, effs) -> logs_ rf' = logs_ rf.
Proof. unfold voteReply. intros H. by go_cases_in H; simplify_eq. Qed.

Lemma applierCommands_logs rf rf' msgs : applierCommands rf = Ok (rf', msgs) -> logs_ rf' = logs_ rf.
Proof. unfold applierCommands. intros H. case_decide; by res_inv. Qed.

Lemma restart_logs rf : durable rf -> logs_ (Make (peers rf) (me rf) (persister rf)) = logs_ rf.
Proof. intros Hd. destruct (Make_recovers (peers rf) (me rf) rf Hd) as (Hs & _). by injection Hs. Qed.

(** One peer's log changes, calls and deliveries are added. *)
Lemma origin_update P rc rc' i rf : origin P rc ->
  (forall j, is_peer n j -> j <> i -> peer rc' j = peer rc j) -> (is_peer n i -> peer rc' i = rf) ->
  log_origin P (logs_ rf) ->
  (forall args s, (args, s) ∈ appends rc' -> (args, s) ∈ appends rc \/ call_origin P args) ->
  (forall s m, (s, m) ∈ applied rc' -> (s, m) ∈ applied rc \/
     exists e, P (Z.to_nat (CommandIndex m)) e /\ Command m = Command_ e) ->
  origin P rc'.
Proof.
  intros [HL HC HA] Hne Hi Hl Hcalls Happ. split.
  - intros j Hj. destruct (decide (j = i)) as [->|?]; [by rewrite Hi | rewrite Hne by done; auto].
  - intros args s [H|H]%Hcalls; [by eapply HC | done].
  - intros s m [H|H]%Happ; [by eapply HA | done].
Qed.

Ltac origin_simpl :=
  try done; try (by intros; apply fn_insert_ne); try (by intros; apply fn_insert_eq); try (by intros; left).

Lemma origin_internal P rc a rc' : sim n rc a -> reachable spec_init (spec_step n) a -> inv n (base rc) ->
  origin P rc -> rc_internal n rc rc' -> origin P rc'.
Proof.
  intros S R I O H. pose proof (sm_tlog _ _ _ S : tlog_small a) as B.
  destruct H as [cl H | i now Hi | i now args rf reply effs Hi Hin H | i server args reply rf effs Hi Hin Hl H
    | i effs Hi H | i rf effs Hi H].
  { destruct H as [i now args rf reply Hi Hin Hv | i e before after server reply rf count fin effs Hi He Hs Hr Hv
    | i e before after server Hi He Hs | i Hi Ht | i now rf args Hi Hst Hv].
    - apply (origin_update P rc _ i rf); origin_simpl. rewrite (RequestVote_logs _ _ _ _ _ Hv). by apply O.
    - apply (origin_update P rc _ i rf); origin_simpl. rewrite (voteReply_logs _ _ _ _ _ _ _ _ Hv). by apply O.
    - apply (origin_update P rc _ i (peer rc i)); origin_simpl. by apply O.
    - apply (origin_update P rc _ i (peer rc i)); origin_simpl. by apply O.
    - apply (origin_update P rc _ i rf); origin_simpl. rewrite (startElection_logs _ _ _ _ Hv). by apply O. }
  all: pose proof (or_log _ _ O i Hi) as HL; pose proof (sm_node _ _ _ S i Hi) as NS.
  all: destruct (inv_nodes _ _ I i Hi) as (_ & Hme & _).
  - apply (origin_update P rc _ i (tickerFollower now (peer rc i))); origin_simpl.
    unfold tickerFollower. by case_decide.
  - apply (origin_update P rc _ i rf); origin_simpl. eapply AppendEntries_origin; try done.
    + by eapply (sm_append _ _ _ S).
    + by eapply (or_call _ _ O).
  - destruct (appendEntriesReply_logs _ _ _ _ _ _ H) as [El Hcalls].
    destruct (sim_appendEntriesReply n a i (peer rc i) server args reply rf effs) as (a' & HF & Hsim); try done;
      [by apply (sm_answer _ _ _ S) |].
    apply (origin_update P rc _ i rf); origin_simpl; [by rewrite El |].
    intros ag s [Hag|Hag]%elem_of_app; [right | by left].
    destruct (Hcalls _ _ Hag) as [Hr Ht]. specialize (Hsim _ _ Hag).
    eapply (sent_origin P a' rf i); try done; [apply HF | by rewrite El].
  - apply (origin_update P rc _ i (peer rc i)); origin_simpl.
    intros ag s [Hag|Hag]%elem_of_app; [right | by left].
    by eapply (entriesSender_origin P a i (peer rc i)).
  - apply (origin_update P rc _ i rf); origin_simpl. by rewrite (commit_logs _ _ _ H).
Qed.

Lemma origin_restart P rc i : inv n (base rc) -> origin P rc -> is_peer n i ->
  origin P (set_base (restarted i (base rc)) rc).
Proof.
  intros I O Hi. destruct (inv_nodes _ _ I i Hi) as (_ & _ & _ & Hd).
  apply (origin_update P rc _ i (Make (peers (peer rc i)) (me (peer rc i)) (persister (peer rc i)))); origin_simpl.
  rewrite restart_logs by done. by apply O.
Qed.

Lemma origin_start P rc i command rf r effs : origin P rc -> is_peer n i ->
  Start command (peer rc i) = (rf, r, effs) ->
  (role_ (peer rc i) = Leader -> P (length (logs_ (peer rc i))) (mkEntry (Some command) (current_term_ (peer rc i)))) ->
  origin P (set_peer i rf rc).
Proof.
  intros O Hi H HP. pose proof (or_log _ _ O i Hi) as HL.
  apply (origin_update P rc _ i rf); origin_simpl.
  unfold Start in H. case_decide as Hr; injection H as <- _ _; [done |]. simpl.
  intros j e Hj [[_ He]|[-> <-]]%lookup_snoc_Some; [by apply HL | by apply HP].
Qed.

Lemma origin_apply P rc a i rf msgs : sim n rc a -> reachable spec_init (spec_step n) a -> origin P rc -> is_peer n i ->
  applierCommands (peer rc i) = Ok (rf, msgs) -> origin P (delivers i msgs (set_peer i rf rc)).
Proof.
  intros S R O Hi H. pose proof (or_log _ _ O i Hi) as HL. pose proof (sm_node _ _ _ S i Hi) as NS.
  pose proof (sim_wf n a i _ R Hi NS) as W. pose proof (sim_bound n a i _ R Hi NS) as Hcb.
  pose proof (ns_applied _ _ _ _ NS) as Hap. pose proof (ns_len _ _ _ _ NS). pose proof (ns_lii _ _ _ _ NS).
  apply (origin_update P rc _ i rf); origin_simpl.
  - by rewrite (applierCommands_logs _ _ _ H).
  - intros s m [Hin|Hin]%elem_of_app; [right | by left].
    apply list_elem_of_In, in_rev, list_elem_of_In, list_elem_of_fmap in Hin as (m' & [= -> ->] & Hm).
    destruct (applierCommands_sends (peer rc i) W) as (msgs' & H' & Hlen & Hmsg); unfold last_index; [lia.. |].
    rewrite H in H'. injection H' as -> <-. apply list_elem_of_lookup in Hm as [k Hk].
    pose proof (lookup_lt_Some _ _ _ Hk). destruct (Hmsg k) as [E _]; [unfold zlen; lia |]. rewrite Hk in E.
    unfold msg_for in E. symmetry in E. apply fmap_Some in E as (e & He & ->). exists e. simpl. split; [| done].
    rewrite (sim_entry n a i _ NS) in He. unfold zlookup in He. rewrite decide_True in He by lia. apply HL; [lia | done].
Qed.

Lemma origin_mono P P' rc : (forall j e, P j e -> P' j e) -> origin P rc -> origin P' rc.
Proof.
  intros HP [H1 H2 H3]. split.
  - intros i Hi j e Hj He. apply HP. by eapply H1.
  - intros args s Hin k e He. apply HP. by eapply H2.
  - intros s m Hin. destruct (H3 s m Hin) as (e & ? & ?). exists e. auto.
Qed.

Lemma origin_init P rc : rc_init n rc -> origin P rc.
Proof.
  intros ((Hnode & _) & Hap & _ & Happ). split; rewrite ?Hap, ?Happ.
  - intros i Hi j e Hj. unfold peer. rewrite Hnode by done. simpl. destruct j; [lia | done].
  - by intros ? ? ?%elem_of_nil.
  - by intros ? ? ?%elem_of_nil.
Qed.
End Origin.
