(* ===== verification/RaftSnapshot.v ===== *)
(** * The cluster with snapshots ([raft1/raft.go])

    [RaftCluster] with the operations it leaves out: [Snapshot] called by
    the service, the goroutines [sendInstallSnapshot] with their messages,
    and the delivery of a snapshot by the applier.  Election safety holds
    as before.  State machine safety does not: a follower answers an
    [AppendEntries] that starts before its snapshot with success although
    it takes nothing from it, the leader counts its entries as stored
    there, and an execution in which two servers are given different
    commands for one index is computed. *)
From stdpp Require Import functions.
From S2P Require Import RaftTester.
From S2P Require Import Prelude Persister RaftNode RaftStep RaftElection RaftElectionRun RaftCluster RaftLog RaftFollower RaftLeader.
#[local] Open Scope Z_scope.

Section Snapshots.
Context {Cmd : Type} `{!Codec (RaftState Cmd)}.
Variable n : Z.

Record SCluster := mkSC {
  rcl : RCluster (Cmd := Cmd);
  started_installs : list (Z * Z);                    (* go rf.sendInstallSnapshot(server) at a peer *)
  installs : list (InstallSnapshotArgs * Z);          (* calls, with their server *)
  install_answers : list (InstallSnapshotArgs * Z * InstallSnapshotReplys);
}.
Implicit Types (s : SCluster) (rf : Raft Cmd).

Definition sn_init s : Prop :=
  rc_init n (rcl s) /\ started_installs s = [] /\ installs s = [] /\ install_answers s = [].

Definition set_rcl rc s := mkSC rc (started_installs s) (installs s) (install_answers s).
Definition start_installs ps s := mkSC (rcl s) (ps ++ started_installs s) (installs s) (install_answers s).

Definition install_servers (i : Z) (effs : list (Eff Cmd)) : list (Z * Z) :=
  omap (fun e => match e with GoInstallSnapshot server => Some (i, server) | _ => None end) effs.

#[local] Unset Elimination Schemes.
Inductive sn_step s : SCluster -> Prop :=
| sn_internal rc :
    (* a goroutine that such a step starts for a snapshot does not get to run *)
    rc_internal n (rcl s) rc -> sn_step s (set_rcl rc s)
| sn_command i command rf r effs :
    is_peer n i -> Start command (peer (rcl s) i) = (rf, r, effs) ->
    sn_step s (set_rcl (set_peer i rf (rcl s)) s)
| sn_restart i :
    is_peer n i ->
    sn_step s (mkSC (set_base (restarted i (base (rcl s))) (rcl s))
      (filter (fun p => p.1 <> i) (started_installs s)) (installs s) (install_answers s))
| sn_answer i server args reply rf effs :
    is_peer n i -> (args, server, reply) ∈ answers (rcl s) -> ae_LeaderID args = i ->
    appendEntriesReply server args reply (peer (rcl s) i) = Ok (rf, effs) ->
    sn_step s (start_installs (install_servers i effs) (set_rcl (send (calls effs) (set_peer i rf (rcl s))) s))
| sn_send i effs :
    is_peer n i -> entriesSender (peer (rcl s) i) = Ok effs ->
    sn_step s (start_installs (install_servers i effs) (set_rcl (send (calls effs) (rcl s)) s))
| sn_go k i server :
    (* [sendInstallSnapshot] up to its call *)
    started_installs s !! k = Some (i, server) ->
    sn_step s (mkSC (rcl s) (delete k (started_installs s))
      ((installSnapshotArgs (peer (rcl s) i), server) :: installs s) (install_answers s))
| sn_install i args rf reply effs :
    is_peer n i -> (args, i) ∈ installs s -> InstallSnapshot args (peer (rcl s) i) = Ok (rf, reply, effs) ->
    sn_step s (mkSC (set_peer i rf (rcl s)) (started_installs s) (installs s) ((args, i, reply) :: install_answers s))
| sn_installed i server args reply rf effs :
    is_peer n i -> (args, server, reply) ∈ install_answers s -> is_LeaderID args = i ->
    installSnapshotReply server args (Some reply) (peer (rcl s) i) = Ok (rf, effs) ->
    sn_step s (set_rcl (set_peer i rf (rcl s)) s)
| sn_snapshot i index data rf :
    is_peer n i -> Snapshot index data (peer (rcl s) i) = Ok rf ->
    sn_step s (set_rcl (set_peer i rf (rcl s)) s)
| sn_apply_snapshot i rf msg :
    is_peer n i -> applierSnapshot (peer (rcl s) i) = (rf, msg) ->
    sn_step s (set_rcl (delivers i (option_list msg) (set_peer i rf (rcl s))) s)
| sn_apply i rf msgs :
    is_peer n i -> applierCommands (peer (rcl s) i) = Ok (rf, msgs) ->
    sn_step s (set_rcl (delivers i msgs (set_peer i rf (rcl s))) s).
#[local] Set Elimination Schemes.

(** The conditions of [rc_quiet]. *)
Definition sn_quiet s s' : Prop :=
  sn_step s s' /\ ~ starts_while_leader n (base (rcl s)) (base (rcl s')) /\ small n (rcl s).

(** ** Elections *)

Lemma sn_step_base s s' : sn_step s s' ->
  base (rcl s') = base (rcl s) \/ cluster_step n (base (rcl s)) (base (rcl s')).
Proof.
  intros [rc H|i command rf r effs Hi H|i Hi|i server args reply rf effs Hi _ _ H|i effs Hi H|k i server H
    |i args rf reply effs Hi _ H|i server args reply rf effs Hi _ _ H|i index data rf Hi H|i rf msg Hi H|i rf msgs Hi H];
    simpl.
  - apply (rc_step_base n _ _ (rc_inner n (rcl s) rc H)).
  - right. apply cs_local; [done |]. by eapply ls_Start.
  - right. by apply cs_restart.
  - right. apply cs_local; [done |]. by eapply ls_appendEntriesReply.
  - by left.
  - by left.
  - right. apply cs_local; [done |]. by eapply ls_InstallSnapshot.
  - right. apply cs_local; [done |]. by eapply ls_installSnapshotReply.
  - right. apply cs_local; [done |]. by eapply ls_Snapshot.
  - right. apply cs_local; [done |]. by eapply ls_applierSnapshot.
  - right. apply cs_local; [done |]. by eapply ls_applierCommands.
Qed.

Lemma sn_base_reachable s : reachable sn_init sn_quiet s ->
  reachable (init_cluster n) (quiet_step n) (base (rcl s)).
Proof.
  induction 1 as [s H|s s' _ IH (H & Hq & Hs)]; [apply reach_init, H |].
  destruct (sn_step_base _ _ H) as [->|Hb]; [done |]. eapply reach_step; [done |].
  split_and!; [done | done |]. intros i Hi. by destruct (Hs i Hi).
Qed.

(** ** Running it *)
Inductive SLabel :=
| SnRaft (l : RLabel (Cmd := Cmd))
| SnRestart (i : Z)
| SnStart (i : Z) (command : Cmd)
| SnApply (i : Z)
| SnSend (i : Z)
| SnAnswer (k : nat)
| SnGo (k : nat)
| SnInstall (k : nat)
| SnInstalled (k : nat)
| SnSnapshot (i index : Z) (data : list Z)
| SnApplySnapshot (i : Z).

Definition at_speer (i : Z) (r : Res SCluster) : option SCluster :=
  if decide (is_peer n i) then match r with Ok s => Some s | Panic => None end else None.

Definition sn_label (l : SLabel) s : option SCluster :=
  match l with
  | SnRaft l => if is_internal l then (fun rc => set_rcl rc s) <$> rc_label n l (rcl s) else None
  | SnRestart i => at_speer i (Ok (mkSC (set_base (restarted i (base (rcl s))) (rcl s))
      (filter (fun p => p.1 <> i) (started_installs s)) (installs s) (install_answers s)))
  | SnStart i command => at_speer i (Ok (set_rcl (set_peer i (Start command (peer (rcl s) i)).1.1 (rcl s)) s))
  | SnApply i => at_speer i
      (let* '(rf, msgs) := applierCommands (peer (rcl s) i) in
       Ok (set_rcl (delivers i msgs (set_peer i rf (rcl s))) s))
  | SnSend i => at_speer i
      (let* effs := entriesSender (peer (rcl s) i) in
       Ok (start_installs (install_servers i effs) (set_rcl (send (calls effs) (rcl s)) s)))
  | SnAnswer k =>
      match answers (rcl s) !! k with
      | Some (args, server, reply) => at_speer (ae_LeaderID args)
          (let* '(rf, effs) := appendEntriesReply server args reply (peer (rcl s) (ae_LeaderID args)) in
           Ok (start_installs (install_servers (ae_LeaderID args) effs)
                 (set_rcl (send (calls effs) (set_peer (ae_LeaderID args) rf (rcl s))) s)))
      | None => None
      end
  | SnGo k =>
      match started_installs s !! k with
      | Some (i, server) => Some (mkSC (rcl s) (delete k (started_installs s))
          ((installSnapshotArgs (peer (rcl s) i), server) :: installs s) (install_answers s))
      | None => None
      end
  | SnInstall k =>
      match installs s !! k with
      | Some (args, i) => at_speer i
          (let* '(rf, reply, _) := InstallSnapshot args (peer (rcl s) i) in
           Ok (mkSC (set_peer i rf (rcl s)) (started_installs s) (installs s) ((args, i, reply) :: install_answers s)))
      | None => None
      end
  | SnInstalled k =>
      match install_answers s !! k with
      | Some (args, server, reply) => at_speer (is_LeaderID args)
          (let* '(rf, _) := installSnapshotReply server args (Some reply) (peer (rcl s) (is_LeaderID args)) in
           Ok (set_rcl (set_peer (is_LeaderID args) rf (rcl s)) s))
      | None => None
      end
  | SnSnapshot i index data => at_speer i
      (let* rf := Snapshot index data (peer (rcl s) i) in Ok (set_rcl (set_peer i rf (rcl s)) s))
  | SnApplySnapshot i => at_speer i
      (let '(rf, msg) := applierSnapshot (peer (rcl s) i) in
       Ok (set_rcl (delivers i (option_list msg) (set_peer i rf (rcl s))) s))
  end.

Lemma at_speer_Some i r s : at_speer i r = Some s -> is_peer n i /\ r = Ok s.
Proof. unfold at_speer. case_decide; [| done]. destruct r; [| done]. by intros [= ->]. Qed.

Lemma sn_label_sound l s s' : sn_label l s = Some s' -> sn_step s s'.
Proof.
  intros H. destruct l; simpl in H.
  1: { destruct (is_internal l) eqn:El; [| done]. apply fmap_Some in H as (rc & H & ->).
       by eapply sn_internal, rc_label_internal. }
  5: destruct (answers (rcl s) !! k) as [[[args server] reply]|] eqn:Ek; [| done].
  6: { destruct (started_installs s !! k) as [[i server]|] eqn:Ek; [| done]. injection H as <-. by apply sn_go. }
  6: destruct (installs s !! k) as [[args i]|] eqn:Ek; [| done].
  7: destruct (install_answers s !! k) as [[[args server] reply]|] eqn:Ek; [| done].
  all: apply at_speer_Some in H as [Hi H]; res_inv.
  - by apply sn_restart.
  - destruct (Start command (peer (rcl s) i)) as [[rf r] effs] eqn:E. by eapply sn_command.
  - by eapply sn_apply.
  - by eapply sn_send.
  - eapply sn_answer; try done. by eapply list_elem_of_lookup_2.
  - eapply sn_install; try done. by eapply list_elem_of_lookup_2.
  - eapply sn_installed; try done. by eapply list_elem_of_lookup_2.
  - by eapply sn_snapshot.
  - destruct (applierSnapshot (peer (rcl s) i)) as [rf msg] eqn:E. injection H as <-. by eapply sn_apply_snapshot.
Qed.

Fixpoint sn_run (ls : list SLabel) s : option SCluster :=
  match ls with
  | [] => Some s
  | l :: ls =>
      match sn_label l s with
      | Some s' => if rc_check n (rcl s) (rcl s') then sn_run ls s' else None
      | None => None
      end
  end.

Definition sn_initial : SCluster := mkSC (rc_initial n) [] [] [].

Lemma sn_run_reachable ls s s' : reachable sn_init sn_quiet s -> sn_run ls s = Some s' -> reachable sn_init sn_quiet s'.
Proof.
  revert s. induction ls as [|l ls IH]; intros s R H; simpl in H; [by injection H as <- |].
  destruct (sn_label l s) as [c|] eqn:E; [| done]. destruct (rc_check n (rcl s) (rcl c)) eqn:Eq; [| done].
  eapply IH; [| done]. eapply reach_step; [done |].
  destruct (rc_check_conditions _ _ _ Eq). split_and!; [by eapply sn_label_sound | done..].
Qed.

(** A computed execution, with a test of its last state. *)
Lemma sn_run_witness ls (P : SCluster -> bool) :
  match sn_run ls sn_initial with Some s => P s | None => false end = true ->
  exists s, reachable sn_init sn_quiet s /\ P s = true.
Proof.
  destruct (sn_run ls sn_initial) as [s|] eqn:E; [| done]. intros H. exists s. split; [| done].
  eapply sn_run_reachable; [| done]. apply reach_init. split_and!; [by split; [apply initial_init |] | done..].
Qed.
End Snapshots.

(** ** Two commands for one index

    Peer 0 leads term 1 and replicates two commands to peers 1 and 2; of
    peer 1 it never hears.  Peer 1 applies both and its service takes a
    snapshot.  A third command goes to peer 1 in a call that starts before
    the snapshot; peer 1 answers with success and stores nothing.  Peer 0
    takes the command for replicated, commits and applies it.  Then peer 2
    is elected with the vote of peer 1, both without the third command, and
    replicates, commits and applies another one in its place. *)
Definition lost_command_run : list (SLabel (Cmd := Z)) :=
  (SnRaft <$> [RTicker 0 1000000000; RElection (LTest 0); RElection (LStart 0 1100000000);
     RElection (LVote 1 0 1200000000); RElection (LReply 0 0 0 1)]) ++
  [SnStart 0 10; SnStart 0 20; SnSend 0; SnRaft (RAppend 0 1300000000); SnRaft (RAppend 1 1300000000);
   SnAnswer 0; SnRaft (RCommit 0); SnSend 0; SnRaft (RAppend 0 1400000000); SnApply 1; SnSnapshot 1 2 [1];
   SnStart 0 30; SnSend 0; SnRaft (RAppend 0 1500000000); SnAnswer 0; SnRaft (RCommit 0); SnApply 0] ++
  (SnRaft <$> [RTicker 2 2000000000; RElection (LTest 2); RElection (LStart 2 2000000000);
     RElection (LVote 1 1 2100000000); RElection (LReply 2 0 0 1)]) ++
  [SnStart 2 99; SnSend 2; SnRaft (RAppend 1 2200000000); SnAnswer 0;
   SnSend 2; SnRaft (RAppend 1 2300000000); SnAnswer 0; SnRaft (RCommit 2); SnApply 2].


Definition given (s : SCluster (Cmd := Z)) : list (nat * Z * option Z) :=
  (fun d => (d.1, CommandIndex d.2, Command d.2)) <$> RaftCluster.applied (rcl s).

Definition commands_differ (s : SCluster (Cmd := Z)) : bool :=
  bool_decide (given s =
    [(2%nat, 3, Some 99); (2%nat, 2, Some 20); (2%nat, 1, Some 10);
     (0%nat, 3, Some 30); (0%nat, 2, Some 20); (0%nat, 1, Some 10);
     (1%nat, 2, Some 20); (1%nat, 1, Some 10)]).

Lemma lost_command_reachable : exists s : SCluster (Cmd := Z),
  reachable (sn_init 3) (sn_quiet 3) s /\ commands_differ s = true.
Proof. apply (sn_run_witness 3 lost_command_run commands_differ). vm_compute. reflexivity. Qed.

(** ** Properties *)

(** Election safety holds with snapshots as well. *)
Theorem election_safety_with_snapshots {Cmd} `{!Codec (RaftState Cmd)} n (s : SCluster (Cmd := Cmd)) :
  0 <= n -> reachable (sn_init n) (sn_quiet n) s -> one_leader_per_term n (base (rcl s)).
Proof. intros Hn R. apply inv_one_leader; [done |]. by apply quiet_inv, sn_base_reachable. Qed.

(** The step at fault, on the follower: the call starts before the snapshot,
    the follower takes nothing from it and answers with success. *)
Theorem AppendEntries_before_snapshot {Cmd} `{!Codec (RaftState Cmd)} now args (rf : Raft Cmd) :
  current_term_ rf <= ae_Term args -> ae_PreviousLogIndex args < last_included_index_ rf ->
  ae_PreviousLogIndex args < getLogLength rf ->
  exists rf' reply, AppendEntries now args rf = Ok (rf', reply, []) /\ aer_Success reply = true /\
    aer_Term reply = 0 /\ logs_ rf' = logs_ rf /\ commit_index_ rf' = commit_index_ rf.
Proof.
  intros Ht Hp Hl. unfold AppendEntries. rewrite decide_False by lia.
  set (rf1 := with_role _ _).
  assert (logs_ rf1 = logs_ rf /\ last_included_index_ rf1 = last_included_index_ rf /\
    commit_index_ rf1 = commit_index_ rf) as (E1 & E2 & E3) by (subst rf1; by case_decide).
  unfold appendEntriesBody, getLogLength in *. rewrite E1, E2, decide_False, decide_True by lia.
  by eexists _, _.
Qed.

(** And on the leader: it counts the entries of the call as stored. *)
Theorem success_counts_entries {Cmd} `{!Codec (RaftState Cmd)} server args reply (rf : Raft Cmd) m :
  aer_Success reply = true -> aer_Term reply = 0 -> 0 <= current_term_ rf -> role_ rf = Leader ->
  current_term_ rf = ae_Term args -> zlookup (match_index_ rf) server = Some m ->
  server < zlen (next_index_ rf) ->
  0 <= ae_PreviousLogIndex args -> m < ae_PreviousLogIndex args + zlen (ae_Entries args) < 2 ^ 64 ->
  exists rf', appendEntriesReply server args reply rf = Ok (rf', [GoCommit]) /\
    zlookup (match_index_ rf') server = Some (ae_PreviousLogIndex args + zlen (ae_Entries args)).
Proof.
  intros Hs Ht Hc Hr Hct Hm Hn Hp He. unfold appendEntriesReply. rewrite Ht, Hs.
  pose proof (zlookup_Some_range _ _ _ Hm) as Hrange. pose proof (zlen_nonneg (ae_Entries args)).
  rewrite decide_False by lia. rewrite decide_False by (rewrite Hr; intros [?|?]; done). simpl.
  unfold slice_get. rewrite Hm. simpl.
  rewrite (u64_small (zlen _)) by lia. rewrite (u64_small (_ + _)) by lia. rewrite decide_True by lia.
  unfold slice_set. rewrite decide_True by lia. simpl. rewrite decide_True by lia. simpl.
  eexists. split; [done |]. simpl. by apply zlookup_insert_eq.
Qed.

(** C15: With snapshots the servers can be given different commands for one
    index.  In a reachable state of three peers the first command of term 2,
    applied by peer 2 at index 3, replaces the command that peer 0 committed
    and applied at the same index in term 1. *)
Theorem snapshots_break_safety : exists s : SCluster (Cmd := Z),
  reachable (sn_init 3) (sn_quiet 3) s /\ exists m m',
    (0%nat, m) ∈ RaftCluster.applied (rcl s) /\ (2%nat, m') ∈ RaftCluster.applied (rcl s) /\
    CommandIndex m = 3 /\ CommandIndex m' = 3 /\ Command m = Some 30 /\ Command m' = Some 99.
Proof.
  destruct lost_command_reachable as (s & R & H). exists s. split; [exact R |].
  unfold commands_differ in H. apply bool_decide_eq_true in H.
  assert (forall i k c, (i, k, c) ∈ given s -> exists m, (i, m) ∈ RaftCluster.applied (rcl s) /\
    CommandIndex m = k /\ Command m = c) as Hg.
  { intros i k c ([j m] & [= -> -> ->] & Hin)%list_elem_of_fmap. by exists m. }
  rewrite H in Hg.
  destruct (Hg 0%nat 3 (Some 30)) as (m & ? & ? & ?); [set_solver |].
  destruct (Hg 2%nat 3 (Some 99)) as (m' & ? & ? & ?); [set_solver |].
  exists m, m'. tauto.
Qed.
