(* ===== verification/Kv.v ===== *)
(** * The key/value servers ([kvsrv1/server.go], [kvraft1/server.go], [kvsrv1/rpc/rpc.go])

    The single server and the replicated one keep a map from keys to
    versioned values.  The file models both, gives their common
    specification as a versioned register per key, and proves that they
    implement it and agree with each other. *)
From S2P Require Import Prelude.

(** ** [kvsrv1/rpc] *)
Module Rpc.
Abbreviation Err := string (only parsing).
Definition OK : Err := "OK".
Definition ErrNoKey : Err := "ErrNoKey".
Definition ErrVersion : Err := "ErrVersion".
Definition ErrMaybe : Err := "ErrMaybe".
Definition ErrWrongLeader : Err := "ErrWrongLeader".
Definition ErrWrongGroup : Err := "ErrWrongGroup".

Record PutArgs := mkPutArgs { pa_Key : string; pa_Value : string; pa_Version : Z }.
Record PutReply := mkPutReply { pr_Err : Err }.
Record GetArgs := mkGetArgs { ga_Key : string }.
Record GetReply := mkGetReply { gr_Value : string; gr_Version : Z; gr_Err : Err }.
End Rpc.
Import Rpc.

(** [ValueType], the same struct in both servers up to the case of its
    fields. *)
Record ValueType := mkValue { value_ : string; version_ : Z }.

Abbreviation kv_map := (gmap string ValueType).

(** ** [kvsrv1]: the single server *)
Module Kvsrv.
Definition MakeKVServer : kv_map := ∅.

Definition Get (args : GetArgs) (kv : kv_map) : GetReply :=
  match kv !! ga_Key args with
  | None => mkGetReply "" 0 ErrNoKey
  | Some value => mkGetReply (value_ value) (version_ value) OK
  end.

Definition Put (args : PutArgs) (kv : kv_map) : kv_map * PutReply :=
  match kv !! pa_Key args with
  | None =>
      if decide (pa_Version args = 0) then
        (<[pa_Key args := mkValue (pa_Value args) (u64 (pa_Version args + 1))]> kv, mkPutReply OK)
      else (kv, mkPutReply ErrNoKey)
  | Some value =>
      if decide (version_ value <> pa_Version args) then (kv, mkPutReply ErrVersion)
      else
        (<[pa_Key args := mkValue (pa_Value args) (u64 (pa_Version args + 1))]> kv, mkPutReply OK)
  end.
End Kvsrv.

(** ** [kvraft1]: the replicated state machine *)
Module Kvraft.
(** The dynamic types [DoOp] distinguishes, and those it returns. *)
Inductive Req :=
| ReqGet (args : GetArgs)
| ReqPut (args : PutArgs)
| ReqOther.

Inductive Rep :=
| RepGet (reply : GetReply)
| RepPut (reply : PutReply)
| RepNil.

Definition DoOp (req : Req) (kv : kv_map) : kv_map * Rep :=
  match req with
  | ReqGet args =>
      match kv !! ga_Key args with
      | None => (kv, RepGet (mkGetReply "" 0 ErrNoKey))
      | Some value => (kv, RepGet (mkGetReply (value_ value) (version_ value) OK))
      end
  | ReqPut args =>
      match kv !! pa_Key args with
      | None =>
          if decide (pa_Version args = 0) then
            (<[pa_Key args := mkValue (pa_Value args) (u64 (pa_Version args + 1))]> kv,
             RepPut (mkPutReply OK))
          else (kv, RepPut (mkPutReply ErrNoKey))
      | Some value =>
          if decide (pa_Version args <> version_ value) then (kv, RepPut (mkPutReply ErrVersion))
          else
            (<[pa_Key args := mkValue (pa_Value args) (u64 (pa_Version args + 1))]> kv,
             RepPut (mkPutReply OK))
      end
  | ReqOther => (kv, RepNil)
  end.

Section Snap.
Context `{!Codec kv_map}.

Definition Snapshot (kv : kv_map) : list Z := encode kv.

Definition Restore (data : list Z) (kv : kv_map) : Res kv_map :=
  if decide (zlen data < 1) then Ok kv
  else match decode data with
       | Some new_kv_map => Ok new_kv_map
       | None => Panic
       end.
End Snap.

(** The RPC handlers, from what [rsm.Submit] returned. *)
Definition Get (submitted : Err * Rep) : Res GetReply :=
  if decide (submitted.1 = ErrWrongLeader) then Ok (mkGetReply "" 0 ErrWrongLeader)
  else match submitted.2 with RepGet reply => Ok reply | _ => Panic end.

Definition Put (submitted : Err * Rep) : Res PutReply :=
  if decide (submitted.1 = ErrWrongLeader) then Ok (mkPutReply ErrWrongLeader)
  else match submitted.2 with RepPut reply => Ok reply | _ => Panic end.
End Kvraft.

(** ** The specification: one versioned register per key *)
Module Spec.
(** A key that was never put has version 0 and no value. *)
Abbreviation reg := (option ValueType).

Definition version (r : reg) : Z := match r with Some v => version_ v | None => 0 end.

(** A put succeeds exactly on the version it names. *)
Definition put (value : string) (ver : Z) (r : reg) : reg * Err :=
  if decide (ver = version r) then (Some (mkValue value (u64 (ver + 1))), OK)
  else (r, match r with Some _ => ErrVersion | None => ErrNoKey end).

Definition get (r : reg) : GetReply :=
  match r with
  | Some v => mkGetReply (value_ v) (version_ v) OK
  | None => mkGetReply "" 0 ErrNoKey
  end.
End Spec.

(** ** What a server promises

  The clerks and the lock are written against this interface: a put and
  a get on a map of registers, each as [Spec] has it.  The single server
  and the replicated state machine both provide it. *)
Class KVService := {
  svc_put : PutArgs -> kv_map -> kv_map * PutReply;
  svc_get : GetArgs -> kv_map -> GetReply;
  svc_put_reg : forall args kv,
    (svc_put args kv).1 !! pa_Key args = (Spec.put (pa_Value args) (pa_Version args) (kv !! pa_Key args)).1;
  svc_put_err : forall args kv,
    pr_Err (svc_put args kv).2 = (Spec.put (pa_Value args) (pa_Version args) (kv !! pa_Key args)).2;
  svc_put_frame : forall args kv k, k <> pa_Key args -> (svc_put args kv).1 !! k = kv !! k;
  svc_get_spec : forall args kv, svc_get args kv = Spec.get (kv !! ga_Key args);
}.

Lemma Put_spec args kv :
  (Kvsrv.Put args kv).1 !! pa_Key args = (Spec.put (pa_Value args) (pa_Version args) (kv !! pa_Key args)).1 /\
  pr_Err (Kvsrv.Put args kv).2 = (Spec.put (pa_Value args) (pa_Version args) (kv !! pa_Key args)).2 /\
  (forall k, k <> pa_Key args -> (Kvsrv.Put args kv).1 !! k = kv !! k).
Proof.
  unfold Kvsrv.Put, Spec.put, Spec.version. destruct (kv !! pa_Key args) as [v|] eqn:E.
  - destruct (decide (version_ v <> pa_Version args)) as [H|H].
    + rewrite decide_False by congruence. split_and!; simpl; auto.
    + rewrite decide_True by (apply dec_stable in H; congruence).
      split_and!; simpl; [by simplify_map_eq | done | intros; by simplify_map_eq].
  - case_decide as H; split_and!; simpl; auto; [by simplify_map_eq | intros; by simplify_map_eq].
Qed.

(** The replicated server runs its requests through [DoOp]. *)
Definition raft_put (args : PutArgs) (kv : kv_map) : kv_map * PutReply :=
  match Kvraft.DoOp (Kvraft.ReqPut args) kv with
  | (kv', Kvraft.RepPut reply) => (kv', reply)
  | (kv', _) => (kv', mkPutReply "")
  end.

Definition raft_get (args : GetArgs) (kv : kv_map) : GetReply :=
  match Kvraft.DoOp (Kvraft.ReqGet args) kv with
  | (_, Kvraft.RepGet reply) => reply
  | _ => mkGetReply "" 0 ""
  end.

Lemma DoOp_Put args kv :
  Kvraft.DoOp (Kvraft.ReqPut args) kv =
    ((Kvsrv.Put args kv).1, Kvraft.RepPut (Kvsrv.Put args kv).2).
Proof.
  unfold Kvsrv.Put. simpl. destruct (kv !! pa_Key args) as [v|]; [| by case_decide].
  destruct (decide (version_ v <> pa_Version args)) as [H|H].
  - by rewrite decide_True by congruence.
  - rewrite decide_False; [done |]. apply dec_stable in H. congruence.
Qed.

Lemma raft_put_eq args kv : raft_put args kv = Kvsrv.Put args kv.
Proof. unfold raft_put. rewrite DoOp_Put. by destruct (Kvsrv.Put args kv). Qed.

Lemma Get_spec args kv : Kvsrv.Get args kv = Spec.get (kv !! ga_Key args).
Proof. unfold Kvsrv.Get. by destruct (kv !! ga_Key args). Qed.

Lemma raft_get_eq args kv : raft_get args kv = Kvsrv.Get args kv.
Proof. unfold raft_get, Kvsrv.Get. simpl. by destruct (kv !! ga_Key args). Qed.

#[export] Program Instance kvsrv_service : KVService := {
  svc_put := Kvsrv.Put; svc_get := Kvsrv.Get }.
Next Obligation. intros args kv. apply Put_spec. Qed.
Next Obligation. intros args kv. apply Put_spec. Qed.
Next Obligation. intros args kv. apply Put_spec. Qed.
Next Obligation. apply Get_spec. Qed.

Program Definition kvraft_service : KVService := {|
  svc_put := raft_put; svc_get := raft_get |}.
Next Obligation. intros args kv. rewrite raft_put_eq. apply Put_spec. Qed.
Next Obligation. intros args kv. rewrite raft_put_eq. apply Put_spec. Qed.
Next Obligation. intros args kv. rewrite raft_put_eq. apply Put_spec. Qed.
Next Obligation. intros args kv. simpl. rewrite raft_get_eq. apply Get_spec. Qed.

(** ** Operations and histories *)
Inductive Op := OGet (args : GetArgs) | OPut (args : PutArgs).

Definition version_of (kv : kv_map) (k : string) : Z := Spec.version (kv !! k).

Definition op_in_range (op : Op) : Prop :=
  match op with OGet _ => True | OPut args => 0 <= pa_Version args < 2 ^ 64 - 1 end.

Section Service.
Context `{svc : !KVService}.

Definition apply_op (op : Op) (kv : kv_map) : kv_map :=
  match op with OGet _ => kv | OPut args => (svc_put args kv).1 end.

Definition apply_ops (ops : list Op) (kv : kv_map) : kv_map :=
  foldl (fun kv op => apply_op op kv) kv ops.

Lemma put_ok_version args kv :
  pr_Err (svc_put args kv).2 = OK <-> version_of kv (pa_Key args) = pa_Version args.
Proof.
  rewrite svc_put_err. unfold Spec.put, version_of.
  case_decide as H; simpl; [done |]. split; [| congruence].
  by destruct (kv !! pa_Key args).
Qed.

(** A put moves the version of its key by one, or leaves it. *)
Lemma put_version args kv k :
  0 <= pa_Version args < 2 ^ 64 - 1 ->
  version_of (svc_put args kv).1 k =
    if decide (k = pa_Key args /\ pr_Err (svc_put args kv).2 = OK)
    then version_of kv k + 1 else version_of kv k.
Proof.
  intros Hb. unfold version_of.
  destruct (decide (k = pa_Key args)) as [->|Hk].
  - rewrite svc_put_reg, svc_put_err. unfold Spec.put. case_decide as Hv; simpl.
    + rewrite decide_True by done. rewrite u64_small by lia. lia.
    + rewrite decide_False; [done |]. intros [_ K]. by destruct (kv !! pa_Key args).
  - rewrite svc_put_frame by done. by rewrite decide_False by tauto.
Qed.

Lemma apply_op_version op kv k : op_in_range op -> version_of kv k <= version_of (apply_op op kv) k.
Proof.
  destruct op as [|args]; simpl; [lia |]. intros H. rewrite put_version by done. case_decide; lia.
Qed.

Lemma apply_ops_version ops kv k :
  Forall op_in_range ops -> version_of kv k <= version_of (apply_ops ops kv) k.
Proof.
  intros H. revert kv. induction H as [|op ops Hop _ IH]; intros kv; simpl; [lia |].
  transitivity (version_of (apply_op op kv) k); [by apply apply_op_version | apply IH].
Qed.

(** A put that took effect never takes effect again. *)
Lemma put_not_again args kv ops :
  0 <= pa_Version args < 2 ^ 64 - 1 -> Forall op_in_range ops ->
  pr_Err (svc_put args kv).2 = OK ->
  pr_Err (svc_put args (apply_ops ops (svc_put args kv).1)).2 <> OK.
Proof.
  intros Hb Hops H. rewrite put_ok_version.
  pose proof (apply_ops_version ops (svc_put args kv).1 (pa_Key args) Hops) as Hle.
  rewrite put_version in Hle by done. rewrite decide_True in Hle by done.
  rewrite put_ok_version in H. lia.
Qed.
End Service.

(** ** Properties *)

(** C22: The single server and the replicated state machine implement the
    same specification.  On every request both give the reply of the
    versioned register at that key, update it alone, and so stay equal. *)
Theorem servers_implement_register args gargs kv :
  (let '(kv', reply) := Kvsrv.Put args kv in
   let '(r', err) := Spec.put (pa_Value args) (pa_Version args) (kv !! pa_Key args) in
   pr_Err reply = err /\ kv' !! pa_Key args = r' /\
   (forall k, k <> pa_Key args -> kv' !! k = kv !! k) /\
   Kvraft.DoOp (Kvraft.ReqPut args) kv = (kv', Kvraft.RepPut reply)) /\
  Kvsrv.Get gargs kv = Spec.get (kv !! ga_Key gargs) /\
  Kvraft.DoOp (Kvraft.ReqGet gargs) kv = (kv, Kvraft.RepGet (Kvsrv.Get gargs kv)).
Proof.
  rewrite DoOp_Put, <- Get_spec. destruct (Put_spec args kv) as (H1 & H2 & H3). split.
  - destruct (Kvsrv.Put args kv) as [kv' reply], (Spec.put _ _ _) as [r' err'].
    simpl in *. by subst.
  - split; [done |]. unfold Kvsrv.Get. simpl. by destruct (kv !! ga_Key gargs).
Qed.

(** At most once.  After a put took effect, the same put never takes
    effect again, whatever operations run in between, as long as no
    request names the last version before the counter wraps. *)
Theorem Put_at_most_once args kv ops :
  0 <= pa_Version args < 2 ^ 64 - 1 -> Forall op_in_range ops ->
  pr_Err (Kvsrv.Put args kv).2 = OK ->
  pr_Err (Kvsrv.Put args (apply_ops ops (Kvsrv.Put args kv).1)).2 <> OK.
Proof. apply (put_not_again (svc := kvsrv_service)). Qed.

Lemma Put_at_most_once_witness :
  pr_Err (Kvsrv.Put (mkPutArgs "a" "x" 0) ∅).2 = OK /\
  pr_Err (Kvsrv.Put (mkPutArgs "a" "x" 0)
    (apply_ops [OPut (mkPutArgs "a" "y" 1)] (Kvsrv.Put (mkPutArgs "a" "x" 0) ∅).1)).2 <> OK.
Proof.
  split; [reflexivity |].
  apply (Put_at_most_once (mkPutArgs "a" "x" 0) ∅ [OPut (mkPutArgs "a" "y" 1)]);
    [simpl; lia | repeat constructor; simpl; lia | reflexivity].
Defined.

(** A server rebuilt from a snapshot is the server that took it. *)
Theorem Restore_Snapshot `{!Codec kv_map} kv kv0 :
  Kvraft.Restore (Kvraft.Snapshot kv) kv0 = Ok kv.
Proof.
  unfold Kvraft.Restore, Kvraft.Snapshot. case_decide as H.
  - pose proof (encode_nonempty kv) as Hn. destruct (encode kv) as [|z l]; [done |].
    rewrite zlen_cons in H. pose proof (zlen_nonneg l). lia.
  - by rewrite decode_encode.
Qed.

#[export] Instance ValueType_eq_dec : EqDecision ValueType.
Proof. solve_decision. Defined.
#[export] Instance ValueType_countable : Countable ValueType.
Proof.
  apply (inj_countable' (fun v => (value_ v, version_ v)) (fun p => mkValue p.1 p.2)). by intros [].
Defined.

Lemma Restore_Snapshot_witness :
  @Kvraft.Restore (countable_codec kv_map)
    (@Kvraft.Snapshot (countable_codec kv_map) {[ "a" := mkValue "x" 1 ]}) ∅
  = Ok {[ "a" := mkValue "x" 1 ]}.
Proof. apply (@Restore_Snapshot (countable_codec kv_map)). Defined.
