(* ===== verification/KvClerk.v ===== *)
(** * The clerks ([kvsrv1/client.go], [kvraft1/client.go])

    A clerk call is a retry loop over a network that may lose a request
    or a reply, deliver an abandoned request late, and run other
    clients' requests in between.  The loops take the sequence of these
    events; they are written against [KVService], so each theorem covers
    any server that implements the versioned registers. *)
From S2P Require Import Prelude Kv.
Import Rpc.

(** What happens on the network while a call runs.  [LostReply]: the
    server executed the request and the reply was lost; [Late]: a request
    this call gave up on reaches the server. *)
Inductive Event :=
| Env (op : Op)
| Late
| LostRequest
| LostReply
| Delivered.

Definition env_in_range (e : Event) : Prop :=
  match e with Env op => op_in_range op | _ => True end.

Section Exec.
Context `{svc : !KVService}.

(** One execution of the call's request; [applied] counts those that
    changed the register. *)
Definition exec (args : PutArgs) (kv : kv_map) (applied : nat) : kv_map * nat * PutReply :=
  let '(kv', reply) := svc_put args kv in
  (kv', if decide (pr_Err reply = OK) then S applied else applied, reply).

(** The request took effect at most once, and only if it was sent. *)
Definition put_inv (args : PutArgs) (sent : bool) (applied : nat) (kv : kv_map) : Prop :=
  applied = 0%nat \/
  applied = 1%nat /\ sent = true /\ pa_Version args < version_of kv (pa_Key args).

Lemma put_inv_sent args sent applied kv :
  put_inv args sent applied kv -> put_inv args true applied kv.
Proof. unfold put_inv. naive_solver. Qed.

Lemma put_inv_env args sent applied kv op :
  op_in_range op -> put_inv args sent applied kv -> put_inv args sent applied (apply_op op kv).
Proof.
  intros Hop [H|(H & Hs & Hv)]; [by left | right; split_and!; [done.. |]].
  pose proof (apply_op_version op kv (pa_Key args) Hop). lia.
Qed.

Lemma exec_inv args sent applied kv kv' applied' reply :
  0 <= pa_Version args < 2 ^ 64 - 1 ->
  put_inv args sent applied kv -> exec args kv applied = (kv', applied', reply) ->
  put_inv args true applied' kv' /\
  (pr_Err reply = OK -> applied' = 1%nat) /\
  (pr_Err reply <> OK -> applied' = applied).
Proof.
  intros Hb Hinv He. unfold exec in He.
  pose proof (put_ok_version args kv) as Hok. pose proof (put_version args kv (pa_Key args) Hb) as Hver.
  destruct (svc_put args kv) as [kv1 r] eqn:E. simpl in *.
  destruct (decide (pr_Err r = OK)) as [Hr|Hr]; simplify_eq; split_and!; try done.
  - right. rewrite decide_True in Hver by done. apply Hok in Hr.
    destruct Hinv as [->|(_ & _ & Hv)]; [| lia]. split_and!; [done.. | lia].
  - intros _. destruct Hinv as [->|(-> & _ & Hv)]; [done |]. apply Hok in Hr. lia.
  - apply put_inv_sent in Hinv. destruct Hinv as [->|(-> & _ & Hv)]; [by left | right].
    split_and!; [done.. |]. rewrite decide_False in Hver by tauto. lia.
Qed.
Lemma put_ErrNoKey args kv :
  kv !! pa_Key args = None -> pa_Version args <> 0 -> svc_put args kv = (kv, mkPutReply ErrNoKey).
Proof.
  intros Hk Hv. pose proof (svc_put_err args kv) as He. pose proof (svc_put_reg args kv) as Hr.
  pose proof (svc_put_frame args kv) as Hf. rewrite Hk in He, Hr. unfold Spec.put in *. simpl in *.
  rewrite decide_False in He, Hr by done. destruct (svc_put args kv) as [kv' [err]]. simpl in *. subst.
  f_equal. apply map_eq. intros k. destruct (decide (k = pa_Key args)) as [->|]; [congruence | auto].
Qed.

(** The three answers a server gives to a put. *)
Lemma exec_reply args kv applied kv' applied' reply :
  exec args kv applied = (kv', applied', reply) ->
  pr_Err reply = OK \/
  (pr_Err reply = ErrVersion /\ is_Some (kv !! pa_Key args)) \/
  (pr_Err reply = ErrNoKey /\ kv !! pa_Key args = None /\ kv' !! pa_Key args = None).
Proof.
  unfold exec. intros H. pose proof (svc_put_err args kv) as He. pose proof (svc_put_reg args kv) as Hr.
  destruct (svc_put args kv) as [kv1 r]. simplify_eq. simpl in *. unfold Spec.put in *.
  destruct (decide (pa_Version args = Spec.version (kv !! pa_Key args))); [by left | right].
  destruct (kv !! pa_Key args); simpl in *; [left | right]; eauto.
Qed.
End Exec.

(** ** [kvsrv1/client.go] *)
Module KvsrvClerk.
Section Clerk.
Context `{svc : !KVService}.

(** The switch on [reply.Err]: [None] continues the loop. *)
Definition getReply (reply : GetReply) : option (string * Z * Err) :=
  if decide (gr_Err reply = OK) then Some (gr_Value reply, gr_Version reply, gr_Err reply)
  else if decide (gr_Err reply = ErrMaybe) then None
  else if decide (gr_Err reply = ErrNoKey) then Some ("", gr_Version reply, gr_Err reply)
  else if decide (gr_Err reply = ErrVersion) then None
  else if decide (gr_Err reply = ErrWrongGroup) then None
  else if decide (gr_Err reply = ErrWrongLeader) then None
  else Some ("", 0, ErrNoKey).

Definition putReply (retried : bool) (reply : PutReply) : Err :=
  if decide (pr_Err reply = OK) then pr_Err reply
  else if decide (pr_Err reply = ErrNoKey) then pr_Err reply
  else if decide (pr_Err reply = ErrVersion) then (if retried then ErrMaybe else ErrVersion)
  else ErrNoKey.

(** [Clerk.Get]: the result, and the map it ran against last. *)
Fixpoint Get (key : string) (net : list Event) (kv : kv_map) : kv_map * option (string * Z * Err) :=
  match net with
  | [] => (kv, None)
  | Env op :: net => Get key net (apply_op op kv)
  | Delivered :: net =>
      match getReply (svc_get (mkGetArgs key) kv) with
      | Some r => (kv, Some r)
      | None => Get key net kv
      end
  | _ :: net => Get key net kv
  end.

Fixpoint Put_loop (args : PutArgs) (retried : bool) (applied : nat) (net : list Event) (kv : kv_map) :
    kv_map * nat * option Err :=
  match net with
  | [] => (kv, applied, None)
  | Env op :: net => Put_loop args retried applied net (apply_op op kv)
  | Late :: net =>
      if retried then
        let '(kv', applied', _) := exec args kv applied in Put_loop args retried applied' net kv'
      else Put_loop args retried applied net kv
  | LostReply :: net =>
      let '(kv', applied', _) := exec args kv applied in Put_loop args true applied' net kv'
  | Delivered :: _ =>
      let '(kv', applied', reply) := exec args kv applied in
      (kv', applied', Some (putReply retried reply))
  | LostRequest :: net => Put_loop args true applied net kv
  end.

Definition Put (key value : string) (version : Z) (net : list Event) (kv : kv_map) :=
  Put_loop (mkPutArgs key value version) false 0 net kv.

Lemma kvsrv_loop_result args retried applied net kv kv' n err :
  0 <= pa_Version args < 2 ^ 64 - 1 -> Forall env_in_range net ->
  put_inv args retried applied kv ->
  Put_loop args retried applied net kv = (kv', n, Some err) ->
  (n <= 1)%nat /\ (err = OK -> n = 1%nat) /\ (err = ErrVersion -> n = 0%nat) /\
  (err = ErrNoKey -> version_of kv' (pa_Key args) = 0 /\ kv' !! pa_Key args = None /\ n = 0%nat).
Proof.
  intros Hb Hnet. revert retried applied kv.
  induction Hnet as [|e net He _ IH]; intros retried applied kv Hinv Hrun; [done |].
  destruct e as [op| | | |]; simpl in Hrun.
  - eapply IH; [| exact Hrun]. by apply put_inv_env.
  - destruct retried; [| by eapply IH].
    destruct (exec args kv applied) as [[kv1 n1] r] eqn:Ee.
    eapply IH; [| exact Hrun]. by eapply exec_inv.
  - eapply IH; [| exact Hrun]. by eapply put_inv_sent.
  - destruct (exec args kv applied) as [[kv1 n1] r] eqn:Ee.
    eapply IH; [| exact Hrun]. by eapply exec_inv.
  - destruct (exec args kv applied) as [[kv1 n1] r] eqn:Ee.
    destruct (exec_inv _ _ _ _ _ _ _ Hb Hinv Ee) as (Hinv' & Hok & Hnok). simplify_eq.
    unfold putReply. destruct (exec_reply _ _ _ _ _ _ Ee) as [Hr|[(Hr & _)|(Hr & Hk & Hk')]]; rewrite Hr; simpl.
    + rewrite (Hok Hr). by split_and!.
    + rewrite (Hnok ltac:(by rewrite Hr)).
      destruct Hinv as [->|(-> & -> & _)]; [destruct retried |]; split_and!; (done || lia).
    + destruct Hinv' as [->|(_ & _ & Hgt)]; [| by unfold version_of in Hgt; rewrite Hk' in Hgt; simpl in Hgt; lia].
      unfold version_of. rewrite Hk'. split_and!; (done || lia).
Qed.

Lemma Put_loop_returns args retried applied net kv :
  Delivered ∈ net -> exists kv' n err, Put_loop args retried applied net kv = (kv', n, Some err).
Proof.
  revert retried applied kv. induction net as [|e net IH]; intros retried applied kv Hin; [by inversion Hin |].
  destruct e; simpl; try (apply elem_of_cons in Hin as [Hin|Hin]; [done |]); try by apply IH.
  - destruct retried; [| by apply IH].
    destruct (exec args kv applied) as [[? ?] ?]. by apply IH.
  - destruct (exec args kv applied) as [[? ?] ?]. by apply IH.
  - destruct (exec args kv applied) as [[? ?] ?]. eauto.
Qed.

(** The map after the other clients' requests of a run. *)
Definition envs (net : list Event) (kv : kv_map) : kv_map :=
  foldl (fun kv e => match e with Env op => apply_op op kv | _ => kv end) kv net.

Definition get_result (kv : kv_map) (key : string) : string * Z * Err :=
  let reply := Spec.get (kv !! key) in (gr_Value reply, gr_Version reply, gr_Err reply).

Lemma kvsrv_getReply key kv :
  getReply (svc_get (mkGetArgs key) kv) = Some (get_result kv key).
Proof. rewrite svc_get_spec. unfold get_result. simpl. by destruct (kv !! key) as [[]|]. Qed.

Lemma Get_result key net kv kv' r :
  Get key net kv = (kv', Some r) ->
  exists before after, net = before ++ Delivered :: after /\
    kv' = envs before kv /\ r = get_result kv' key.
Proof.
  revert kv. induction net as [|e net IH]; intros kv H; simpl in H; [done |].
  destruct e as [op| | | |];
    try (destruct (IH _ H) as (b & a & -> & -> & ->); eexists (_ :: b), a; by split_and!).
  rewrite kvsrv_getReply in H. simplify_eq. exists [], net. by split_and!.
Qed.

Lemma Get_returns key net kv : Delivered ∈ net -> exists kv' r, Get key net kv = (kv', Some r).
Proof.
  revert kv. induction net as [|e net IH]; intros kv Hin; [by inversion Hin |].
  destruct e; simpl; try (apply elem_of_cons in Hin as [Hin|Hin]; [done |]; by apply IH).
  rewrite kvsrv_getReply. eauto.
Qed.
End Clerk.
End KvsrvClerk.

(** ** [kvraft1/client.go] *)
Module KvraftClerk.
Record Clerk := mkClerk { servers : list string; leader : Z }.

Definition MakeClerk (srvs : list string) : Clerk := mkClerk srvs 0.

(** The network of a replicated service adds one outcome: the contacted
    server answers that it is not the leader.  A request answered so may
    still be executed, which is a [Late] event. *)
Inductive REvent := Net (e : Event) | WrongLeader.

Definition renv_in_range (e : REvent) : Prop :=
  match e with Net e => env_in_range e | WrongLeader => True end.

(** [ck.leader = (ck.Leader() + 1) % len(ck.servers)]. *)
Definition nextLeader (ck : Clerk) : Res Clerk :=
  if decide (zlen (servers ck) = 0) then Panic
  else Ok (mkClerk (servers ck) (Z.rem (i64 (leader ck + 1)) (zlen (servers ck)))).

(** Both calls decode every reply into the same variable, and [gob] does
    not transmit zero fields: those keep what an earlier reply left. *)
Definition decodeStr (old new : string) : string := if decide (new = "") then old else new.
Definition decodeZ (old new : Z) : Z := if decide (new = 0) then old else new.

Definition decodeGet (old new : GetReply) : GetReply :=
  mkGetReply (decodeStr (gr_Value old) (gr_Value new)) (decodeZ (gr_Version old) (gr_Version new))
             (decodeStr (gr_Err old) (gr_Err new)).

Definition decodePut (old new : PutReply) : PutReply := mkPutReply (decodeStr (pr_Err old) (pr_Err new)).

Section Clerk.
Context `{svc : !KVService}.

(** What a loop does next: return, or go around with this clerk and
    this [is_resend_]. *)
Inductive Next (A : Type) := Return (a : A) | Loop (ck : Clerk) (is_resend : bool).
Arguments Return {A} a.
Arguments Loop {A} ck is_resend.

Definition getReply (ck : Clerk) (ok : bool) (reply : GetReply) : Res (Next (string * Z * Err)) :=
  if decide (ok = false \/ gr_Err reply = ErrWrongLeader) then
    let* ck := nextLeader ck in Ok (Loop ck false)
  else if decide (gr_Err reply = ErrNoKey) then
    Ok (Return (gr_Value reply, gr_Version reply, ErrNoKey))
  else if decide (gr_Err reply = OK) then
    Ok (Return (gr_Value reply, gr_Version reply, OK))
  else Ok (Loop ck false).

Definition putReply (ck : Clerk) (is_resend : bool) (ok : bool) (reply : PutReply) : Res (Next Err) :=
  if decide (ok = false \/ pr_Err reply = ErrWrongLeader) then
    let* ck := nextLeader ck in Ok (Loop ck true)
  else if decide (pr_Err reply = ErrVersion /\ is_resend = false) then Ok (Return ErrVersion)
  else if decide (pr_Err reply = ErrVersion /\ is_resend = true) then Ok (Return ErrMaybe)
  else if decide (pr_Err reply = OK) then Ok (Return OK)
  else Ok (Loop ck is_resend).

Fixpoint Get_loop (key : string) (reply : GetReply) (net : list REvent) (ck : Clerk) (kv : kv_map) :
    Res (kv_map * Clerk * option (string * Z * Err)) :=
  match net with
  | [] => Ok (kv, ck, None)
  | Net (Env op) :: net => Get_loop key reply net ck (apply_op op kv)
  | Net Late :: net => Get_loop key reply net ck kv
  | e :: net =>
      let* _ := slice_get (servers ck) (leader ck) in
      let '(ok, reply) :=
        match e with
        | Net Delivered => (true, decodeGet reply (svc_get (mkGetArgs key) kv))
        | WrongLeader => (true, decodeGet reply (mkGetReply "" 0 ErrWrongLeader))
        | _ => (false, reply)
        end in
      let* next := getReply ck ok reply in
      match next with
      | Return r => Ok (kv, ck, Some r)
      | Loop ck _ => Get_loop key reply net ck kv
      end
  end.

Definition Get (key : string) := Get_loop key (mkGetReply "" 0 "").

Fixpoint Put_loop (args : PutArgs) (reply : PutReply) (is_resend : bool) (applied : nat)
    (net : list REvent) (ck : Clerk) (kv : kv_map) : Res (kv_map * nat * Clerk * option Err) :=
  match net with
  | [] => Ok (kv, applied, ck, None)
  | Net (Env op) :: net => Put_loop args reply is_resend applied net ck (apply_op op kv)
  | Net Late :: net =>
      if is_resend then
        let '(kv', applied', _) := exec args kv applied in
        Put_loop args reply is_resend applied' net ck kv'
      else Put_loop args reply is_resend applied net ck kv
  | e :: net =>
      let* _ := slice_get (servers ck) (leader ck) in
      let '(ok, kv, applied, reply) :=
        match e with
        | Net Delivered =>
            let '(kv', applied', r) := exec args kv applied in (true, kv', applied', decodePut reply r)
        | Net LostReply => let '(kv', applied', _) := exec args kv applied in (false, kv', applied', reply)
        | WrongLeader => (true, kv, applied, decodePut reply (mkPutReply ErrWrongLeader))
        | _ => (false, kv, applied, reply)
        end in
      let* next := putReply ck is_resend ok reply in
      match next with
      | Return r => Ok (kv, applied, ck, Some r)
      | Loop ck is_resend => Put_loop args reply is_resend applied net ck kv
      end
  end.

Definition Put (key value : string) (version : Z) :=
  Put_loop (mkPutArgs key value version) (mkPutReply "") false 0.

(** The clerk always addresses one of its servers. *)
Definition wf_clerk (ck : Clerk) : Prop :=
  0 <= leader ck < zlen (servers ck) /\ zlen (servers ck) < 2 ^ 63.

Lemma nextLeader_wf ck : wf_clerk ck -> exists ck', nextLeader ck = Ok ck' /\ wf_clerk ck' /\
  servers ck' = servers ck /\ leader ck' = (leader ck + 1) mod zlen (servers ck).
Proof.
  intros [H1 H2]. unfold nextLeader. rewrite decide_False by lia. eexists; split; [done |].
  unfold wf_clerk. simpl. rewrite i64_small by lia. rewrite Z.rem_mod_nonneg by lia.
  split_and!; try done; by apply Z.mod_pos_bound; lia.
Qed.

Lemma wf_clerk_get ck : wf_clerk ck -> exists s, slice_get (servers ck) (leader ck) = Ok s.
Proof. intros [H _]. destruct (slice_get_ok (servers ck) (leader ck) H) as (s & _ & ?). eauto. Qed.

Definition renvs (net : list REvent) (kv : kv_map) : kv_map :=
  foldl (fun kv e => match e with Net (Env op) => apply_op op kv | _ => kv end) kv net.

(** Only a [ErrWrongLeader] reply is ever decoded before the last one,
    and it leaves no value and no version behind. *)
Definition clean (reply : GetReply) : Prop := gr_Value reply = "" /\ gr_Version reply = 0.

Lemma decodeGet_clean old new : clean old -> gr_Err new <> "" -> decodeGet old new = new.
Proof.
  intros [H1 H2] He. destruct old, new. simpl in *. subst. unfold decodeGet, decodeStr, decodeZ.
  simpl. f_equal; by case_decide.
Qed.

Lemma decodePut_new old new : pr_Err new <> "" -> decodePut old new = new.
Proof. intros He. destruct new. unfold decodePut, decodeStr. simpl in *. by rewrite decide_False. Qed.

Lemma getReply_spec ck key kv :
  getReply ck true (svc_get (mkGetArgs key) kv) = Ok (Return (KvsrvClerk.get_result kv key)).
Proof. rewrite svc_get_spec. unfold KvsrvClerk.get_result. simpl. by destruct (kv !! key) as [[]|]. Qed.

Lemma svc_get_err key kv : gr_Err (svc_get (mkGetArgs key) kv) <> "".
Proof. rewrite svc_get_spec. simpl. by destruct (kv !! key) as [[]|]. Qed.

Lemma getReply_fail ck ok reply : wf_clerk ck -> ok = false \/ gr_Err reply = ErrWrongLeader ->
  exists ck', getReply ck ok reply = Ok (Loop ck' false) /\ wf_clerk ck'.
Proof.
  intros Hwf Hok. destruct (nextLeader_wf ck Hwf) as (ck' & Hn & Hwf' & _).
  unfold getReply. rewrite decide_True by done. rewrite Hn. by exists ck'.
Qed.

Lemma Get_loop_result key net : forall reply ck kv, wf_clerk ck -> clean reply ->
  exists kv' ck' res, Get_loop key reply net ck kv = Ok (kv', ck', res) /\ wf_clerk ck' /\
    (Net Delivered ∈ net -> res <> None) /\
    (forall r, res = Some r -> exists before after, net = before ++ Net Delivered :: after /\
       kv' = renvs before kv /\ r = KvsrvClerk.get_result kv' key).
Proof.
  induction net as [|e net IH]; intros reply ck kv Hwf Hc.
  { eexists _, _, _. split_and!; [done.. | by intros H; inversion H | done]. }
  destruct (wf_clerk_get ck Hwf) as [s Hs].
  assert (e = Net Delivered \/ e <> Net Delivered) as [->|Hne] by (destruct e as [[]|]; by auto).
  { simpl. rewrite Hs. simpl. rewrite decodeGet_clean, getReply_spec by (done || apply svc_get_err).
    eexists _, _, _. split_and!; [done.. |]. intros r [= <-]. by exists [], net. }
  assert (exists reply' ck' kv1, Get_loop key reply (e :: net) ck kv = Get_loop key reply' net ck' kv1 /\
    wf_clerk ck' /\ clean reply' /\ kv1 = renvs [e] kv) as (reply' & ck' & kv1 & Heq & Hwf' & Hc' & Hkv).
  { destruct e as [[op| | | |]|]; simpl; rewrite ?Hs; simpl; try done; try by eexists _, _, _.
    - destruct (getReply_fail ck false reply Hwf) as (ck' & -> & ?); [by left |]. by eexists _, ck', _.
    - destruct (getReply_fail ck false reply Hwf) as (ck' & -> & ?); [by left |]. by eexists _, ck', _.
    - rewrite decodeGet_clean by done.
      destruct (getReply_fail ck true (mkGetReply "" 0 ErrWrongLeader) Hwf) as (ck' & -> & ?); [by right |].
      by eexists _, ck', _. }
  rewrite Heq. destruct (IH reply' ck' kv1 Hwf' Hc') as (kv2 & ck2 & res & -> & Hwf2 & Hret & Hres).
  eexists _, _, _. split_and!; [done.. | |].
  - intros [Hin|Hin]%elem_of_cons; [congruence | by apply Hret].
  - intros r Hr. destruct (Hres r Hr) as (b & a & -> & -> & ->).
    exists (e :: b), a. subst kv1. by destruct e as [[]|].
Qed.

Lemma putReply_fail ck s ok reply : wf_clerk ck -> ok = false \/ pr_Err reply = ErrWrongLeader ->
  exists ck', putReply ck s ok reply = Ok (Loop ck' true) /\ wf_clerk ck'.
Proof.
  intros Hwf Hok. destruct (nextLeader_wf ck Hwf) as (ck' & Hn & Hwf' & _).
  unfold putReply. rewrite decide_True by done. rewrite Hn. by exists ck'.
Qed.

Definition put_result_ok (n : nat) (err : Err) : Prop :=
  (n <= 1)%nat /\
  (err = OK /\ n = 1%nat \/ err = ErrVersion /\ n = 0%nat \/ err = ErrMaybe).

Lemma putReply_exec args ck s applied kv kv' n r old :
  0 <= pa_Version args < 2 ^ 64 - 1 -> put_inv args s applied kv ->
  exec args kv applied = (kv', n, r) ->
  (exists err, putReply ck s true (decodePut old r) = Ok (Return err) /\ put_result_ok n err) \/
  (putReply ck s true (decodePut old r) = Ok (Loop ck s) /\ pr_Err r = ErrNoKey /\ put_inv args s n kv').
Proof.
  intros Hb Hinv He. destruct (exec_inv _ _ _ _ _ _ _ Hb Hinv He) as (Hinv' & Hok & Hnok).
  unfold put_result_ok.
  destruct (exec_reply _ _ _ _ _ _ He) as [Hr|[(Hr & _)|(Hr & Hk & Hk')]];
    rewrite decodePut_new by (by rewrite Hr); unfold putReply; rewrite Hr; simpl.
  - left. exists OK. split; [done |]. rewrite (Hok Hr). split; [lia | by left].
  - left. pose proof (Hnok ltac:(by rewrite Hr)) as Hn. destruct s; simpl.
    + exists ErrMaybe. split; [done |]. subst. destruct Hinv as [->|(-> & _)]; split; auto; lia.
    + exists ErrVersion. split; [done |]. subst. destruct Hinv as [->|(-> & ? & _)]; [| done]. split; auto.
  - right. split_and!; [done.. |].
    destruct Hinv' as [->|(_ & _ & Hgt)]; [by left |].
    unfold version_of in Hgt. rewrite Hk' in Hgt. simpl in Hgt. lia.
Qed.

Lemma Put_loop_result args net : 0 <= pa_Version args < 2 ^ 64 - 1 -> Forall renv_in_range net ->
  forall reply s applied ck kv, wf_clerk ck -> put_inv args s applied kv ->
  exists kv' n ck' res, Put_loop args reply s applied net ck kv = Ok (kv', n, ck', res) /\ wf_clerk ck' /\
    (n <= 1)%nat /\ (forall err, res = Some err -> put_result_ok n err).
Proof.
  intros Hb Hnet. induction Hnet as [|e net He Hnet IH]; intros reply s applied ck kv Hwf Hinv.
  { eexists _, _, _, _. split_and!; [done.. | | done]. destruct Hinv as [->|(-> & _)]; lia. }
  destruct (wf_clerk_get ck Hwf) as [srv Hs].
  destruct e as [[op| | | |]|]; simpl; rewrite ?Hs; simpl.
  - apply IH; [done |]. by apply put_inv_env.
  - destruct s; [| by apply IH]. destruct (exec args kv applied) as [[kv1 n1] r] eqn:Ee.
    apply IH; [done |]. by eapply exec_inv.
  - destruct (putReply_fail ck s false reply Hwf) as (ck' & -> & ?); [by left |].
    apply IH; [done |]. by eapply put_inv_sent.
  - destruct (exec args kv applied) as [[kv1 n1] r] eqn:Ee.
    destruct (putReply_fail ck s false reply Hwf) as (ck' & -> & ?); [by left |].
    apply IH; [done |]. by eapply exec_inv.
  - destruct (exec args kv applied) as [[kv1 n1] r] eqn:Ee.
    destruct (putReply_exec args ck s applied kv kv1 n1 r reply Hb Hinv Ee)
      as [(err & -> & Hres)|(-> & _ & Hinv')]; simpl.
    + eexists _, _, _, _. split_and!; [done.. | apply Hres |]. by intros ? [= <-].
    + by apply IH.
  - rewrite decodePut_new by done.
    destruct (putReply_fail ck s true (mkPutReply ErrWrongLeader) Hwf) as (ck' & -> & ?); [by right |].
    apply IH; [done |]. by eapply put_inv_sent.
Qed.


(** The answer [ErrNoKey] sends a put around the loop, unchanged. *)
Lemma Put_loop_ErrNoKey args s ck kv n : forall reply,
  wf_clerk ck -> kv !! pa_Key args = None -> pa_Version args <> 0 ->
  Put_loop args reply s 0 (replicate n (Net Delivered)) ck kv = Ok (kv, 0%nat, ck, None).
Proof.
  intros reply Hwf Hk Hv. revert reply. induction n as [|n IH]; intros reply; [done |]. simpl.
  destruct (wf_clerk_get ck Hwf) as [srv ->]. simpl. unfold exec.
  rewrite put_ErrNoKey by done. simpl. rewrite decodePut_new by done. apply IH.
Qed.

(** Failed calls walk the clerk through its servers in a circle. *)
Lemma failures_rotate args ck n : wf_clerk ck ->
  forall reply s kv, exists ck' reply' s',
  (forall net, Put_loop args reply s 0 (replicate n (Net LostRequest) ++ net) ck kv =
               Put_loop args reply' s' 0 net ck' kv) /\
  wf_clerk ck' /\ servers ck' = servers ck /\ leader ck' = (leader ck + Z.of_nat n) mod zlen (servers ck).
Proof.
  revert ck. induction n as [|n IH]; intros ck Hwf reply s kv.
  { exists ck, reply, s. split_and!; try done. destruct Hwf. rewrite Z.mod_small; lia. }
  destruct (nextLeader_wf ck Hwf) as (ck1 & Hn & Hwf1 & Hs1 & Hl1).
  destruct (IH ck1 Hwf1 reply true kv) as (ck2 & reply2 & s2 & Hnet & Hwf2 & Hs2 & Hl2).
  exists ck2, reply2, s2. split_and!; [| done | congruence |].
  - intros net. rewrite <- (Hnet net). simpl. destruct (wf_clerk_get ck Hwf) as [srv ->]. simpl.
    unfold putReply. simpl. by rewrite Hn.
  - rewrite Hl2, Hl1, Hs1. rewrite Z.add_mod_idemp_l by (destruct Hwf; lia). f_equal. lia.
Qed.
End Clerk.
Arguments Return {A} a.
Arguments Loop {A} ck is_resend.
End KvraftClerk.

Import KvraftClerk.

(** ** Properties *)

(** The single-server clerk's [Put] tells the truth.  Over any lossy
    network and any interleaving with other clients, the put changes the
    register at most once; [OK] means exactly once, [ErrVersion] and
    [ErrNoKey] never, and a call one of whose requests is answered
    returns. *)
Theorem kvsrv_Put_result (svc : KVService) key value version net kv :
  0 <= version < 2 ^ 64 - 1 -> Forall env_in_range net -> Delivered ∈ net ->
  exists kv' n err, KvsrvClerk.Put key value version net kv = (kv', n, Some err) /\
    (n <= 1)%nat /\ (err = OK -> n = 1%nat) /\ (err = ErrVersion -> n = 0%nat) /\
    (err = ErrNoKey -> kv' !! key = None /\ n = 0%nat).
Proof.
  intros Hv Hnet Hin.
  destruct (KvsrvClerk.Put_loop_returns (mkPutArgs key value version) false 0 net kv Hin)
    as (kv' & n & err & Hrun).
  destruct (KvsrvClerk.kvsrv_loop_result (mkPutArgs key value version) _ _ _ _ _ _ _ Hv Hnet
    (or_introl eq_refl) Hrun)
    as (H1 & H2 & H3 & H4).
  exists kv', n, err. split_and!; [done.. |]. intros He. destruct (H4 He) as (_ & ? & ?). by split.
Qed.

Lemma kvsrv_Put_result_witness :
  let net := [LostReply; Env (OPut (mkPutArgs "a" "y" 1)); LostRequest; Late; Delivered] in
  KvsrvClerk.Put "a" "x" 0 net ∅ = ({[ "a" := mkValue "y" 2 ]}, 1%nat, Some ErrMaybe) /\
  exists kv' n err, KvsrvClerk.Put "a" "x" 0 net ∅ = (kv', n, Some err) /\
    (n <= 1)%nat /\ (err = OK -> n = 1%nat) /\ (err = ErrVersion -> n = 0%nat) /\
    (err = ErrNoKey -> kv' !! "a" = None /\ n = 0%nat).
Proof.
  split; [vm_compute; reflexivity |].
  apply (kvsrv_Put_result kvsrv_service); [lia | repeat constructor; simpl; lia |].
  do 4 apply list_elem_of_further. apply list_elem_of_here.
Defined.

(** The replicated clerk's [Put] never fails on a bad server index
    and its answers are true: at most one change of the register, [OK]
    exactly one, [ErrVersion] none. *)
Theorem kvraft_Put_result (svc : KVService) key value version net ck kv :
  0 <= version < 2 ^ 64 - 1 -> Forall renv_in_range net -> wf_clerk ck ->
  exists kv' n ck' res, Put key value version net ck kv = Ok (kv', n, ck', res) /\
    wf_clerk ck' /\ (n <= 1)%nat /\
    (forall err, res = Some err ->
       err = OK /\ n = 1%nat \/ err = ErrVersion /\ n = 0%nat \/ err = ErrMaybe).
Proof.
  intros Hv Hnet Hck.
  destruct (Put_loop_result (mkPutArgs key value version) net Hv Hnet (mkPutReply "") false 0 ck kv Hck
    (or_introl eq_refl)) as (kv' & n & ck' & res & Hrun & Hck' & Hn & Hres).
  exists kv', n, ck', res. split_and!; [done.. |]. intros err He. apply (Hres err He).
Qed.

Lemma kvraft_Put_result_witness :
  let net := [WrongLeader; Net Late; Net Delivered] in
  let ck := MakeClerk ["s0"; "s1"] in
  Put "a" "x" 0 net ck ∅ =
    Ok ({[ "a" := mkValue "x" 1 ]}, 1%nat, mkClerk ["s0"; "s1"] 1, Some ErrMaybe) /\
  exists kv' n ck' res, Put "a" "x" 0 net ck ∅ = Ok (kv', n, ck', res) /\
    wf_clerk ck' /\ (n <= 1)%nat /\
    (forall err, res = Some err ->
       err = OK /\ n = 1%nat \/ err = ErrVersion /\ n = 0%nat \/ err = ErrMaybe).
Proof.
  split; [vm_compute; reflexivity |].
  apply (kvraft_Put_result kvsrv_service);
    [lia | repeat constructor | by vm_compute; split_and!].
Defined.

(** [Get] of either clerk returns the register as it was at one
    moment of the call, and stale reply fields never leak into it. *)
Theorem kvraft_Get_linearizes (svc : KVService) key net ck kv :
  wf_clerk ck ->
  exists kv' ck' res, Get key net ck kv = Ok (kv', ck', res) /\ wf_clerk ck' /\
    (Net Delivered ∈ net -> res <> None) /\
    (forall r, res = Some r -> exists before after, net = before ++ Net Delivered :: after /\
       kv' = renvs before kv /\ r = KvsrvClerk.get_result kv' key).
Proof. intros Hck. by apply Get_loop_result. Qed.

Lemma kvraft_Get_linearizes_witness :
  let net := [WrongLeader; Net (Env (OPut (mkPutArgs "a" "x" 0))); Net Delivered] in
  let ck := MakeClerk ["s0"; "s1"] in
  Get "a" net ck ∅ = Ok ({[ "a" := mkValue "x" 1 ]}, mkClerk ["s0"; "s1"] 1, Some ("x", 1, OK)) /\
  exists kv' ck' res, Get "a" net ck ∅ = Ok (kv', ck', res) /\ wf_clerk ck' /\
    (Net Delivered ∈ net -> res <> None) /\
    (forall r, res = Some r -> exists before after, net = before ++ Net Delivered :: after /\
       kv' = renvs before ∅ /\ r = KvsrvClerk.get_result kv' "a").
Proof.
  split; [vm_compute; reflexivity |]. apply (kvraft_Get_linearizes kvsrv_service). by vm_compute; split_and!.
Defined.

(** A put of a missing key with a version other than 0 never
    returns from the replicated clerk, however often the leader answers
    [ErrNoKey]; the single-server clerk returns that error at the first
    answer. *)
Theorem kvraft_Put_ErrNoKey_loops (svc : KVService) key value version n ck kv :
  wf_clerk ck -> kv !! key = None -> version <> 0 ->
  Put key value version (replicate n (Net Delivered)) ck kv = Ok (kv, 0%nat, ck, None) /\
  KvsrvClerk.Put key value version [Delivered] kv = (kv, 0%nat, Some ErrNoKey).
Proof.
  intros Hck Hk Hv. split; [by apply Put_loop_ErrNoKey |].
  unfold KvsrvClerk.Put. simpl. unfold exec. by rewrite put_ErrNoKey.
Qed.

Lemma kvraft_Put_ErrNoKey_loops_witness :
  Put "a" "x" 3 (replicate 5 (Net Delivered)) (MakeClerk ["s0"]) ∅ = Ok (∅, 0%nat, MakeClerk ["s0"], None) /\
  KvsrvClerk.Put "a" "x" 3 [Delivered] ∅ = (∅, 0%nat, Some ErrNoKey).
Proof.
  apply (kvraft_Put_ErrNoKey_loops kvsrv_service "a" "x" 3 5 (MakeClerk ["s0"]) ∅);
    [by vm_compute; split_and! | reflexivity | discriminate].
Defined.
