(* ===== verification/KvCalls.v ===== *)
(** * A clerk's put as one atomic call

    What [KvsrvClerk.Put] and [KvraftClerk.Put] do over a lossy network,
    among the requests of other clients, is what [clerk_put] does at one
    moment between the call and its return.  The test clients of
    [KvTest] are written against [clerk_put]. *)
From S2P Require Import Prelude Kv KvClerk.
Import Rpc.
#[local] Open Scope Z_scope.

Section Calls.
Context `{svc : !KVService}.

(** A put that takes place at one moment.  [maybe]: the clerk cannot tell
    and reports [ErrMaybe]. *)
Definition clerk_put (maybe : bool) (args : PutArgs) (kv : kv_map) : kv_map * Err :=
  let '(kv', reply) := svc_put args kv in
  (kv', if maybe && bool_decide (pr_Err reply = OK \/ pr_Err reply = ErrVersion) then ErrMaybe else pr_Err reply).

Lemma put_unchanged args kv : pr_Err (svc_put args kv).2 <> OK -> (svc_put args kv).1 = kv.
Proof.
  intros He. apply map_eq. intros k. destruct (decide (k = pa_Key args)) as [->|Hne].
  - rewrite svc_put_err in He. rewrite svc_put_reg. unfold Spec.put in *. by case_decide.
  - by apply svc_put_frame.
Qed.

(** The server's answers, by the version. *)
Lemma put_answer args kv : pr_Err (svc_put args kv).2 =
  if decide (pa_Version args = version_of kv (pa_Key args)) then OK
  else match kv !! pa_Key args with Some _ => ErrVersion | None => ErrNoKey end.
Proof. rewrite svc_put_err. unfold Spec.put, version_of. by case_decide. Qed.

Lemma clerk_put_cases maybe args kv :
  (pa_Version args = version_of kv (pa_Key args) /\ (clerk_put maybe args kv).1 = (svc_put args kv).1 /\
     (clerk_put maybe args kv).2 = (if maybe then ErrMaybe else OK)) \/
  (pa_Version args <> version_of kv (pa_Key args) /\ (clerk_put maybe args kv).1 = kv /\
     (clerk_put maybe args kv).2 = match kv !! pa_Key args with
       | Some _ => if maybe then ErrMaybe else ErrVersion | None => ErrNoKey end).
Proof.
  pose proof (put_answer args kv) as He. pose proof (put_unchanged args kv) as Hu. unfold clerk_put.
  destruct (svc_put args kv) as [kv' reply]. simpl in *. rewrite He in *. case_decide as Hv; simpl.
  - left. by destruct maybe.
  - right. rewrite Hu by (by destruct (kv !! pa_Key args)).
    split_and!; [done | done |]. by destruct (kv !! pa_Key args), maybe.
Qed.

Lemma exec_put args kv applied : exec args kv applied =
  ((svc_put args kv).1, if decide (pr_Err (svc_put args kv).2 = OK) then S applied else applied, (svc_put args kv).2).
Proof. unfold exec. by destruct (svc_put args kv). Qed.

(** A request that arrives after its put took place changes nothing. *)
Lemma put_again args kv : 0 <= pa_Version args < version_of kv (pa_Key args) ->
  svc_put args kv = (kv, mkPutReply ErrVersion).
Proof.
  intros Hv. pose proof (put_answer args kv) as He. rewrite decide_False in He by lia.
  unfold version_of in Hv. destruct (kv !! pa_Key args) as [v|] eqn:Hk; [| simpl in Hv; lia].
  pose proof (put_unchanged args kv) as Hu. rewrite He in Hu.
  destruct (svc_put args kv) as [kv' [err]]. simpl in *. subst. by rewrite Hu.
Qed.

Lemma apply_again args op kv : op_in_range op -> 0 <= pa_Version args < version_of kv (pa_Key args) ->
  0 <= pa_Version args < version_of (apply_op op kv) (pa_Key args).
Proof. intros Ho Hv. pose proof (apply_op_version op kv (pa_Key args) Ho). lia. Qed.

Lemma put_done args kv : 0 <= pa_Version args < 2 ^ 64 - 1 -> pr_Err (svc_put args kv).2 = OK ->
  0 <= pa_Version args < version_of (svc_put args kv).1 (pa_Key args).
Proof.
  intros Hb He. pose proof (put_version args kv (pa_Key args) Hb) as Hv. rewrite decide_True in Hv by done.
  apply put_ok_version in He. lia.
Qed.

(** ** The single-server clerk *)

(** After the put took place: the answer will be [ErrMaybe]. *)
Lemma kvsrv_after args net : forall applied kv kv' n err,
  Forall env_in_range net -> 0 <= pa_Version args < version_of kv (pa_Key args) ->
  KvsrvClerk.Put_loop args true applied net kv = (kv', n, Some err) ->
  err = ErrMaybe /\ n = applied /\ exists mid rest, net = mid ++ Delivered :: rest /\ kv' = KvsrvClerk.envs mid kv.
Proof.
  induction net as [|e net IH]; intros applied kv kv' n err Hnet Hv H; [done |].
  apply Forall_cons_1 in Hnet as [He Hnet].
  assert (forall applied' kv1, KvsrvClerk.Put_loop args true applied' net kv1 = (kv', n, Some err) ->
    applied' = applied -> kv1 = KvsrvClerk.envs [e] kv ->
    err = ErrMaybe /\ n = applied /\ exists mid rest, e :: net = mid ++ Delivered :: rest /\ kv' = KvsrvClerk.envs mid kv) as Hgo.
  { intros applied' kv1 H1 -> ->.
    assert (0 <= pa_Version args < version_of (KvsrvClerk.envs [e] kv) (pa_Key args)) as Hv1
      by (destruct e; simpl; try done; by apply apply_again).
    destruct (IH _ _ _ _ _ Hnet Hv1 H1) as (-> & -> & mid & rest & -> & ->).
    split_and!; try done. by exists (e :: mid), rest. }
  destruct e as [op| | | |]; simpl in H; rewrite ?exec_put, ?put_again in H by done; simpl in H; try (by eapply Hgo).
  injection H as <- <- <-. split_and!; [done | done |]. by exists [], net.
Qed.

Lemma kvsrv_before args net : 0 <= pa_Version args < 2 ^ 64 - 1 -> forall retried kv kv' n err,
  Forall env_in_range net -> KvsrvClerk.Put_loop args retried 0 net kv = (kv', n, Some err) ->
  exists before after rest maybe, net = before ++ after ++ rest /\
    (clerk_put maybe args (KvsrvClerk.envs before kv)).2 = err /\
    kv' = KvsrvClerk.envs after (clerk_put maybe args (KvsrvClerk.envs before kv)).1.
Proof.
  intros Hb. induction net as [|e net IH]; intros retried kv kv' n err Hnet H; [done |].
  apply Forall_cons_1 in Hnet as [He Hnet].
  assert (forall retried' kv1, KvsrvClerk.Put_loop args retried' 0 net kv1 = (kv', n, Some err) -> kv1 = KvsrvClerk.envs [e] kv ->
    exists before after rest maybe, e :: net = before ++ after ++ rest /\
    (clerk_put maybe args (KvsrvClerk.envs before kv)).2 = err /\
    kv' = KvsrvClerk.envs after (clerk_put maybe args (KvsrvClerk.envs before kv)).1) as Hgo.
  { intros retried' kv1 H1 ->. destruct (IH _ _ _ _ _ Hnet H1) as (before & after & rest & maybe & -> & Herr & Hkv).
    by exists (e :: before), after, rest, maybe. }
  (* a request is executed and its reply is not seen *)
  assert ((forall kv, KvsrvClerk.envs [e] kv = kv) -> (let '(kv1, n1, _) := exec args kv 0 in KvsrvClerk.Put_loop args true n1 net kv1) = (kv', n, Some err) ->
    exists before after rest maybe, e :: net = before ++ after ++ rest /\
    (clerk_put maybe args (KvsrvClerk.envs before kv)).2 = err /\
    kv' = KvsrvClerk.envs after (clerk_put maybe args (KvsrvClerk.envs before kv)).1) as Hexec.
  { intros Henv H1. rewrite exec_put in H1. case_decide as Hok.
    - destruct (kvsrv_after args net _ _ _ _ _ Hnet (put_done _ _ Hb Hok) H1) as (-> & -> & mid & rest & -> & ->).
      exists [], (e :: mid), (Delivered :: rest), true.
      destruct (clerk_put_cases true args kv) as [(Hv & E1 & E2)|(Hv & _)]; [| by apply put_ok_version in Hok].
      simpl. rewrite E1, E2. split_and!; [done | done |].
      change (KvsrvClerk.envs mid (svc_put args kv).1 = KvsrvClerk.envs mid (KvsrvClerk.envs [e] (svc_put args kv).1)).
      by rewrite Henv.
    - rewrite put_unchanged in H1 by done. by eapply Hgo. }
  destruct e as [op| | | |]; simpl in H.
  - by eapply Hgo.
  - destruct retried; [by apply Hexec | by eapply Hgo].
  - by eapply Hgo.
  - by apply Hexec.
  - rewrite exec_put in H. injection H as <- <- <-.
    exists [], [], (Delivered :: net), (retried && bool_decide (pr_Err (svc_put args kv).2 = ErrVersion)).
    split; [done |]. simpl. pose proof (put_answer args kv) as Ha. unfold clerk_put, KvsrvClerk.putReply.
    destruct (svc_put args kv) as [kv1 r]. simpl in *. rewrite Ha.
    case_decide; [by destruct retried |]. by destruct (kv !! pa_Key args), retried.
Qed.

(** ** The replicated clerk *)
Import KvraftClerk.

Lemma renvs_cons e net kv : renvs (e :: net) kv = renvs net (renvs [e] kv).
Proof. done. Qed.

(** An attempt that does not end the call. *)
Lemma loop_fail {args ck s ok reply net kv' n ck' err} applied kv1 : wf_clerk ck -> ok = false \/ pr_Err reply = ErrWrongLeader ->
  (let* next := putReply ck s ok reply in
   match next with Return r => Ok (kv1, applied, ck, Some r) | Loop ck s => Put_loop args reply s applied net ck kv1 end) =
    Ok (kv', n, ck', Some err) ->
  exists ck1, wf_clerk ck1 /\ Put_loop args reply true applied net ck1 kv1 = Ok (kv', n, ck', Some err).
Proof. intros Hwf Hf H. destruct (putReply_fail ck s ok reply Hwf Hf) as (ck1 & E & Hwf1). rewrite E in H. eauto. Qed.

Lemma kvraft_after args net : forall reply applied ck kv kv' n ck' err,
  wf_clerk ck -> Forall renv_in_range net -> 0 <= pa_Version args < version_of kv (pa_Key args) ->
  Put_loop args reply true applied net ck kv = Ok (kv', n, ck', Some err) ->
  err = ErrMaybe /\ exists mid rest, net = mid ++ Net Delivered :: rest /\ kv' = renvs mid kv.
Proof.
  induction net as [|e net IH]; intros reply applied ck kv kv' n ck' err Hwf Hnet Hv H; [done |].
  apply Forall_cons_1 in Hnet as [He Hnet].
  assert (forall reply1 ck1, wf_clerk ck1 -> Put_loop args reply1 true applied net ck1 (renvs [e] kv) = Ok (kv', n, ck', Some err) ->
    err = ErrMaybe /\ exists mid rest, e :: net = mid ++ Net Delivered :: rest /\ kv' = renvs mid kv) as Hgo.
  { intros reply1 ck1 Hwf1 H1.
    assert (0 <= pa_Version args < version_of (renvs [e] kv) (pa_Key args)) as Hv1
      by (destruct e as [[]|]; simpl; try done; by apply apply_again).
    destruct (IH _ _ _ _ _ _ _ _ Hwf1 Hnet Hv1 H1) as (-> & mid & rest & -> & ->).
    split; [done |]. by exists (e :: mid), rest. }
  destruct (wf_clerk_get ck Hwf) as [srv Hs].
  destruct e as [[op| | | |]|]; simpl in H; rewrite ?Hs in H; rewrite ?exec_put, ?put_again in H by done;
    simpl in H; try (by eapply Hgo).
  - apply loop_fail in H as (ck1 & ? & H); [by eapply Hgo | done | by left].
  - apply loop_fail in H as (ck1 & ? & H); [by eapply Hgo | done | by left].
  - injection H as <- _ _ <-.
    split; [done |]. by exists [], net.
  - apply loop_fail in H as (ck1 & ? & H); [by eapply Hgo | done | right; by rewrite decodePut_new].
Qed.

Lemma kvraft_before args net : 0 <= pa_Version args < 2 ^ 64 - 1 -> forall reply s ck kv kv' n ck' err,
  wf_clerk ck -> Forall renv_in_range net -> Put_loop args reply s 0 net ck kv = Ok (kv', n, ck', Some err) ->
  exists before after rest maybe, net = before ++ after ++ rest /\
    (clerk_put maybe args (renvs before kv)).2 = err /\
    kv' = renvs after (clerk_put maybe args (renvs before kv)).1.
Proof.
  intros Hb. induction net as [|e net IH]; intros reply s ck kv kv' n ck' err Hwf Hnet H; [done |].
  apply Forall_cons_1 in Hnet as [He Hnet].
  assert (forall reply1 s1 ck1, wf_clerk ck1 -> Put_loop args reply1 s1 0 net ck1 (renvs [e] kv) = Ok (kv', n, ck', Some err) ->
    exists before after rest maybe, e :: net = before ++ after ++ rest /\
    (clerk_put maybe args (renvs before kv)).2 = err /\
    kv' = renvs after (clerk_put maybe args (renvs before kv)).1) as Hgo.
  { intros reply1 s1 ck1 Hwf1 H1. destruct (IH _ _ _ _ _ _ _ _ Hwf1 Hnet H1) as (before & after & rest & maybe & -> & Herr & Hkv).
    by exists (e :: before), after, rest, maybe. }
  assert (forall ck1, (forall kv, renvs [e] kv = kv) -> wf_clerk ck1 ->
    (let '(kv1, n1, _) := exec args kv 0 in Put_loop args reply true n1 net ck1 kv1) = Ok (kv', n, ck', Some err) ->
    exists before after rest maybe, e :: net = before ++ after ++ rest /\
    (clerk_put maybe args (renvs before kv)).2 = err /\
    kv' = renvs after (clerk_put maybe args (renvs before kv)).1) as Hexec.
  { intros ck1 Henv Hwf1 H1. rewrite exec_put in H1. case_decide as Hok.
    - destruct (kvraft_after args net _ _ _ _ _ _ _ _ Hwf1 Hnet (put_done _ _ Hb Hok) H1) as (-> & mid & rest & -> & ->).
      exists [], (e :: mid), (Net Delivered :: rest), true.
      destruct (clerk_put_cases true args kv) as [(Hv & E1 & E2)|(Hv & _)]; [| by apply put_ok_version in Hok].
      simpl app. change (renvs [] kv) with kv. rewrite E1, E2. split_and!; [done | done |].
      by rewrite (renvs_cons e mid), Henv.
    - rewrite put_unchanged in H1 by done. eapply (Hgo reply true ck1); [done |]. by rewrite Henv. }
  destruct (wf_clerk_get ck Hwf) as [srv Hs].
  destruct e as [[op| | | |]|]; simpl in H; rewrite ?Hs in H; simpl in H.
  - by eapply Hgo.
  - destruct s; [by apply (Hexec ck) | by eapply Hgo].
  - apply loop_fail in H as (ck1 & ? & H); [by eapply Hgo | done | by left].
  - destruct (exec args kv 0) as [[kv1 n1] r] eqn:E.
    apply loop_fail in H as (ck1 & ? & H); [by apply (Hexec ck1) | done | by left].
  - rewrite exec_put in H. pose proof (put_answer args kv) as Ha. pose proof (put_unchanged args kv) as Hu.
    assert (decodePut reply (svc_put args kv).2 = (svc_put args kv).2) as Hd.
    { apply decodePut_new. rewrite Ha. case_decide; [done | by destruct (kv !! pa_Key args)]. }
    rewrite Hd in H. destruct (pr_Err (svc_put args kv).2 =? "ErrNoKey")%string eqn:En.
    + apply String.eqb_eq in En. rewrite decide_False in H by (rewrite En; done).
      unfold putReply in H. rewrite En in H. simpl in H. rewrite Hu in H by (by rewrite En). by eapply Hgo.
    + apply String.eqb_neq in En. exists [], [], (Net Delivered :: net), (s && bool_decide (pr_Err (svc_put args kv).2 = ErrVersion)).
      split; [done |]. simpl app. change (renvs [] kv) with kv. unfold clerk_put, putReply in *.
      destruct (svc_put args kv) as [kv1 r]. simpl in *. rewrite Ha in *.
      case_decide; [simpl in H; injection H as <- _ _ <-; by destruct s |].
      destruct (kv !! pa_Key args); [| done]. destruct s; simpl in H; by injection H as <- _ _ <-.
  - apply loop_fail in H as (ck1 & ? & H); [by eapply Hgo | done | right; by rewrite decodePut_new].
Qed.
End Calls.

(** ** Properties *)

(** C23: The puts of both clerks take place at one moment.  Over any lossy
    network, among any requests of other clients, late and repeated
    executions included, a call that returns [err] leaves what one
    [clerk_put] between the other clients' requests leaves, and reports
    what that reports. *)
Theorem clerks_put_once (svc : KVService) key value version kv kv' n err :
  0 <= version < 2 ^ 64 - 1 ->
  (forall net, Forall env_in_range net -> KvsrvClerk.Put key value version net kv = (kv', n, Some err) ->
   exists before after rest maybe, net = before ++ after ++ rest /\
     let put := clerk_put maybe (mkPutArgs key value version) (KvsrvClerk.envs before kv) in
     err = put.2 /\ kv' = KvsrvClerk.envs after put.1) /\
  (forall net ck ck', Forall KvraftClerk.renv_in_range net -> KvraftClerk.wf_clerk ck ->
   KvraftClerk.Put key value version net ck kv = Ok (kv', n, ck', Some err) ->
   exists before after rest maybe, net = before ++ after ++ rest /\
     let put := clerk_put maybe (mkPutArgs key value version) (KvraftClerk.renvs before kv) in
     err = put.2 /\ kv' = KvraftClerk.renvs after put.1).
Proof.
  intros Hv. split.
  - intros net Hnet H. apply kvsrv_before in H as (before & after & rest & maybe & -> & <- & ->); try done.
    by exists before, after, rest, maybe.
  - intros net ck ck' Hnet Hck H. apply kvraft_before in H as (before & after & rest & maybe & -> & <- & ->); try done.
    by exists before, after, rest, maybe.
Qed.

Lemma clerks_put_once_witness :
  let net := [LostReply; Env (OPut (mkPutArgs "a" "y" 1)); LostRequest; Late; Delivered] in
  KvsrvClerk.Put "a" "x" 0 net ∅ = ({[ "a" := mkValue "y" 2 ]}, 1%nat, Some ErrMaybe) /\
  exists before after rest maybe, net = before ++ after ++ rest /\
    let put := clerk_put maybe (mkPutArgs "a" "x" 0) (KvsrvClerk.envs before ∅) in
    ErrMaybe = put.2 /\ {[ "a" := mkValue "y" 2 ]} = KvsrvClerk.envs after put.1.
Proof.
  split; [vm_compute; reflexivity |].
  apply (clerks_put_once kvsrv_service "a" "x" 0 ∅ {[ "a" := mkValue "y" 2 ]} 1%nat ErrMaybe);
    [lia | repeat constructor; simpl; lia | vm_compute; reflexivity].
Defined.
