(* ===== verification/Lock.v ===== *)
(** * The lock client ([kvsrv1/lock/lock.go])

    [MakeLock], [Acquire] and [Release] are loops over clerk calls; each
    wait for a call is a control state of a client, and each reply a
    handler.  The clerk's own retry loop ([KvsrvClerk.putReply]) runs
    inside the states that wait for a [Put].  Clients, abandoned requests
    and the server's map form one transition system. *)
From S2P Require Import Prelude Kv KvClerk.
From stdpp Require Import functions.
Import Rpc.
#[local] Open Scope Z_scope.

Definition UNLOCK_NAME : string := "None".

(** [kvtest.RandValue]: [n] letters. *)
Definition letterBytes : string := "abcdefghijklmnopqrstuvwxyzABCDEFGHIJKLMNOPQRSTUVWXYZ".

Definition randLetter (r : Z) : Ascii.ascii :=
  default Ascii.zero (String.get (Z.to_nat (Z.rem r (Z.of_nat (String.length letterBytes)))) letterBytes).

Fixpoint RandValue (n : nat) (rand : nat -> Z) : string :=
  match n with
  | O => EmptyString
  | S n => String (randLetter (rand O)) (RandValue n (fun i => rand (S i)))
  end.

Lemma RandValue_length n rand : String.length (RandValue n rand) = n.
Proof. revert rand. induction n as [|n IH]; intros rand; simpl; [done |]. by rewrite IH. Qed.

Lemma RandValue_not_unlock rand : RandValue 8 rand <> UNLOCK_NAME.
Proof. intros H. pose proof (RandValue_length 8 rand) as Hl. by rewrite H in Hl. Qed.

(** ** A client

  The control states of a client of one lock, named after the call it
  waits for.  [ver] is the version read before a [Put], [retried] the
  clerk's flag. *)
Inductive PC :=
| MakeGet
| MakePut (retried : bool)
| Idle
| AcquireGet
| AcquirePut (id : string) (ver : Z) (retried : bool)
| AcquireVerify (id : string)
| Held (id : string)
| ReleaseGet (id : string)
| ReleasePut (my_id : string) (ver : Z) (retried : bool)
| ReleaseVerify (my_id : string).

(** [MakeLock] after its [Get] and after its [Put], whose result is
    ignored. *)
Definition makeGet (get_error : Err) : PC :=
  if decide (get_error = OK) then Idle
  else if decide (get_error = ErrNoKey) then MakePut false
  else MakeGet.

(** [Acquire] after each call. *)
Definition acquireGet (id value : string) (version : Z) : PC :=
  if decide (value <> UNLOCK_NAME) then AcquireGet else AcquirePut id version false.

Definition acquirePut (id : string) (put_error : Err) : PC :=
  if decide (put_error = OK) then Held id
  else if decide (put_error = ErrNoKey) then AcquireGet
  else if decide (put_error = ErrVersion) then AcquireGet
  else if decide (put_error = ErrMaybe) then AcquireVerify id
  else AcquireGet.

Definition acquireVerify (id value : string) : PC :=
  if decide (value = id) then Held id else AcquireGet.

(** [Release] after each call; [id], the identity under which the caller
    holds the lock, is not known to the code, which trusts the value it
    reads. *)
Definition releaseGet (my_id : string) (version : Z) : PC := ReleasePut my_id version false.

Definition releasePut (my_id : string) (put_error : Err) : PC :=
  if decide (put_error = OK) then Idle
  else if decide (put_error = ErrNoKey) then ReleaseGet my_id
  else if decide (put_error = ErrVersion) then ReleaseGet my_id
  else if decide (put_error = ErrMaybe) then ReleaseVerify my_id
  else ReleaseGet my_id.

Definition releaseVerify (my_id value : string) : PC :=
  if decide (value <> my_id) then Idle else ReleaseGet my_id.

(** The [Put] a state waits for: its request, the clerk's flag, the same
    state after a failed attempt, and the handler of its result. *)
Record PutCall := mkPutCall {
  call_args : PutArgs;
  call_retried : bool;
  call_again : PC;
  call_done : Err -> PC;
}.

Section Lock.
Context `{svc : !KVService} (lock_name : string).

Definition put_call (pc : PC) : option PutCall :=
  match pc with
  | MakePut r =>
      Some (mkPutCall (mkPutArgs lock_name UNLOCK_NAME 0) r (MakePut true) (fun _ => Idle))
  | AcquirePut id ver r =>
      Some (mkPutCall (mkPutArgs lock_name id ver) r (AcquirePut id ver true) (acquirePut id))
  | ReleasePut my_id ver r =>
      Some (mkPutCall (mkPutArgs lock_name UNLOCK_NAME ver) r (ReleasePut my_id ver true) (releasePut my_id))
  | _ => None
  end.

(** ** All clients and the server

  [late] holds the requests that clerks gave up on, [used] the random
  identities drawn so far. *)
Record World := mkWorld {
  w_kv : kv_map;
  w_pc : nat -> PC;
  w_late : gset (string * string * Z);
  w_used : gset string;
}.

Definition set_pc (w : World) (c : nat) (pc : PC) : World :=
  mkWorld (w_kv w) (<[c := pc]> (w_pc w)) (w_late w) (w_used w).

Definition set_kv (w : World) (kv : kv_map) : World := mkWorld kv (w_pc w) (w_late w) (w_used w).

Definition add_late (w : World) (a : PutArgs) : World :=
  mkWorld (w_kv w) (w_pc w) ({[ (pa_Key a, pa_Value a, pa_Version a) ]} ∪ w_late w) (w_used w).

Definition use_id (w : World) (id : string) : World :=
  mkWorld (w_kv w) (w_pc w) (w_late w) ({[ id ]} ∪ w_used w).

Definition read (w : World) : GetReply := svc_get (mkGetArgs lock_name) (w_kv w).

Inductive world_step (w : World) : World -> Prop :=
| step_make_get c : w_pc w c = MakeGet -> world_step w (set_pc w c (makeGet (gr_Err (read w))))
| step_acquire c : w_pc w c = Idle -> world_step w (set_pc w c AcquireGet)
| step_acquire_busy c id :
    w_pc w c = AcquireGet -> gr_Value (read w) <> UNLOCK_NAME ->
    world_step w (set_pc w c (acquireGet id (gr_Value (read w)) (gr_Version (read w))))
| step_acquire_free c rand :
    (* the draw of an identity has 52^8 outcomes and is taken to be new *)
    w_pc w c = AcquireGet -> gr_Value (read w) = UNLOCK_NAME -> RandValue 8 rand ∉ w_used w ->
    world_step w (use_id (set_pc w c (acquireGet (RandValue 8 rand) (gr_Value (read w)) (gr_Version (read w))))
                         (RandValue 8 rand))
| step_acquire_verify c id :
    w_pc w c = AcquireVerify id -> world_step w (set_pc w c (acquireVerify id (gr_Value (read w))))
| step_release c id : w_pc w c = Held id -> world_step w (set_pc w c (ReleaseGet id))
| step_release_get c id :
    w_pc w c = ReleaseGet id ->
    world_step w (set_pc w c (releaseGet (gr_Value (read w)) (gr_Version (read w))))
| step_release_verify c my_id :
    w_pc w c = ReleaseVerify my_id -> world_step w (set_pc w c (releaseVerify my_id (gr_Value (read w))))
| step_put_lost c call :
    (* the request is lost, or delayed *)
    put_call (w_pc w c) = Some call ->
    world_step w (add_late (set_pc w c (call_again call)) (call_args call))
| step_put_reply_lost c call :
    put_call (w_pc w c) = Some call ->
    world_step w (set_kv (set_pc w c (call_again call)) (svc_put (call_args call) (w_kv w)).1)
| step_put_done c call :
    put_call (w_pc w c) = Some call ->
    world_step w (set_kv (set_pc w c (call_done call
      (KvsrvClerk.putReply (call_retried call) (svc_put (call_args call) (w_kv w)).2)))
      (svc_put (call_args call) (w_kv w)).1)
| step_late k v ver :
    (k, v, ver) ∈ w_late w ->
    world_step w (set_kv w (svc_put (mkPutArgs k v ver) (w_kv w)).1)
| step_other a :
    (* any use of other keys of the same server *)
    pa_Key a <> lock_name -> world_step w (set_kv w (svc_put a (w_kv w)).1).

(** Executions in which the lock's version stays clear of the top of its
    64 bits. *)
Definition bounded_step (w w' : World) : Prop :=
  world_step w w' /\ version_of (w_kv w') lock_name < 2 ^ 64 - 2.

Definition world_init (w : World) : Prop :=
  w_kv w !! lock_name = None /\
  (forall c, w_pc w c = MakeGet) /\ w_late w = ∅ /\ w_used w = ∅.

(** ** The invariant *)
Definition pc_id (pc : PC) : option string :=
  match pc with
  | AcquirePut id _ _ | AcquireVerify id | Held id | ReleaseGet id | ReleasePut id _ _ | ReleaseVerify id => Some id
  | _ => None
  end.

Definition has_value (r : option ValueType) (id : string) : Prop := exists v, r = Some v /\ value_ v = id.

(** What each control state knows about the lock's register. *)
Definition pc_ok (r : option ValueType) (pc : PC) : Prop :=
  match pc with
  | AcquirePut id ver retried => 0 <= ver /\ (
      r = Some (mkValue UNLOCK_NAME ver) \/
      (ver < Spec.version r /\ ~ has_value r id) \/
      (retried = true /\ r = Some (mkValue id (ver + 1))))
  | Held id | ReleaseGet id => has_value r id
  | ReleasePut id ver retried => 0 <= ver /\ (
      r = Some (mkValue id ver) \/
      (retried = true /\ ver < Spec.version r /\ ~ has_value r id))
  | ReleaseVerify id => ~ has_value r id
  | _ => True
  end.

(** A late request is out of date, or its client still waits for it. *)
Definition late_ok (r : option ValueType) (pcs : nat -> PC) (late : gset (string * string * Z)) : Prop :=
  forall k v ver, (k, v, ver) ∈ late ->
    k = lock_name /\ ver <= Spec.version r /\
    (ver = Spec.version r -> exists c call, put_call (pcs c) = Some call /\
       call_args call = mkPutArgs k v ver /\ call_retried call = true).

Definition reg_ok (r : option ValueType) : Prop :=
  (forall v, r = Some v -> 1 <= version_ v) /\ Spec.version r < 2 ^ 64 - 2.

Record inv (w : World) : Prop := mkInv {
  inv_reg : reg_ok (w_kv w !! lock_name);
  inv_late : late_ok (w_kv w !! lock_name) (w_pc w) (w_late w);
  inv_pc : forall c, pc_ok (w_kv w !! lock_name) (w_pc w c);
  inv_used : forall c id, pc_id (w_pc w c) = Some id -> id ∈ w_used w /\ id <> UNLOCK_NAME /\ id <> "";
  inv_uniq : forall c c' id, pc_id (w_pc w c) = Some id -> pc_id (w_pc w c') = Some id -> c = c';
}.

(** A step of client [c] that leaves the register alone. *)
Lemma inv_move w w' c pc' :
  inv w -> w_kv w' !! lock_name = w_kv w !! lock_name -> w_used w ⊆ w_used w' ->
  w_pc w' = <[c := pc']> (w_pc w) -> pc_ok (w_kv w !! lock_name) pc' ->
  (forall id, pc_id pc' = Some id ->
     pc_id (w_pc w c) = Some id \/ (id ∉ w_used w /\ id ∈ w_used w' /\ id <> UNLOCK_NAME /\ id <> "")) ->
  late_ok (w_kv w !! lock_name) (w_pc w') (w_late w') ->
  inv w'.
Proof.
  intros [Hreg Hlate Hpc Hused Huniq] Hkv Hsub Hpc' Hok Hid Hlate'.
  assert (forall c0 id, pc_id (w_pc w' c0) = Some id ->
    c0 <> c /\ pc_id (w_pc w c0) = Some id \/
    c0 = c /\ (pc_id (w_pc w c) = Some id \/ (id ∉ w_used w /\ id ∈ w_used w' /\ id <> UNLOCK_NAME /\ id <> ""))) as Hcase.
  { intros c0 id. rewrite Hpc'. destruct (decide (c0 = c)) as [->|Hne].
    - rewrite fn_lookup_insert. intros H. right. eauto.
    - rewrite fn_lookup_insert_ne by done. by left. }
  split; rewrite ?Hkv; try done.
  - intros c0. rewrite Hpc'. destruct (decide (c0 = c)) as [->|Hne];
      [by rewrite fn_lookup_insert | by rewrite fn_lookup_insert_ne].
  - intros c0 id H. destruct (Hcase c0 id H) as [[_ K]|[_ [K|(? & ? & ? & ?)]]]; [| | done];
      destruct (Hused _ _ K); split; auto.
  - intros c1 c2 id H1 H2.
    destruct (Hcase c1 id H1) as [[N1 K1]|[-> [K1|(K1 & _)]]], (Hcase c2 id H2) as [[N2 K2]|[-> [K2|(K2 & _)]]];
      try done; try (by apply (Huniq _ _ id)).
    + exfalso. apply K2. by apply (Hused c1).
    + exfalso. apply K1. by apply (Hused c2).
Qed.

Lemma late_ok_move r pcs c pc' late late' :
  late_ok r pcs late ->
  (forall call, put_call (pcs c) = Some call ->
     pa_Version (call_args call) < Spec.version r \/
     exists call', put_call pc' = Some call' /\ call_args call' = call_args call /\ call_retried call' = true) ->
  (forall k v ver, (k, v, ver) ∈ late' -> (k, v, ver) ∈ late \/
     exists call', put_call pc' = Some call' /\ call_args call' = mkPutArgs k v ver /\
       call_retried call' = true /\ k = lock_name /\ ver <= Spec.version r) ->
  late_ok r (<[c := pc']> pcs) late'.
Proof.
  intros Hl Hc Hnew k v ver Hin.
  destruct (Hnew k v ver Hin) as [Hold|(call' & H1 & H2 & H3 & H4 & H5)].
  - destruct (Hl k v ver Hold) as (? & ? & Hex). split_and!; [done.. |]. intros Hv.
    destruct (Hex Hv) as (c0 & call & Hcall & Hargs & Hr).
    destruct (decide (c0 = c)) as [->|Hne].
    + destruct (Hc call Hcall) as [Hlt|(call' & ? & He & ?)].
      * rewrite Hargs in Hlt. simpl in Hlt. lia.
      * exists c, call'. rewrite fn_lookup_insert. split_and!; congruence.
    + exists c0, call. by rewrite fn_lookup_insert_ne.
  - split_and!; [done.. |]. intros _. exists c, call'. by rewrite fn_lookup_insert.
Qed.

Lemma reg_ok_nonneg r : reg_ok r -> 0 <= Spec.version r.
Proof. intros [H _]. destruct r as [v|]; simpl; [specialize (H v eq_refl)|]; lia. Qed.

Lemma has_value_Some v id : has_value (Some v) id <-> value_ v = id.
Proof. split; [intros (v' & [= <-] & H); done | intros H; by exists v]. Qed.

(** The register after a put that names its version. *)
Lemma put_live a kv :
  pa_Version a = version_of kv (pa_Key a) -> 0 <= pa_Version a < 2 ^ 64 - 2 ->
  (svc_put a kv).1 !! pa_Key a = Some (mkValue (pa_Value a) (pa_Version a + 1)) /\
  (svc_put a kv).2 = mkPutReply OK.
Proof.
  intros Hv Hb. pose proof (svc_put_reg a kv) as Hr. pose proof (svc_put_err a kv) as He.
  unfold Spec.put in *. unfold version_of in Hv. rewrite decide_True in Hr, He by done.
  rewrite u64_small in Hr by lia. split; [done |].
  destruct (svc_put a kv) as [? [e]]. simpl in *. congruence.
Qed.

Lemma put_dead a kv :
  pa_Version a < version_of kv (pa_Key a) ->
  (svc_put a kv).1 !! pa_Key a = kv !! pa_Key a /\
  (0 <= pa_Version a -> (svc_put a kv).2 = mkPutReply ErrVersion).
Proof.
  intros Hv. pose proof (svc_put_reg a kv) as Hr. pose proof (svc_put_err a kv) as He.
  unfold Spec.put in *. unfold version_of in Hv. rewrite decide_False in Hr, He by lia.
  split; [done |]. intros H0. destruct (svc_put a kv) as [? [e]]. simpl in *.
  destruct (kv !! pa_Key a); simpl in *; [congruence | lia].
Qed.

(** What a client that waits for a [Put] knows about its request. *)
Lemma call_facts r pc call :
  put_call pc = Some call -> pc_ok r pc -> reg_ok r ->
  (forall id, pc_id pc = Some id -> id <> UNLOCK_NAME) ->
  pa_Key (call_args call) = lock_name /\ 0 <= pa_Version (call_args call) <= Spec.version r /\
  put_call (call_again call) = Some (mkPutCall (call_args call) true (call_again call) (call_done call)) /\
  pc_id (call_again call) = pc_id pc.
Proof.
  intros Hc Hok Hreg Hid. pose proof (reg_ok_nonneg _ Hreg).
  destruct pc; simplify_eq/=; split_and!; try done; try lia.
  all: try destruct Hok as (? & [->|[?|(_ & ->)]]); try destruct Hok as (? & [->|?]); simpl in *; lia.
Qed.

Lemma call_live r pc call :
  put_call pc = Some call -> pc_ok r pc -> reg_ok r ->
  (forall id, pc_id pc = Some id -> id <> UNLOCK_NAME) ->
  pa_Version (call_args call) = Spec.version r ->
  let r' := Some (mkValue (pa_Value (call_args call)) (pa_Version (call_args call) + 1)) in
  (forall id, pc_id pc <> Some id -> id <> UNLOCK_NAME ->
     id <> pa_Value (call_args call) /\ ~ has_value r id) /\
  pc_ok r' (call_again call) /\ pc_ok r' (call_done call OK) /\
  (forall id, pc_id (call_done call OK) = Some id -> pc_id pc = Some id).
Proof.
  intros Hc Hok Hreg Hid Hv. pose proof (reg_ok_nonneg _ Hreg) as H0.
  destruct pc as [|retried| | |id ver retried| | | |id ver retried|]; simpl in Hc; try discriminate;
    injection Hc as <-; simpl in *.
  - assert (r = None) as ->.
    { destruct r as [v|]; [| done]. destruct Hreg as [H1 _]. specialize (H1 v eq_refl). simpl in Hv. lia. }
    split_and!; try done. intros id _ Hn. split; [done | by intros (? & ? & _)].
  - destruct Hok as (Hver & [->|[?|(_ & ->)]]); simpl in *; try lia.
    split_and!; try done; try lia.
    + intros id' Hne Hn. rewrite has_value_Some. simpl. split; congruence.
    + auto.
    + by rewrite has_value_Some.
  - destruct Hok as (Hver & [->|?]); simpl in *; try lia.
    split_and!; try done; try lia.
    + intros id' Hne Hn. rewrite has_value_Some. simpl. split; congruence.
    + right. split_and!; [done | lia |]. rewrite has_value_Some. simpl. intros <-. by apply (Hid UNLOCK_NAME).
Qed.

Lemma pc_ok_other r v' pc :
  pc_ok r pc -> (forall id, pc_id pc = Some id -> id <> value_ v' /\ ~ has_value r id) ->
  Spec.version r < version_ v' -> pc_ok (Some v') pc.
Proof.
  intros Hok Hid Hv. destruct pc; simpl in *; try done;
    destruct (Hid _ eq_refl) as [Hne Hnv]; try (by destruct (Hnv Hok)).
  - destruct Hok as (H0 & [->|[(Hlt & Hg)|(_ & ->)]]); split; try done.
    + right; left. simpl in Hv. rewrite has_value_Some. split; [lia | congruence].
    + right; left. rewrite has_value_Some. split; [lia | congruence].
    + destruct Hnv. by rewrite has_value_Some.
  - destruct Hok as (H0 & [->|(-> & Hlt & Hg)]); split; try done.
    + destruct Hnv. by rewrite has_value_Some.
    + right. rewrite has_value_Some. split_and!; [done | lia | congruence].
  - rewrite has_value_Some. congruence.
Qed.

(** A put that takes effect, sent by client [c], whose state becomes
    [pc'] or stays what a failed attempt left. *)
Lemma inv_live w w' c call pc' :
  inv w -> put_call (w_pc w c) = Some call ->
  pa_Version (call_args call) = version_of (w_kv w) lock_name ->
  pc' = call_again call \/ pc' = call_done call OK ->
  pa_Version (call_args call) + 1 < 2 ^ 64 - 2 ->
  w_kv w' = (svc_put (call_args call) (w_kv w)).1 -> w_late w' = w_late w -> w_used w' = w_used w ->
  (forall c0, w_pc w' c0 = pc' /\ c0 = c \/ w_pc w' c0 = w_pc w c0 /\ c0 <> c) ->
  inv w'.
Proof.
  intros Hinv Hc Hv Hpc' Hb Hkv Hl Hu Hcase. pose proof Hinv as [Hreg Hlate Hpc Hused Huniq].
  destruct (call_facts _ _ _ Hc (Hpc c) Hreg) as (Hkey & Hver & _ & Hagain); [intros; by eapply Hused |].
  destruct (call_live _ _ _ Hc (Hpc c) Hreg) as (Hothers & Hok1 & Hok2 & Hid); [intros; by eapply Hused | done |].
  destruct (put_live (call_args call) (w_kv w)) as [Hr' _]; [by rewrite Hkey | lia |]. rewrite Hkey in Hr'.
  assert (forall id, pc_id pc' = Some id -> pc_id (w_pc w c) = Some id) as Hid'.
  { destruct Hpc' as [->| ->]; [by rewrite Hagain | done]. }
  assert (forall c0 id, pc_id (w_pc w' c0) = Some id -> pc_id (w_pc w c0) = Some id) as Hsame.
  { intros c0 id. destruct (Hcase c0) as [[-> ->]|[-> _]]; auto. }
  unfold version_of in Hv. split; rewrite ?Hkv, ?Hr', ?Hl, ?Hu.
  - split; simpl; [intros ? [= <-]; simpl; lia | lia].
  - intros k v ver Hin. destruct (Hlate k v ver Hin) as (? & ? & _). simpl. split_and!; [done | lia | lia].
  - intros c0. destruct (Hcase c0) as [[-> _]|[-> Hne]]; [by destruct Hpc' as [->| ->] |].
    apply (pc_ok_other (w_kv w !! lock_name)); [done | | simpl; lia].
    intros id Hidc. simpl. apply Hothers; [| by apply (Hused c0)].
    intros Hidc'. apply Hne. by apply (Huniq _ _ id).
  - intros c0 id Hc0. by apply (Hused c0), Hsame.
  - intros c1 c2 id H1 H2. apply (Huniq _ _ id); by apply Hsame.
Qed.

Lemma insert_case (pcs : nat -> PC) c pc' c0 :
  <[c := pc']> pcs c0 = pc' /\ c0 = c \/ <[c := pc']> pcs c0 = pcs c0 /\ c0 <> c.
Proof.
  destruct (decide (c0 = c)) as [->|]; [left | right]; by rewrite ?fn_lookup_insert, ?fn_lookup_insert_ne.
Qed.

Lemma call_again_retried pc call :
  put_call pc = Some call -> call_retried call = true -> call_again call = pc.
Proof. intros Hc Hr. destruct pc; by simplify_eq/=. Qed.

(** The clerk's answer to an outdated put. *)
Lemma call_dead r pc call :
  put_call pc = Some call -> pc_ok r pc ->
  pa_Version (call_args call) < Spec.version r ->
  let pc' := call_done call (KvsrvClerk.putReply (call_retried call) (mkPutReply ErrVersion)) in
  pc_ok r pc' /\ (forall id, pc_id pc' = Some id -> pc_id pc = Some id).
Proof.
  intros Hc Hok Hv. destruct pc as [|retried| | |id ver retried| | | |id ver retried|]; simpl in Hc; try discriminate;
    injection Hc as <-; simpl in *; try done.
  - by destruct retried.
  - destruct Hok as (H0 & [->|(-> & Hlt & Hg)]); [simpl in Hv; lia |]. by split.
Qed.

Lemma call_again_ok r pc call : put_call pc = Some call -> pc_ok r pc -> pc_ok r (call_again call).
Proof.
  intros Hc Hok. destruct pc; simplify_eq/=; try done.
  - destruct Hok as (? & [?|[?|(_ & ?)]]); split; auto.
  - destruct Hok as (? & [?|(_ & ?)]); split; auto.
Qed.

Lemma read_spec w : read w = Spec.get (w_kv w !! lock_name).
Proof. unfold read. by rewrite svc_get_spec. Qed.

Lemma read_value w id : id <> "" -> gr_Value (read w) = id <-> has_value (w_kv w !! lock_name) id.
Proof.
  intros Hid. rewrite read_spec. unfold Spec.get, has_value. destruct (w_kv w !! lock_name) as [v|]; simpl.
  - split; [intros <-; by exists v | by intros (? & [= <-] & ?)].
  - split; [intros <-; done | by intros (? & ? & _)].
Qed.

Lemma read_reg w id : id <> "" -> gr_Value (read w) = id ->
  w_kv w !! lock_name = Some (mkValue id (gr_Version (read w))).
Proof.
  intros Hid. rewrite read_spec. unfold Spec.get.
  destruct (w_kv w !! lock_name) as [[v ver]|]; simpl; [by intros -> | done].
Qed.

(** A step after a [Get], or between calls. *)
Lemma lock_inv_local w c pc' X :
  inv w -> put_call (w_pc w c) = None -> pc_ok (w_kv w !! lock_name) pc' ->
  (forall id, pc_id pc' = Some id -> pc_id (w_pc w c) = Some id \/
     (id ∉ w_used w /\ id ∈ X /\ id <> UNLOCK_NAME /\ id <> "")) ->
  inv (mkWorld (w_kv w) (<[c := pc']> (w_pc w)) (w_late w) (X ∪ w_used w)).
Proof.
  intros Hinv Hn Hok Hid. eapply (inv_move w _ c); [done | done | simpl; set_solver | done | done | |].
  - intros id H. simpl. destruct (Hid id H) as [?|(? & ? & ?)]; [by left | right]. split_and!; set_solver.
  - eapply late_ok_move; [apply Hinv | by rewrite Hn | by left].
Qed.

Lemma inv_local_same w c pc' :
  inv w -> put_call (w_pc w c) = None -> pc_ok (w_kv w !! lock_name) pc' ->
  (forall id, pc_id pc' = Some id -> pc_id (w_pc w c) = Some id) -> inv (set_pc w c pc').
Proof.
  intros Hinv Hn Hok Hid. unfold set_pc.
  replace (w_used w) with (∅ ∪ w_used w) by set_solver. apply lock_inv_local; auto.
Qed.

(** A failed attempt, and an attempt of an outdated put. *)
Lemma inv_again w w' c call :
  inv w -> put_call (w_pc w c) = Some call ->
  w_kv w' !! lock_name = w_kv w !! lock_name -> w_pc w' = <[c := call_again call]> (w_pc w) ->
  w_used w' = w_used w ->
  w_late w' ⊆ {[ (pa_Key (call_args call), pa_Value (call_args call), pa_Version (call_args call)) ]} ∪ w_late w ->
  inv w'.
Proof.
  intros Hinv Hc Hkv Hpc Hu Hl. pose proof Hinv as [Hreg Hlate Hpcs Hused _].
  destruct (call_facts _ _ _ Hc (Hpcs c) Hreg) as (Hkey & Hver & Hput & Hagain); [intros; by eapply Hused |].
  eapply (inv_move w _ c); [done | done | by rewrite Hu | done | | |].
  - eapply call_again_ok; [done | apply Hpcs].
  - intros id. rewrite Hagain. by left.
  - rewrite Hpc. eapply late_ok_move; [done | |].
    + intros call' Hc'. rewrite Hc in Hc'. injection Hc' as <-. right. by eexists.
    + intros k v ver Hin. apply Hl in Hin. apply elem_of_union in Hin as [Hin|Hin]; [right | by left].
      apply elem_of_singleton in Hin. injection Hin as -> -> ->. eexists. split_and!; [done | | done.. | lia].
      simpl. by destruct (call_args call).
Qed.

Lemma inv_done_dead w c call :
  inv w -> put_call (w_pc w c) = Some call ->
  pa_Version (call_args call) < version_of (w_kv w) lock_name ->
  inv (set_kv (set_pc w c (call_done call
      (KvsrvClerk.putReply (call_retried call) (svc_put (call_args call) (w_kv w)).2)))
      (svc_put (call_args call) (w_kv w)).1).
Proof.
  intros Hinv Hc Hv. pose proof Hinv as [Hreg Hlate Hpcs Hused _].
  destruct (call_facts _ _ _ Hc (Hpcs c) Hreg) as (Hkey & Hver & _ & _); [intros; by eapply Hused |].
  destruct (put_dead (call_args call) (w_kv w)) as [Hr He]; [by rewrite Hkey |].
  rewrite He by lia. rewrite Hkey in Hr.
  destruct (call_dead _ _ _ Hc (Hpcs c) Hv) as [Hok Hid].
  eapply (inv_move w _ c); [done | done | done | done | done | by left; apply Hid |].
  eapply late_ok_move; [done | | by left].
  intros call' Hc'. rewrite Hc in Hc'. injection Hc' as <-. by left.
Qed.

(** Requests for other keys, and late ones that are out of date. *)
Lemma inv_frame w kv : inv w -> kv !! lock_name = w_kv w !! lock_name -> inv (set_kv w kv).
Proof. intros [Hreg Hlate Hpc Hused Huniq] Hkv. split; simpl; rewrite ?Hkv; done. Qed.

Lemma local_step_inv w w' c :
  inv w -> put_call (w_pc w c) = None ->
  w' = set_pc w c (makeGet (gr_Err (read w))) \/ w' = set_pc w c AcquireGet \/
  (exists id, w' = set_pc w c (acquireGet id (gr_Value (read w)) (gr_Version (read w))) /\
     gr_Value (read w) <> UNLOCK_NAME) \/
  (exists rand, w' = use_id (set_pc w c (acquireGet (RandValue 8 rand) (gr_Value (read w)) (gr_Version (read w))))
                            (RandValue 8 rand) /\
     gr_Value (read w) = UNLOCK_NAME /\ RandValue 8 rand ∉ w_used w) ->
  inv w'.
Proof.
  intros Hinv Hn [->|[->|[(id & -> & Hv)|(rand & -> & Hv & Hf)]]].
  - apply inv_local_same; [done | done | |]; unfold makeGet; by repeat case_decide.
  - by apply inv_local_same.
  - unfold acquireGet. rewrite decide_True by done. by apply inv_local_same.
  - unfold acquireGet. rewrite decide_False by auto.
    pose proof (read_reg w UNLOCK_NAME ltac:(done) Hv) as Hr.
    pose proof (inv_reg w Hinv) as [H1 _]. specialize (H1 _ Hr). simpl in H1.
    apply (lock_inv_local w c (AcquirePut (RandValue 8 rand) (gr_Version (read w)) false) {[ RandValue 8 rand ]});
      [done | by rewrite Hn | |].
    + simpl. split; [lia | by left].
    + intros id [= <-]. right. split_and!; [done | set_solver | apply RandValue_not_unlock | done].
Qed.

Lemma holder_step_inv w w' c id :
  inv w -> pc_id (w_pc w c) = Some id ->
  (w_pc w c = AcquireVerify id /\ w' = set_pc w c (acquireVerify id (gr_Value (read w)))) \/
  (w_pc w c = Held id /\ w' = set_pc w c (ReleaseGet id)) \/
  (w_pc w c = ReleaseGet id /\ w' = set_pc w c (releaseGet (gr_Value (read w)) (gr_Version (read w)))) \/
  (w_pc w c = ReleaseVerify id /\ w' = set_pc w c (releaseVerify id (gr_Value (read w)))) ->
  inv w'.
Proof.
  intros Hinv Hid Hcase. destruct (inv_used w Hinv c id Hid) as (_ & Hn1 & Hn2).
  pose proof (inv_pc w Hinv c) as Hpc. pose proof (read_value w id Hn2) as Hrv.
  destruct Hcase as [[Hc ->]|[[Hc ->]|[[Hc ->]|[Hc ->]]]]; rewrite Hc in Hpc; simpl in Hpc;
    (apply inv_local_same; [done | by rewrite Hc | |]); rewrite ?Hc.
  - unfold acquireVerify. case_decide as Hv; [by apply Hrv | done].
  - unfold acquireVerify. by case_decide.
  - done.
  - done.
  - apply Hrv in Hpc. rewrite Hpc. pose proof (read_reg w id Hn2 Hpc) as Hr.
    pose proof (inv_reg w Hinv) as [H1 _]. specialize (H1 _ Hr). simpl in *. split; [lia | by left].
  - apply Hrv in Hpc. by rewrite Hpc.
  - unfold releaseVerify. case_decide as Hv; [done |]. apply Hrv in Hv. by destruct Hpc.
  - unfold releaseVerify. by case_decide.
Qed.

Lemma call_step_inv w w' c call :
  inv w -> put_call (w_pc w c) = Some call -> version_of (w_kv w') lock_name < 2 ^ 64 - 2 ->
  w' = add_late (set_pc w c (call_again call)) (call_args call) \/
  w' = set_kv (set_pc w c (call_again call)) (svc_put (call_args call) (w_kv w)).1 \/
  w' = set_kv (set_pc w c (call_done call
      (KvsrvClerk.putReply (call_retried call) (svc_put (call_args call) (w_kv w)).2)))
      (svc_put (call_args call) (w_kv w)).1 ->
  inv w'.
Proof.
  intros Hinv Hc Hb Hcase. pose proof Hinv as [Hreg Hlate Hpcs Hused _].
  destruct (call_facts _ _ _ Hc (Hpcs c) Hreg) as (Hkey & Hver & _ & _); [intros; by eapply Hused |].
  destruct Hcase as [->|Hcase]; [by eapply inv_again |].
  destruct (decide (pa_Version (call_args call) = version_of (w_kv w) lock_name)) as [Hv|Hv].
  - destruct Hreg as [_ Hrb].
    destruct (put_live (call_args call) (w_kv w)) as [Hr He]; [by rewrite Hkey | lia |].
    rewrite Hkey in Hr. unfold version_of in Hv.
    destruct Hcase as [->| ->]; simpl in Hb; unfold version_of in Hb; rewrite Hr in Hb; simpl in Hb;
      (eapply (inv_live w _ c call); [done | done | done | | lia | done | done | done | intros c0; apply insert_case]);
      [by left | right]. by rewrite He.
  - assert (pa_Version (call_args call) < version_of (w_kv w) lock_name) as Hlt by (unfold version_of in *; lia).
    destruct (put_dead (call_args call) (w_kv w)) as [Hr _]; [by rewrite Hkey |]. rewrite Hkey in Hr.
    destruct Hcase as [->| ->]; [| by apply inv_done_dead].
    eapply inv_again; [done | done | done | done | done | simpl; set_solver].
Qed.

Lemma late_step_inv w k v ver :
  inv w -> (k, v, ver) ∈ w_late w ->
  version_of (svc_put (mkPutArgs k v ver) (w_kv w)).1 lock_name < 2 ^ 64 - 2 ->
  inv (set_kv w (svc_put (mkPutArgs k v ver) (w_kv w)).1).
Proof.
  intros Hinv Hin Hb. destruct (inv_late w Hinv k v ver Hin) as (-> & Hle & Hex).
  destruct (decide (ver = Spec.version (w_kv w !! lock_name))) as [Hv|Hv].
  - destruct (Hex Hv) as (c & call & Hc & Hargs & Hr). rewrite <- Hargs in *.
    pose proof (reg_ok_nonneg _ (inv_reg w Hinv)) as H0. destruct (inv_reg w Hinv) as [_ Hrb].
    assert (pa_Version (call_args call) = ver /\ pa_Key (call_args call) = lock_name) as [Hver Hkey] by (by rewrite Hargs).
    destruct (put_live (call_args call) (w_kv w)) as [Hreg _]; [rewrite Hkey, Hver; done | lia |].
    unfold version_of in Hb. rewrite Hkey in Hreg. rewrite Hreg in Hb. simpl in Hb.
    apply (inv_live w _ c call (call_again call)); try done; [by rewrite Hver | by left | ].
    intros c0. destruct (decide (c0 = c)) as [->|]; [left | right; done].
    by rewrite (call_again_retried (w_pc w c) call).
  - apply inv_frame; [done |].
    apply (put_dead (mkPutArgs lock_name v ver)). simpl. unfold version_of. lia.
Qed.

Lemma step_inv w w' : inv w -> bounded_step w w' -> inv w'.
Proof.
  intros Hinv [Hstep Hb].
  destruct Hstep as [c Hc|c Hc|c id Hc Hv|c rand Hc Hv Hf|c id Hc|c id Hc|c id Hc|c id Hc|c call Hc|c call Hc|c call Hc|k v ver Hin|a Ha].
  - apply (local_step_inv w _ c); [done | by rewrite Hc | by left].
  - apply (local_step_inv w _ c); [done | by rewrite Hc | by right; left].
  - apply (local_step_inv w _ c); [done | by rewrite Hc | right; right; left; by exists id].
  - apply (local_step_inv w _ c); [done | by rewrite Hc | right; right; right; by exists rand].
  - apply (holder_step_inv w _ c id); [done | by rewrite Hc | by left].
  - apply (holder_step_inv w _ c id); [done | by rewrite Hc | by right; left].
  - apply (holder_step_inv w _ c id); [done | by rewrite Hc | by right; right; left].
  - apply (holder_step_inv w _ c id); [done | by rewrite Hc | by right; right; right].
  - apply (call_step_inv w _ c call); [done.. | by left].
  - apply (call_step_inv w _ c call); [done.. | by right; left].
  - apply (call_step_inv w _ c call); [done.. | by right; right].
  - by apply late_step_inv.
  - apply inv_frame; [done |]. by apply svc_put_frame.
Qed.

Lemma init_inv w : world_init w -> inv w.
Proof.
  intros (Hkv & Hpc & Hl & Hu). split; rewrite ?Hkv, ?Hl.
  - split; simpl; [done | lia].
  - intros k v ver Hin. set_solver.
  - intros c. by rewrite Hpc.
  - intros c id. by rewrite Hpc.
  - intros c c' id. by rewrite Hpc.
Qed.

Lemma reachable_inv w : reachable world_init bounded_step w -> inv w.
Proof. apply invariant_reachable; [apply init_inv | apply step_inv]. Qed.
End Lock.

(** ** Progress *)
Section Progress.
Context `{svc : !KVService} (lock_name : string).

Lemma read_free w ver :
  w_kv w !! lock_name = Some (mkValue UNLOCK_NAME ver) ->
  gr_Value (read lock_name w) = UNLOCK_NAME /\ gr_Version (read lock_name w) = ver.
Proof. intros H. by rewrite (read_spec lock_name w), H. Qed.

(** One put of [c] that arrives and is answered at once. *)
Lemma put_step w c call :
  put_call lock_name (w_pc w c) = Some call -> call_retried call = false ->
  pa_Key (call_args call) = lock_name ->
  pa_Version (call_args call) = version_of (w_kv w) lock_name ->
  0 <= version_of (w_kv w) lock_name < 2 ^ 64 - 3 ->
  exists w', bounded_step lock_name w w' /\ w_pc w' c = call_done call OK /\
    w_kv w' !! lock_name = Some (mkValue (pa_Value (call_args call)) (version_of (w_kv w) lock_name + 1)) /\
    w_used w' = w_used w.
Proof.
  intros Hc Hr Hk Hv Hb.
  destruct (put_live (call_args call) (w_kv w)) as [Hreg He]; [by rewrite Hk | lia |]. rewrite Hk in Hreg.
  eexists. split_and!; [split; [by apply (step_put_done lock_name w c call) |] | ..]; simpl.
  - unfold version_of. rewrite Hreg. simpl. lia.
  - by rewrite fn_lookup_insert, He.
  - by rewrite Hreg, Hv.
  - done.
Qed.

Lemma acquire_free w c ver rand :
  w_kv w !! lock_name = Some (mkValue UNLOCK_NAME ver) -> 0 <= ver < 2 ^ 64 - 3 ->
  w_pc w c = AcquireGet -> RandValue 8 rand ∉ w_used w ->
  exists w', rtc (bounded_step lock_name) w w' /\ w_pc w' c = Held (RandValue 8 rand).
Proof.
  intros Hr Hb Hc Hf. destruct (read_free w ver Hr) as [Hv1 Hv2].
  pose (w1 := use_id (set_pc w c (acquireGet (RandValue 8 rand) UNLOCK_NAME ver)) (RandValue 8 rand)).
  assert (bounded_step lock_name w w1) as H1.
  { split; [| simpl; unfold version_of; rewrite Hr; simpl; lia].
    unfold w1. rewrite <- Hv1 at 1. rewrite <- Hv2. by apply step_acquire_free. }
  assert (w_pc w1 c = AcquirePut (RandValue 8 rand) ver false) as Hc1 by (simpl; by rewrite fn_lookup_insert).
  destruct (put_step w1 c (mkPutCall (mkPutArgs lock_name (RandValue 8 rand) ver) false
    (AcquirePut (RandValue 8 rand) ver true) (acquirePut (RandValue 8 rand)))) as (w2 & H2 & Hc2 & _ & _);
    simpl; try done; try (unfold version_of; simpl; rewrite Hr; simpl; (done || lia)).
  - rewrite fn_lookup_insert. done.
  - exists w2. split; [| done]. by eapply rtc_l, rtc_once.
Qed.

Lemma release_held w c id ver :
  id <> "" -> w_kv w !! lock_name = Some (mkValue id ver) -> 0 <= ver < 2 ^ 64 - 3 -> w_pc w c = Held id ->
  exists w', rtc (bounded_step lock_name) w w' /\ w_pc w' c = Idle /\
    w_kv w' !! lock_name = Some (mkValue UNLOCK_NAME (ver + 1)).
Proof.
  intros Hid Hr Hb Hc.
  assert (gr_Value (read lock_name w) = id /\ gr_Version (read lock_name w) = ver) as [Hv1 Hv2]
    by (by rewrite (read_spec lock_name w), Hr).
  pose (w1 := set_pc w c (ReleaseGet id)). pose (w2 := set_pc w1 c (releaseGet id ver)).
  assert (version_of (w_kv w) lock_name = ver) as Hver by (unfold version_of; by rewrite Hr).
  assert (bounded_step lock_name w w1) as H1.
  { split; [by apply step_release | simpl; lia]. }
  assert (bounded_step lock_name w1 w2) as H2.
  { split; [| simpl; lia]. unfold w2. rewrite <- Hv1, <- Hv2.
    apply (step_release_get lock_name w1 c id). simpl. by rewrite fn_lookup_insert. }
  destruct (put_step w2 c (mkPutCall (mkPutArgs lock_name UNLOCK_NAME ver) false
    (ReleasePut id ver true) (releasePut id))) as (w3 & H3 & Hc3 & Hr3 & _); simpl; try done; try lia.
  - rewrite fn_lookup_insert. done.
  - exists w3. split_and!; [| done |]; [by eapply rtc_l, rtc_l, rtc_once |].
    rewrite Hr3. simpl. by rewrite Hver.
Qed.
End Progress.

(** ** Properties *)

(** C25: Mutual exclusion.  In every execution of any number of clients
    over a network that loses and delays messages, at most one client is
    between the return of [Acquire] and its call of [Release], and the
    register holds that client's identity. *)
Theorem mutual_exclusion (svc : KVService) lock_name w c c' id id' :
  reachable (world_init lock_name) (bounded_step lock_name) w ->
  w_pc w c = Held id -> w_pc w c' = Held id' ->
  c = c' /\ id = id' /\ exists ver, w_kv w !! lock_name = Some (mkValue id ver).
Proof.
  intros Hw Hc Hc'. apply reachable_inv in Hw as [_ _ Hpc _ Huniq].
  pose proof (Hpc c) as H1. rewrite Hc in H1. destruct H1 as ([v ver] & Hr & Hv). simpl in Hv. subst v.
  pose proof (Hpc c') as H2. rewrite Hc' in H2. destruct H2 as ([v2 ver2] & Hr2 & Hv2). simpl in Hv2.
  assert (id = id') as -> by congruence.
  split_and!; [| done | by exists ver]. apply (Huniq _ _ id'); by rewrite ?Hc, ?Hc'.
Qed.

Definition ex_w0 : World := mkWorld ∅ (fun _ => MakeGet) ∅ ∅.
Definition ex_rand : nat -> Z := fun i => Z.of_nat i.
Definition ex_w1 : World := set_pc ex_w0 0 (MakePut false).
Definition ex_w2 : World := set_kv (set_pc ex_w1 0 Idle) {[ "l" := mkValue UNLOCK_NAME 1 ]}.
Definition ex_w3 : World := set_pc ex_w2 0 AcquireGet.
Definition ex_w4 : World := use_id (set_pc ex_w3 0 (AcquirePut "abcdefgh" 1 false)) "abcdefgh".
Definition ex_w5 : World := set_kv (set_pc ex_w4 0 (Held "abcdefgh")) {[ "l" := mkValue "abcdefgh" 2 ]}.

Lemma ex_step w w1 w2 :
  reachable (world_init "l") (bounded_step "l") w -> world_step "l" w w1 -> w1 = w2 ->
  version_of (w_kv w2) "l" < 2 ^ 64 - 2 -> reachable (world_init "l") (bounded_step "l") w2.
Proof. intros Hw Hs <- Hb. by eapply reach_step. Qed.

Lemma ex_w5_reachable : reachable (world_init "l") (bounded_step "l") ex_w5.
Proof.
  assert (reachable (world_init "l") (bounded_step "l") ex_w0) as H by (apply reach_init; by split_and!).
  eapply (ex_step _ _ ex_w1) in H; [| by apply (step_make_get "l" ex_w0 0) | vm_compute; reflexivity | done].
  eapply (ex_step _ _ ex_w2) in H; [| by apply (step_put_done "l" ex_w1 0
    (mkPutCall (mkPutArgs "l" UNLOCK_NAME 0) false (MakePut true) (fun _ => Idle))) | vm_compute; reflexivity | done].
  eapply (ex_step _ _ ex_w3) in H; [| by apply (step_acquire "l" ex_w2 0) | reflexivity | done].
  eapply (ex_step _ _ ex_w4) in H; [| by apply (step_acquire_free "l" ex_w3 0 ex_rand) | vm_compute; reflexivity | done].
  eapply (ex_step _ _ ex_w5) in H; [done | by apply (step_put_done "l" ex_w4 0 (mkPutCall (mkPutArgs "l" "abcdefgh" 1) false
    (AcquirePut "abcdefgh" 1 true) (acquirePut "abcdefgh"))) | vm_compute; reflexivity | done].
Qed.

Lemma mutual_exclusion_witness :
  w_pc ex_w5 0%nat = Held "abcdefgh" /\
  (0 = 0)%nat /\ "abcdefgh" = "abcdefgh" /\ exists ver, w_kv ex_w5 !! "l" = Some (mkValue "abcdefgh" ver).
Proof.
  split; [reflexivity |].
  apply (mutual_exclusion kvsrv_service "l" ex_w5 0 0 "abcdefgh" "abcdefgh");
    [apply ex_w5_reachable | reflexivity | reflexivity].
Defined.

(** C26: The lock is live.  From every reachable state in which the lock
    is free, a client in [Acquire] whose calls get through takes it; a
    holder whose calls get through frees it. *)
Theorem lock_progress (svc : KVService) lock_name w c :
  reachable (world_init lock_name) (bounded_step lock_name) w ->
  version_of (w_kv w) lock_name < 2 ^ 64 - 3 ->
  (forall rand, gr_Value (read lock_name w) = UNLOCK_NAME -> w_pc w c = AcquireGet ->
     RandValue 8 rand ∉ w_used w ->
     exists w', rtc (bounded_step lock_name) w w' /\ w_pc w' c = Held (RandValue 8 rand)) /\
  (forall id, w_pc w c = Held id ->
     exists w', rtc (bounded_step lock_name) w w' /\ w_pc w' c = Idle /\
       gr_Value (read lock_name w') = UNLOCK_NAME).
Proof.
  intros Hw Hb. apply reachable_inv in Hw as Hinv.
  pose proof (inv_reg _ w Hinv) as Hreg. pose proof (reg_ok_nonneg _ Hreg) as H0. unfold version_of in Hb. split.
  - intros rand Hv Hc Hf. pose proof (read_reg lock_name w UNLOCK_NAME ltac:(done) Hv) as Hr.
    rewrite Hr in Hb, H0. simpl in *. by apply (acquire_free lock_name w c (gr_Version (read lock_name w))).
  - intros id Hc. pose proof (inv_pc _ w Hinv c) as Hpc. rewrite Hc in Hpc. destruct Hpc as ([v ver] & Hr & <-).
    rewrite Hr in Hb, H0. simpl in *.
    destruct (inv_used _ w Hinv c v) as (_ & _ & Hne); [by rewrite Hc |].
    destruct (release_held lock_name w c v ver Hne Hr) as (w' & Hsteps & Hi & Hr'); [lia | done |].
    exists w'. split_and!; [done.. |]. by apply (read_free lock_name w' (ver + 1)).
Qed.

Lemma lock_progress_witness :
  (exists w', rtc (bounded_step "l") ex_w5 w' /\ w_pc w' 0%nat = Idle /\
     gr_Value (read "l" w') = UNLOCK_NAME).
Proof.
  apply (lock_progress kvsrv_service "l" ex_w5 0) with (id := "abcdefgh");
    [apply ex_w5_reachable | reflexivity | reflexivity].
Defined.
