(* ===== verification/KvModel.v ===== *)
(** * The linearizability model ([models1/kv.go]) and the operation log
      ([kvtest1/porcupine.go])

    The tests record every clerk call and hand the history to porcupine
    with the model of [models1/kv.go]: histories are split by key, and one
    key's operations must be explained by a sequential register.  The file
    models the model and the log, and relates the model's register to the
    servers' one. *)
From S2P Require Import Prelude Kv.
Import Rpc.
#[local] Open Scope Z_scope.

Record KvInput := mkKvInput { in_Op : Z; in_Key : string; in_Value : string; in_Version : Z }.
Record KvOutput := mkKvOutput { out_Value : string; out_Version : Z; out_Err : string }.
Record KvState := mkKvState { st_Value : string; st_Version : Z }.

(** [porcupine.Operation], with the dynamic types the code stores. *)
Record Operation := mkOperation {
  op_Input : KvInput; op_Output : KvOutput; op_Call : Z; op_Return : Z; op_ClientId : Z
}.

#[export] Instance KvInput_eq_dec : EqDecision KvInput. Proof. solve_decision. Defined.
#[export] Instance KvOutput_eq_dec : EqDecision KvOutput. Proof. solve_decision. Defined.
#[export] Instance Operation_eq_dec : EqDecision Operation. Proof. solve_decision. Defined.

(** ** [KvModel] *)
Module KvModel.
Definition Init : KvState := mkKvState "" 0.

(** The state after an invalid operation is the string ["<invalid>"]. *)
Definition Step (st : KvState) (inp : KvInput) (out : KvOutput) : bool * option KvState :=
  if decide (in_Op inp = 0) then (bool_decide (out_Value out = st_Value st), Some st)
  else if decide (in_Op inp = 1) then
    if decide (st_Version st = in_Version inp) then
      (bool_decide (out_Err out = "OK") || bool_decide (out_Err out = "ErrMaybe"),
       Some (mkKvState (in_Value inp) (u64 (st_Version st + 1))))
    else (bool_decide (out_Err out = "ErrVersion") || bool_decide (out_Err out = "ErrMaybe"), Some st)
  else (false, None).

(** Collect the operations by key, in order. *)
Definition group (history : list Operation) : gmap string (list Operation) :=
  foldl (fun m v => let key := in_Key (op_Input v) in <[key := default [] (m !! key) ++ [v]]> m) ∅ history.

(** [sort.Strings] of the keys. *)
Definition keys (m : gmap string (list Operation)) : list string :=
  merge_sort String.le (map_to_list m).*1.

Definition Partition (history : list Operation) : list (list Operation) :=
  let m := group history in
  foldl (fun ret k => ret ++ [default [] (m !! k)]) [] (keys m).

(** A sequence of operations on one key that the model explains. *)
Fixpoint accepts (st : KvState) (ops : list Operation) : bool :=
  match ops with
  | [] => true
  | op :: ops =>
      match Step st (op_Input op) (op_Output op) with
      | (true, Some st') => accepts st' ops
      | _ => false
      end
  end.
End KvModel.

(** ** [OpLog] *)
Module OpLog.
Abbreviation log := (list Operation).
Definition Len (l : log) : Z := zlen l.
Definition Append (op : Operation) (l : log) : log := l ++ [op].
(** [make] and [copy]: the elements of the log in a slice of their own. *)
Definition Read (l : log) : list Operation := l.

(** [Test.Get] and [Test.Put] after the clerk call returned, with the two
    readings of the clock. *)
Definition Get (start finish : Z) (key : string) (cli : Z) (res : string * Z * Err) (oplog : option log) : option log :=
  let '(val, ver, err) := res in
  match oplog with
  | Some l => Some (Append (mkOperation (mkKvInput 0 key "" 0) (mkKvOutput val ver err) start finish cli) l)
  | None => None
  end.

Definition Put (start finish : Z) (key value : string) (version : Z) (cli : Z) (err : Err) (oplog : option log) :
    option log :=
  match oplog with
  | Some l => Some (Append (mkOperation (mkKvInput 1 key value version) (mkKvOutput "" 0 err) start finish cli) l)
  | None => None
  end.
End OpLog.

(** ** The model's register and the server's *)
Definition repr (r : option ValueType) : KvState :=
  match r with Some v => mkKvState (value_ v) (version_ v) | None => KvModel.Init end.

(** What the log holds for a request that the server answered at once. *)
Definition get_output (r : option ValueType) : KvOutput :=
  let reply := Spec.get r in mkKvOutput (gr_Value reply) (gr_Version reply) (gr_Err reply).

Definition put_output (err : Err) : KvOutput := mkKvOutput "" 0 err.

(** A clerk may report [ErrMaybe] in place of the server's answer. *)
Definition reported (server clerk : Err) : Prop :=
  clerk = server \/ (clerk = ErrMaybe /\ (server = OK \/ server = ErrVersion)).

Lemma Spec_put_repr value ver r :
  repr (Spec.put value ver r).1 =
    if decide (st_Version (repr r) = ver) then mkKvState value (u64 (st_Version (repr r) + 1)) else repr r.
Proof.
  assert (st_Version (repr r) = Spec.version r) as -> by (by destruct r).
  unfold Spec.put. destruct (decide (ver = Spec.version r)) as [->|H].
  - by rewrite decide_True.
  - by rewrite decide_False by congruence.
Qed.

(** ** Partition *)
Definition of_key (k : string) (history : list Operation) : list Operation :=
  filter (fun v => in_Key (op_Input v) = k) history.

Lemma group_lookup history k :
  KvModel.group history !! k = if decide (of_key k history = []) then None else Some (of_key k history).
Proof.
  unfold KvModel.group, of_key. induction history as [|v h IH] using rev_ind; [done |].
  rewrite foldl_snoc, filter_snoc. set (m := foldl _ _ _) in *. simpl.
  destruct (decide (in_Key (op_Input v) = k)) as [<-|Hne].
  - rewrite lookup_insert_eq, IH.
    rewrite (decide_False (P := _ ++ _ = [])) by (by intros [??]%app_nil). f_equal. f_equal.
    case_decide as Hd; [by rewrite Hd | done].
  - rewrite lookup_insert_ne by done. by rewrite app_nil_r.
Qed.

Lemma keys_elem history k : k ∈ KvModel.keys (KvModel.group history) <-> of_key k history <> [].
Proof.
  unfold KvModel.keys. rewrite merge_sort_Permutation. rewrite list_elem_of_fmap. split.
  - intros ([k' l] & -> & Hin%elem_of_map_to_list). simpl. rewrite group_lookup in Hin. by case_decide.
  - intros Hne. exists (k, of_key k history). split; [done |]. apply elem_of_map_to_list.
    rewrite group_lookup. by rewrite decide_False.
Qed.

Lemma keys_sorted m : StronglySorted String.le (KvModel.keys m) /\ NoDup (KvModel.keys m).
Proof.
  unfold KvModel.keys. split; [apply StronglySorted_merge_sort; apply _ |].
  rewrite merge_sort_Permutation. apply NoDup_fst_map_to_list.
Qed.

Lemma foldl_snoc_fmap {A B} (f : A -> B) l ret :
  foldl (fun ret k => ret ++ [f k]) ret l = ret ++ (f <$> l).
Proof.
  revert ret. induction l as [|x l IH]; intros ret; simpl; [by rewrite app_nil_r |].
  rewrite IH. by rewrite <- app_assoc.
Qed.

Lemma Partition_eq history :
  KvModel.Partition history = (fun k => of_key k history) <$> KvModel.keys (KvModel.group history).
Proof.
  unfold KvModel.Partition. rewrite foldl_snoc_fmap. simpl. apply list_fmap_ext. intros i k Hk.
  rewrite group_lookup. case_decide as Hd; [by rewrite Hd | done].
Qed.

(** ** Properties *)

(** The model's register is the server's.  A get is accepted with
    exactly the server's value and leaves the state.  A put moves the
    state as the server does, and the model accepts the server's answer,
    also when the clerk reports it as [ErrMaybe] -- except the answer
    [ErrNoKey], which the model rejects although it is what the servers
    document and return. *)
Theorem Step_refines_server key value ver r clerk_err :
  let '(r', err) := Spec.put value ver r in
  KvModel.Step (repr r) (mkKvInput 0 key "" 0) (get_output r) = (true, Some (repr r)) /\
  (KvModel.Step (repr r) (mkKvInput 1 key value ver) (put_output clerk_err)).2 = Some (repr r') /\
  (reported err clerk_err ->
   ((KvModel.Step (repr r) (mkKvInput 1 key value ver) (put_output clerk_err)).1 = true <->
    err <> ErrNoKey)).
Proof.
  pose proof (Spec_put_repr value ver r) as Hr.
  assert (st_Version (repr r) = Spec.version r) as Hv by (by destruct r).
  destruct (Spec.put value ver r) as [r' err] eqn:E. simpl in Hr. split_and!.
  - unfold KvModel.Step. simpl. rewrite bool_decide_true; [done | by destruct r].
  - rewrite Hr. unfold KvModel.Step. simpl. by case_decide.
  - unfold Spec.put in E. unfold KvModel.Step, reported. rewrite Hv. simpl.
    destruct (decide (ver = Spec.version r)) as [->|Hne]; injection E as <- <-.
    + rewrite decide_True by done. simpl. by intros [->|[-> _]].
    + rewrite decide_False by congruence. simpl.
      destruct r as [v|]; [by intros [->|[-> _]] |]. intros [->|[-> [?|?]]]; done.
Qed.

Lemma Step_refines_server_witness :
  reported ErrNoKey ErrNoKey /\
  KvModel.Step (repr None) (mkKvInput 1 "a" "x" 3) (put_output ErrNoKey) = (false, Some (repr None)).
Proof.
  split; [by left |].
  destruct (Step_refines_server "a" "x" 3 None ErrNoKey) as (_ & H2 & H3).
  destruct (KvModel.Step _ _ _) as [b st] eqn:E. simpl in H2, H3. subst st. f_equal.
  destruct b; [| done]. exfalso. apply H3; [by left | done | done].
Defined.

(** [Partition] loses nothing and mixes nothing.  The parts are, for
    each key of the history in ascending order, exactly that key's
    operations in their original order; no part is empty, and together
    they are the history. *)
Theorem Partition_by_key history :
  exists ks, StronglySorted String.le ks /\ NoDup ks /\
    (forall k, k ∈ ks <-> exists op, op ∈ history /\ in_Key (op_Input op) = k) /\
    KvModel.Partition history = (fun k => filter (fun op => in_Key (op_Input op) = k) history) <$> ks /\
    concat (KvModel.Partition history) ≡ₚ history.
Proof.
  exists (KvModel.keys (KvModel.group history)).
  destruct (keys_sorted (KvModel.group history)) as [H1 H2].
  assert (forall k, k ∈ KvModel.keys (KvModel.group history) <->
    exists op, op ∈ history /\ in_Key (op_Input op) = k) as Hk.
  { intros k. rewrite keys_elem. unfold of_key. split.
    - intros Hne. destruct (filter _ history) as [|op l] eqn:E; [done |]. exists op.
      assert (op ∈ filter (fun v => in_Key (op_Input v) = k) history) as Hop by (rewrite E; apply list_elem_of_here).
      apply list_elem_of_filter in Hop. tauto.
    - intros (op & Hop & Hkey) Hnil. assert (op ∈ filter (fun v => in_Key (op_Input v) = k) history) as Hf by (by apply list_elem_of_filter).
      rewrite Hnil in Hf. by apply not_elem_of_nil in Hf. }
  rewrite Partition_eq. split_and!; [done | done | done | done |]. unfold of_key.
  rewrite (filter_concat_Permutation (fun v => in_Key (op_Input v))) by done.
  rewrite filter_all; [done |]. intros op Hop. apply Hk. eauto.
Qed.
