(* ===== verification/KvTest.v ===== *)
(** * The test harness of the key/value servers ([kvtest1/kvtest.go],
      the recorded calls of [kvtest1/porcupine.go])

    The functions that tests put on top of a clerk.  A call of the clerk
    is [clerk_put] of [KvCalls], or a read, at one moment; every call
    takes the readings of the clock and whether the clerk had to report
    [ErrMaybe].  A failed check ([Fatalf]) is [Panic]. *)
From stdpp Require Import pretty.
From S2P Require Import Prelude Kv KvClerk KvCalls KvModel.
Import Rpc.
#[local] Open Scope Z_scope.

(** [encoding/json] on the values the tests store. *)
Class Json (A : Type) := {
  Marshal : A -> string;
  Unmarshal : string -> option A;
  Unmarshal_Marshal : forall a, Unmarshal (Marshal a) = Some a;
}.

Record EntryV := mkEntryV { Id : Z; V : Z }.
Record entry := mkEntryN { en_Id : Z; en_N : Z }.
Record ClntRes := mkClntRes { Nok : Z; Nmaybe : Z }.

(** What a test shares with the servers: the map they hold, the counter
    of operations of [tester.Config], and the operation log. *)
Record World := mkWorld { kv : kv_map; ops : Z; oplog : option OpLog.log }.

Record CallNet := mkCallNet { c_maybe : bool; c_start : Z; c_end : Z }.

Section Test.
Context `{svc : !KVService}.

Definition OpInc (w : World) : World := mkWorld (kv w) ((ops w + 1 + 2 ^ 31) mod 2 ^ 32 - 2 ^ 31) (oplog w).

(** ** [TestClerk] *)
Definition TestClerk_Put (c : CallNet) (key value : string) (version : Z) (w : World) : World * Err :=
  let w := OpInc w in
  let '(kv', err) := clerk_put (c_maybe c) (mkPutArgs key value version) (kv w) in
  (mkWorld kv' (ops w) (oplog w), err).

Definition TestClerk_Get (key : string) (w : World) : World * (string * Z * Err) :=
  let w := OpInc w in
  let reply := svc_get (mkGetArgs key) (kv w) in
  (w, (gr_Value reply, gr_Version reply, gr_Err reply)).

(** ** Recorded calls ([porcupine.go]) *)
Definition Get (c : CallNet) (key : string) (cli : Z) (w : World) : World * (string * Z * Err) :=
  let '(w, res) := TestClerk_Get key w in
  let w := OpInc w in
  (mkWorld (kv w) (ops w) (OpLog.Get (c_start c) (c_end c) key cli res (oplog w)), res).

Definition Put (c : CallNet) (key value : string) (version cli : Z) (w : World) : World * Err :=
  let '(w, err) := TestClerk_Put c key value version w in
  let w := OpInc w in
  (mkWorld (kv w) (ops w) (OpLog.Put (c_start c) (c_end c) key value version cli err (oplog w)), err).

(** The methods of [Test]: [Get] as above, [Put] without the counting. *)
Definition Test_Get := Get.

Definition Test_Put (c : CallNet) (key value : string) (version cli : Z) (w : World) : World * Err :=
  let '(w, err) := TestClerk_Put c key value version w in
  (mkWorld (kv w) (ops w) (OpLog.Put (c_start c) (c_end c) key value version cli err (oplog w)), err).

(** ** Checks by one client *)

(** Assumes that different clerks put to different keys. *)
Fixpoint PutAtLeastOnce (calls : list CallNet) (key value : string) (ver me : Z) (w : World) : Res (World * option Z) :=
  match calls with
  | [] => Ok (w, None)
  | c :: calls =>
      let '(w, err) := Test_Put c key value ver me w in
      if decide (err = OK) then Ok (w, Some (u64 (ver + 1)))
      else if decide (err = ErrMaybe \/ err = ErrVersion) then PutAtLeastOnce calls key value (u64 (ver + 1)) me w
      else if decide (ver <> 0) then Panic
      else PutAtLeastOnce calls key value ver me w
  end.

Definition CheckGet (c : CallNet) (key value : string) (version : Z) (w : World) : Res World :=
  let '(w, (val, ver, err)) := Test_Get c key 0 w in
  if decide (err <> OK) then Panic
  else if decide (val <> value \/ ver <> version) then Panic
  else Ok w.

Definition MakeKeys (n : nat) : list string := (fun i : nat => ("k" +:+ pretty i)%string) <$> seq 0 n.

(** [va] are the random values; the puts' results are not looked at. *)
Fixpoint spread_puts (puts : list CallNet) (ka va : list string) (w : World) : World :=
  match puts, ka, va with
  | c :: puts, k :: ka, v :: va => spread_puts puts ka va (TestClerk_Put c k v 0 w).1
  | _, _, _ => w
  end.

Fixpoint spread_checks (gets : list CallNet) (ka va : list string) (w : World) : Res World :=
  match gets, ka, va with
  | c :: gets, k :: ka, v :: va => let* w := CheckGet c k v 1 w in spread_checks gets ka va w
  | _, _, _ => Ok w
  end.

Definition SpreadPutsSize (puts gets : list CallNet) (n : nat) (va : list string) (w : World) :
    Res (World * (list string * list string)) :=
  let ka := MakeKeys n in
  let w := spread_puts puts ka va w in
  let* w := spread_checks gets ka va w in
  Ok (w, (ka, va)).

(** ** Values in JSON *)

Definition GetJson {A} `{!Json A} (c : CallNet) (key : string) (me : Z) (w : World) : Res (World * (A * Z)) :=
  let '(w, (val, ver, err)) := Get c key me w in
  if decide (err = OK) then
    match Unmarshal val with Some v => Ok (w, (v, ver)) | None => Panic end
  else Panic.

Definition PutJson {A} `{!Json A} (c : CallNet) (key : string) (v : A) (ver me : Z) (w : World) : World * Err :=
  Put c key (Marshal v) ver me w.

Fixpoint PutAtLeastOnceJson {A} `{!Json A} (calls : list CallNet) (key : string) (value : A) (ver me : Z) (w : World) :
    World * option Z :=
  match calls with
  | [] => (w, None)
  | c :: calls =>
      let '(w, err) := PutJson c key value 0 me w in
      if decide (err <> ErrMaybe) then (w, Some ver)
      else PutAtLeastOnceJson calls key value (u64 (ver + 1)) me w
  end.

(** ** Clients that race *)

(** One attempt of [OnePut]: the error of the put is checked... *)
Definition OnePut_put `{!Json EntryV} (c : CallNet) (me : Z) (key : string) (ver : Z) (w : World) : Res (World * Err) :=
  let '(w, err) := PutJson c key (mkEntryV me ver) ver me w in
  if decide (~ (err = OK \/ err = ErrVersion \/ err = ErrMaybe)) then Panic else Ok (w, err).

(** ...and the value read.  [inl]: [OnePut] returns; [inr]: it goes
    around with that version. *)
Definition OnePut_get `{!Json EntryV} (c : CallNet) (me : Z) (key : string) (ver : Z) (err : Err) (w : World) :
    Res (World * (Z * bool + Z)) :=
  let* r := GetJson c key me w in
  let '(w, (e, ver0)) := r in
  if decide (err = OK /\ ver0 = u64 (ver + 1)) then
    if decide (Id e <> me /\ V e <> ver) then Panic
    else Ok (w, inl (ver0, true))
  else if decide (err = OK \/ err = ErrMaybe) then Ok (w, inl (ver0, bool_decide (err = OK)))
  else Ok (w, inr ver0).

Definition CheckPutConcurrent `{!Json EntryV} (c : CallNet) (key : string) (rs : list ClntRes) (res : ClntRes)
    (reliable : bool) (w : World) : Res (World * ClntRes) :=
  let* r := GetJson (A := EntryV) c key (-1) w in
  let '(w, (_, ver0)) := r in
  let res := foldl (fun res r => mkClntRes (i64 (Nok res + Nok r)) (i64 (Nmaybe res + Nmaybe r))) res rs in
  if reliable then
    if decide (ver0 <> u64 (Nok res)) then Panic else Ok (w, res)
  else if decide (u64 (i64 (Nok res + Nmaybe res)) < ver0) then Panic else Ok (w, res).
End Test.

(** ** [CheckAppends] *)

(** A Go map of integers, read with zero for an absent key. *)
Definition at_key (m : gmap Z Z) (k : Z) : Z := default 0 (m !! k).

Definition init_counts (nclnt : Z) : gmap Z Z := list_to_map ((fun i => (i, 0)) <$> seqZ 0 nclnt).

Definition count_entry (e : entry) (expect skipped : gmap Z Z) : Res (gmap Z Z * gmap Z Z) :=
  let x := at_key expect (en_Id e) in
  if decide (en_N e < x) then Panic
  else if decide (x = en_N e) then Ok (<[en_Id e := i64 (x + 1)]> expect, skipped)
  else
    let s := i64 (en_N e - x) in
    Ok (<[en_Id e := i64 (en_N e + 1)]> expect, <[en_Id e := i64 (at_key skipped (en_Id e) + s)]> skipped).

Fixpoint count_entries (es : list entry) (expect skipped : gmap Z Z) : Res (gmap Z Z * gmap Z Z) :=
  match es with
  | [] => Ok (expect, skipped)
  | e :: es => let* p := count_entry e expect skipped in count_entries es p.1 p.2
  end.

Definition check_client (rs : list ClntRes) (skipped : gmap Z Z) (c n : Z) : Res () :=
  let* r := slice_get rs c in
  if decide (Nmaybe r < at_key skipped c) then Panic
  else if decide (i64 (Nok r + Nmaybe r) < n) then Panic
  else Ok ().

(** The order in which Go visits the map does not matter: the checks only
    pass or fail. *)
Fixpoint check_clients (rs : list ClntRes) (skipped : gmap Z Z) (l : list (Z * Z)) : Res () :=
  match l with
  | [] => Ok ()
  | (c, n) :: l => let* _ := check_client rs skipped c n in check_clients rs skipped l
  end.

Definition CheckAppends (es : list entry) (nclnt : Z) (rs : list ClntRes) (ver : Z) : Res () :=
  let* p := count_entries es (init_counts nclnt) (init_counts nclnt) in
  if decide (zlen es + 1 <> i64 ver) then Panic
  else check_clients rs p.2 (map_to_list p.1).

(** ** [Partitioner]: the two sides of a random partition *)
Definition side (a : list Z) (i : Z) : list Z :=
  filter (fun j => zlookup a j = Some i) (seqZ 0 (zlen a)).

Definition Partitioner_sides (rands : list Z) : list Z * list Z :=
  let a := (fun r => Z.rem r 2) <$> rands in (side a 0, side a 1).

(** ** [PutAtLeastOnce] *)

Definition certain (calls : list CallNet) : list CallNet := filter (fun c => c_maybe c = false) calls.

Section Sequential.
Context `{svc : !KVService}.

Lemma Test_Put_kv c key value ver me w :
  (kv (Test_Put c key value ver me w).1, (Test_Put c key value ver me w).2) =
  clerk_put (c_maybe c) (mkPutArgs key value ver) (kv w).
Proof. unfold Test_Put, TestClerk_Put. simpl. by destruct (clerk_put _ _ _). Qed.

(** A put that takes place. *)
Lemma put_hits key value ver kv : ver = version_of kv key -> 0 <= ver < 2 ^ 64 - 1 ->
  (svc_put (mkPutArgs key value ver) kv).1 = <[key := mkValue value (ver + 1)]> kv.
Proof.
  intros Hv Hb. apply map_eq. intros k. destruct (decide (k = key)) as [->|Hne].
  - rewrite lookup_insert_eq. etransitivity; [exact (svc_put_reg (mkPutArgs key value ver) kv) |].
    unfold Spec.put. simpl. rewrite decide_True by done. simpl. by rewrite u64_small by lia.
  - rewrite lookup_insert_ne by done. by apply svc_put_frame.
Qed.

Lemma PutAtLeastOnce_ends calls key value me : forall ver w,
  0 <= ver <= version_of (kv w) key -> version_of (kv w) key + zlen calls < 2 ^ 64 - 1 ->
  version_of (kv w) key - ver < zlen (certain calls) ->
  exists w' ver', PutAtLeastOnce calls key value ver me w = Ok (w', Some ver') /\
    version_of (kv w) key < ver' /\ kv w' = <[key := mkValue value ver']> (kv w).
Proof.
  induction calls as [|c calls IH]; intros ver w Hv Hb Hc; [unfold zlen in Hc; simpl in Hc; lia |].
  rewrite zlen_cons in Hb. pose proof (zlen_nonneg calls) as Hz. simpl.
  pose proof (Test_Put_kv c key value ver me w) as Hput. destruct (Test_Put c key value ver me w) as [w1 err]. simpl in Hput.
  assert (zlen (certain (c :: calls)) = (if c_maybe c then 0 else 1) + zlen (certain calls)) as Hcert.
  { unfold certain. rewrite filter_cons. destruct (c_maybe c); simpl; [lia |]. by rewrite zlen_cons. }
  assert (forall v, version_of (<[key := v]> (kv w)) key = version_ v) as Hins.
  { intros v. unfold version_of. by rewrite lookup_insert_eq. }
  destruct (clerk_put_cases (c_maybe c) (mkPutArgs key value ver) (kv w)) as [(E & E1 & E2)|(E & E1 & E2)];
    rewrite <- Hput in E1, E2; simpl in E, E1, E2.
  - rewrite put_hits in E1 by (try done; lia). destruct (c_maybe c); subst err; simpl.
    + rewrite u64_small by lia.
      destruct (IH (ver + 1) w1) as (w' & ver' & -> & Hlt & Hkv); rewrite ?E1, ?Hins in *; simpl in *; try lia.
      exists w', ver'. split_and!; [done | lia |]. by rewrite Hkv, insert_insert_eq.
    + exists w1, (ver + 1). rewrite u64_small by lia. split_and!; [done | lia | done].
  - assert (is_Some (kv w !! key)) as [v0 Hk].
    { unfold version_of in *. destruct (kv w !! key); [by eauto | simpl in *; lia]. }
    rewrite Hk in E2.
    assert ((err = ErrMaybe \/ err = ErrVersion) /\ err <> OK) as [Herr Hne] by (destruct (c_maybe c); subst; auto).
    rewrite decide_False, decide_True, u64_small by (done || lia).
    destruct (IH (ver + 1) w1) as (w' & ver' & -> & Hlt & Hkv); rewrite ?E1 in *; simpl in *; try lia.
    { destruct (c_maybe c); lia. }
    by exists w', ver'.
Qed.

(** ** [SpreadPuts] *)

Lemma MakeKeys_NoDup n : NoDup (MakeKeys n).
Proof.
  apply NoDup_fmap_2; [| apply NoDup_seq]. intros i j H. injection H as H. exact (inj pretty i j H).
Qed.

Lemma TestClerk_Put_kv c key value ver w : kv (TestClerk_Put c key value ver w).1 =
  (clerk_put (c_maybe c) (mkPutArgs key value ver) (kv w)).1.
Proof. unfold TestClerk_Put. simpl. by destruct (clerk_put _ _ _). Qed.

Lemma CheckGet_passes c key value version w : kv w !! key = Some (mkValue value version) ->
  exists w', CheckGet c key value version w = Ok w' /\ kv w' = kv w.
Proof.
  intros Hk. unfold CheckGet, Test_Get, Get, TestClerk_Get. simpl. rewrite svc_get_spec. simpl. rewrite Hk. simpl.
  rewrite decide_False by (intros [|]; done). eexists. by split.
Qed.

Lemma spread_puts_kv puts : forall ka va w, length puts = length ka -> length va = length ka -> NoDup ka ->
  (forall k, k ∈ ka -> kv w !! k = None) -> kv (spread_puts puts ka va w) =
    list_to_map (zip ka ((fun v => mkValue v 1) <$> va)) ∪ kv w.
Proof.
  induction puts as [|c puts IH]; intros [|k ka] [|v va] w Hp Hv Hn Hk; try done; simpl.
  - by rewrite (left_id_L ∅ (∪)).
  - inversion_clear Hn as [|? ? Hnin Hn1]; rename Hn1 into Hn. simpl in Hp, Hv.
    assert (version_of (kv w) k = 0) as Hver by (unfold version_of; by rewrite (Hk k (list_elem_of_here _ _))).
    assert (kv (TestClerk_Put c k v 0 w).1 = <[k := mkValue v 1]> (kv w)) as E.
    { rewrite TestClerk_Put_kv.
      destruct (clerk_put_cases (c_maybe c) (mkPutArgs k v 0) (kv w)) as [(_ & -> & _)|(E & _)]; [| done].
      by rewrite put_hits by (try done; lia). }
    rewrite IH; [| lia | lia | done |].
    + rewrite E. rewrite <- insert_union_r; [by rewrite insert_union_l |].
      apply not_elem_of_list_to_map_1. rewrite fst_zip; [done |]. rewrite length_fmap. lia.
    + intros k' Hk'. rewrite E, lookup_insert_ne; [by apply Hk, list_elem_of_further | by intros ->].
Qed.

Lemma spread_checks_pass gets : forall ka va w, (forall i k v, ka !! i = Some k -> va !! i = Some v ->
    kv w !! k = Some (mkValue v 1)) ->
  exists w', spread_checks gets ka va w = Ok w' /\ kv w' = kv w.
Proof.
  induction gets as [|c gets IH]; intros [|k ka] [|v va] w H; simpl; try by eexists.
  destruct (CheckGet_passes c k v 1 w) as (w1 & -> & E1); [by apply (H 0%nat) |]. simpl.
  destruct (IH ka va w1) as (w2 & -> & E2); [| exists w2; split; [done | congruence]].
  intros i k' v' Hk Hv. rewrite E1. by apply (H (S i)).
Qed.
End Sequential.

(** ** [Partitioner] *)

Lemma elem_of_side a i j : j ∈ side a i <-> zlookup a j = Some i.
Proof.
  unfold side. rewrite list_elem_of_filter, elem_of_seqZ. split; [tauto |]. intros H. split; [done |].
  unfold zlookup in H. case_decide; [| done]. apply lookup_lt_Some in H. unfold zlen. lia.
Qed.

(** ** [CheckAppends] *)

Definition of_client (c : Z) (es : list entry) : list Z := en_N <$> filter (fun e => en_Id e = c) es.

(** From [x] on: the numbers ascend. *)
Fixpoint ascends (x : Z) (l : list Z) : Prop :=
  match l with [] => True | n :: l => x <= n /\ ascends (n + 1) l end.

(** The next number that [CheckAppends] expects. *)
Definition next_of (x : Z) (l : list Z) : Z := foldl (fun _ n => n + 1) x l.

Lemma ascends_next x l : ascends x l -> x + zlen l <= next_of x l.
Proof.
  revert x. induction l as [|n l IH]; intros x; [intros _; unfold zlen; simpl; lia |].
  intros [H1 H2]. rewrite zlen_cons. specialize (IH _ H2). change (next_of x (n :: l)) with (next_of (n + 1) l). lia.
Qed.

#[export] Instance ascends_dec x l : Decision (ascends x l).
Proof. revert x. induction l as [|n l IH]; intros x; simpl; apply _. Defined.

Lemma ascends_sorted l : Forall (fun n => 0 <= n) l -> ascends 0 l <-> StronglySorted Z.lt l.
Proof.
  assert (forall l x, ascends x l <-> StronglySorted Z.lt l /\ Forall (fun n => x <= n) l) as H.
  { clear l. intros l. induction l as [|n l IH]; intros x; simpl.
    - split; [split; constructor | done].
    - rewrite IH. split.
      + intros (Hx & Hs & Hf). split; constructor; auto; eapply Forall_impl; try exact Hf; simpl; lia.
      + intros [Hs Hf]. inversion_clear Hs as [|? ? Hs' Hlt]. inversion_clear Hf as [|? ? Hn Hf'].
        split_and!; [done | done |]. eapply Forall_impl; [| exact Hlt]; simpl; lia. }
  intros Hf. rewrite H. tauto.
Qed.

Definition small_entry (e : entry) : Prop := 0 <= en_N e < 2 ^ 62.

Lemma at_insert m k v j : at_key (<[k := v]> m) j = if decide (j = k) then v else at_key m j.
Proof. unfold at_key. destruct (decide (j = k)) as [->|?]; [by rewrite lookup_insert_eq | by rewrite lookup_insert_ne]. Qed.

Lemma of_client_cons c e es : of_client c (e :: es) = if decide (en_Id e = c) then en_N e :: of_client c es else of_client c es.
Proof. unfold of_client. rewrite filter_cons. by case_decide. Qed.

(** One entry: accepted if it is not an old one. *)
Lemma count_entry_spec e expect skipped : small_entry e ->
  (forall c, 0 <= at_key skipped c <= at_key expect c /\ at_key expect c <= 2 ^ 62) ->
  count_entry e expect skipped =
    if decide (at_key expect (en_Id e) <= en_N e)
    then Ok (<[en_Id e := en_N e + 1]> expect,
             if decide (at_key expect (en_Id e) = en_N e) then skipped
             else <[en_Id e := at_key skipped (en_Id e) + (en_N e - at_key expect (en_Id e))]> skipped)
    else Panic.
Proof.
  intros [H1 H2] Hb. specialize (Hb (en_Id e)). unfold count_entry.
  destruct (decide (at_key expect (en_Id e) <= en_N e)); [rewrite decide_False by lia | by rewrite decide_True by lia].
  case_decide; rewrite !i64_small by (rewrite ?i64_small; lia); [| done]. do 3 f_equal. lia.
Qed.

(** What the counting loop leaves, when no client has an old entry. *)
Definition counted (es : list entry) (expect skipped expect' skipped' : gmap Z Z) : Prop :=
  (forall c, at_key expect' c = next_of (at_key expect c) (of_client c es)) /\
  (forall c, at_key skipped' c = at_key skipped c +
       (next_of (at_key expect c) (of_client c es) - at_key expect c - zlen (of_client c es))) /\
  (forall c, is_Some (expect' !! c) <-> is_Some (expect !! c) \/ of_client c es <> []).

Definition bounded (expect skipped : gmap Z Z) : Prop :=
  forall c, 0 <= at_key skipped c <= at_key expect c /\ at_key expect c <= 2 ^ 62.

Lemma ascends_cons e es expect : at_key expect (en_Id e) <= en_N e ->
  (forall c, ascends (at_key expect c) (of_client c (e :: es))) <->
  (forall c, ascends (at_key (<[en_Id e := en_N e + 1]> expect) c) (of_client c es)).
Proof.
  intros Hx. split; intros H c; specialize (H c); rewrite at_insert, of_client_cons in *.
  - destruct (decide (en_Id e = c)) as [<-|Hne]; [rewrite decide_True by done; by destruct H | by rewrite decide_False].
  - destruct (decide (en_Id e = c)) as [<-|Hne]; [rewrite decide_True in H by done; by split | by rewrite decide_False in H].
Qed.

Lemma count_entries_spec es : forall expect skipped, Forall small_entry es -> bounded expect skipped ->
  (exists p, count_entries es expect skipped = Ok p /\ (forall c, ascends (at_key expect c) (of_client c es)) /\
     counted es expect skipped p.1 p.2) \/
  (count_entries es expect skipped = Panic /\ ~ forall c, ascends (at_key expect c) (of_client c es)).
Proof.
  induction es as [|e es IH]; intros expect skipped Hes Hb.
  { left. exists (expect, skipped). split; [done |]. split; [done |].
    split_and!; intros c; simpl; [done | unfold zlen; simpl; lia | tauto]. }
  inversion_clear Hes as [|? ? He Hes']. simpl. rewrite count_entry_spec by done.
  destruct (decide (at_key expect (en_Id e) <= en_N e)) as [Hx|Hx].
  2: { right. split; [done |]. intros H. specialize (H (en_Id e)). rewrite of_client_cons, decide_True in H by done.
       by destruct H. }
  set (skipped1 := if decide _ then _ else _). simpl.
  assert (forall c, at_key skipped1 c = if decide (c = en_Id e) then at_key skipped c + (en_N e - at_key expect c) else at_key skipped c) as Hsk.
  { intros c. subst skipped1. destruct (decide (at_key expect (en_Id e) = en_N e)) as [E|E].
    - case_decide as Hc; [subst c; lia | done].
    - rewrite at_insert. case_decide as Hc; [by subst c | done]. }
  destruct (IH (<[en_Id e := en_N e + 1]> expect) skipped1) as [(p & E & Ha & H1 & H2 & H3)|[E Ha]].
  - done.
  - intros c. rewrite Hsk, at_insert. specialize (Hb c). destruct He. case_decide as Hc; [subst c; lia | lia].
  - left. exists p. split; [done |]. split; [by apply ascends_cons |]. split_and!; intros c.
    + rewrite H1, at_insert, of_client_cons. destruct (decide (en_Id e = c)) as [<-|Hne]; [by rewrite decide_True | by rewrite decide_False].
    + rewrite H2, Hsk, at_insert, of_client_cons.
      destruct (decide (en_Id e = c)) as [<-|Hne]; [| by rewrite !decide_False].
      rewrite !decide_True by done. rewrite zlen_cons.
      change (next_of (at_key expect (en_Id e)) (en_N e :: of_client (en_Id e) es)) with (next_of (en_N e + 1) (of_client (en_Id e) es)). lia.
    + rewrite H3, of_client_cons. destruct (decide (en_Id e = c)) as [<-|Hne].
      * rewrite lookup_insert_eq. split; [by right | by left].
      * by rewrite lookup_insert_ne.
  - right. split; [done |]. by rewrite ascends_cons.
Qed.

Lemma check_clients_spec rs skipped l : check_clients rs skipped l = Ok () <->
  forall c n, (c, n) ∈ l -> check_client rs skipped c n = Ok ().
Proof.
  induction l as [|[c n] l IH]; simpl.
  - split; [by intros _ c n ?%elem_of_nil | done].
  - split.
    + intros H c' n' [[= -> ->]|Hin]%elem_of_cons; destruct (check_client rs skipped c n) as [[]|] eqn:E; try done.
      by apply IH.
    + intros H. rewrite (H c n) by apply list_elem_of_here. simpl. apply IH. intros c' n' Hin. by apply H, list_elem_of_further.
Qed.

Lemma init_counts_at n c : at_key (init_counts n) c = 0.
Proof.
  unfold at_key. destruct (init_counts n !! c) as [x|] eqn:E; [| done]. simpl.
  apply elem_of_list_to_map_2, list_elem_of_fmap in E as (i & [= -> ->] & _). done.
Qed.

Lemma init_counts_dom n c : is_Some (init_counts n !! c) <-> 0 <= c < n.
Proof.
  split.
  - intros [x E]. apply elem_of_list_to_map_2, list_elem_of_fmap in E as (i & [= -> ->] & Hi%elem_of_seqZ). lia.
  - intros Hc. destruct (init_counts n !! c) eqn:E; [done | exfalso].
    apply not_elem_of_list_to_map_2 in E. apply E, list_elem_of_fmap. exists (c, 0). split; [done |].
    apply list_elem_of_fmap. exists c. split; [done |]. apply elem_of_seqZ. lia.
Qed.

(** One client's part of the verdict. *)
Definition client_ok (es : list entry) (rs : list ClntRes) (c : Z) : Prop := exists r, zlookup rs c = Some r /\
  next_of 0 (of_client c es) - zlen (of_client c es) <= Nmaybe r /\ next_of 0 (of_client c es) <= Nok r + Nmaybe r.

Definition small_res (r : ClntRes) : Prop := 0 <= Nok r < 2 ^ 62 /\ 0 <= Nmaybe r < 2 ^ 62.

Lemma check_client_spec rs skipped c n : Forall small_res rs ->
  check_client rs skipped c n = Ok () <->
  exists r, zlookup rs c = Some r /\ at_key skipped c <= Nmaybe r /\ n <= Nok r + Nmaybe r.
Proof.
  intros Hrs. unfold check_client, slice_get. destruct (zlookup rs c) as [r|] eqn:E; simpl.
  - assert (small_res r) as [H1 H2].
    { unfold zlookup in E. case_decide; [| done]. by eapply (proj1 (Forall_lookup _ _)). }
    rewrite i64_small by lia. repeat case_decide; split; try done; try (intros (r' & [= <-] & ?); lia).
    intros _. exists r. split; [done | lia].
  - split; [done | by intros (? & ? & _)].
Qed.

Lemma CheckAppends_spec es nclnt rs ver : Forall small_entry es -> Forall small_res rs ->
  CheckAppends es nclnt rs ver = Ok () <->
    (forall c, ascends 0 (of_client c es)) /\ i64 ver = zlen es + 1 /\
    (forall c, 0 <= c < nclnt \/ of_client c es <> [] -> client_ok es rs c).
Proof.
  intros Hes Hrs. unfold CheckAppends.
  destruct (count_entries_spec es (init_counts nclnt) (init_counts nclnt) Hes) as [(p & -> & Ha & H1 & H2 & H3)|[-> Ha]].
  { intros c. rewrite init_counts_at. lia. }
  2: { split; [done |]. intros [H _]. exfalso. apply Ha. intros c. by rewrite init_counts_at. }
  setoid_rewrite init_counts_at in Ha. setoid_rewrite init_counts_at in H1. setoid_rewrite init_counts_at in H2.
  setoid_rewrite init_counts_dom in H3. simpl.
  assert (forall c n, p.1 !! c = Some n -> check_client rs p.2 c n = Ok () <-> client_ok es rs c) as Hc.
  { intros c n Hn. rewrite check_client_spec by done. unfold client_ok.
    assert (n = next_of 0 (of_client c es)) as -> by (rewrite <- H1; unfold at_key; by rewrite Hn).
    split; intros (r & ? & ? & ?); exists r; specialize (H2 c); split_and!; try done; lia. }
  destruct (decide (zlen es + 1 <> i64 ver)) as [Hv|Hv]; [split; [done | lia] |].
  rewrite check_clients_spec. setoid_rewrite elem_of_map_to_list. split.
  - intros H. split_and!; [done | lia |]. intros c [n Hn]%H3. apply (Hc c n Hn). by apply H.
  - intros (_ & _ & H) c n Hn. apply (Hc c n Hn). apply H, H3. eauto.
Qed.

(** ** Properties *)

(** [PutAtLeastOnce] terminates and does what its name says.  For a
    writer alone on its key that starts at or below the key's version,
    it returns as soon as as many attempts as it lags behind, and one
    more, were not cut off ([ErrMaybe]); the key then holds the value
    with the returned version, and no other key changed. *)
Theorem PutAtLeastOnce_terminates (svc : KVService) calls key value me ver w :
  0 <= ver <= version_of (kv w) key -> version_of (kv w) key + zlen calls < 2 ^ 64 - 1 ->
  version_of (kv w) key - ver < zlen (certain calls) ->
  exists w' ver', PutAtLeastOnce calls key value ver me w = Ok (w', Some ver') /\
    version_of (kv w) key < ver' /\ kv w' = <[key := mkValue value ver']> (kv w).
Proof. apply PutAtLeastOnce_ends. Qed.

Definition ex_world (kv : kv_map) : World := mkWorld kv 0 (Some []).
Definition ex_call (maybe : bool) : CallNet := mkCallNet maybe 1 2.

Lemma PutAtLeastOnce_terminates_witness :
  let w := ex_world {[ "a" := mkValue "x" 1 ]} in
  exists w' ver', PutAtLeastOnce (svc := kvsrv_service) [ex_call true; ex_call false; ex_call true; ex_call false] "a" "y" 0 7 w = Ok (w', Some ver') /\
    version_of (kv w) "a" < ver' /\ kv w' = <["a" := mkValue "y" ver']> (kv w).
Proof.
  apply (PutAtLeastOnce_terminates kvsrv_service [ex_call true; ex_call false; ex_call true; ex_call false] "a" "y" 7 0
    (ex_world {[ "a" := mkValue "x" 1 ]})); vm_compute; intuition congruence.
Defined.

(** The spread puts of a fresh clerk pass their own check: when no key is
    present before, every [CheckGet] finds its value at version 1, however
    often the puts reported [ErrMaybe]. *)
Theorem SpreadPutsSize_passes (svc : KVService) puts gets n va w :
  length puts = n -> length va = n -> (forall k, k ∈ MakeKeys n -> kv w !! k = None) ->
  exists w', SpreadPutsSize puts gets n va w = Ok (w', (MakeKeys n, va)) /\ NoDup (MakeKeys n) /\
    kv w' = list_to_map (zip (MakeKeys n) ((fun v => mkValue v 1) <$> va)) ∪ kv w.
Proof.
  intros Hp Hva Hk. pose proof (MakeKeys_NoDup n) as Hn.
  assert (length (MakeKeys n) = n) as Hlen by (unfold MakeKeys; by rewrite length_fmap, length_seq).
  pose proof (spread_puts_kv puts (MakeKeys n) va w ltac:(lia) ltac:(lia) Hn Hk) as E. unfold SpreadPutsSize.
  destruct (spread_checks_pass gets (MakeKeys n) va (spread_puts puts (MakeKeys n) va w)) as (w' & E' & Ekv).
  - intros i k v Hi Hv. rewrite E. apply lookup_union_Some_l. apply elem_of_list_to_map_1.
    + by rewrite fst_zip by (rewrite length_fmap; lia).
    + apply list_elem_of_lookup. exists i. apply lookup_zip_Some. split; [done |]. by rewrite list_lookup_fmap, Hv.
  - rewrite E'. simpl. exists w'. split_and!; [done | done | by rewrite Ekv].
Qed.

Lemma SpreadPutsSize_passes_witness :
  exists w', SpreadPutsSize (svc := kvsrv_service) [ex_call true; ex_call false] [ex_call false; ex_call false] 2 ["x"; "y"] (ex_world ∅)
      = Ok (w', (["k0"; "k1"], ["x"; "y"])) /\ kv w' !! "k1" = Some (mkValue "y" 1).
Proof.
  destruct (SpreadPutsSize_passes kvsrv_service [ex_call true; ex_call false] [ex_call false; ex_call false] 2 ["x"; "y"] (ex_world ∅))
    as (w' & E & _ & Hkv); [reflexivity | reflexivity | intros k _; apply lookup_empty |].
  exists w'. split; [exact E |]. rewrite Hkv. vm_compute. reflexivity.
Defined.

(** [CheckAppends] decides what its comment describes: it passes exactly
    if each client's numbers ascend, there is one entry per put after the
    first, and for every client the numbers skipped are at most its uncertain
    puts and the last number is one of the puts it made. *)
Theorem CheckAppends_iff es nclnt rs ver : Forall small_entry es -> Forall small_res rs ->
  CheckAppends es nclnt rs ver = Ok () <->
    (forall c, StronglySorted Z.lt (of_client c es)) /\ i64 ver = zlen es + 1 /\
    (forall c, 0 <= c < nclnt \/ of_client c es <> [] -> client_ok es rs c).
Proof.
  intros Hes Hrs. rewrite CheckAppends_spec by done.
  assert (forall c, ascends 0 (of_client c es) <-> StronglySorted Z.lt (of_client c es)) as H.
  { intros c. apply ascends_sorted. apply Forall_forall.
    intros x (e & -> & [_ He]%list_elem_of_filter)%list_elem_of_In%list_elem_of_fmap.
    apply list_elem_of_In in He. by destruct (proj1 (Forall_forall _ _) Hes e He). }
  setoid_rewrite H. done.
Qed.

Lemma CheckAppends_iff_witness :
  let es := [mkEntryN 0 0; mkEntryN 1 1; mkEntryN 0 2] in
  let rs := [mkClntRes 2 1; mkClntRes 1 1] in
  CheckAppends es 2 rs 4 = Ok () /\ StronglySorted Z.lt (of_client 0 es) /\ client_ok es rs 1.
Proof.
  split; [vm_compute; reflexivity |].
  destruct (CheckAppends_iff [mkEntryN 0 0; mkEntryN 1 1; mkEntryN 0 2] 2 [mkClntRes 2 1; mkClntRes 1 1] 4) as [H _].
  - repeat constructor; simpl; lia.
  - repeat constructor; simpl; lia.
  - destruct H as (H1 & _ & H3); [vm_compute; reflexivity |]. split; [apply H1 | apply H3; left; lia].
Defined.

(** The two sides that [Partitioner] draws are the servers, each on
    exactly one side. *)
Lemma Partitioner_sides_partition rands : Forall (fun r => 0 <= r) rands ->
  let p := Partitioner_sides rands in
  forall j, 0 <= j < zlen rands -> (j ∈ p.1 /\ j ∉ p.2) \/ (j ∉ p.1 /\ j ∈ p.2).
Proof.
  intros Hr p j Hj. subst p. unfold Partitioner_sides. simpl. rewrite !elem_of_side.
  assert (exists r, rands !! Z.to_nat j = Some r /\ 0 <= r) as (r & Hrj & Hr0).
  { destruct (lookup_lt_is_Some_2 rands (Z.to_nat j)) as [r E]; [unfold zlen in Hj; lia |].
    exists r. split; [done |]. by eapply (proj1 (Forall_lookup _ _) Hr). }
  unfold zlookup. rewrite decide_True by lia. rewrite list_lookup_fmap, Hrj. simpl.
  rewrite Z.rem_mod_nonneg by lia. pose proof (Z.mod_pos_bound r 2 ltac:(lia)).
  destruct (decide (r mod 2 = 0)) as [->|?]; [left | right]; split; congruence || (f_equal; lia) || (intros [=]; lia).
Qed.

(** The counter of a test counts a recorded put twice, once in the
    [TestClerk] and once in the recording function, but a put of
    [PutAtLeastOnce] once. *)
Lemma Put_counts_twice (svc : KVService) c key value ver cli w : 0 <= ops w < 2 ^ 30 ->
  ops (Put c key value ver cli w).1 = ops w + 2 /\ ops (Test_Put c key value ver cli w).1 = ops w + 1.
Proof.
  intros Hb. unfold Put, Test_Put, TestClerk_Put, OpInc. destruct (clerk_put _ _ _). simpl.
  rewrite (Z.mod_small (ops w + 1 + 2 ^ 31)) by lia. rewrite Z.mod_small by lia. lia.
Qed.
