(* ===== verification/KvTestRun.v ===== *)
(** * Racing test clients ([kvtest1/kvtest.go])

    [OneClientPut] and [OneClientAppend] as run by [SpawnClientsAndWait]:
    any number of clients, their calls interleaved in any order, and
    requests that clerks have given up on still arriving.  The checks the
    clients make on the way never fail, and neither do the final checks
    [CheckPutConcurrent] and [CheckAppends]. *)
From Stdlib Require Import Ascii.
From S2P Require Import Prelude Kv KvClerk KvCalls KvModel KvTest.
Import Rpc.
#[local] Open Scope Z_scope.

(** ** Sums over the clients *)
Definition total {A} (f : A -> Z) (l : list A) : Z := foldr (fun x n => f x + n) 0 l.

Lemma total_insert {A} (f : A -> Z) l i x y : l !! i = Some x -> total f (<[i := y]> l) = total f l - f x + f y.
Proof.
  revert i. induction l as [|z l IH]; intros [|i] H; simplify_eq/=; [lia |]. rewrite (IH i H). lia.
Qed.

Lemma total_nonneg {A} (f : A -> Z) l : (forall x, x ∈ l -> 0 <= f x) -> 0 <= total f l.
Proof.
  induction l as [|x l IH]; intros H; simpl; [lia |].
  pose proof (H x (list_elem_of_here _ _)). specialize (IH (fun y Hy => H y (list_elem_of_further _ _ _ Hy))). lia.
Qed.

Lemma total_zero {A} (f : A -> Z) l : Forall (fun x => f x = 0) l -> total f l = 0.
Proof. induction 1; simpl; lia. Qed.

Section Run.
Context `{svc : !KVService}.

(** What a recorded put does to the servers' map. *)
Lemma Put_kv c key value ver me w :
  (kv (Put c key value ver me w).1, (Put c key value ver me w).2) =
  clerk_put (c_maybe c) (mkPutArgs key value ver) (kv w).
Proof. unfold Put, TestClerk_Put. simpl. by destruct (clerk_put _ _ _). Qed.

Lemma GetJson_some {A} `{!Json A} c key me w v a : kv w !! key = Some v -> Unmarshal (value_ v) = Some a ->
  exists w', GetJson c key me w = Ok (w', (a, version_ v)) /\ kv w' = kv w.
Proof.
  intros Hk Ha. unfold GetJson, Get, TestClerk_Get. simpl. rewrite svc_get_spec. simpl. rewrite Hk. simpl.
  rewrite Ha. eexists. by split.
Qed.

(** Requests that can no longer take effect. *)
Definition stale (kv : kv_map) (args : PutArgs) : Prop := 0 <= pa_Version args < version_of kv (pa_Key args).

(** A put of a version that was there: the register as it was, or one
    version on. *)
Lemma Put_result c key value ver me w : 0 <= ver <= version_of (kv w) key -> ver < 2 ^ 64 - 1 ->
  let w' := (Put c key value ver me w).1 in let err := (Put c key value ver me w).2 in
  ver < version_of (kv w') key /\ (c_maybe c = false -> err <> ErrMaybe) /\
  ((kv w' = <[key := mkValue value (ver + 1)]> (kv w) /\ ver = version_of (kv w) key /\ (err = OK \/ err = ErrMaybe)) \/
   (kv w' = kv w /\ ver < version_of (kv w) key /\ (err = ErrVersion \/ err = ErrMaybe))).
Proof.
  intros Hv Hb w' err. pose proof (Put_kv c key value ver me w) as Hput. fold w' err in Hput.
  destruct (clerk_put_cases (c_maybe c) (mkPutArgs key value ver) (kv w)) as [(E & E1 & E2)|(E & E1 & E2)];
    rewrite <- Hput in E1, E2; simpl in E, E1, E2.
  - rewrite put_hits in E1 by (try done; lia). split_and!.
    + unfold version_of. rewrite E1, lookup_insert_eq. simpl. lia.
    + intros Hc. by rewrite E2, Hc.
    + left. rewrite E2. split_and!; [done | done |]. destruct (c_maybe c); auto.
  - assert (is_Some (kv w !! key)) as [v Hk].
    { unfold version_of in *. destruct (kv w !! key); [by eauto | simpl in *; lia]. }
    rewrite Hk in E2. split_and!.
    + rewrite E1. lia.
    + intros Hc. by rewrite E2, Hc.
    + right. rewrite E2. split_and!; [done | lia |]. destruct (c_maybe c); auto.
Qed.

Lemma version_insert kv k v : version_of (<[k := v]> kv) k = version_ v.
Proof. unfold version_of. by rewrite lookup_insert_eq. Qed.

(** Versions never go back, and a version has one value. *)
Record evolves (kv kv' : kv_map) : Prop := mkEvolves {
  ev_version : forall k, version_of kv k <= version_of kv' k;
  ev_value : forall k v, kv !! k = Some v -> exists v', kv' !! k = Some v' /\ (version_ v' = version_ v -> v' = v);
}.

Lemma kv_evolves_refl kv : evolves kv kv.
Proof. split; [done | eauto]. Qed.

Lemma kv_evolves_insert kv key value : (forall v, kv !! key = Some v -> 0 <= version_ v) ->
  evolves kv (<[key := mkValue value (version_of kv key + 1)]> kv).
Proof.
  intros H. split; intros k.
  - unfold version_of. destruct (decide (k = key)) as [->|?].
    + rewrite lookup_insert_eq. simpl. lia.
    + by rewrite lookup_insert_ne.
  - intros v Hk. destruct (decide (k = key)) as [->|?].
    + rewrite lookup_insert_eq. eexists. split; [done |]. unfold version_of. rewrite Hk. simpl. lia.
    + rewrite lookup_insert_ne by done. eauto.
Qed.

Lemma stale_evolves kv kv' args : evolves kv kv' -> stale kv args -> stale kv' args.
Proof. intros E H. unfold stale in *. pose proof (ev_version _ _ E (pa_Key args)). lia. Qed.

(** ** [OneClientPut] *)
Section Puts.
Context `{!Json EntryV}.
Variables (ka : list string) (randomkeys : bool).

Inductive PPhase :=
| PSelect                                    (* at the select *)
| PAttempt (k : string) (ver : Z)            (* in OnePut, before its put *)
| PRead (k : string) (ver : Z) (err : Err)   (* after the put returned *)
| PReturned
| PFailed.                                   (* a check called Fatalf *)

Record PClient := mkPClient { p_verm : gmap string Z; p_res : ClntRes; p_phase : PPhase }.

Record PSys := mkPSys { p_world : World; p_clients : list PClient; p_late : list PutArgs }.
Implicit Types (s : PSys) (cl : PClient).

Definition p_start : PClient := mkPClient ∅ (mkClntRes 0 0) PSelect.

(** [k := ka[0]], or a random one. *)
Definition key_choice (k : string) : Prop := if randomkeys then k ∈ ka else head ka = Some k.

Definition set_phase (ph : PPhase) cl : PClient := mkPClient (p_verm cl) (p_res cl) ph.
Definition set_client (i : nat) cl (w : World) s : PSys := mkPSys w (<[i := cl]> (p_clients s)) (p_late s).

Definition p_put (c : CallNet) (i : nat) (k : string) (ver : Z) cl s : PSys :=
  let args := mkPutArgs k (Marshal (mkEntryV (Z.of_nat i) ver)) ver in
  match OnePut_put c (Z.of_nat i) k ver (p_world s) with
  | Ok (w, err) => mkPSys w (<[i := set_phase (PRead k ver err) cl]> (p_clients s)) (args :: p_late s)
  | Panic => set_client i (set_phase PFailed cl) (p_world s) s
  end.

Definition p_get (c : CallNet) (i : nat) (k : string) (ver : Z) (err : Err) cl s : PSys :=
  match OnePut_get c (Z.of_nat i) k ver err (p_world s) with
  | Ok (w, inl (ver, ok)) =>
      let res := p_res cl in
      let res := if (ok : bool) then mkClntRes (i64 (Nok res + 1)) (Nmaybe res) else mkClntRes (Nok res) (i64 (Nmaybe res + 1)) in
      set_client i (mkPClient (<[k := ver]> (p_verm cl)) res PSelect) w s
  | Ok (w, inr ver) => set_client i (set_phase (PAttempt k ver) cl) w s
  | Panic => set_client i (set_phase PFailed cl) (p_world s) s
  end.

Definition p_arrive (args : PutArgs) s : PSys :=
  let w := p_world s in mkPSys (mkWorld (svc_put args (kv w)).1 (ops w) (oplog w)) (p_clients s) (p_late s).

Inductive p_step s : PSys -> Prop :=
| p_choose i cl k :
    p_clients s !! i = Some cl -> p_phase cl = PSelect -> key_choice k ->
    p_step s (set_client i (set_phase (PAttempt k (default 0 (p_verm cl !! k))) cl) (p_world s) s)
| p_do_put c i cl k ver :
    p_clients s !! i = Some cl -> p_phase cl = PAttempt k ver -> p_step s (p_put c i k ver cl s)
| p_do_get c i cl k ver err :
    p_clients s !! i = Some cl -> p_phase cl = PRead k ver err -> p_step s (p_get c i k ver err cl s)
| p_done i cl :
    p_clients s !! i = Some cl -> p_phase cl = PSelect -> p_step s (set_client i (set_phase PReturned cl) (p_world s) s)
| p_late_arrives args : args ∈ p_late s -> p_step s (p_arrive args s).

(** What a client counted, with the put it has not counted yet. *)
Definition oks cl : Z := Nok (p_res cl) + match p_phase cl with PRead _ _ err => if decide (err = OK) then 1 else 0 | _ => 0 end.
Definition maybes cl : Z := Nmaybe (p_res cl) + match p_phase cl with PRead _ _ err => if decide (err = ErrMaybe) then 1 else 0 | _ => 0 end.

(** Versions and counters are not at the end of their types. *)
Definition p_small s : Prop := (forall k, version_of (kv (p_world s)) k < 2 ^ 64 - 2) /\
  forall cl, cl ∈ p_clients s -> Nok (p_res cl) < 2 ^ 61 /\ Nmaybe (p_res cl) < 2 ^ 61.

Definition p_quiet s s' : Prop := p_step s s' /\ p_small s.

(** The test starts from any map of such values. *)
Definition p_values (kv : kv_map) : Prop := forall k v, kv !! k = Some v ->
  0 < version_ v /\ is_Some (Unmarshal (A := EntryV) (value_ v)).

Definition p_init (n : nat) (kv0 : kv_map) s : Prop :=
  kv (p_world s) = kv0 /\ p_clients s = replicate n p_start /\ Forall (stale kv0) (p_late s) /\ p_values kv0.

Definition client_inv (kv : kv_map) (i : nat) cl : Prop :=
  (forall k x, p_verm cl !! k = Some x -> 0 <= x <= version_of kv k) /\
  (0 <= Nok (p_res cl) /\ 0 <= Nmaybe (p_res cl)) /\
  match p_phase cl with
  | PAttempt k ver => key_choice k /\ 0 <= ver <= version_of kv k
  | PRead k ver err => key_choice k /\ 0 <= ver /\ (err = OK \/ err = ErrVersion \/ err = ErrMaybe) /\
      exists v, kv !! k = Some v /\ ver < version_ v /\
        (err = OK -> version_ v = ver + 1 -> value_ v = Marshal (mkEntryV (Z.of_nat i) ver))
  | PFailed => False
  | _ => True
  end.

Record p_inv (kv0 : kv_map) s : Prop := mkPInv {
  pi_values : p_values (kv (p_world s));
  pi_late : Forall (stale (kv (p_world s))) (p_late s);
  pi_client : forall i cl, p_clients s !! i = Some cl -> client_inv (kv (p_world s)) i cl;
  pi_count : randomkeys = false -> forall k0, head ka = Some k0 ->
    total oks (p_clients s) <= version_of (kv (p_world s)) k0 - version_of kv0 k0 <=
      total oks (p_clients s) + total maybes (p_clients s);
}.

Lemma client_evolves kv kv' i cl : evolves kv kv' -> client_inv kv i cl -> client_inv kv' i cl.
Proof.
  intros E (H1 & H2 & H3). split; [| split; [done |]].
  - intros k x Hx. specialize (H1 k x Hx). pose proof (ev_version _ _ E k). lia.
  - destruct (p_phase cl) as [|k ver|k ver err| |]; try done.
    + destruct H3 as [? H3]. pose proof (ev_version _ _ E k). split; [done | lia].
    + destruct H3 as (? & ? & ? & v & Hk & Hv & Hval). split_and!; try done.
      destruct (ev_value _ _ E k v Hk) as (v' & Hk' & Hsame). pose proof (ev_version _ _ E k) as Hle.
      unfold version_of in Hle. rewrite Hk, Hk' in Hle. simpl in Hle.
      exists v'. split_and!; [done | lia |]. intros Herr Hv'. rewrite Hsame by lia. apply Hval; [done | lia].
Qed.

Lemma p_inv_update kv0 s i cl cl' w' late' : p_inv kv0 s -> p_clients s !! i = Some cl ->
  evolves (kv (p_world s)) (kv w') -> p_values (kv w') -> Forall (stale (kv w')) late' ->
  client_inv (kv w') i cl' ->
  (randomkeys = false -> forall k0, head ka = Some k0 ->
     let d := version_of (kv w') k0 - version_of (kv (p_world s)) k0 in
     oks cl' - oks cl <= d <= oks cl' - oks cl + (maybes cl' - maybes cl)) ->
  p_inv kv0 (mkPSys w' (<[i := cl']> (p_clients s)) late').
Proof.
  intros [Hval Hlate Hcl Hcount] Hi E Hv Hl Hc Hd. split; simpl; try done.
  - intros j cl1 [(<- & <- & _)|[Hne Hj]]%list_lookup_insert_Some; [done |]. eapply client_evolves; [done | by apply Hcl].
  - intros Hr k0 Hk. specialize (Hcount Hr k0 Hk). specialize (Hd Hr k0 Hk). simpl in Hd.
    rewrite !(total_insert _ _ _ _ _ Hi). lia.
Qed.

Lemma p_values_positive kv k v : p_values kv -> kv !! k = Some v -> 0 <= version_ v.
Proof. intros H Hk. destruct (H k v Hk). lia. Qed.

Lemma p_inv_put kv0 s c i cl k ver : p_inv kv0 s -> p_small s -> p_clients s !! i = Some cl ->
  p_phase cl = PAttempt k ver -> p_inv kv0 (p_put c i k ver cl s).
Proof.
  intros I [Hs _] Hi Hph. destruct (pi_client _ _ I i cl Hi) as (H1 & H2 & H3). rewrite Hph in H3.
  destruct H3 as [Hkc Hver]. specialize (Hs k).
  destruct (Put_result c k (Marshal (mkEntryV (Z.of_nat i) ver)) ver (Z.of_nat i) (p_world s) Hver) as (Hgt & Hnm & Hcases); [lia |].
  unfold p_put, OnePut_put, PutJson.
  destruct (Put c k (Marshal (mkEntryV (Z.of_nat i) ver)) ver (Z.of_nat i) (p_world s)) as [w' err]. simpl in *.
  rewrite decide_False by (intros Hn; apply Hn; destruct Hcases as [(_ & _ & [|])|(_ & _ & [|])]; auto).
  assert (evolves (kv (p_world s)) (kv w')) as E.
  { destruct Hcases as [(-> & -> & _)|(-> & _)]; [| apply kv_evolves_refl].
    apply kv_evolves_insert. intros v. apply p_values_positive, I. }
  assert (exists v, kv w' !! k = Some v /\ ver < version_ v /\
    (err = OK -> version_ v = ver + 1 -> value_ v = Marshal (mkEntryV (Z.of_nat i) ver))) as Hv.
  { destruct Hcases as [(-> & -> & _)|(Ekv & Hlt & He)].
    - rewrite lookup_insert_eq. eexists. split_and!; [done | simpl; lia | done].
    - rewrite Ekv. unfold version_of in Hlt. destruct (kv (p_world s) !! k) as [v|]; [| simpl in Hlt; lia].
      exists v. split_and!; [done | done |]. intros ->. by destruct He. }
  apply (p_inv_update kv0 s i cl); try done.
  - destruct Hcases as [(-> & -> & _)|(-> & _)]; [| apply I]. intros k' v' [(<- & <-)|[_ Hk']]%lookup_insert_Some.
    + simpl. split; [lia |]. rewrite Unmarshal_Marshal. eauto.
    + by apply (pi_values _ _ I) in Hk'.
  - constructor; [split; simpl; lia |]. eapply Forall_impl; [| apply I]. intros args. by apply stale_evolves.
  - split; [| split; [done |]]; simpl.
    + intros k' x Hx. specialize (H1 k' x Hx). pose proof (ev_version _ _ E k'). lia.
    + split_and!; [done | lia | destruct Hcases as [(_ & _ & [|])|(_ & _ & [|])]; auto | done].
  - intros Hr k0 Hk0. unfold key_choice in Hkc. rewrite Hr, Hk0 in Hkc. injection Hkc as ->.
    unfold oks, maybes. rewrite Hph. simpl. destruct Hcases as [(-> & Hv0 & He)|(-> & _ & He)].
    + rewrite version_insert. simpl. destruct He as [->| ->]; simpl; lia.
    + destruct He as [->| ->]; simpl; lia.
Qed.

Lemma p_inv_get kv0 s c i cl k ver err : p_inv kv0 s -> p_small s -> p_clients s !! i = Some cl ->
  p_phase cl = PRead k ver err -> p_inv kv0 (p_get c i k ver err cl s).
Proof.
  intros I [Hs Hsc] Hi Hph. destruct (pi_client _ _ I i cl Hi) as (H1 & H2 & H3). rewrite Hph in H3.
  destruct H3 as (Hkc & Hver & He & v & Hk & Hgt & Hval). specialize (Hs k).
  destruct (Hsc cl) as [Hs1 Hs2]; [by eapply list_elem_of_lookup_2 |].
  destruct (pi_values _ _ I k v Hk) as [Hpos [e Hun]].
  destruct (GetJson_some c k (Z.of_nat i) (p_world s) v e Hk Hun) as (w' & Hget & Hkv).
  assert (version_of (kv (p_world s)) k = version_ v) as Hvk by (unfold version_of; by rewrite Hk).
  unfold p_get, OnePut_get. rewrite Hget. simpl. rewrite u64_small by lia.
  (* all ways on keep the map *)
  assert (forall cl', client_inv (kv (p_world s)) i cl' -> oks cl' = oks cl -> maybes cl' = maybes cl ->
    p_inv kv0 (set_client i cl' w' s)) as Hgo.
  { intros cl' Hc' Ho Hm. apply (p_inv_update kv0 s i cl); rewrite ?Hkv; [done | done | apply kv_evolves_refl | apply I | apply I | done |].
    intros _ k0 _. simpl. lia. }
  assert (forall k' x, <[k := version_ v]> (p_verm cl) !! k' = Some x -> 0 <= x <= version_of (kv (p_world s)) k') as Hverm.
  { intros k' x [(<- & <-)|[_ Hx]]%lookup_insert_Some; [lia | by apply H1]. }
  destruct He as [->|[->| ->]]; unfold oks, maybes in Hgo; rewrite Hph in Hgo; simpl in Hgo.
  - destruct (decide (version_ v = ver + 1)) as [Hv1|Hv1].
    + rewrite decide_True by done. pose proof (Hval eq_refl Hv1) as Hm. rewrite Hm, Unmarshal_Marshal in Hun.
      injection Hun as <-. simpl. rewrite decide_False by (intros [? _]; done).
      apply Hgo; simpl; rewrite ?i64_small by lia; [| lia..].
      by split_and!; simpl; try lia.
    + rewrite decide_False by (intros [_ ?]; lia). rewrite decide_True by auto. simpl.
      apply Hgo; simpl; rewrite ?i64_small by lia; [| lia..].
      by split_and!; simpl; try lia.
  - rewrite decide_False by (intros [? _]; done). rewrite decide_False by (intros [?|?]; done).
    apply Hgo; [| done..]. split; [done | split; [done |]]. simpl. split; [done | lia].
  - rewrite decide_False by (intros [? _]; done). rewrite decide_True by auto. simpl.
    apply Hgo; simpl; rewrite ?i64_small by lia; [| lia..].
    by split_and!; simpl; try lia.
Qed.

Lemma p_inv_step kv0 s s' : p_inv kv0 s -> p_quiet s s' -> p_inv kv0 s'.
Proof.
  intros I [H Hs]. destruct H as [i cl k Hi Hph Hk | c i cl k ver Hi Hph | c i cl k ver err Hi Hph | i cl Hi Hph | args Hin].
  - pose proof (pi_client _ _ I i cl Hi) as (H1 & H2 & _).
    apply (p_inv_update kv0 s i cl); [done | done | apply kv_evolves_refl | apply I | apply I | |].
    + split; [done | split; [done |]]. simpl. split; [done |]. destruct (p_verm cl !! k) as [x|] eqn:E; simpl; [by apply H1 |].
      pose proof (pi_values _ _ I k) as Hv. unfold version_of. destruct (kv (p_world s) !! k) as [v|]; simpl; [| lia].
      destruct (Hv v eq_refl). lia.
    + intros _ k0 _. unfold oks, maybes. rewrite Hph. simpl. lia.
  - by apply p_inv_put.
  - by apply p_inv_get.
  - pose proof (pi_client _ _ I i cl Hi) as (H1 & H2 & _).
    apply (p_inv_update kv0 s i cl); [done | done | apply kv_evolves_refl | apply I | apply I | split; [done | by split] |].
    intros _ k0 _. unfold oks, maybes. rewrite Hph. simpl. lia.
  - pose proof (pi_late _ _ I) as Hl. apply list_elem_of_In in Hin. pose proof (proj1 (Forall_forall _ _) Hl args Hin) as Hst.
    unfold p_arrive. rewrite put_again by done. destruct I. by split.
Qed.

Lemma total_start {A} (f : A -> Z) x n : f x = 0 -> total f (replicate n x) = 0.
Proof. intros H. induction n; simpl; [done | lia]. Qed.

Lemma p_inv_init n kv0 s : p_init n kv0 s -> p_inv kv0 s.
Proof.
  intros (Hkv & Hcl & Hl & Hv). split; rewrite ?Hkv, ?Hcl; try done.
  - intros i cl [-> _]%lookup_replicate. split_and!; try done; intros k x; simpl; by rewrite lookup_empty.
  - intros _ k0 _. rewrite !total_start by done. lia.
Qed.

(** If no put returns [ErrMaybe] the clients count none. *)
Definition no_doubt s : Prop := forall cl k ver, cl ∈ p_clients s -> p_phase cl <> PRead k ver ErrMaybe.
Definition counts_none s : Prop := Forall (fun r => Nmaybe r = 0) (p_res <$> p_clients s).

Lemma counts_none_insert s w i cl late : counts_none s -> Nmaybe (p_res cl) = 0 ->
  counts_none (mkPSys w (<[i := cl]> (p_clients s)) late).
Proof. intros H Hc. unfold counts_none in *. simpl. rewrite list_fmap_insert. by apply Forall_insert. Qed.

Lemma counts_none_lookup s i cl : counts_none s -> p_clients s !! i = Some cl -> Nmaybe (p_res cl) = 0.
Proof. intros H Hi. unfold counts_none in H. apply (Forall_lookup_1 (fun r => Nmaybe r = 0) _ i (p_res cl) H). by rewrite list_lookup_fmap, Hi. Qed.

Lemma no_doubt_counts_none n kv0 s :
  reachable (p_init n kv0) (fun s s' => p_quiet s s' /\ no_doubt s) s -> counts_none s.
Proof.
  apply invariant_reachable.
  - intros s0 (_ & Hcl & _). unfold counts_none. rewrite Hcl, fmap_replicate. by apply Forall_replicate.
  - intros s1 s2 Hc [[H _] Hd].
    destruct H as [i cl k Hi Hph Hk | c i cl k ver Hi Hph | c i cl k ver err Hi Hph | i cl Hi Hph | args Hin]; [..| done];
      pose proof (counts_none_lookup _ _ _ Hc Hi) as Hcl.
    + by apply counts_none_insert.
    + unfold p_put. destruct (OnePut_put _ _ _ _ _) as [[w err]|]; by apply counts_none_insert.
    + assert (err <> ErrMaybe) as Hne by (intros ->; by eapply Hd; [eapply list_elem_of_lookup_2 |]).
      unfold p_get. destruct (OnePut_get _ _ _ _ _ _) as [[w [[ver1 ok]|ver1]]|] eqn:E; [| by apply counts_none_insert..].
      apply counts_none_insert; [done |]. simpl. unfold OnePut_get in E. apply res_bind_ok in E as ([w1 [e ver0]] & _ & E).
      destruct ok; [done |]. exfalso. repeat case_decide; simplify_eq; naive_solver.
    + by apply counts_none_insert.
Qed.

Lemma p_reachable n kv0 s : reachable (p_init n kv0) p_quiet s -> p_inv kv0 s.
Proof. apply invariant_reachable; [apply p_inv_init | apply p_inv_step]. Qed.
End Puts.

(** ** [OneClientAppend] *)
Section Appends.
Context `{!Json (list entry)}.

Inductive APhase :=
| ASelect
| AGet                                  (* before reading the list *)
| APut (es : list entry) (ver : Z)      (* read [es] at [ver] *)
| AReturned
| AFailed.

Record AClient := mkAClient { a_i : Z; a_nok : Z; a_nmay : Z; a_phase : APhase }.
Record ASys := mkASys { a_world : World; a_clients : list AClient; a_late : list PutArgs }.
Implicit Types (s : ASys) (cl : AClient).

Definition a_start : AClient := mkAClient 0 0 0 ASelect.
Definition a_set_phase (ph : APhase) cl : AClient := mkAClient (a_i cl) (a_nok cl) (a_nmay cl) ph.
Definition a_set (i : nat) cl (w : World) s : ASys := mkASys w (<[i := cl]> (a_clients s)) (a_late s).

Definition a_get (c : CallNet) (i : nat) cl s : ASys :=
  match GetJson (A := list entry) c "k" (Z.of_nat i) (a_world s) with
  | Ok (w, (es, ver)) => a_set i (a_set_phase (APut es ver) cl) w s
  | Panic => a_set i (a_set_phase AFailed cl) (a_world s) s
  end.

(** The put, and the next iteration if the client does not try again. *)
Definition a_put (c : CallNet) (i : nat) (es : list entry) (ver : Z) cl s : ASys :=
  let es := es ++ [mkEntryN (Z.of_nat i) (a_i cl)] in
  let '(w, err) := PutJson c "k" es ver (Z.of_nat i) (a_world s) in
  let cl :=
    if decide (err = OK) then mkAClient (i64 (a_i cl + 1)) (i64 (a_nok cl + 1)) (a_nmay cl) ASelect
    else if decide (err = ErrMaybe) then mkAClient (i64 (a_i cl + 1)) (a_nok cl) (i64 (a_nmay cl + 1)) ASelect
    else a_set_phase AGet cl in
  mkASys w (<[i := cl]> (a_clients s)) (mkPutArgs "k" (Marshal es) ver :: a_late s).

Definition a_arrive (args : PutArgs) s : ASys :=
  let w := a_world s in mkASys (mkWorld (svc_put args (kv w)).1 (ops w) (oplog w)) (a_clients s) (a_late s).

Inductive a_step s : ASys -> Prop :=
| a_next i cl :
    a_clients s !! i = Some cl -> a_phase cl = ASelect -> a_step s (a_set i (a_set_phase AGet cl) (a_world s) s)
| a_do_get c i cl :
    a_clients s !! i = Some cl -> a_phase cl = AGet -> a_step s (a_get c i cl s)
| a_do_put c i cl es ver :
    a_clients s !! i = Some cl -> a_phase cl = APut es ver -> a_step s (a_put c i es ver cl s)
| a_done i cl :
    a_clients s !! i = Some cl -> a_phase cl = ASelect -> a_step s (a_set i (a_set_phase AReturned cl) (a_world s) s)
| a_late_arrives args : args ∈ a_late s -> a_step s (a_arrive args s).

Definition a_small s : Prop := version_of (kv (a_world s)) "k" < 2 ^ 62 /\
  forall cl, cl ∈ a_clients s -> a_i cl < 2 ^ 61.

Definition a_quiet s s' : Prop := a_step s s' /\ a_small s.

(** The test has put an empty list. *)
Definition a_init (n : nat) s : Prop :=
  kv (a_world s) !! "k" = Some (mkValue (Marshal ([] : list entry)) 1) /\
  a_clients s = replicate n a_start /\ Forall (stale (kv (a_world s))) (a_late s).

Definition a_result cl : ClntRes := mkClntRes (a_nok cl) (a_nmay cl).

(** A client against the list in the register. *)
Record append_inv (es : list entry) (ver : Z) (i : nat) cl : Prop := mkAppendInv {
  ap_ascends : ascends 0 (of_client (Z.of_nat i) es);
  ap_next : next_of 0 (of_client (Z.of_nat i) es) <= a_i cl;
  ap_nok : a_nok cl <= zlen (of_client (Z.of_nat i) es);
  ap_count : a_i cl = a_nok cl + a_nmay cl /\ 0 <= a_nok cl /\ 0 <= a_nmay cl;
  ap_phase : match a_phase cl with
    | APut es0 ver0 => 0 <= ver0 <= ver /\ (ver0 = ver -> es0 = es)
    | AFailed => False
    | _ => True
    end;
}.

Definition a_list s (es : list entry) : Prop := exists value,
  kv (a_world s) !! "k" = Some (mkValue value (zlen es + 1)) /\ Unmarshal value = Some es.

Record a_inv s : Prop := mkAInv {
  ai_list : exists es, a_list s es /\ Forall small_entry es /\
    (forall e, e ∈ es -> 0 <= en_Id e < Z.of_nat (length (a_clients s))) /\
    forall i cl, a_clients s !! i = Some cl -> append_inv es (zlen es + 1) i cl;
  ai_late : Forall (stale (kv (a_world s))) (a_late s);
}.

Lemma of_client_snoc c es e : of_client c (es ++ [e]) = of_client c es ++ (if decide (en_Id e = c) then [en_N e] else []).
Proof. unfold of_client. rewrite filter_snoc, fmap_app. f_equal. by case_decide. Qed.

Lemma next_of_snoc x l n : next_of x (l ++ [n]) = n + 1.
Proof. unfold next_of. by rewrite foldl_app. Qed.

Lemma ascends_snoc x l n : ascends x (l ++ [n]) <-> ascends x l /\ next_of x l <= n.
Proof.
  revert x. induction l as [|y l IH]; intros x; simpl.
  - unfold next_of. simpl. tauto.
  - rewrite IH. change (next_of x (y :: l)) with (next_of (y + 1) l). tauto.
Qed.

(** The register keeps its list. *)
Lemma a_same s es i cl cl' w late' : a_list s es -> Forall small_entry es ->
  (forall e, e ∈ es -> 0 <= en_Id e < Z.of_nat (length (a_clients s))) ->
  (forall j cl, a_clients s !! j = Some cl -> append_inv es (zlen es + 1) j cl) ->
  kv w = kv (a_world s) -> Forall (stale (kv (a_world s))) late' ->
  a_clients s !! i = Some cl -> append_inv es (zlen es + 1) i cl' ->
  a_inv (mkASys w (<[i := cl']> (a_clients s)) late').
Proof.
  intros Hl Hsm Hid Hcl Hkv Hlate Hi Hc'. split; simpl; [| by rewrite Hkv].
  exists es. unfold a_list in *. simpl. rewrite Hkv, length_insert. split_and!; try done.
  intros j cl1 [(<- & <- & _)|[_ Hj]]%list_lookup_insert_Some; auto.
Qed.

Lemma a_inv_get c s i cl : a_inv s -> a_clients s !! i = Some cl -> a_phase cl = AGet -> a_inv (a_get c i cl s).
Proof.
  intros [(es & Hl & Hsm & Hid & Hcl) Hlate] Hi Hph. pose proof Hl as (value & Hk & Hu).
  destruct (GetJson_some c "k" (Z.of_nat i) (a_world s) _ es Hk Hu) as (w' & E & Hkv).
  unfold a_get. rewrite E. apply (a_same s es i cl); try done.
  destruct (Hcl i cl Hi). split; try done. simpl. split; [pose proof (zlen_nonneg es); lia | done].
Qed.

Lemma a_inv_put c s i cl es0 ver0 : a_inv s -> a_small s -> a_clients s !! i = Some cl -> a_phase cl = APut es0 ver0 ->
  a_inv (a_put c i es0 ver0 cl s).
Proof.
  intros [(es & Hl & Hsm & Hid & Hcl) Hlate] [Hs Hsi] Hi Hph. pose proof Hl as (value & Hk & Hu).
  pose proof (Hcl i cl Hi) as HA. pose proof (ap_phase _ _ _ _ HA) as Hp. rewrite Hph in Hp. destruct Hp as [Hver Hsame].
  destruct (ap_count _ _ _ _ HA) as (Hc1 & Hc2 & Hc3). specialize (Hsi cl ltac:(by eapply list_elem_of_lookup_2)).
  assert (version_of (kv (a_world s)) "k" = zlen es + 1) as Hv by (unfold version_of; by rewrite Hk).
  set (es1 := es0 ++ [mkEntryN (Z.of_nat i) (a_i cl)]).
  destruct (Put_result c "k" (Marshal es1) ver0 (Z.of_nat i) (a_world s)) as (Hgt & _ & Hcases); [lia | lia |].
  unfold a_put, PutJson. fold es1.
  destruct (Put c "k" (Marshal es1) ver0 (Z.of_nat i) (a_world s)) as [w' err]. simpl in *.
  rewrite !(i64_small (a_i cl + 1)), (i64_small (a_nok cl + 1)), (i64_small (a_nmay cl + 1)) by lia.
  destruct Hcases as [(Hkv & Hv0 & He)|(Hkv & Hlt & He)].
  - (* it took place *)
    assert (es0 = es) as -> by (apply Hsame; lia).
    assert (evolves (kv (a_world s)) (kv w')) as E.
    { rewrite Hkv, Hv0. apply kv_evolves_insert. intros v. rewrite Hk. intros [= <-]. simpl. pose proof (zlen_nonneg es). lia. }
    assert (zlen es1 = zlen es + 1) as Hlen by (unfold es1; rewrite zlen_app; done).
    split; simpl.
    + exists es1. unfold a_list. simpl. split_and!.
      * exists (Marshal es1). rewrite Hkv, lookup_insert_eq, Unmarshal_Marshal. split; [| done]. do 2 f_equal. lia.
      * apply Forall_app. split; [done |]. constructor; [| constructor]. split; simpl; lia.
      * rewrite length_insert. intros e [?| ->%list_elem_of_singleton]%elem_of_app; [auto |]. simpl.
        apply lookup_lt_Some in Hi. lia.
      * intros j cl1 Hj. apply list_lookup_insert_Some in Hj as [(<- & <- & _)|[Hne Hj]].
        -- assert (of_client (Z.of_nat i) es1 = of_client (Z.of_nat i) es ++ [a_i cl]) as Hof
             by (unfold es1; rewrite of_client_snoc; by rewrite decide_True).
           destruct HA. split; rewrite ?Hof, ?next_of_snoc, ?zlen_app.
           ++ by apply ascends_snoc.
           ++ destruct He as [->| ->]; simpl; lia.
           ++ change (zlen [a_i cl]) with 1. destruct He as [->| ->]; simpl; lia.
           ++ destruct He as [->| ->]; simpl; lia.
           ++ by destruct He as [->| ->].
        -- assert (of_client (Z.of_nat j) es1 = of_client (Z.of_nat j) es) as Hof.
           { unfold es1. rewrite of_client_snoc, decide_False by (simpl; lia). by rewrite app_nil_r. }
           destruct (Hcl j cl1 Hj) as [B1 B2 B3 B4 B5]. split; rewrite ?Hof; try done.
           destruct (a_phase cl1) as [| |es2 ver2| |]; try done. split; lia.
    + constructor; [split; simpl; [lia |] |].
      * rewrite Hkv, version_insert. simpl. lia.
      * eapply Forall_impl; [| exact Hlate]. intros args. by apply stale_evolves.
  - (* it came too late *)
    apply (a_same s es i cl); try done.
    + constructor; [split; simpl; lia | done].
    + destruct HA. destruct He as [->| ->]; simpl; split; simpl; try done; lia.
Qed.

Lemma a_inv_step s s' : a_inv s -> a_quiet s s' -> a_inv s'.
Proof.
  intros I [H Hs]. destruct H as [i cl Hi Hph | c i cl Hi Hph | c i cl es ver Hi Hph | i cl Hi Hph | args Hin].
  - destruct I as [(es & Hl & Hsm & Hid & Hcl) Hlate]. apply (a_same s es i cl); try done. by destruct (Hcl i cl Hi).
  - by apply a_inv_get.
  - by apply a_inv_put.
  - destruct I as [(es & Hl & Hsm & Hid & Hcl) Hlate]. apply (a_same s es i cl); try done. by destruct (Hcl i cl Hi).
  - pose proof (ai_late _ I) as Hl. apply list_elem_of_In in Hin. pose proof (proj1 (Forall_forall _ _) Hl args Hin) as Hst.
    unfold a_arrive. rewrite put_again by done. destruct I. by split.
Qed.

Lemma a_inv_init n s : a_init n s -> a_inv s.
Proof.
  intros (Hk & Hcl & Hl). split; [| done]. exists []. split_and!.
  - exists (Marshal ([] : list entry)). rewrite Unmarshal_Marshal. done.
  - constructor.
  - by intros e ?%elem_of_nil.
  - rewrite Hcl. intros i cl [-> _]%lookup_replicate. by split.
Qed.

Lemma a_reachable n s : reachable (a_init n) a_quiet s -> a_inv s.
Proof. apply invariant_reachable; [apply a_inv_init | apply a_inv_step]. Qed.
End Appends.

(** ** Running the clients *)
Inductive CLabel := CNext (i : nat) (k : string) | CPut (i : nat) (c : CallNet) | CGet (i : nat) (c : CallNet) | CDone (i : nat) | CLate (j : nat).

Definition p_label `{!Json EntryV} (ka : list string) (randomkeys : bool) (l : CLabel) (s : PSys) : option PSys :=
  match l with
  | CNext i k =>
      cl ← p_clients s !! i;
      match p_phase cl with
      | PSelect =>
          if (if randomkeys then bool_decide (k ∈ ka) else bool_decide (head ka = Some k))
          then Some (set_client i (set_phase (PAttempt k (default 0 (p_verm cl !! k))) cl) (p_world s) s) else None
      | _ => None
      end
  | CPut i c =>
      cl ← p_clients s !! i;
      match p_phase cl with
      | PAttempt k ver => Some (p_put c i k ver cl s)
      | _ => None
      end
  | CGet i c =>
      cl ← p_clients s !! i;
      match p_phase cl with PRead k ver err => Some (p_get c i k ver err cl s) | _ => None end
  | CDone i =>
      cl ← p_clients s !! i;
      match p_phase cl with PSelect => Some (set_client i (set_phase PReturned cl) (p_world s) s) | _ => None end
  | CLate j => args ← p_late s !! j; Some (p_arrive args s)
  end.

Lemma p_label_sound `{!Json EntryV} ka randomkeys l s s' :
  p_label ka randomkeys l s = Some s' -> p_step ka randomkeys s s'.
Proof.
  intros H. destruct l as [i k|i c|i c|i|j]; simpl in H; apply bind_Some in H as (x & Hx & H).
  1-4: destruct (p_phase x) eqn:Hph; try done.
  - destruct (if randomkeys then _ else _) eqn:Hb; [| done]. injection H as <-. apply p_choose; [done | done |].
    unfold key_choice. destruct randomkeys; by apply bool_decide_eq_true in Hb.
  - injection H as <-. by apply p_do_put.
  - injection H as <-. by apply p_do_get.
  - injection H as <-. by apply p_done.
  - injection H as <-. apply p_late_arrives. by eapply list_elem_of_lookup_2.
Qed.

Definition a_label `{!Json (list entry)} (l : CLabel) (s : ASys) : option ASys :=
  match l with
  | CNext i _ =>
      cl ← a_clients s !! i;
      match a_phase cl with ASelect => Some (a_set i (a_set_phase AGet cl) (a_world s) s) | _ => None end
  | CGet i c =>
      cl ← a_clients s !! i;
      match a_phase cl with AGet => Some (a_get c i cl s) | _ => None end
  | CPut i c =>
      cl ← a_clients s !! i;
      match a_phase cl with APut es ver => Some (a_put c i es ver cl s) | _ => None end
  | CDone i =>
      cl ← a_clients s !! i;
      match a_phase cl with ASelect => Some (a_set i (a_set_phase AReturned cl) (a_world s) s) | _ => None end
  | CLate j => args ← a_late s !! j; Some (a_arrive args s)
  end.

Lemma a_label_sound `{!Json (list entry)} l s s' : a_label l s = Some s' -> a_step s s'.
Proof.
  intros H. destruct l as [i k|i c|i c|i|j]; simpl in H; apply bind_Some in H as (x & Hx & H).
  1-4: destruct (a_phase x) eqn:Hph; try done.
  all: injection H as <-.
  - by apply a_next.
  - by apply a_do_put.
  - by apply a_do_get.
  - by apply a_done.
  - apply a_late_arrives. by eapply list_elem_of_lookup_2.
Qed.

(** Versions and counters of a whole run are below its bounds: no key is
    at a version above the number of its steps. *)
Definition kv_below (n : Z) (kv : kv_map) : bool := forallb (fun p => bool_decide (version_ p.2 < n)) (map_to_list kv).

Lemma kv_below_sound n kv k : 0 < n -> kv_below n kv = true -> version_of kv k < n.
Proof.
  intros Hn. unfold kv_below. rewrite forallb_forall. intros H. unfold version_of. destruct (kv !! k) as [v|] eqn:E; [| done].
  apply (bool_decide_eq_true_1 (version_ v < n)). apply (H (k, v)). by apply list_elem_of_In, elem_of_map_to_list.
Qed.

Definition p_check (s : PSys) : bool := kv_below (2 ^ 64 - 2) (kv (p_world s)) &&
  forallb (fun cl => bool_decide (Nok (p_res cl) < 2 ^ 61) && bool_decide (Nmaybe (p_res cl) < 2 ^ 61)) (p_clients s).

Lemma p_check_sound s : p_check s = true -> p_small s.
Proof.
  intros [H1 H2]%andb_true_iff. rewrite forallb_forall in H2. split.
  - intros k. apply kv_below_sound; [lia | done].
  - intros cl Hcl%list_elem_of_In%H2. by rewrite andb_true_iff, !bool_decide_eq_true in Hcl.
Qed.

Definition a_check (s : ASys) : bool := kv_below (2 ^ 62) (kv (a_world s)) &&
  forallb (fun cl => bool_decide (a_i cl < 2 ^ 61)) (a_clients s).

Lemma a_check_sound s : a_check s = true -> a_small s.
Proof.
  intros [H1 H2]%andb_true_iff. rewrite forallb_forall in H2. split.
  - apply kv_below_sound; [lia | done].
  - intros cl Hcl%list_elem_of_In%H2. by rewrite bool_decide_eq_true in Hcl.
Qed.

Section Labels.
Context {T : Type} (label : CLabel -> T -> option T) (check : T -> bool) (init : T -> Prop) (step : T -> T -> Prop).
Hypothesis Hstep : forall l s s', label l s = Some s' -> check s = true -> step s s'.

Fixpoint run_labels (ls : list CLabel) (s : T) : option T :=
  match ls with
  | [] => Some s
  | l :: ls => if check s then s' ← label l s; run_labels ls s' else None
  end.

Lemma run_labels_reachable ls : forall s s', reachable init step s -> run_labels ls s = Some s' -> reachable init step s'.
Proof.
  induction ls as [|l ls IH]; intros s s' R H; simpl in H; [by injection H as <- |].
  destruct (check s) eqn:Hc; [| done]. apply bind_Some in H as (s1 & H1 & H).
  eapply IH; [| exact H]. eapply reach_step; [exact R | by eapply Hstep].
Qed.
End Labels.
End Run.

(** A concrete encoding for the witnesses. *)
Fixpoint bits (p : positive) : string :=
  match p with xH => "" | xO p => String "0"%char (bits p) | xI p => String "1"%char (bits p) end.

Fixpoint unbits (s : string) : positive :=
  match s with "" => xH | String c s => if Ascii.eqb c "0"%char then xO (unbits s) else xI (unbits s) end%string.

Lemma unbits_bits p : unbits (bits p) = p.
Proof. induction p as [p IH|p IH|]; simpl; by rewrite ?IH. Qed.

Program Definition countable_json (A : Type) `{Countable A} : Json A := {|
  Marshal := fun a => bits (countable.encode a); Unmarshal := fun s => countable.decode (unbits s) |}.
Next Obligation. intros A ?? a. cbn beta. by rewrite unbits_bits, countable.decode_encode. Qed.

#[export] Instance EntryV_eq_dec : EqDecision EntryV.
Proof. solve_decision. Defined.
#[export] Instance EntryV_countable : Countable EntryV.
Proof. apply (inj_countable' (fun e => (Id e, V e)) (fun p => mkEntryV p.1 p.2)). by intros []. Defined.
#[export] Instance entry_eq_dec : EqDecision entry.
Proof. solve_decision. Defined.
#[export] Instance entry_countable : Countable entry.
Proof. apply (inj_countable' (fun e => (en_Id e, en_N e)) (fun p => mkEntryN p.1 p.2)). by intros []. Defined.

Definition entryv_json : Json EntryV := countable_json EntryV.
Definition entries_json : Json (list entry) := countable_json (list entry).

(** ** Properties *)

Lemma sum_results rs : forall res, Forall small_res rs -> 0 <= Nok res -> 0 <= Nmaybe res ->
  Nok res + total Nok rs < 2 ^ 62 -> Nmaybe res + total Nmaybe rs < 2 ^ 62 ->
  foldl (fun res r => mkClntRes (i64 (Nok res + Nok r)) (i64 (Nmaybe res + Nmaybe r))) res rs =
    mkClntRes (Nok res + total Nok rs) (Nmaybe res + total Nmaybe rs).
Proof.
  induction rs as [|r rs IH]; intros [a b] Hrs H1 H2 H3 H4; simpl in *; [f_equal; lia |].
  inversion_clear Hrs as [|? ? [Hr1 Hr2] Hrs'].
  assert (0 <= total Nok rs /\ 0 <= total Nmaybe rs) as [H5 H6].
  { split; apply total_nonneg; intros y Hy%list_elem_of_In; destruct (proj1 (Forall_forall _ _) Hrs' y Hy); lia. }
  rewrite !i64_small by lia. rewrite IH; simpl; [f_equal; lia | done | lia..].
Qed.

(** C24: Clients that race with [OneClientPut] pass.  However their calls
    interleave, whatever is reported as [ErrMaybe] and whatever requests
    arrive late, none of their checks fails, as long as versions and counters
    stay below the ends of their types.  When all have returned, and all of
    them put to one key ([randomkeys] off), the totals of
    [CheckPutConcurrent] bound the version of the key from both sides, so
    that the test can go on from there, and the check passes: always in the
    form for an unreliable network, and in the form for a reliable one, that
    the version is the count of certain puts, provided that the clients
    counted no [ErrMaybe].  ([no_doubt_counts_none]: they count none if no
    put returns it.  The clerk of the single server sends again only when a
    message is lost; that of the replicated service also after
    [ErrWrongLeader], and [reliable_check_can_fail] is what then happens.) *)
Theorem put_clients_pass (svc : KVService) `{!Json EntryV} ka randomkeys n kv0 s :
  reachable (p_init n kv0) (p_quiet ka randomkeys) s ->
  (forall cl, cl ∈ p_clients s -> p_phase cl <> PFailed) /\
  forall k0 c res0 (reliable : bool), randomkeys = false -> head ka = Some k0 -> (forall cl, cl ∈ p_clients s -> p_phase cl = PReturned) ->
    is_Some (kv (p_world s) !! k0) -> Forall small_res (p_res <$> p_clients s) ->
    (reliable = true -> Forall (fun r => Nmaybe r = 0) (res0 :: (p_res <$> p_clients s))) ->
    0 <= Nok res0 -> 0 <= Nmaybe res0 ->
    Nok res0 <= version_of kv0 k0 <= Nok res0 + Nmaybe res0 ->
    Nok res0 + total Nok (p_res <$> p_clients s) < 2 ^ 62 -> Nmaybe res0 + total Nmaybe (p_res <$> p_clients s) < 2 ^ 62 ->
    exists w res, CheckPutConcurrent c k0 (p_res <$> p_clients s) res0 reliable (p_world s) = Ok (w, res) /\
      kv w = kv (p_world s) /\ (reliable = true -> Nmaybe res = 0) /\
      Nok res <= version_of (kv (p_world s)) k0 <= Nok res + Nmaybe res.
Proof.
  intros R. apply p_reachable in R as I. split.
  - intros cl [i Hi]%list_elem_of_lookup Hph. destruct (pi_client _ _ _ _ I i cl Hi) as (_ & _ & H3). by rewrite Hph in H3.
  - intros k0 c res0 reliable Hrk Hk0 Hret [v Hk] Hsm Hdoubt H1 H2 Hv0 Hb1 Hb2.
    destruct (pi_values _ _ _ _ I k0 v Hk) as [Hpos [e He]].
    destruct (GetJson_some c k0 (-1) (p_world s) v e Hk He) as (w & Hget & Hkv).
    pose proof (pi_count _ _ _ _ I Hrk k0 Hk0) as Hcount.
    assert (total oks (p_clients s) = total Nok (p_res <$> p_clients s) /\
            total maybes (p_clients s) = total Nmaybe (p_res <$> p_clients s)) as [E1 E2].
    { clear -Hret. induction (p_clients s) as [|cl l IH]; [done |].
      destruct IH as [IH1 IH2]; [intros cl' Hcl'; by apply Hret, list_elem_of_further |].
      csimpl. rewrite IH1, IH2. unfold oks, maybes. rewrite (Hret cl) by apply list_elem_of_here. lia. }
    assert (0 <= total Nmaybe (p_res <$> p_clients s)) as Hn.
    { apply total_nonneg. intros x Hx%list_elem_of_In. destruct (proj1 (Forall_forall _ _) Hsm x Hx). lia. }
    assert (0 <= total Nok (p_res <$> p_clients s)) as Hn'.
    { apply total_nonneg. intros x Hx%list_elem_of_In. destruct (proj1 (Forall_forall _ _) Hsm x Hx). lia. }
    assert (reliable = true -> Nmaybe res0 = 0 /\ total Nmaybe (p_res <$> p_clients s) = 0) as Hrel.
    { intros Hr. apply Hdoubt, list.Forall_cons in Hr as [Hr Hrs]. split; [done |]. by apply total_zero. }
    assert (version_of (kv (p_world s)) k0 = version_ v) as Hvk by (unfold version_of; by rewrite Hk).
    unfold CheckPutConcurrent. rewrite Hget. simpl. rewrite sum_results by done. simpl.
    rewrite E1, E2 in Hcount. exists w, (mkClntRes (Nok res0 + total Nok (p_res <$> p_clients s)) (Nmaybe res0 + total Nmaybe (p_res <$> p_clients s))).
    simpl. split_and!; [| done | intros Hr; destruct (Hrel Hr); lia | lia | lia].
    destruct reliable.
    + destruct (Hrel eq_refl). rewrite u64_small by lia. rewrite decide_False by lia. done.
    + rewrite i64_small by lia. rewrite u64_small by lia. rewrite decide_False by lia. done.
Qed.

(** Clients that race with [OneClientAppend] pass.  No check of a client
    fails, and when all have returned, [CheckAppends] passes on the list
    in the register. *)
Theorem append_clients_pass (svc : KVService) `{!Json (list entry)} n s :
  reachable (a_init n) a_quiet s -> a_small s ->
  (forall cl, cl ∈ a_clients s -> a_phase cl <> AFailed) /\
  exists es ver value, kv (a_world s) !! "k" = Some (mkValue value ver) /\ Unmarshal value = Some es /\
    CheckAppends es (zlen (a_clients s)) (a_result <$> a_clients s) ver = Ok ().
Proof.
  intros R [Hs Hsi]. apply a_reachable in R as [(es & (value & Hk & Hu) & Hsm & Hid & Hcl) _]. split.
  { intros cl [i Hi]%list_elem_of_lookup Hph. pose proof (ap_phase _ _ _ _ (Hcl i cl Hi)) as H. by rewrite Hph in H. }
  exists es, (zlen es + 1), value. split_and!; [done | done |].
  assert (zlen es + 1 < 2 ^ 62) as Hlen by (unfold version_of in Hs; by rewrite Hk in Hs). pose proof (zlen_nonneg es).
  apply CheckAppends_spec; [done | |].
  { apply Forall_forall. intros r (cl & -> & Hin)%list_elem_of_In%list_elem_of_fmap. pose proof (Hsi cl Hin).
    apply list_elem_of_lookup in Hin as [i Hi]. destruct (ap_count _ _ _ _ (Hcl i cl Hi)) as (? & ? & ?). split; simpl; lia. }
  assert (forall c, 0 <= c < zlen (a_clients s) \/ of_client c es <> [] ->
    exists cl, a_clients s !! Z.to_nat c = Some cl /\ Z.of_nat (Z.to_nat c) = c) as Hex.
  { intros c Hc. assert (0 <= c < zlen (a_clients s)) as Hc'.
    { destruct Hc as [?|Hne]; [done |]. unfold of_client in Hne. destruct (filter _ es) as [|e l] eqn:E; [done |].
      assert (e ∈ filter (fun e => en_Id e = c) es) as [<- He]%list_elem_of_filter by (rewrite E; apply list_elem_of_here).
      by apply Hid. }
    destruct (lookup_lt_is_Some_2 (a_clients s) (Z.to_nat c)) as [cl Hcl']; [unfold zlen in *; lia |].
    exists cl. split; [done | lia]. }
  split_and!.
  - intros c. destruct (of_client c es) as [|x l] eqn:E; [done |]. rewrite <- E.
    destruct (Hex c) as (cl & Hi & Hc); [right; by rewrite E |]. destruct (Hcl _ _ Hi) as [Ha _ _ _ _]. by rewrite Hc in Ha.
  - by rewrite i64_small by lia.
  - intros c Hc. destruct (Hex c Hc) as (cl & Hi & Hcc). destruct (Hcl _ _ Hi) as [_ B2 B3 (B4 & _) _]. rewrite Hcc in *.
    exists (a_result cl). split_and!; simpl; [| lia | lia].
    unfold zlookup. rewrite decide_True by lia. by rewrite list_lookup_fmap, Hi.
Qed.

(** ** Two executions *)

Definition ex_puts : list CLabel :=
  let call := CPut in
  [CNext 0 "k"; CNext 1 "k"; call 0%nat (ex_call false); call 1%nat (ex_call false); CGet 0 (ex_call false);
   CGet 1 (ex_call false); call 1%nat (ex_call true); CLate 0; CGet 1 (ex_call false); CDone 0; CDone 1].

Definition ex_pstart : PSys := mkPSys (ex_world ∅) (replicate 2 p_start) [].

Definition ex_prun : option PSys :=
  run_labels (p_label (svc := kvsrv_service) (Json0 := entryv_json) ["k"] false) p_check ex_puts ex_pstart.

Lemma put_clients_pass_witness : exists (s : PSys) w res, ex_prun = Some s /\
  p_res <$> p_clients s = [mkClntRes 1 0; mkClntRes 0 1] /\
  CheckPutConcurrent (svc := kvsrv_service) (Json0 := entryv_json) (ex_call false) "k" (p_res <$> p_clients s) (mkClntRes 0 0) false (p_world s) = Ok (w, res) /\
  Nok res <= version_of (kv (p_world s)) "k" <= Nok res + Nmaybe res.
Proof.
  destruct ex_prun as [s|] eqn:E; [| by vm_compute in E].
  assert (reachable (p_init (Json0 := entryv_json) 2 ∅) (p_quiet (svc := kvsrv_service) (Json0 := entryv_json) ["k"] false) s) as R.
  { eapply (run_labels_reachable _ p_check); [| | exact E].
    - intros l s1 s2 H1 H2. split; [by eapply p_label_sound | by apply p_check_sound].
    - apply reach_init. split_and!; [done | done | constructor |]. intros k v. by rewrite lookup_empty. }
  assert (p_res <$> p_clients s = [mkClntRes 1 0; mkClntRes 0 1] /\ p_phase <$> p_clients s = [PReturned; PReturned] /\
    is_Some (kv (p_world s) !! "k")) as (Hres & Hph & Hk).
  { unfold ex_prun in E. vm_compute in E. injection E as <-. split; [|split]; [vm_compute; reflexivity | vm_compute; reflexivity | vm_compute; by eexists]. }
  destruct (put_clients_pass kvsrv_service (Json0 := entryv_json) ["k"] false 2 ∅ s R) as [_ Hpass].
  assert (forall cl, cl ∈ p_clients s -> p_phase cl = PReturned) as Hret.
  { intros cl [i Hi]%list_elem_of_lookup. apply (f_equal (lookup i)) in Hph. rewrite list_lookup_fmap, Hi in Hph.
    destruct i as [|[|i]]; simpl in Hph; [injection Hph; trivial | injection Hph; trivial | discriminate Hph]. }
  rewrite Hres in Hpass.
  destruct (Hpass "k" (ex_call false) (mkClntRes 0 0) false eq_refl eq_refl Hret Hk) as (w & res & Hc & _ & _ & Hb);
    [repeat constructor; simpl; lia | discriminate | simpl; lia | simpl; lia | vm_compute; intuition congruence | simpl; lia | simpl; lia |].
  exists s, w, res. rewrite Hres. split; [reflexivity | split; [reflexivity | split; [exact Hc | exact Hb]]].
Defined.

(** The clerk of the replicated service reports [ErrMaybe] although no
    message is lost: the server that took the put answers [ErrWrongLeader],
    for [Submit] gave up waiting, before the put takes place. *)
Lemma kvraft_doubt_without_loss : exists ck',
  KvraftClerk.Put "k" "x" 0 [KvraftClerk.WrongLeader; KvraftClerk.Net Late; KvraftClerk.Net Delivered]
    (KvraftClerk.MakeClerk ["s"; "t"]%string) ∅ = Ok (<["k"%string := mkValue "x" 1]> ∅, 1%nat, ck', Some ErrMaybe).
Proof. eexists. vm_compute. reflexivity. Qed.

(** Such a put is not among the certain ones: the version is ahead of their
    count, and the check for a reliable network fails. *)
Definition ex_doubt : option PSys :=
  run_labels (p_label (svc := kvraft_service) (Json0 := entryv_json) ["k"] false) p_check
    [CNext 0 "k"; CPut 0 (ex_call true); CGet 0 (ex_call false); CDone 0] (mkPSys (ex_world ∅) [p_start] []).

Lemma reliable_check_can_fail : exists s, ex_doubt = Some s /\ p_res <$> p_clients s = [mkClntRes 0 1] /\
  CheckPutConcurrent (svc := kvraft_service) (Json0 := entryv_json) (ex_call false) "k" (p_res <$> p_clients s)
    (mkClntRes 0 0) true (p_world s) = Panic.
Proof. eexists. split; [vm_compute; reflexivity |]. split; vm_compute; reflexivity. Qed.

Definition ex_appends : list CLabel :=
  [CNext 0 ""; CNext 1 ""; CGet 0 (ex_call false); CGet 1 (ex_call false); CPut 0 (ex_call true); CPut 1 (ex_call false);
   CNext 0 ""; CGet 1 (ex_call false); CPut 1 (ex_call false); CLate 1; CGet 0 (ex_call false); CPut 0 (ex_call false);
   CDone 0; CDone 1].

Definition ex_astart : ASys :=
  mkASys (ex_world {[ "k" := mkValue (@Marshal _ entries_json []) 1 ]}) (replicate 2 a_start) [].

Definition ex_arun : option ASys :=
  run_labels (a_label (svc := kvsrv_service) (Json0 := entries_json)) a_check ex_appends ex_astart.

Lemma append_clients_pass_witness : exists (s : ASys) es ver, ex_arun = Some s /\
  a_result <$> a_clients s = [mkClntRes 1 1; mkClntRes 1 0] /\
  CheckAppends es 2 (a_result <$> a_clients s) ver = Ok ().
Proof.
  destruct ex_arun as [s|] eqn:E; [| by vm_compute in E].
  assert (reachable (a_init (Json0 := entries_json) 2) (a_quiet (svc := kvsrv_service) (Json0 := entries_json)) s) as R.
  { eapply (run_labels_reachable _ a_check); [| | exact E].
    - intros l s1 s2 H1 H2. split; [by eapply a_label_sound | by apply a_check_sound].
    - apply reach_init. split_and!; [done | done | constructor]. }
  assert (a_check s = true /\ a_result <$> a_clients s = [mkClntRes 1 1; mkClntRes 1 0] /\ zlen (a_clients s) = 2) as (Hs & Hres & Hlen).
  { unfold ex_arun in E. vm_compute in E. injection E as <-. split; [|split]; vm_compute; reflexivity. }
  destruct (append_clients_pass kvsrv_service (Json0 := entries_json) 2 s R (a_check_sound s Hs)) as (_ & es & ver & value & _ & _ & Hc).
  exists s, es, ver. rewrite Hlen in Hc. split; [reflexivity | split; [exact Hres | exact Hc]].
Defined.
