(* ===== verification/ShardCfg.v ===== *)
(** * Shard configurations ([shardkv1/shardcfg/shardcfg.go])

    A configuration assigns the shards to groups.  The file models the
    operations on configurations and proves that [Rebalance] terminates
    and gives what [CheckConfig] asks for. *)
From S2P Require Import Prelude.
#[local] Open Scope Z_scope.

Definition NShards : Z := 12.
Definition NumFirst : Z := 1.
Definition Gid1 : Z := 1.

(** [hash/fnv]'s 32-bit FNV-1a. *)
Definition fnv32a (bytes : list Z) : Z :=
  foldl (fun h b => u32 (Z.lxor h b * 16777619)) 2166136261 bytes.

Definition bytes_of (s : string) : list Z :=
  (fun c => Z.of_N (Ascii.N_of_ascii c)) <$> String.list_ascii_of_string s.

Definition Key2Shard (key : string) : Z := Z.rem (fnv32a (bytes_of key)) NShards.

Record ShardConfig := mkShardConfig {
  Num : Z;
  Shards : list Z;
  Groups : gmap Z (list string);
}.

Definition MakeShardConfig : ShardConfig := mkShardConfig 0 (replicate (Z.to_nat NShards) 0) ∅.

(** The slices of the copy are new; its contents are the original's. *)
Definition Copy (cfg : ShardConfig) : ShardConfig :=
  mkShardConfig (Num cfg) (Shards cfg)
    (map_fold (fun k srvs groups => <[k := srvs]> groups) (Groups MakeShardConfig) (Groups cfg)).

Definition counts (c : ShardConfig) (g : Z) : Z := zlen (filter (fun g' => g' = g) (Shards c)).

(** One group of [analyze]'s loop: [mg], [mn], [lg], [ln]. *)
Definition analyzeGroup (c : ShardConfig) (acc : Z * Z * Z * Z) (g : Z) : Z * Z * Z * Z :=
  let '(mg, mn, lg, ln) := acc in
  let '(lg, ln) := if decide (counts c g < ln) then (g, counts c g) else (lg, ln) in
  let '(mg, mn) := if decide (mn < counts c g) then (g, counts c g) else (mg, mn) in
  (mg, mn, lg, ln).

(** [slices.Sort] of the keys of the map. *)
Definition sortedGroups (c : ShardConfig) : list Z := merge_sort Z.le (map_to_list (Groups c)).*1.

Definition analyze (c : ShardConfig) : Z * Z * Z * Z :=
  foldl (analyzeGroup c) (-1, -1, -1, 257) (sortedGroups c).

Definition least (c : ShardConfig) : Z := let '(_, _, lg, _) := analyze c in lg.

Definition set_shards (c : ShardConfig) (shards : list Z) : ShardConfig :=
  mkShardConfig (Num c) shards (Groups c).

(** [for s, g := range c.Shards]: [g] is read from a copy of the array,
    and the body changes entry [s] only. *)
Definition assignShard (c : ShardConfig) (s : nat) : ShardConfig :=
  match Shards c !! s with
  | Some g =>
      match Groups c !! g with
      | None => set_shards c (<[s := least c]> (Shards c))
      | Some _ => c
      end
  | None => c
  end.

Definition assignUnassigned (c : ShardConfig) : ShardConfig :=
  foldl assignShard c (seq 0 (length (Shards c))).

(** Move the first shard of [mg] to [lg]. *)
Fixpoint moveShard (mg lg : Z) (shards : list Z) : list Z :=
  match shards with
  | [] => []
  | g :: shards => if decide (g = mg) then lg :: shards else g :: moveShard mg lg shards
  end.

(** The loop that moves shards; [None] when the fuel is used up. *)
Fixpoint moveLoop (fuel : nat) (c : ShardConfig) : option ShardConfig :=
  match fuel with
  | O => None
  | S fuel =>
      let '(mg, mn, lg, ln) := analyze c in
      if decide (mn < ln + 2) then Some c
      else moveLoop fuel (set_shards c (moveShard mg lg (Shards c)))
  end.

Definition Rebalance (fuel : nat) (c : ShardConfig) : option ShardConfig :=
  if decide (size (Groups c) < 1)%nat then Some (set_shards c (replicate (length (Shards c)) 0))
  else moveLoop fuel (assignUnassigned c).

(** Does one of the joining servers serve another group already? *)
Definition serverClash (cfg : ShardConfig) (servers : list string) : bool :=
  existsb (fun kv => existsb (fun s1 => existsb (fun s2 => bool_decide (s1 = s2)) servers) kv.2)
    (map_to_list (Groups cfg)).

(** [Join]'s loop over the map [servers], given in the order of the
    iteration; it stops where it returns [false], with the groups it
    added so far. *)
Fixpoint joinLoop (cfg : ShardConfig) (changed : bool) (servers : list (Z * list string)) :
    Res (ShardConfig * option bool) :=
  match servers with
  | [] => Ok (cfg, Some changed)
  | (gid, srvs) :: servers =>
      match Groups cfg !! gid with
      | Some _ => Ok (cfg, None)
      | None =>
          if serverClash cfg srvs then Panic
          else joinLoop (mkShardConfig (Num cfg) (Shards cfg) (<[gid := srvs]> (Groups cfg))) true servers
      end
  end.

Definition Join (servers : list (Z * list string)) (cfg : ShardConfig) : Res (ShardConfig * bool) :=
  let* p := joinLoop cfg false servers in
  match p with
  | (cfg, None) => Ok (cfg, false)
  | (_, Some false) => Panic
  | (cfg, Some true) => Ok (mkShardConfig (i64 (Num cfg + 1)) (Shards cfg) (Groups cfg), true)
  end.

Fixpoint leaveLoop (cfg : ShardConfig) (changed : bool) (gids : list Z) : ShardConfig * option bool :=
  match gids with
  | [] => (cfg, Some changed)
  | gid :: gids =>
      match Groups cfg !! gid with
      | None => (cfg, None)
      | Some _ => leaveLoop (mkShardConfig (Num cfg) (Shards cfg) (delete gid (Groups cfg))) true gids
      end
  end.

Definition Leave (gids : list Z) (cfg : ShardConfig) : Res (ShardConfig * bool) :=
  match leaveLoop cfg false gids with
  | (cfg, None) => Ok (cfg, false)
  | (_, Some false) => Panic
  | (cfg, Some true) => Ok (mkShardConfig (i64 (Num cfg + 1)) (Shards cfg) (Groups cfg), true)
  end.

(** [None] when [Rebalance] ran out of fuel. *)
Definition JoinBalance (fuel : nat) (servers : list (Z * list string)) (cfg : ShardConfig) :
    Res (option (ShardConfig * bool)) :=
  let* p := Join servers cfg in
  if p.2 then Ok ((fun c => (c, true)) <$> Rebalance fuel p.1) else Ok (Some (p.1, false)).

Definition LeaveBalance (fuel : nat) (gids : list Z) (cfg : ShardConfig) : Res (option (ShardConfig * bool)) :=
  let* p := Leave gids cfg in
  if p.2 then Ok ((fun c => (c, true)) <$> Rebalance fuel p.1) else Ok (Some (p.1, false)).

Definition GidServers (sh : Z) (cfg : ShardConfig) : Res (Z * list string * bool) :=
  let* gid := slice_get (Shards cfg) sh in
  match Groups cfg !! gid with
  | Some srvs => Ok (gid, srvs, true)
  | None => Ok (gid, [], false)
  end.

Definition IsMember (gid : Z) (cfg : ShardConfig) : bool :=
  existsb (fun g => bool_decide (g = gid)) (Shards cfg).

Definition minmax (cfg : ShardConfig) : Z * Z :=
  foldl (fun mm g =>
    let mx := if decide (mm.2 < counts cfg g) then counts cfg g else mm.2 in
    let mn := if decide (counts cfg g < mm.1) then counts cfg g else mm.1 in
    (mn, mx)) (257, 0) (map_to_list (Groups cfg)).*1.

(** [true] where the test passes, [false] where it calls [fatalf]. *)
Definition CheckConfig (groups : list Z) (cfg : ShardConfig) : bool :=
  if decide (size (Groups cfg) <> length groups) then false
  else if negb (forallb (fun g => bool_decide (is_Some (Groups cfg !! g))) groups) then false
  else if decide (0 < length groups)%nat then
    if negb (forallb (fun g => bool_decide (is_Some (Groups cfg !! g))) (Shards cfg)) then false
    else let '(mn, mx) := minmax cfg in negb (bool_decide (mn + 1 < mx))
  else let '(mn, mx) := minmax cfg in negb (bool_decide (mn + 1 < mx)).

(** ** Counting shards *)
Definition cnt (g : Z) (l : list Z) : nat := length (filter (fun g' => g' = g) l).

Lemma counts_cnt c g : counts c g = Z.of_nat (cnt g (Shards c)).
Proof. done. Qed.

Lemma cnt_cons g x l : cnt g (x :: l) = ((if decide (x = g) then 1 else 0) + cnt g l)%nat.
Proof. unfold cnt. rewrite filter_cons. by case_decide. Qed.

Lemma cnt_le g l : (cnt g l <= length l)%nat.
Proof. induction l as [|x l IH]; [done |]. rewrite cnt_cons. simpl. case_decide; lia. Qed.

#[export] Instance cnt_Permutation g : Proper ((≡ₚ) ==> eq) (cnt g).
Proof. intros l k H. unfold cnt. by rewrite H. Qed.

Lemma cnt_pos g l : (0 < cnt g l)%nat <-> g ∈ l.
Proof.
  induction l as [|x l IH].
  - split; [unfold cnt; simpl; lia | by intros ?%not_elem_of_nil].
  - rewrite cnt_cons, elem_of_cons, <- IH. destruct (decide (x = g)) as [->|]; [split; [by left | lia] |].
    split; [by right | intros [?|?]; [congruence | lia]].
Qed.

(** The pairs of positions with the same group: the sum of the squares
    of the counts, which every move of the loop decreases. *)
Definition pairs (l : list Z) : nat := sum_list ((fun x => cnt x l) <$> l).

Lemma sum_cnt_cons x r l :
  sum_list ((fun y => cnt y (x :: r)) <$> l) = (sum_list ((fun y => cnt y r) <$> l) + cnt x l)%nat.
Proof.
  induction l as [|y l IH]; [done |]. csimpl. rewrite IH, (cnt_cons x y l), (cnt_cons y x r).
  destruct (decide (y = x)) as [->|]; [rewrite decide_True by done | rewrite decide_False by congruence]; lia.
Qed.

Lemma pairs_cons x r : pairs (x :: r) = (pairs r + 2 * cnt x r + 1)%nat.
Proof.
  unfold pairs at 1. csimpl. rewrite sum_cnt_cons, cnt_cons, decide_True by done. unfold pairs. lia.
Qed.

Lemma pairs_Permutation l k : l ≡ₚ k -> pairs l = pairs k.
Proof.
  induction 1 as [|x l k Hl IH|x y l|l k m H1 IH1 H2 IH2]; [done | | | congruence].
  - by rewrite !pairs_cons, IH, Hl.
  - rewrite !pairs_cons, !cnt_cons. destruct (decide (x = y)) as [->|];
      [rewrite decide_True by done | rewrite !decide_False by congruence]; lia.
Qed.

Lemma pairs_bound l : (pairs l <= length l * length l)%nat.
Proof.
  unfold pairs.
  assert (forall k, sum_list ((fun x => cnt x l) <$> k) <= length k * length l)%nat as H.
  { induction k as [|y k IH]; csimpl; [lia |]. pose proof (cnt_le y l). lia. }
  apply H.
Qed.

Lemma moveShard_Permutation mg lg l :
  mg ∈ l -> exists r, l ≡ₚ mg :: r /\ moveShard mg lg l ≡ₚ lg :: r.
Proof.
  induction l as [|x l IH]; [by intros ?%not_elem_of_nil |]. simpl. intros Hin.
  case_decide as Hx; [subst; by exists l |].
  destruct IH as (r & H1 & H2); [by apply elem_of_cons in Hin as [->|] |].
  exists (x :: r). split; [rewrite H1 | rewrite H2]; apply perm_swap.
Qed.

Lemma moveShard_length mg lg l : length (moveShard mg lg l) = length l.
Proof. induction l as [|x l IH]; [done |]. simpl. case_decide; simpl; congruence. Qed.

Lemma moveShard_elem mg lg l g : g ∈ moveShard mg lg l -> g = lg \/ g ∈ l.
Proof.
  induction l as [|x l IH]; [by right |]. simpl. case_decide; intros [->|Hin]%elem_of_cons.
  - by left.
  - right. by apply list_elem_of_further.
  - right. apply list_elem_of_here.
  - destruct (IH Hin); [by left | right]. by apply list_elem_of_further.
Qed.

Lemma moveShard_pairs mg lg l :
  (cnt lg l + 2 <= cnt mg l)%nat -> (pairs (moveShard mg lg l) < pairs l)%nat.
Proof.
  intros H. destruct (moveShard_Permutation mg lg l) as (r & H1 & H2); [apply cnt_pos; lia |].
  rewrite (pairs_Permutation _ _ H1), (pairs_Permutation _ _ H2), !pairs_cons.
  rewrite H1 in H. rewrite !cnt_cons in H. rewrite (decide_True (P := mg = mg)) in H by done.
  destruct (decide (mg = lg)); lia.
Qed.

(** ** [analyze] *)
Lemma sortedGroups_elem c g : g ∈ sortedGroups c <-> is_Some (Groups c !! g).
Proof.
  unfold sortedGroups. rewrite merge_sort_Permutation, list_elem_of_fmap. split.
  - intros ([g' s] & -> & Hin%elem_of_map_to_list). simpl. by exists s.
  - intros [s Hs]. exists (g, s). split; [done |]. by apply elem_of_map_to_list.
Qed.

Definition analyzed (c : ShardConfig) (l : list Z) (acc : Z * Z * Z * Z) : Prop :=
  let '(mg, mn, lg, ln) := acc in
  l = [] /\ acc = (-1, -1, -1, 257) \/
  (mg ∈ l /\ mn = counts c mg /\ lg ∈ l /\ ln = counts c lg /\
   forall g, g ∈ l -> ln <= counts c g <= mn).

Lemma analyzeGroup_spec c l acc g :
  (length (Shards c) <= 256)%nat -> analyzed c l acc -> analyzed c (l ++ [g]) (analyzeGroup c acc g).
Proof.
  intros Hlen. destruct acc as [[[mg mn] lg] ln]. unfold analyzed.
  pose proof (cnt_le g (Shards c)) as Hg. pose proof (counts_cnt c g).
  intros Hcase. unfold analyzeGroup.
  assert (g ∈ l ++ [g]) as Hin by (apply elem_of_app; right; apply list_elem_of_here).
  assert (forall x, x ∈ l -> x ∈ l ++ [g]) as Hmono by (intros x ?; apply elem_of_app; by left).
  destruct (decide (counts c g < ln)), (decide (mn < counts c g)); right;
    destruct Hcase as [[-> [= -> -> -> ->]]|(H1 & H2 & H3 & H4 & H5)]; try lia; split_and!; auto;
    intros g' [Hg'|[->|Hg'%not_elem_of_nil]%elem_of_cons]%elem_of_app; try done;
    try (by apply not_elem_of_nil in Hg'); try (specialize (H5 g' Hg')); try lia.
Qed.

Lemma analyze_spec c :
  (length (Shards c) <= 256)%nat -> Groups c <> ∅ ->
  exists mg lg, analyze c = (mg, counts c mg, lg, counts c lg) /\
    is_Some (Groups c !! mg) /\ is_Some (Groups c !! lg) /\
    forall g, is_Some (Groups c !! g) -> counts c lg <= counts c g <= counts c mg.
Proof.
  intros Hlen Hne. unfold analyze.
  assert (forall l, analyzed c l (foldl (analyzeGroup c) (-1, -1, -1, 257) l)) as H.
  { induction l as [|g l IH] using rev_ind; [by left |]. rewrite foldl_snoc. by apply analyzeGroup_spec. }
  specialize (H (sortedGroups c)). destruct (foldl _ _ _) as [[[mg mn] lg] ln].
  destruct H as [[Hnil _]|(H1 & -> & H3 & -> & H5)].
  - exfalso. apply map_choose in Hne as (g & s & Hs).
    assert (g ∈ sortedGroups c) as Hin by (apply sortedGroups_elem; eauto).
    rewrite Hnil in Hin. by apply not_elem_of_nil in Hin.
  - exists mg, lg. rewrite <- !sortedGroups_elem. split_and!; [done.. |].
    intros g Hg. apply H5. by apply sortedGroups_elem.
Qed.

Lemma least_spec c :
  (length (Shards c) <= 256)%nat -> Groups c <> ∅ -> is_Some (Groups c !! least c).
Proof. intros H1 H2. unfold least. by destruct (analyze_spec c H1 H2) as (mg & lg & -> & _ & ? & _). Qed.

(** ** The loops of [Rebalance] *)
Definition assigned (c : ShardConfig) : Prop := forall g, g ∈ Shards c -> is_Some (Groups c !! g).

Definition balanced (c : ShardConfig) : Prop :=
  forall g g', is_Some (Groups c !! g) -> is_Some (Groups c !! g') -> counts c g <= counts c g' + 1.

(** What no step of [Rebalance] changes. *)
Definition same_frame (c c' : ShardConfig) : Prop :=
  Num c' = Num c /\ Groups c' = Groups c /\ length (Shards c') = length (Shards c).

#[export] Instance same_frame_preorder : PreOrder same_frame.
Proof. split; [by intros c | unfold same_frame; intros x y z (? & ? & ?) (? & ? & ?); split_and!; congruence]. Qed.

Lemma assignShard_frame c s : same_frame c (assignShard c s).
Proof.
  unfold assignShard. destruct (Shards c !! s); [| done]. destruct (Groups c !! _); [done |].
  split_and!; simpl; [done.. | apply length_insert].
Qed.

Lemma assignShard_at c s :
  (length (Shards c) <= 256)%nat -> Groups c <> ∅ ->
  forall g, Shards (assignShard c s) !! s = Some g -> is_Some (Groups c !! g).
Proof.
  intros Hlen Hne g. unfold assignShard. destruct (Shards c !! s) as [g0|] eqn:E; [| by rewrite E].
  destruct (Groups c !! g0) eqn:Eg; [rewrite E; intros [= <-]; eauto |]. simpl.
  rewrite list_lookup_insert_eq by (by eapply lookup_lt_Some). intros [= <-]. by apply least_spec.
Qed.

Lemma assignShard_other c s i : i <> s -> Shards (assignShard c s) !! i = Shards c !! i.
Proof.
  intros H. unfold assignShard. destruct (Shards c !! s); [| done]. destruct (Groups c !! _); [done |].
  simpl. by apply list_lookup_insert_ne.
Qed.

Lemma assign_prefix c n :
  (length (Shards c) <= 256)%nat -> Groups c <> ∅ ->
  let c' := foldl assignShard c (seq 0 n) in
  same_frame c c' /\ forall i g, (i < n)%nat -> Shards c' !! i = Some g -> is_Some (Groups c !! g).
Proof.
  intros Hlen Hne. simpl. induction n as [|n [IH1 IH2]]; [split; [done | lia] |].
  rewrite seq_S, foldl_app. simpl. set (c1 := foldl _ _ _) in *.
  pose proof IH1 as (_ & Hg & Hl). split; [etrans; [done | apply assignShard_frame] |].
  intros i g Hi Hlk. destruct (decide (i = n)) as [->|Hin].
  - rewrite <- Hg. eapply assignShard_at; [by rewrite Hl | by rewrite Hg | done].
  - rewrite assignShard_other in Hlk by done. apply (IH2 i g); [lia | done].
Qed.

Lemma assignUnassigned_spec c :
  (length (Shards c) <= 256)%nat -> Groups c <> ∅ ->
  same_frame c (assignUnassigned c) /\ assigned (assignUnassigned c).
Proof.
  intros Hlen Hne. unfold assignUnassigned.
  destruct (assign_prefix c (length (Shards c)) Hlen Hne) as [H1 H2]. split; [done |].
  destruct H1 as (_ & Hg & Hl). intros g Hin. rewrite Hg.
  apply list_elem_of_lookup in Hin as [i Hi]. apply (H2 i g); [| done].
  rewrite <- Hl. by eapply lookup_lt_Some.
Qed.

Lemma assign_id c : assigned c -> assignUnassigned c = c.
Proof.
  intros H. unfold assignUnassigned. generalize (seq 0 (length (Shards c))). intros l.
  induction l as [|s l IH]; [done |]. simpl. replace (assignShard c s) with c; [done |].
  unfold assignShard. destruct (Shards c !! s) as [g|] eqn:E; [| done].
  destruct (H g) as [x ->]; [by eapply list_elem_of_lookup_2 | done].
Qed.

Lemma moveLoop_spec fuel : forall c,
  (length (Shards c) <= 256)%nat -> Groups c <> ∅ -> assigned c -> (pairs (Shards c) < fuel)%nat ->
  exists c', moveLoop fuel c = Some c' /\ same_frame c c' /\ assigned c' /\ balanced c'.
Proof.
  induction fuel as [|fuel IH]; intros c Hlen Hne Has Hf; [lia |]. simpl.
  destruct (analyze_spec c Hlen Hne) as (mg & lg & -> & Hmg & Hlg & Hall).
  case_decide as Hd.
  - exists c. split_and!; [done.. |]. intros g g' Hg Hg'.
    pose proof (Hall g Hg). pose proof (Hall g' Hg'). lia.
  - rewrite !counts_cnt in Hd.
    destruct (IH (set_shards c (moveShard mg lg (Shards c)))) as (c' & Hrun & Hf' & Has' & Hb); simpl.
    + by rewrite moveShard_length.
    + done.
    + intros g Hin. apply moveShard_elem in Hin as [->|Hin]; [done | by apply Has].
    + pose proof (moveShard_pairs mg lg (Shards c) ltac:(lia)). lia.
    + exists c'. split_and!; try done. etrans; [| done]. split_and!; simpl; [done.. | apply moveShard_length].
Qed.

(** ** [CheckConfig] *)
Lemma minmax_spec c :
  (length (Shards c) <= 256)%nat -> balanced c -> (minmax c).2 <= (minmax c).1 + 1.
Proof.
  intros Hlen Hb. unfold minmax.
  assert (forall g, 0 <= counts c g <= 256) as Hc.
  { intros g. rewrite counts_cnt. pose proof (cnt_le g (Shards c)). lia. }
  assert (forall g, g ∈ (map_to_list (Groups c)).*1 -> is_Some (Groups c !! g)) as Hk.
  { intros g ([g' s] & -> & Hin%elem_of_map_to_list)%list_elem_of_fmap. by exists s. }
  revert Hk. generalize (map_to_list (Groups c)).*1. intros l Hk.
  set (f := fun (mm : Z * Z) g => _). set (R := fun mm : Z * Z =>
    (mm.1 = 257 \/ exists g, is_Some (Groups c !! g) /\ mm.1 = counts c g) /\
    (mm.2 = 0 \/ exists g, is_Some (Groups c !! g) /\ mm.2 = counts c g)).
  assert (R (foldl f (257, 0) l)) as [Hmn Hmx].
  { induction l as [|g l IH] using rev_ind; [split; by left |]. rewrite foldl_snoc.
    destruct IH as [H1 H2]; [intros g' Hg'; apply Hk, elem_of_app; by left |].
    assert (is_Some (Groups c !! g)) as Hg by (apply Hk, elem_of_app; right; apply list_elem_of_here).
    unfold f at 1, R. simpl. split; case_decide; eauto. }
  destruct Hmn as [->|(g & Hg & ->)], Hmx as [->|(g' & Hg' & ->)].
  - lia.
  - pose proof (Hc g'). lia.
  - pose proof (Hc g). lia.
  - by apply Hb.
Qed.

Lemma forallb_bool_decide {A} (P : A -> Prop) `{forall x, Decision (P x)} l :
  (forall x, x ∈ l -> P x) -> forallb (fun x => bool_decide (P x)) l = true.
Proof. intros Hall. apply forallb_forall. intros x Hx. apply bool_decide_true, Hall. by apply list_elem_of_In. Qed.

Lemma CheckConfig_ok c groups :
  (length (Shards c) <= 256)%nat -> size (Groups c) = length groups ->
  (forall g, g ∈ groups -> is_Some (Groups c !! g)) ->
  (groups <> [] -> assigned c) -> balanced c -> CheckConfig groups c = true.
Proof.
  intros Hlen Hs Hg Has Hb. unfold CheckConfig. rewrite decide_False by lia.
  rewrite forallb_bool_decide by done. simpl.
  pose proof (minmax_spec c Hlen Hb) as Hmm. destruct (minmax c) as [mn mx]. simpl in Hmm.
  rewrite (bool_decide_false (mn + 1 < mx)) by lia. simpl. case_decide as Hl; [| done].
  rewrite forallb_bool_decide; [done |]. apply Has. intros ->. simpl in Hl. lia.
Qed.

Lemma groups_keys c : size (Groups c) = length (map_to_list (Groups c)).*1 /\
  forall g, g ∈ (map_to_list (Groups c)).*1 -> is_Some (Groups c !! g).
Proof.
  split; [by rewrite length_fmap, length_map_to_list |].
  intros g ([g' s] & -> & Hin%elem_of_map_to_list)%list_elem_of_fmap. by exists s.
Qed.

Lemma Rebalance_ok fuel c :
  (length (Shards c) <= 256)%nat -> (length (Shards c) * length (Shards c) < fuel)%nat ->
  exists c', Rebalance fuel c = Some c' /\ same_frame c c' /\ balanced c' /\
    (Groups c <> ∅ -> assigned c').
Proof.
  intros Hlen Hf. unfold Rebalance. case_decide as Hs.
  - assert (Groups c = ∅) as He by (apply map_size_empty_inv; lia).
    eexists. split_and!; [done | split_and!; simpl; [done.. | apply length_replicate] | | by rewrite He].
    intros g g'. simpl. rewrite He. by intros [? ?].
  - assert (Groups c <> ∅) as Hne by (intros He; rewrite He, map_size_empty in Hs; lia).
    destruct (assignUnassigned_spec c Hlen Hne) as [Hfr Has]. pose proof Hfr as (_ & Hg & Hl).
    destruct (moveLoop_spec fuel (assignUnassigned c)) as (c' & Hrun & Hfr' & Has' & Hb);
      [by rewrite Hl | by rewrite Hg | done | pose proof (pairs_bound (Shards (assignUnassigned c))); rewrite Hl in *; lia |].
    exists c'. split_and!; [done | by etrans | done | done].
Qed.

(** ** Joining and leaving *)
Lemma joinLoop_groups servers : forall cfg changed cfg' b,
  joinLoop cfg changed servers = Ok (cfg', Some b) ->
  Num cfg' = Num cfg /\ Shards cfg' = Shards cfg /\
  Groups cfg' = list_to_map servers ∪ Groups cfg /\ NoDup servers.*1 /\
  (forall g, g ∈ servers.*1 -> Groups cfg !! g = None).
Proof.
  induction servers as [|[gid srvs] servers IH]; intros cfg changed cfg' b H; simpl in H.
  { simplify_eq. split_and!; try done; [simpl; by rewrite map_empty_union | apply NoDup_nil_2 | intros g Hg; by apply not_elem_of_nil in Hg]. }
  destruct (Groups cfg !! gid) eqn:Eg; [done |]. destruct (serverClash cfg srvs); [done |].
  destruct (IH _ _ _ _ H) as (H1 & H2 & H3 & H4 & H5). simpl in *.
  assert (gid ∉ servers.*1) as Hn by (intros Hin; specialize (H5 _ Hin); by rewrite lookup_insert_eq in H5).
  split_and!; [done | done | | by constructor | ].
  - rewrite H3. simpl. rewrite <- insert_union_l, insert_union_r; [done |].
    by apply not_elem_of_list_to_map_1.
  - intros g [->|Hin]%elem_of_cons; [done |]. specialize (H5 _ Hin).
    rewrite lookup_insert_ne in H5; [done |]. by intros ->.
Qed.

Lemma leaveLoop_groups gids : forall cfg changed cfg' b,
  leaveLoop cfg changed gids = (cfg', Some b) ->
  Num cfg' = Num cfg /\ Shards cfg' = Shards cfg /\
  forall g, Groups cfg' !! g = if decide (g ∈ gids) then None else Groups cfg !! g.
Proof.
  induction gids as [|gid gids IH]; intros cfg changed cfg' b H; simpl in H.
  { simplify_eq. split_and!; try done. }
  destruct (Groups cfg !! gid) eqn:Eg; [| done]. destruct (IH _ _ _ _ H) as (H1 & H2 & H3).
  split_and!; [done | done |]. intros g. rewrite H3. simpl.
  destruct (decide (g ∈ gids)) as [Hin|Hin].
  - by rewrite decide_True by (by apply list_elem_of_further).
  - destruct (decide (g = gid)) as [->|Hne].
    + rewrite lookup_delete_eq, decide_True by apply list_elem_of_here. done.
    + rewrite lookup_delete_ne by done. rewrite decide_False; [done |]. by intros [?|?]%elem_of_cons.
Qed.

Lemma Rebalance_checked c fuel :
  (length (Shards c) <= 256)%nat -> (length (Shards c) * length (Shards c) < fuel)%nat ->
  exists c', Rebalance fuel c = Some c' /\ same_frame c c' /\ balanced c' /\
    CheckConfig (map_to_list (Groups c')).*1 c' = true.
Proof.
  intros Hlen Hf. destruct (Rebalance_ok fuel c Hlen Hf) as (c' & Hrun & Hfr & Hb & Has).
  pose proof Hfr as (Hn & Hg & Hl). exists c'. split_and!; [done.. |].
  destruct (groups_keys c') as [Hs Hk]. apply CheckConfig_ok; [by rewrite Hl | done | done | | done].
  intros Hne. apply Has. intros He. apply Hne. by rewrite Hg, He, map_to_list_empty.
Qed.

(** ** Properties *)

(** C27: [Rebalance] terminates and balances.  With the fuel of one more
    than the square of the number of shards its loop ends; the result
    keeps the number and the groups of the configuration and passes
    [CheckConfig]: every shard belongs to a group and no group has two
    shards more than another. *)
Theorem Rebalance_checks c fuel :
  (length (Shards c) <= 256)%nat -> (length (Shards c) * length (Shards c) < fuel)%nat ->
  exists c', Rebalance fuel c = Some c' /\ Num c' = Num c /\ Groups c' = Groups c /\
    length (Shards c') = length (Shards c) /\
    (forall g g', is_Some (Groups c !! g) -> is_Some (Groups c !! g') -> counts c' g <= counts c' g' + 1) /\
    CheckConfig (map_to_list (Groups c)).*1 c' = true.
Proof.
  intros Hlen Hf. destruct (Rebalance_checked c fuel Hlen Hf) as (c' & Hrun & (Hn & Hg & Hl) & Hb & Hc).
  rewrite Hg in Hc. exists c'. split_and!; [done.. | unfold balanced in Hb; by rewrite Hg in Hb | done].
Qed.

Definition ex_cfg : ShardConfig :=
  mkShardConfig 3 [1; 1; 1; 1; 1; 1; 1; 1; 1; 0; 0; 2] {[ 1 := ["a"]; 2 := ["b"]; 3 := ["c"] ]}.

Lemma Rebalance_checks_witness :
  exists c', Rebalance 145 ex_cfg = Some c' /\ Num c' = 3 /\ Groups c' = Groups ex_cfg /\
    length (Shards c') = 12%nat /\
    (forall g g', is_Some (Groups ex_cfg !! g) -> is_Some (Groups ex_cfg !! g') -> counts c' g <= counts c' g' + 1) /\
    CheckConfig (map_to_list (Groups ex_cfg)).*1 c' = true.
Proof. apply (Rebalance_checks ex_cfg 145); simpl; lia. Defined.

(** [Rebalance] moves nothing without need: a configuration whose
    shards all belong to groups and are spread evenly is returned as it
    is. *)
Theorem Rebalance_stable c fuel :
  (length (Shards c) <= 256)%nat -> (0 < fuel)%nat -> Groups c <> ∅ -> assigned c -> balanced c ->
  Rebalance fuel c = Some c.
Proof.
  intros Hlen Hf Hne Has Hb. unfold Rebalance. rewrite decide_False.
  2:{ intros Hs. apply Hne. apply map_size_empty_inv. lia. }
  rewrite assign_id by done. destruct fuel as [|fuel]; [lia |]. simpl.
  destruct (analyze_spec c Hlen Hne) as (mg & lg & -> & Hmg & Hlg & _).
  pose proof (Hb mg lg Hmg Hlg). by rewrite decide_True by lia.
Qed.

Lemma Rebalance_stable_witness :
  Rebalance 1 (mkShardConfig 3 [1; 1; 2; 2; 2] {[ 1 := ["a"]; 2 := ["b"] ]}) =
    Some (mkShardConfig 3 [1; 1; 2; 2; 2] {[ 1 := ["a"]; 2 := ["b"] ]}).
Proof.
  apply Rebalance_stable; simpl; try lia; [done | |].
  - intros g Hg. simpl in *. assert (g = 1 \/ g = 2) as [->| ->] by set_solver; eauto.
  - intros g g' Hg Hg'. simpl in *.
    assert (forall x, is_Some (({[ 1 := ["a"]; 2 := ["b"] ]} : gmap Z (list string)) !! x) -> x = 1 \/ x = 2) as H.
    { intros x Hx. apply elem_of_dom in Hx. rewrite dom_insert, dom_singleton in Hx. set_solver. }
    destruct (H g Hg) as [->| ->], (H g' Hg') as [->| ->]; vm_compute; discriminate.
Defined.

(** A successful [JoinBalance] adds exactly the new groups, a
    successful [LeaveBalance] removes exactly the named ones; both
    advance the number by one and return a configuration that passes
    [CheckConfig], so that no shard is left with a group that left. *)
Theorem JoinLeaveBalance_reconfigure cfg servers gids cfg1 cfg2 fuel :
  (length (Shards cfg) <= 256)%nat -> (length (Shards cfg) * length (Shards cfg) < fuel)%nat ->
  Join servers cfg = Ok (cfg1, true) -> Leave gids cfg = Ok (cfg2, true) ->
  (exists c, JoinBalance fuel servers cfg = Ok (Some (c, true)) /\ Num c = i64 (Num cfg + 1) /\
     Groups c = list_to_map servers ∪ Groups cfg /\ CheckConfig (map_to_list (Groups c)).*1 c = true) /\
  (exists c, LeaveBalance fuel gids cfg = Ok (Some (c, true)) /\ Num c = i64 (Num cfg + 1) /\
     (forall g, Groups c !! g = if decide (g ∈ gids) then None else Groups cfg !! g) /\
     CheckConfig (map_to_list (Groups c)).*1 c = true).
Proof.
  intros Hlen Hf HJ HL. split.
  - unfold JoinBalance. rewrite HJ. simpl. unfold Join in HJ. res_inv. destruct o as [[]|]; simplify_eq.
    destruct (joinLoop_groups _ _ _ _ _ E) as (H1 & H2 & H3 & _).
    destruct (Rebalance_checked (mkShardConfig (i64 (Num s + 1)) (Shards s) (Groups s)) fuel)
      as (c & -> & (Hn & Hg & _) & _ & Hc); simpl; [by rewrite H2.. |].
    exists c. split_and!; [done | by rewrite Hn, <- H1 | by rewrite Hg | done].
  - unfold LeaveBalance. rewrite HL. simpl. unfold Leave in HL.
    destruct (leaveLoop cfg false gids) as [s o] eqn:E. destruct o as [[]|]; simplify_eq.
    destruct (leaveLoop_groups _ _ _ _ _ E) as (H1 & H2 & H3).
    destruct (Rebalance_checked (mkShardConfig (i64 (Num s + 1)) (Shards s) (Groups s)) fuel)
      as (c & -> & (Hn & Hg & _) & _ & Hc); simpl; [by rewrite H2.. |].
    exists c. split_and!; [done | by rewrite Hn, <- H1 | intros g; by rewrite Hg | done].
Qed.

Lemma JoinLeaveBalance_reconfigure_witness :
  (exists c, JoinBalance 145 [(4, ["d"])] ex_cfg = Ok (Some (c, true)) /\ Num c = 4 /\
     Groups c = list_to_map [(4, ["d"])] ∪ Groups ex_cfg /\ CheckConfig (map_to_list (Groups c)).*1 c = true) /\
  (exists c, LeaveBalance 145 [2; 3] ex_cfg = Ok (Some (c, true)) /\ Num c = 4 /\
     (forall g, Groups c !! g = if decide (g ∈ [2; 3]) then None else Groups ex_cfg !! g) /\
     CheckConfig (map_to_list (Groups c)).*1 c = true).
Proof.
  eapply (JoinLeaveBalance_reconfigure ex_cfg [(4, ["d"])] [2; 3]);
    [simpl; lia | simpl; lia | vm_compute; reflexivity | vm_compute; reflexivity].
Defined.
