(* ===== verification/MrCoordinator.v ===== *)
(** * The MapReduce coordinator ([mr/coordinator.go], [mr/rpc.go])

    Every RPC handler is one critical section of the coordinator's lock,
    so it is one function of the state.  The clock is an argument. *)
From S2P Require Import Prelude.
#[local] Open Scope Z_scope.

(** ** [mr/rpc.go] *)
Inductive TaskType := TaskMap | TaskReduce | TaskWait | TaskExit.
Inductive TaskState := StateIdle | StateInProgress | StateDone.

#[export] Instance TaskType_eq_dec : EqDecision TaskType. Proof. solve_decision. Defined.
#[export] Instance TaskState_eq_dec : EqDecision TaskState. Proof. solve_decision. Defined.

Record RegisterReply := mkRegisterReply { reg_WorkerID_ : Z }.
Record GetTaskArgs := mkGetTaskArgs { gta_WorkerID_ : Z }.
Record GetTaskReply := mkGetTaskReply {
  gt_Type_ : TaskType; gt_TaskID_ : Z; gt_FileName_ : string; gt_NumSlices_ : Z
}.
Record ReportTaskDoneArgs := mkReportTaskDoneArgs { rd_WorkerID_ : Z; rd_Type_ : TaskType; rd_TaskID_ : Z }.
Record ReportTaskDoneReply := mkReportTaskDoneReply { rd_OK_ : bool }.

(** [10 * time.Second], in nanoseconds. *)
Definition TIMEOUT : Z := 10 * 1000000000.

(** ** [mr/coordinator.go] *)
Record TaskInfo := mkTaskInfo { State_ : TaskState; WorkerID_ : Z; Start_ : Z }.

Record Coordinator := mkCoordinator {
  files_ : list string;
  num_map_ : Z;
  num_reduce_ : Z;
  phase_ : TaskType;
  tasks_ : list TaskInfo;
  worker_register_ : Z;
}.

Definition set_tasks (c : Coordinator) (tasks : list TaskInfo) : Coordinator :=
  mkCoordinator (files_ c) (num_map_ c) (num_reduce_ c) (phase_ c) tasks (worker_register_ c).

Definition set_phase (c : Coordinator) (phase : TaskType) : Coordinator :=
  mkCoordinator (files_ c) (num_map_ c) (num_reduce_ c) phase (tasks_ c) (worker_register_ c).

(** The task table of [make([]TaskInfo, n)]: no worker, the zero time. *)
Definition idleTask : TaskInfo := mkTaskInfo StateIdle 0 0.

Definition MakeCoordinator (files : list string) (nReduce : Z) : Coordinator :=
  mkCoordinator files (zlen files) nReduce TaskMap (replicate (length files) idleTask) 0.

Definition Register (c : Coordinator) : Coordinator * RegisterReply :=
  if decide (phase_ c = TaskExit) then (c, mkRegisterReply (-1))
  else if decide (worker_register_ c < 0) then (c, mkRegisterReply (-1))
  else (mkCoordinator (files_ c) (num_map_ c) (num_reduce_ c) (phase_ c) (tasks_ c) (i64 (worker_register_ c + 1)),
        mkRegisterReply (worker_register_ c)).

(** The switch on a task's state: the task as it is handed out, or
    [None] to look at the next one. *)
Definition tryTask (now wid : Z) (task : TaskInfo) : option TaskInfo :=
  match State_ task with
  | StateIdle => Some (mkTaskInfo StateInProgress wid now)
  | StateInProgress =>
      if decide (TIMEOUT < now - Start_ task) then Some (mkTaskInfo (State_ task) wid now) else None
  | StateDone => None
  end.

(** The loop over the files of the map phase, which reads the task table
    at the same index. *)
Fixpoint mapLoop (now wid : Z) (tasks : list TaskInfo) (index : Z) (files : list string) :
    Res (option (Z * string * list TaskInfo)) :=
  match files with
  | [] => Ok None
  | filename :: files =>
      let* task := slice_get tasks index in
      match tryTask now wid task with
      | Some task => let* tasks := slice_set tasks index task in Ok (Some (index, filename, tasks))
      | None => mapLoop now wid tasks (index + 1) files
      end
  end.

(** The loop over the task table of the reduce phase. *)
Fixpoint reduceLoop (now wid : Z) (tasks : list TaskInfo) (index : Z) (rest : list TaskInfo) :
    Res (option (Z * list TaskInfo)) :=
  match rest with
  | [] => Ok None
  | task :: rest =>
      match tryTask now wid task with
      | Some task => let* tasks := slice_set tasks index task in Ok (Some (index, tasks))
      | None => reduceLoop now wid tasks (index + 1) rest
      end
  end.

(** The zero values of a reply, which the handlers fill in. *)
Definition waitReply : GetTaskReply := mkGetTaskReply TaskWait 0 "" 0.

(** The last component is [true] when the handler returns an error. *)
Definition GetTask (now : Z) (args : GetTaskArgs) (c : Coordinator) : Res (Coordinator * GetTaskReply * bool) :=
  match phase_ c with
  | TaskMap =>
      let* r := mapLoop now (gta_WorkerID_ args) (tasks_ c) 0 (files_ c) in
      match r with
      | Some (index, filename, tasks) =>
          Ok (set_tasks c tasks, mkGetTaskReply TaskMap index filename (num_reduce_ c), false)
      | None => Ok (c, waitReply, false)
      end
  | TaskReduce =>
      let* r := reduceLoop now (gta_WorkerID_ args) (tasks_ c) 0 (tasks_ c) in
      match r with
      | Some (index, tasks) => Ok (set_tasks c tasks, mkGetTaskReply TaskReduce index "" (num_map_ c), false)
      | None => Ok (c, waitReply, false)
      end
  | TaskExit => Ok (c, mkGetTaskReply TaskExit 0 "" 0, false)
  | TaskWait => Ok (c, mkGetTaskReply TaskMap 0 "" 0, true)
  end.

Definition allDone (tasks : list TaskInfo) : bool :=
  forallb (fun t => bool_decide (State_ t = StateDone)) tasks.

(** The phase switch after a task was marked done. *)
Definition nextPhase (c : Coordinator) : Res (Coordinator * bool) :=
  match phase_ c with
  | TaskMap =>
      if negb (allDone (tasks_ c)) then Ok (c, true)
      else if decide (num_reduce_ c < 0) then Panic
      else Ok (set_tasks (set_phase c TaskReduce) (replicate (Z.to_nat (num_reduce_ c)) idleTask), true)
  | TaskReduce =>
      if negb (allDone (tasks_ c)) then Ok (c, true) else Ok (set_phase c TaskExit, true)
  | TaskExit => Ok (c, true)
  | TaskWait => Ok (c, false)
  end.

Definition ReportTaskDone (args : ReportTaskDoneArgs) (c : Coordinator) : Res (Coordinator * ReportTaskDoneReply) :=
  if decide (rd_Type_ args <> phase_ c) then Ok (c, mkReportTaskDoneReply true)
  else
    let* task := slice_get (tasks_ c) (rd_TaskID_ args) in
    if decide (State_ task = StateDone) then Ok (c, mkReportTaskDoneReply true)
    else
      let* tasks := slice_set (tasks_ c) (rd_TaskID_ args)
                      (mkTaskInfo StateDone (rd_WorkerID_ args) (Start_ task)) in
      let* p := nextPhase (set_tasks c tasks) in
      Ok (p.1, mkReportTaskDoneReply p.2).

Definition Done (c : Coordinator) : bool := bool_decide (phase_ c = TaskExit).

Definition Example (x : Z) : Z := i64 (x + 1).

(** ** Executions

    A state carries the reports that arrived, which the handlers do not
    look at. *)
Record Job := mkJob { j_c : Coordinator; j_reports : list (TaskType * Z) }.

Inductive job_step (j : Job) : Job -> Prop :=
| job_register c' reply :
    Register (j_c j) = (c', reply) -> job_step j (mkJob c' (j_reports j))
| job_get now wid c' reply err :
    GetTask now (mkGetTaskArgs wid) (j_c j) = Ok (c', reply, err) -> job_step j (mkJob c' (j_reports j))
| job_report args c' reply :
    ReportTaskDone args (j_c j) = Ok (c', reply) ->
    job_step j (mkJob c' ((rd_Type_ args, rd_TaskID_ args) :: j_reports j)).

Definition job_init (files : list string) (nReduce : Z) (j : Job) : Prop :=
  j = mkJob (MakeCoordinator files nReduce) [].

(** ** The invariant *)
Definition all_reported (h : list (TaskType * Z)) (ty : TaskType) (n : Z) : Prop :=
  forall i, 0 <= i < n -> (ty, i) ∈ h.

Definition done_reported (h : list (TaskType * Z)) (ty : TaskType) (tasks : list TaskInfo) : Prop :=
  forall i t, zlookup tasks i = Some t -> State_ t = StateDone -> (ty, i) ∈ h.

Definition phase_ok (c : Coordinator) (h : list (TaskType * Z)) : Prop :=
  match phase_ c with
  | TaskMap =>
      zlen (tasks_ c) = num_map_ c /\ done_reported h TaskMap (tasks_ c) /\
      (allDone (tasks_ c) = true -> num_map_ c = 0)
  | TaskReduce =>
      zlen (tasks_ c) = num_reduce_ c /\ done_reported h TaskReduce (tasks_ c) /\
      (allDone (tasks_ c) = true -> num_reduce_ c = 0) /\
      0 < num_map_ c /\ all_reported h TaskMap (num_map_ c)
  | TaskExit =>
      0 < num_map_ c /\ 0 < num_reduce_ c /\
      all_reported h TaskMap (num_map_ c) /\ all_reported h TaskReduce (num_reduce_ c)
  | TaskWait => False
  end.

Definition job_inv (files : list string) (nReduce : Z) (j : Job) : Prop :=
  files_ (j_c j) = files /\ num_map_ (j_c j) = zlen files /\ num_reduce_ (j_c j) = nReduce /\
  phase_ok (j_c j) (j_reports j).

Lemma tryTask_Some now wid t t' : tryTask now wid t = Some t' ->
  t' = mkTaskInfo StateInProgress wid now /\
  (State_ t = StateIdle \/ State_ t = StateInProgress /\ TIMEOUT < now - Start_ t).
Proof. unfold tryTask. destruct (State_ t) eqn:E; [| case_decide |]; intros; simplify_eq; rewrite ?E; auto. Qed.

Lemma slice_set_Ok {A} (l : list A) i a : 0 <= i < zlen l -> slice_set l i a = Ok (<[Z.to_nat i := a]> l).
Proof. intros H. unfold slice_set. by rewrite decide_True. Qed.

(** The task that a scan hands out: the first one it may. *)
Definition hands_out (now wid : Z) (tasks : list TaskInfo) (i : Z) (tasks' : list TaskInfo) : Prop :=
  exists t t', zlookup tasks i = Some t /\ tryTask now wid t = Some t' /\
    tasks' = <[Z.to_nat i := t']> tasks.

Definition passed_over (now wid : Z) (tasks : list TaskInfo) (b e : Z) : Prop :=
  forall j t, b <= j < e -> zlookup tasks j = Some t -> tryTask now wid t = None.

Lemma passed_over_next now wid tasks index e t :
  zlookup tasks index = Some t -> tryTask now wid t = None ->
  passed_over now wid tasks (index + 1) e -> passed_over now wid tasks index e.
Proof.
  intros Ht Hn Hp j t' Hj Ht'. destruct (decide (j = index)) as [->|]; [congruence |].
  eapply Hp; [| done]. lia.
Qed.

Lemma mapLoop_spec now wid tasks files : forall index, 0 <= index -> zlen tasks = index + zlen files ->
  (exists i filename tasks', mapLoop now wid tasks index files = Ok (Some (i, filename, tasks')) /\
     index <= i /\ zlookup files (i - index) = Some filename /\
     hands_out now wid tasks i tasks' /\ passed_over now wid tasks index i) \/
  (mapLoop now wid tasks index files = Ok None /\ passed_over now wid tasks index (zlen tasks)).
Proof.
  induction files as [|f files IH]; intros index H0 Hlen.
  { right. split; [done |]. intros j t Hj. rewrite zlen_nil in Hlen. lia. }
  rewrite zlen_cons in Hlen. pose proof (zlen_nonneg files).
  destruct (slice_get_ok tasks index) as (t & Ht & Hget); [lia |]. simpl. rewrite Hget. simpl.
  destruct (tryTask now wid t) as [t'|] eqn:Etry.
  - left. rewrite slice_set_Ok by lia. simpl. eexists _, _, _. split_and!; [done | lia | | by exists t, t' |].
    + by rewrite Z.sub_diag.
    + intros j t0 Hj. lia.
  - destruct (IH (index + 1)) as [(i & fn & tasks' & Hr & Hi & Hf & Hh & Hp)|[Hr Hp]]; [lia | lia | left | right].
    + exists i, fn, tasks'. split_and!; [done | lia | | done | by eapply passed_over_next].
      rewrite <- Hf. unfold zlookup. rewrite !decide_True by lia.
      replace (Z.to_nat (i - index)) with (S (Z.to_nat (i - (index + 1)))) by lia. done.
    + split; [done | by eapply passed_over_next].
Qed.

Lemma reduceLoop_spec now wid tasks rest : forall index, 0 <= index ->
  rest = drop (Z.to_nat index) tasks -> zlen tasks = index + zlen rest ->
  (exists i tasks', reduceLoop now wid tasks index rest = Ok (Some (i, tasks')) /\
     index <= i /\ hands_out now wid tasks i tasks' /\ passed_over now wid tasks index i) \/
  (reduceLoop now wid tasks index rest = Ok None /\ passed_over now wid tasks index (zlen tasks)).
Proof.
  induction rest as [|t rest IH]; intros index H0 Hrest Hlen.
  { right. split; [done |]. intros j t Hj. rewrite zlen_nil in Hlen. lia. }
  rewrite zlen_cons in Hlen. pose proof (zlen_nonneg rest).
  assert (zlookup tasks index = Some t) as Ht.
  { unfold zlookup. rewrite decide_True by lia. rewrite <- (Nat.add_0_r (Z.to_nat index)), <- lookup_drop. by rewrite <- Hrest. }
  simpl. destruct (tryTask now wid t) as [t'|] eqn:Etry.
  - left. rewrite slice_set_Ok by lia. simpl. eexists _, _. split_and!; [done | lia | by exists t, t' |].
    intros j t0 Hj. lia.
  - destruct (IH (index + 1)) as [(i & tasks' & Hr & Hi & Hh & Hp)|[Hr Hp]]; [lia | | lia | left | right].
    + replace (Z.to_nat (index + 1)) with (Z.to_nat index + 1)%nat by lia.
      rewrite <- drop_drop, <- Hrest. done.
    + exists i, tasks'. split_and!; [done | lia | done | by eapply passed_over_next].
    + split; [done | by eapply passed_over_next].
Qed.

(** ** Preservation *)
Lemma all_reported_mono h h' ty n : h ⊆ h' -> all_reported h ty n -> all_reported h' ty n.
Proof. intros Hs H i Hi. by apply Hs, H. Qed.

Lemma done_reported_mono h h' ty tasks : h ⊆ h' -> done_reported h ty tasks -> done_reported h' ty tasks.
Proof. intros Hs H i t Hi Ht. by eapply Hs, H. Qed.

Lemma phase_ok_mono c h h' : h ⊆ h' -> phase_ok c h -> phase_ok c h'.
Proof.
  intros Hs. unfold phase_ok. destruct (phase_ c); [..| done |]; intros; destruct_and!; split_and!;
    eauto using all_reported_mono, done_reported_mono.
Qed.

Lemma allDone_spec tasks : allDone tasks = true <-> forall i t, zlookup tasks i = Some t -> State_ t = StateDone.
Proof.
  unfold allDone. rewrite forallb_forall. split.
  - intros H i t Ht. specialize (H t). rewrite bool_decide_eq_true in H. apply H, list_elem_of_In.
    unfold zlookup in Ht. case_decide; [| done]. by eapply list_elem_of_lookup_2.
  - intros H t Ht%list_elem_of_In. apply bool_decide_eq_true.
    apply list_elem_of_lookup in Ht as [i Hi]. apply (H (Z.of_nat i)). unfold zlookup.
    by rewrite decide_True, Nat2Z.id by lia.
Qed.

Lemma zlookup_insert_inv {A} (l : list A) i j (a b : A) :
  0 <= i -> zlookup (<[Z.to_nat i := a]> l) j = Some b -> (j = i /\ b = a) \/ (j <> i /\ zlookup l j = Some b).
Proof.
  intros Hi H. destruct (decide (j = i)) as [->|Hne].
  - left. split; [done |]. apply zlookup_Some_range in H as Hr. rewrite zlen_insert in Hr.
    rewrite zlookup_insert_eq in H by done. congruence.
  - right. split; [done |]. by rewrite zlookup_insert_ne in H.
Qed.

(** A hand-out changes neither the length nor which tasks are done. *)
Lemma hands_out_keeps now wid tasks i tasks' h ty :
  hands_out now wid tasks i tasks' ->
  zlen tasks' = zlen tasks /\ allDone tasks' = false /\ (done_reported h ty tasks -> done_reported h ty tasks').
Proof.
  intros (t & t' & Ht & Htry & ->). apply zlookup_Some_range in Ht as Hr.
  destruct (tryTask_Some _ _ _ _ Htry) as [-> _]. split_and!.
  - apply zlen_insert.
  - apply not_true_iff_false. intros H. rewrite allDone_spec in H. specialize (H i).
    rewrite zlookup_insert_eq in H by done. by specialize (H _ eq_refl).
  - intros H j t0 [[-> ->]|[_ Hl]]%zlookup_insert_inv Hd; [done | by eapply H | lia].
Qed.

Lemma GetTask_ok now wid c h : phase_ok c h -> zlen (files_ c) = num_map_ c ->
  exists c' reply, GetTask now (mkGetTaskArgs wid) c = Ok (c', reply, false) /\
    files_ c' = files_ c /\ num_map_ c' = num_map_ c /\ num_reduce_ c' = num_reduce_ c /\ phase_ok c' h.
Proof.
  unfold phase_ok, GetTask. destruct (phase_ c) eqn:Ep; intros Hok Hf; [| | done |]; simpl.
  - destruct Hok as (Hl & Hd & Hn).
    destruct (mapLoop_spec now wid (tasks_ c) (files_ c) 0) as [(i & fn & ts & -> & Hi & _ & Hh & _)|[-> _]]; [lia | lia | |].
    + destruct (hands_out_keeps _ _ _ _ _ h TaskMap Hh) as (Hl' & Ha & Hd'). eexists _, _. split_and!; try done.
      unfold phase_ok. simpl. rewrite Ep, Ha. split_and!; [lia | auto | done].
    + eexists _, _. split_and!; try done. by rewrite Ep.
  - destruct Hok as (Hl & Hd & Hn & Hm & Hr).
    destruct (reduceLoop_spec now wid (tasks_ c) (tasks_ c) 0) as [(i & ts & -> & Hi & Hh & _)|[-> _]]; [lia | done | lia | |].
    + destruct (hands_out_keeps _ _ _ _ _ h TaskReduce Hh) as (Hl' & Ha & Hd'). eexists _, _. split_and!; try done.
      simpl. rewrite Ep, Ha. split_and!; [lia | auto | done..].
    + eexists _, _. split_and!; try done. by rewrite Ep.
  - eexists _, _. split_and!; try done. by rewrite Ep.
Qed.

Lemma fresh_table n h ty : 0 <= n ->
  zlen (replicate (Z.to_nat n) idleTask) = n /\ done_reported h ty (replicate (Z.to_nat n) idleTask) /\
  (allDone (replicate (Z.to_nat n) idleTask) = true -> n = 0).
Proof.
  intros Hn. assert (zlen (replicate (Z.to_nat n) idleTask) = n) as Hl by (unfold zlen; rewrite length_replicate; lia).
  assert (forall i t, zlookup (replicate (Z.to_nat n) idleTask) i = Some t -> t = idleTask) as Hi.
  { unfold zlookup. intros i t. case_decide; [| done]. by intros [-> _]%lookup_replicate. }
  split_and!; [done | |].
  - intros i t Ht. by rewrite (Hi i t Ht).
  - rewrite allDone_spec. intros Hall. destruct (decide (n = 0)) as [|Hne]; [done |]. exfalso.
    destruct (slice_get_ok (replicate (Z.to_nat n) idleTask) 0) as (t & Ht & _); [lia |].
    specialize (Hall 0 t Ht). by rewrite (Hi 0 t Ht) in Hall.
Qed.

(** Marking a task done, after its report arrived. *)
Lemma mark_done h ty tasks i t t' :
  zlookup tasks i = Some t -> State_ t' = StateDone -> done_reported h ty tasks ->
  let tasks' := <[Z.to_nat i := t']> tasks in
  zlen tasks' = zlen tasks /\ done_reported ((ty, i) :: h) ty tasks' /\
  (allDone tasks' = true -> 0 < zlen tasks /\ all_reported ((ty, i) :: h) ty (zlen tasks)).
Proof.
  intros Ht Ht' Hd. simpl. apply zlookup_Some_range in Ht as Hr.
  assert (done_reported ((ty, i) :: h) ty (<[Z.to_nat i := t']> tasks)) as Hd'.
  { intros j t0 [[-> ->]|[_ Hl]]%zlookup_insert_inv Hs; [apply list_elem_of_here | | lia].
    apply list_elem_of_further. by eapply Hd. }
  split_and!; [apply zlen_insert | done |]. intros Ha. split; [lia |]. intros j Hj.
  destruct (slice_get_ok (<[Z.to_nat i := t']> tasks) j) as (t0 & Ht0 & _); [by rewrite zlen_insert |].
  eapply Hd'; [done |]. by eapply allDone_spec.
Qed.

Lemma ReportTaskDone_ok args c h c' reply :
  phase_ok c h -> 0 <= num_reduce_ c -> ReportTaskDone args c = Ok (c', reply) ->
  files_ c' = files_ c /\ num_map_ c' = num_map_ c /\ num_reduce_ c' = num_reduce_ c /\
  phase_ok c' ((rd_Type_ args, rd_TaskID_ args) :: h).
Proof.
  intros Hok Hnr H. unfold ReportTaskDone in H.
  assert (h ⊆ (rd_Type_ args, rd_TaskID_ args) :: h) as Hs by (intros x; apply list_elem_of_further).
  destruct (decide (rd_Type_ args <> phase_ c)) as [|Hty]; [simplify_eq; split_and!; [done.. | by eapply phase_ok_mono] |].
  apply dec_stable in Hty. rewrite Hty in *. res_inv.
  destruct (decide (State_ x = StateDone)); [res_inv; split_and!; [done.. | by eapply phase_ok_mono] |].
  apply zlookup_Some_range in E as Hr. rewrite slice_set_Ok in H by done. simpl in H. res_inv.
  set (tasks' := <[_ := _]> (tasks_ c)) in *. rename E0 into Hnext.
  unfold nextPhase in Hnext. simpl in Hnext. unfold phase_ok in Hok.
  destruct (phase_ c) eqn:Ep; [| | done |].
  - destruct Hok as (Hl & Hd & Hn).
    destruct (mark_done h TaskMap (tasks_ c) (rd_TaskID_ args) x (mkTaskInfo StateDone (rd_WorkerID_ args) (Start_ x))
      E eq_refl Hd) as (Hl' & Hd' & Ha'). fold tasks' in Hl', Hd', Ha'.
    destruct (allDone tasks') eqn:Ea; simpl in Hnext.
    + destruct (Ha' eq_refl) as [Hpos Hall]. rewrite Hl in Hpos, Hall.
      rewrite decide_False in Hnext by lia. injection Hnext as <- <-. split_and!; try done. unfold phase_ok. simpl.
      destruct (fresh_table (num_reduce_ c) ((TaskMap, rd_TaskID_ args) :: h) TaskReduce Hnr) as (? & ? & ?).
      split_and!; done.
    + injection Hnext as <- <-. split_and!; try done. unfold phase_ok. simpl. rewrite Ep, Ea. split_and!; [lia | done | done].
  - destruct Hok as (Hl & Hd & Hn & Hm & Hall).
    destruct (mark_done h TaskReduce (tasks_ c) (rd_TaskID_ args) x (mkTaskInfo StateDone (rd_WorkerID_ args) (Start_ x))
      E eq_refl Hd) as (Hl' & Hd' & Ha'). fold tasks' in Hl', Hd', Ha'.
    destruct (allDone tasks') eqn:Ea; simpl in Hnext; injection Hnext as <- <-; (split_and!; [done.. |]); unfold phase_ok; simpl.
    + destruct (Ha' eq_refl) as [Hpos Hred]. rewrite Hl in Hpos, Hred.
      split_and!; [done | done | by eapply all_reported_mono | done].
    + rewrite Ep, Ea. split_and!; [lia | done | done | done | by eapply all_reported_mono].
  - injection Hnext as <- <-. split_and!; try done. unfold phase_ok. simpl. rewrite Ep.
    destruct Hok as (? & ? & ? & ?). split_and!; [done | done | by eapply all_reported_mono..].
Qed.

Lemma Register_ok c c' reply h : Register c = (c', reply) -> phase_ok c h ->
  files_ c' = files_ c /\ num_map_ c' = num_map_ c /\ num_reduce_ c' = num_reduce_ c /\ phase_ok c' h.
Proof. unfold Register. intros H Hok. repeat case_decide; by simplify_eq. Qed.

Lemma job_inv_step files n j j' : 0 <= n -> job_inv files n j -> job_step j j' -> job_inv files n j'.
Proof.
  intros Hn (Hf & Hm & Hr & Hok) Hstep. destruct Hstep as [c' reply H|now wid c' reply err H|args c' reply H].
  - destruct (Register_ok _ _ _ _ H Hok) as (? & ? & ? & ?). unfold job_inv. simpl. split_and!; congruence.
  - destruct (GetTask_ok now wid _ _ Hok) as (c1 & r1 & H1 & ? & ? & ? & ?); [by rewrite Hm, Hf |].
    rewrite H1 in H. simplify_eq. unfold job_inv. simpl. split_and!; congruence.
  - destruct (ReportTaskDone_ok _ _ _ _ _ Hok ltac:(lia) H) as (? & ? & ? & ?).
    unfold job_inv. simpl. split_and!; congruence.
Qed.

Lemma job_inv_init files n j : 0 <= n -> job_init files n j -> job_inv files n j.
Proof.
  intros Hn ->. unfold job_inv, phase_ok. simpl. split_and!; try done.
  - unfold zlen. by rewrite length_replicate.
  - intros i t Ht. unfold zlookup in Ht. case_decide; [| done]. by apply lookup_replicate in Ht as [-> _].
  - intros Ha. destruct files as [|f files]; [done |]. simpl in Ha. discriminate.
Qed.

Lemma reachable_job_inv files n j : 0 <= n -> reachable (job_init files n) job_step j -> job_inv files n j.
Proof.
  intros Hn. apply invariant_reachable; [intros s; by apply job_inv_init | intros s s'; by apply job_inv_step].
Qed.

(** ** Progress *)
Definition undone (tasks : list TaskInfo) : nat := length (filter (fun t => State_ t <> StateDone) tasks).

Lemma undone_insert tasks i t t' : tasks !! i = Some t -> State_ t <> StateDone -> State_ t' = StateDone ->
  undone tasks = S (undone (<[i := t']> tasks)).
Proof.
  revert i. unfold undone. induction tasks as [|t0 tasks IH]; intros [|i] Hi Ht Ht'; simplify_eq/=.
  - rewrite filter_cons_True by done. rewrite filter_cons_False by (intros H; by apply H). done.
  - rewrite !filter_cons. destruct (decide (State_ t0 <> StateDone)); simpl; by rewrite (IH i Hi Ht Ht').
Qed.

Lemma not_allDone tasks : allDone tasks = false -> exists i t, zlookup tasks i = Some t /\ State_ t <> StateDone.
Proof.
  intros H. destruct (decide (Exists (fun t => State_ t <> StateDone) tasks)) as [(t & Ht & Hs)%Exists_exists|Hn].
  - apply list_elem_of_In, list_elem_of_lookup in Ht as [i Hi]. exists (Z.of_nat i), t. split; [| done].
    unfold zlookup. by rewrite decide_True, Nat2Z.id by lia.
  - exfalso. apply not_true_iff_false in H. apply H. apply allDone_spec. intros i t Ht.
    destruct (decide (State_ t = StateDone)) as [|Hne]; [done |]. destruct Hn.
    unfold zlookup in Ht. case_decide; [| done]. apply Exists_exists. exists t. split; [| done].
    apply list_elem_of_In. by eapply list_elem_of_lookup_2.
Qed.

Definition job_left (c : Coordinator) : nat :=
  match phase_ c with
  | TaskMap => undone (tasks_ c) + Z.to_nat (num_reduce_ c)
  | TaskReduce => undone (tasks_ c)
  | _ => 0
  end%nat.

Lemma undone_fresh n : undone (replicate n idleTask) = n.
Proof.
  induction n as [|n IH]; [done |]. unfold undone in *. change (replicate (S n) idleTask) with (idleTask :: replicate n idleTask).
  rewrite filter_cons_True by done. simpl. by rewrite IH.
Qed.

(** A report of an unfinished task of the current phase gets nearer to
    the end. *)
Lemma report_progress c h i t :
  phase_ok c h -> (phase_ c = TaskMap \/ phase_ c = TaskReduce) -> 0 <= num_reduce_ c ->
  zlookup (tasks_ c) i = Some t -> State_ t <> StateDone ->
  exists c' reply, ReportTaskDone (mkReportTaskDoneArgs 0 (phase_ c) i) c = Ok (c', reply) /\
    (job_left c' < job_left c)%nat.
Proof.
  intros Hok Hph Hr Ht Hs. unfold ReportTaskDone. simpl. rewrite decide_False by (intros K; by apply K).
  unfold slice_get. rewrite Ht. simpl. rewrite decide_False by done.
  apply zlookup_Some_range in Ht as Hrange. rewrite slice_set_Ok by done. simpl.
  assert (tasks_ c !! Z.to_nat i = Some t) as Hl by (unfold zlookup in Ht; rewrite decide_True in Ht by lia; done).
  pose proof (undone_insert (tasks_ c) (Z.to_nat i) t (mkTaskInfo StateDone 0 (Start_ t)) Hl Hs eq_refl) as Hu.
  unfold nextPhase, job_left. simpl.
  destruct (phase_ c) eqn:Ep; [| | by destruct Hph..]; destruct (allDone (<[_ := _]> _)) eqn:Ea; simpl.
  - rewrite decide_False by lia. simpl. eexists _, _. split; [done |]. simpl. rewrite undone_fresh. lia.
  - eexists _, _. split; [done |]. simpl. rewrite Ep. lia.
  - eexists _, _. split; [done |]. simpl. lia.
  - eexists _, _. split; [done |]. simpl. rewrite Ep. lia.
Qed.

Lemma can_finish files n : 0 < zlen files -> 0 < n -> forall k j, (job_left (j_c j) <= k)%nat -> job_inv files n j ->
  exists j', rtc job_step j j' /\ Done (j_c j') = true.
Proof.
  intros Hf Hn. induction k as [k IH] using lt_wf_ind. intros j Hk Hinv.
  pose proof Hinv as (_ & Hm & Hr & Hok).
  destruct (decide (phase_ (j_c j) = TaskExit)) as [He|Hne].
  { exists j. split; [done |]. unfold Done. by rewrite bool_decide_true. }
  assert (phase_ (j_c j) = TaskMap \/ phase_ (j_c j) = TaskReduce) as Hph.
  { unfold phase_ok in Hok. destruct (phase_ (j_c j)); auto; done. }
  assert (allDone (tasks_ (j_c j)) = false) as Ha.
  { apply not_true_iff_false. intros Ha. unfold phase_ok in Hok.
    destruct Hph as [Hp|Hp]; rewrite Hp in Hok; [destruct Hok as (_ & _ & K) | destruct Hok as (_ & _ & K & _)];
      specialize (K Ha); lia. }
  destruct (not_allDone _ Ha) as (i & t & Ht & Hs).
  destruct (report_progress _ _ i t Hok Hph) as (c' & reply & Hrep & Hlt); [lia | done | done |].
  pose proof (job_report j _ _ _ Hrep) as Hstep.
  pose proof (job_inv_step files n _ _ ltac:(lia) Hinv Hstep) as Hinv'.
  destruct (fun Hle => IH (job_left c') ltac:(lia) _ Hle Hinv') as (j' & Hsteps & Hd); [simpl; lia |].
  exists j'. split; [by eapply rtc_l | done].
Qed.

(** ** Properties *)

(** The phases are honest.  In every execution, whatever workers
    send and in whatever order, the reduce phase is reached only after
    the completion of every map task was reported, and [Done] holds only
    after that of every map and reduce task; [GetTask] never fails. *)
Theorem phases_in_order files n j : 0 <= n -> reachable (job_init files n) job_step j ->
  (phase_ (j_c j) <> TaskMap -> forall i, 0 <= i < zlen files -> (TaskMap, i) ∈ j_reports j) /\
  (Done (j_c j) = true -> forall i, 0 <= i < n -> (TaskReduce, i) ∈ j_reports j) /\
  (forall now wid, exists c' reply, GetTask now (mkGetTaskArgs wid) (j_c j) = Ok (c', reply, false)).
Proof.
  intros Hn Hj. destruct (reachable_job_inv _ _ _ Hn Hj) as (Hf & Hm & Hr & Hok).
  pose proof Hok as Hok'. unfold phase_ok in Hok'. split_and!.
  - intros Hp i Hi. destruct (phase_ (j_c j)); [done | | done |];
      destruct_and!; match goal with H : all_reported _ TaskMap _ |- _ => apply H end; lia.
  - unfold Done. rewrite bool_decide_eq_true. intros Hp i Hi. rewrite Hp in Hok'. destruct_and!.
    match goal with H : all_reported _ TaskReduce _ |- _ => apply H end. lia.
  - intros now wid. destruct (GetTask_ok now wid _ _ Hok) as (c' & reply & H & _); [by rewrite Hm, Hf | eauto].
Qed.

Definition ex_job : Job :=
  mkJob (mkCoordinator ["f"] 1 1 TaskReduce [idleTask] 0) [(TaskMap, 0)].

Lemma ex_job_reachable : reachable (job_init ["f"] 1) job_step ex_job.
Proof.
  apply (reach_step _ _ (mkJob (MakeCoordinator ["f"] 1) [])); [by apply reach_init |].
  refine (job_report (mkJob (MakeCoordinator ["f"] 1) []) (mkReportTaskDoneArgs 7 TaskMap 0)
    (j_c ex_job) (mkReportTaskDoneReply true) _). vm_compute. reflexivity.
Qed.

Lemma phases_in_order_witness :
  (phase_ (j_c ex_job) <> TaskMap -> forall i, 0 <= i < zlen ["f"] -> (TaskMap, i) ∈ j_reports ex_job) /\
  (Done (j_c ex_job) = true -> forall i, 0 <= i < 1 -> (TaskReduce, i) ∈ j_reports ex_job) /\
  (forall now wid, exists c' reply, GetTask now (mkGetTaskArgs wid) (j_c ex_job) = Ok (c', reply, false)).
Proof. apply (phases_in_order ["f"] 1 ex_job); [lia | apply ex_job_reachable]. Defined.

(** What [GetTask] hands out.  In the map and the reduce phase a
    worker gets the first task that is idle, or in progress for longer
    than the timeout; the task is recorded as in progress for this worker
    from now on, no other task changes, and finished tasks are never
    handed out.  The worker is told to wait exactly when there is no such
    task. *)
Theorem GetTask_hands_out now wid c h :
  phase_ok c h -> zlen (files_ c) = num_map_ c -> phase_ c = TaskMap \/ phase_ c = TaskReduce ->
  (exists i t reply,
     zlookup (tasks_ c) i = Some t /\
     (State_ t = StateIdle \/ State_ t = StateInProgress /\ TIMEOUT < now - Start_ t) /\
     (forall j t', 0 <= j < i -> zlookup (tasks_ c) j = Some t' ->
        State_ t' = StateDone \/ State_ t' = StateInProgress /\ now - Start_ t' <= TIMEOUT) /\
     GetTask now (mkGetTaskArgs wid) c =
       Ok (set_tasks c (<[Z.to_nat i := mkTaskInfo StateInProgress wid now]> (tasks_ c)), reply, false) /\
     gt_Type_ reply = phase_ c /\ gt_TaskID_ reply = i /\
     (phase_ c = TaskMap -> zlookup (files_ c) i = Some (gt_FileName_ reply) /\ gt_NumSlices_ reply = num_reduce_ c) /\
     (phase_ c = TaskReduce -> gt_NumSlices_ reply = num_map_ c)) \/
  (GetTask now (mkGetTaskArgs wid) c = Ok (c, waitReply, false) /\
   forall j t', zlookup (tasks_ c) j = Some t' ->
     State_ t' = StateDone \/ State_ t' = StateInProgress /\ now - Start_ t' <= TIMEOUT).
Proof.
  assert (forall t, tryTask now wid t = None ->
    State_ t = StateDone \/ State_ t = StateInProgress /\ now - Start_ t <= TIMEOUT) as Hnone.
  { intros t. unfold tryTask. destruct (State_ t); [done | case_decide; [done | intros _; right; split; [done | lia]] | by left]. }
  unfold phase_ok, GetTask. intros Hok Hf [Hp|Hp]; rewrite Hp in *; simpl; destruct Hok as (Hl & _).
  - destruct (mapLoop_spec now wid (tasks_ c) (files_ c) 0)
      as [(i & fn & ts & -> & Hi & Hfn & (t & t' & Ht & Htry & ->) & Hpass)|[-> Hpass]]; [lia | lia | left | right]; simpl.
    + destruct (tryTask_Some _ _ _ _ Htry) as [-> Hst]. rewrite Z.sub_0_r in Hfn.
      eexists i, t, _. split_and!; try done. intros j t' Hj Hlk. eapply Hnone, Hpass; eauto.
    + split; [done |]. intros j t' Hlk. eapply Hnone, Hpass; [by apply zlookup_Some_range in Hlk | done].
  - destruct (reduceLoop_spec now wid (tasks_ c) (tasks_ c) 0)
      as [(i & ts & -> & Hi & (t & t' & Ht & Htry & ->) & Hpass)|[-> Hpass]]; [lia | done | lia | left | right]; simpl.
    + destruct (tryTask_Some _ _ _ _ Htry) as [-> Hst].
      eexists i, t, _. split_and!; try done. intros j t' Hj Hlk. eapply Hnone, Hpass; eauto.
    + split; [done |]. intros j t' Hlk. eapply Hnone, Hpass; [by apply zlookup_Some_range in Hlk | done].
Qed.

Lemma GetTask_hands_out_witness :
  (exists i t reply,
     zlookup [idleTask] i = Some t /\
     (State_ t = StateIdle \/ State_ t = StateInProgress /\ TIMEOUT < 5 - Start_ t) /\
     (forall j t', 0 <= j < i -> zlookup [idleTask] j = Some t' ->
        State_ t' = StateDone \/ State_ t' = StateInProgress /\ 5 - Start_ t' <= TIMEOUT) /\
     GetTask 5 (mkGetTaskArgs 7) (j_c ex_job) =
       Ok (set_tasks (j_c ex_job) (<[Z.to_nat i := mkTaskInfo StateInProgress 7 5]> [idleTask]), reply, false) /\
     gt_Type_ reply = TaskReduce /\ gt_TaskID_ reply = i /\
     (TaskReduce = TaskMap -> zlookup ["f"] i = Some (gt_FileName_ reply) /\ gt_NumSlices_ reply = 1) /\
     (TaskReduce = TaskReduce -> gt_NumSlices_ reply = 1)) \/
  (GetTask 5 (mkGetTaskArgs 7) (j_c ex_job) = Ok (j_c ex_job, waitReply, false) /\
   forall j t', zlookup [idleTask] j = Some t' ->
     State_ t' = StateDone \/ State_ t' = StateInProgress /\ 5 - Start_ t' <= TIMEOUT).
Proof.
  apply (GetTask_hands_out 5 7 (j_c ex_job) [(TaskMap, 0)]); [| reflexivity | right; reflexivity].
  apply (reachable_job_inv ["f"] 1 ex_job); [lia | apply ex_job_reachable].
Defined.

(** C28: When the job ends.  With at least one input file and one reduce
    task, [Done] can be reached from every reachable state, by reports of
    the unfinished tasks; without input files the coordinator stays in
    the map phase for ever and [Done] never holds. *)
Theorem job_termination files n j : 0 < n -> reachable (job_init files n) job_step j ->
  (files <> [] -> exists j', rtc job_step j j' /\ Done (j_c j') = true) /\
  (files = [] -> phase_ (j_c j) = TaskMap /\ Done (j_c j) = false).
Proof.
  intros Hn Hj. pose proof (reachable_job_inv _ _ _ (Z.lt_le_incl _ _ Hn) Hj) as Hinv. split.
  - intros Hf. apply (can_finish files n) with (k := job_left (j_c j)); [| done | done | done].
    destruct files as [|f files]; [done |]. rewrite zlen_cons. pose proof (zlen_nonneg files). lia.
  - intros ->. destruct Hinv as (_ & Hm & _ & Hok). change (zlen []) with 0 in Hm. unfold phase_ok in Hok.
    unfold Done. destruct (phase_ (j_c j)); destruct_and?; try lia; done.
Qed.

Lemma job_termination_witness :
  (["f"] <> [] -> exists j', rtc job_step ex_job j' /\ Done (j_c j') = true) /\
  (["f"] = [] -> phase_ (j_c ex_job) = TaskMap /\ Done (j_c ex_job) = false).
Proof. apply (job_termination ["f"] 1 ex_job); [lia | apply ex_job_reachable]. Defined.
