(* ===== verification/MrWorker.v ===== *)
(** * The MapReduce worker and applications ([mr/worker.go],
      [main/mrsequential.go], [mrapps/wc.go], [mrapps/indexer.go])

    The data path of a job: a map task partitions and sorts its pairs and
    prints them to one file per reduce task; a reduce task parses its
    files, sorts, groups by key and reduces.  The theorems relate the
    grouping loops to a reference grouping and the distributed job to the
    sequential one.  Text is ASCII: one byte is one rune. *)
From S2P Require Import Prelude ShardCfg.
From stdpp Require Import pretty.
#[local] Open Scope Z_scope.
#[local] Arguments String.append !s1 s2 : simpl nomatch.

Record KeyValue := mkKeyValue { Key : string; Value : string }.

#[export] Instance KeyValue_eq_dec : EqDecision KeyValue. Proof. solve_decision. Defined.

(** The order of [ByKey.Less], as "not greater". *)
Definition key_le (a b : KeyValue) : Prop := String.le (Key a) (Key b).

#[export] Instance key_le_dec : RelDecision key_le.
Proof. intros a b. unfold key_le. apply _. Defined.

(** [sort.Sort] sorts by the order of [Less] and is not stable. *)
Class Sorter := {
  sort : list KeyValue -> list KeyValue;
  sort_perm : forall l, sort l ≡ₚ l;
  sort_sorted : forall l, StronglySorted key_le (sort l);
}.

Definition ihash (key : string) : Z := Z.land (fnv32a (bytes_of key)) 2147483647.

(** ** Text *)

(** [strings.FieldsFunc]: the runs of characters on which [f] is false. *)
Fixpoint fieldsFrom (f : Ascii.ascii -> bool) (cur s : string) : list string :=
  match s with
  | EmptyString => if decide (cur = "") then [] else [cur]
  | String c s =>
      if f c then (if decide (cur = "") then fieldsFrom f "" s else cur :: fieldsFrom f "" s)
      else fieldsFrom f (cur +:+ String c "") s
  end.

Definition FieldsFunc (s : string) (f : Ascii.ascii -> bool) : list string := fieldsFrom f "" s.

Definition code (c : Ascii.ascii) : Z := Z.of_N (Ascii.N_of_ascii c).

Definition isNewline (c : Ascii.ascii) : bool := bool_decide (code c = 10) || bool_decide (code c = 13).

(** [strings.Fields] splits at ASCII white space. *)
Definition isSpace (c : Ascii.ascii) : bool :=
  bool_decide (9 <= code c <= 13) || bool_decide (code c = 32).

Definition Fields (s : string) : list string := FieldsFunc s isSpace.

(** [fmt.Fprintf(ofile, "%v %v\n", k, v)]. *)
Definition newline : string := String (Ascii.ascii_of_nat 10) "".
Definition printLine (k v : string) : string := k +:+ " " +:+ v +:+ newline.

Definition printKVs (kvs : list KeyValue) : string :=
  foldr (fun kv s => printLine (Key kv) (Value kv) +:+ s) "" kvs.

(** ** A map task *)

(** The loop that distributes the pairs over the reduce tasks. *)
Fixpoint partition (numSlices : Z) (kva : list KeyValue) (intermediates : list (list KeyValue)) :
    Res (list (list KeyValue)) :=
  match kva with
  | [] => Ok intermediates
  | kv :: kva =>
      if decide (numSlices = 0) then Panic
      else
        let index := Z.rem (ihash (Key kv)) numSlices in
        let* part := slice_get intermediates index in
        let* intermediates := slice_set intermediates index (part ++ [kv]) in
        partition numSlices kva intermediates
  end.

Section Tasks.
Context `{sorter : !Sorter}.

(** The contents of the intermediate files of a map task. *)
Definition mapTask (numSlices : Z) (kva : list KeyValue) : Res (list string) :=
  if decide (numSlices < 0) then Panic
  else
    let* parts := partition numSlices kva (replicate (Z.to_nat numSlices) []) in
    Ok ((fun part => printKVs (sort part)) <$> parts).

(** ** A reduce task *)
Fixpoint parseLines (lines : list string) : Res (list KeyValue) :=
  match lines with
  | [] => Ok []
  | kv_string :: lines =>
      let kv_slice := Fields kv_string in
      let* k := slice_get kv_slice 0 in
      let* v := slice_get kv_slice 1 in
      let* kvs := parseLines lines in
      Ok (mkKeyValue k v :: kvs)
  end.

Definition parseFile (content : string) : Res (list KeyValue) := parseLines (FieldsFunc content isNewline).

(** Read the files of all map tasks, in the order of their indices. *)
Fixpoint readAll (contents : list string) : Res (list KeyValue) :=
  match contents with
  | [] => Ok []
  | content :: contents =>
      let* kvs := parseFile content in
      let* rest := readAll contents in
      Ok (kvs ++ rest)
  end.

(** The inner loop: the first index from [j] on whose key is another. *)
Fixpoint runEnd (key : string) (j : Z) (rest : list KeyValue) : Z :=
  match rest with
  | [] => j
  | kv :: rest => if decide (key = Key kv) then runEnd key (j + 1) rest else j
  end.

(** The outer loop; [None] when the fuel is used up. *)
Fixpoint groupLoop (fuel : nat) (reducef : string -> list string -> string) (kvs : list KeyValue)
    (values : list string) (i : Z) (keys : list string) (result : gmap string string) :
    Res (option (list string * gmap string string)) :=
  match fuel with
  | O => Ok None
  | S fuel =>
      if decide (i < zlen kvs) then
        let* kvi := slice_get kvs i in
        let j := runEnd (Key kvi) (i + 1) (drop (Z.to_nat (i + 1)) kvs) in
        let* vals := slice_sub values i j in
        let keys := keys ++ [Key kvi] in
        let result := <[Key kvi := reducef (Key kvi) vals]> result in
        if decide (j < zlen kvs) then groupLoop fuel reducef kvs values j keys result
        else Ok (Some (keys, result))
      else Ok (Some (keys, result))
  end.

Definition reduceKVs (reducef : string -> list string -> string) (kvs : list KeyValue) :
    Res (option (list string * gmap string string)) :=
  groupLoop (S (length kvs)) reducef kvs (Value <$> kvs) 0 [] ∅.

(** The output file: one line per key, in the order of [keys]. *)
Definition outputPairs (keys : list string) (result : gmap string string) : list KeyValue :=
  (fun k => mkKeyValue k (default "" (result !! k))) <$> keys.

Definition reduceTask (reducef : string -> list string -> string) (contents : list string) :
    Res (option string) :=
  let* kvs := readAll contents in
  let* r := reduceKVs reducef (sort kvs) in
  Ok ((fun p => printKVs (outputPairs p.1 p.2)) <$> r).

(** ** [main/mrsequential.go] *)

(** The second loop of [main]; [values] is built from [i] to [j]. *)
Fixpoint sequentialLoop (fuel : nat) (reducef : string -> list string -> string)
    (intermediate : list KeyValue) (i : Z) (out : list KeyValue) : Res (option (list KeyValue)) :=
  match fuel with
  | O => Ok None
  | S fuel =>
      if decide (i < zlen intermediate) then
        let* kvi := slice_get intermediate i in
        let j := runEnd (Key kvi) (i + 1) (drop (Z.to_nat (i + 1)) intermediate) in
        let* run := slice_sub intermediate i j in
        let output := reducef (Key kvi) (Value <$> run) in
        sequentialLoop fuel reducef intermediate j (out ++ [mkKeyValue (Key kvi) output])
      else Ok (Some out)
  end.

Definition sequential (mapf : string -> string -> list KeyValue)
    (reducef : string -> list string -> string) (files : list (string * string)) : Res (option (list KeyValue)) :=
  let intermediate := sort (foldl (fun acc file => acc ++ mapf file.1 file.2) [] files) in
  sequentialLoop (S (length intermediate)) reducef intermediate 0 [].
End Tasks.

(** ** The applications *)
Definition isLetter (c : Ascii.ascii) : bool :=
  bool_decide (65 <= code c <= 90) || bool_decide (97 <= code c <= 122).

Module Wc.
Definition Map (filename contents : string) : list KeyValue :=
  (fun w => mkKeyValue w "1") <$> FieldsFunc contents (fun r => negb (isLetter r)).

Definition Reduce (key : string) (values : list string) : string := pretty (zlen values).
End Wc.

Module Indexer.
(** [order] is the order in which Go iterates the map [m]. *)
Definition Map (order : gset string -> list string) (document value : string) : list KeyValue :=
  let m : gset string := list_to_set (FieldsFunc value (fun x => negb (isLetter x))) in
  (fun w => mkKeyValue w document) <$> order m.

Fixpoint Join (l : list string) (sep : string) : string :=
  match l with
  | [] => ""
  | [s] => s
  | s :: l => s +:+ sep +:+ Join l sep
  end.

Definition Reduce (key : string) (values : list string) : string :=
  let values := merge_sort String.le values in
  pretty (zlen values) +:+ " " +:+ Join values ",".
End Indexer.

(** ** The reference grouping *)
Fixpoint runs (kvs : list KeyValue) : list (string * list string) :=
  match kvs with
  | [] => []
  | kv :: kvs =>
      match runs kvs with
      | (k, vs) :: gs =>
          if decide (Key kv = k) then (k, Value kv :: vs) :: gs else (Key kv, [Value kv]) :: (k, vs) :: gs
      | [] => [(Key kv, [Value kv])]
      end
  end.

(** The values of a key, in order. *)
Definition values_of (k : string) (kvs : list KeyValue) : list string :=
  Value <$> filter (fun kv => Key kv = k) kvs.

Definition reduced (reducef : string -> list string -> string) (gs : list (string * list string)) : list KeyValue :=
  (fun g => mkKeyValue g.1 (reducef g.1 g.2)) <$> gs.

(** ** The loops compute the reference grouping *)
Fixpoint lead (key : string) (l : list KeyValue) : nat :=
  match l with
  | [] => 0
  | kv :: l => if decide (key = Key kv) then S (lead key l) else 0
  end%nat.

Lemma runEnd_lead key l : forall j, runEnd key j l = j + Z.of_nat (lead key l).
Proof. induction l as [|kv l IH]; intros j; simpl; [lia |]. case_decide; [rewrite IH |]; lia. Qed.

Lemma lead_le key l : (lead key l <= length l)%nat.
Proof. induction l as [|kv l IH]; simpl; [lia |]. case_decide; lia. Qed.

Lemma runs_split l : forall kv,
  runs (kv :: l) = (Key kv, Value kv :: (Value <$> take (lead (Key kv) l) l)) :: runs (drop (lead (Key kv) l) l).
Proof.
  induction l as [|x l IH]; intros kv; [done |].
  change (runs (kv :: x :: l)) with (match runs (x :: l) with
    | (k, vs) :: gs => if decide (Key kv = k) then (k, Value kv :: vs) :: gs else (Key kv, [Value kv]) :: (k, vs) :: gs
    | [] => [(Key kv, [Value kv])] end).
  simpl lead. destruct (decide (Key kv = Key x)) as [He|He].
  - rewrite (IH x), He. by rewrite decide_True.
  - change (drop 0 (x :: l)) with (x :: l). rewrite (IH x). by rewrite decide_False.
Qed.

(** One round of either loop at index [n]. *)
Lemma round kvs n kv : kvs !! n = Some kv ->
  let m := lead (Key kv) (drop (S n) kvs) in
  runEnd (Key kv) (Z.of_nat n + 1) (drop (Z.to_nat (Z.of_nat n + 1)) kvs) = Z.of_nat (n + S m) /\
  (n + S m <= length kvs)%nat /\
  slice_get kvs (Z.of_nat n) = Ok kv /\
  slice_sub kvs (Z.of_nat n) (Z.of_nat (n + S m)) = Ok (kv :: take m (drop (S n) kvs)) /\
  runs (drop n kvs) = (Key kv, Value kv :: (Value <$> take m (drop (S n) kvs))) :: runs (drop (n + S m) kvs).
Proof.
  intros Hn. simpl. apply lookup_lt_Some in Hn as Hlt.
  replace (Z.to_nat (Z.of_nat n + 1)) with (S n) by lia. rewrite runEnd_lead.
  pose proof (lead_le (Key kv) (drop (S n) kvs)) as Hle. rewrite length_drop in Hle.
  set (m := lead (Key kv) (drop (S n) kvs)) in *. split_and!; [lia | lia | | |].
  - unfold slice_get, zlookup. by rewrite decide_True, Nat2Z.id, Hn by lia.
  - unfold slice_sub. rewrite decide_True by (unfold zlen; lia).
    replace (Z.to_nat (Z.of_nat (n + S m) - Z.of_nat n)) with (S m) by lia. rewrite Nat2Z.id.
    by rewrite (drop_S _ _ _ Hn).
  - rewrite (drop_S _ _ _ Hn), runs_split. fold m. rewrite drop_drop. do 3 f_equal. lia.
Qed.

Lemma slice_sub_fmap {A B} (f : A -> B) l b e l' : slice_sub l b e = Ok l' -> slice_sub (f <$> l) b e = Ok (f <$> l').
Proof.
  unfold slice_sub, zlen. rewrite length_fmap. case_decide; [| done]. intros [= <-].
  by rewrite fmap_take, fmap_drop.
Qed.

Definition insert_runs (reducef : string -> list string -> string) (result : gmap string string)
    (gs : list (string * list string)) : gmap string string :=
  foldl (fun m g => <[g.1 := reducef g.1 g.2]> m) result gs.

Lemma groupLoop_spec reducef kvs fuel : forall n keys result,
  (n <= length kvs)%nat -> (length kvs - n < fuel)%nat ->
  groupLoop fuel reducef kvs (Value <$> kvs) (Z.of_nat n) keys result =
    Ok (Some (keys ++ (runs (drop n kvs)).*1, insert_runs reducef result (runs (drop n kvs)))).
Proof.
  induction fuel as [|fuel IH]; intros n keys result Hn Hf; [lia |]. cbn [groupLoop].
  destruct (decide (n < length kvs)%nat) as [Hlt|Hge].
  - rewrite decide_True by (unfold zlen; lia).
    destruct (lookup_lt_is_Some_2 kvs n Hlt) as [kv Hkv].
    destruct (round kvs n kv Hkv) as (Hend & Hle & Hget & Hs & ->).
    rewrite Hget. cbn [res_bind]. rewrite Hend.
    set (m := lead _ _) in *. rewrite (slice_sub_fmap Value _ _ _ _ Hs). cbn [res_bind].
    case_decide as Hj.
    + rewrite IH by lia. by rewrite <- app_assoc.
    + assert (n + S m = length kvs)%nat as -> by (unfold zlen in Hj; lia).
      by rewrite drop_all.
  - rewrite decide_False by (unfold zlen; lia). rewrite drop_ge by lia. simpl. by rewrite app_nil_r.
Qed.

Lemma sequentialLoop_spec reducef kvs fuel : forall n out,
  (n <= length kvs)%nat -> (length kvs - n < fuel)%nat ->
  sequentialLoop fuel reducef kvs (Z.of_nat n) out = Ok (Some (out ++ reduced reducef (runs (drop n kvs)))).
Proof.
  induction fuel as [|fuel IH]; intros n out Hn Hf; [lia |]. cbn [sequentialLoop].
  destruct (decide (n < length kvs)%nat) as [Hlt|Hge].
  - rewrite decide_True by (unfold zlen; lia).
    destruct (lookup_lt_is_Some_2 kvs n Hlt) as [kv Hkv].
    destruct (round kvs n kv Hkv) as (Hend & Hle & Hget & Hs & ->).
    rewrite Hget. cbn [res_bind]. rewrite Hend. rewrite Hs. cbn [res_bind].
    rewrite IH by lia. by rewrite <- app_assoc.
  - rewrite decide_False by (unfold zlen; lia). rewrite drop_ge by lia. simpl. by rewrite app_nil_r.
Qed.

(** ** The reference grouping of a sorted list *)
Lemma values_of_cons k kv l :
  values_of k (kv :: l) = if decide (Key kv = k) then Value kv :: values_of k l else values_of k l.
Proof. unfold values_of. rewrite filter_cons. by case_decide. Qed.

Lemma values_of_nil k l : (forall kv, kv ∈ l -> Key kv <> k) -> values_of k l = [].
Proof.
  induction l as [|kv l IH]; intros H; [done |]. rewrite values_of_cons, decide_False by (apply H, list_elem_of_here).
  apply IH. intros x Hx. by apply H, list_elem_of_further.
Qed.

Lemma runs_keys l k : k ∈ (runs l).*1 <-> exists kv, kv ∈ l /\ Key kv = k.
Proof.
  induction l as [|kv l IH]; simpl.
  - split; [by intros ?%not_elem_of_nil | by intros (? & ?%not_elem_of_nil & _)].
  - transitivity (k = Key kv \/ k ∈ (runs l).*1).
    + destruct (runs l) as [|[k' vs] gs]; [| case_decide as He]; simpl; rewrite !elem_of_cons; [done | | done].
      subst. tauto.
    + rewrite IH. split.
      * intros [->|(x & Hx & <-)]; [exists kv | exists x]; (split; [| done]);
          [apply list_elem_of_here | by apply list_elem_of_further].
      * intros (x & [->|Hx]%elem_of_cons & <-); [by left | right; by exists x].
Qed.

Lemma runs_head x l : exists vs gs, runs (x :: l) = (Key x, vs) :: gs.
Proof. rewrite runs_split. eauto. Qed.

Lemma runs_sorted l : StronglySorted key_le l ->
  NoDup (runs l).*1 /\ forall k vs, (k, vs) ∈ runs l -> vs = values_of k l.
Proof.
  induction 1 as [|kv l Hs [IH1 IH2] Hall]; [split; [apply NoDup_nil_2 | by intros ?? ?%not_elem_of_nil] |].
  destruct l as [|x l].
  { simpl. split; [apply NoDup_singleton |]. intros k vs [[= -> ->]|?%not_elem_of_nil]%elem_of_cons; [| done].
    unfold values_of. by rewrite filter_cons_True. }
  destruct (runs_head x l) as (vs & gs & Hr). simpl runs at 1 2. fold (runs (x :: l)) in *.
  change (match runs l with
    | [] => [(Key x, [Value x])]
    | (k, vs) :: gs => if decide (Key x = k) then (k, Value x :: vs) :: gs else (Key x, [Value x]) :: (k, vs) :: gs
    end) with (runs (x :: l)) in *.
  rewrite Hr in *. destruct (decide (Key kv = Key x)) as [He|Hne].
  - split; [done |]. intros k vs' [[= -> ->]|Hin]%elem_of_cons.
    + rewrite values_of_cons, decide_True by done. f_equal. apply IH2, list_elem_of_here.
    + rewrite values_of_cons, decide_False.
      { apply IH2. by apply list_elem_of_further. }
      intros <-. simpl in IH1. apply NoDup_cons in IH1 as [Hn _]. apply Hn. rewrite <- He.
      apply list_elem_of_fmap. by exists (Key kv, vs').
  - assert (forall y, y ∈ x :: l -> Key y <> Key kv) as Hnot.
    { intros y Hy Hk. apply Hne. apply (anti_symm String.le).
      - rewrite List.Forall_forall in Hall. apply Hall. left. done.
      - rewrite <- Hk. apply elem_of_cons in Hy as [->|Hy]; [done |].
        apply StronglySorted_inv in Hs as [_ Hs]. rewrite List.Forall_forall in Hs. apply Hs. by apply list_elem_of_In. }
    split.
    + csimpl. apply NoDup_cons. split; [| done].
      assert (Key x :: gs.*1 = (runs (x :: l)).*1) as -> by (by rewrite Hr). rewrite runs_keys.
      intros (y & Hy & Hk). by apply (Hnot y).
    + intros k vs' [[= -> ->]|Hin]%elem_of_cons.
      * by rewrite values_of_cons, decide_True, values_of_nil by done.
      * rewrite values_of_cons, decide_False; [by apply IH2 |]. intros <-.
        assert (Key kv ∈ (runs (x :: l)).*1) as (y & Hy & Hk)%runs_keys.
        { rewrite Hr. apply list_elem_of_fmap. by exists (Key kv, vs'). }
        by apply (Hnot y).
Qed.

Lemma runs_ascending l : StronglySorted key_le l -> StronglySorted String.le (runs l).*1.
Proof.
  induction 1 as [|kv l Hs IH Hall]; [constructor |].
  assert (forall k, k ∈ (runs l).*1 -> String.le (Key kv) k) as Hle.
  { intros k (x & Hx & <-)%runs_keys. rewrite List.Forall_forall in Hall. apply Hall. by apply list_elem_of_In. }
  simpl. destruct (runs l) as [|[k vs] gs]; [repeat constructor |].
  case_decide as He; csimpl in *; [done |]. constructor; [done |].
  apply List.Forall_forall. intros y Hy. apply Hle. by apply list_elem_of_In.
Qed.

Lemma insert_runs_lookup f gs : forall res k vs, NoDup gs.*1 -> (k, vs) ∈ gs ->
  insert_runs f res gs !! k = Some (f k vs).
Proof.
  induction gs as [|[k0 vs0] gs IH] using rev_ind; intros res k vs Hnd Hin; [by apply not_elem_of_nil in Hin |].
  unfold insert_runs. rewrite foldl_snoc. simpl.
  rewrite fmap_app in Hnd. apply NoDup_app in Hnd as (Hnd & Hdis & _).
  apply elem_of_app in Hin as [Hin|Hin].
  - rewrite lookup_insert_ne; [by apply IH |]. intros ->. apply (Hdis k).
    + apply list_elem_of_fmap. by exists (k, vs).
    + simpl. apply list_elem_of_here.
  - apply elem_of_cons in Hin as [[= -> ->]|?%not_elem_of_nil]; [by rewrite lookup_insert_eq | done].
Qed.

Lemma outputPairs_reduced f gs : NoDup gs.*1 -> outputPairs gs.*1 (insert_runs f ∅ gs) = reduced f gs.
Proof.
  intros Hnd. unfold outputPairs, reduced. rewrite <- list_fmap_compose. apply list_fmap_ext.
  intros i [k vs] Hi. simpl. rewrite (insert_runs_lookup f gs ∅ k vs); [done | done |]. by eapply list_elem_of_lookup_2.
Qed.

Lemma reduceKVs_spec f kvs :
  reduceKVs f kvs = Ok (Some ((runs kvs).*1, insert_runs f ∅ (runs kvs))).
Proof. unfold reduceKVs. pose proof (groupLoop_spec f kvs (S (length kvs)) 0 [] ∅) as H. apply H; lia. Qed.

(** ** Printing and parsing *)
Fixpoint chars_are (p : Ascii.ascii -> Prop) (s : string) : Prop :=
  match s with EmptyString => True | String c s => p c /\ chars_are p s end.

(** A word: not empty, no white space. *)
Definition word (s : string) : Prop := s <> "" /\ chars_are (fun c => isSpace c = false) s.

Lemma chars_are_impl (p q : Ascii.ascii -> Prop) s : (forall c, p c -> q c) -> chars_are p s -> chars_are q s.
Proof. intros H. induction s as [|c s IH]; simpl; naive_solver. Qed.

Lemma chars_are_app p s t : chars_are p (s +:+ t) <-> chars_are p s /\ chars_are p t.
Proof. induction s as [|c s IH]; simpl; [tauto | rewrite IH; tauto]. Qed.

Lemma append_cons s c t : (s +:+ String c "") +:+ t = s +:+ String c t.
Proof. induction s as [|a s IH]; simpl; [done | by rewrite IH]. Qed.

Lemma append_nil_r s : s +:+ "" = s.
Proof. induction s as [|a s IH]; simpl; [done | by rewrite IH]. Qed.

Lemma append_assoc s t u : (s +:+ t) +:+ u = s +:+ (t +:+ u).
Proof. induction s as [|a s IH]; simpl; [done | by rewrite IH]. Qed.

Lemma append_nonempty s c t : s +:+ String c t <> "".
Proof. by destruct s. Qed.

Lemma fieldsFrom_word f w : chars_are (fun c => f c = false) w -> forall cur s,
  fieldsFrom f cur (w +:+ s) = fieldsFrom f (cur +:+ w) s.
Proof.
  induction w as [|c w IH]; intros Hw cur s; [by rewrite append_nil_r |].
  destruct Hw as [Hc Hw]. simpl. rewrite Hc, IH by done. by rewrite append_cons.
Qed.

Lemma fieldsFrom_sep f w c s : w <> "" -> f c = true -> fieldsFrom f w (String c s) = w :: fieldsFrom f "" s.
Proof. intros Hw Hc. simpl. by rewrite Hc, decide_False. Qed.

Lemma isSpace_newline c : isSpace c = false -> isNewline c = false.
Proof.
  unfold isSpace, isNewline. rewrite !orb_false_iff, !bool_decide_eq_false. lia.
Qed.

Lemma Fields_pair k v : word k -> word v -> Fields (k +:+ " " +:+ v) = [k; v].
Proof.
  intros [Hk Hkc] [Hv Hvc]. unfold Fields, FieldsFunc. rewrite fieldsFrom_word by done. simpl.
  rewrite decide_False by done. rewrite <- (append_nil_r v), fieldsFrom_word by done. simpl.
  rewrite append_nil_r. by rewrite decide_False.
Qed.

Lemma split_line k v s : chars_are (fun c => isNewline c = false) k -> chars_are (fun c => isNewline c = false) v ->
  FieldsFunc (printLine k v +:+ s) isNewline = (k +:+ " " +:+ v) :: FieldsFunc s isNewline.
Proof.
  intros Hk Hv. unfold FieldsFunc, printLine.
  assert ((k +:+ " " +:+ v +:+ newline) +:+ s = (k +:+ " " +:+ v) +:+ String (Ascii.ascii_of_nat 10) s) as ->.
  { by rewrite !append_assoc. }
  rewrite fieldsFrom_word.
  - simpl (_ +:+ _). rewrite fieldsFrom_sep; [done | apply append_nonempty | done].
  - apply chars_are_app. split; [done |]. by split.
Qed.

Lemma parse_print kvs : Forall (fun kv => word (Key kv) /\ word (Value kv)) kvs ->
  parseFile (printKVs kvs) = Ok kvs.
Proof.
  unfold parseFile. induction 1 as [|[k v] kvs [Hk Hv] _ IH]; [done |]. simpl in *.
  pose proof Hk as [_ Hkc]. pose proof Hv as [_ Hvc].
  rewrite split_line by (eapply chars_are_impl; [apply isSpace_newline | done]).
  cbn [parseLines]. rewrite (Fields_pair k v Hk Hv). unfold slice_get. simpl.
  change (zlookup [k; v] 0) with (Some k). change (zlookup [k; v] 1) with (Some v). simpl.
  by rewrite IH.
Qed.

(** ** The distributed job

  The map tasks of all files, then the reduce task [r] on the files that
  carry its number. *)
Section Job.
Context `{sorter : !Sorter}.

Fixpoint mapAll (numSlices : Z) (mapf : string -> string -> list KeyValue) (files : list (string * string)) :
    Res (list (list string)) :=
  match files with
  | [] => Ok []
  | file :: files =>
      let* out := mapTask numSlices (mapf file.1 file.2) in
      let* outs := mapAll numSlices mapf files in
      Ok (out :: outs)
  end.

Definition column (r : nat) (outs : list (list string)) : list string := (fun o => default "" (o !! r)) <$> outs.

Definition bucket (n : Z) (kv : KeyValue) : Z := Z.rem (ihash (Key kv)) n.

Lemma ihash_nonneg k : 0 <= ihash k.
Proof. unfold ihash. apply Z.land_nonneg. right. lia. Qed.

Lemma bucket_range n kv : 0 < n -> 0 <= bucket n kv < n.
Proof.
  intros Hn. pose proof (ihash_nonneg (Key kv)). unfold bucket. rewrite Z.rem_mod_nonneg by lia.
  apply Z.mod_pos_bound. lia.
Qed.

Definition in_bucket (n : Z) (r : nat) (kvs : list KeyValue) : list KeyValue :=
  filter (fun kv => bucket n kv = Z.of_nat r) kvs.

Lemma partition_spec n kva : 0 < n -> forall parts, zlen parts = n ->
  exists parts', partition n kva parts = Ok parts' /\ zlen parts' = n /\
    forall r part, parts !! r = Some part -> parts' !! r = Some (part ++ in_bucket n r kva).
Proof.
  intros Hn. induction kva as [|kv kva IH]; intros parts Hl.
  { exists parts. split_and!; [done.. |]. intros r part Hr. by rewrite app_nil_r. }
  pose proof (bucket_range n kv Hn) as Hb. cbn [partition]. rewrite decide_False by lia. fold (bucket n kv).
  destruct (slice_get_ok parts (bucket n kv)) as (part & Hp & ->); [lia |]. cbn [res_bind].
  unfold slice_set. rewrite decide_True by lia. cbn [res_bind].
  destruct (IH (<[Z.to_nat (bucket n kv) := part ++ [kv]]> parts)) as (parts' & -> & Hl' & Hlk); [by rewrite zlen_insert |].
  exists parts'. split_and!; [done.. |]. intros r old Hr. unfold in_bucket. rewrite filter_cons.
  unfold zlookup in Hp. rewrite decide_True in Hp by lia.
  destruct (decide (bucket n kv = Z.of_nat r)) as [He|Hne].
  - rewrite He, Nat2Z.id in *. assert (old = part) as -> by congruence.
    rewrite (Hlk r (part ++ [kv])); [by rewrite <- app_assoc |]. apply list_lookup_insert_eq. by eapply lookup_lt_Some.
  - apply Hlk. rewrite list_lookup_insert_ne by lia. done.
Qed.

Lemma mapTask_spec n kva : 0 < n ->
  exists outs, mapTask n kva = Ok outs /\
    forall r, (Z.of_nat r < n) -> outs !! r = Some (printKVs (sort (in_bucket n r kva))).
Proof.
  intros Hn. unfold mapTask. rewrite decide_False by lia.
  destruct (partition_spec n kva Hn (replicate (Z.to_nat n) [])) as (parts & -> & Hl & Hlk).
  { unfold zlen. rewrite length_replicate. lia. }
  eexists. split; [done |]. intros r Hr. rewrite list_lookup_fmap.
  rewrite (Hlk r []); [done |]. apply lookup_replicate. split; [done | lia].
Qed.

Definition all_pairs (mapf : string -> string -> list KeyValue) (files : list (string * string)) : list KeyValue :=
  concat ((fun file => mapf file.1 file.2) <$> files).

Definition words (kvs : list KeyValue) : Prop := Forall (fun kv => word (Key kv) /\ word (Value kv)) kvs.

Lemma words_perm l l' : l ≡ₚ l' -> words l -> words l'.
Proof. unfold words. by intros ->. Qed.

Lemma words_filter P `{forall x, Decision (P x)} l : words l -> words (filter P l).
Proof. unfold words. rewrite !List.Forall_forall. intros Hw x Hx. apply Hw. apply list_elem_of_In in Hx.
  apply list_elem_of_filter in Hx as [_ Hx]. by apply list_elem_of_In. Qed.

Lemma filter_app_list {A} (P : A -> Prop) `{forall x, Decision (P x)} (l k : list A) :
  filter P (l ++ k) = filter P l ++ filter P k.
Proof. induction l as [|x l IH]; [done |]. simpl. rewrite !filter_cons, IH. by destruct (decide (P x)). Qed.

Lemma readAll_spec n mapf files : 0 < n -> words (all_pairs mapf files) ->
  exists outs, mapAll n mapf files = Ok outs /\
    forall r, Z.of_nat r < n -> exists kvs, readAll (column r outs) = Ok kvs /\
      kvs ≡ₚ in_bucket n r (all_pairs mapf files).
Proof.
  intros Hn. induction files as [|[name content] files IH]; intros Hw.
  { exists []. split; [done |]. intros r Hr. by exists []. }
  unfold all_pairs in Hw. csimpl in Hw. unfold words in Hw. apply Forall_app in Hw as [Hw1 Hw2].
  destruct (IH Hw2) as (outs & Hm & Hread). simpl.
  destruct (mapTask_spec n (mapf name content) Hn) as (out & -> & Hout). rewrite Hm. simpl.
  eexists. split; [done |]. intros r Hr. destruct (Hread r Hr) as (kvs & Hkvs & Hp).
  change (column r (out :: outs)) with (default "" (out !! r) :: column r outs).
  rewrite (Hout r Hr). cbn [readAll default from_option id].
  rewrite parse_print by (eapply words_perm; [by rewrite sort_perm | by apply words_filter]).
  cbn [res_bind]. rewrite Hkvs. eexists. split; [done |].
  rewrite sort_perm, Hp. unfold in_bucket, all_pairs. csimpl. by rewrite filter_app_list.
Qed.

(** The output of a reducer must not depend on the order of the values. *)
Definition order_blind (reducef : string -> list string -> string) : Prop :=
  forall k vs vs', vs ≡ₚ vs' -> reducef k vs = reducef k vs'.

#[export] Instance values_of_Permutation k : Proper ((≡ₚ) ==> (≡ₚ)) (values_of k).
Proof. intros l l' H. unfold values_of. by rewrite H. Qed.

Definition outputs (reducef : string -> list string -> string) (kvs : list KeyValue) : list KeyValue :=
  reduced reducef (runs (sort kvs)).

Lemma outputs_elem f kvs x : order_blind f ->
  x ∈ outputs f kvs <-> (exists kv, kv ∈ kvs /\ Key kv = Key x) /\ Value x = f (Key x) (values_of (Key x) kvs).
Proof.
  intros Hf. unfold outputs, reduced. destruct (runs_sorted _ (sort_sorted kvs)) as [Hnd Hvs].
  assert (forall k, f k (values_of k (sort kvs)) = f k (values_of k kvs)) as Hv.
  { intros k. apply Hf. by rewrite sort_perm. }
  rewrite list_elem_of_fmap. split.
  - intros ([k vs] & -> & Hin). simpl. rewrite (Hvs k vs Hin). split; [| apply Hv].
    assert (k ∈ (runs (sort kvs)).*1) as (kv & Hkv & Hk)%runs_keys.
    { apply list_elem_of_fmap. by exists (k, vs). }
    exists kv. rewrite <- (sort_perm kvs). done.
  - intros [(kv & Hkv & Hk) Hx]. rewrite <- (sort_perm kvs) in Hkv.
    assert (Key x ∈ (runs (sort kvs)).*1) as Hin by (apply runs_keys; eauto).
    apply list_elem_of_fmap in Hin as ([k vs] & Hk' & Hin). simpl in Hk'. subst k.
    exists (Key x, vs). split; [| done]. simpl. rewrite (Hvs _ _ Hin), Hv, <- Hx. by destruct x.
Qed.

Lemma outputs_keys f kvs : Key <$> outputs f kvs = (runs (sort kvs)).*1.
Proof. unfold outputs, reduced. by rewrite <- list_fmap_compose. Qed.

Lemma outputs_NoDup f kvs : NoDup (Key <$> outputs f kvs).
Proof. rewrite outputs_keys. apply runs_sorted, sort_sorted. Qed.

Lemma outputs_perm f kvs kvs' : order_blind f -> kvs ≡ₚ kvs' -> outputs f kvs ≡ₚ outputs f kvs'.
Proof.
  intros Hf Hp. apply NoDup_Permutation; [by eapply NoDup_fmap_1, outputs_NoDup.. |].
  intros x. rewrite !outputs_elem by done. rewrite (Hf (Key x) _ _ (values_of_Permutation (Key x) _ _ Hp)).
  by setoid_rewrite Hp.
Qed.

Lemma values_of_bucket n r k kvs :
  (exists kv, kv ∈ in_bucket n r kvs /\ Key kv = k) -> values_of k (in_bucket n r kvs) = values_of k kvs.
Proof.
  intros (kv0 & Hkv0 & Hk). apply list_elem_of_filter in Hkv0 as [Hb _].
  unfold values_of, in_bucket. f_equal. induction kvs as [|kv kvs IH]; [done |].
  rewrite !filter_cons. destruct (decide (bucket n kv = Z.of_nat r)) as [|Hne].
  - rewrite filter_cons, IH. done.
  - rewrite IH, decide_False; [done |]. intros He. apply Hne. rewrite <- Hb. unfold bucket. congruence.
Qed.

Lemma outputs_split f n kvs : order_blind f -> 0 < n ->
  concat ((fun r => outputs f (in_bucket n r kvs)) <$> seq 0 (Z.to_nat n)) ≡ₚ outputs f kvs.
Proof.
  intros Hf Hn.
  assert (forall r, outputs f (in_bucket n r kvs) ≡ₚ
    filter (fun x => Z.to_nat (bucket n x) = r) (outputs f kvs)) as Hr.
  { intros r. apply NoDup_Permutation.
    - by eapply NoDup_fmap_1, outputs_NoDup.
    - apply NoDup_filter. by eapply NoDup_fmap_1, outputs_NoDup.
    - intros x. rewrite list_elem_of_filter, !outputs_elem by done.
      assert (bucket n x = Z.rem (ihash (Key x)) n) as Hbx by done.
      pose proof (bucket_range n x Hn) as Hrange. split.
      + intros [Hex Hv]. pose proof (values_of_bucket n r (Key x) kvs Hex) as Hvo.
        destruct Hex as (kv & Hkv & Hk). apply list_elem_of_filter in Hkv as [Hb Hkv].
        unfold bucket in Hb. rewrite Hk in Hb. split_and!; [lia | by exists kv | by rewrite <- Hvo].
      + intros (Hb & (kv & Hkv & Hk) & Hv).
        assert (exists kv, kv ∈ in_bucket n r kvs /\ Key kv = Key x) as Hex.
        { exists kv. split; [| done]. apply list_elem_of_filter. split; [| done].
          unfold bucket. rewrite Hk, <- Hbx. lia. }
        split; [done |]. by rewrite values_of_bucket. }
  transitivity (concat ((fun r => filter (fun x => Z.to_nat (bucket n x) = r) (outputs f kvs)) <$> seq 0 (Z.to_nat n))).
  - induction (seq 0 (Z.to_nat n)) as [|r l IH]; [done |]. csimpl. by rewrite (Hr r), IH.
  - rewrite (filter_concat_Permutation (fun x => Z.to_nat (bucket n x))) by apply NoDup_seq.
    rewrite filter_all; [done |]. intros x _. pose proof (bucket_range n x Hn). apply elem_of_seq. lia.
Qed.
End Job.

(** ** The reducers of the applications *)
Lemma Wc_order_blind : order_blind Wc.Reduce.
Proof. intros k vs vs' H. unfold Wc.Reduce, zlen. by rewrite H. Qed.

Lemma Indexer_order_blind : order_blind Indexer.Reduce.
Proof.
  intros k vs vs' H. unfold Indexer.Reduce.
  assert (merge_sort String.le vs = merge_sort String.le vs') as ->; [| done].
  apply (StronglySorted_unique String.le); [apply StronglySorted_merge_sort; apply _.. |].
  by rewrite !merge_sort_Permutation.
Qed.

Lemma fieldsFrom_chars f (p : Ascii.ascii -> Prop) s : (forall c, f c = false -> p c) -> forall cur w,
  chars_are p cur -> w ∈ fieldsFrom f cur s -> w <> "" /\ chars_are p w.
Proof.
  intros Hp. induction s as [|c s IH]; intros cur w Hcur Hin; simpl in Hin.
  - case_decide as Hc; [by apply not_elem_of_nil in Hin |].
    apply elem_of_cons in Hin as [->|?%not_elem_of_nil]; done.
  - destruct (f c) eqn:Hf.
    + case_decide as Hc; [by apply (IH "" w) |].
      apply elem_of_cons in Hin as [->|Hin]; [done | by apply (IH "" w)].
    + apply (IH (cur +:+ String c "") w); [| done]. apply chars_are_app. split; [done |]. split; [by apply Hp | done].
Qed.

(** The word counter emits words only. *)
Lemma Wc_words filename contents : words (Wc.Map filename contents).
Proof.
  unfold words, Wc.Map. apply List.Forall_forall. intros kv Hkv.
  apply list_elem_of_In, list_elem_of_fmap in Hkv as (w & -> & Hw). simpl. split; [| by split].
  apply (fieldsFrom_chars _ (fun c => isSpace c = false)) in Hw; [done | | done].
  intros c Hc. apply negb_false_iff in Hc. unfold isLetter, isSpace in *.
  rewrite orb_true_iff, !bool_decide_eq_true in Hc. rewrite orb_false_iff, !bool_decide_eq_false. lia.
Qed.

Lemma words_all mapf files : (forall name content, words (mapf name content)) -> words (all_pairs mapf files).
Proof.
  intros H. unfold words, all_pairs. induction files as [|[name content] files IH]; [constructor |].
  csimpl. apply Forall_app. split; [apply H | done].
Qed.

Lemma foldl_concat {A B} (f : A -> list B) (l : list A) : forall acc,
  foldl (fun acc a => acc ++ f a) acc l = acc ++ concat (f <$> l).
Proof.
  induction l as [|a l IH]; intros acc; csimpl; [by rewrite app_nil_r |]. by rewrite IH, <- app_assoc.
Qed.

(** ** Properties *)

(** The index arithmetic of the grouping loop is right.  On pairs
    sorted by key the loop ends, calls the reducer once per distinct key,
    in ascending order, with exactly that key's values in order. *)
Theorem reduce_groups_by_key reducef kvs : StronglySorted key_le kvs ->
  exists keys result, reduceKVs reducef kvs = Ok (Some (keys, result)) /\
    StronglySorted String.le keys /\ NoDup keys /\
    (forall k, k ∈ keys <-> exists kv, kv ∈ kvs /\ Key kv = k) /\
    (forall k, k ∈ keys -> result !! k = Some (reducef k (values_of k kvs))).
Proof.
  intros Hs. destruct (runs_sorted kvs Hs) as [Hnd Hvs].
  eexists _, _. split; [apply reduceKVs_spec |]. split_and!; [by apply runs_ascending | done | apply runs_keys |].
  intros k ([k' vs] & -> & Hin)%list_elem_of_fmap. simpl. rewrite <- (Hvs k' vs Hin). by apply insert_runs_lookup.
Qed.

Lemma reduce_groups_by_key_witness :
  exists keys result,
    reduceKVs Wc.Reduce [mkKeyValue "a" "1"; mkKeyValue "a" "1"; mkKeyValue "b" "1"] = Ok (Some (keys, result)) /\
    StronglySorted String.le keys /\ NoDup keys /\
    (forall k, k ∈ keys <-> exists kv, kv ∈ [mkKeyValue "a" "1"; mkKeyValue "a" "1"; mkKeyValue "b" "1"] /\ Key kv = k) /\
    (forall k, k ∈ keys -> result !! k =
       Some (Wc.Reduce k (values_of k [mkKeyValue "a" "1"; mkKeyValue "a" "1"; mkKeyValue "b" "1"]))).
Proof. apply reduce_groups_by_key. repeat constructor. Defined.

(** The intermediate format.  Pairs whose keys and values are words
    survive the round trip through an intermediate file; a value of two
    words comes back as its first one, and an empty value stops the
    reduce worker. *)
Theorem intermediate_roundtrip kvs k v w :
  Forall (fun kv => word (Key kv) /\ word (Value kv)) kvs -> word k -> word v -> word w ->
  parseFile (printKVs kvs) = Ok kvs /\
  parseFile (printKVs [mkKeyValue k (v +:+ " " +:+ w)]) = Ok [mkKeyValue k v] /\
  parseFile (printKVs [mkKeyValue k ""]) = Panic.
Proof.
  intros Hkvs Hk Hv Hw. split; [by apply parse_print |].
  pose proof Hk as [Hk1 Hk2]. pose proof Hv as [Hv1 Hv2]. pose proof Hw as [Hw1 Hw2]. unfold parseFile. simpl printKVs.
  split; rewrite split_line; try (eapply chars_are_impl; [apply isSpace_newline | done]); try done.
  - cbn [parseLines FieldsFunc]. unfold Fields at 1 2. unfold FieldsFunc. rewrite !(fieldsFrom_word _ k) by done.
    simpl. rewrite !decide_False by done. rewrite !(fieldsFrom_word _ v) by done. simpl. rewrite decide_False by done.
    done.
  - apply chars_are_app. split; [eapply chars_are_impl; [apply isSpace_newline | done] |]. split; [done |].
    eapply chars_are_impl; [apply isSpace_newline | done].
  - cbn [parseLines FieldsFunc]. unfold Fields at 1 2. unfold FieldsFunc. rewrite !(fieldsFrom_word _ k) by done.
    simpl. by rewrite !decide_False by done.
Qed.

Lemma intermediate_roundtrip_witness :
  parseFile (printKVs [mkKeyValue "a" "1"]) = Ok [mkKeyValue "a" "1"] /\
  parseFile (printKVs [mkKeyValue "k" "new york"]) = Ok [mkKeyValue "k" "new"] /\
  parseFile (printKVs [mkKeyValue "k" ""]) = Panic.
Proof.
  apply (intermediate_roundtrip [mkKeyValue "a" "1"] "k" "new" "york"); repeat constructor; done.
Defined.

(** Distributed equals sequential.  For a reducer that does not
    depend on the order of the values and map output made of words, the
    map and reduce tasks of a job with any positive number of reduce
    tasks all succeed, and their outputs together are, up to order, the
    output of the sequential program. *)
Theorem distributed_is_sequential (sorter : Sorter) n mapf reducef files :
  0 < n -> order_blind reducef -> words (all_pairs mapf files) ->
  exists outs seq_out parts,
    mapAll n mapf files = Ok outs /\
    sequential mapf reducef files = Ok (Some seq_out) /\
    (forall r, Z.of_nat r < n -> reduceTask reducef (column r outs) = Ok (Some (printKVs (parts r)))) /\
    concat (parts <$> seq 0 (Z.to_nat n)) ≡ₚ seq_out.
Proof.
  intros Hn Hf Hw. destruct (readAll_spec n mapf files Hn Hw) as (outs & Hm & Hread).
  pose (parts r := match readAll (column r outs) with Ok kvs => outputs reducef kvs | Panic => [] end).
  exists outs, (outputs reducef (all_pairs mapf files)), parts. split_and!; [done | | |].
  - unfold sequential. rewrite foldl_concat. simpl. fold (all_pairs mapf files).
    pose proof (sequentialLoop_spec reducef (sort (all_pairs mapf files))
      (S (length (sort (all_pairs mapf files)))) 0 []) as H. apply H; lia.
  - intros r Hr. destruct (Hread r Hr) as (kvs & Hkvs & Hp). unfold reduceTask, parts. rewrite Hkvs. cbn [res_bind].
    rewrite reduceKVs_spec. cbn [res_bind]. simpl. by rewrite outputPairs_reduced by (apply runs_sorted, sort_sorted).
  - rewrite <- (outputs_split reducef n) by done.
    assert (forall r, r ∈ seq 0 (Z.to_nat n) -> parts r ≡ₚ outputs reducef (in_bucket n r (all_pairs mapf files))) as Hp.
    { intros r Hr%elem_of_seq. destruct (Hread r) as (kvs & Hkvs & Hp); [lia |].
      unfold parts. rewrite Hkvs. by apply outputs_perm. }
    revert Hp. induction (seq 0 (Z.to_nat n)) as [|r l IH]; intros Hp; [done |]. csimpl.
    rewrite (Hp r) by apply list_elem_of_here. rewrite IH; [done |]. intros r' Hr'. by apply Hp, list_elem_of_further.
Qed.

#[export] Instance key_le_total : Total key_le.
Proof. intros a b. apply (total String.le). Qed.

#[export] Instance key_le_trans : Transitive key_le.
Proof. intros a b c. apply (transitivity (R := String.le)). Qed.

(** A sort of the required kind. *)
Program Definition merge_sorter : Sorter := {| sort := merge_sort key_le |}.
Next Obligation. intros l. apply merge_sort_Permutation. Qed.
Next Obligation. intros l. apply StronglySorted_merge_sort; apply _. Qed.

Lemma distributed_is_sequential_witness :
  let files := [("f", "a b a"); ("g", "b c")] in
  @sequential merge_sorter Wc.Map Wc.Reduce files =
    Ok (Some [mkKeyValue "a" "2"; mkKeyValue "b" "2"; mkKeyValue "c" "1"]) /\
  exists outs seq_out parts,
    @mapAll merge_sorter 2 Wc.Map files = Ok outs /\
    @sequential merge_sorter Wc.Map Wc.Reduce files = Ok (Some seq_out) /\
    (forall r, Z.of_nat r < 2 -> @reduceTask merge_sorter Wc.Reduce (column r outs) = Ok (Some (printKVs (parts r)))) /\
    concat (parts <$> seq 0 (Z.to_nat 2)) ≡ₚ seq_out.
Proof.
  split; [vm_compute; reflexivity |].
  apply (distributed_is_sequential merge_sorter 2 Wc.Map Wc.Reduce); [lia | apply Wc_order_blind |].
  apply words_all. intros name content. apply Wc_words.
Defined.
