(* ===== verification/MrJob.v ===== *)
(** * A MapReduce job ([mr/worker.go], with the coordinator's handlers)

    Any number of workers run the loop of [Worker] against the coordinator
    and one file system; they may be killed at any moment, their calls may
    be lost before or after the handler ran, and a task that takes too long
    is given to another worker while the first goes on.  One step is one
    call, or one operation on a file. *)
From S2P Require Import Prelude MrCoordinator MrWorker.
From stdpp Require Import pretty.
From Stdlib Require Import Ascii.
#[local] Open Scope Z_scope.

(** ** Files ([mr/rpc.go], the names of [worker.go]) *)
Inductive mr_file :=
| FTemp (task index worker : Z)
| FInter (task index : Z)
| FTempOut (task worker : Z)
| FOut (task : Z).

Definition INTERMEDIATE_FILENAME_PREFIX : string := "mr-intermediate".
Definition INTERMEDIATE_TEMP_FILENAME_PREFIX : string := "mr-intermediate-temp".
Definition OUTPUT_TEMP_FILENAME_PREFIX : string := "mr-out-temp".
Definition OUTPUT_FILENAME_PREFIX : string := "mr-out".

Definition filename (f : mr_file) : string :=
  match f with
  | FTemp t i w => INTERMEDIATE_TEMP_FILENAME_PREFIX +:+ "-" +:+ pretty t +:+ "-" +:+ pretty i +:+ "-" +:+ pretty w
  | FInter t i => INTERMEDIATE_FILENAME_PREFIX +:+ "-" +:+ pretty t +:+ "-" +:+ pretty i
  | FTempOut t w => OUTPUT_TEMP_FILENAME_PREFIX +:+ "-" +:+ pretty t +:+ "-" +:+ pretty w
  | FOut t => OUTPUT_FILENAME_PREFIX +:+ "-" +:+ pretty t
  end.

Abbreviation files := (gmap string string) (only parsing).

(** [os.Rename]; its error is not looked at. *)
Definition rename (old new : mr_file) (fs : files) : files :=
  match fs !! filename old with
  | Some s => <[filename new := s]> (delete (filename old) fs)
  | None => fs
  end.

(** ** Workers *)

(** How a worker ends: [Worker] returned, or the process was killed; [call]
    stopped it, since it could not dial the coordinator ([log.Fatal]); it
    stopped on an error of its own, [log.Fatalf] or a panic. *)
Inductive worker_exit := Returned | DialFatal | Fatal.

(** Where a worker is: in the loop that registers; asking for a task; at
    the start of a map task; creating, writing and renaming the file of the
    next reduce task; reading the next file of a reduce task; creating,
    writing and renaming the output; reporting a task; ended. *)
Inductive worker_pc :=
| WRegister
| WAsk
| WMap (task_id : Z) (name : string) (n : Z)
| WCreate (task_id : Z) (parts : list string) (index : Z)
| WWrite (task_id : Z) (parts : list string) (index : Z)
| WRename (task_id : Z) (parts : list string) (index : Z)
| WReduce (task_id nMap index : Z) (contents : list string)
| WOutCreate (task_id : Z) (out : string)
| WOutWrite (task_id : Z) (out : string)
| WOutRename (task_id : Z) (out : string)
| WReport (ty : TaskType) (task_id : Z)
| WExit (how : worker_exit).

Record worker := mkWorker {
  worker_id : Z;
  register_reply : Z;   (* the variable that every call of Register decodes into *)
  continuous_connect_failed_times : Z;
  pc : worker_pc;
}.

(** [Worker] at its start. *)
Definition newWorker : worker := mkWorker (-1) 0 0 WRegister.

Definition goto (p : worker_pc) (w : worker) : worker :=
  mkWorker (worker_id w) (register_reply w) (continuous_connect_failed_times w) p.

(** A call succeeded, and the worker goes on at [p]. *)
Definition connected (p : worker_pc) (w : worker) : worker :=
  mkWorker (worker_id w) (register_reply w) 0 p.

(** [connect_failed], and where the worker goes if it stays. *)
Definition connect_failed (p : worker_pc) (w : worker) : worker :=
  let n := continuous_connect_failed_times w + 1 in
  mkWorker (worker_id w) (register_reply w) n (if decide (n = 3) then WExit Returned else p).

(** What becomes of a [call]: it returns; the handler runs and the reply is
    lost; the connection breaks before the handler runs; the coordinator
    cannot be dialed, which ends the process.  Only the first makes [call]
    return [true], and only if the handler returned no error; the next two
    make it return [false]. *)
Inductive net := Returns | ReplyLost | NotSent | DialFailed.

(** [log.Fatal] in [call]. *)
Definition dial_failed (w : worker) : worker :=
  mkWorker (worker_id w) (register_reply w) (continuous_connect_failed_times w) (WExit DialFatal).

(** [encoding/gob] leaves a zero field out of a message, and the variable
    decoded into keeps its value. *)
Definition gob_int (old new : Z) : Z := if decide (new = 0) then old else new.

Section Worker.
Context `{sorter : !Sorter}.
Context (mapf : string -> string -> list KeyValue) (reducef : string -> list string -> string).

(** One round of the first loop. *)
Definition register_round (o : net) (j : Job) (w : worker) : Job * worker :=
  match o with
  | DialFailed => (j, dial_failed w)
  | NotSent => (j, connect_failed WRegister w)
  | _ =>
      let '(c, r) := Register (j_c j) in
      let j := mkJob c (j_reports j) in
      match o with
      | Returns =>
          let reply := gob_int (register_reply w) (reg_WorkerID_ r) in
          if decide (reply < 0) then (j, mkWorker (worker_id w) reply 0 WRegister)
          else (j, mkWorker reply reply 0 WAsk)
      | _ => (j, connect_failed WRegister w)
      end
  end.

(** The switch on the type of a task. *)
Definition dispatch (r : GetTaskReply) : worker_pc :=
  match gt_Type_ r with
  | TaskExit => WExit Returned
  | TaskWait => WAsk
  | TaskMap => WMap (gt_TaskID_ r) (gt_FileName_ r) (gt_NumSlices_ r)
  | TaskReduce => WReduce (gt_TaskID_ r) (gt_NumSlices_ r) 0 []
  end.

Definition ask (o : net) (now : Z) (j : Job) (w : worker) : Res (Job * worker) :=
  match o with
  | DialFailed => Ok (j, dial_failed w)
  | NotSent => Ok (j, connect_failed WAsk w)
  | _ =>
      let* p := GetTask now (mkGetTaskArgs (worker_id w)) (j_c j) in
      let '(c, r, err) := p in
      let j := mkJob c (j_reports j) in
      match o, err with
      | Returns, false => Ok (j, connected (dispatch r) w)
      | _, _ => Ok (j, connect_failed WAsk w)
      end
  end.

Definition report (o : net) (ty : TaskType) (task_id : Z) (j : Job) (w : worker) : Res (Job * worker) :=
  match o with
  | DialFailed => Ok (j, dial_failed w)
  | NotSent => Ok (j, connect_failed WAsk w)
  | _ =>
      let* p := ReportTaskDone (mkReportTaskDoneArgs (worker_id w) ty task_id) (j_c j) in
      let j := mkJob p.1 ((ty, task_id) :: j_reports j) in
      Ok (j, match o with Returns => connected WAsk w | _ => connect_failed WAsk w end)
  end.

(** The start of a map task: read the file, map, and distribute.  What is
    written later for each reduce task is [parts]. *)
Definition start_map (task_id : Z) (name : string) (n : Z) (fs : files) : worker_pc :=
  match fs !! name with
  | None => WExit Fatal
  | Some content =>
      match mapTask n (mapf name content) with
      | Ok parts => WCreate task_id parts 0
      | Panic => WExit Fatal
      end
  end.

(** One round of the loop of a reduce task that reads the files, or what
    follows it. *)
Definition reduce_round (task_id nMap index : Z) (contents : list string) (fs : files) : worker_pc :=
  if decide (index < nMap) then
    match fs !! filename (FInter index task_id) with
    | None => WExit Fatal
    | Some content => WReduce task_id nMap (index + 1) (contents ++ [content])
    end
  else
    match reduceTask reducef contents with
    | Ok (Some out) => WOutCreate task_id out
    | _ => WExit Fatal
    end.

(** One step of a worker.  [o] and [now] are the outcome of its call and
    the coordinator's clock. *)
Definition worker_step (o : net) (now : Z) (j : Job) (fs : files) (w : worker) : Res (Job * files * worker) :=
  match pc w with
  | WRegister => let '(j, w) := register_round o j w in Ok (j, fs, w)
  | WAsk => let* p := ask o now j w in Ok (p.1, fs, p.2)
  | WMap t name n => Ok (j, fs, goto (start_map t name n fs) w)
  | WCreate t parts i =>
      if decide (i < zlen parts) then
        Ok (j, <[filename (FTemp t i (worker_id w)) := ""]> fs, goto (WWrite t parts i) w)
      else Ok (j, fs, goto (WReport TaskMap t) w)
  | WWrite t parts i =>
      let* s := slice_get parts i in
      Ok (j, <[filename (FTemp t i (worker_id w)) := s]> fs, goto (WRename t parts i) w)
  | WRename t parts i =>
      Ok (j, rename (FTemp t i (worker_id w)) (FInter t i) fs, goto (WCreate t parts (i + 1)) w)
  | WReduce t nMap i contents => Ok (j, fs, goto (reduce_round t nMap i contents fs) w)
  | WOutCreate t out => Ok (j, <[filename (FTempOut t (worker_id w)) := ""]> fs, goto (WOutWrite t out) w)
  | WOutWrite t out => Ok (j, <[filename (FTempOut t (worker_id w)) := out]> fs, goto (WOutRename t out) w)
  | WOutRename t out =>
      Ok (j, rename (FTempOut t (worker_id w)) (FOut t) fs, goto (WReport TaskReduce t) w)
  | WReport ty t => let* p := report o ty t j w in Ok (p.1, fs, p.2)
  | WExit _ => Ok (j, fs, w)
  end.

(** ** Executions of a job *)
Record mr := mkMr { mr_job : Job; mr_fs : files; mr_ws : list worker }.

Inductive mr_step (s : mr) : mr -> Prop :=
| mr_worker i o now w j fs w' : mr_ws s !! i = Some w ->
    worker_step o now (mr_job s) (mr_fs s) w = Ok (j, fs, w') ->
    mr_step s (mkMr j fs (<[i := w']> (mr_ws s)))
| mr_start : mr_step s (mkMr (mr_job s) (mr_fs s) (mr_ws s ++ [newWorker]))
| mr_kill i w : mr_ws s !! i = Some w ->
    mr_step s (mkMr (mr_job s) (mr_fs s) (<[i := goto (WExit Returned) w]> (mr_ws s))).

(** The job starts with its input files in place; what else lies around
    from earlier jobs does not matter. *)
Definition mr_init (inputs : list (string * string)) (nReduce : Z) (s : mr) : Prop :=
  job_init inputs.*1 nReduce (mr_job s) /\ mr_ws s = [] /\
  forall name content, (name, content) ∈ inputs -> mr_fs s !! name = Some content.
End Worker.

(** ** File names *)
Definition is_digit (c : ascii) : Prop := 48 <= code c <= 57.

(** Numbers in file names are told apart by the dashes between them. *)
Lemma digits_split a b s t : chars_are is_digit a -> chars_are is_digit b ->
  a +:+ "-" +:+ s = b +:+ "-" +:+ t -> a = b /\ s = t.
Proof.
  revert b. induction a as [|c a IH]; intros [|d b] Ha Hb Heq; simpl in *.
  - by injection Heq.
  - injection Heq as <- _. by destruct Hb as [[? ?] _].
  - injection Heq as -> _. by destruct Ha as [[? ?] _].
  - injection Heq as -> Heq. destruct Ha as [_ Ha], Hb as [_ Hb]. by destruct (IH b Ha Hb Heq) as [-> ->].
Qed.

Lemma digits_not_temp a s t : chars_are is_digit a -> String "t" s = a +:+ "-" +:+ t -> False.
Proof. intros Ha Heq. destruct a as [|c a]; simpl in *; [done |]. injection Heq as <- _. by destruct Ha as [[? ?] _]. Qed.

Lemma digits_not_t a s : chars_are is_digit a -> String "t" s = a -> False.
Proof. intros Ha <-. by destruct Ha as [[? ?] _]. Qed.

Lemma digits_pretty_go x s : chars_are is_digit s -> chars_are is_digit (pretty_N_go x s).
Proof.
  revert s. induction (N.lt_wf_0 x) as [x _ IH]; intros s Hs.
  destruct (decide (x = 0)%N) as [->|Hx]; [by rewrite pretty_N_go_0 |].
  rewrite pretty_N_go_step by lia. apply IH; [apply N.div_lt; lia |]. split; [| done].
  unfold pretty_N_char. by repeat case_match.
Qed.

Lemma digits_of_pretty z : 0 <= z -> chars_are is_digit (pretty z).
Proof.
  intros Hz. destruct z as [|p|p]; [by repeat split | | lia].
  change (chars_are is_digit (pretty (N.pos p))). unfold pretty, pretty_N. by apply digits_pretty_go.
Qed.

Definition valid_file (f : mr_file) : Prop :=
  match f with
  | FTemp t i w => 0 <= t /\ 0 <= i /\ 0 <= w
  | FInter t i | FTempOut t i => 0 <= t /\ 0 <= i
  | FOut t => 0 <= t
  end.

#[local] Ltac name_digits :=
  repeat match goal with
  | H : context [pretty ?z] |- _ =>
      lazymatch type of H with
      | _ = pretty _ => fail
      | _ => let a := fresh "a" in let E := fresh "E" in remember (pretty z) as a eqn:E in H;
             assert (chars_are is_digit a) by (rewrite E; apply digits_of_pretty; lia)
      end
  end.

(** Different files of a job have different names. *)
Lemma filename_inj f g : valid_file f -> valid_file g -> filename f = filename g -> f = g.
Proof.
  unfold filename, INTERMEDIATE_FILENAME_PREFIX, INTERMEDIATE_TEMP_FILENAME_PREFIX,
    OUTPUT_TEMP_FILENAME_PREFIX, OUTPUT_FILENAME_PREFIX.
  destruct f as [t i w|t i|t w|t], g as [t' i' w'|t' i'|t' w'|t']; intros Hf Hg Heq;
    simpl in Hf, Hg; destruct_and?; name_digits; simpl in Heq; try discriminate Heq;
    injection Heq as Heq;
    repeat match type of Heq with context ["" +:+ ?x] => change ("" +:+ x) with x in Heq end.
  - apply digits_split in Heq as [-> Heq]; [| done..]. apply digits_split in Heq as [-> ->]; [| done..].
    simplify_eq. done.
  - exfalso. by eapply digits_not_temp; [| exact Heq].
  - exfalso. by eapply digits_not_temp; [| symmetry; exact Heq].
  - apply digits_split in Heq as [-> ->]; [| done..]. by simplify_eq.
  - apply digits_split in Heq as [-> ->]; [| done..]. by simplify_eq.
  - exfalso. by eapply digits_not_t; [| exact Heq].
  - exfalso. by eapply digits_not_t; [| symmetry; exact Heq].
  - by simplify_eq.
Qed.

(** ** What the files of a job hold *)
Section Correct.
Context `{sorter : !Sorter}.
Context (mapf : string -> string -> list KeyValue) (reducef : string -> list string -> string).
Context (inputs : list (string * string)) (n : Z).

Definition parts_of (p : string * string) : list string :=
  match mapTask n (mapf p.1 p.2) with Ok parts => parts | Panic => [] end.
Definition all_parts : list (list string) := parts_of <$> inputs.

(** The part of map task [t] for reduce task [r] is in its file; the output
    of reduce task [r] is in its file. *)
Definition inter_ok (fs : files) (t r : Z) : Prop :=
  exists p, zlookup inputs t = Some p /\
    fs !! filename (FInter t r) = Some (default "" (parts_of p !! Z.to_nat r)).
Definition map_done (fs : files) (t : Z) : Prop := forall r, 0 <= r < n -> inter_ok fs t r.
Definition out_is (r : Z) (s : string) : Prop :=
  reduceTask reducef (column (Z.to_nat r) all_parts) = Ok (Some s).
Definition reduce_done (fs : files) (r : Z) : Prop :=
  exists s, fs !! filename (FOut r) = Some s /\ out_is r s.

Definition task_done (fs : files) (ty : TaskType) (t : Z) : Prop :=
  0 <= t /\ match ty with TaskMap => map_done fs t | TaskReduce => reduce_done fs t | _ => False end.

(** The changes that a worker makes to the files: its own temporary ones,
    and files of the job with what belongs there. *)
Definition own (id : Z) (f : mr_file) : Prop :=
  match f with FTemp _ _ w | FTempOut _ w => w = id | _ => False end.

Inductive fs_step (id : Z) (fs : files) : files -> Prop :=
| fs_same : fs_step id fs fs
| fs_temp f s : own id f -> valid_file f -> fs_step id fs (<[filename f := s]> fs)
| fs_inter t k p : 0 <= t -> 0 <= k -> zlookup inputs t = Some p ->
    fs_step id fs (<[filename (FInter t k) := default "" (parts_of p !! Z.to_nat k)]>
      (delete (filename (FTemp t k id)) fs))
| fs_out t s : 0 <= t -> t < n -> out_is t s ->
    fs_step id fs (<[filename (FOut t) := s]> (delete (filename (FTempOut t id)) fs)).

Definition input_names : Prop := forall p f, p ∈ inputs -> valid_file f -> filename f <> p.1.
Definition inputs_in (fs : files) : Prop := forall p, p ∈ inputs -> fs !! p.1 = Some p.2.

Lemma fs_step_other id fs fs' f : 0 <= id -> fs_step id fs fs' -> valid_file f -> ~ own id f ->
  fs' !! filename f = fs !! filename f \/
  (exists t k p, f = FInter t k /\ zlookup inputs t = Some p /\
     fs' !! filename f = Some (default "" (parts_of p !! Z.to_nat k))) \/
  (exists t s, f = FOut t /\ out_is t s /\ fs' !! filename f = Some s).
Proof.
  intros Hid Hst Hv Ho.
  assert (forall g, valid_file g -> own id g -> filename g <> filename f) as Hne.
  { intros g Hg Hog Heq. apply filename_inj in Heq as ->; done. }
  destruct Hst as [|g s Hog Hg|t k p Ht Hk Hp|t s Ht Htn Hs].
  - by left.
  - left. rewrite lookup_insert_ne; [done | by apply Hne].
  - destruct (decide (filename (FInter t k) = filename f)) as [Heq|Hneq].
    + apply filename_inj in Heq as <-; [| done..]. right; left. exists t, k, p.
      by rewrite lookup_insert_eq.
    + left. by rewrite lookup_insert_ne, lookup_delete_ne by (first [done | by apply Hne]).
  - destruct (decide (filename (FOut t) = filename f)) as [Heq|Hneq].
    + apply filename_inj in Heq as <-; [| done..]. right; right. exists t, s.
      by rewrite lookup_insert_eq.
    + left. by rewrite lookup_insert_ne, lookup_delete_ne by (first [done | by apply Hne]).
Qed.

Lemma fs_step_inter_ok id fs fs' t r : 0 <= id -> fs_step id fs fs' -> 0 <= r ->
  inter_ok fs t r -> inter_ok fs' t r.
Proof.
  intros Hid Hst Hr (p & Hp & Hfs). exists p. split; [done |].
  pose proof (zlookup_Some_range _ _ _ Hp).
  assert (valid_file (FInter t r)) as Hv by (simpl; lia).
  destruct (fs_step_other id fs fs' (FInter t r) Hid Hst Hv) as [Heq|[(t' & k & p' & [= <- <-] & Hp' & Heq)|(? & ? & ? & _)]];
    [by intros [] | by rewrite Heq | rewrite Heq | done]. by simplify_eq.
Qed.

Lemma fs_step_task_done id fs fs' ty t : 0 <= id -> fs_step id fs fs' -> task_done fs ty t -> task_done fs' ty t.
Proof.
  intros Hid Hst [Ht Hd]. split; [done |]. destruct ty; [| | done..].
  - intros r Hr. apply (fs_step_inter_ok id fs); [done | done | lia | by apply Hd].
  - destruct Hd as (s & Hs & Hout).
    destruct (fs_step_other id fs fs' (FOut t) Hid Hst Ht ltac:(by intros []))
      as [Heq|[(? & ? & ? & ? & _)|(t' & s' & [= <-] & Hs' & Heq)]]; [| done |].
    + exists s. by rewrite Heq.
    + by exists s'.
Qed.

Lemma fs_step_temp_other id id' fs fs' f : 0 <= id -> fs_step id fs fs' -> valid_file f ->
  own id' f -> id <> id' -> fs' !! filename f = fs !! filename f.
Proof.
  intros Hid Hst Hv Ho Hne.
  destruct (fs_step_other id fs fs' f Hid Hst Hv) as [?|[(? & ? & ? & -> & _)|(? & ? & -> & _)]]; try done.
  destruct f; simpl in *; congruence.
Qed.

Lemma fs_step_inputs id fs fs' : 0 <= id -> input_names -> fs_step id fs fs' -> inputs_in fs -> inputs_in fs'.
Proof.
  intros Hid Hn Hst Hin p Hp. pose proof (Hin p Hp) as Hfs.
  assert (forall f, valid_file f -> filename f <> p.1) as Hne by (intros f; by apply Hn).
  destruct Hst as [|g s Hog Hg|t k q Ht Hk Hq|t s Ht Htn Hs].
  - done.
  - by rewrite lookup_insert_ne by (by apply Hne).
  - by rewrite lookup_insert_ne, lookup_delete_ne by (by apply Hne).
  - by rewrite lookup_insert_ne, lookup_delete_ne by (by apply Hne).
Qed.

(** ** The invariant *)
Hypothesis Hn : 0 < n.
Hypothesis Hnames : input_names.
Hypothesis Hblind : order_blind reducef.
Hypothesis Hwords : words (all_pairs mapf inputs).

(** [Register] will never again accept a worker. *)
Definition refuses (c : Coordinator) : Prop := phase_ c = TaskExit \/ worker_register_ c < 0.

Definition map_ok (fs : files) (t : Z) (parts : list string) (k : Z) : Prop :=
  (exists p, zlookup inputs t = Some p /\ parts = parts_of p) /\ 0 <= k <= n /\
  forall r, 0 <= r < k -> inter_ok fs t r.

Definition pc_ok (j : Job) (fs : files) (w : worker) : Prop :=
  match pc w with
  | WRegister => register_reply w = 0 \/ register_reply w = -1 /\ refuses (j_c j)
  | WAsk | WExit Returned | WExit DialFatal => True
  | WMap t name k => k = n /\ exists content, zlookup inputs t = Some (name, content)
  | WCreate t parts k => map_ok fs t parts k
  | WWrite t parts k => map_ok fs t parts k /\ k < n
  | WRename t parts k => map_ok fs t parts k /\ k < n /\
      fs !! filename (FTemp t k (worker_id w)) = Some (default "" (parts !! Z.to_nat k))
  | WReduce t nMap k contents => 0 <= t < n /\ nMap = zlen inputs /\ 0 <= k <= nMap /\
      contents = take (Z.to_nat k) (column (Z.to_nat t) all_parts) /\
      all_reported (j_reports j) TaskMap (zlen inputs)
  | WOutCreate t out | WOutWrite t out => 0 <= t < n /\ out_is t out
  | WOutRename t out => 0 <= t < n /\ out_is t out /\
      fs !! filename (FTempOut t (worker_id w)) = Some out
  | WReport ty t => task_done fs ty t /\ (ty = TaskReduce -> t < n)
  | WExit Fatal => False
  end.

(** Identities are handed out once: those given so far are below the
    counter, or the counter has wrapped and none is given any more. *)
Definition id_ok (c : Coordinator) (w : worker) : Prop :=
  match pc w with
  | WRegister => worker_id w = -1
  | WExit _ => worker_id w = -1 \/ 0 <= worker_id w
  | _ => 0 <= worker_id w
  end /\ (worker_id w < worker_register_ c \/ worker_register_ c < 0 \/ worker_id w = -1).

Definition id_range (c : Coordinator) : Prop := - 2 ^ 63 <= worker_register_ c < 2 ^ 63.

(** A call of the coordinator, or none. *)
Definition job_le (j j' : Job) : Prop := j' = j \/ job_step j j'.

Lemma mapTask_parts p : exists parts, mapTask n (mapf p.1 p.2) = Ok parts /\ parts_of p = parts /\ zlen parts = n.
Proof.
  unfold parts_of, mapTask. rewrite decide_False by lia.
  destruct (partition_spec n (mapf p.1 p.2) Hn (replicate (Z.to_nat n) [])) as (parts & -> & Hl & _).
  { unfold zlen. rewrite length_replicate. lia. }
  simpl. eexists. split_and!; [done | done |]. unfold zlen in *. by rewrite length_fmap.
Qed.

Lemma mapAll_parts l : mapAll n mapf l = Ok (parts_of <$> l).
Proof.
  induction l as [|p l IH]; [done |]. simpl. destruct (mapTask_parts p) as (parts & -> & <- & _). by rewrite IH.
Qed.

Lemma out_exists r : 0 <= r < n -> exists s, out_is r s.
Proof.
  intros Hr. destruct (distributed_is_sequential _ n mapf reducef inputs Hn Hblind Hwords)
    as (outs & _ & parts & Hm & _ & Hred & _).
  rewrite mapAll_parts in Hm. injection Hm as <-. eexists. unfold out_is.
  apply (Hred (Z.to_nat r)). lia.
Qed.

Lemma parts_lookup p k : 0 <= k < n -> parts_of p !! Z.to_nat k = Some (default "" (parts_of p !! Z.to_nat k)).
Proof.
  intros Hk. destruct (mapTask_parts p) as (parts & _ & -> & Hl).
  destruct (lookup_lt_is_Some_2 parts (Z.to_nat k)) as [s ->]; [unfold zlen in Hl; lia | done].
Qed.

(** *** Calls of the coordinator *)
Lemma job_le_reports j j' : job_le j j' -> j_reports j ⊆ j_reports j'.
Proof. intros [->|Hst]; [done |]. destruct Hst; simpl; [done | done |]. intros x. apply list_elem_of_further. Qed.

Lemma nextPhase_register c c' b : nextPhase c = Ok (c', b) -> worker_register_ c' = worker_register_ c /\
  (phase_ c = TaskExit -> phase_ c' = TaskExit).
Proof. unfold nextPhase. intros H. go_cases_in H; by injection H as <- <-. Qed.

Lemma GetTask_keeps now args c c' reply e : GetTask now args c = Ok (c', reply, e) ->
  worker_register_ c' = worker_register_ c /\ phase_ c' = phase_ c.
Proof.
  unfold GetTask. destruct (phase_ c) eqn:Ep; intros H.
  - apply res_bind_ok in H as (x & _ & H). destruct x as [[[i f] ts]|]; by injection H as <- _ _.
  - apply res_bind_ok in H as (x & _ & H). destruct x as [[i ts]|]; by injection H as <- _ _.
  - by injection H as <- _ _.
  - by injection H as <- _ _.
Qed.

Lemma ReportTaskDone_keeps args c c' reply : ReportTaskDone args c = Ok (c', reply) ->
  worker_register_ c' = worker_register_ c /\ (phase_ c = TaskExit -> phase_ c' = TaskExit).
Proof.
  unfold ReportTaskDone. case_decide as Et; [by intros [= <- _] |]. intros H.
  apply res_bind_ok in H as (t & _ & H). case_decide as Ed; [by injection H as <- _ |].
  apply res_bind_ok in H as (ts & _ & H). apply res_bind_ok in H as ([c1 b] & H1 & H).
  injection H as <- _. by apply nextPhase_register in H1.
Qed.

Lemma job_step_register j j' : job_step j j' ->
  (worker_register_ (j_c j') = worker_register_ (j_c j) \/
   0 <= worker_register_ (j_c j) /\ worker_register_ (j_c j') = i64 (worker_register_ (j_c j) + 1)) /\
  (phase_ (j_c j) = TaskExit -> phase_ (j_c j') = TaskExit).
Proof.
  destruct 1 as [c' reply H|now wid c' reply err H|args c' reply H]; simpl.
  - unfold Register in H. repeat case_decide; simplify_eq; simpl; split; try done; [by left | by left | right; split; [lia | done]].
  - apply GetTask_keeps in H as [-> ->]. split; [by left | done].
  - apply ReportTaskDone_keeps in H as [-> Hp]. split; [by left | done].
Qed.

Lemma i64_succ z : - 2 ^ 63 <= z < 2 ^ 63 -> i64 (z + 1) = z + 1 \/ z = 2 ^ 63 - 1 /\ i64 (z + 1) < 0.
Proof.
  intros Hz. destruct (decide (z = 2 ^ 63 - 1)) as [->|]; [right; split; [done |]; reflexivity |].
  left. apply i64_small. lia.
Qed.

Lemma job_le_id_range j j' : job_le j j' -> id_range (j_c j) -> id_range (j_c j').
Proof.
  intros [->|Hst] Hr; [done |]. apply job_step_register in Hst as [[Heq|[_ Heq]] _]; unfold id_range; rewrite Heq; [done |].
  unfold i64. pose proof (Z.mod_pos_bound (worker_register_ (j_c j) + 1 + 2 ^ 63) (2 ^ 64)). lia.
Qed.

Lemma job_le_refuses j j' : job_le j j' -> refuses (j_c j) -> refuses (j_c j').
Proof.
  intros [->|Hst] Hr; [done |]. apply job_step_register in Hst as [Hw Hp]. destruct Hr as [Hr|Hr]; [left; auto |].
  right. destruct Hw as [->|[? _]]; lia.
Qed.

Lemma job_le_id_ok j j' w : job_le j j' -> id_range (j_c j) -> id_ok (j_c j) w -> id_ok (j_c j') w.
Proof.
  intros [->|Hst] Hr [H1 H2]; [done |]. split; [done |].
  apply job_step_register in Hst as [[->|[H0 ->]] _]; [done |].
  destruct (i64_succ _ Hr) as [->|[_ ?]]; [| lia]. lia.
Qed.

Lemma job_le_inv j j' : job_le j j' -> job_inv inputs.*1 n j -> job_inv inputs.*1 n j'.
Proof. intros [->|Hst] Hi; [done |]. eapply job_inv_step; [lia | done | done]. Qed.

(** *** Steps of one worker, seen by another *)
Lemma pc_ok_job j j' fs w : job_le j j' -> pc_ok j fs w -> pc_ok j' fs w.
Proof.
  intros Hj. unfold pc_ok. destruct (pc w); try done.
  - intros [?|[? Hr]]; [by left | right]. split; [done | by eapply job_le_refuses].
  - intros ([? ?] & ? & [? ?] & ? & Hall). split_and!; [done.. |]. intros i Hi.
    apply (job_le_reports j j' Hj). by apply Hall.
Qed.

Lemma map_ok_fs id fs fs' t parts k : 0 <= id -> fs_step id fs fs' -> map_ok fs t parts k -> map_ok fs' t parts k.
Proof.
  intros Hid Hst (Hp & Hk & Hall). split_and!; [done | lia | lia |]. intros r Hr.
  apply (fs_step_inter_ok id fs); [done | done | lia | by apply Hall].
Qed.

Lemma map_ok_range fs t parts k : map_ok fs t parts k -> 0 <= t /\ 0 <= k.
Proof. intros ((p & Hp & _) & Hk & _). apply zlookup_Some_range in Hp. lia. Qed.

Lemma pc_ok_fs id j fs fs' w : 0 <= id -> fs_step id fs fs' -> id_ok (j_c j) w ->
  (0 <= worker_id w -> id <> worker_id w) -> pc_ok j fs w -> pc_ok j fs' w.
Proof.
  intros Hid Hst [Hw _] Hne. unfold pc_ok. destruct (pc w) eqn:Ep; try done.
  - by apply (map_ok_fs id fs).
  - intros [H ?]. split; [by apply (map_ok_fs id fs) | done].
  - intros (H & ? & Hf). apply map_ok_range in H as Hr. split_and!; [by apply (map_ok_fs id fs) | done |].
    rewrite <- Hf. apply (fs_step_temp_other id (worker_id w)); [done | done | simpl; lia | done | auto].
  - intros (H & ? & Hf). split_and!; [lia | lia | done |].
    rewrite <- Hf. apply (fs_step_temp_other id (worker_id w)); [done | done | simpl; lia | done | auto].
  - intros [H ?]. split; [by apply (fs_step_task_done id fs) | done].
Qed.

(** *** Steps of a worker *)
Definition reports_ok (j : Job) (fs : files) : Prop :=
  forall ty t, (ty, t) ∈ j_reports j -> task_done fs ty t.

(** What one step of a worker keeps: [w'] is the worker after it. *)
Record step_ok (j : Job) (fs : files) (w : worker) (j' : Job) (fs' : files) (w' : worker) : Prop := {
  so_job : job_le j j';
  so_fs : fs' = fs \/ 0 <= worker_id w /\ fs_step (worker_id w) fs fs';
  so_pc : pc_ok j' fs' w';
  so_id : id_ok (j_c j') w';
  so_reports : reports_ok j' fs';
  so_new : worker_id w' = worker_id w \/ worker_id w' = worker_register_ (j_c j) /\ 0 <= worker_id w';
}.

Lemma id_ok_goto c p w : id_ok c w -> 0 <= worker_id w -> p <> WRegister -> id_ok c (goto p w).
Proof. intros [_ H] Hid Hp. split; [| done]. simpl. destruct p; try done. by right. Qed.

Lemma id_ok_connected c p w : id_ok c w -> 0 <= worker_id w -> p <> WRegister -> id_ok c (connected p w).
Proof. apply id_ok_goto. Qed.

Lemma id_ok_failed c w : id_ok c w -> 0 <= worker_id w -> id_ok c (connect_failed WAsk w).
Proof. intros [_ H] Hid. split; [| done]. simpl. case_decide; [by right | done]. Qed.

Lemma pc_ok_failed j fs w : pc_ok j fs (connect_failed WAsk w).
Proof. unfold pc_ok. simpl. by case_decide. Qed.

Lemma id_nonneg c w : id_ok c w -> pc w <> WRegister -> (forall b, pc w <> WExit b) -> 0 <= worker_id w.
Proof. intros [H _] H1 H2. destruct (pc w); try done. by destruct (H2 how). Qed.

Lemma id_range_worker c w : id_ok c w -> worker_id w = -1 \/ 0 <= worker_id w.
Proof. intros [H _]. destruct (pc w); auto. Qed.

(** A worker that cannot dial the coordinator ends, and leaves the rest
    alone. *)
Lemma step_ok_dial j fs w : id_ok (j_c j) w -> reports_ok j fs -> step_ok j fs w j fs (dial_failed w).
Proof.
  intros Hid Hrep. split; [by left | by left | done | | done | by left].
  split; [exact (id_range_worker _ _ Hid) | apply Hid].
Qed.

Lemma register_failed j fs w j1 : pc w = WRegister -> id_range (j_c j) -> id_ok (j_c j) w ->
  pc_ok j fs w -> reports_ok j fs -> job_le j j1 -> j_reports j1 = j_reports j ->
  step_ok j fs w j1 fs (connect_failed WRegister w).
Proof.
  intros Hpc Hrange Hid Hok Hrep Hj Heq.
  pose proof (job_le_id_ok _ _ _ Hj Hrange Hid) as [Hid1 Hid2]. rewrite Hpc in Hid1.
  apply (pc_ok_job _ _ _ _ Hj) in Hok. unfold pc_ok in Hok. rewrite Hpc in Hok.
  split; [done | by left | | | by unfold reports_ok; rewrite Heq | by left].
  - unfold pc_ok. simpl. by case_decide.
  - split; simpl; [case_decide; auto | auto].
Qed.

Lemma Register_cases c c' r : Register c = (c', r) -> id_range c ->
  (refuses c /\ c' = c /\ reg_WorkerID_ r = -1) \/
  (~ refuses c /\ worker_register_ c' = i64 (worker_register_ c + 1) /\
   reg_WorkerID_ r = worker_register_ c /\ 0 <= worker_register_ c).
Proof.
  unfold Register, refuses. intros H Hr. repeat case_decide; simplify_eq; simpl; [left | left | right].
  - split_and!; [by left | done | done].
  - split_and!; [by right | done | done].
  - split_and!; [intros [?|?]; [done | lia] | done | done | lia].
Qed.

Lemma register_round_ok o j fs w j' w' : pc w = WRegister -> id_range (j_c j) ->
  id_ok (j_c j) w -> pc_ok j fs w -> reports_ok j fs ->
  register_round o j w = (j', w') -> step_ok j fs w j' fs w'.
Proof.
  intros Hpc Hrange Hid Hok Hrep H. unfold register_round in H.
  destruct o; [| |injection H as <- <-; by apply register_failed; [..| left |] |
    injection H as <- <-; by apply step_ok_dial];
    destruct (Register (j_c j)) as [c r] eqn:Er;
    (assert (job_le j (mkJob c (j_reports j))) as Hj by (right; by eapply job_register)); simpl in H.
  2:{ injection H as <- <-. by apply register_failed. }
  pose proof Hid as [Hid1 _]. rewrite Hpc in Hid1. pose proof Hok as Hreg. unfold pc_ok in Hreg. rewrite Hpc in Hreg.
  destruct (Register_cases _ _ _ Er Hrange) as [(Href & -> & Hr)|(Hnr & Hc & Hr & H0)]; rewrite Hr in H.
  - change (gob_int (register_reply w) (-1)) with (-1) in H. simpl in H. injection H as <- <-.
    split; [done | by left | | | done | by left].
    + unfold pc_ok. simpl. by right.
    + split; [done |]. simpl. lia.
  - destruct Hreg as [Hreg|[_ ?]]; [| done].
    assert (gob_int (register_reply w) (worker_register_ (j_c j)) = worker_register_ (j_c j)) as Hg
      by (unfold gob_int; destruct (decide (worker_register_ (j_c j) = 0)); lia).
    rewrite Hg, decide_False in H by lia. injection H as <- <-.
    split; [done | by left | done | | done | by right].
    split; simpl; [done |]. rewrite Hc. destruct (i64_succ _ Hrange) as [->|[_ ?]]; lia.
Qed.

Lemma step_ok_call j fs w j' w' : job_le j j' -> reports_ok j' fs -> id_range (j_c j) -> id_ok (j_c j) w ->
  0 <= worker_id w -> pc_ok j' fs w' -> worker_id w' = worker_id w ->
  (forall c, id_ok c w -> id_ok c w') -> step_ok j fs w j' fs w'.
Proof.
  intros Hj Hrep Hrange Hid H0 Hok Heq Hw. split; [done | by left | done | | done | by left].
  apply Hw. by eapply job_le_id_ok.
Qed.

Lemma dispatch_ok now j c r e fs w : job_inv inputs.*1 n j ->
  GetTask now (mkGetTaskArgs (worker_id w)) (j_c j) = Ok (c, r, e) ->
  e = false /\ dispatch r <> WRegister /\ pc_ok (mkJob c (j_reports j)) fs (connected (dispatch r) w).
Proof.
  intros (Hf & Hm & Hr & Hok) H. pose proof Hok as Hph. unfold phase_ok in Hph.
  assert (zlen inputs.*1 = zlen inputs) as Hlen by (unfold zlen; by rewrite length_fmap).
  assert (phase_ (j_c j) = TaskMap \/ phase_ (j_c j) = TaskReduce \/ phase_ (j_c j) = TaskExit) as Hcases
    by (clear -Hph; revert Hph; destruct (phase_ (j_c j)); auto; done).
  destruct (decide (phase_ (j_c j) = TaskExit)) as [He|He].
  { unfold GetTask in H. rewrite He in H. injection H as <- <- <-. done. }
  assert (phase_ (j_c j) = TaskMap \/ phase_ (j_c j) = TaskReduce) as Hmr by tauto.
  destruct (GetTask_hands_out now (worker_id w) (j_c j) (j_reports j) Hok ltac:(by rewrite Hf, Hm) Hmr)
    as [(i & t & reply & Ht & _ & _ & HG & Hty & Hi & Hmap & Hred)|[HG _]];
    rewrite HG in H; injection H as <- <- <-; [| done].
  apply zlookup_Some_range in Ht as Hrange. unfold dispatch, pc_ok.
  destruct Hcases as [Hp|[Hp|Hp]]; [| | done]; rewrite Hp in *; rewrite Hty; simpl; split_and!; try done; subst i.
  - destruct (Hmap eq_refl) as [_ Hsl]. by rewrite Hsl.
  - destruct (Hmap eq_refl) as [Hfile _]. rewrite Hf in Hfile.
    unfold zlookup in *. case_decide; [| done]. rewrite list_lookup_fmap in Hfile.
    destruct (inputs !! Z.to_nat (gt_TaskID_ reply)) as [[name content]|]; [| done]. injection Hfile as <-. eauto.
  - lia.
  - destruct Hph as (Hl & _). lia.
  - rewrite (Hred eq_refl). lia.
  - rewrite (Hred eq_refl). pose proof (zlen_nonneg inputs). lia.
  - rewrite <- Hlen, <- Hm. apply Hph.
Qed.

Lemma ask_ok o now j fs w j' w' : job_inv inputs.*1 n j -> id_range (j_c j) -> id_ok (j_c j) w ->
  0 <= worker_id w -> reports_ok j fs -> ask o now j w = Ok (j', w') -> step_ok j fs w j' fs w'.
Proof.
  intros Hinv Hrange Hid H0 Hrep H. unfold ask in H.
  assert (forall j1, job_le j j1 -> j_reports j1 = j_reports j -> step_ok j fs w j1 fs (connect_failed WAsk w)) as Hfail.
  { intros j1 Hj Heq. apply step_ok_call; try done; [unfold reports_ok; by rewrite Heq | apply pc_ok_failed |].
    intros c Hc. by apply id_ok_failed. }
  destruct o; [| |injection H as <- <-; by apply Hfail; [left |] | injection H as <- <-; by apply step_ok_dial];
    apply res_bind_ok in H as ([[c r] e] & HG & H);
    (assert (job_le j (mkJob c (j_reports j))) as Hj by (right; by eapply job_get));
    destruct (dispatch_ok _ _ _ _ _ fs w Hinv HG) as (-> & Hd & Hok); injection H as <- <-.
  - apply step_ok_call; try done. intros c' Hc. by apply id_ok_connected.
  - by apply Hfail.
Qed.

Lemma report_ok o ty t j fs w j' w' : id_range (j_c j) -> id_ok (j_c j) w ->
  0 <= worker_id w -> reports_ok j fs -> task_done fs ty t -> report o ty t j w = Ok (j', w') ->
  step_ok j fs w j' fs w'.
Proof.
  intros Hrange Hid H0 Hrep Hdone H. unfold report in H.
  assert (forall c, reports_ok (mkJob c ((ty, t) :: j_reports j)) fs) as Hrep'.
  { intros c ty' t' [[= -> ->]|Hin]%elem_of_cons; [done | by apply Hrep]. }
  destruct o; [| |injection H as <- <-; apply step_ok_call; try done;
    [by left | apply pc_ok_failed | intros c Hc; by apply id_ok_failed] | injection H as <- <-; by apply step_ok_dial];
    apply res_bind_ok in H as ([c r] & HR & H);
    (assert (job_le j (mkJob c ((ty, t) :: j_reports j))) as Hj
      by (right; by eapply (job_report j (mkReportTaskDoneArgs (worker_id w) ty t))));
    injection H as <- <-; apply step_ok_call; try done.
  - intros c' Hc. by apply id_ok_connected.
  - apply pc_ok_failed.
  - intros c' Hc. by apply id_ok_failed.
Qed.

(** Steps on files. *)
Lemma step_ok_fs j fs w fs' p : id_ok (j_c j) w -> 0 <= worker_id w -> p <> WRegister ->
  reports_ok j fs -> fs' = fs \/ fs_step (worker_id w) fs fs' -> pc_ok j fs' (goto p w) ->
  step_ok j fs w j fs' (goto p w).
Proof.
  intros Hid H0 Hp Hrep Hst Hok. split; [by left | | done | by apply id_ok_goto | | by left].
  - destruct Hst; [by left | by right].
  - intros ty t Hin. destruct Hst as [->|Hst]; [by apply Hrep |].
    apply (fs_step_task_done (worker_id w) fs); [done | done | by apply Hrep].
Qed.

Lemma map_ok_temp fs t parts k id : 0 <= id -> 0 <= t -> map_ok fs t parts k -> k < n -> forall s,
  fs_step id fs (<[filename (FTemp t k id) := s]> fs) /\
  map_ok (<[filename (FTemp t k id) := s]> fs) t parts k.
Proof.
  intros Hid Ht Hm Hk s. apply map_ok_range in Hm as Hr.
  assert (fs_step id fs (<[filename (FTemp t k id) := s]> fs)) as Hst by (apply fs_temp; [done | simpl; lia]).
  split; [done |]. by apply (map_ok_fs id fs).
Qed.

(** The temporary file becomes the file of the next reduce task. *)
Lemma map_ok_rename fs t parts k id : 0 <= id -> map_ok fs t parts k -> k < n ->
  fs !! filename (FTemp t k id) = Some (default "" (parts !! Z.to_nat k)) ->
  fs_step id fs (rename (FTemp t k id) (FInter t k) fs) /\
  map_ok (rename (FTemp t k id) (FInter t k) fs) t parts (k + 1).
Proof.
  intros Hid Hm Hk Hf. pose proof Hm as ((p & Hp & ->) & Hkr & Hall). apply zlookup_Some_range in Hp as Htr.
  unfold rename. rewrite Hf.
  assert (fs_step id fs (<[filename (FInter t k) := default "" (parts_of p !! Z.to_nat k)]>
    (delete (filename (FTemp t k id)) fs))) as Hst by (apply fs_inter; [lia | lia | done]).
  split; [done |]. split_and!; [by exists p | lia | lia |]. intros r Hr.
  destruct (decide (r = k)) as [->|Hne].
  - exists p. split; [done |]. by rewrite lookup_insert_eq.
  - apply (fs_step_inter_ok id fs); [done | done | lia | apply Hall; lia].
Qed.

Lemma start_map_ok j fs w t name k : inputs_in fs -> pc w = WMap t name k -> pc_ok j fs w ->
  start_map mapf t name k fs <> WRegister /\ pc_ok j fs (goto (start_map mapf t name k fs) w).
Proof.
  intros Hin Hpc Hok. unfold pc_ok in Hok. rewrite Hpc in Hok. destruct Hok as [-> [content Hp]].
  assert ((name, content) ∈ inputs) as Hel.
  { unfold zlookup in Hp. case_decide; [| done]. by eapply list_elem_of_lookup_2. }
  unfold start_map. pose proof (Hin _ Hel) as Hfs. simpl in Hfs. rewrite Hfs.
  destruct (mapTask_parts (name, content)) as (parts & Hm & Hparts & _). simpl in Hm. rewrite Hm.
  split; [done |]. unfold pc_ok. simpl. split_and!; [by exists (name, content) | done | lia |]. intros r Hr. lia.
Qed.

Lemma reduce_round_ok j fs w t nMap k contents : reports_ok j fs -> pc w = WReduce t nMap k contents ->
  pc_ok j fs w ->
  reduce_round reducef t nMap k contents fs <> WRegister /\
  pc_ok j fs (goto (reduce_round reducef t nMap k contents fs) w).
Proof.
  intros Hrep Hpc Hok. unfold pc_ok in Hok. rewrite Hpc in Hok.
  destruct Hok as (Ht & -> & Hk & -> & Hall). unfold reduce_round. case_decide as Hlt.
  - destruct (Hrep _ _ (Hall k ltac:(lia))) as [_ Hdone]. destruct (Hdone t Ht) as (p & Hp & Hf).
    rewrite Hf. split; [done |]. unfold pc_ok. simpl. split_and!; try lia; try done.
    replace (Z.to_nat (k + 1)) with (S (Z.to_nat k)) by lia. symmetry. apply take_S_r.
    unfold column, all_parts. rewrite !list_lookup_fmap. unfold zlookup in Hp. rewrite decide_True in Hp by lia.
    by rewrite Hp.
  - destruct (out_exists t Ht) as [out Hout]. pose proof Hout as Hred. unfold out_is in Hred.
    rewrite take_ge by (unfold column, all_parts, zlen in *; rewrite !length_fmap; lia).
    rewrite Hred. done.
Qed.

Lemma worker_step_ok o now j fs w j' fs' w' : job_inv inputs.*1 n j -> reports_ok j fs -> inputs_in fs ->
  id_range (j_c j) -> id_ok (j_c j) w -> pc_ok j fs w ->
  worker_step mapf reducef o now j fs w = Ok (j', fs', w') -> step_ok j fs w j' fs' w'.
Proof.
  intros Hinv Hrep Hin Hrange Hid Hok H. unfold worker_step in H.
  destruct (pc w) as [| |t name k|t parts k|t parts k|t parts k|t nMap k contents|t out|t out|t out|ty t|b] eqn:Hpc;
    try (assert (0 <= worker_id w) as H0 by (eapply id_nonneg; [exact Hid | by rewrite Hpc | by rewrite Hpc]));
    pose proof Hok as Hok'; unfold pc_ok in Hok; rewrite Hpc in Hok.
  - destruct (register_round o j w) as [j1 w1] eqn:Er. injection H as <- <- <-. by eapply register_round_ok.
  - apply res_bind_ok in H as ([j1 w1] & Ha & H). injection H as <- <- <-. by eapply ask_ok.
  - injection H as <- <- <-. destruct (start_map_ok j fs w t name k Hin Hpc Hok').
    apply step_ok_fs; auto.
  - pose proof Hok as Hm. destruct Hok as (Hp & Hkr & Hall). pose proof Hp as (p & Hpi & ->). apply zlookup_Some_range in Hpi as Htr.
    destruct (mapTask_parts p) as (parts & _ & Hpp & Hl). rewrite Hpp, Hl in *.
    case_decide as Hlt; injection H as <- <- <-.
    + destruct (map_ok_temp fs t parts k (worker_id w) H0 ltac:(lia) Hm Hlt "").
      apply step_ok_fs; try done. by right.
    + apply step_ok_fs; try done; [by left |]. split; [| done]. split; [lia |]. intros r Hr. apply Hall. lia.
  - destruct Hok as [Hm Hlt]. pose proof (map_ok_range _ _ _ _ Hm) as Hr.
    apply res_bind_ok in H as (s & Hs & H). injection H as <- <- <-.
    destruct (map_ok_temp fs t parts k (worker_id w) H0 ltac:(lia) Hm Hlt s).
    apply step_ok_fs; try done; [by right |]. unfold pc_ok. simpl. split_and!; [done | done |].
    rewrite lookup_insert_eq. apply slice_get_Ok_inv in Hs. unfold zlookup in Hs. rewrite decide_True in Hs by lia.
    by rewrite Hs.
  - destruct Hok as (Hm & Hlt & Hf). injection H as <- <- <-.
    destruct (map_ok_rename fs t parts k (worker_id w) H0 Hm Hlt Hf). apply step_ok_fs; try done. by right.
  - injection H as <- <- <-. destruct (reduce_round_ok j fs w t nMap k contents Hrep Hpc Hok').
    apply step_ok_fs; auto.
  - injection H as <- <- <-. apply step_ok_fs; try done. right. apply (fs_temp _ _ (FTempOut t (worker_id w))); [done | simpl; lia].
  - injection H as <- <- <-. apply step_ok_fs; try done.
    + right. apply (fs_temp _ _ (FTempOut t (worker_id w))); [done | simpl; lia].
    + unfold pc_ok. simpl. destruct Hok. split_and!; try lia; [done | by rewrite lookup_insert_eq].
  - injection H as <- <- <-. destruct Hok as (Ht & Hout & Hf). unfold rename. rewrite Hf.
    apply step_ok_fs; try done.
    + right. apply (fs_out _ _ t out); [lia | lia | done].
    + split; [| by intros _; lia]. split; [lia |]. exists out. split; [by rewrite lookup_insert_eq | done].
  - destruct Hok as [Hdone _]. apply res_bind_ok in H as ([j1 w1] & Ha & H). injection H as <- <- <-. by eapply report_ok.
  - injection H as <- <- <-. split; [by left | by left | done | done | done | by left].
Qed.

(** Neither a handler nor a worker meets an index out of range. *)
Lemma ReportTaskDone_total c h wid ty t : phase_ok c h -> 0 <= num_reduce_ c ->
  (ty = phase_ c -> 0 <= t < zlen (tasks_ c)) ->
  is_ok (ReportTaskDone (mkReportTaskDoneArgs wid ty t) c).
Proof.
  intros Hok Hr Ht. unfold ReportTaskDone. simpl.
  destruct (decide (ty <> phase_ c)) as [|Hd]; [apply is_ok_Ok |]. apply dec_stable in Hd.
  destruct (slice_get_ok (tasks_ c) t (Ht Hd)) as (task & _ & ->). simpl. case_decide; [apply is_ok_Ok |].
  rewrite slice_set_Ok by auto. simpl. unfold nextPhase. simpl.
  destruct (phase_ c); repeat case_match; try apply is_ok_Ok. lia.
Qed.

Lemma task_done_phase j fs ty t : job_inv inputs.*1 n j -> task_done fs ty t -> (ty = TaskReduce -> t < n) ->
  ty = phase_ (j_c j) -> 0 <= t < zlen (tasks_ (j_c j)).
Proof.
  intros (Hf & Hm & Hr & Hok) [H0 Hd] Hlt ->. unfold phase_ok in Hok.
  destruct (phase_ (j_c j)); try done.
  - destruct Hok as [-> _]. rewrite Hm. destruct (Hd 0 ltac:(lia)) as (p & Hp & _).
    apply zlookup_Some_range in Hp. unfold zlen in *. by rewrite length_fmap.
  - destruct Hok as [-> _]. rewrite Hr. specialize (Hlt eq_refl). lia.
Qed.

Lemma ask_total o now j w : job_inv inputs.*1 n j -> is_ok (ask o now j w).
Proof.
  intros (Hf & Hm & _ & Hok).
  destruct (GetTask_ok now (worker_id w) _ _ Hok) as (c & r & Hg & _); [by rewrite Hm, Hf |].
  unfold ask. rewrite Hg. destruct o; apply is_ok_Ok.
Qed.

Lemma worker_step_total o now j fs w : job_inv inputs.*1 n j -> pc_ok j fs w ->
  is_ok (worker_step mapf reducef o now j fs w).
Proof.
  intros Hj Hok. unfold worker_step, pc_ok in *.
  destruct (pc w) as [| |t name k|t parts k|t parts k|t parts k|t nMap k contents|t out|t out|t out|ty t|b];
    try apply is_ok_Ok.
  - destruct (register_round o j w). apply is_ok_Ok.
  - destruct (ask_total o now j w Hj) as [p ->]. apply is_ok_Ok.
  - case_decide; apply is_ok_Ok.
  - destruct Hok as [((p & _ & ->) & Hk & _) Hlt].
    destruct (mapTask_parts p) as (parts & _ & -> & Hl). destruct (slice_get_ok parts k) as (s & _ & ->); [lia |].
    apply is_ok_Ok.
  - destruct Hok as [Hd Hlt]. pose proof Hj as (_ & _ & Hr & Hph).
    destruct (ReportTaskDone_total (j_c j) (j_reports j) (worker_id w) ty t) as [p Hp];
      [done | lia | by eapply task_done_phase |].
    unfold report. rewrite Hp. destruct o; apply is_ok_Ok.
Qed.

Record mr_inv (s : mr) : Prop := {
  mi_job : job_inv inputs.*1 n (mr_job s);
  mi_reports : reports_ok (mr_job s) (mr_fs s);
  mi_inputs : inputs_in (mr_fs s);
  mi_range : id_range (j_c (mr_job s));
  mi_workers : forall i w, mr_ws s !! i = Some w ->
    id_ok (j_c (mr_job s)) w /\ pc_ok (mr_job s) (mr_fs s) w;
  mi_ids : forall i i' w w', mr_ws s !! i = Some w -> mr_ws s !! i' = Some w' -> i <> i' ->
    0 <= worker_id w -> worker_id w <> worker_id w';
}.

Lemma mr_inv_init s : mr_init inputs n s -> mr_inv s.
Proof.
  intros (Hj & Hws & Hin). split; rewrite ?Hws; try done.
  - apply job_inv_init; [lia | done].
  - rewrite Hj. by intros ty t ?%not_elem_of_nil.
  - intros [name content] Hp. by apply Hin.
  - rewrite Hj. unfold id_range. simpl. lia.
Qed.

Lemma mr_inv_worker o now s i w j fs w' : mr_inv s -> mr_ws s !! i = Some w ->
  worker_step mapf reducef o now (mr_job s) (mr_fs s) w = Ok (j, fs, w') ->
  mr_inv (mkMr j fs (<[i := w']> (mr_ws s))).
Proof.
  intros [Hj Hrep Hin Hr Hw Hids] Hi H. destruct (Hw i w Hi) as [Hid Hpc].
  destruct (worker_step_ok o now _ _ _ _ _ _ Hj Hrep Hin Hr Hid Hpc H) as [Sj Sfs Spc Sid Srep Snew].
  assert (forall i2 v, i <> i2 -> mr_ws s !! i2 = Some v -> id_ok (j_c j) v /\ pc_ok j fs v) as Hother.
  { intros i2 v Hne Hv. destruct (Hw i2 v Hv) as [Hvid Hvpc].
    pose proof (job_le_id_ok _ _ _ Sj Hr Hvid) as Hvid'. split; [done |].
    apply (pc_ok_job _ _ _ _ Sj) in Hvpc. destruct Sfs as [->|[H0 Sfs]]; [done |].
    apply (pc_ok_fs (worker_id w) j (mr_fs s)); try done. intros _. by eapply Hids. }
  assert (forall i2 v, i <> i2 -> mr_ws s !! i2 = Some v -> 0 <= worker_id v \/ 0 <= worker_id w' ->
    worker_id v <> worker_id w') as Hdiff.
  { intros i2 v Hne Hv H0. destruct (Hw i2 v Hv) as [[_ Hvid] _]. destruct Snew as [Heq|[Heq H1]]; [rewrite Heq in H0 |- * | lia].
    destruct H0 as [H0|H0]; [exact (Hids _ _ _ _ Hv Hi (not_eq_sym Hne) H0) |].
    apply not_eq_sym. exact (Hids _ _ _ _ Hi Hv Hne H0). }
  split; simpl; try done.
  - by eapply job_le_inv.
  - destruct Sfs as [->|[H0 Sfs]]; [done |]. by eapply fs_step_inputs.
  - by eapply job_le_id_range.
  - intros i2 v [(-> & -> & _)|[Hne Hv]]%list_lookup_insert_Some; [done | by eapply Hother].
  - intros i1 i2 v1 v2 H1 H2 Hne H0.
    apply list_lookup_insert_Some in H1 as [(-> & -> & _)|[Hn1 H1]];
      apply list_lookup_insert_Some in H2 as [(-> & -> & _)|[Hn2 H2]]; [done | | |].
    + apply not_eq_sym, (Hdiff i2); auto.
    + apply (Hdiff i1); auto.
    + by eapply Hids.
Qed.

Lemma mr_inv_step s s' : mr_inv s -> mr_step mapf reducef s s' -> mr_inv s'.
Proof.
  intros Hi Hst. destruct Hst as [i o now w j fs w' Hw H| |i w Hw].
  - by eapply mr_inv_worker.
  - destruct Hi as [Hj Hrep Hin Hr Hw Hids].
    assert (forall i w, (mr_ws s ++ [newWorker]) !! i = Some w -> mr_ws s !! i = Some w \/
      i = length (mr_ws s) /\ w = newWorker) as Happ.
    { intros i w [H|[Hl H]]%lookup_app_Some; [by left | right].
      apply list_lookup_singleton_Some in H as [H <-]. split; [lia | done]. }
    split; simpl; try done.
    + intros i w [H|[_ ->]]%Happ; [by eapply Hw |]. split; [split; [done |]; simpl; auto | by left].
    + intros i i' w w' [H1|[-> ->]]%Happ [H2|[-> ->]]%Happ Hne H0; [by eapply Hids | simpl; lia | simpl in *; lia | done].
  - destruct Hi as [Hj Hrep Hin Hr Hws Hids]. split; simpl; try done.
    + intros i2 v [(-> & <- & _)|[Hne Hv]]%list_lookup_insert_Some; [| by eapply Hws].
      destruct (Hws _ _ Hw) as [[H1 H2] _]. split; [split; [| done]; simpl | done].
      destruct (pc w); auto.
    + intros i1 i2 v1 v2 H1 H2 Hne H0.
      apply list_lookup_insert_Some in H1 as [(-> & <- & _)|[Hn1 H1]];
        apply list_lookup_insert_Some in H2 as [(-> & <- & _)|[Hn2 H2]]; [done | | |]; simpl in *.
      * exact (Hids _ _ _ _ Hw H2 Hne H0).
      * exact (Hids _ _ _ _ H1 Hw Hne H0).
      * exact (Hids _ _ _ _ H1 H2 Hne H0).
Qed.

(** What a step of the job does to the files. *)
Lemma mr_step_files s s' : mr_inv s -> mr_step mapf reducef s s' ->
  mr_fs s' = mr_fs s \/ exists id, 0 <= id /\ fs_step id (mr_fs s) (mr_fs s').
Proof.
  intros [Hj Hrep Hin Hr Hw _] Hst. destruct Hst as [i o now w j fs w' Hl H| |i w Hl]; [| by left..].
  destruct (Hw i w Hl) as [Hid Hpc].
  destruct (worker_step_ok o now _ _ _ _ _ _ Hj Hrep Hin Hr Hid Hpc H) as [_ [->|[H0 Hfs]] _ _ _ _]; [by left |].
  right. by exists (worker_id w).
Qed.

Lemma mr_reachable_inv s : reachable (mr_init inputs n) (mr_step mapf reducef) s -> mr_inv s.
Proof. revert s. apply invariant_reachable; [apply mr_inv_init | apply mr_inv_step]. Qed.

(** The output files of a job that is done. *)
Lemma done_outputs s : mr_inv s -> Done (j_c (mr_job s)) = true ->
  exists seq_out parts, sequential mapf reducef inputs = Ok (Some seq_out) /\
    (forall r, Z.of_nat r < n -> mr_fs s !! filename (FOut (Z.of_nat r)) = Some (printKVs (parts r))) /\
    concat (parts <$> seq 0 (Z.to_nat n)) ≡ₚ seq_out.
Proof.
  intros Hi Hd. unfold Done in Hd. apply bool_decide_eq_true in Hd.
  destruct (distributed_is_sequential _ n mapf reducef inputs Hn Hblind Hwords)
    as (outs & seq_out & parts & Hm & Hseq & Hred & Hperm).
  rewrite mapAll_parts in Hm. injection Hm as <-. exists seq_out, parts. split_and!; [done | | done].
  intros r Hlt. destruct (mi_job _ Hi) as (_ & _ & Hnr & Hok). unfold phase_ok in Hok. rewrite Hd in Hok.
  destruct Hok as (_ & _ & _ & Hall).
  destruct (mi_reports _ Hi _ _ (Hall (Z.of_nat r) ltac:(lia))) as [_ (out & Hf & Hout)].
  rewrite Hf. f_equal. specialize (Hred r Hlt). unfold out_is in Hout. rewrite Nat2Z.id in Hout.
  unfold all_parts in Hout. rewrite Hred in Hout. by injection Hout.
Qed.

(** ** Properties *)

(** C29: MapReduce computes what the sequential program does.  The
    conditions: at least one reduce task, keys and values are words, the
    reducer does not depend on the order of its values, and no input file is
    named like a file of the job.  Then in every execution of a job, with any
    number of workers that are started and killed at any moment, calls that
    are lost before or after the handler ran, or that cannot dial the
    coordinator and end their worker, and tasks done twice, at once or late:
    the next step of every worker, the handlers that it calls included, meets
    no panic; no worker stops on an error other than a failed dial; and
    once [Done] holds the output file of every reduce task is in place, and
    the files together hold, up to order, the lines of the sequential
    program. *)
Theorem mapreduce_is_sequential s : reachable (mr_init inputs n) (mr_step mapf reducef) s ->
  (forall i w o now, mr_ws s !! i = Some w ->
   pc w <> WExit Fatal /\ is_ok (worker_step mapf reducef o now (mr_job s) (mr_fs s) w)) /\
  (Done (j_c (mr_job s)) = true ->
   exists seq_out parts, sequential mapf reducef inputs = Ok (Some seq_out) /\
     (forall r, Z.of_nat r < n -> mr_fs s !! filename (FOut (Z.of_nat r)) = Some (printKVs (parts r))) /\
     concat (parts <$> seq 0 (Z.to_nat n)) ≡ₚ seq_out).
Proof.
  intros Hr. pose proof (mr_reachable_inv s Hr) as Hi. split.
  - intros i w o now Hw. destruct (mi_workers _ Hi i w Hw) as [_ Hok]. split.
    + intros Hp. unfold pc_ok in Hok. by rewrite Hp in Hok.
    + apply worker_step_total; [apply Hi | exact Hok].
  - by apply done_outputs.
Qed.
End Correct.

(** ** A concrete job: one worker, one file, the word counter *)
Section Example.
#[local] Existing Instance merge_sorter.

Definition ex_inputs : list (string * string) := [("f", "a b a")].
Definition ex_start : mr :=
  mkMr (mkJob (MakeCoordinator ["f"] 1) []) {[ "f" := "a b a" ]} [newWorker].

(** Steps of the first worker; the outcomes of its calls are [os]. *)
Fixpoint ex_run (os : list net) (s : mr) : Res mr :=
  match os with
  | [] => Ok s
  | o :: os =>
      match mr_ws s with
      | [] => Panic
      | w :: ws =>
          let* p := worker_step Wc.Map Wc.Reduce o 0 (mr_job s) (mr_fs s) w in
          let '(j, fs, w) := p in ex_run os (mkMr j fs (w :: ws))
      end
  end.

(** The first call is lost, and so is a reply. *)
Definition ex_outcomes : list net := NotSent :: ReplyLost :: replicate 15 Returns.
Definition ex_done : mr := match ex_run ex_outcomes ex_start with Ok s => s | Panic => ex_start end.

Lemma ex_start_reachable : reachable (mr_init ex_inputs 1) (mr_step Wc.Map Wc.Reduce) ex_start.
Proof.
  apply (reach_step _ _ (mkMr (mkJob (MakeCoordinator ["f"] 1) []) {[ "f" := "a b a" ]} [])).
  - apply reach_init. split_and!; [done | done |]. intros name content H.
    apply list_elem_of_singleton in H as [= -> ->]. reflexivity.
  - exact (mr_start Wc.Map Wc.Reduce _).
Qed.

Lemma ex_run_reachable os : forall s s', reachable (mr_init ex_inputs 1) (mr_step Wc.Map Wc.Reduce) s ->
  ex_run os s = Ok s' -> reachable (mr_init ex_inputs 1) (mr_step Wc.Map Wc.Reduce) s'.
Proof.
  induction os as [|o os IH]; intros s s' Hr H; simpl in H; [by injection H as <- |].
  destruct (mr_ws s) as [|w ws] eqn:Ews; [done |]. apply res_bind_ok in H as ([[j fs] w'] & Hs & H).
  eapply IH; [| exact H]. eapply reach_step; [exact Hr |].
  pose proof (mr_worker Wc.Map Wc.Reduce s 0 o 0 w j fs w') as Hst. rewrite Ews in Hst. by apply Hst.
Qed.

Lemma ex_done_reachable : reachable (mr_init ex_inputs 1) (mr_step Wc.Map Wc.Reduce) ex_done.
Proof.
  unfold ex_done. destruct (ex_run ex_outcomes ex_start) as [s|] eqn:E; [| apply ex_start_reachable].
  eapply ex_run_reachable; [apply ex_start_reachable | exact E].
Qed.

Lemma ex_names : input_names ex_inputs.
Proof. intros p f H _. apply list_elem_of_singleton in H as ->. by destruct f. Qed.

Lemma mapreduce_is_sequential_witness :
  Done (j_c (mr_job ex_done)) = true /\
  exists seq_out parts, sequential Wc.Map Wc.Reduce ex_inputs = Ok (Some seq_out) /\
    mr_fs ex_done !! "mr-out-0" = Some (printKVs (parts 0%nat)).
Proof.
  assert (Done (j_c (mr_job ex_done)) = true) as Hd by (vm_compute; reflexivity).
  split; [exact Hd |].
  destruct (mapreduce_is_sequential Wc.Map Wc.Reduce ex_inputs 1 eq_refl ex_names Wc_order_blind
    (words_all Wc.Map ex_inputs Wc_words) ex_done ex_done_reachable) as [_ H].
  destruct (H Hd) as (seq_out & parts & H1 & H2 & _).
  exists seq_out, parts. split; [exact H1 | exact (H2 0%nat eq_refl)].
Defined.
End Example.
