(* ===== verification/MrTest.v ===== *)
(** * The tests of MapReduce ([mr/util.go], [mrapps/crash.go],
      [mrapps/nocrash.go], [mrapps/early_exit.go])

    A test makes a directory, lets the sequential program compute the
    correct output, runs a job, merges the output files of the reduce tasks
    with [find] and [sort], and compares.  The commands [sort] and [find]
    are parameters: [sort] is known to depend only on the lines it reads,
    [find] to list the files of a directory that match a pattern in some
    order.  The theorem is that this comparison succeeds in every execution
    of a job. *)
From stdpp Require Import pretty.
From S2P Require Import Prelude MrCoordinator MrWorker MrJob.
#[local] Open Scope Z_scope.
#[local] Arguments String.append !s1 s2 : simpl nomatch.

Definition nl : Ascii.ascii := Ascii.ascii_of_nat 10.

(** ** Text *)

(** [strings.TrimSpace]. *)
Fixpoint trimLeft (s : string) : string :=
  match s with
  | EmptyString => ""
  | String c s' => if isSpace c then trimLeft s' else s
  end.

Fixpoint trimRight (s : string) : string :=
  match s with
  | EmptyString => ""
  | String c s =>
      let r := trimRight s in
      if decide (r = "") then if isSpace c then "" else String c "" else String c r
  end.

Definition TrimSpace (s : string) : string := trimRight (trimLeft s).

(** [strings.Split(s, "\n")]. *)
Fixpoint splitFrom (cur s : string) : list string :=
  match s with
  | EmptyString => [cur]
  | String c s => if decide (c = nl) then cur :: splitFrom "" s else splitFrom (cur +:+ String c "") s
  end.

Definition Split (s : string) : list string := splitFrom "" s.

(** The lines of a file, as [sort] reads them. *)
Fixpoint linesFrom (cur s : string) : list string :=
  match s with
  | EmptyString => if decide (cur = "") then [] else [cur]
  | String c s => if decide (c = nl) then cur :: linesFrom "" s else linesFrom (cur +:+ String c "") s
  end.

Definition lines_of (s : string) : list string := linesFrom "" s.

Lemma linesFrom_app a : forall cur b, linesFrom cur (a +:+ String nl b) = linesFrom cur (a +:+ String nl "") ++ linesFrom "" b.
Proof.
  induction a as [|c a IH]; intros cur b; cbn [String.append linesFrom].
  - rewrite decide_True by done. cbn. by destruct (decide ("" = "")).
  - case_decide; cbn [app]; [by rewrite IH |]. apply IH.
Qed.

Lemma lines_of_print kvs :
  lines_of (printKVs kvs) = concat ((fun kv => lines_of (printLine (Key kv) (Value kv))) <$> kvs).
Proof.
  induction kvs as [|kv kvs IH]; [done |]. rewrite fmap_cons. cbn [concat]. rewrite <- IH.
  change (printKVs (kv :: kvs)) with (printLine (Key kv) (Value kv) +:+ printKVs kvs). unfold printLine, newline, lines_of.
  change (Ascii.ascii_of_nat 10) with nl.
  replace ((Key kv +:+ " " +:+ Value kv +:+ String nl "") +:+ printKVs kvs)
    with ((Key kv +:+ " " +:+ Value kv) +:+ String nl (printKVs kvs)) by (by rewrite !append_assoc).
  replace (Key kv +:+ " " +:+ Value kv +:+ String nl "") with ((Key kv +:+ " " +:+ Value kv) +:+ String nl "")
    by (by rewrite !append_assoc).
  apply linesFrom_app.
Qed.

(** ** Finding files *)

(** The names that the patterns [mr-out-[0-9]] and [mr-*] match. *)
Definition isDigit (c : Ascii.ascii) : bool := bool_decide (48 <= code c <= 57).

Definition out_pattern (name : string) : bool :=
  String.prefix "mr-out-" name &&
  match String.substring 7 (String.length name - 7) name with
  | String c "" => isDigit c
  | _ => false
  end.

Definition mr_pattern (name : string) : bool := String.prefix "mr-" name.

(** A file of directory [dir], as [find] prints it and a command opens it. *)
Definition path (dir name : string) : string := dir +:+ "/" +:+ name.

Definition at_path (dir : string) (fs : files) (p : string) : option string :=
  if String.prefix (dir +:+ "/") p
  then fs !! String.substring (String.length dir + 1) (String.length p - (String.length dir + 1)) p
  else None.

(** What [find dir -type f -name pattern] may print: the matching files
    [found], in any order. *)
Definition finds (fs : files) (pattern : string -> bool) (found : list string) : Prop :=
  NoDup found /\ forall name, name ∈ found <-> pattern name = true /\ is_Some (fs !! name).

Fixpoint find_output (dir : string) (found : list string) : string :=
  match found with [] => "" | name :: found => path dir name +:+ String nl (find_output dir found) end.

(** [findFiles], on the output of the command. *)
Definition findFiles (output : string) : list string :=
  let s1 := TrimSpace output in if decide (s1 = "") then [] else Split s1.

(** [filepath.Join("..", f)] of a clean path. *)
Definition findFilesPre (output : string) : list string := (fun f => "../" +:+ f) <$> findFiles output.

Lemma trimLeft_word w s : word w -> trimLeft (w +:+ s) = w +:+ s.
Proof. intros [Hne Hc]. destruct w as [|c w]; [done |]. cbn in *. by destruct Hc as [-> _]. Qed.

Lemma trimRight_keep s : trimRight s <> "" -> forall w, trimRight (w +:+ s) = w +:+ trimRight s.
Proof.
  intros Hs. induction w as [|c w IH]; [done |]. cbn [String.append trimRight]. rewrite IH.
  rewrite decide_False; [done |]. destruct w; cbn; [done |]. done.
Qed.

Lemma trimRight_word w : word w -> trimRight w = w.
Proof.
  intros [Hne Hc]. induction w as [|c w IH]; [done |]. cbn [trimRight]. destruct Hc as [Hc Hw].
  destruct w as [|d w]; [cbn; by rewrite Hc |]. rewrite IH by done. by rewrite decide_False.
Qed.

Lemma trimRight_line w : word w -> trimRight (w +:+ String nl "") = w.
Proof.
  intros [Hne Hc]. induction w as [|c w IH]; [done |]. cbn [String.append trimRight]. destruct Hc as [Hc Hw].
  destruct w as [|d w].
  - cbn. by rewrite Hc.
  - rewrite IH by done. by rewrite decide_False.
Qed.

Lemma isSpace_nl c : isSpace c = false -> c <> nl.
Proof. intros H ->. by vm_compute in H. Qed.

Lemma splitFrom_word w : chars_are (fun c => isSpace c = false) w -> forall cur s,
  splitFrom cur (w +:+ s) = splitFrom (cur +:+ w) s.
Proof.
  induction w as [|c w IH]; intros Hw cur s; [by rewrite append_nil_r |]. destruct Hw as [Hc Hw].
  cbn [String.append splitFrom]. rewrite decide_False by (by apply isSpace_nl). rewrite IH by done. by rewrite append_cons.
Qed.

(** The output of [find] without its last newline. *)
Fixpoint joined (ps : list string) : string :=
  match ps with [] => "" | [p] => p | p :: ps => p +:+ String nl (joined ps) end.

Lemma joined_cons p q ps : joined (p :: q :: ps) = p +:+ String nl (joined (q :: ps)).
Proof. done. Qed.

Lemma joined_nonempty p ps : word p -> joined (p :: ps) <> "".
Proof. intros [Hp _]. destruct ps; [done |]. destruct p; [done |]. done. Qed.

Lemma trimmed_output dir found : (forall name, name ∈ found -> word (path dir name)) ->
  TrimSpace (find_output dir found) = joined (path dir <$> found).
Proof.
  intros Hw. unfold TrimSpace.
  assert (trimLeft (find_output dir found) = find_output dir found) as ->.
  { destruct found as [|name found]; [done |]. cbn [find_output]. apply trimLeft_word, Hw, list_elem_of_here. }
  induction found as [|name found IH]; [done |]. cbn [find_output].
  assert (word (path dir name)) as Hn by apply Hw, list_elem_of_here.
  destruct found as [|name' found].
  - cbn [find_output fmap list_fmap joined]. by apply trimRight_line.
  - assert (forall x, x ∈ name' :: found -> word (path dir x)) as Hw' by (intros x Hx; by apply Hw, list_elem_of_further).
    specialize (IH Hw'). rewrite !fmap_cons in *. rewrite joined_cons, <- IH.
    rewrite <- (append_cons (path dir name) nl). rewrite trimRight_keep.
    + by rewrite append_cons.
    + rewrite IH. apply joined_nonempty, Hw', list_elem_of_here.
Qed.

Lemma split_joined p ps : word p -> (forall q, q ∈ ps -> word q) -> Split (joined (p :: ps)) = p :: ps.
Proof.
  revert p. induction ps as [|q ps IH]; intros p [Hp Hc] Hw; unfold Split.
  - cbn [joined]. rewrite <- (append_nil_r p) at 1. by rewrite splitFrom_word.
  - rewrite joined_cons, splitFrom_word by done. cbn [splitFrom]. rewrite decide_True by done. f_equal.
    apply IH; [apply Hw, list_elem_of_here |]. intros r Hr. by apply Hw, list_elem_of_further.
Qed.

(** [findFiles] recovers the files that [find] printed. *)
Lemma findFiles_output dir found : (forall name, name ∈ found -> word (path dir name)) ->
  findFiles (find_output dir found) = path dir <$> found.
Proof.
  intros Hw. unfold findFiles. rewrite trimmed_output by done. destruct found as [|name found]; [done |].
  rewrite fmap_cons. rewrite decide_False by (apply joined_nonempty, Hw, list_elem_of_here).
  apply split_joined; [apply Hw, list_elem_of_here |].
  intros q (x & -> & Hx)%list_elem_of_fmap. by apply Hw, list_elem_of_further.
Qed.

Lemma at_path_path dir fs name : at_path dir fs (path dir name) = fs !! name.
Proof.
  assert (forall a b, String.prefix a (a +:+ b) = true) as Hp.
  { induction a as [|c a IH]; intros b; cbn; [by destruct b |]. destruct (Ascii.ascii_dec c c); [apply IH | done]. }
  assert (forall a b, String.substring (String.length a) (String.length (a +:+ b) - String.length a) (a +:+ b) = b) as Hsub.
  { induction a as [|c a IH]; intros b; cbn [String.append String.length].
    - rewrite Nat.sub_0_r. induction b as [|d b IHb]; [done |]. cbn. f_equal. apply IHb.
    - cbn. apply IH. }
  unfold at_path, path. rewrite <- append_assoc, Hp.
  replace (String.length dir + 1)%nat with (String.length (dir +:+ "/")); [by rewrite Hsub |].
  clear. induction dir as [|c dir IH]; [done |]. cbn. by rewrite IH.
Qed.

(** ** The helpers of the tests *)
Section Helpers.
Context `{sorter : !Sorter}.
Context (sort_cmd : list string -> string).

(** [sort files...]: it fails if a file cannot be opened. *)
Definition sort_files (contents : list (option string)) : Res string :=
  match mapM id contents with Some cs => Ok (sort_cmd cs) | None => Panic end.

(** [mkCorrectOutput]; [mrsequential] runs in the directory of the test. *)
Definition mkCorrectOutput (mapf : string -> string -> list KeyValue) (reducef : string -> list string -> string)
    (inputs : list (string * string)) (out : string) (fs : files) : Res files :=
  let* r := sequential mapf reducef inputs in
  match r with
  | None => Panic
  | Some kvs =>
      let fs := <["mr-out-0" := printKVs kvs]> fs in
      let fs := <[out := ""]> fs in
      let* s := sort_files [fs !! "mr-out-0"] in
      Ok (delete "mr-out-0" (<[out := s]> fs))
  end.

Definition mergeOutput (dir output out : string) (fs : files) : Res files :=
  let found := findFiles output in
  if decide (zlen found < 1) then Panic
  else
    let fs := <[out := ""]> fs in
    let* s := sort_files (at_path dir fs <$> found) in
    Ok (<[out := s]> fs).
End Helpers.

(** [cmp] fails if a file is missing or the contents differ. *)
Definition runCmp (f1 f2 : string) (fs : files) : Res unit :=
  match fs !! f1, fs !! f2 with
  | Some s1, Some s2 => if decide (s1 = s2) then Ok tt else Panic
  | _, _ => Panic
  end.

(** [cleanup]: [found] is what [find] lists for [mr-*]. *)
Definition cleanup (dir output : string) (fs : files) : files :=
  foldl (fun fs p => delete (String.substring (String.length dir + 1) (String.length p - (String.length dir + 1)) p) fs)
    fs (findFiles output).

(** [FindAllString] of [regexp] gives the matches of a pattern. *)
Section Count.
Context (FindAllString : string -> string -> list string).

Definition countPatternFile (dir p : string) (fs : files) (f : string) : Res Z :=
  match at_path dir fs f with Some data => Ok (zlen (FindAllString p data)) | None => Panic end.

Fixpoint countPattern (dir p : string) (fs : files) (found : list string) : Res Z :=
  match found with
  | [] => Ok 0
  | f :: found =>
      let* k := countPatternFile dir p fs f in
      let* n := countPattern dir p fs found in
      Ok (k + n)
  end.
End Count.

(** ** The test applications *)

(** What [maybeCrash] does: [WKill] is the exit of the worker, a step
    [mr_kill] of the job. *)
Inductive crash_outcome := WKill | WDelay (ms : Z) | WGo.

Module Crash.
Definition maybeCrash (rr ms : Z) : crash_outcome :=
  if decide (rr < 330) then WKill else if decide (rr < 660) then WDelay ms else WGo.

Definition Map (filename contents : string) : list KeyValue :=
  [mkKeyValue "a" filename; mkKeyValue "b" (pretty (Z.of_nat (String.length filename)));
   mkKeyValue "c" (pretty (Z.of_nat (String.length contents))); mkKeyValue "d" "xyzzy"].

Definition Reduce (key : string) (values : list string) : string :=
  let vv := merge_sort String.le values in Indexer.Join vv " ".
End Crash.

Module Nocrash.
Definition maybeCrash (rr : Z) : crash_outcome := if false && bool_decide (rr < 500) then WKill else WGo.
Definition Map : string -> string -> list KeyValue := Crash.Map.
Definition Reduce : string -> list string -> string := Crash.Reduce.
End Nocrash.

Module EarlyExit.
Definition Map (filename contents : string) : list KeyValue := [mkKeyValue filename "1"].

(** The sleep of some keys aside. *)
Definition Reduce (key : string) (values : list string) : string := pretty (zlen values).
End EarlyExit.

Lemma Crash_order_blind : order_blind Crash.Reduce.
Proof.
  intros k vs vs' H. unfold Crash.Reduce.
  assert (merge_sort String.le vs = merge_sort String.le vs') as ->; [| done].
  apply (StronglySorted_unique String.le); [apply StronglySorted_merge_sort; apply _.. |].
  by rewrite !merge_sort_Permutation.
Qed.

Lemma EarlyExit_order_blind : order_blind EarlyExit.Reduce.
Proof. exact Wc_order_blind. Qed.

Lemma pretty_go_nonempty x s : s <> "" -> pretty_N_go x s <> "".
Proof.
  revert s. induction (N.lt_wf_0 x) as [x _ IH]. intros s Hs.
  destruct (decide (x = 0)%N) as [->|Hx]; [by rewrite pretty_N_go_0 |].
  rewrite pretty_N_go_step by lia. apply IH; [apply N.div_lt; lia | done].
Qed.

Lemma word_pretty z : 0 <= z -> word (pretty z).
Proof.
  intros Hz. split.
  - destruct z as [|p|p]; [done | | lia]. change (pretty (N.pos p) <> ""). unfold pretty, pretty_N.
    case_decide; [done |]. rewrite pretty_N_go_step by lia. by apply pretty_go_nonempty.
  - eapply chars_are_impl; [| by apply digits_of_pretty]. intros c Hc. unfold is_digit in Hc. unfold isSpace.
    repeat match goal with |- context [bool_decide ?P] => rewrite (bool_decide_eq_false_2 P) by lia end. done.
Qed.

Lemma words_named mapf inputs : (forall name content, word name -> words (mapf name content)) ->
  (forall p, p ∈ inputs -> word p.1) -> words (all_pairs mapf inputs).
Proof.
  intros Hm. unfold words, all_pairs. induction inputs as [|[name content] inputs IH]; intros Hw; [constructor |].
  csimpl. apply list.Forall_app. split.
  - apply Hm, (Hw (name, content)), list_elem_of_here.
  - apply IH. intros p Hp. by apply Hw, list_elem_of_further.
Qed.

(** Names of files are words, so that these pairs survive the files. *)
Lemma Crash_words name content : word name -> words (Crash.Map name content).
Proof.
  intros Hw. unfold words, Crash.Map. repeat apply list.Forall_cons_2; cbn; try constructor;
    try (by apply word_pretty; lia); done.
Qed.

Lemma EarlyExit_words name content : word name -> words (EarlyExit.Map name content).
Proof. intros Hw. unfold words, EarlyExit.Map. repeat constructor; cbn; try done; apply Hw. Qed.

(** ** The files of a job *)
Lemma out_pattern_file f : valid_file f -> out_pattern (filename f) = true -> exists r, f = FOut r.
Proof. destruct f as [t i w|t i|t w|t]; intros Hv H; [discriminate H.. | by exists t]. Qed.

Lemma out_pattern_out r : 0 <= r < 10 -> out_pattern (filename (FOut r)) = true.
Proof.
  intros Hr. assert (r ∈ [0; 1; 2; 3; 4; 5; 6; 7; 8; 9]) as Hin by (rewrite !elem_of_cons; lia).
  repeat (apply elem_of_cons in Hin as [->|Hin]; [reflexivity |]). by apply not_elem_of_nil in Hin.
Qed.

(** A file that the job and the pattern leave alone. *)
Definition apart (name : string) : Prop := out_pattern name = false /\ forall f, valid_file f -> filename f <> name.

Lemma concat_perm {A B} (f : A -> list B) l l' : l ≡ₚ l' -> concat (f <$> l) ≡ₚ concat (f <$> l').
Proof.
  induction 1 as [|x l l' _ IH|x y l|l l' l'' _ IH1 _ IH2]; csimpl; [done | by rewrite IH | | by rewrite IH1].
  rewrite !app_assoc. by rewrite (Permutation_app_comm (f y)).
Qed.

Lemma concat_concat {A B C} (f : B -> list C) (g : A -> list B) l :
  concat (f <$> concat (g <$> l)) = concat ((fun a => concat (f <$> g a)) <$> l).
Proof. induction l as [|a l IH]; [done |]. csimpl. by rewrite fmap_app, concat_app, IH. Qed.

Lemma word_out_path dir r : chars_are (fun c => isSpace c = false) dir ->
  word (path dir (filename (FOut (Z.of_nat r)))).
Proof.
  intros Hdir. split; [by destruct dir |]. unfold path. apply chars_are_app. split; [done |]. cbn. split_and!; try done.
  apply word_pretty. lia.
Qed.

Section Test.
Context `{sorter : !Sorter}.
Context (mapf : string -> string -> list KeyValue) (reducef : string -> list string -> string).
Context (inputs : list (string * string)) (n : Z).
Context (sort_cmd : list string -> string).
Hypothesis Hn : 0 < n <= 10.
Hypothesis Hnames : input_names inputs.
Hypothesis Hblind : order_blind reducef.
Hypothesis Hwords : words (all_pairs mapf inputs).

(** [sort] depends on the lines of its files only. *)
Hypothesis sort_lines : forall cs cs', concat (lines_of <$> cs) ≡ₚ concat (lines_of <$> cs') -> sort_cmd cs = sort_cmd cs'.

Definition outs_only (fs : files) : Prop :=
  forall name, out_pattern name = true -> is_Some (fs !! name) -> exists r, 0 <= r < n /\ name = filename (FOut r).

Lemma fs_step_outs_only id fs fs' : fs_step mapf reducef inputs n id fs fs' -> outs_only fs -> outs_only fs'.
Proof.
  intros Hst Ho name Hp Hs.
  assert (forall g s (fs1 : files), valid_file g -> (forall r, g = FOut r -> r < n) -> (is_Some (fs1 !! name) -> is_Some (fs !! name)) ->
    is_Some (<[filename g := s]> fs1 !! name) -> exists r, 0 <= r < n /\ name = filename (FOut r)) as Hins.
  { intros g s fs1 Hg Hlt Hfs Hi. destruct (decide (filename g = name)) as [<-|Hne].
    - destruct (out_pattern_file g Hg Hp) as [r ->]. exists r. split; [split; [exact Hg | by apply Hlt] | done].
    - rewrite lookup_insert_ne in Hi by done. by apply Ho, Hfs. }
  assert (forall f, is_Some (delete (filename f) fs !! name) -> is_Some (fs !! name)) as Hdel.
  { intros f [s Hd]. apply lookup_delete_Some in Hd as [_ Hd]. by exists s. }
  destruct Hst as [|g s Hog Hg|t k q Ht Hk Hq|t s Ht Htn Hout].
  - by apply Ho.
  - eapply Hins; [exact Hg | | | exact Hs]; [| done]. intros r ->. destruct Hog.
  - eapply (Hins (FInter t k)); [by split | done | apply Hdel | exact Hs].
  - eapply (Hins (FOut t)); [done | by intros r [= <-] | apply Hdel | exact Hs].
Qed.

Lemma fs_step_apart id fs fs' name : 0 <= id -> fs_step mapf reducef inputs n id fs fs' -> apart name ->
  fs' !! name = fs !! name.
Proof.
  intros Hid Hst [_ Hne]. destruct Hst as [|g s Hog Hg|t k q Ht Hk Hq|t s Ht Htn Hout]; [done | | |].
  - by rewrite lookup_insert_ne by (by apply Hne).
  - by rewrite lookup_insert_ne, lookup_delete_ne by (by apply Hne).
  - by rewrite lookup_insert_ne, lookup_delete_ne by (by apply Hne).
Qed.

(** What a job leaves of the directory it starts in. *)
Lemma job_files s s' : mr_inv mapf reducef inputs n s -> outs_only (mr_fs s) -> rtc (mr_step mapf reducef) s s' ->
  outs_only (mr_fs s') /\ forall name, apart name -> mr_fs s' !! name = mr_fs s !! name.
Proof.
  intros Hi Ho Hst. revert Hi Ho. induction Hst as [s|s s1 s' Hs _ IH]; intros Hi Ho; [done |].
  pose proof (mr_inv_step mapf reducef inputs n ltac:(lia) Hnames Hblind Hwords s s1 Hi Hs) as Hi1.
  destruct (mr_step_files mapf reducef inputs n ltac:(lia) Hblind Hwords s s1 Hi Hs) as [Heq|(id & Hid & Hfs)].
  - destruct IH as [H1 H2]; [done | by rewrite Heq |]. split; [done |]. intros name Hn'. by rewrite H2, Heq.
  - destruct IH as [H1 H2]; [done | by eapply fs_step_outs_only |]. split; [done |].
    intros name Hn'. rewrite H2 by done. by eapply fs_step_apart.
Qed.

(** The lines of the merged files are those of the correct output. *)
Lemma merged_lines (parts : nat -> list KeyValue) seq_out : concat (parts <$> seq 0 (Z.to_nat n)) ≡ₚ seq_out ->
  concat (lines_of <$> ((fun r => printKVs (parts r)) <$> seq 0 (Z.to_nat n))) ≡ₚ concat (lines_of <$> [printKVs seq_out]).
Proof.
  intros Hp. csimpl. rewrite app_nil_r, lines_of_print, <- (concat_perm _ _ _ Hp), concat_concat.
  rewrite <- list_fmap_compose. apply reflexive_eq. f_equal. apply list_fmap_ext. intros _ r _. cbn. apply lines_of_print.
Qed.

Lemma mapM_paths dir (fs : files) (found : list string) : (forall name, name ∈ found -> is_Some (fs !! name)) ->
  mapM id (at_path dir fs <$> (path dir <$> found)) = Some ((fun name => default "" (fs !! name)) <$> found).
Proof.
  intros Hs. rewrite <- list_fmap_compose. apply mapM_Some_2. apply Forall2_fmap_l, Forall2_fmap_r, Forall_Forall2_diag.
  apply list.Forall_forall. intros name Hname. cbn. rewrite at_path_path. by destruct (Hs name Hname) as [c ->].
Qed.

Lemma finds_outputs (fs : files) (found : list string) : finds fs out_pattern found -> outs_only fs ->
  (forall r, Z.of_nat r < n -> is_Some (fs !! filename (FOut (Z.of_nat r)))) ->
  found ≡ₚ (fun r => filename (FOut (Z.of_nat r))) <$> seq 0 (Z.to_nat n).
Proof.
  intros [Hnd Hf] Ho Hex. apply NoDup_Permutation; [done | |].
  - apply (NoDup_fmap_2_strong _ _); [| apply NoDup_seq]. intros x y Hx Hy Heq.
    apply filename_inj in Heq; [by injection Heq; lia | cbn; lia | cbn; lia].
  - intros name. rewrite Hf, list_elem_of_fmap. split.
    + intros [Hp Hs]. destruct (Ho name Hp Hs) as (r & Hr & ->). exists (Z.to_nat r).
      rewrite Z2Nat.id by lia. split; [done |]. apply elem_of_seq. lia.
    + intros (r & -> & [_ Hr]%elem_of_seq). split; [apply out_pattern_out; lia | apply Hex; lia].
Qed.

(** ** Properties *)

(** C30: The tests compare what they should.  A test computes the correct
    output with the sequential program, runs a job of at most ten reduce
    tasks in the same directory, merges the output files that [find] lists
    in whatever order, and compares: in every execution of the job, with
    workers that crash or are killed at any moment, the comparison succeeds
    once the job is done.  The directory holds no earlier output files, and
    the reducer and the pairs are as [mapreduce_is_sequential] needs them. *)
Theorem merged_output_correct dir correct merged fs0 s found :
  chars_are (fun c => isSpace c = false) dir -> apart correct -> apart merged -> correct <> merged ->
  (forall p, p ∈ inputs -> fs0 !! p.1 = Some p.2 /\ p.1 <> correct) -> outs_only fs0 ->
  exists fs1, mkCorrectOutput sort_cmd mapf reducef inputs correct fs0 = Ok fs1 /\
  (rtc (mr_step mapf reducef) (mkMr (mkJob (MakeCoordinator inputs.*1 n) []) fs1 []) s ->
   Done (j_c (mr_job s)) = true -> finds (mr_fs s) out_pattern found ->
   exists fs2, mergeOutput sort_cmd dir (find_output dir found) merged (mr_fs s) = Ok fs2 /\
     runCmp merged correct fs2 = Ok tt).
Proof.
  intros Hdir Hcor Hmer Hcm Hin Hout0.
  destruct (distributed_is_sequential _ n mapf reducef inputs ltac:(lia) Hblind Hwords) as (_ & kvs & _ & _ & Hseq & _ & _).
  assert (correct <> "mr-out-0") as Hc0 by (destruct Hcor as [Hc _]; by intros ->).
  set (content := sort_cmd [printKVs kvs]).
  set (fs1 := delete "mr-out-0" (<[correct := content]> (<[correct := ""]> (<["mr-out-0" := printKVs kvs]> fs0)))).
  exists fs1. split.
  { unfold mkCorrectOutput. rewrite Hseq. cbn [res_bind]. rewrite lookup_insert_ne, lookup_insert_eq by done. done. }
  intros Hrun Hdone Hfound.
  assert (mr_init inputs n (mkMr (mkJob (MakeCoordinator inputs.*1 n) []) fs1 [])) as Hinit.
  { split_and!; [done | done |]. intros name c Hp. destruct (Hin _ Hp) as [Hfs Hne]. cbn in Hfs, Hne |- *. unfold fs1.
    assert ("mr-out-0" <> name) as H0 by (apply (Hnames (name, c) (FOut 0) Hp); done).
    by rewrite lookup_delete_ne, !lookup_insert_ne by done. }
  assert (outs_only fs1) as Hout1.
  { intros name Hp [c Hs]. unfold fs1 in Hs. apply lookup_delete_Some in Hs as [Hne Hs].
    assert (name <> correct) as Hnc by (destruct Hcor as [Hc _]; intros ->; congruence).
    rewrite !lookup_insert_ne in Hs by done. apply Hout0; [done | by exists c]. }
  pose proof (mr_inv_init mapf reducef inputs n ltac:(lia) _ Hinit) as Hi0.
  destruct (job_files _ _ Hi0 Hout1 Hrun) as [Houts Hkeep].
  assert (reachable (mr_init inputs n) (mr_step mapf reducef) s) as Hr.
  { clear -Hrun Hinit. revert Hinit. generalize (mkMr (mkJob (MakeCoordinator inputs.*1 n) []) fs1 []) Hrun.
    intros s0 Hst Hi. assert (reachable (mr_init inputs n) (mr_step mapf reducef) s0) as H0 by (by apply reach_init).
    clear Hi Hrun. induction Hst as [|s0 s1 s2 H1 _ IH]; [done |]. apply IH. by eapply reach_step. }
  pose proof (mr_reachable_inv mapf reducef inputs n ltac:(lia) Hnames Hblind Hwords s Hr) as Hi.
  destruct (done_outputs mapf reducef inputs n ltac:(lia) Hblind Hwords s Hi Hdone) as (kvs' & parts & Hseq' & Hparts & Hperm).
  rewrite Hseq in Hseq'. injection Hseq' as <-.
  assert (found ≡ₚ (fun r => filename (FOut (Z.of_nat r))) <$> seq 0 (Z.to_nat n)) as Hf.
  { apply (finds_outputs (mr_fs s)); [done | done |]. intros r Hlt. rewrite (Hparts r Hlt). by eexists. }
  assert (forall name, name ∈ found -> exists r, Z.of_nat r < n /\ name = filename (FOut (Z.of_nat r))) as Hname.
  { intros name Hx. rewrite Hf in Hx. apply list_elem_of_fmap in Hx as (r & -> & [_ ?]%elem_of_seq). exists r. split; [lia | done]. }
  assert (forall name, name ∈ found -> word (path dir name)) as Hword.
  { intros name Hx. destruct (Hname name Hx) as (r & _ & ->). apply word_out_path, Hdir. }
  unfold mergeOutput. rewrite findFiles_output by done.
  assert (length found = Z.to_nat n) as Hlen by (by rewrite Hf, length_fmap, length_seq).
  rewrite decide_False by (unfold zlen; rewrite length_fmap; lia).
  set (fs2 := <[merged := ""]> (mr_fs s)).
  assert (forall r, Z.of_nat r < n -> fs2 !! filename (FOut (Z.of_nat r)) = Some (printKVs (parts r))) as Hfs2.
  { intros r Hlt. unfold fs2. destruct Hmer as [_ Hne]. rewrite lookup_insert_ne by (symmetry; apply Hne; cbn; lia). by apply Hparts. }
  unfold sort_files. rewrite mapM_paths.
  2: { intros name Hx. destruct (Hname name Hx) as (r & Hlt & ->). rewrite (Hfs2 r Hlt). by eexists. }
  cbn [res_bind]. eexists. split; [done |]. unfold runCmp. rewrite lookup_insert_eq, lookup_insert_ne by done.
  unfold fs2. rewrite lookup_insert_ne by done. rewrite (Hkeep correct Hcor). cbn [mr_fs].
  assert (fs1 !! correct = Some content) as -> by (unfold fs1; by rewrite lookup_delete_ne, lookup_insert_eq by done).
  rewrite decide_True; [done |]. apply sort_lines.
  rewrite (concat_perm lines_of _ _ (fmap_Permutation _ _ _ Hf)). rewrite <- (merged_lines parts kvs Hperm).
  rewrite <- !list_fmap_compose. apply reflexive_eq. f_equal. apply list_fmap_ext.
  intros k r Hk. apply lookup_seq in Hk as [-> Hk]. cbn [compose]. rewrite Hfs2 by lia. done.
Qed.
End Test.

(** ** A concrete test *)
Section Example.
#[local] Existing Instance merge_sorter.

(** A [sort] of the required kind. *)
Definition ex_sort (cs : list string) : string :=
  foldr (fun l s => l +:+ newline +:+ s) "" (merge_sort String.le (concat (lines_of <$> cs))).

Lemma ex_sort_lines cs cs' : concat (lines_of <$> cs) ≡ₚ concat (lines_of <$> cs') -> ex_sort cs = ex_sort cs'.
Proof.
  intros H. unfold ex_sort. f_equal. apply (StronglySorted_unique String.le); [apply StronglySorted_merge_sort; apply _.. |].
  by rewrite !merge_sort_Permutation.
Qed.

Definition ex_fs1 : files := {[ "f" := "a b a"; "correct" := "a 2
b 1
" ]}.
Definition ex_job : mr := mkMr (mkJob (MakeCoordinator ["f"] 1) []) ex_fs1 [].
Definition ex_job_done : mr :=
  match ex_run ex_outcomes (mkMr (mr_job ex_job) (mr_fs ex_job) [newWorker]) with Ok s => s | Panic => ex_job end.

Lemma ex_run_rtc os : forall s s', ex_run os s = Ok s' -> rtc (mr_step Wc.Map Wc.Reduce) s s'.
Proof.
  induction os as [|o os IH]; intros s s' H; simpl in H; [by injection H as <- |].
  destruct (mr_ws s) as [|w ws] eqn:Ews; [done |]. apply res_bind_ok in H as ([[j fs] w'] & Hs & H).
  eapply rtc_l; [| by apply IH].
  pose proof (mr_worker Wc.Map Wc.Reduce s 0 o 0 w j fs w') as Hst. rewrite Ews in Hst. by apply Hst.
Qed.

Lemma ex_job_runs : rtc (mr_step Wc.Map Wc.Reduce) ex_job ex_job_done.
Proof.
  eapply rtc_l; [apply mr_start |]. unfold ex_job_done.
  destruct (ex_run ex_outcomes (mkMr (mr_job ex_job) (mr_fs ex_job) [newWorker])) as [s|] eqn:E.
  - by apply ex_run_rtc with ex_outcomes.
  - by vm_compute in E.
Qed.

Lemma ex_finds : finds (mr_fs ex_job_done) out_pattern ["mr-out-0"].
Proof.
  split; [by repeat constructor; apply not_elem_of_nil |].
  intros name. assert (mr_fs ex_job_done =
    {[ "f" := "a b a"; "correct" := "a 2
b 1
"; "mr-intermediate-0-0" := "a 1
a 1
b 1
"; "mr-out-0" := "a 2
b 1
" ]}) as -> by (vm_compute; reflexivity).
  rewrite list_elem_of_singleton, !lookup_insert_is_Some, lookup_singleton_is_Some. split.
  - intros ->. split; [reflexivity |]. right; split; [done |]. right; split; [done |]. right; by split.
  - intros [Hp [<-|[_ [<-|[_ [<-|[_ <-]]]]]]]; done.
Qed.

Lemma ex_apart name : out_pattern name = false -> String.prefix "mr-" name = false -> apart name.
Proof. intros Ho Hp. split; [done |]. intros f _ <-. by destruct f. Qed.

Lemma merged_output_correct_witness :
  mkCorrectOutput ex_sort Wc.Map Wc.Reduce ex_inputs "correct" {[ "f" := "a b a" ]} = Ok ex_fs1 /\
  exists fs2, mergeOutput ex_sort "tmp" (find_output "tmp" ["mr-out-0"]) "merged" (mr_fs ex_job_done) = Ok fs2 /\
    runCmp "merged" "correct" fs2 = Ok tt.
Proof.
  assert (mkCorrectOutput ex_sort Wc.Map Wc.Reduce ex_inputs "correct" {[ "f" := "a b a" ]} = Ok ex_fs1) as Hmk
    by (vm_compute; reflexivity).
  split; [exact Hmk |].
  destruct (merged_output_correct Wc.Map Wc.Reduce ex_inputs 1 ex_sort ltac:(lia) ex_names Wc_order_blind
    (words_all Wc.Map ex_inputs Wc_words) ex_sort_lines "tmp" "correct" "merged" {[ "f" := "a b a" ]}
    ex_job_done ["mr-out-0"]) as (fs1 & Hfs1 & H).
  - by repeat split.
  - by apply ex_apart.
  - by apply ex_apart.
  - done.
  - intros p Hp. apply list_elem_of_singleton in Hp as ->. split; [reflexivity | done].
  - intros name Hp [c Hs]. apply lookup_singleton_Some in Hs as [<- _]. by vm_compute in Hp.
  - rewrite Hmk in Hfs1. injection Hfs1 as <-. apply H; [exact ex_job_runs | vm_compute; reflexivity | exact ex_finds].
Defined.
End Example.
