(* ===== verification/Rsm.v ===== *)
(** * The replicated state machine layer ([kvraft1/rsm/rsm.go],
      [kvraft1/rsm/server.go])

    [Submit] hands an operation to Raft and waits on a channel that is
    filed under the operation's log index; [applyReader] executes the
    applied commands and sends each result to the channel filed under its
    index.  The file models both goroutines with the shared map, the
    channels and the aliasing between them, against an abstract state
    machine. *)
From S2P Require Import Prelude Kv.
Import Rpc.
#[local] Open Scope Z_scope.

(** The interface [StateMachine] that a server provides.  A [Panic] is a
    [log.Fatalf] or a failed decoding. *)
Class StateMachine (State Req Rep : Type) := {
  sm_DoOp : Req -> State -> Res (State * Rep);
  sm_Snapshot : State -> list Z;
  sm_Restore : list Z -> State -> Res State;
}.

Record Op (Req : Type) := mkOp { Command_ : Req; Id_ : Z }.
Arguments mkOp {Req} _ _.
Arguments Command_ {Req} _.
Arguments Id_ {Req} _.

Record OperationResult (Req Rep : Type) := mkResult { operation_ : Op Req; result_ : Rep }.
Arguments mkResult {Req Rep} _ _.
Arguments operation_ {Req Rep} _.
Arguments result_ {Req Rep} _.

(** A call of [Submit] that waits: its operation, its index, its channel,
    and what it received. *)
Record Waiting (Req Rep : Type) := mkWaiting {
  w_op : Op Req; w_index : Z; w_chan : nat; w_got : option (OperationResult Req Rep)
}.
Arguments mkWaiting {Req Rep} _ _ _ _.
Arguments w_op {Req Rep} _.
Arguments w_index {Req Rep} _.
Arguments w_chan {Req Rep} _.
Arguments w_got {Req Rep} _.

(** What [applyReader] did, in order. *)
Inductive Did (Req Rep : Type) :=
| Applied (op : Op Req) (rep : Rep)
| Restored (data : list Z).
Arguments Applied {Req Rep} op rep.
Arguments Restored {Req Rep} data.

Section Rsm.
Context {State Req Rep : Type} `{sm : !StateMachine State Req Rep}.

(** [bufs] is the content of the channels, each with room for one value;
    [sending] is the value [applyReader] is about to send.  The last three
    components record what happened: what [applyReader] did, what the calls
    returned, and the calls of [rf.Snapshot]. *)
Record RSM := mkRSM {
  maxraftstate : Z;
  sm_state : State;
  operation_channels_ : gmap Z nat;
  bufs : list (option (OperationResult Req Rep));
  sending : option (nat * OperationResult Req Rep);
  waiting : gmap nat (Waiting Req Rep);
  applied : list (Did Req Rep);
  returned : gmap nat (Op Req * Err * option Rep);
  snapshots : list (Z * list Z);
}.

Definition MakeRSM (maxraft : Z) (snapshot : list Z) (init : State) : Res RSM :=
  let* s := if decide (0 < zlen snapshot) then sm_Restore snapshot init else Ok init in
  Ok (mkRSM maxraft s ∅ [] None ∅ [] ∅ []).

(** [applyReader], from the command to the send; [persist_bytes] is what
    [rsm.rf.PersistBytes()] returns.  It is idle when [sending] is [None]. *)
Definition applyCommand (persist_bytes index : Z) (op : Op Req) (r : RSM) : Res RSM :=
  let* p := sm_DoOp (Command_ op) (sm_state r) in
  let '(s, result) := p in
  let snaps :=
    if decide (maxraftstate r <> -1 /\ maxraftstate r < persist_bytes)
    then snapshots r ++ [(index, sm_Snapshot s)] else snapshots r in
  let snd :=
    match operation_channels_ r !! index with
    | None => None
    | Some channel => Some (channel, mkResult op result)
    end in
  Ok (mkRSM (maxraftstate r) s (operation_channels_ r) (bufs r) snd (waiting r)
        (applied r ++ [Applied op result]) (returned r) snaps).

(** The send completes when the channel's buffer is empty. *)
Definition applySend (r : RSM) : option RSM :=
  match sending r with
  | Some (channel, res) =>
      match bufs r !! channel with
      | Some None =>
          Some (mkRSM (maxraftstate r) (sm_state r) (operation_channels_ r) (<[channel := Some res]> (bufs r))
                  None (waiting r) (applied r) (returned r) (snapshots r))
      | _ => None
      end
  | None => None
  end.

Definition applySnapshot (data : list Z) (r : RSM) : Res RSM :=
  let* s := sm_Restore data (sm_state r) in
  Ok (mkRSM (maxraftstate r) s (operation_channels_ r) (bufs r) (sending r) (waiting r)
        (applied r ++ [Restored data]) (returned r) (snapshots r)).

(** [Submit] up to the wait, as call number [sid]; [Start] answered
    [log_index] and [is_leader]. *)
Definition submitStart (sid : nat) (req : Req) (id log_index : Z) (is_leader : bool) (r : RSM) : RSM :=
  let operation := mkOp req id in
  if negb is_leader then
    mkRSM (maxraftstate r) (sm_state r) (operation_channels_ r) (bufs r) (sending r) (waiting r)
      (applied r) (<[sid := (operation, ErrWrongLeader, None)]> (returned r)) (snapshots r)
  else
    let channel := length (bufs r) in
    mkRSM (maxraftstate r) (sm_state r) (<[log_index := channel]> (operation_channels_ r)) (bufs r ++ [None])
      (sending r) (<[sid := mkWaiting operation log_index channel None]> (waiting r))
      (applied r) (returned r) (snapshots r).

(** The select takes a value from the channel. *)
Definition submitReceive (sid : nat) (r : RSM) : option RSM :=
  match waiting r !! sid with
  | Some w =>
      match w_got w, bufs r !! w_chan w with
      | None, Some (Some res) =>
          Some (mkRSM (maxraftstate r) (sm_state r) (operation_channels_ r) (<[w_chan w := None]> (bufs r))
                  (sending r) (<[sid := mkWaiting (w_op w) (w_index w) (w_chan w) (Some res)]> (waiting r))
                  (applied r) (returned r) (snapshots r))
      | _, _ => None
      end
  | None => None
  end.

(** The deferred [delete], and the return. *)
Definition submitReturn (sid : nat) (w : Waiting Req Rep) (err : Err) (rep : option Rep) (r : RSM) : RSM :=
  mkRSM (maxraftstate r) (sm_state r) (delete (w_index w) (operation_channels_ r)) (bufs r) (sending r)
    (delete sid (waiting r)) (applied r) (<[sid := (w_op w, err, rep)]> (returned r)) (snapshots r).

(** After the receive, under the lock: compare the identities. *)
Definition submitFinish (sid : nat) (r : RSM) : option RSM :=
  match waiting r !! sid with
  | Some w =>
      match w_got w with
      | Some res =>
          Some (if decide (Id_ (operation_ res) <> Id_ (w_op w))
                then submitReturn sid w ErrWrongLeader None r
                else submitReturn sid w OK (Some (result_ res)) r)
      | None => None
      end
  | None => None
  end.

(** The select takes the timer. *)
Definition submitTimeout (sid : nat) (r : RSM) : option RSM :=
  match waiting r !! sid with
  | Some w =>
      match w_got w with
      | None => Some (submitReturn sid w ErrWrongLeader None r)
      | Some _ => None
      end
  | None => None
  end.

(** ** Executions *)
Variable cmd_of : Z -> Req.

(** Operations are told apart by their random identities: two operations
    with the same identity are the same operation. *)
Definition genuine (op : Op Req) : Prop := Command_ op = cmd_of (Id_ op).

Inductive rsm_step (r : RSM) : RSM -> Prop :=
| rsm_apply persist_bytes index op r' :
    sending r = None -> genuine op -> applyCommand persist_bytes index op r = Ok r' -> rsm_step r r'
| rsm_snapshot data r' :
    sending r = None -> applySnapshot data r = Ok r' -> rsm_step r r'
| rsm_send r' : applySend r = Some r' -> rsm_step r r'
| rsm_submit sid req id log_index is_leader :
    waiting r !! sid = None -> returned r !! sid = None -> genuine (mkOp req id) ->
    rsm_step r (submitStart sid req id log_index is_leader r)
| rsm_receive sid r' : submitReceive sid r = Some r' -> rsm_step r r'
| rsm_finish sid r' : submitFinish sid r = Some r' -> rsm_step r r'
| rsm_timeout sid r' : submitTimeout sid r = Some r' -> rsm_step r r'.

Definition rsm_init (init : State) (r : RSM) : Prop := exists maxraft, r = mkRSM maxraft init ∅ [] None ∅ [] ∅ [].

Lemma MakeRSM_init maxraft snapshot s r : MakeRSM maxraft snapshot s = Ok r -> rsm_init (sm_state r) r.
Proof. unfold MakeRSM. intros H. res_inv. by eexists. Qed.

(** Replaying what was done. *)
Fixpoint replay (s : State) (dids : list (Did Req Rep)) : Res State :=
  match dids with
  | [] => Ok s
  | Applied op _ :: dids => let* p := sm_DoOp (Command_ op) s in replay p.1 dids
  | Restored data :: dids => let* s := sm_Restore data s in replay s dids
  end.

(** Each applied operation produced its result in the state that
    everything before it left. *)
Definition consistent (init s : State) (dids : list (Did Req Rep)) : Prop :=
  replay init dids = Ok s /\
  forall before op rep after, dids = before ++ Applied op rep :: after ->
    exists s0 s1, replay init before = Ok s0 /\ sm_DoOp (Command_ op) s0 = Ok (s1, rep).

(** A result that is on its way belongs to an applied operation. *)
Definition sourced (r : RSM) (res : OperationResult Req Rep) : Prop :=
  genuine (operation_ res) /\ Applied (operation_ res) (result_ res) ∈ applied r.

Record rsm_inv (init : State) (r : RSM) : Prop := mkRsmInv {
  ri_run : consistent init (sm_state r) (applied r);
  ri_bufs : forall c res, bufs r !! c = Some (Some res) -> sourced r res;
  ri_sending : forall c res, sending r = Some (c, res) -> sourced r res;
  ri_got : forall sid w res, waiting r !! sid = Some w -> w_got w = Some res -> sourced r res;
  ri_waiting : forall sid w, waiting r !! sid = Some w -> genuine (w_op w);
  ri_returned : forall sid op rep, returned r !! sid = Some (op, OK, Some rep) -> Applied op rep ∈ applied r;
  ri_errors : forall sid op err rep, returned r !! sid = Some (op, err, rep) ->
    err = OK /\ is_Some rep \/ err = ErrWrongLeader /\ rep = None;
}.

Lemma genuine_inj op op' : genuine op -> genuine op' -> Id_ op = Id_ op' -> op = op'.
Proof. destruct op, op'. unfold genuine. simpl. intros -> -> ->. done. Qed.

Lemma replay_app s ops ops' : replay s (ops ++ ops') = res_bind (replay s ops) (fun s => replay s ops').
Proof.
  revert s. induction ops as [|[op rep|data] ops IH]; intros s; [done | |]; simpl.
  - destruct (sm_DoOp (Command_ op) s); simpl; [apply IH | done].
  - destruct (sm_Restore data s); simpl; [apply IH | done].
Qed.

Lemma consistent_snoc init s ops d s' :
  consistent init s ops -> replay s [d] = Ok s' ->
  (forall op rep, d = Applied op rep -> exists s1, sm_DoOp (Command_ op) s = Ok (s1, rep)) ->
  consistent init s' (ops ++ [d]).
Proof.
  intros [Hrun Hall] Hd Hop. split; [by rewrite replay_app, Hrun |].
  intros before op rep after Heq.
  destruct after as [|x after _] using rev_ind.
  - apply app_inj_tail in Heq as [-> ->]. destruct (Hop op rep eq_refl) as [s1 H1]. eauto.
  - rewrite app_comm_cons, app_assoc in Heq. apply app_inj_tail in Heq as [-> _]. eauto.
Qed.

Lemma sourced_mono r r' res : applied r ⊆ applied r' -> sourced r res -> sourced r' res.
Proof. intros Hs [H1 H2]. split; auto. Qed.

Lemma apply_inv init r r' pb index op :
  rsm_inv init r -> genuine op -> applyCommand pb index op r = Ok r' -> rsm_inv init r'.
Proof.
  intros [H1 H2 H3 H4 H5 H6 H7] Hg Ha. unfold applyCommand in Ha.
  destruct (sm_DoOp (Command_ op) (sm_state r)) as [[s rep]|] eqn:Ed; [| done]. injection Ha as <-.
  assert (applied r ⊆ applied r ++ [Applied op rep]) as Hs by set_solver.
  split; simpl; eauto.
  - eapply consistent_snoc; [done | simpl; by rewrite Ed |]. intros op' rep' [= <- <-]. eauto.
  - intros c res Hc. eapply sourced_mono; [| by eapply H2]. done.
  - intros c res Hc. destruct (operation_channels_ r !! index); [| done]. injection Hc as <- <-.
    split; [done |]. simpl. set_solver.
  - intros sid w res Hw Hg'. eapply sourced_mono; [| by eapply H4]. done.
Qed.

Lemma snapshot_inv init r r' data : rsm_inv init r -> applySnapshot data r = Ok r' -> rsm_inv init r'.
Proof.
  intros [H1 H2 H3 H4 H5 H6 H7] Ha. unfold applySnapshot in Ha.
  destruct (sm_Restore data (sm_state r)) as [s|] eqn:Ed; [| done]. injection Ha as <-.
  assert (applied r ⊆ applied r ++ [Restored data]) as Hs by set_solver.
  split; simpl; eauto.
  - eapply consistent_snoc; [done | simpl; by rewrite Ed |]. done.
  - intros c res Hc. eapply sourced_mono; [| by eapply H2]. done.
  - intros c res Hc. eapply sourced_mono; [| by eapply H3]. done.
  - intros sid w res Hw Hg'. eapply sourced_mono; [| by eapply H4]. done.
Qed.

Lemma return_inv init r sid w err rep :
  rsm_inv init r -> waiting r !! sid = Some w ->
  (err = OK -> exists rp, rep = Some rp /\ Applied (w_op w) rp ∈ applied r) ->
  (err = OK /\ is_Some rep \/ err = ErrWrongLeader /\ rep = None) ->
  rsm_inv init (submitReturn sid w err rep r).
Proof.
  intros [H1 H2 H3 H4 H5 H6 H7] Hw Hok Herr. split; simpl; try done.
  - intros sid' w' res' Hw'. apply lookup_delete_Some in Hw' as [_ Hw']. eauto.
  - intros sid' w' Hw'. apply lookup_delete_Some in Hw' as [_ Hw']. eauto.
  - intros sid' op' rep' [[-> [= <- -> ->]]|[_ Hr]]%lookup_insert_Some; [| eauto].
    destruct (Hok eq_refl) as (rp & [= ->] & ?). done.
  - intros sid' op' err' rep' [[-> [= <- <- <-]]|[_ Hr]]%lookup_insert_Some; eauto.
Qed.

Lemma rsm_inv_step init r r' : rsm_inv init r -> rsm_step r r' -> rsm_inv init r'.
Proof.
  intros Hinv Hstep. pose proof Hinv as [H1 H2 H3 H4 H5 H6 H7].
  destruct Hstep as [pb index op r' Hs Hg Ha|data r' Hs Ha|r' Ha|sid req id idx il Hw Hr Hg|sid r' Ha|sid r' Ha|sid r' Ha].
  - by eapply apply_inv.
  - by eapply snapshot_inv.
  - unfold applySend in Ha. destruct (sending r) as [[c res]|] eqn:Es; [| done].
    destruct (bufs r !! c) as [[]|] eqn:Eb; simplify_eq. split; simpl; try done.
    intros c' res' Hc'. destruct (decide (c' = c)) as [->|Hne].
    + rewrite list_lookup_insert_eq in Hc' by (by eapply lookup_lt_Some). injection Hc' as <-.
      by apply (H3 c).
    + rewrite list_lookup_insert_ne in Hc' by done. by apply (H2 c').
  - unfold submitStart. destruct il; simpl; split; simpl; try done.
    + intros c res Hc. apply lookup_snoc_Some in Hc as [[_ Hc]|[_ Hc]]; [by apply (H2 c) | done].
    + intros sid' w res [[-> <-]|[_ Hl]]%lookup_insert_Some; [done | eauto].
    + intros sid' w [[-> <-]|[_ Hl]]%lookup_insert_Some; [done | eauto].
    + intros sid' op rep [[-> ?]|[_ Hl]]%lookup_insert_Some; [done | eauto].
    + intros sid' op err rep [[-> [= <- <- <-]]|[_ Hl]]%lookup_insert_Some; [by right | eauto].
  - unfold submitReceive in Ha. destruct (waiting r !! sid) as [w|] eqn:Ew; [| done].
    destruct (w_got w) eqn:Eg; [done |]. destruct (bufs r !! w_chan w) as [[res|]|] eqn:Eb; simplify_eq.
    split; simpl; try done.
    + intros c' res' Hc'. apply list_lookup_insert_Some in Hc' as [(_ & ? & _)|[_ Hc']]; [done | by apply (H2 c')].
    + intros sid' w' res' [[-> <-]|[_ Hl]]%lookup_insert_Some Hg; [| by eapply H4].
      simpl in Hg. injection Hg as <-. by apply (H2 (w_chan w)).
    + intros sid' w' [[-> <-]|[_ Hl]]%lookup_insert_Some; [simpl; by eapply H5 | eauto].
  - unfold submitFinish in Ha. destruct (waiting r !! sid) as [w|] eqn:Ew; [| done].
    destruct (w_got w) as [res|] eqn:Eg; [| done]. injection Ha as <-.
    destruct (H4 _ _ _ Ew Eg) as [Hgen Hin]. case_decide as Hid; apply return_inv; try done; [by right | | left; eauto].
    intros _. eexists. split; [done |].
    by rewrite <- (genuine_inj _ _ Hgen (H5 _ _ Ew) Hid).
  - unfold submitTimeout in Ha. destruct (waiting r !! sid) as [w|] eqn:Ew; [| done].
    destruct (w_got w); simplify_eq. apply return_inv; try done. by right.
Qed.

Lemma reachable_rsm_inv init r : reachable (rsm_init init) rsm_step r -> rsm_inv init r.
Proof.
  apply invariant_reachable; [| apply rsm_inv_step]. intros r0 [m ->]. split; simpl; try done.
  split; [done |]. intros [|] ???; done.
Qed.
End Rsm.

(** ** The counter server of [rsm/server.go] *)
Module RsmSrv.
(** The dynamic types of requests: [Inc], [Null], [Dec] and others. *)
Inductive Req := Inc | Null | Dec.
Inductive Rep := IncRep (N : Z) | NullRep.

Section Srv.
Context `{!Codec Z}.

(** The default branch of the switch ends the process. *)
Definition DoOp (req : Req) (counter : Z) : Res (Z * Rep) :=
  match req with
  | Inc => let counter := i64 (counter + 1) in Ok (counter, IncRep counter)
  | Null => Ok (counter, NullRep)
  | Dec => Panic
  end.

Definition GetCounter (counter : Z) : Z := counter.

Definition Snapshot (counter : Z) : list Z := encode counter.

Definition Restore (data : list Z) (counter : Z) : Res Z :=
  match decode data with
  | Some counter => Ok counter
  | None => Panic
  end.

#[export] Instance counter_machine : StateMachine Z Req Rep := {
  sm_DoOp := DoOp; sm_Snapshot := Snapshot; sm_Restore := Restore }.
End Srv.
End RsmSrv.
#[export] Existing Instance RsmSrv.counter_machine.

(** The key/value server as a state machine. *)
Section KvMachine.
Context `{!Codec kv_map}.

#[export] Instance kv_machine : StateMachine kv_map Kvraft.Req Kvraft.Rep := {
  sm_DoOp := fun req kv => Ok (Kvraft.DoOp req kv);
  sm_Snapshot := Kvraft.Snapshot;
  sm_Restore := Kvraft.Restore }.
End KvMachine.

(** ** Properties *)

(** What [Submit] promises.  A call that returned [OK] had its own
    operation executed, in the state that everything applied before it
    left, and returns that execution's result; every other call returns
    [ErrWrongLeader] and no result.  This holds however indices are
    reused, snapshots are installed and calls time out. *)
Theorem Submit_result {State Req Rep : Type} (sm : StateMachine State Req Rep) cmd_of init r sid op err rep :
  reachable (rsm_init init) (rsm_step cmd_of) r -> returned r !! sid = Some (op, err, rep) ->
  (err = ErrWrongLeader /\ rep = None) \/
  (err = OK /\ exists result before after s0 s1,
     rep = Some result /\ applied r = before ++ Applied op result :: after /\
     replay init before = Ok s0 /\ sm_DoOp (Command_ op) s0 = Ok (s1, result)).
Proof.
  intros Hr Hret. apply reachable_rsm_inv in Hr as [[_ Hc] _ _ _ _ Hok Herr].
  destruct (Herr _ _ _ _ Hret) as [[-> [result ->]]|[-> ->]]; [right | by left]. split; [done |].
  pose proof (Hok _ _ _ Hret) as Hin. apply list_elem_of_split in Hin as (before & after & Heq).
  destruct (Hc _ _ _ _ Heq) as (s0 & s1 & H1 & H2). by exists result, before, after, s0, s1.
Qed.

Definition ex_inc (n : Z) : Op RsmSrv.Req := mkOp RsmSrv.Inc n.
Definition ex_res (n c : Z) : OperationResult RsmSrv.Req RsmSrv.Rep := mkResult (ex_inc n) (RsmSrv.IncRep c).
Abbreviation CounterRSM := (@RSM Z RsmSrv.Req RsmSrv.Rep).

Definition ex_rsm0 : CounterRSM := mkRSM (-1) 0 ∅ [] None ∅ [] ∅ [].
Definition ex_cmd (_ : Z) : RsmSrv.Req := RsmSrv.Inc.
Abbreviation ex_reach := (reachable (rsm_init 0) (rsm_step ex_cmd)).

Definition ex_submitted : CounterRSM := submitStart 0 RsmSrv.Inc 7 1 true ex_rsm0.
Definition ex_applied : CounterRSM :=
  mkRSM (-1) 1 (operation_channels_ ex_submitted) [None] (Some (0%nat, ex_res 7 1)) (waiting ex_submitted)
    [Applied (ex_inc 7) (RsmSrv.IncRep 1)] ∅ [].
Definition ex_sent : CounterRSM :=
  mkRSM (-1) 1 (operation_channels_ ex_submitted) [Some (ex_res 7 1)] None (waiting ex_submitted)
    [Applied (ex_inc 7) (RsmSrv.IncRep 1)] ∅ [].
Definition ex_received : CounterRSM :=
  mkRSM (-1) 1 (operation_channels_ ex_submitted) [None] None
    {[ 0%nat := mkWaiting (ex_inc 7) 1 0 (Some (ex_res 7 1)) ]} [Applied (ex_inc 7) (RsmSrv.IncRep 1)] ∅ [].
Definition ex_finished : CounterRSM :=
  submitReturn 0 (mkWaiting (ex_inc 7) 1 0 (Some (ex_res 7 1))) OK (Some (RsmSrv.IncRep 1)) ex_received.

Lemma ex_finished_reachable : ex_reach ex_finished.
Proof.
  assert (ex_reach ex_rsm0) as H by (apply reach_init; by eexists).
  assert (ex_reach ex_submitted) as H1 by (eapply reach_step; [exact H |]; by apply rsm_submit).
  assert (ex_reach ex_applied) as H2.
  { eapply reach_step; [exact H1 |]. by apply (rsm_apply _ _ 0 1 (ex_inc 7)); vm_compute. }
  assert (ex_reach ex_sent) as H3 by (eapply reach_step; [exact H2 |]; apply rsm_send; by vm_compute).
  assert (ex_reach ex_received) as H4.
  { eapply reach_step; [exact H3 |]. apply (rsm_receive _ _ 0). by vm_compute. }
  eapply reach_step; [exact H4 |]. apply (rsm_finish _ _ 0). by vm_compute.
Qed.

Lemma Submit_result_witness :
  (OK = ErrWrongLeader /\ Some (RsmSrv.IncRep 1) = None) \/
  (OK = OK /\ exists result before after s0 s1,
     Some (RsmSrv.IncRep 1) = Some result /\ applied ex_finished = before ++ Applied (ex_inc 7) result :: after /\
     replay 0 before = Ok s0 /\ RsmSrv.DoOp RsmSrv.Inc s0 = Ok (s1, result)).
Proof.
  apply (Submit_result RsmSrv.counter_machine ex_cmd 0 ex_finished 0 (ex_inc 7) OK (Some (RsmSrv.IncRep 1)));
    [apply ex_finished_reachable | vm_compute; reflexivity].
Defined.

(** [Submit] can lose a reply it was waiting for.  When a new leader
    reuses a log index, the older call's deferred [delete] removes the
    newer call's channel; the newer operation is then applied by this
    server while its call waits, no result is sent, and the call reports
    [ErrWrongLeader]. *)
Theorem Submit_loses_reply :
  exists (r1 r2 r3 : @RSM Z RsmSrv.Req RsmSrv.Rep) w,
    ex_reach r1 /\ waiting r1 !! 1%nat = Some w /\ w_op w = ex_inc 2 /\ w_got w = None /\
    applyCommand 0 (w_index w) (ex_inc 2) r1 = Ok r2 /\ sending r2 = None /\
    applied r2 = [Applied (ex_inc 2) (RsmSrv.IncRep 1)] /\ ex_reach r2 /\
    submitTimeout 1 r2 = Some r3 /\ ex_reach r3 /\
    returned r3 !! 1%nat = Some (ex_inc 2, ErrWrongLeader, None).
Proof.
  pose (r0 := submitStart 1 RsmSrv.Inc 2 5 true (submitStart 0 RsmSrv.Inc 1 5 true ex_rsm0)).
  assert (ex_reach r0) as H0.
  { eapply reach_step; [eapply reach_step; [apply reach_init; by eexists |] |]; by apply rsm_submit. }
  pose (w0 := mkWaiting (Rep := RsmSrv.Rep) (ex_inc 1) 5 0 None).
  pose (w1 := mkWaiting (Rep := RsmSrv.Rep) (ex_inc 2) 5 1 None).
  pose (r1 := submitReturn 0 w0 ErrWrongLeader None r0).
  assert (submitTimeout 0 r0 = Some r1) as E1 by (vm_compute; reflexivity).
  assert (ex_reach r1) as H1 by exact (reach_step _ _ _ _ H0 (rsm_timeout ex_cmd r0 0 r1 E1)).
  destruct (applyCommand 0 5 (ex_inc 2) r1) as [r2|] eqn:E2; [| by vm_compute in E2].
  assert (ex_reach r2) as H2 by exact (reach_step _ _ _ _ H1 (rsm_apply ex_cmd r1 0 5 (ex_inc 2) r2 eq_refl eq_refl E2)).
  pose proof E2 as E2'. vm_compute in E2'. injection E2' as E2'.
  pose (r3 := submitReturn 1 w1 ErrWrongLeader None r2).
  assert (submitTimeout 1 r2 = Some r3) as E3 by (subst r2; vm_compute; reflexivity).
  assert (ex_reach r3) as H3 by exact (reach_step _ _ _ _ H2 (rsm_timeout ex_cmd r2 1 r3 E3)).
  exists r1, r2, r3, w1.
  split_and!; try done; try (subst r2; vm_compute; reflexivity).
Qed.
