(* ===== verification/RsmCluster.v ===== *)
(** * The whole service: state machines over Raft

    A cluster of servers, each a Raft peer of [RaftCluster] below an [RSM]
    of [Rsm], with the messages on the apply channels between them
    ([kvraft1/rsm/rsm.go] over [raft1/raft.go]).  A server crashes as a
    whole.  The calls of [Submit] and their returns are recorded in a
    history, of which the file proves that it is linearizable.

    The service takes no snapshots here ([maxraftstate] is -1), the
    identities that [Submit] draws are distinct, and the theorems are about
    the executions of [sys_quiet], which leave out the race of the ticker
    and keep terms and logs below the ends of their types. *)
From stdpp Require Import functions.
From S2P Require Import RaftTester.
From S2P Require Import Prelude Persister RaftNode RaftStep RaftElection RaftLog RaftSpec RaftCluster RaftRefine RaftSafety RaftOrigin.
From S2P Require Import Kv Rsm.
Import Rpc.
#[local] Open Scope Z_scope.

Section System.
Context {State Req Rep : Type} `{sm : !StateMachine State Req Rep} `{!Codec (RaftState (Op Req))}.
Variables (n : Z) (init : State) (cmd_of : Z -> Req).
Hypothesis Hn : 0 <= n.
Notation RC := (RCluster (Cmd := Op Req)).
Notation Msg := (ApplyMsg (Op Req)).
Implicit Types (rc : RC) (op : Op Req) (ops : list (Op Req)) (rep : option Rep) (sid : nat).

(** A call of [Submit] when its [Start] has answered, and its return. *)
Inductive CallEvent :=
| Invoked (sid : nat) (op : Op Req) (index : Z) (is_leader : bool)
| Returned (sid : nat) (op : Op Req) (err : Err) (rep : option Rep).

Record System := mkSystem {
  cluster : RC;
  inbox : Z -> list Msg;           (* sent by the applier, not yet received by applyReader *)
  rsms : Z -> @RSM State Req Rep;
  history : list CallEvent;            (* newest first *)
}.
Implicit Types (s : System).

Definition system_init s : Prop :=
  rc_init n (cluster s) /\ (forall i, inbox s i = []) /\
  (forall i, MakeRSM (-1) [] init = Ok (rsms s i)) /\ history s = [].

Definition set_cluster rc s := mkSystem rc (inbox s) (rsms s) (history s).
Definition set_inbox i msgs s := mkSystem (cluster s) (<[i := msgs]> (inbox s)) (rsms s) (history s).
Definition set_rsm i r s := mkSystem (cluster s) (inbox s) (<[i := r]> (rsms s)) (history s).
Definition record es s := mkSystem (cluster s) (inbox s) (rsms s) (es ++ history s).

Definition new_call (sid : nat) op s : Prop := forall sid' op' index is_leader,
  Invoked sid' op' index is_leader ∈ history s -> sid' <> sid /\ Id_ op' <> Id_ op.

#[local] Unset Elimination Schemes.
Inductive sys_step s : System -> Prop :=
| sys_peers rc : rc_internal n (cluster s) rc -> sys_step s (set_cluster rc s)
| sys_crash i r :
    is_peer n i -> MakeRSM (-1) (ReadSnapshot (persister (peer (cluster s) i))) init = Ok r ->
    sys_step s (set_rsm i r (set_inbox i [] (set_cluster (set_base (restarted i (base (cluster s))) (cluster s)) s)))
| sys_apply i rf msgs :
    (* the applier sends one batch at a time *)
    is_peer n i -> inbox s i = [] -> applierCommands (peer (cluster s) i) = Ok (rf, msgs) ->
    sys_step s (set_inbox i msgs (set_cluster (delivers i msgs (set_peer i rf (cluster s))) s))
| sys_read i m rest op r :
    is_peer n i -> inbox s i = m :: rest -> sending (rsms s i) = None ->
    CommandValid m = true -> Command m = Some op ->
    applyCommand (PersistBytes (peer (cluster s) i)) (CommandIndex m) op (rsms s i) = Ok r ->
    sys_step s (set_rsm i r (set_inbox i rest s))
| sys_submit i sid req id rf index term is_leader effs :
    is_peer n i -> new_call sid (mkOp req id) s -> genuine cmd_of (mkOp req id) ->
    Start (mkOp req id) (peer (cluster s) i) = (rf, (index, term, is_leader), effs) ->
    sys_step s (record ((if is_leader then [] else [Returned sid (mkOp req id) ErrWrongLeader None])
                          ++ [Invoked sid (mkOp req id) index is_leader])
      (set_rsm i (submitStart sid req id index is_leader (rsms s i)) (set_cluster (set_peer i rf (cluster s)) s)))
| sys_send i r : is_peer n i -> applySend (rsms s i) = Some r -> sys_step s (set_rsm i r s)
| sys_receive i sid r : is_peer n i -> submitReceive sid (rsms s i) = Some r -> sys_step s (set_rsm i r s)
| sys_return i sid r op err rep :
    is_peer n i -> submitFinish sid (rsms s i) = Some r \/ submitTimeout sid (rsms s i) = Some r ->
    returned r !! sid = Some (op, err, rep) ->
    sys_step s (record [Returned sid op err rep] (set_rsm i r s)).
#[local] Set Elimination Schemes.

(** The conditions of [rc_quiet]. *)
Definition sys_quiet s s' : Prop :=
  sys_step s s' /\ ~ starts_while_leader n (base (cluster s)) (base (cluster s')) /\ small n (cluster s).

(** ** The common log *)

(** [op] was delivered to some server as the [k]-th command, from 0. *)
Definition logged rc (k : nat) op : Prop :=
  exists i m, (i, m) ∈ RaftCluster.applied rc /\ CommandIndex m = Z.of_nat k + 1 /\ Command m = Some op.

Definition log_prefix rc (ops : list (Op Req)) : Prop := forall k op, ops !! k = Some op -> logged rc k op.

(** Executing operations one after the other. *)
Fixpoint run (s : State) (ops : list (Op Req)) : Res State :=
  match ops with
  | [] => Ok s
  | op :: ops => let* p := sm_DoOp (Rsm.Command_ op) s in run p.1 ops
  end.

(** What a history [h] over the log [ops] owes to its clients: every
    operation in the log was invoked, and is there once; a return is one
    of a call, with the operation it was invoked with, and an answer or
    the error [ErrWrongLeader]; a call that returned [OK] returns what its
    operation gives at its place in the log; and a call that returned before another was invoked comes first. *)
Record linearized (h : list CallEvent) (ops : list (Op Req)) : Prop := mkLinearized {
  lin_once : NoDup (Id_ <$> ops);
  lin_invoked : forall op, op ∈ ops -> exists sid index, Invoked sid op index true ∈ h;
  lin_call : forall sid op err rep, Returned sid op err rep ∈ h -> exists index l, Invoked sid op index l ∈ h;
  lin_errors : forall sid op err rep, Returned sid op err rep ∈ h -> err = OK /\ is_Some rep \/ err = ErrWrongLeader /\ rep = None;
  lin_result : forall sid op r, Returned sid op OK (Some r) ∈ h -> exists k st st',
    ops !! k = Some op /\ run init (take k ops) = Ok st /\ sm_DoOp (Rsm.Command_ op) st = Ok (st', r);
  lin_order : forall h1 h2 sidA A repA sidB B index is_leader,
    h = h2 ++ Invoked sidB B index is_leader :: h1 -> Returned sidA A OK repA ∈ h1 ->
    forall a b, ops !! a = Some A -> ops !! b = Some B -> (a < b)%nat;
}.

(** ** Lemmas on logs *)

Lemma in_order_prev (ds : list (nat * Msg)) i m : in_order ds -> (i, m) ∈ ds -> 1 < CommandIndex m ->
  exists m', (i, m') ∈ ds /\ CommandIndex m' = CommandIndex m - 1.
Proof.
  induction ds as [|[j m0] ds IH]; intros Ho Hin Hgt; [by apply elem_of_nil in Hin |].
  destruct Ho as [H1 H2]. apply elem_of_cons in Hin as [[= <- <-]|Hin].
  - destruct H1 as (m' & ? & ?); [lia |]. exists m'. split; [by apply list_elem_of_further | done].
  - destruct (IH H2 Hin Hgt) as (m' & ? & ?). exists m'. split; [by apply list_elem_of_further | done].
Qed.

(** The deliveries of a cluster make one log. *)
Record one_log rc : Prop := mkOneLog {
  ol_agree : agree (RaftCluster.applied rc);
  ol_order : in_order (RaftCluster.applied rc);
  ol_command : forall i m, (i, m) ∈ RaftCluster.applied rc -> 0 < CommandIndex m /\ is_Some (Command m);
}.

Lemma logged_det rc k op op' : one_log rc -> logged rc k op -> logged rc k op' -> op = op'.
Proof.
  intros O (i & m & Hin & Hk & Hm) (i' & m' & Hin' & Hk' & Hm').
  pose proof (ol_agree _ O i m i' m' Hin Hin' ltac:(congruence)). congruence.
Qed.

Lemma logged_below rc k op j : one_log rc -> logged rc k op -> (j <= k)%nat -> exists op', logged rc j op'.
Proof.
  intros O H Hj. remember (k - j)%nat as d eqn:Hd. revert j Hj Hd. induction d as [|d IH]; intros j Hj Hd.
  - replace j with k by lia. eauto.
  - destruct (IH (S j)) as (op1 & i & m & Hin & Hk & _); [lia.. |].
    destruct (in_order_prev _ i m (ol_order _ O) Hin) as (m' & Hin' & Hk'); [lia |].
    destruct (ol_command _ O i m' Hin') as [_ [op' Hop]]. exists op', i, m'. split_and!; [done | lia | done].
Qed.

Lemma common_log rc : one_log rc -> exists ops : list (Op Req), forall k op, ops !! k = Some op <-> logged rc k op.
Proof.
  intros O.
  assert (forall N, exists ops : list (Op Req), forall k op, ops !! k = Some op <-> ((k < N)%nat /\ logged rc k op)) as H.
  { induction N as [|N (ops & IH)].
    - exists []. intros k op. rewrite lookup_nil. split; [done | lia].
    - destruct (decide (Exists (fun d : nat * Msg => CommandIndex d.2 = Z.of_nat N + 1) (RaftCluster.applied rc))) as [HE|HE].
      + apply Exists_exists in HE as ([i m] & Hin%list_elem_of_In & Hk). simpl in Hk.
        destruct (ol_command _ O i m Hin) as [_ [op Hop]]. assert (logged rc N op) as HN by (by exists i, m).
        assert (length ops = N) as Hlen.
        { apply Nat.le_antisymm.
          - destruct (decide (length ops <= N)%nat) as [?|Hgt]; [done | exfalso].
            destruct (lookup_lt_is_Some_2 ops N) as [x Hx]; [lia |]. apply IH in Hx. lia.
          - destruct N as [|N']; [lia |]. destruct (logged_below rc (S N') op N' O HN) as [op' H']; [lia |].
            apply (lookup_lt_Some ops N' op'). apply IH. split; [lia | done]. }
        exists (ops ++ [op]). intros k op'. rewrite lookup_snoc_Some, Hlen. split.
        * intros [[Hlt Hx]|[-> <-]]; [apply IH in Hx; split; [lia | tauto] | split; [lia | done]].
        * intros [Hlt Hl]. destruct (decide (k = N)) as [->|Hne].
          -- right. split; [done | by eapply logged_det].
          -- left. split; [lia |]. apply IH. split; [lia | done].
      + exists ops. intros k op. rewrite IH. split; [intros [? ?]; split; [lia | done] |].
        intros [Hlt Hl]. split; [| done]. destruct (decide (k = N)) as [->|]; [exfalso | lia].
        apply HE, Exists_exists. destruct Hl as (i & m & ?%list_elem_of_In & ? & _). by exists (i, m). }
  assert (exists N, forall k op, logged rc k op -> (k < N)%nat) as [N HN].
  { assert (exists N, forall d, d ∈ RaftCluster.applied rc -> CommandIndex d.2 <= N) as [N HN].
    { induction (RaftCluster.applied rc) as [|d ds [N IH]]; [exists 0; by intros ? ?%elem_of_nil |].
      exists (Z.max N (CommandIndex d.2)). intros d' [->|Hd]%elem_of_cons; [lia |]. specialize (IH d' Hd). lia. }
    exists (Z.to_nat N). intros k op (i & m & Hin & Hk & _). specialize (HN _ Hin). simpl in HN. lia. }
  destruct (H N) as [ops Hops]. exists ops. intros k op. rewrite Hops. split; [tauto |]. intros Hl. split; [by eapply HN | done].
Qed.

Lemma log_prefix_take rc ops l : one_log rc -> (forall k op, ops !! k = Some op <-> logged rc k op) ->
  log_prefix rc l -> l = take (length l) ops.
Proof.
  intros O Hops Hl. apply list_eq. intros k. destruct (l !! k) as [op|] eqn:E.
  - pose proof (lookup_lt_Some _ _ _ E). rewrite lookup_take_lt by done. symmetry. apply Hops. by apply Hl.
  - apply lookup_ge_None in E. symmetry. apply lookup_ge_None. rewrite length_take. lia.
Qed.

(** ** The invariant *)

Definition started (h : list CallEvent) (j : nat) (e : LogEntry (Op Req)) : Prop :=
  exists sid op, Invoked sid op (Z.of_nat j) true ∈ h /\ RaftNode.Command_ e = Some op.

Record sys_inv s : Prop := mkSysInv {
  sv_cluster : reachable (rc_init n) (rc_quiet n) (cluster s);
  sv_origin : origin n (started (history s)) (cluster s);
  sv_genuine : forall sid op index l, Invoked sid op index l ∈ history s -> genuine cmd_of op;
  sv_unique : forall sid op index l sid' op' index' l', Invoked sid op index l ∈ history s ->
    Invoked sid' op' index' l' ∈ history s -> Id_ op = Id_ op' -> op = op' /\ index = index';
  sv_rsm : forall i, is_peer n i -> reachable (rsm_init init) (rsm_step cmd_of) (rsms s i);
  sv_waiting : forall i sid w, is_peer n i -> waiting (rsms s i) !! sid = Some w ->
    exists index l, Invoked sid (w_op w) index l ∈ history s;
  sv_returned : forall i sid x, is_peer n i -> returned (rsms s i) !! sid = Some x ->
    exists op index l, Invoked sid op index l ∈ history s;
  sv_applied : forall i k d, is_peer n i -> applied (rsms s i) !! k = Some d ->
    exists op r, d = Applied op r /\ logged (cluster s) k op;
  sv_inbox : forall i k m, is_peer n i -> inbox s i !! k = Some m ->
    (Z.to_nat i, m) ∈ RaftCluster.applied (cluster s) /\
    CommandIndex m = Z.of_nat (length (applied (rsms s i)) + k) + 1;
  sv_count : forall i, is_peer n i ->
    Z.of_nat (length (applied (rsms s i)) + length (inbox s i)) = last_applied_ (peer (cluster s) i);
  sv_result : forall sid op rep, Returned sid op OK rep ∈ history s -> exists r ops st st',
    rep = Some r /\ log_prefix (cluster s) ops /\ logged (cluster s) (length ops) op /\
    run init ops = Ok st /\ sm_DoOp (Rsm.Command_ op) st = Ok (st', r);
  sv_call : forall sid op err rep, Returned sid op err rep ∈ history s ->
    exists index l, Invoked sid op index l ∈ history s;
  sv_errors : forall sid op err rep, Returned sid op err rep ∈ history s -> err = OK /\ is_Some rep \/ err = ErrWrongLeader /\ rep = None;
  sv_order : forall h1 h2 sidA A repA sidB B index l,
    history s = h2 ++ Invoked sidB B index l :: h1 -> Returned sidA A OK repA ∈ h1 ->
    exists a, logged (cluster s) a A /\ forall k, (k <= a)%nat -> exists op, logged (cluster s) k op /\ op <> B;
}.

Lemma logged_mono rc rc' k op : RaftCluster.applied rc ⊆ RaftCluster.applied rc' -> logged rc k op -> logged rc' k op.
Proof. intros Hs (i & m & Hin & H). exists i, m. split; [by apply Hs | done]. Qed.

(** What the operations that [applyReader] executed come to. *)
Lemma replay_run (dids : list (Did Req Rep)) : forall (Q : nat -> Op Req -> Prop),
  (forall k d, dids !! k = Some d -> exists op r, d = Applied op r /\ Q k op) ->
  exists ops, length ops = length dids /\ (forall k op, ops !! k = Some op -> Q k op) /\
    forall st, replay st dids = run st ops.
Proof.
  induction dids as [|d dids IH]; intros Q H.
  - exists []. split_and!; [done | by intros k op; rewrite lookup_nil | done].
  - destruct (H 0%nat d eq_refl) as (op & r & -> & HQ).
    destruct (IH (fun k => Q (S k))) as (ops & Hlen & Hops & Hrun); [intros k; apply (H (S k)) |].
    exists (op :: ops). split_and!; [simpl; lia | by intros [|k] op' Hk; simplify_eq/=; auto |].
    intros st. simpl. destruct (sm_DoOp (Rsm.Command_ op) st) as [[st' r']|]; simpl; [apply Hrun | done].
Qed.

Section Inv.
Variable s : System.
Hypothesis I : sys_inv s.

Lemma inv_one_log : one_log (cluster s).
Proof.
  destruct (sim_reachable n Hn _ (sv_cluster _ I)) as (a & R & SM). split.
  - by apply (sim_agree n Hn (cluster s) a).
  - apply (sm_order _ _ _ SM).
  - intros i m Hin. destruct (sm_applied _ _ _ SM _ _ Hin) as (_ & _ & Hpos & _). split; [done |].
    destruct (or_applied _ _ _ (sv_origin _ I) _ _ Hin) as (e & (sid & op & _ & He) & ->). by exists op.
Qed.

(** What is in the log was invoked, for its place. *)
Lemma logged_invoked k op : logged (cluster s) k op ->
  exists sid, Invoked sid op (Z.of_nat k + 1) true ∈ history s.
Proof.
  intros (i & m & Hin & Hk & Hm).
  destruct (or_applied _ _ _ (sv_origin _ I) _ _ Hin) as (e & (sid & op' & Hinv & He) & Hc).
  destruct (ol_command _ inv_one_log _ _ Hin) as [Hpos _]. rewrite Z2Nat.id in Hinv by lia.
  exists sid. rewrite <- Hk. by replace op with op' by congruence.
Qed.

(** A change of the cluster that delivers nothing. *)
Lemma inv_set_cluster rc : reachable (rc_init n) (rc_quiet n) rc -> origin n (started (history s)) rc ->
  RaftCluster.applied rc = RaftCluster.applied (cluster s) ->
  (forall i, is_peer n i -> last_applied_ (peer rc i) = last_applied_ (peer (cluster s) i)) ->
  sys_inv (set_cluster rc s).
Proof.
  intros R O Ha Hl.
  assert (forall k op, logged rc k op <-> logged (cluster s) k op) as HL by (intros; unfold logged; by rewrite Ha).
  destruct I. split; simpl; try done.
  - intros i k d Hi Hk. destruct (sv_applied0 i k d Hi Hk) as (op & r & ? & ?). exists op, r. by rewrite HL.
  - intros i k m Hi Hk. rewrite Ha. by apply sv_inbox0.
  - intros i Hi. rewrite Hl by done. by apply sv_count0.
  - intros sid op rep Hr. destruct (sv_result0 sid op rep Hr) as (r & ops & st & st' & ? & Hp & Hlog & ?).
    exists r, ops, st, st'. split_and!; try done; [intros k op' Hk; apply HL; by apply Hp | by apply HL | tauto..].
  - intros h1 h2 sidA A repA sidB B index l Hh Hr.
    destruct (sv_order0 h1 h2 sidA A repA sidB B index l Hh Hr) as (a & H1 & H2). setoid_rewrite HL. by exists a.
Qed.

(** A step of one [RSM] that applies nothing. *)
Lemma inv_set_rsm i r : is_peer n i -> rsm_step cmd_of (rsms s i) r -> applied r = applied (rsms s i) ->
  (forall sid w, waiting r !! sid = Some w -> exists index l, Invoked sid (w_op w) index l ∈ history s) ->
  (forall sid x, returned r !! sid = Some x -> exists op index l, Invoked sid op index l ∈ history s) ->
  sys_inv (set_rsm i r s).
Proof.
  intros Hi Hstep Ha Hw Hr. destruct I.
  split; simpl; try done; intros j; intros; destruct (decide (i = j)) as [<-|Hne];
    rewrite ?fn_insert_eq, ?fn_insert_ne in * by done; eauto.
  - eapply reach_step; [by apply sv_rsm0 | done].
  - rewrite Ha in *. by apply sv_applied0 with i.
  - rewrite Ha. by apply sv_inbox0.
  - rewrite Ha. by apply sv_count0.
Qed.
End Inv.

Lemma started_mono h h' j e : h ⊆ h' -> started h j e -> started h' j e.
Proof. intros Hs (sid & op & Hin & He). exists sid, op. split; [by apply Hs | done]. Qed.

(** A return recorded. *)
Lemma inv_record_return s sid op err rep : sys_inv s ->
  (exists index l, Invoked sid op index l ∈ history s) -> (err = OK /\ is_Some rep \/ err = ErrWrongLeader /\ rep = None) ->
  (err = OK -> exists r ops st st', rep = Some r /\ log_prefix (cluster s) ops /\ logged (cluster s) (length ops) op /\
     run init ops = Ok st /\ sm_DoOp (Rsm.Command_ op) st = Ok (st', r)) ->
  sys_inv (record [Returned sid op err rep] s).
Proof.
  intros I (index0 & l0 & Hcall) HE HR. destruct I.
  assert (forall sid' op' index l, Invoked sid' op' index l ∈ Returned sid op err rep :: history s ->
    Invoked sid' op' index l ∈ history s) as Hold by (by intros ? ? ? ? [?|?]%elem_of_cons).
  split; simpl; try done; eauto.
  - eapply origin_mono; [| done]. intros j e. apply started_mono. set_solver.
  - intros i sid' w Hi Hw. destruct (sv_waiting0 i sid' w Hi Hw) as (index & l & ?). exists index, l. set_solver.
  - intros i sid' x Hi Hx. destruct (sv_returned0 i sid' x Hi Hx) as (op' & index & l & ?). exists op', index, l. set_solver.
  - intros sid' op' rep' [[= -> -> <- ->]|Hin]%elem_of_cons; [by apply HR | by eapply sv_result0].
  - intros sid' op' err' rep' [[= -> -> -> ->]|Hin]%elem_of_cons; [exists index0, l0; set_solver |].
    destruct (sv_call0 _ _ _ _ Hin) as (index & l & ?). exists index, l. set_solver.
  - intros sid' op' err' rep' [[= -> -> -> ->]|Hin]%elem_of_cons; [done | by eapply sv_errors0].
  - intros h1 [|x h2] sidA A repA sidB B index l Hh Hr; [done |]. injection Hh as _ Hh. by eapply sv_order0.
Qed.

Lemma return_facts sid (r r' : @RSM State Req Rep) : submitFinish sid r = Some r' \/ submitTimeout sid r = Some r' ->
  exists w err rep, waiting r !! sid = Some w /\ r' = submitReturn sid w err rep r.
Proof.
  unfold submitFinish, submitTimeout. destruct (waiting r !! sid) as [w|]; [| by intros [|]].
  destruct (w_got w) as [res|]; intros [H|H]; try done.
  - injection H as <-. case_decide; eauto.
  - injection H as <-. eauto.
Qed.

Lemma inv_return s i sid r op err rep : sys_inv s -> is_peer n i ->
  submitFinish sid (rsms s i) = Some r \/ submitTimeout sid (rsms s i) = Some r ->
  returned r !! sid = Some (op, err, rep) -> sys_inv (record [Returned sid op err rep] (set_rsm i r s)).
Proof.
  intros I Hi H Hret.
  assert (rsm_step cmd_of (rsms s i) r) as Hstep by (destruct H; [by eapply rsm_finish | by eapply rsm_timeout]).
  destruct (return_facts _ _ _ H) as (w & err' & rep' & Hw & ->).
  assert (sys_inv (set_rsm i (submitReturn sid w err' rep' (rsms s i)) s)) as I'.
  { apply inv_set_rsm; try done; simpl.
    - intros sid' w' [_ Hw']%lookup_delete_Some. by eapply (sv_waiting _ I).
    - intros sid' x [[<- _]|[_ Hx]]%lookup_insert_Some; [| by eapply (sv_returned _ I)].
      destruct (sv_waiting _ I i _ _ Hi Hw) as (index & l & ?). eauto. }
  simpl in Hret. rewrite lookup_insert_eq in Hret. injection Hret as <- <- <-.
  assert (returned (submitReturn sid w err' rep' (rsms s i)) !! sid = Some (w_op w, err', rep')) as Hret by apply lookup_insert_eq.
  pose proof (reachable_rsm_inv _ _ _ (sv_rsm _ I' i Hi)) as RI. simpl in RI. rewrite fn_insert_eq in RI.
  apply inv_record_return; [done | by eapply (sv_waiting _ I) | by eapply (ri_errors _ _ _ RI) |]. intros ->. simpl.
  destruct (ri_errors _ _ _ RI _ _ _ _ Hret) as [[_ [x ->]]|[? _]]; [| done].
  pose proof (ri_returned _ _ _ RI _ _ _ Hret) as Hin. apply list_elem_of_split in Hin as (before & after & Heq).
  destruct (ri_run _ _ _ RI) as [_ Hc]. destruct (Hc _ _ _ _ Heq) as (s0 & s1 & H1 & H2). simpl in Heq.
  destruct (replay_run before (logged (cluster s))) as (ops & Hlen & Hops & Hrun).
  { intros k d Hk. apply (sv_applied _ I i k d Hi). rewrite Heq. by apply lookup_app_l_Some. }
  destruct (sv_applied _ I i (length before) (Applied (w_op w) x) Hi) as (op' & r' & [= <- <-] & Hlog).
  { by rewrite Heq, lookup_app_r, Nat.sub_diag by lia. }
  exists x, ops, s0, s1. rewrite <- Hrun, Hlen. by split_and!.
Qed.

(** [applyReader] takes a message. *)
Lemma inv_read s i m rest op r pb : sys_inv s -> is_peer n i -> inbox s i = m :: rest -> sending (rsms s i) = None ->
  Command m = Some op -> applyCommand pb (CommandIndex m) op (rsms s i) = Ok r ->
  sys_inv (set_rsm i r (set_inbox i rest s)).
Proof.
  intros I Hi Hin Hs Hm H. pose proof I as I'. destruct I.
  destruct (sv_inbox0 i 0%nat m Hi) as [Hdel Hidx]; [by rewrite Hin |].
  assert (logged (cluster s) (length (applied (rsms s i))) op) as Hlog.
  { exists (Z.to_nat i), m. split_and!; [done | lia | done]. }
  assert (genuine cmd_of op) as Hg by (destruct (logged_invoked s I' _ _ Hlog) as [sid ?]; eauto).
  pose proof (rsm_apply cmd_of _ _ _ _ _ Hs Hg H) as Hstep. unfold applyCommand in H.
  destruct (sm_DoOp (Rsm.Command_ op) (sm_state (rsms s i))) as [[st rep]|] eqn:Ed; [| done].
  injection H as <-.
  split; simpl; try done; intros j; intros; destruct (decide (i = j)) as [<-|Hne];
    rewrite ?fn_insert_eq, ?fn_insert_ne in * by done; eauto.
  - eapply reach_step; [by apply sv_rsm0 | done].
  - simpl in *. apply lookup_snoc_Some in H0 as [[_ Hk]|[-> <-]]; [by apply sv_applied0 with i |]. eauto.
  - simpl. destruct (sv_inbox0 i (S k) m0 Hi) as [? Hc]; [by rewrite Hin |]. split; [done |].
    rewrite Hc, length_app. simpl. lia.
  - simpl. specialize (sv_count0 i Hi). rewrite Hin in sv_count0. rewrite length_app. simpl in *. lia.
Qed.

Lemma MakeRSM_empty r : MakeRSM (-1) [] init = Ok r -> r = mkRSM (-1) init ∅ [] None ∅ [] ∅ [].
Proof. unfold MakeRSM. case_decide as H; [unfold zlen in H; simpl in H; lia |]. simpl. by intros [= <-]. Qed.

(** A crash. *)
Lemma inv_crash s i r : sys_inv s -> is_peer n i ->
  reachable (rc_init n) (rc_quiet n) (set_base (restarted i (base (cluster s))) (cluster s)) ->
  MakeRSM (-1) (ReadSnapshot (persister (peer (cluster s) i))) init = Ok r ->
  sys_inv (set_rsm i r (set_inbox i [] (set_cluster (set_base (restarted i (base (cluster s))) (cluster s)) s))).
Proof.
  intros I Hi R H. destruct (sim_reachable n Hn _ (sv_cluster _ I)) as (a & Ra & SM).
  pose proof (quiet_inv n _ Hn (base_reachable n _ (sv_cluster _ I))) as BI.
  destruct (inv_nodes _ _ BI i Hi) as (_ & _ & _ & Hd).
  pose proof (ns_snap _ _ _ _ (sm_node _ _ _ SM i Hi)) as Hsn.
  assert (ReadSnapshot (persister (peer (cluster s) i)) = []) as Hps.
  { unfold ReadSnapshot. rewrite clone_id. unfold peer in *. destruct Hd as [(-> & _)|[_ ->]]; done. }
  rewrite Hps in H. apply MakeRSM_empty in H as ->.
  pose proof (origin_restart n _ _ i BI (sv_origin _ I) Hi) as O.
  destruct I. split; simpl; try done; intros j; intros; destruct (decide (i = j)) as [<-|Hne];
    rewrite ?fn_insert_eq, ?fn_insert_ne in * by done; eauto; simpl in *; try done.
  - apply reach_init. by eexists.
  - unfold peer. simpl. rewrite fn_insert_eq. unfold Make, readPersist. case_decide; [| destruct (decode _)]; done.
  - unfold peer. simpl. rewrite fn_insert_ne by done. by apply sv_count0.
Qed.

(** The applier sends a batch. *)
Lemma inv_apply s i rf msgs : sys_inv s -> is_peer n i -> inbox s i = [] ->
  applierCommands (peer (cluster s) i) = Ok (rf, msgs) ->
  let rc' := delivers i msgs (set_peer i rf (cluster s)) in
  reachable (rc_init n) (rc_quiet n) rc' -> sys_inv (set_inbox i msgs (set_cluster rc' s)).
Proof.
  intros I Hi Hin H rc' R. destruct (sim_reachable n Hn _ (sv_cluster _ I)) as (a & Ra & SM).
  destruct (sim_applierCommands n a i (peer (cluster s) i) rf msgs) as (_ & Hl & Hm); try done;
    [by apply SM | exact (sm_tlog _ _ _ SM) |].
  pose proof (origin_apply n _ _ a i rf msgs SM Ra (sv_origin _ I) Hi H) as O.
  assert (RaftCluster.applied (cluster s) ⊆ RaftCluster.applied rc') as Hsub by (simpl; set_solver).
  assert (forall k op, logged (cluster s) k op -> logged rc' k op) as HL by (intros; by eapply logged_mono).
  destruct I. split; simpl; try done.
  - intros j k d Hj Hk. destruct (sv_applied0 j k d Hj Hk) as (op & r & ? & ?). eauto.
  - intros j k m Hj. destruct (decide (i = j)) as [<-|Hne].
    + rewrite fn_insert_eq. intros Hk. destruct (Hm k m Hk) as [Hidx _]. split.
      * apply elem_of_app. left. apply list_elem_of_In. rewrite <- in_rev. apply list_elem_of_In, list_elem_of_fmap.
        exists m. split; [done | by eapply list_elem_of_lookup_2].
      * specialize (sv_count0 i Hi). rewrite Hin in sv_count0. simpl in sv_count0. lia.
    + rewrite fn_insert_ne by done. intros Hk. destruct (sv_inbox0 j k m Hj Hk) as [? ?]. split; [by apply Hsub | done].
  - intros j Hj. unfold peer. simpl. destruct (decide (i = j)) as [<-|Hne].
    + rewrite !fn_insert_eq, Hl. specialize (sv_count0 i Hi). rewrite Hin in sv_count0. simpl in *. unfold zlen. lia.
    + rewrite !fn_insert_ne by done. by apply sv_count0.
  - intros sid op rep Hr. destruct (sv_result0 sid op rep Hr) as (r & ops & st & st' & ? & Hp & Hlog & ? & ?).
    exists r, ops, st, st'. split_and!; try done; [intros k op' Hk; apply HL; by apply Hp | by apply HL].
  - intros h1 h2 sidA A repA sidB B index l Hh Hr.
    destruct (sv_order0 h1 h2 sidA A repA sidB B index l Hh Hr) as (k0 & H1 & H2).
    exists k0. split; [by apply HL |]. intros k Hk. destruct (H2 k Hk) as (op & ? & ?). eauto.
Qed.

(** A call recorded. *)
Lemma inv_record_invoked s sid op index l : sys_inv s -> new_call sid op s -> genuine cmd_of op ->
  sys_inv (record [Invoked sid op index l] s).
Proof.
  intros I Hnew Hg. pose proof I as I'. destruct I.
  assert (forall k op', logged (cluster s) k op' -> op' <> op) as Hne.
  { intros k op' Hlog ->. destruct (logged_invoked s I' _ _ Hlog) as [sid' Hinv]. by destruct (Hnew _ _ _ _ Hinv) as [_ ?]. }
  assert (history s ⊆ Invoked sid op index l :: history s) as Hsub by set_solver.
  split; simpl; try done.
  - eapply origin_mono; [| done]. intros j e. by apply started_mono.
  - intros sid' op' index' l' [[= -> -> -> ->]|Hin]%elem_of_cons; [done | by eapply sv_genuine0].
  - intros sid1 op1 index1 l1 sid2 op2 index2 l2 [[= -> -> -> ->]|H1]%elem_of_cons [[= -> -> -> ->]|H2]%elem_of_cons Hid.
    + done.
    + by destruct (Hnew _ _ _ _ H2) as [_ []].
    + by destruct (Hnew _ _ _ _ H1) as [_ []].
    + by eapply sv_unique0.
  - intros i sid' w Hi Hw. destruct (sv_waiting0 i sid' w Hi Hw) as (index' & l' & ?). exists index', l'. by apply Hsub.
  - intros i sid' x Hi Hx. destruct (sv_returned0 i sid' x Hi Hx) as (op' & index' & l' & ?). exists op', index', l'. by apply Hsub.
  - intros sid' op' rep' [?|Hin]%elem_of_cons; [done | by eapply sv_result0].
  - intros sid' op' err' rep' [?|Hin]%elem_of_cons; [done |].
    destruct (sv_call0 _ _ _ _ Hin) as (index' & l' & ?). exists index', l'. by apply Hsub.
  - intros sid' op' err' rep' [?|Hin]%elem_of_cons; [done | by eapply sv_errors0].
  - intros h1 [|x h2] sidA A repA sidB B index' l' Hh Hr.
    + injection Hh as <- <- <- <- <-. destruct (sv_result0 _ _ _ Hr) as (r & ops & st & st' & _ & Hp & Hlog & _).
      exists (length ops). split; [done |]. intros k Hk. destruct (logged_below _ _ _ k (inv_one_log s I') Hlog Hk) as [op' ?].
      exists op'. split; [done | by eapply Hne].
    + injection Hh as _ Hh. by eapply sv_order0.
Qed.

Lemma Start_index rf op rf' index term is_leader effs : wf_log rf -> last_included_index_ rf = 0 -> zlen (logs_ rf) < 2 ^ 63 - 1 ->
  Start op rf = (rf', (index, term, is_leader), effs) ->
  (role_ rf = Leader -> is_leader = true /\ index = zlen (logs_ rf)) /\ (role_ rf <> Leader -> is_leader = false).
Proof.
  intros W Hl Hs H. pose proof (zlen_nonneg (logs_ rf)). unfold Start in H. case_decide as Hr; injection H as <- <- _ <- _; split; try done.
  intros _. split; [done |]. rewrite getLogLength_wf; simpl.
  - rewrite zlen_app, Hl. change (zlen [_]) with 1. rewrite !i64_small; [lia | lia |].
    rewrite i64_small; lia.
  - destruct W as [W1 W2 W3]. split; simpl; rewrite ?zlen_app; change (zlen [_]) with 1; lia.
Qed.

(** [Submit] up to the wait. *)
Lemma inv_submit s i sid req id rf index term is_leader effs : sys_inv s -> is_peer n i ->
  small n (cluster s) -> new_call sid (mkOp req id) s -> genuine cmd_of (mkOp req id) ->
  Start (mkOp req id) (peer (cluster s) i) = (rf, (index, term, is_leader), effs) ->
  reachable (rc_init n) (rc_quiet n) (set_peer i rf (cluster s)) ->
  sys_inv (record ((if is_leader then [] else [Returned sid (mkOp req id) ErrWrongLeader None])
                          ++ [Invoked sid (mkOp req id) index is_leader])
      (set_rsm i (submitStart sid req id index is_leader (rsms s i)) (set_cluster (set_peer i rf (cluster s)) s))).
Proof.
  intros I Hi Hsm Hnew Hg H R. destruct (sim_reachable n Hn _ (sv_cluster _ I)) as (a & Ra & SM).
  pose proof (sm_node _ _ _ SM i Hi) as NS. pose proof (sim_wf n a i _ Ra Hi NS) as W.
  destruct (Start_index _ _ _ _ _ _ _ W (ns_lii _ _ _ _ NS) ltac:(by apply Hsm) H) as [Hlead Hnot].
  assert (waiting (rsms s i) !! sid = None) as Hw.
  { destruct (waiting (rsms s i) !! sid) as [w|] eqn:E; [| done].
    destruct (sv_waiting _ I i sid w Hi E) as (? & ? & Hinv). by destruct (Hnew _ _ _ _ Hinv). }
  assert (returned (rsms s i) !! sid = None) as Hr.
  { destruct (returned (rsms s i) !! sid) as [x|] eqn:E; [| done].
    destruct (sv_returned _ I i sid x Hi E) as (? & ? & ? & Hinv). by destruct (Hnew _ _ _ _ Hinv). }
  pose proof (inv_record_invoked s sid _ index is_leader I Hnew Hg) as I1.
  set (s1 := record [Invoked sid (mkOp req id) index is_leader] s) in *.
  assert (sys_inv (set_cluster (set_peer i rf (cluster s)) s1)) as I2.
  { apply inv_set_cluster; try done.
    - eapply origin_start; [apply (sv_origin _ I1) | done | done |]. intros Hlr.
      destruct (Hlead Hlr) as [-> ->]. exists sid, (mkOp req id). split; [apply list_elem_of_here | done].
    - intros j Hj. unfold peer. simpl. destruct (decide (i = j)) as [<-|Hne].
      + rewrite fn_insert_eq. by eapply applied_Start.
      + by rewrite fn_insert_ne. }
  set (s2 := set_cluster (set_peer i rf (cluster s)) s1) in *.
  assert (sys_inv (set_rsm i (submitStart sid req id index is_leader (rsms s i)) s2)) as I3.
  { apply inv_set_rsm; try done.
    - by apply rsm_submit.
    - by destruct is_leader.
    - intros sid' w. unfold submitStart. destruct is_leader; simpl.
      + intros [[<- <-]|[_ Hw']]%lookup_insert_Some; [| by eapply (sv_waiting _ I1)].
        exists index, true. apply list_elem_of_here.
      + by apply (sv_waiting _ I1).
    - intros sid' x. unfold submitStart. destruct is_leader; simpl; [by apply (sv_returned _ I1) |].
      intros [[<- <-]|[_ Hr']]%lookup_insert_Some; [| by eapply (sv_returned _ I1)].
      exists (mkOp req id), index, false. apply list_elem_of_here. }
  destruct is_leader; [exact I3 |]. apply (inv_record_return _ sid (mkOp req id) ErrWrongLeader None) in I3; [done | | by right | done].
  exists index, false. apply list_elem_of_here.
Qed.

(** What the peers do among themselves delivers nothing. *)
Lemma internal_applied rc rc' : rc_internal n rc rc' -> RaftCluster.applied rc' = RaftCluster.applied rc /\
  forall j, last_applied_ (peer rc' j) = last_applied_ (peer rc j).
Proof.
  assert (forall (cl : Cluster (Cmd := Op Req)) i rf j, last_applied_ rf = last_applied_ (node cl i) ->
    last_applied_ (<[i := rf]> (node cl) j) = last_applied_ (node cl j)) as Hset.
  { intros cl i rf j H. destruct (decide (i = j)) as [<-|?]; [by rewrite fn_insert_eq | by rewrite fn_insert_ne]. }
  intros [cl H | i now Hi | i now args rf reply effs Hi Hin H | i server args reply rf effs Hi Hin Hl H
    | i effs Hi H | i rf effs Hi H]; split; try done; intros j; unfold peer in *; simpl.
  - destruct H as [i now args rf reply Hi Hin Hv | i e before after server reply rf count fin effs Hi He Hs Hr Hv
      | i e before after server Hi He Hs | i Hi Ht | i now rf args Hi Hst Hv]; try done; simpl; apply Hset.
    + by eapply applied_RequestVote.
    + by eapply applied_voteReply.
    + by eapply applied_startElection.
  - apply Hset. unfold tickerFollower. by case_decide.
  - apply Hset. by eapply applied_AppendEntries.
  - apply Hset. by eapply applied_appendEntriesReply.
  - apply Hset. unfold commit in H. by repeat (case_decide; res_inv).
Qed.

Lemma inv_peers s rc : sys_inv s -> rc_internal n (cluster s) rc -> reachable (rc_init n) (rc_quiet n) rc ->
  sys_inv (set_cluster rc s).
Proof.
  intros I H R. destruct (sim_reachable n Hn _ (sv_cluster _ I)) as (a & Ra & SM).
  destruct (internal_applied _ _ H) as [Ha Hl]. apply inv_set_cluster; [done | done | | exact Ha | by intros].
  apply (origin_internal n _ _ a _ SM Ra); [| apply I | done].
  apply (quiet_inv n _ Hn (base_reachable n _ (sv_cluster _ I))).
Qed.

(** The cluster below does steps of [RaftCluster]. *)
Lemma sys_step_cluster s s' : sys_step s s' -> cluster s' = cluster s \/ rc_step n (cluster s) (cluster s').
Proof.
  intros H. destruct H; simpl; auto; right.
  - by apply rc_inner.
  - by apply rc_restart.
  - by apply rc_apply.
  - by eapply rc_start.
Qed.

Lemma sys_quiet_cluster s s' : reachable (rc_init n) (rc_quiet n) (cluster s) -> sys_quiet s s' ->
  reachable (rc_init n) (rc_quiet n) (cluster s').
Proof.
  intros R (H & Hq & Hs). destruct (sys_step_cluster _ _ H) as [->|Hc]; [done |].
  eapply reach_step; [done |]. by split_and!.
Qed.

Lemma sys_inv_init s : system_init s -> sys_inv s.
Proof.
  intros (Hc & Hb & Hr & Hh).
  assert (forall i, rsms s i = mkRSM (-1) init ∅ [] None ∅ [] ∅ []) as Hr' by (intros; by apply MakeRSM_empty).
  split; rewrite ?Hh; try setoid_rewrite Hr'; try setoid_rewrite Hb; simpl; try done; try set_solver.
  - by apply reach_init.
  - by apply origin_init.
  - intros i _. apply reach_init. by eexists.
  - intros i Hi. destruct Hc as ((Hnode & _) & _). unfold peer. by rewrite Hnode.
  - by intros h1 [|??] * ??.
Qed.

Lemma sys_inv_step s s' : sys_inv s -> sys_quiet s s' -> sys_inv s'.
Proof.
  intros I Hq. pose proof (sys_quiet_cluster _ _ (sv_cluster _ I) Hq) as R. destruct Hq as (H & _ & Hs).
  destruct H.
  - by apply inv_peers.
  - by apply inv_crash.
  - by apply inv_apply.
  - by eapply inv_read.
  - by eapply inv_submit.
  - assert (rsm_step cmd_of (rsms s i) r) as Hstep by by constructor.
    unfold applySend in *. go_cases_in H0. injection H0 as <-.
    apply inv_set_rsm; try done; [intros; by apply (sv_waiting _ I i) | intros; by eapply (sv_returned _ I i)].
  - assert (rsm_step cmd_of (rsms s i) r) as Hstep by by econstructor.
    unfold submitReceive in *. destruct (waiting (rsms s i) !! sid) as [w|] eqn:Ew; [| done].
    go_cases_in H0. injection H0 as <-. apply inv_set_rsm; try done; simpl.
    + intros sid' w' [[<- <-]|[_ Hw]]%lookup_insert_Some; [exact (sv_waiting _ I i _ _ H Ew) | by apply (sv_waiting _ I i)].
    + intros sid' x. by apply (sv_returned _ I i).
  - by eapply inv_return.
Qed.

Lemma sys_inv_reachable s : reachable system_init sys_quiet s -> sys_inv s.
Proof. apply invariant_reachable; [apply sys_inv_init | apply sys_inv_step]. Qed.

(** The log of a state with the invariant. *)
Lemma sys_common_log s : sys_inv s -> exists ops : list (Op Req), forall k op, ops !! k = Some op <-> logged (cluster s) k op.
Proof. intros I. apply common_log. by apply inv_one_log. Qed.

(** A history with the invariant, linearized by any list that is the log. *)
Lemma sys_linearized s ops : sys_inv s -> (forall k op, ops !! k = Some op <-> logged (cluster s) k op) ->
  linearized (history s) ops.
Proof.
  intros I Hops. pose proof (inv_one_log s I) as O. split.
  - apply NoDup_alt. intros a b x Ha Hb.
    rewrite list_lookup_fmap in Ha, Hb. apply fmap_Some in Ha as (A & Ha & ->). apply fmap_Some in Hb as (B & Hb & Hid).
    apply Hops, (logged_invoked s I) in Ha as [sidA Ha]. apply Hops, (logged_invoked s I) in Hb as [sidB Hb].
    destruct (sv_unique _ I _ _ _ _ _ _ _ _ Ha Hb Hid) as [_ ?]. lia.
  - intros op [k Hk]%list_elem_of_lookup. apply Hops, (logged_invoked s I) in Hk as [sid Hk]. eauto.
  - apply (sv_call _ I).
  - apply (sv_errors _ I).
  - intros sid op r Hr. destruct (sv_result _ I _ _ _ Hr) as (r' & l & st & st' & [= <-] & Hp & Hlog & Hrun & Hdo).
    exists (length l), st, st'. rewrite <- (log_prefix_take _ _ _ O Hops Hp). split_and!; [by apply Hops | done..].
  - intros h1 h2 sidA A repA sidB B index l Hh Hr a b Ha Hb.
    destruct (sv_order _ I _ _ _ _ _ _ _ _ _ Hh Hr) as (k & Hk & Hlt).
    assert (a = k) as ->.
    { apply Hops, (logged_invoked s I) in Ha as [sid1 Ha]. apply (logged_invoked s I) in Hk as [sid2 Hk].
      destruct (sv_unique _ I _ _ _ _ _ _ _ _ Ha Hk eq_refl) as [_ ?]. lia. }
    destruct (decide (k < b)%nat) as [?|Hge]; [done |]. destruct (Hlt b) as (op & Hop & Hne); [lia |].
    apply Hops in Hop. congruence.
Qed.

(** The replicas execute the log. *)
Lemma sys_replica s ops i : sys_inv s -> (forall k op, ops !! k = Some op <-> logged (cluster s) k op) -> is_peer n i ->
  run init (take (length (applied (rsms s i))) ops) = Ok (sm_state (rsms s i)).
Proof.
  intros I Hops Hi. pose proof (reachable_rsm_inv _ _ _ (sv_rsm _ I i Hi)) as RI.
  destruct (ri_run _ _ _ RI) as [Hrun _].
  destruct (replay_run (applied (rsms s i)) (logged (cluster s))) as (l & Hlen & Hl & Hr).
  { intros k d Hk. by apply (sv_applied _ I i k d Hi). }
  rewrite <- Hlen, <- (log_prefix_take _ _ _ (inv_one_log s I) Hops Hl), <- Hr. done.
Qed.
End System.
