(* ===== verification/RsmRun.v ===== *)
(** * Running the whole service

    The steps of [RsmCluster] as a function of labels, so that executions
    can be computed; an encoding of commands for that; and one execution
    of the replicated key/value service. *)
From stdpp Require Import functions.
From S2P Require Import Prelude Persister RaftNode RaftStep RaftElection RaftElectionRun RaftCluster.
From S2P Require Import Kv Rsm RsmCluster.
Import Rpc.
#[local] Open Scope Z_scope.

(** ** An encoding for commands of a countable type *)
Section Codec.
Context {C : Type} `{Countable C}.

Definition entry_to (e : LogEntry C) : LogEntry Z :=
  mkEntry ((fun c => Z.pos (countable.encode c)) <$> RaftNode.Command_ e) (Term_ e).

Definition entry_of (e : LogEntry Z) : LogEntry C :=
  mkEntry (RaftNode.Command_ e ≫= fun z => match z with Z.pos p => countable.decode p | _ => None end) (Term_ e).

Definition state_map {A B} (f : LogEntry A -> LogEntry B) (st : RaftState A) : RaftState B :=
  mkRaftState (ps_current_term st) (ps_voted_for st) (f <$> ps_logs st)
    (ps_last_included_index st) (ps_last_included_term st).

Lemma entry_of_to e : entry_of (entry_to e) = e.
Proof. destruct e as [[c|] t]; [| done]. unfold entry_of. simpl. by rewrite countable.decode_encode. Qed.

Lemma state_map_of_to st : state_map entry_of (state_map entry_to st) = st.
Proof.
  destruct st as [t v l i it]. unfold state_map. simpl. f_equal.
  rewrite <- list_fmap_compose. rewrite <- (list_fmap_id l) at 2. apply list_fmap_ext. intros. apply entry_of_to.
Qed.

#[export] Program Instance countable_state_codec : Codec (RaftState C) := {
  encode st := encode (state_map entry_to st);
  decode l := state_map entry_of <$> decode l;
}.
Next Obligation. intros st. cbn beta. rewrite decode_encode. simpl. by rewrite state_map_of_to. Qed.
Next Obligation. intros st. apply encode_nonempty. Qed.
End Codec.

(** ** Labels *)
Section Run.
Context {State Req Rep : Type} `{sm : !StateMachine State Req Rep} `{!Codec (RaftState (Op Req))}.
Context `{!EqDecision Req}.
Variables (n : Z) (init : State) (cmd_of : Z -> Req).
Notation System := (@System State Req Rep).
Implicit Types (s : System).

Inductive SLabel :=
| SPeers (l : RLabel (Cmd := Op Req))
| SCrash (i : Z)
| SApply (i : Z)
| SRead (i : Z)
| SSubmit (i : Z) (sid : nat) (req : Req) (id : Z)
| SSend (i : Z)
| SReceive (i : Z) (sid : nat)
| SReturn (i : Z) (sid : nat).

Definition unused (sid : nat) (id : Z) s : bool :=
  forallb (fun e => match e with Invoked sid' op _ _ => bool_decide (sid' <> sid /\ Id_ op <> id) | _ => true end)
    (history s).

Definition ok {A} (r : Res A) : option A := match r with Ok a => Some a | Panic => None end.

Definition sys_label (l : SLabel) s : option System :=
  match l with
  | SPeers l => if is_internal l then (fun rc => set_cluster rc s) <$> rc_label n l (cluster s) else None
  | SCrash i =>
      guard (is_peer n i);;
      r ← ok (MakeRSM (-1) (ReadSnapshot (persister (peer (cluster s) i))) init);
      Some (set_rsm i r (set_inbox i [] (set_cluster (set_base (restarted i (base (cluster s))) (cluster s)) s)))
  | SApply i =>
      guard (is_peer n i);;
      match inbox s i with
      | [] =>
          '(rf, msgs) ← ok (applierCommands (peer (cluster s) i));
          Some (set_inbox i msgs (set_cluster (delivers i msgs (set_peer i rf (cluster s))) s))
      | _ :: _ => None
      end
  | SRead i =>
      guard (is_peer n i);;
      match inbox s i, sending (rsms s i) with
      | m :: rest, None =>
          if CommandValid m then
            op ← Command m;
            r ← ok (applyCommand (PersistBytes (peer (cluster s) i)) (CommandIndex m) op (rsms s i));
            Some (set_rsm i r (set_inbox i rest s))
          else None
      | _, _ => None
      end
  | SSubmit i sid req id =>
      guard (is_peer n i);;
      guard (unused sid id s = true);;
      guard (req = cmd_of id);;
      let '(rf, (index, _, is_leader), _) := Start (mkOp req id) (peer (cluster s) i) in
      Some (record ((if is_leader then [] else [Returned sid (mkOp req id) ErrWrongLeader None])
                          ++ [Invoked sid (mkOp req id) index is_leader])
        (set_rsm i (submitStart sid req id index is_leader (rsms s i)) (set_cluster (set_peer i rf (cluster s)) s)))
  | SSend i =>
      guard (is_peer n i);;
      r ← applySend (rsms s i); Some (set_rsm i r s)
  | SReceive i sid =>
      guard (is_peer n i);;
      r ← submitReceive sid (rsms s i); Some (set_rsm i r s)
  | SReturn i sid =>
      guard (is_peer n i);;
      r ← match submitFinish sid (rsms s i) with Some r => Some r | None => submitTimeout sid (rsms s i) end;
      '(op, err, rep) ← returned r !! sid;
      Some (record [Returned sid op err rep] (set_rsm i r s))
  end.

Lemma unused_sound sid op s : unused sid (Id_ op) s = true -> new_call sid op s.
Proof.
  unfold unused. rewrite forallb_forall. intros H sid' op' index l Hin.
  apply list_elem_of_In, H in Hin. by apply bool_decide_eq_true in Hin.
Qed.

Lemma ok_Some {A} (r : Res A) a : ok r = Some a -> r = Ok a.
Proof. destruct r; by intros [= ->]. Qed.

Lemma sys_label_sound l s s' : sys_label l s = Some s' -> sys_step n init cmd_of s s'.
Proof.
  intros H. destruct l; unfold sys_label in H.
  - destruct (is_internal l) eqn:El; [| done]. apply fmap_Some in H as (rc & H & ->).
    apply sys_peers. by eapply (rc_label_internal n).
  - apply bind_Some in H as (Hi & _ & H). apply bind_Some in H as (r & Hr%ok_Some & [= <-]). by apply sys_crash.
  - apply bind_Some in H as (Hi & _ & H). destruct (inbox s i) eqn:E; [| done].
    apply bind_Some in H as ([rf msgs] & Hr%ok_Some & [= <-]). by apply sys_apply.
  - apply bind_Some in H as (Hi & _ & H). destruct (inbox s i) as [|m rest] eqn:E; [done |].
    destruct (sending (rsms s i)) eqn:Es; [done |]. destruct (CommandValid m) eqn:Ev; [| done].
    apply bind_Some in H as (op & Hop & H). apply bind_Some in H as (r & Hr%ok_Some & [= <-]). by eapply sys_read.
  - apply bind_Some in H as (Hi & _ & H). apply bind_Some in H as (Hu & _ & H). apply bind_Some in H as (Hg & _ & H).
    destruct (Start _ _) as [[rf [[index term] is_leader]] effs] eqn:E. injection H as <-.
    eapply sys_submit; [done | by apply unused_sound | done | done].
  - apply bind_Some in H as (Hi & _ & H). apply bind_Some in H as (r & Hr & [= <-]). by apply sys_send.
  - apply bind_Some in H as (Hi & _ & H). apply bind_Some in H as (r & Hr & [= <-]). by eapply sys_receive.
  - apply bind_Some in H as (Hi & _ & H). apply bind_Some in H as (r & Hr & H).
    apply bind_Some in H as ([[op err] rep] & Hret & [= <-]). eapply sys_return; [done | | done].
    destruct (submitFinish sid (rsms s i)) eqn:E; [left; congruence | by right].
Qed.

Fixpoint sys_run (ls : list SLabel) s : option System :=
  match ls with
  | [] => Some s
  | l :: ls =>
      match sys_label l s with
      | Some s' => if rc_check n (cluster s) (cluster s') then sys_run ls s' else None
      | None => None
      end
  end.

Definition sys_initial : System :=
  mkSystem (rc_initial n) (fun _ => []) (fun _ => mkRSM (-1) init ∅ [] None ∅ [] ∅ []) [].

Lemma sys_initial_init : system_init n init sys_initial.
Proof. split_and!; try done; apply initial_init. Qed.

Lemma sys_run_reachable ls s s' : reachable (system_init n init) (sys_quiet n init cmd_of) s ->
  sys_run ls s = Some s' -> reachable (system_init n init) (sys_quiet n init cmd_of) s'.
Proof.
  revert s. induction ls as [|l ls IH]; intros s R H; simpl in H; [by injection H as <- |].
  destruct (sys_label l s) as [s1|] eqn:E; [| done]. destruct (rc_check n _ _) eqn:Eq; [| done].
  eapply IH; [| done]. eapply reach_step; [done |]. destruct (rc_check_conditions _ _ _ Eq).
  split_and!; [by eapply sys_label_sound | done..].
Qed.

(** A computed execution, with a test of its last state. *)
Lemma sys_run_witness ls (P : System -> bool) :
  match sys_run ls sys_initial with Some s => P s | None => false end = true ->
  exists s, reachable (system_init n init) (sys_quiet n init cmd_of) s /\ P s = true.
Proof.
  destruct (sys_run ls sys_initial) as [s|] eqn:E; [| done]. intros H. exists s. split; [| done].
  eapply sys_run_reachable; [| done]. apply reach_init, sys_initial_init.
Qed.
End Run.
