(* ===== verification/RsmSafety.v ===== *)
(** * What clients of the replicated service see

    The theorems of [RsmCluster]'s invariant, for any state machine and
    for the key/value server of [kvraft1], and an execution of that
    server on which they are applied. *)
From stdpp Require Import functions.
From S2P Require Import Prelude Persister RaftNode RaftStep RaftElection RaftElectionRun RaftCluster RaftRefine RaftSafety.
From S2P Require Import Kv Rsm RsmCluster RsmRun.
Import Rpc.
#[local] Open Scope Z_scope.

(** ** The key/value service, running *)

#[export] Instance PutArgs_eq_dec : EqDecision PutArgs.
Proof. solve_decision. Defined.
#[export] Instance GetArgs_eq_dec : EqDecision GetArgs.
Proof. solve_decision. Defined.
#[export] Instance PutReply_eq_dec : EqDecision PutReply.
Proof. solve_decision. Defined.
#[export] Instance GetReply_eq_dec : EqDecision GetReply.
Proof. solve_decision. Defined.
#[export] Instance Req_eq_dec : EqDecision Kvraft.Req.
Proof. solve_decision. Defined.
#[export] Instance Rep_eq_dec : EqDecision Kvraft.Rep.
Proof. solve_decision. Defined.

#[export] Instance Req_countable : Countable Kvraft.Req.
Proof.
  apply (inj_countable'
    (fun r => match r with
      | Kvraft.ReqGet a => inl (inl (ga_Key a))
      | Kvraft.ReqPut a => inl (inr (pa_Key a, pa_Value a, pa_Version a))
      | Kvraft.ReqOther => inr ()
      end)
    (fun x => match x with
      | inl (inl k) => Kvraft.ReqGet (mkGetArgs k)
      | inl (inr (k, v, ver)) => Kvraft.ReqPut (mkPutArgs k v ver)
      | inr _ => Kvraft.ReqOther
      end)).
  by intros [[]|[]|].
Defined.

#[export] Instance Op_eq_dec : EqDecision (Op Kvraft.Req).
Proof. solve_decision. Defined.

#[export] Instance Op_countable : Countable (Op Kvraft.Req).
Proof. apply (inj_countable' (fun o => (Rsm.Command_ o, Id_ o)) (fun p => mkOp p.1 p.2)). by intros []. Defined.

Definition kv_codec : Codec kv_map := countable_codec kv_map.

Abbreviation KvSystem := (@System kv_map Kvraft.Req Kvraft.Rep).

Definition ex_put : Kvraft.Req := Kvraft.ReqPut (mkPutArgs "k" "a" 0).
Definition ex_get : Kvraft.Req := Kvraft.ReqGet (mkGetArgs "k").
Definition ex_cmds (id : Z) : Kvraft.Req := if decide (id = 7) then ex_put else ex_get.

(** Server 0 is elected with the vote of peer 1.  Call 0 puts; call 1 at
    server 1 finds that it does not lead; the entry travels to peer 1,
    peer 0 commits it, applies it, and call 0 returns.  Then call 2 gets
    at server 0.  Server 1 learns of the commits, applies the put, crashes,
    and applies both operations again. *)
Definition serve_run : list (SLabel (Req := Kvraft.Req)) :=
  let peers := SPeers in
  [peers (RTicker 0 1000000000); peers (RElection (LTest 0)); peers (RElection (LStart 0 1100000000));
   peers (RElection (LVote 1 0 1200000000)); peers (RElection (LReply 0 0 0 1));
   SSubmit 0 0 ex_put 7; SSubmit 1 1 ex_get 8;
   peers (RSend 0); peers (RAppend 0 1300000000); peers (RAnswer 0); peers (RCommit 0);
   SApply 0; SRead 0; SSend 0; SReceive 0 0; SReturn 0 0;
   SSubmit 0 2 ex_get 9;
   peers (RSend 0); peers (RAppend 0 1400000000); peers (RAnswer 0); peers (RCommit 0);
   SApply 0; SRead 0; SSend 0; SReceive 0 2; SReturn 0 2;
   SApply 1; SRead 1; SCrash 1;
   peers (RSend 0); peers (RAppend 0 1500000000); SApply 1; SRead 1; SRead 1].

Definition ex_history : list CallEvent :=
  [Returned 2 (mkOp ex_get 9) OK (Some (Kvraft.RepGet (mkGetReply "a" 1 OK)));
   Invoked 2 (mkOp ex_get 9) 2 true;
   Returned 0 (mkOp ex_put 7) OK (Some (Kvraft.RepPut (mkPutReply OK)));
   Returned 1 (mkOp ex_get 8) ErrWrongLeader None;
   Invoked 1 (mkOp ex_get 8) 0 false;
   Invoked 0 (mkOp ex_put 7) 1 true].

#[export] Instance CallEvent_eq_dec : EqDecision (CallEvent (Req := Kvraft.Req) (Rep := Kvraft.Rep)).
Proof. solve_decision. Defined.

Definition served (s : KvSystem) : bool :=
  bool_decide (history s = ex_history) &&
  bool_decide (map_to_list (sm_state (rsms s 1)) = [("k", mkValue "a" 1)]) &&
  bool_decide (length (Rsm.applied (rsms s 1)) = 2%nat) && bool_decide (inbox s 1 = []).

Abbreviation ex_reachable := (reachable (system_init (sm := @kv_machine kv_codec) 3 (∅ : kv_map))
  (sys_quiet (sm := @kv_machine kv_codec) 3 (∅ : kv_map) ex_cmds)).

Lemma served_reachable : exists s : KvSystem, ex_reachable s /\ served s = true.
Proof. apply (sys_run_witness (sm := @kv_machine kv_codec) 3 ∅ ex_cmds serve_run served). vm_compute. reflexivity. Qed.

Lemma served_history s : served s = true -> history s = ex_history.
Proof. unfold served. rewrite !andb_true_iff, !bool_decide_eq_true. tauto. Qed.

(** ** Properties *)

(** C3: The service is linearizable. In every execution of the servers in
    which no peer becomes leader between the role test of its [ticker] and
    the [startElection] that follows, no server takes snapshots
    ([maxraftstate] is -1), the random identities that [Submit] draws are
    distinct, terms stay below 2^64 - 1 and logs below 2^63 - 1 entries,
    with lost, delayed and reordered messages, crashes, elections and
    time-outs, one sequence of the invoked operations explains every return
    of [Submit]: each operation occurs once, a call that returned [OK]
    returns what the state machine gives at the operation's place, the order
    respects real time, and the state of every replica is the one after some
    prefix of the sequence. *)
Theorem rsm_linearizable {State Req Rep} (sm : StateMachine State Req Rep) `{!Codec (RaftState (Op Req))}
    n init cmd_of (s : System (State := State) (Req := Req) (Rep := Rep)) :
  0 <= n -> reachable (system_init n init) (sys_quiet n init cmd_of) s ->
  exists ops, linearized init (history s) ops /\
    forall i, is_peer n i -> exists k, run init (take k ops) = Ok (sm_state (rsms s i)).
Proof.
  intros Hn R. pose proof (sys_inv_reachable n init cmd_of Hn s R) as I.
  destruct (sys_common_log n _ _ Hn s I) as [ops Hops]. exists ops. split.
  - by eapply sys_linearized.
  - intros i Hi. eexists. by eapply sys_replica.
Qed.

(** C31: What [applyReader] receives is what [Submit] sent. In every
    execution in which no peer becomes leader between the role test of its
    [ticker] and the [startElection] that follows, no server takes snapshots
    ([maxraftstate] is -1), the random identities that [Submit] draws are
    distinct, terms stay below 2^64 - 1 and logs below 2^63 - 1 entries, a
    message on an apply channel is a command, its dynamic type is [Op] - so
    that the assertion [Command.(Op)] succeeds - and some call of [Submit]
    was told the message's index for that very operation. (With a
    [maxraftstate] the reader also receives snapshots, which carry no
    command.) *)
Theorem apply_messages_typed {State Req Rep} (sm : StateMachine State Req Rep) `{!Codec (RaftState (Op Req))}
    n init cmd_of (s : System (State := State) (Req := Req) (Rep := Rep)) i m :
  0 <= n -> reachable (system_init n init) (sys_quiet n init cmd_of) s -> is_peer n i -> m ∈ inbox s i ->
  CommandValid m = true /\ exists sid op,
    Command m = Some op /\ Invoked sid op (CommandIndex m) true ∈ history s.
Proof.
  intros Hn R Hi [k Hk]%list_elem_of_lookup. pose proof (sys_inv_reachable n init cmd_of Hn s R) as I.
  destruct (sv_inbox _ _ _ _ I i k m Hi Hk) as [Hin Hidx].
  destruct (sim_reachable n Hn _ (sv_cluster _ _ _ _ I)) as (a & _ & SM).
  destruct (sm_applied _ _ _ SM _ _ Hin) as (_ & Hv & _). split; [done |].
  pose proof (ol_command _ (inv_one_log n _ _ Hn s I)) as Hc. destruct (Hc _ _ Hin) as [_ [op Hop]].
  destruct (logged_invoked n _ _ Hn s I (length (Rsm.applied (rsms s i)) + k) op) as [sid Hinv].
  { by exists (Z.to_nat i), m. }
  exists sid, op. split; [done |]. by rewrite Hidx.
Qed.

(** The replicated key/value service.  A handler never fails on what
    [Submit] returns, and one sequence of the operations explains all its
    answers: one that is not [ErrWrongLeader] is the answer that the
    versioned register of the key gives to the operation at its place. *)
Theorem kvraft_linearizable `{!Codec kv_map} `{!Codec (RaftState (Op Kvraft.Req))} n cmd_of (s : KvSystem) :
  0 <= n -> reachable (system_init n ∅) (sys_quiet (sm := kv_machine) n ∅ cmd_of) s ->
  exists ops, linearized ∅ (history s) ops /\ forall sid op err rep,
    Returned sid op err rep ∈ history s -> let submitted := (err, default Kvraft.RepNil rep) in
    (forall args, Rsm.Command_ op = Kvraft.ReqGet args -> exists reply, Kvraft.Get submitted = Ok reply /\
       (gr_Err reply <> ErrWrongLeader -> exists k kv, ops !! k = Some op /\ run ∅ (take k ops) = Ok kv /\
          reply = Spec.get (kv !! ga_Key args))) /\
    (forall args, Rsm.Command_ op = Kvraft.ReqPut args -> exists reply, Kvraft.Put submitted = Ok reply /\
       (pr_Err reply <> ErrWrongLeader -> exists k kv, ops !! k = Some op /\ run ∅ (take k ops) = Ok kv /\
          pr_Err reply = (Spec.put (pa_Value args) (pa_Version args) (kv !! pa_Key args)).2)).
Proof.
  intros Hn R. pose proof (sys_inv_reachable n ∅ cmd_of Hn s R) as I.
  destruct (sys_common_log n _ _ Hn s I) as [ops Hops].
  pose proof (sys_linearized n _ _ Hn s ops I Hops) as L. exists ops. split; [done |].
  intros sid op err rep Hr submitted.
  destruct (lin_errors _ _ _ L _ _ _ _ Hr) as [[-> [r ->]]|[-> ->]].
  2: { split; intros args Hop; eexists; by split. }
  destruct (lin_result _ _ _ L _ _ _ Hr) as (k & kv & kv' & Hk & Hrun & Hdo).
  change (Ok (Kvraft.DoOp (Rsm.Command_ op) kv) = Ok (kv', r)) in Hdo. injection Hdo as Hdo.
  split; intros args Hop; rewrite Hop in Hdo.
  - exists (Spec.get (kv !! ga_Key args)). split; [| by eauto 6].
    simpl in Hdo. by destruct (kv !! ga_Key args); injection Hdo as <- <-.
  - rewrite DoOp_Put in Hdo. injection Hdo as <- <-. eexists. split; [done |]. intros _.
    exists k, kv. split_and!; [done | done | apply Put_spec].
Qed.

(** ** The properties at work in [serve_run] *)

Lemma rsm_linearizable_witness : exists (s : KvSystem) ops, history s = ex_history /\
  linearized (sm := @kv_machine kv_codec) ∅ (history s) ops /\
  (forall i, is_peer 3 i -> exists k, run (sm := @kv_machine kv_codec) ∅ (take k ops) = Ok (sm_state (rsms s i))).
Proof.
  destruct served_reachable as (s & R & H).
  destruct (rsm_linearizable (@kv_machine kv_codec) 3 ∅ ex_cmds s) as (ops & L & Hr); [lia | exact R |].
  exists s, ops. split; [by apply served_history | done].
Defined.

Lemma kvraft_linearizable_witness : exists (s : KvSystem) k (kv : kv_map), ex_reachable s /\
  Returned 2 (mkOp ex_get 9) OK (Some (Kvraft.RepGet (mkGetReply "a" 1 OK))) ∈ history s /\
  mkGetReply "a" 1 OK = Spec.get (kv !! "k") /\ exists ops, run (sm := @kv_machine kv_codec) ∅ (take k ops) = Ok kv.
Proof.
  destruct served_reachable as (s & R & H).
  destruct (@kvraft_linearizable kv_codec _ 3 ex_cmds s) as (ops & _ & Hall); [lia | exact R |].
  assert (Returned 2 (mkOp ex_get 9) OK (Some (Kvraft.RepGet (mkGetReply "a" 1 OK))) ∈ history s) as Hin
    by (rewrite (served_history s H); apply list_elem_of_here).
  destruct (Hall _ _ _ _ Hin) as [Hget _]. destruct (Hget (mkGetArgs "k") eq_refl) as (reply & E & Hex).
  injection E as <-. destruct Hex as (k & kv & _ & Hrun & Hrep); [done |].
  exists s, k, kv. split_and!; [exact R | exact Hin | exact Hrep | by exists ops].
Defined.

(** The execution up to where server 0 has a message to read. *)
Definition deliver_run : list (SLabel (Req := Kvraft.Req)) := take 12 serve_run.

Definition delivered (s : KvSystem) : bool :=
  bool_decide ((fun m => (CommandIndex m, Command m)) <$> inbox s 0 = [(1, Some (mkOp ex_put 7))]).

Lemma apply_messages_typed_witness : exists (s : KvSystem) m sid, ex_reachable s /\ m ∈ inbox s 0 /\
  Command m = Some (mkOp ex_put 7) /\ Invoked sid (mkOp ex_put 7) 1 true ∈ history s.
Proof.
  destruct (sys_run_witness (sm := @kv_machine kv_codec) 3 ∅ ex_cmds deliver_run delivered) as (s & R & H);
    [vm_compute; reflexivity |].
  apply bool_decide_eq_true in H. destruct (inbox s 0) as [|m rest] eqn:E; [done |]. injection H as Hi Hm _.
  destruct (apply_messages_typed (@kv_machine kv_codec) 3 ∅ ex_cmds s 0 m) as (_ & sid & op & Hop & Hinv);
    [lia | exact R | unfold is_peer; lia | rewrite E; apply list_elem_of_here |].
  rewrite Hm in Hop. injection Hop as <-. rewrite Hi in Hinv.
  exists s, m, sid. rewrite E. split_and!; [exact R | apply list_elem_of_here | exact Hm | exact Hinv].
Defined.
