(* ===== verification/RsmProgress.v ===== *)
(** * Progress of the replicated service ([kvraft1/rsm/rsm.go])

    The sends of [applyReader] never block, although the channels of
    [Submit] are shared through a map and have room for one value; and
    from every state that the service reaches under the conditions of
    [sys_quiet] an execution goes on in which [Submit] at some server takes
    the next operation and returns its answer ([submit_progress]): the run
    of [RaftProgress] below, with the readers of all servers emptying their
    channels in between. *)
From stdpp Require Import functions.
From S2P Require Import RaftTester.
From S2P Require Import Prelude Persister RaftNode RaftStep RaftElection RaftLog RaftSpec RaftCluster RaftRefine RaftSafety RaftOrigin RaftProgress.
From S2P Require Import Kv Rsm RsmCluster RsmRun RsmSafety.
Import Rpc.
#[local] Open Scope Z_scope.

(** ** The channels of one server *)
Section Channels.
Context {State Req Rep : Type} `{sm : !StateMachine State Req Rep}.
Notation RSM := (@RSM State Req Rep).
Implicit Types (r : RSM).

(** A channel is filed under one index at most, gets its value when that
    index is applied, and is empty before. *)
Record chan_ok r : Prop := mkChanOk {
  ch_map : forall k c, operation_channels_ r !! k = Some c -> (c < length (bufs r))%nat;
  ch_inj : forall k k' c, operation_channels_ r !! k = Some c -> operation_channels_ r !! k' = Some c -> k = k';
  ch_full : forall k c res, operation_channels_ r !! k = Some c -> bufs r !! c = Some (Some res) ->
    k <= Z.of_nat (length (Rsm.applied r));
  ch_send : forall c res, sending r = Some (c, res) -> bufs r !! c = Some None /\
    forall k, operation_channels_ r !! k = Some c -> k <= Z.of_nat (length (Rsm.applied r));
}.

Lemma applyCommand_fields pb index op r r' : applyCommand pb index op r = Ok r' -> exists rep,
  operation_channels_ r' = operation_channels_ r /\ bufs r' = bufs r /\ waiting r' = waiting r /\ returned r' = returned r /\
  Rsm.applied r' = Rsm.applied r ++ [Applied op rep] /\
  sending r' = (fun c => (c, mkResult op rep)) <$> operation_channels_ r !! index.
Proof.
  unfold applyCommand. intros H. apply res_bind_ok in H as ([st rep] & _ & H). injection H as <-. exists rep.
  simpl. by destruct (operation_channels_ r !! index).
Qed.

Lemma chan_read pb index op r r' : chan_ok r -> sending r = None -> index = Z.of_nat (length (Rsm.applied r)) + 1 ->
  applyCommand pb index op r = Ok r' -> chan_ok r'.
Proof.
  intros [Hm Hi Hf _] Hs -> H. apply applyCommand_fields in H as (rep & Eo & Eb & _ & _ & Ea & Es).
  split; rewrite ?Eo, ?Eb, ?Ea, ?Es; try done.
  - intros k c res Hk Hb. specialize (Hf k c res Hk Hb). rewrite length_app. simpl. lia.
  - intros c res H. apply fmap_Some in H as (c' & Hc & [= <- _]). rewrite length_app. simpl. split.
    + destruct (lookup_lt_is_Some_2 (bufs r) c (Hm _ _ Hc)) as [[x|] Hx]; [| done].
      specialize (Hf _ _ _ Hc Hx). lia.
    + intros k Hk. rewrite (Hi _ _ _ Hk Hc). lia.
Qed.

(** The send is possible whenever the reader has one to do. *)
Lemma chan_sends r : chan_ok r -> is_Some (sending r) -> is_Some (applySend r).
Proof.
  intros [_ _ _ Hs] [[c res] E]. unfold applySend. rewrite E. destruct (Hs c res E) as [-> _]. by eexists.
Qed.

Lemma applySend_fields r r' : applySend r = Some r' -> exists c res, sending r = Some (c, res) /\ bufs r !! c = Some None /\
  operation_channels_ r' = operation_channels_ r /\ bufs r' = <[c := Some res]> (bufs r) /\ waiting r' = waiting r /\
  returned r' = returned r /\ Rsm.applied r' = Rsm.applied r /\ sending r' = None.
Proof.
  unfold applySend. destruct (sending r) as [[c res]|]; [| done]. destruct (bufs r !! c) as [[|]|] eqn:E; try done.
  intros [= <-]. by exists c, res.
Qed.

Lemma chan_send r r' : chan_ok r -> applySend r = Some r' -> chan_ok r'.
Proof.
  intros [Hm Hi Hf Hs] H. apply applySend_fields in H as (c & res & E & Hb & Eo & Eb & _ & _ & Ea & Es).
  destruct (Hs c res E) as [_ Hk]. split; rewrite ?Eo, ?Eb, ?Ea, ?Es; try done.
  - intros k c'. rewrite length_insert. apply Hm.
  - intros k c' res' Hc Hl. apply list_lookup_insert_Some in Hl as [(-> & _ & _)|[_ Hl]]; [by apply Hk | by eapply Hf].
Qed.

Lemma chan_submit sid req id index l r : chan_ok r -> chan_ok (submitStart sid req id index l r).
Proof.
  intros [Hm Hi Hf Hs]. unfold submitStart. destruct l; [| by split]. simpl. split; simpl.
  - intros k c. rewrite length_app. simpl. intros [[<- <-]|[_ H]]%lookup_insert_Some; [lia |]. specialize (Hm _ _ H). lia.
  - intros k k' c [[<- <-]|[_ H]]%lookup_insert_Some [[<- E]|[_ H']]%lookup_insert_Some; try done.
    + specialize (Hm _ _ H'). lia.
    + subst c. specialize (Hm _ _ H). lia.
    + by eapply Hi.
  - intros k c res [[<- <-]|[_ H]]%lookup_insert_Some Hb.
    + by rewrite lookup_app_r, Nat.sub_diag in Hb by lia.
    + rewrite lookup_app_l in Hb by (by eapply Hm). by eapply Hf.
  - intros c res E. destruct (Hs c res E) as [Hb Hk]. pose proof (lookup_lt_Some _ _ _ Hb). split; [by rewrite lookup_app_l |].
    intros k [[<- <-]|[_ H']]%lookup_insert_Some; [lia | by apply Hk].
Qed.

Lemma chan_receive sid r r' : chan_ok r -> submitReceive sid r = Some r' -> chan_ok r'.
Proof.
  intros [Hm Hi Hf Hs] H. unfold submitReceive in H. destruct (waiting r !! sid) as [w|]; [| done].
  destruct (w_got w); [done |]. destruct (bufs r !! w_chan w) as [[res|]|] eqn:E; [| done..]. injection H as <-.
  split; simpl; try done.
  - intros k c. rewrite length_insert. apply Hm.
  - intros k c res' Hc Hl. apply list_lookup_insert_Some in Hl as [(_ & ? & _)|[_ Hl]]; [done | by eapply Hf].
  - intros c res' E'. destruct (Hs c res' E') as [Hb Hk]. split; [| done].
    rewrite list_lookup_insert_ne; [done |]. intros <-. congruence.
Qed.

Lemma chan_return sid w err rep r : chan_ok r -> chan_ok (submitReturn sid w err rep r).
Proof.
  intros [Hm Hi Hf Hs]. split; simpl.
  - intros k c [_ H]%lookup_delete_Some. by eapply Hm.
  - intros k k' c [_ H]%lookup_delete_Some [_ H']%lookup_delete_Some. by eapply Hi.
  - intros k c res [_ H]%lookup_delete_Some. by eapply Hf.
  - intros c res E. destruct (Hs c res E) as [Hb Hk]. split; [done |]. intros k [_ H]%lookup_delete_Some. by apply Hk.
Qed.

Lemma chan_init maxraft st : chan_ok (mkRSM maxraft st ∅ [] None ∅ [] ∅ []).
Proof. by split. Qed.
End Channels.

(** ** The service *)
Section Service.
Context {State Req Rep : Type} `{sm : !StateMachine State Req Rep} `{!Codec (RaftState (Op Req))}.
Variables (n : Z) (init : State) (cmd_of : Z -> Req).
Hypothesis Hn : 2 <= n.
Hypothesis Hdo : forall id st, is_ok (sm_DoOp (cmd_of id) st).
Notation System := (@System State Req Rep).
Notation RSM := (@RSM State Req Rep).
Implicit Types (s : System) (r : RSM).

Lemma n_nonneg : 0 <= n.
Proof. lia. Qed.

Record service_inv s : Prop := mkServiceInv {
  se_sys : sys_inv n init cmd_of s;
  se_chan : forall i, is_peer n i -> chan_ok (rsms s i);
}.

Lemma rsms_set i r s j : rsms (set_rsm i r s) j = if decide (i = j) then r else rsms s j.
Proof. simpl. case_decide as E; [subst; apply fn_insert_eq | by apply fn_insert_ne]. Qed.

Lemma chan_ok_set i r s (P : RSM -> Prop) : P r -> (forall j, is_peer n j -> P (rsms s j)) ->
  forall j, is_peer n j -> P (<[i := r]> (rsms s) j).
Proof. intros Hr Hs j Hj. destruct (decide (i = j)) as [<-|Hne]; [by rewrite fn_insert_eq | rewrite fn_insert_ne by done; by apply Hs]. Qed.

Lemma service_step s s' : service_inv s -> sys_quiet n init cmd_of s s' -> service_inv s'.
Proof.
  intros [I C] Hq. split; [eapply sys_inv_step; [apply n_nonneg | done | done] |]. destruct Hq as (H & _ & _).
  destruct H as [rc H | i r Hi H | i rf msgs Hi He H | i m rest op r Hi Hin Hs Hv Hm H | i sid req id rf index term l effs Hi _ _ H
    | i r Hi H | i sid r Hi H | i sid r op err rep Hi H _]; try done; simpl; apply chan_ok_set; try done.
  - unfold MakeRSM in H. apply res_bind_ok in H as (st & _ & [= <-]). apply chan_init.
  - destruct (sv_inbox _ _ _ _ I i 0%nat m Hi) as [_ Hidx]; [by rewrite Hin |].
    eapply (chan_read _ (CommandIndex m)); [by apply C | done | lia | done].
  - by apply chan_submit, C.
  - eapply chan_send; [by apply C | done].
  - eapply chan_receive; [by apply C | done].
  - destruct H as [H|H].
    + unfold submitFinish in H. destruct (waiting _ !! sid) as [w|]; [| done]. destruct (w_got w); [| done]. injection H as <-.
      case_decide; by apply chan_return, C.
    + unfold submitTimeout in H. destruct (waiting _ !! sid) as [w|]; [| done]. destruct (w_got w); [done |]. injection H as <-.
      by apply chan_return, C.
Qed.

Lemma service_reachable s : reachable (system_init n init) (sys_quiet n init cmd_of) s -> service_inv s.
Proof.
  apply invariant_reachable; [| apply service_step]. intros s0 H. split; [apply sys_inv_init; [apply n_nonneg | done] |].
  intros i _. destruct H as (_ & _ & Hr & _). rewrite (MakeRSM_empty _ _ (Hr i)). apply chan_init.
Qed.

(** A step in which nothing crashes and nobody calls, gives up or returns. *)
Record healthy s s' : Prop := mkHealthy {
  he_step : sys_quiet n init cmd_of s s';
  he_cluster : cluster s' = cluster s \/ rc_internal n (cluster s) (cluster s') \/ applies n (cluster s) (cluster s');
  he_history : history s' = history s;
}.

(** A step above the cluster. *)
Lemma quiet_above s s' : sys_step n init cmd_of s s' -> cluster s' = cluster s -> small n (cluster s) -> sys_quiet n init cmd_of s s'.
Proof.
  intros H E Hs. split_and!; [done | | done]. rewrite E. intros (i & _ & H1 & H2 & _). congruence.
Qed.

(** ** What the readers keep *)

(** [T i r]: a property of the server [i] that its reader keeps. *)
Section Keep.
Variable T : Z -> RSM -> Prop.
Hypothesis T_read : forall i r pb op r', chan_ok r -> sending r = None -> T i r ->
  applyCommand pb (Z.of_nat (length (Rsm.applied r)) + 1) op r = Ok r' -> T i r'.
Hypothesis T_send : forall i r r', chan_ok r -> T i r -> applySend r = Some r' -> T i r'.

Record kept s s' : Prop := mkKept {
  kp_run : rtc healthy s s';
  kp_inv : service_inv s -> service_inv s';
  kp_history : history s' = history s;
  kp_T : (forall i, is_peer n i -> T i (rsms s i)) -> forall i, is_peer n i -> T i (rsms s' i);
}.

Lemma kept_refl s : kept s s.
Proof. split; done. Qed.

Lemma kept_trans s1 s2 s3 : kept s1 s2 -> kept s2 s3 -> kept s1 s3.
Proof. intros [R1 I1 H1 T1] [R2 I2 H2 T2]. split; [by etrans | auto | congruence | auto]. Qed.

Lemma kept_healthy s s' : healthy s s' -> ((forall i, is_peer n i -> T i (rsms s i)) -> forall i, is_peer n i -> T i (rsms s' i)) -> kept s s'.
Proof. intros H HT. split; [by apply rtc_once | intros I; eapply service_step; [done | apply H] | apply H | done]. Qed.

(** The reader of [i] takes one message, having sent what it had. *)
Lemma flush s i : service_inv s -> is_peer n i -> small n (cluster s) ->
  exists s', kept s s' /\ cluster s' = cluster s /\ inbox s' = inbox s /\ sending (rsms s' i) = None.
Proof.
  intros [I C] Hi Hs. destruct (sending (rsms s i)) as [x|] eqn:E; [| by exists s; split; [apply kept_refl |]].
  destruct (chan_sends (rsms s i) (C i Hi)) as [r Hr]; [by rewrite E |].
  exists (set_rsm i r s). split_and!; try done.
  - apply kept_healthy.
    + split; [| by left | done]. apply quiet_above; try done. by apply sys_send.
    + intros HT. simpl. intros j Hj. destruct (decide (i = j)) as [<-|Hne]; [| rewrite fn_insert_ne by done; by apply HT].
      rewrite fn_insert_eq. eapply T_send; [by apply C | by apply HT | done].
  - simpl. rewrite fn_insert_eq. by apply applySend_fields in Hr as (c & res & _ & _ & _ & _ & _ & _ & _ & ?).
Qed.

Lemma take_one s i m rest : service_inv s -> is_peer n i -> small n (cluster s) -> sending (rsms s i) = None -> inbox s i = m :: rest ->
  exists s', kept s s' /\ cluster s' = cluster s /\ inbox s' i = rest.
Proof.
  intros [I C] Hi Hs Hsend Hin. destruct (sv_inbox _ _ _ _ I i 0%nat m Hi) as [Hdel Hidx]; [by rewrite Hin |].
  pose proof (inv_one_log n init cmd_of n_nonneg s I) as O. destruct (ol_command _ O _ _ Hdel) as [_ [op Hop]].
  destruct (sim_reachable n n_nonneg _ (sv_cluster _ _ _ _ I)) as (a & R & SM).
  destruct (sm_applied _ _ _ SM _ _ Hdel) as (_ & Hv & _).
  assert (Rsm.Command_ op = cmd_of (Id_ op)) as Hg.
  { destruct (logged_invoked n init cmd_of n_nonneg s I (length (Rsm.applied (rsms s i))) op) as [sid Hinv].
    - exists (Z.to_nat i), m. split_and!; [done | lia | done].
    - by apply (sv_genuine _ _ _ _ I) in Hinv. }
  assert (exists r, applyCommand (PersistBytes (peer (cluster s) i)) (CommandIndex m) op (rsms s i) = Ok r) as [r Hr].
  { unfold applyCommand. rewrite Hg. destruct (Hdo (Id_ op) (sm_state (rsms s i))) as [[st rep] ->]. by eexists. }
  exists (set_rsm i r (set_inbox i rest s)). split_and!; [| done | simpl; apply fn_insert_eq].
  apply kept_healthy.
  - split; [| by left | done]. apply quiet_above; try done. by eapply sys_read.
  - intros HT. simpl. intros j Hj. destruct (decide (i = j)) as [<-|Hne]; [| rewrite fn_insert_ne by done; by apply HT].
    rewrite fn_insert_eq. eapply T_read; [by apply C | done | by apply HT |].
    replace (Z.of_nat (length (Rsm.applied (rsms s i))) + 1) with (CommandIndex m) by lia. done.
Qed.

(** The reader of [i] empties its channel. *)
Lemma drain i k : is_peer n i -> forall s, service_inv s -> small n (cluster s) -> (length (inbox s i) <= k)%nat ->
  exists s', kept s s' /\ cluster s' = cluster s /\ inbox s' i = [] /\ sending (rsms s' i) = None.
Proof.
  intros Hi. induction k as [|k IH]; intros s I Hs Hk; destruct (flush s i I Hi Hs) as (s1 & K1 & E1 & B1 & S1).
  - exists s1. rewrite B1. split_and!; try done. by destruct (inbox s i); [| simpl in Hk; lia].
  - destruct (inbox s i) as [|m rest] eqn:Ein; [exists s1; by rewrite B1 |].
    pose proof (kp_inv _ _ K1 I) as I1.
    destruct (take_one s1 i m rest I1 Hi) as (s2 & K2 & E2 & B2); [by rewrite E1 | done | by rewrite B1 |].
    destruct (IH s2) as (s3 & K3 & E3 & B3 & S3); [by apply K2 | by rewrite E2, E1 | rewrite B2; simpl in Hk; lia |].
    exists s3. split_and!; [by eapply kept_trans; [| eapply kept_trans] | congruence | done | done].
Qed.

(** The service follows its cluster. *)
Lemma follow_one s rc : service_inv s -> calm n (cluster s) rc -> exists s', kept s s' /\ cluster s' = rc.
Proof.
  intros I ([H|H] & Hrace & Hs).
  - exists (set_cluster rc s). split; [| done]. apply kept_healthy; [| done]. split; [| by right; left | done].
    split_and!; [by apply sys_peers | done | done].
  - destruct H as (i & rf & msgs & Hi & Ha & ->).
    destruct (drain i (length (inbox s i)) Hi s I Hs) as (s1 & K1 & E1 & B1 & _); [done |].
    set (rc := delivers i msgs (set_peer i rf (cluster s))) in *.
    exists (set_inbox i msgs (set_cluster rc s1)). split; [| done]. eapply kept_trans; [done |].
    apply kept_healthy; [| done]. split; [| | done].
    + split_and!; [unfold rc; rewrite <- E1; apply sys_apply; [done | done | by rewrite E1] | by rewrite E1 | by rewrite E1].
    + right. right. simpl. rewrite E1. by exists i, rf, msgs.
Qed.

Lemma follow rc rc' : rtc (calm n) rc rc' -> forall s, service_inv s -> cluster s = rc -> exists s', kept s s' /\ cluster s' = rc'.
Proof.
  induction 1 as [rc|rc rc1 rc2 H _ IH]; intros s I E; [exists s; split; [apply kept_refl | done] |]. subst rc.
  destruct (follow_one s rc1 I H) as (s1 & K1 & E1). destruct (IH s1) as (s2 & K2 & E2); [by apply K1 | done |].
  exists s2. split; [by eapply kept_trans | done].
Qed.
End Keep.

(** ** One call *)

(** The waiting call [sid] at [index]: once the index is applied, the
    result is in the channel of the call, or the reader is sending it. *)
Record track (sid : nat) (op : Op Req) (index : Z) (c : nat) r : Prop := mkTrack {
  tk_wait : waiting r !! sid = Some (mkWaiting op index c None);
  tk_chan : operation_channels_ r !! index = Some c;
  tk_result : index <= Z.of_nat (length (Rsm.applied r)) -> exists (k : nat) op' rep, index = Z.of_nat k + 1 /\
    Rsm.applied r !! k = Some (Applied op' rep) /\
    (bufs r !! c = Some (Some (mkResult op' rep)) \/ sending r = Some (c, mkResult op' rep));
}.

Lemma track_read sid op index c r pb op1 r' : sending r = None -> track sid op index c r ->
  applyCommand pb (Z.of_nat (length (Rsm.applied r)) + 1) op1 r = Ok r' -> track sid op index c r'.
Proof.
  intros Hs [Hw Hc Hr] H. apply applyCommand_fields in H as (rep1 & Eo & Eb & Ew & _ & Ea & Es).
  split; rewrite ?Ew, ?Eo, ?Eb, ?Ea, ?Es; try done. rewrite length_app. simpl. intros Hle.
  destruct (decide (index = Z.of_nat (length (Rsm.applied r)) + 1)) as [->|Hne].
  - exists (length (Rsm.applied r)), op1, rep1. split_and!; [done | by rewrite lookup_app_r, Nat.sub_diag by lia |].
    right. by rewrite Hc.
  - destruct (Hr ltac:(lia)) as (k & op' & rep & Hk & Hlk & [Hb|Hb]); [| congruence].
    exists k, op', rep. split_and!; [done | by apply lookup_app_l_Some | by left].
Qed.

Lemma track_send sid op index c r r' : chan_ok r -> track sid op index c r -> applySend r = Some r' -> track sid op index c r'.
Proof.
  intros C [Hw Hc Hr] H. apply applySend_fields in H as (c1 & res & E & Hb1 & Eo & Eb & Ew & _ & Ea & _).
  split; rewrite ?Ew, ?Eo, ?Eb, ?Ea; try done. intros Hle. destruct (Hr Hle) as (k & op' & rep & Hk & Hlk & Hd).
  exists k, op', rep. split_and!; [done | done | left]. destruct Hd as [Hb|Hb].
  - rewrite list_lookup_insert_ne; [done |]. intros ->. congruence.
  - rewrite E in Hb. injection Hb as -> ->. apply list_lookup_insert_eq. by apply lookup_lt_Some in Hb1.
Qed.

(** The call takes its result and returns it. *)
Lemma track_returns sid op index c r rep (k : nat) : sending r = None -> track sid op index c r -> index = Z.of_nat k + 1 ->
  index <= Z.of_nat (length (Rsm.applied r)) -> Rsm.applied r !! k = Some (Applied op rep) ->
  exists r1 r2, submitReceive sid r = Some r1 /\ submitFinish sid r1 = Some r2 /\ returned r2 !! sid = Some (op, OK, Some rep).
Proof.
  intros Hs [Hw Hc Hr] Hidx Hle Hk. destruct (Hr Hle) as (k' & op' & rep' & Hk' & Hlk & [Hb|Hb]); [| congruence].
  assert (k' = k) as -> by lia. rewrite Hlk in Hk. injection Hk as -> ->.
  unfold submitReceive. rewrite Hw. simpl. rewrite Hb. eexists _, _. split; [reflexivity |]. unfold submitFinish. simpl.
  rewrite lookup_insert_eq. simpl. split; [reflexivity |]. rewrite decide_False by (intros H; by apply H). simpl. by rewrite lookup_insert_eq.
Qed.

(** [Submit] at a leader files a channel for an index not applied yet. *)
Lemma submit_tracks s p sid id rf index term effs : service_inv s -> is_peer n p -> small n (cluster s) ->
  Start (mkOp (cmd_of id) id) (peer (cluster s) p) = (rf, (index, term, true), effs) ->
  exists c, track sid (mkOp (cmd_of id) id) index c (submitStart sid (cmd_of id) id index true (rsms s p)).
Proof.
  intros [I _] Hp Hs HS. pose proof (reach_peer_ok n Hn _ _ (sv_cluster _ _ _ _ I) Hp) as P.
  destruct (Start_index _ _ _ _ _ _ _ (po_wf _ _ _ P) (po_lii _ _ _ P) ltac:(by apply Hs) HS) as [Hlead Hnot].
  assert (role_ (peer (cluster s) p) = Leader) as Hr.
  { destruct (decide (role_ (peer (cluster s) p) = Leader)) as [|Hno]; [done |]. by specialize (Hnot Hno). }
  destruct (Hlead Hr) as [_ ->]. pose proof (sv_count _ _ _ _ I p Hp). pose proof (po_applied _ _ _ P). pose proof (po_commit _ _ _ P).
  exists (length (bufs (rsms s p))). split; simpl; [by rewrite lookup_insert_eq | by rewrite lookup_insert_eq | lia].
Qed.
End Service.

(** C32: ApplyReader never blocks. In every execution of a service of at
    least two servers in which no peer becomes leader between the role test
    of its [ticker] and the [startElection] that follows, no server takes
    snapshots ([maxraftstate] is -1), the random identities that [Submit]
    draws are distinct, terms stay below 2^64 - 1 and logs below 2^63 - 1
    entries: when the reader of a server has a result for a channel, the
    channel is empty and the send goes through, whatever calls have come,
    timed out and reused the index; no channel is filed under two indices;
    and a channel that is filed holds a value only if its index has been
    applied. *)
Theorem reader_never_blocks {State Req Rep} (sm : StateMachine State Req Rep) `{!Codec (RaftState (Op Req))}
    n init cmd_of (s : System (State := State) (Req := Req) (Rep := Rep)) i :
  2 <= n -> reachable (system_init n init) (sys_quiet n init cmd_of) s -> is_peer n i ->
  let r := rsms s i in
  (forall c res, sending r = Some (c, res) ->
     exists r', applySend r = Some r' /\ bufs r' !! c = Some (Some res) /\ sending r' = None) /\
  (forall k k' c, operation_channels_ r !! k = Some c -> operation_channels_ r !! k' = Some c -> k = k') /\
  (forall k c res, operation_channels_ r !! k = Some c -> bufs r !! c = Some (Some res) ->
     k <= Z.of_nat (length (Rsm.applied r))).
Proof.
  intros Hn R Hi. cbv zeta. pose proof (se_chan _ _ _ _ (service_reachable n init cmd_of Hn s R) i Hi) as C.
  split_and!; [| apply (ch_inj _ C) | apply (ch_full _ C)].
  intros c res E. destruct (chan_sends _ C) as [r' Hr]; [by rewrite E |]. exists r'. split; [done |].
  apply applySend_fields in Hr as (c' & res' & E' & Hb & _ & Eb & _ & _ & _ & Es). rewrite E in E'. injection E' as <- <-.
  split; [| done]. rewrite Eb. apply list_lookup_insert_eq. by apply lookup_lt_Some in Hb.
Qed.

(** C4: The service can always answer. Take a state of a service of at least
    two servers, with a state machine that serves every request, which an
    execution reached in which no peer becomes leader between the role test
    of its [ticker] and the [startElection] that follows, no server takes
    snapshots ([maxraftstate] is -1), the random identities that [Submit]
    draws are distinct, terms stay below 2^64 - 1 and logs below 2^63 - 1
    entries, and in which every server has two terms and one log entry left
    below these bounds; calls may be waiting, messages under way, servers
    behind or just restarted. Then it can go on, without a crash or a race
    from there, so that a server takes the next operation and [Submit]
    returns its answer. *)
Theorem submit_progress {State Req Rep} (sm : StateMachine State Req Rep) `{!Codec (RaftState (Op Req))}
    n init cmd_of (s : System (State := State) (Req := Req) (Rep := Rep)) sid id :
  2 <= n -> (forall id st, is_ok (sm_DoOp (cmd_of id) st)) -> reachable (system_init n init) (sys_quiet n init cmd_of) s ->
  (forall i, is_peer n i -> current_term_ (peer (cluster s) i) + 2 < 2 ^ 64 - 1 /\ zlen (logs_ (peer (cluster s) i)) + 1 < 2 ^ 63 - 1) ->
  let op := mkOp (cmd_of id) id in
  new_call sid op s ->
  exists s1 s2 s3 s4 index rep,
    rtc (healthy n init cmd_of) s s1 /\ sys_quiet n init cmd_of s1 s2 /\
    rtc (healthy n init cmd_of) s2 s3 /\ sys_quiet n init cmd_of s3 s4 /\
    history s2 = Invoked sid op index true :: history s /\ history s4 = Returned sid op OK (Some rep) :: history s2.
Proof.
  intros Hn Hdo R Hb op Hnew. pose proof (service_reachable n init cmd_of Hn s R) as I.
  destruct (raft_runs n (cluster s) op Hn (sv_cluster _ _ _ _ (se_sys _ _ _ _ I)) Hb)
    as (rc1 & p & rf & index & rc2 & [G1 Hp (term & effs & HS) G2 [Hs1 Hs2] HD]).
  destruct (follow n init cmd_of Hn Hdo (fun _ _ => True) ltac:(done) ltac:(done) _ _ G1 s I eq_refl) as (s1 & [R1 I1 H1 _] & E1).
  specialize (I1 I). rewrite <- E1 in HS, Hs1.
  destruct (submit_tracks n init cmd_of Hn s1 p sid id rf index term effs I1 Hp Hs1 HS) as [c Htr].
  set (s2 := record [Invoked sid op index true] (set_rsm p (submitStart sid (cmd_of id) id index true (rsms s1 p)) (set_cluster (set_peer p rf (cluster s1)) s1))).
  assert (sys_quiet n init cmd_of s1 s2) as Q2.
  { split_and!; [| | done].
    - apply (sys_submit n init cmd_of s1 p sid (cmd_of id) id rf index term true effs); try done. unfold new_call in *. by rewrite H1.
    - apply no_race. simpl. congruence. }
  pose proof (service_step n init cmd_of Hn s1 s2 I1 Q2) as I2.
  set (T := fun (i : Z) (r : @RSM State Req Rep) => i = p -> track sid op index c r).
  assert (forall i r pb op1 r', chan_ok r -> sending r = None -> T i r ->
    applyCommand pb (Z.of_nat (length (Rsm.applied r)) + 1) op1 r = Ok r' -> T i r') as TR.
  { intros i r pb op1 r' _ Hs HT HA Hi. eapply track_read; [done | by apply HT | done]. }
  assert (forall i r r', chan_ok r -> T i r -> applySend r = Some r' -> T i r') as TS.
  { intros i r r' C HT HA Hi. eapply track_send; [done | by apply HT | done]. }
  destruct (follow n init cmd_of Hn Hdo T TR TS _ _ G2 s2 I2) as (s3 & K3 & E3); [simpl; by rewrite E1 |].
  destruct (drain n init cmd_of Hn Hdo T TR TS p (length (inbox s3 p)) Hp s3) as (s4 & K4 & E4 & B4 & S4);
    [by apply K3 | by rewrite E3 | done |].
  pose proof (kept_trans _ _ _ _ _ _ _ K3 K4) as [R4 I4 H4 HT4]. specialize (I4 I2).
  assert (track sid op index c (rsms s4 p)) as Tr.
  { apply (HT4 ltac:(intros i Hi ->; simpl; by rewrite fn_insert_eq) p Hp eq_refl). }
  destruct (HD p Hp) as (Hap & m & Hm & _ & Hidx & Hcm). pose proof (sv_count _ _ _ _ (se_sys _ _ _ _ I4) p Hp) as Hcount.
  rewrite B4, E4, E3 in Hcount. simpl in Hcount.
  destruct (tk_result _ _ _ _ _ Tr ltac:(lia)) as (k & op' & rep & Hk & Hlk & _).
  destruct (sv_applied _ _ _ _ (se_sys _ _ _ _ I4) p k _ Hp Hlk) as (op1 & rep1 & [= <- <-] & Hlog).
  assert (op' = op) as ->.
  { apply (logged_det (cluster s4) k); [apply (inv_one_log n init cmd_of (n_nonneg n Hn) s4), I4 | done |].
    rewrite E4, E3. exists (Z.to_nat p), m. split_and!; [done | lia | done]. }
  destruct (track_returns sid op index c (rsms s4 p) rep k S4 Tr Hk ltac:(lia) Hlk) as (r1 & r2 & Hrec & Hfin & Hret).
  set (s5 := set_rsm p r1 s4). assert (rsms s5 p = r1) as E5 by (simpl; apply fn_insert_eq).
  assert (sys_quiet n init cmd_of s4 s5) as Q5.
  { apply quiet_above; [by eapply sys_receive | done | by rewrite E4, E3]. }
  exists s1, s2, s5, (record [Returned sid op OK (Some rep)] (set_rsm p r2 s5)), index, rep. split_and!.
  - done.
  - done.
  - eapply rtc_r; [exact R4 |]. split; [done | by left | done].
  - apply quiet_above; [| done | simpl; by rewrite E4, E3].
    eapply sys_return; [done | left; by rewrite E5 | done].
  - simpl. by rewrite H1.
  - simpl. by rewrite H4.
Qed.

(** ** The execution [serve_run] *)

(** The first command has been read, its result not yet sent. *)
Definition sends_now (s : KvSystem) : bool :=
  match sending (rsms s 0) with Some _ => true | None => false end.

Lemma reader_never_blocks_witness : exists (s : KvSystem) r, ex_reachable s /\ applySend (rsms s 0) = Some r.
Proof.
  destruct (sys_run_witness (sm := @kv_machine kv_codec) 3 ∅ ex_cmds (take 13 serve_run) sends_now) as (s & R & H).
  { vm_compute. reflexivity. }
  unfold sends_now in H. destruct (sending (rsms s 0)) as [[c res]|] eqn:E; [| discriminate H].
  destruct (reader_never_blocks (@kv_machine kv_codec) 3 (∅ : kv_map) ex_cmds s 0) as (H1 & _);
    [lia | exact R | unfold is_peer; lia |].
  destruct (H1 c res E) as (r & Hr & _).
  exists s, r. split; [exact R | exact Hr].
Defined.

Definition has_room (s : KvSystem) : bool :=
  served s && unused 5 12 s &&
  forallb (fun i => bool_decide (current_term_ (peer (cluster s) i) <= 5) && bool_decide (zlen (logs_ (peer (cluster s) i)) <= 5)) (seqZ 0 3).

Lemma has_room_reachable : exists s : KvSystem, ex_reachable s /\ has_room s = true.
Proof. apply (sys_run_witness (sm := @kv_machine kv_codec) 3 ∅ ex_cmds serve_run has_room). vm_compute. reflexivity. Qed.

Lemma has_room_facts s : has_room s = true -> history s = ex_history /\ new_call 5 (mkOp (ex_cmds 12) 12) s /\
  forall i, is_peer 3 i -> current_term_ (peer (cluster s) i) <= 5 /\ zlen (logs_ (peer (cluster s) i)) <= 5.
Proof.
  intros [[Hs Hu]%andb_true_iff Hb]%andb_true_iff. split_and!; [by apply served_history | |].
  - unfold unused in Hu. rewrite forallb_forall in Hu. intros sid op index l Hin. specialize (Hu _ (proj1 (list_elem_of_In _ _) Hin)).
    by apply bool_decide_eq_true in Hu.
  - intros i Hi. rewrite forallb_forall in Hb. specialize (Hb i). rewrite andb_true_iff, !bool_decide_eq_true in Hb.
    apply Hb. apply list_elem_of_In, elem_of_seqZ. unfold is_peer in Hi. lia.
Qed.

Lemma ex_cmds_total id (st : kv_map) : is_ok (sm_DoOp (StateMachine := @kv_machine kv_codec) (ex_cmds id) st).
Proof. unfold ex_cmds. case_decide; simpl; apply is_ok_Ok. Qed.

Lemma submit_progress_witness : exists (s s' : KvSystem) index rep, ex_reachable s /\ history s = ex_history /\
  history s' = Returned 5 (mkOp ex_get 12) OK (Some rep) :: Invoked 5 (mkOp ex_get 12) index true :: ex_history.
Proof.
  destruct has_room_reachable as (s & R & H). destruct (has_room_facts s H) as (Hh & Hnew & Hb).
  destruct (submit_progress (@kv_machine kv_codec) 3 (∅ : kv_map) ex_cmds s 5 12) as (s1 & s2 & s3 & s4 & index & rep & _ & _ & _ & _ & H2 & H4);
    [lia | exact ex_cmds_total | exact R | | exact Hnew |].
  - intros i Hi. destruct (Hb i Hi). lia.
  - exists s, s4, index, rep. split; [exact R |]. split; [exact Hh |]. rewrite H4, H2, Hh. reflexivity.
Defined.
