(* ===== verification/KvCluster.v ===== *)
(** * Clerks over the replicated service

    The clerks of [kvraft1/client.go], each calling the servers of
    [RsmCluster] through a network that loses requests and replies and
    delivers requests late, also after their call has returned.  The file
    proves that what the clients see is linearizable, but for late puts that
    ended in [ErrMaybe]: one order of their calls, each at one moment,
    explains every answer.  The servers keep to the conditions of
    [sys_quiet]. *)
From stdpp Require Import functions.
From S2P Require Import Prelude Persister RaftNode RaftStep RaftElection RaftElectionRun RaftCluster RaftRefine RaftSafety.
From S2P Require Import Kv KvClerk Rsm RsmCluster RsmRun RsmSafety.
Import Rpc KvraftClerk.
#[local] Open Scope Z_scope.

Abbreviation KvOp := (Rsm.Op Kvraft.Req).
Abbreviation KvEvent := (@CallEvent Kvraft.Req Kvraft.Rep).

(** ** Calls of the clients *)
Inductive COp := CGet (key : string) | CPut (args : PutArgs).
Inductive CRes := RGet (r : string * Z * Err) | RPut (err : Err).

Definition req_of (o : COp) : Kvraft.Req :=
  match o with CGet key => Kvraft.ReqGet (mkGetArgs key) | CPut args => Kvraft.ReqPut args end.

(** The variables of a call: its arguments, [is_resend_], the reply
    variable, and the attempt whose answer it waits for. *)
Record Call := mkCall {
  ca_id : nat; ca_op : COp; ca_resend : bool;
  ca_get : GetReply; ca_put : PutReply; ca_wait : option nat;
}.

Record Client := mkClient { cl_clerk : Clerk; cl_call : option Call }.

#[export] Instance CRes_eq_dec : EqDecision CRes.
Proof. solve_decision. Defined.

(** What happens: an event of the service, a call of a client, a request
    put on the network by a call - [sid] is the attempt and the call of
    [Submit] it leads to, if it arrives at server [i] - and the return of
    a call, from the answer to attempt [sid]. *)
Inductive event :=
| Sys (e : KvEvent)
| CInvoke (cid : nat) (o : COp)
| Sent (cid : nat) (o : COp) (sid : nat) (i : Z)
| CReturn (cid sid : nat) (res : CRes).

Record World := mkWorld {
  w_sys : KvSystem;
  w_clients : nat -> Client;
  w_trace : list event;        (* newest first *)
}.

(** The loop body after [Call] has returned: [None] if it returned false,
    otherwise what the handler's [Submit] returned.  Either the call
    returns, or it goes around. *)
Definition attempt_done (ck : Clerk) (ca : Call) (submitted : option (Err * Kvraft.Rep)) :
    Res (CRes + Clerk * Call) :=
  match ca_op ca with
  | CGet key =>
      let* reply :=
        match submitted with
        | Some sub => let* new := Kvraft.Get sub in Ok (decodeGet (ca_get ca) new)
        | None => Ok (ca_get ca)
        end in
      let* next := getReply ck (bool_decide (is_Some submitted)) reply in
      match next with
      | Return r => Ok (inl (RGet r))
      | Loop ck _ => Ok (inr (ck, mkCall (ca_id ca) (ca_op ca) (ca_resend ca) reply (ca_put ca) None))
      end
  | CPut args =>
      let* reply :=
        match submitted with
        | Some sub => let* new := Kvraft.Put sub in Ok (decodePut (ca_put ca) new)
        | None => Ok (ca_put ca)
        end in
      let* next := putReply ck (ca_resend ca) (bool_decide (is_Some submitted)) reply in
      match next with
      | Return err => Ok (inl (RPut err))
      | Loop ck resend => Ok (inr (ck, mkCall (ca_id ca) (ca_op ca) resend (ca_get ca) reply None))
      end
  end.

Definition set_client (c : nat) (cl : Client) (w : World) : World :=
  mkWorld (w_sys w) (<[c := cl]> (w_clients w)) (w_trace w).
Definition happens (es : list event) (w : World) : World :=
  mkWorld (w_sys w) (w_clients w) (es ++ w_trace w).

Definition finish (c : nat) (ck : Clerk) (ca : Call) (sid : nat) (r : CRes + Clerk * Call) (w : World) : World :=
  match r with
  | inl res => happens [CReturn (ca_id ca) sid res] (set_client c (mkClient ck None) w)
  | inr (ck, ca) => set_client c (mkClient ck (Some ca)) w
  end.

(** Versions that clients name are below the largest one. *)
Definition cop_in_range (o : COp) : Prop :=
  match o with CGet _ => True | CPut args => 0 <= pa_Version args < 2 ^ 64 - 1 end.

Definition is_invoked (e : KvEvent) : bool := match e with Invoked _ _ _ _ => true | _ => false end.

(** ** The invariant of traces *)
Definition sys_event (e : event) : option KvEvent := match e with Sys e => Some e | _ => None end.

(** What the answer to an attempt is to the call that returns it. *)
Definition explains (o : COp) (rep : Kvraft.Rep) (res : CRes) : Prop :=
  match o, res with
  | CGet key, RGet (v, ver, err) => rep = Kvraft.RepGet (mkGetReply v ver err)
  | CPut args, RPut err => exists e, rep = Kvraft.RepPut (mkPutReply e) /\
      (err = OK /\ e = OK \/ err = ErrVersion /\ e = ErrVersion \/ err = ErrMaybe /\ e = ErrVersion)
  | _, _ => False
  end.

(** The attempt was answered [ErrNoKey], which sends a put around its loop
    without marking it as resent. *)
Definition no_key (sid : nat) (t : list event) : Prop :=
  exists op, Sys (Returned sid op OK (Some (Kvraft.RepPut (mkPutReply ErrNoKey)))) ∈ t.

Definition ok_event (e : event) (t : list event) : Prop :=
  match e with
  | Sys (Invoked sid op index l) =>
      (exists cid o i, Sent cid o sid i ∈ t /\ Rsm.Command_ op = req_of o) /\
      (forall sid' op' index' l', Sys (Invoked sid' op' index' l') ∈ t -> sid' <> sid /\ Id_ op' <> Id_ op)
  | Sys (Returned _ _ _ _) => True
  | CInvoke cid o => cop_in_range o /\ (forall o', CInvoke cid o' ∉ t)
  | Sent cid o sid i => CInvoke cid o ∈ t /\ (forall cid' o' i', Sent cid' o' sid i' ∉ t) /\
      (forall sid' res, CReturn cid sid' res ∉ t)
  | CReturn cid sid res =>
      (forall sid' res', CReturn cid sid' res' ∉ t) /\
      exists o i op rep, Sent cid o sid i ∈ t /\ Sys (Returned sid op OK (Some rep)) ∈ t /\
        explains o rep res /\
        (res = RPut ErrVersion -> forall o' sid' i', Sent cid o' sid' i' ∈ t -> sid' = sid \/ no_key sid' t)
  end.

Fixpoint ok_trace (t : list event) : Prop :=
  match t with [] => True | e :: t => ok_event e t /\ ok_trace t end.

Lemma ok_trace_split t2 e t1 : ok_trace (t2 ++ e :: t1) -> ok_event e t1.
Proof. induction t2 as [|x t2 IH]; simpl; [tauto |]. intros [_ H]. by apply IH. Qed.

Lemma ok_trace_in e t : ok_trace t -> e ∈ t -> exists t2 t1, t = t2 ++ e :: t1 /\ ok_event e t1.
Proof.
  intros Hok (t2 & t1 & ->)%list_elem_of_split. exists t2, t1. split; [done |]. by eapply ok_trace_split.
Qed.

Lemma no_key_mono sid t t' : t ⊆ t' -> no_key sid t -> no_key sid t'.
Proof. intros H [op Hop]. exists op. by apply H. Qed.

(** Of two occurrences of events one is the later one. *)
Lemma two_events (e1 e2 : event) t : e1 ∈ t -> e2 ∈ t -> ok_trace t ->
  e1 = e2 \/ (exists t1, ok_event e1 t1 /\ e2 ∈ t1) \/ (exists t1, ok_event e2 t1 /\ e1 ∈ t1).
Proof.
  induction t as [|e t IH]; intros H1 H2 Hok; [by apply not_elem_of_nil in H1 |].
  destruct Hok as [He Hok]. apply elem_of_cons in H1 as [->|H1]; apply elem_of_cons in H2 as [->|H2].
  - by left.
  - right; left. by exists t.
  - right; right. by exists t.
  - by apply IH.
Qed.

Section Trace.
Context (t : list event) (Hok : ok_trace t).

Lemma invoke_once cid o o' : CInvoke cid o ∈ t -> CInvoke cid o' ∈ t -> o = o'.
Proof.
  intros H1 H2. destruct (two_events _ _ _ H1 H2 Hok) as [[=]|[(t1 & (_ & H) & Hin)|(t1 & (_ & H) & Hin)]];
    [done | by apply H in Hin..].
Qed.

Lemma sent_once cid o i cid' o' i' sid : Sent cid o sid i ∈ t -> Sent cid' o' sid i' ∈ t -> cid = cid' /\ o = o' /\ i = i'.
Proof.
  intros H1 H2. destruct (two_events _ _ _ H1 H2 Hok) as [[=]|[(t1 & (_ & H & _) & Hin)|(t1 & (_ & H & _) & Hin)]];
    [done | by apply H in Hin..].
Qed.

Lemma sent_invoked cid o sid i : Sent cid o sid i ∈ t -> CInvoke cid o ∈ t.
Proof.
  intros H. destruct (ok_trace_in _ _ Hok H) as (t2 & t1 & -> & Hi & _). apply elem_of_app. right. by right.
Qed.

Lemma return_once cid sid res sid' res' : CReturn cid sid res ∈ t -> CReturn cid sid' res' ∈ t -> sid = sid' /\ res = res'.
Proof.
  intros H1 H2. destruct (two_events _ _ _ H1 H2 Hok) as [[=]|[(t1 & (H & _) & Hin)|(t1 & (H & _) & Hin)]];
    [done | by apply H in Hin..].
Qed.

Lemma invoked_sid sid op op' index l index' l' :
  Sys (Invoked sid op index l) ∈ t -> Sys (Invoked sid op' index' l') ∈ t -> op = op'.
Proof.
  intros H1 H2. destruct (two_events _ _ _ H1 H2 Hok) as [[=]|[(t1 & (_ & H) & Hin)|(t1 & (_ & H) & Hin)]];
    [done | by apply H in Hin as [? _]..].
Qed.

Lemma invoked_op sid sid' op index l index' l' :
  Sys (Invoked sid op index l) ∈ t -> Sys (Invoked sid' op index' l') ∈ t -> sid = sid'.
Proof.
  intros H1 H2. destruct (two_events _ _ _ H1 H2 Hok) as [[=]|[(t1 & (_ & H) & Hin)|(t1 & (_ & H) & Hin)]];
    [done | by apply H in Hin as [_ ?]..].
Qed.

Lemma invoked_sent sid op index l : Sys (Invoked sid op index l) ∈ t ->
  exists cid o i, Sent cid o sid i ∈ t /\ Rsm.Command_ op = req_of o /\ CInvoke cid o ∈ t.
Proof.
  intros H. destruct (ok_trace_in _ _ Hok H) as (t2 & t1 & Ht & (cid & o & i & Hs & Ho) & _).
  exists cid, o, i. assert (Hs' : Sent cid o sid i ∈ t) by (rewrite Ht; apply elem_of_app; right; by right).
  split_and!; [done.. |]. by eapply sent_invoked.
Qed.

(** All attempts at a call were made before its return. *)
Lemma creturn_facts cid sid res : CReturn cid sid res ∈ t ->
  exists o i op rep, Sent cid o sid i ∈ t /\ Sys (Returned sid op OK (Some rep)) ∈ t /\
    explains o rep res /\
    (res = RPut ErrVersion -> forall o' sid' i', Sent cid o' sid' i' ∈ t -> sid' = sid \/ no_key sid' t).
Proof.
  intros H. destruct (ok_trace_in _ _ Hok H) as (t2 & t1 & Ht & _ & o & i & op & rep & Hs & Hr & He & Hv).
  assert (Hsub : forall e, e ∈ t1 -> e ∈ t) by (intros e ?; rewrite Ht; apply elem_of_app; right; by right).
  exists o, i, op, rep. split_and!; [by apply Hsub.. | done |].
  intros Hres o' sid' i' Hs'.
  assert (Sent cid o' sid' i' ∈ t1) as Hs1.
  { rewrite Ht in Hs'. apply elem_of_app in Hs' as [Hs'|[?|?]%elem_of_cons]; [| done..].
    exfalso. apply list_elem_of_split in Hs' as (t4 & t3 & ->). rewrite Ht, <- (assoc_L (++)) in Hok.
    simpl in Hok. apply ok_trace_split in Hok as (_ & _ & Hno). eapply (Hno sid res).
    apply elem_of_app. right. by left. }
  destruct (Hv Hres o' sid' i' Hs1) as [?|Hn]; [by left | right]. by eapply no_key_mono.
Qed.
End Trace.

Lemma in_history w e : omap sys_event (w_trace w) = history (w_sys w) ->
  Sys e ∈ w_trace w <-> e ∈ history (w_sys w).
Proof.
  intros <-. rewrite list_elem_of_omap. split.
  - intros H. by exists (Sys e).
  - intros ([] & H & [= <-]). done.
Qed.

Lemma omap_sys es t : omap sys_event ((Sys <$> es) ++ t) = es ++ omap sys_event t.
Proof. rewrite omap_app. f_equal. induction es as [|e es IH]; [done | simpl; by f_equal]. Qed.


(** ** Executions *)
Section World.
Context `{!Codec kv_map} `{!Codec (RaftState KvOp)}.
Variables (n : Z) (cmd_of : Z -> Kvraft.Req) (srvs : list string).

Definition world_init (w : World) : Prop :=
  system_init (sm := kv_machine) n ∅ (w_sys w) /\
  (forall c, w_clients w c = mkClient (MakeClerk srvs) None) /\ w_trace w = [].

Definition kv_quiet (s s' : KvSystem) : Prop := sys_quiet (sm := kv_machine) n ∅ cmd_of s s'.

(** The step [sys_submit] of the service, with what it records. *)
Definition submits (i : Z) (sid : nat) (op : KvOp) (s s' : KvSystem) (es : list KvEvent) : Prop :=
  exists rf index term is_leader effs,
    Start op (peer (cluster s) i) = (rf, (index, term, is_leader), effs) /\
    es = (if is_leader then [] else [Returned sid op ErrWrongLeader None]) ++ [Invoked sid op index is_leader] /\
    s' = record es (set_rsm i (submitStart sid (Rsm.Command_ op) (Id_ op) index is_leader (rsms s i))
           (set_cluster (set_peer i rf (cluster s)) s)).

#[local] Unset Elimination Schemes.
Inductive world_step (w : World) : World -> Prop :=
| ws_service s' es :
    kv_quiet (w_sys w) s' -> history s' = es ++ history (w_sys w) -> Forall (fun e => is_invoked e = false) es ->
    world_step w (mkWorld s' (w_clients w) ((Sys <$> es) ++ w_trace w))
| ws_handle cid o sid i op s' es :
    (* the request arrives, and its handler calls [Submit] *)
    Sent cid o sid i ∈ w_trace w -> Rsm.Command_ op = req_of o -> new_call sid op (w_sys w) ->
    submits i sid op (w_sys w) s' es -> kv_quiet (w_sys w) s' ->
    world_step w (mkWorld s' (w_clients w) ((Sys <$> es) ++ w_trace w))
| ws_call c cid o :
    cl_call (w_clients w c) = None -> (forall o', CInvoke cid o' ∉ w_trace w) -> cop_in_range o ->
    world_step w (happens [CInvoke cid o] (set_client c
      (mkClient (cl_clerk (w_clients w c)) (Some (mkCall cid o false (mkGetReply "" 0 "") (mkPutReply "") None))) w))
| ws_send c ca sid srv :
    cl_call (w_clients w c) = Some ca -> ca_wait ca = None ->
    (forall cid o i, Sent cid o sid i ∉ w_trace w) ->
    slice_get (servers (cl_clerk (w_clients w c))) (leader (cl_clerk (w_clients w c))) = Ok srv ->
    world_step w (happens [Sent (ca_id ca) (ca_op ca) sid (leader (cl_clerk (w_clients w c)))] (set_client c
      (mkClient (cl_clerk (w_clients w c))
        (Some (mkCall (ca_id ca) (ca_op ca) (ca_resend ca) (ca_get ca) (ca_put ca) (Some sid)))) w))
| ws_answer c ca sid op err rep r :
    cl_call (w_clients w c) = Some ca -> ca_wait ca = Some sid ->
    Sys (Returned sid op err rep) ∈ w_trace w ->
    attempt_done (cl_clerk (w_clients w c)) ca (Some (err, default Kvraft.RepNil rep)) = Ok r ->
    world_step w (finish c (cl_clerk (w_clients w c)) ca sid r w)
| ws_fail c ca sid r :
    cl_call (w_clients w c) = Some ca -> ca_wait ca = Some sid ->
    attempt_done (cl_clerk (w_clients w c)) ca None = Ok r ->
    world_step w (finish c (cl_clerk (w_clients w c)) ca sid r w).
#[local] Set Elimination Schemes.



(** ** The invariant of executions *)
Record call_inv (t : list event) (ca : Call) : Prop := mkCallInv {
  ci_invoked : CInvoke (ca_id ca) (ca_op ca) ∈ t;
  ci_open : forall sid res, CReturn (ca_id ca) sid res ∉ t;
  ci_wait : forall sid, ca_wait ca = Some sid -> exists i, Sent (ca_id ca) (ca_op ca) sid i ∈ t;
  ci_clean : clean (ca_get ca);
  ci_first : ca_resend ca = false -> (exists args, ca_op ca = CPut args) ->
    forall o sid i, Sent (ca_id ca) o sid i ∈ t -> ca_wait ca = Some sid \/ no_key sid t;
}.

Record world_inv (w : World) : Prop := mkWorldInv {
  wi_sys : reachable (system_init (sm := kv_machine) n ∅) kv_quiet (w_sys w);
  wi_history : omap sys_event (w_trace w) = history (w_sys w);
  wi_trace : ok_trace (w_trace w);
  wi_clerk : forall c, wf_clerk (cl_clerk (w_clients w c)) /\ servers (cl_clerk (w_clients w c)) = srvs;
  wi_call : forall c ca, cl_call (w_clients w c) = Some ca -> call_inv (w_trace w) ca;
  wi_apart : forall c c' ca ca', cl_call (w_clients w c) = Some ca -> cl_call (w_clients w c') = Some ca' ->
    ca_id ca = ca_id ca' -> c = c';
}.

(** The answers that handlers get from [Submit]. *)
Lemma returned_shape s sid op err rep : 0 <= n ->
  reachable (system_init (sm := kv_machine) n ∅) kv_quiet s -> Returned sid op err rep ∈ history s ->
  (err = ErrWrongLeader /\ rep = None) \/
  (err = OK /\ exists kv, rep = Some (Kvraft.DoOp (Rsm.Command_ op) kv).2).
Proof.
  intros Hn R Hr. destruct (rsm_linearizable kv_machine n ∅ cmd_of s Hn R) as (ops & L & _).
  destruct (lin_errors _ _ _ L _ _ _ _ Hr) as [[-> [r ->]]|[-> ->]]; [right | by left]. split; [done |].
  destruct (lin_result _ _ _ L _ _ _ Hr) as (k & kv & kv' & _ & _ & Hdo).
  exists kv. change (Ok (Kvraft.DoOp (Rsm.Command_ op) kv) = Ok (kv', r)) in Hdo. injection Hdo as ->. done.
Qed.

Lemma attempt_done_ok ck ca sub : wf_clerk ck ->
  (forall s, sub = Some s -> match ca_op ca with CGet _ => is_ok (Kvraft.Get s) | CPut _ => is_ok (Kvraft.Put s) end) ->
  is_ok (attempt_done ck ca sub).
Proof.
  intros Hck Hsub. destruct (nextLeader_wf ck Hck) as (ck' & Hnext & _). unfold attempt_done.
  destruct (ca_op ca) as [key|args].
  - assert (forall ok reply, exists x, getReply ck ok reply = Ok x) as Hg.
    { intros ok reply. unfold getReply. rewrite Hnext. repeat case_decide; by eexists. }
    destruct sub as [s|]; [destruct (Hsub s eq_refl) as [new ->] |]; simpl;
      [destruct (Hg true (decodeGet (ca_get ca) new)) as [[r|? ?] E] | destruct (Hg false (ca_get ca)) as [[r|? ?] E]];
      rewrite ?bool_decide_true by eauto; rewrite E; by eexists.
  - assert (forall ok reply, exists x, putReply ck (ca_resend ca) ok reply = Ok x) as Hg.
    { intros ok reply. unfold putReply. rewrite Hnext. repeat case_decide; by eexists. }
    destruct sub as [s|]; [destruct (Hsub s eq_refl) as [new ->] |]; simpl;
      [destruct (Hg true (decodePut (ca_put ca) new)) as [[r|? ?] E] | destruct (Hg false (ca_put ca)) as [[r|? ?] E]];
      rewrite ?bool_decide_true by eauto; rewrite E; by eexists.
Qed.

(** What an attempt that is over does to a call. *)
Lemma attempt_failed ck ca r : wf_clerk ck -> attempt_done ck ca None = Ok r ->
  exists ck' resend, r = inr (ck', mkCall (ca_id ca) (ca_op ca) resend (ca_get ca) (ca_put ca) None) /\
    wf_clerk ck' /\ servers ck' = servers ck /\ ((exists args, ca_op ca = CPut args) -> resend = true).
Proof.
  intros Hck H. destruct (nextLeader_wf ck Hck) as (ck' & Hnext & Hck' & Hs & _).
  unfold attempt_done in H. destruct (ca_op ca) eqn:Eo; simpl in H.
  - unfold getReply in H. rewrite decide_True in H by (by left). rewrite Hnext in H. simpl in H. injection H as <-.
    exists ck', (ca_resend ca). split_and!; [done.. |]. by intros [? ?].
  - unfold putReply in H. rewrite decide_True in H by (by left). rewrite Hnext in H. simpl in H. injection H as <-.
    by exists ck', true.
Qed.

Lemma attempt_wrong_leader ck ca r : wf_clerk ck -> clean (ca_get ca) ->
  attempt_done ck ca (Some (ErrWrongLeader, Kvraft.RepNil)) = Ok r ->
  exists ck' resend g p, r = inr (ck', mkCall (ca_id ca) (ca_op ca) resend g p None) /\
    wf_clerk ck' /\ servers ck' = servers ck /\ clean g /\ ((exists args, ca_op ca = CPut args) -> resend = true).
Proof.
  intros Hck Hc H. destruct (nextLeader_wf ck Hck) as (ck' & Hnext & Hck' & Hs & _).
  unfold attempt_done in H. destruct (ca_op ca) eqn:Eo; cbn [is_Some] in H; rewrite bool_decide_true in H by eauto; simpl in H.
  - unfold getReply in H. rewrite decide_True in H by (by right). rewrite Hnext in H. simpl in H. injection H as <-.
    eexists ck', (ca_resend ca), _, _. split_and!; [done.. | |]; [| by intros [? ?]].
    by rewrite (decodeGet_clean _ (mkGetReply "" 0 ErrWrongLeader)).
  - unfold putReply in H. rewrite decide_True in H by (by right). rewrite Hnext in H. simpl in H. injection H as <-.
    by eexists ck', true, _, _.
Qed.

Lemma attempt_answered ck ca op kv r : clean (ca_get ca) -> Rsm.Command_ op = req_of (ca_op ca) ->
  attempt_done ck ca (Some (OK, (Kvraft.DoOp (Rsm.Command_ op) kv).2)) = Ok r ->
  (exists res, r = inl res /\ explains (ca_op ca) (Kvraft.DoOp (Rsm.Command_ op) kv).2 res /\
     (res = RPut ErrVersion -> ca_resend ca = false)) \/
  (exists args p, ca_op ca = CPut args /\
     r = inr (ck, mkCall (ca_id ca) (ca_op ca) (ca_resend ca) (ca_get ca) p None) /\
     (Kvraft.DoOp (Rsm.Command_ op) kv).2 = Kvraft.RepPut (mkPutReply ErrNoKey)).
Proof.
  intros Hc Hop H. rewrite Hop in *. unfold attempt_done in H. unfold explains.
  destruct (ca_op ca) as [key|args] eqn:Eo; rewrite bool_decide_true in H by eauto.
  - left. assert (exists reply, (Kvraft.DoOp (req_of (CGet key)) kv).2 = Kvraft.RepGet reply /\
      (gr_Err reply = OK \/ gr_Err reply = ErrNoKey)) as (reply & Er & He).
    { simpl. destruct (kv !! key); eexists; (split; [reflexivity |]); simpl; tauto. }
    rewrite Er in *. simpl in H. rewrite decodeGet_clean in H by (done || by destruct He as [-> | ->]).
    unfold getReply in H. destruct reply as [v ver err]. simpl in He.
    destruct He as [-> | ->]; simpl in H; injection H as <-; eexists; by split_and!.
  - assert (exists e, (Kvraft.DoOp (req_of (CPut args)) kv).2 = Kvraft.RepPut (mkPutReply e) /\
      (e = OK \/ e = ErrVersion \/ e = ErrNoKey)) as (e & Er & He).
    { simpl. destruct (kv !! pa_Key args); case_decide; eexists; (split; [reflexivity |]); tauto. }
    rewrite Er in *. simpl in H. rewrite decodePut_new in H by (by destruct He as [->|[->| ->]]).
    unfold putReply in H. simpl in H. destruct He as [->|[->| ->]]; simpl in H.
    + injection H as <-. left. eexists. split_and!; [done | | done]. exists OK. split; [done | by left].
    + left. destruct (ca_resend ca); simpl in H; injection H as <-; eexists; (split_and!; [done | | done]);
        exists ErrVersion; (split; [done |]); tauto.
    + injection H as <-. right. by exists args, (mkPutReply ErrNoKey).
Qed.

Hypothesis Hn : 0 < n < 2 ^ 63.
Hypothesis Hsrvs : zlen srvs = n.

Lemma world_inv_init w : world_init w -> world_inv w.
Proof.
  intros (Hs & Hc & Ht). split.
  - by apply reach_init.
  - rewrite Ht. destruct Hs as (_ & _ & _ & ->). done.
  - by rewrite Ht.
  - intros c. rewrite Hc. simpl. split; [| done]. unfold wf_clerk. simpl. lia.
  - intros c ca. by rewrite Hc.
  - intros c c' ca ca'. by rewrite Hc.
Qed.

(** More events that are neither of the call nor attempts of it. *)
Lemma call_inv_more t es ca :
  (forall cid o sid i, Sent cid o sid i ∈ es -> cid <> ca_id ca) ->
  (forall cid sid res, CReturn cid sid res ∈ es -> cid <> ca_id ca) ->
  call_inv t ca -> call_inv (es ++ t) ca.
Proof.
  intros Hsent Hret [H1 H2 H3 H4 H5]. split.
  - apply elem_of_app. by right.
  - intros sid res [Hin|Hin]%elem_of_app; [by apply (Hret _ _ _ Hin) | by eapply H2].
  - intros sid Hw. destruct (H3 sid Hw) as [i Hi]. exists i. apply elem_of_app. by right.
  - done.
  - intros Hr Hp o sid i [Hin|Hin]%elem_of_app; [by apply Hsent in Hin |].
    destruct (H5 Hr Hp o sid i Hin) as [?|Hk]; [by left | right].
    eapply no_key_mono; [| exact Hk]. intros e ?. apply elem_of_app. by right.
Qed.

Lemma sys_events_other (es : list KvEvent) cid o sid i sid' res :
  Sent cid o sid i ∉ (Sys <$> es) /\ CReturn cid sid' res ∉ (Sys <$> es).
Proof. split; intros (? & ? & ?)%list_elem_of_fmap; done. Qed.

Lemma ok_trace_returns es t : Forall (fun e => is_invoked e = false) es -> ok_trace t -> ok_trace ((Sys <$> es) ++ t).
Proof.
  intros He Ht. induction He as [|e es He _ IH]; [done |]. simpl. split; [| done]. by destruct e.
Qed.

Lemma world_inv_sys w s' es : world_inv w -> kv_quiet (w_sys w) s' -> history s' = es ++ history (w_sys w) ->
  ok_trace ((Sys <$> es) ++ w_trace w) -> world_inv (mkWorld s' (w_clients w) ((Sys <$> es) ++ w_trace w)).
Proof.
  intros [H1 H2 H3 H4 H5 H6] Hq Hh Hok. split; simpl.
  - by eapply reach_step.
  - by rewrite omap_sys, H2.
  - done.
  - done.
  - intros c ca Hc. apply call_inv_more; [| | by eapply H5].
    + intros cid o sid i Hin. by apply (sys_events_other es cid o sid i 0 (RPut OK)) in Hin.
    + intros cid sid res Hin. by apply (sys_events_other es cid (CGet "") sid 0 sid res) in Hin.
  - done.
Qed.

Lemma world_inv_handle w cid o sid i op s' es : world_inv w ->
  Sent cid o sid i ∈ w_trace w -> Rsm.Command_ op = req_of o -> new_call sid op (w_sys w) ->
  submits i sid op (w_sys w) s' es -> kv_quiet (w_sys w) s' ->
  world_inv (mkWorld s' (w_clients w) ((Sys <$> es) ++ w_trace w)).
Proof.
  intros I Hs Ho Hnew (rf & index & term & l & effs & _ & Hes & Hs') Hq.
  apply world_inv_sys; [done | done | by subst s' | ].
  rewrite Hes, fmap_app, <- (assoc_L (++)).
  apply ok_trace_returns; [by destruct l; repeat constructor |].
  simpl. split; [| apply I]. split; [by exists cid, o, i |].
  intros sid' op' index' l' Hin. eapply Hnew. by apply (in_history w), Hin; apply I.
Qed.

(** Changing one client. *)
Lemma world_inv_client w c cl es : world_inv w ->
  (forall e, e ∈ es -> sys_event e = None) -> ok_trace (es ++ w_trace w) ->
  wf_clerk (cl_clerk cl) /\ servers (cl_clerk cl) = srvs ->
  (forall ca, cl_call cl = Some ca -> call_inv (es ++ w_trace w) ca) ->
  (forall c' ca', c' <> c -> cl_call (w_clients w c') = Some ca' ->
     call_inv (es ++ w_trace w) ca' /\ (forall ca, cl_call cl = Some ca -> ca_id ca <> ca_id ca')) ->
  world_inv (happens es (set_client c cl w)).
Proof.
  intros [H1 H2 H3 H4 H5 H6] Hes Hok Hcl Hca Hoth. split; simpl.
  - done.
  - rewrite <- H2, omap_app. clear Hok Hca Hoth.
    induction es as [|e es IH]; [done |]. simpl. rewrite (Hes e) by apply list_elem_of_here.
    apply IH. intros e' ?. apply Hes. by right.
  - done.
  - intros c'. destruct (decide (c' = c)) as [->|Hne]; [by rewrite fn_lookup_insert |].
    by rewrite fn_lookup_insert_ne by done.
  - intros c' ca. destruct (decide (c' = c)) as [->|Hne]; [rewrite fn_lookup_insert; apply Hca |].
    rewrite fn_lookup_insert_ne by done. intros H. by apply (Hoth c' ca).
  - intros c1 c2 ca1 ca2. destruct (decide (c1 = c)) as [->|N1], (decide (c2 = c)) as [->|N2];
      rewrite ?fn_lookup_insert, ?fn_lookup_insert_ne by done; intros E1 E2 Heq.
    + done.
    + by destruct (Hoth c2 ca2 N2 E2) as [_ Hd]; destruct (Hd ca1 E1).
    + by destruct (Hoth c1 ca1 N1 E1) as [_ Hd]; destruct (Hd ca2 E2).
    + by eapply H6.
Qed.

Lemma world_inv_call w c cid o : world_inv w -> cl_call (w_clients w c) = None ->
  (forall o', CInvoke cid o' ∉ w_trace w) -> cop_in_range o ->
  world_inv (happens [CInvoke cid o] (set_client c
    (mkClient (cl_clerk (w_clients w c)) (Some (mkCall cid o false (mkGetReply "" 0 "") (mkPutReply "") None))) w)).
Proof.
  intros I Hc Hnew Ho.
  assert (Hnosent : forall o' sid i, Sent cid o' sid i ∉ w_trace w)
    by (intros o' sid i Hin; by apply (sent_invoked _ (wi_trace _ I)), Hnew in Hin).
  assert (Hnoret : forall sid res, CReturn cid sid res ∉ w_trace w).
  { intros sid res Hin. destruct (creturn_facts _ (wi_trace _ I) _ _ _ Hin) as (o' & i & ? & ? & Hs & _).
    by apply Hnosent in Hs. }
  apply world_inv_client; [done | | | | |].
  - by intros e ->%list_elem_of_singleton.
  - split; [| apply I]. by split.
  - apply (wi_clerk _ I).
  - intros ca [= <-]. split; simpl.
    + apply list_elem_of_here.
    + intros sid res [?|Hin]%elem_of_cons; [done | by eapply Hnoret].
    + done.
    + done.
    + intros _ _ o' sid i [?|Hin]%elem_of_cons; [done | by apply Hnosent in Hin].
  - intros c' ca' Hne Hca'. pose proof (wi_call _ I c' ca' Hca') as CI. split.
    + apply call_inv_more; [by intros ???? ?%list_elem_of_singleton | by intros ??? ?%list_elem_of_singleton | done].
    + intros ca [= <-] Heq. simpl in Heq. subst. by apply (Hnew (ca_op ca')), CI.
Qed.

Lemma world_inv_send w c ca sid : world_inv w ->
  cl_call (w_clients w c) = Some ca -> ca_wait ca = None -> (forall cid o i, Sent cid o sid i ∉ w_trace w) ->
  world_inv (happens [Sent (ca_id ca) (ca_op ca) sid (leader (cl_clerk (w_clients w c)))] (set_client c
      (mkClient (cl_clerk (w_clients w c))
        (Some (mkCall (ca_id ca) (ca_op ca) (ca_resend ca) (ca_get ca) (ca_put ca) (Some sid)))) w)).
Proof.
  intros I Hc Hw Hnew. pose proof (wi_call _ I c ca Hc) as CI.
  apply world_inv_client; [done | | | | |].
  - by intros e ->%list_elem_of_singleton.
  - split; [| apply I]. split; [apply CI | split; [by apply Hnew | apply CI]].
  - apply (wi_clerk _ I).
  - intros ca' [= <-]. destruct CI as [H1 H2 H3 H4 H5]. split; simpl.
    + by right.
    + intros sid' res [?|Hin]%elem_of_cons; [done | by eapply H2].
    + intros sid' [= <-]. eexists. by left.
    + done.
    + intros Hr Hp o sid' i [[= -> -> ->]|Hin]%elem_of_cons; [by left | right].
      destruct (H5 Hr Hp o sid' i Hin) as [Hs|Hk]; [by rewrite Hw in Hs |].
      eapply no_key_mono; [| exact Hk]. by right.
  - intros c' ca' Hne Hca'.
    assert (ca_id ca <> ca_id ca') as Hd by (intros Heq; apply Hne; symmetry; by eapply (wi_apart _ I)).
    split; [| by intros ca1 [= <-]].
    apply call_inv_more; [| by intros ??? ?%list_elem_of_singleton | by apply (wi_call _ I c')].
    by intros ???? [= -> -> -> ->]%list_elem_of_singleton.
Qed.

(** The call goes around, or returns. *)
Lemma world_inv_loop w c ca ck' resend g p : world_inv w -> cl_call (w_clients w c) = Some ca ->
  wf_clerk ck' /\ servers ck' = srvs -> clean g ->
  (resend = false -> (exists args, ca_op ca = CPut args) ->
     ca_resend ca = false /\ forall sid, ca_wait ca = Some sid -> no_key sid (w_trace w)) ->
  world_inv (set_client c (mkClient ck' (Some (mkCall (ca_id ca) (ca_op ca) resend g p None))) w).
Proof.
  intros I Hc Hck Hg Hr. pose proof (wi_call _ I c ca Hc) as CI.
  apply (world_inv_client w c _ []); [done | | apply I | done | |].
  - by intros e ?%not_elem_of_nil.
  - intros ca' [= <-]. destruct CI as [H1 H2 H3 H4 H5]. split; simpl; [done | done | done | done |].
    intros Hf Hp o sid i Hs. right. destruct (Hr Hf Hp) as [Hf' Hk].
    destruct (H5 Hf' Hp o sid i Hs) as [Hw|?]; [by apply Hk | done].
  - intros c' ca' Hne Hca'. split; [by apply (wi_call _ I c') |].
    intros ca1 [= <-] Heq. apply Hne. symmetry. by eapply (wi_apart _ I).
Qed.

Lemma world_inv_return w c ca sid op rep res : world_inv w -> cl_call (w_clients w c) = Some ca ->
  ca_wait ca = Some sid -> Sys (Returned sid op OK (Some rep)) ∈ w_trace w -> explains (ca_op ca) rep res ->
  (res = RPut ErrVersion -> ca_resend ca = false) ->
  world_inv (happens [CReturn (ca_id ca) sid res] (set_client c (mkClient (cl_clerk (w_clients w c)) None) w)).
Proof.
  intros I Hc Hw Hret He Hres. pose proof (wi_call _ I c ca Hc) as CI.
  apply world_inv_client; [done | | | | done |].
  - by intros e ->%list_elem_of_singleton.
  - split; [| apply I]. destruct CI as [H1 H2 H3 H4 H5]. split; [done |].
    destruct (H3 sid Hw) as [i Hi]. exists (ca_op ca), i, op, rep. split_and!; [done.. |].
    intros Hv o' sid' i' Hs'. subst res.
    assert (exists args, ca_op ca = CPut args) as Hp by (destruct (ca_op ca) as [|args]; [done | by exists args]).
    destruct (H5 (Hres eq_refl) Hp o' sid' i' Hs') as [E|?]; [left; congruence | by right].
  - apply (wi_clerk _ I).
  - intros c' ca' Hne Hca'. split; [| done].
    apply call_inv_more; [by intros ???? ?%list_elem_of_singleton | | by apply (wi_call _ I c')].
    intros cid sid' res' [= -> -> ->]%list_elem_of_singleton Heq. apply Hne. symmetry. by eapply (wi_apart _ I).
Qed.

Lemma world_inv_answer w c ca sid op err rep r : world_inv w -> cl_call (w_clients w c) = Some ca ->
  ca_wait ca = Some sid -> Sys (Returned sid op err rep) ∈ w_trace w ->
  attempt_done (cl_clerk (w_clients w c)) ca (Some (err, default Kvraft.RepNil rep)) = Ok r ->
  world_inv (finish c (cl_clerk (w_clients w c)) ca sid r w).
Proof.
  intros I Hc Hw Hret Hd. pose proof (wi_call _ I c ca Hc) as CI. destruct (wi_clerk _ I c) as [Hck Hs].
  destruct (returned_shape (w_sys w) sid op err rep) as [[-> ->]|[-> [kv ->]]];
    [lia | apply I | by apply (in_history w); [apply I |] | |].
  - destruct (attempt_wrong_leader _ _ _ Hck (ci_clean _ _ CI) Hd) as (ck' & rs & g & p & -> & Hck' & Hs' & Hg & Hr).
    apply world_inv_loop; [done | done | by split; [| congruence] | done |].
    intros -> Hp. by specialize (Hr Hp).
  - assert (Hop : Rsm.Command_ op = req_of (ca_op ca)).
    { destruct (rsm_linearizable kv_machine n ∅ cmd_of (w_sys w)) as (ops & L & _); [lia | apply I |].
      destruct (lin_call _ _ _ L sid op OK (Some (Kvraft.DoOp (Rsm.Command_ op) kv).2)) as (index & l & Hinv).
      { by apply (in_history w); [apply I |]. }
      apply (in_history w) in Hinv; [| apply I].
      destruct (invoked_sent _ (wi_trace _ I) _ _ _ _ Hinv) as (cid & o & i & Hs1 & Ho & _).
      destruct (ci_wait _ _ CI sid Hw) as [i' Hs2].
      by destruct (sent_once _ (wi_trace _ I) _ _ _ _ _ _ _ Hs1 Hs2) as (_ & <- & _). }
    destruct (attempt_answered _ _ _ _ _ (ci_clean _ _ CI) Hop Hd) as [(res & -> & He & Hres)|(args & p & Ea & -> & Er)].
    + by eapply world_inv_return.
    + apply world_inv_loop; [done | done | done | apply CI |].
      intros Hf _. split; [done |]. intros sid' Hw'. rewrite Hw in Hw'. injection Hw' as <-.
      exists op. by rewrite <- Er.
Qed.

Lemma world_inv_reachable w : reachable world_init world_step w -> world_inv w.
Proof.
  induction 1 as [w Hw|w w' _ I Hstep]; [by apply world_inv_init |].
  destruct Hstep as [s' es Hq Hh He|cid o sid i op s' es Hs Ho Hnew Hsub Hq|c cid o Hc Hnew Ho|c ca sid srv Hc Hw Hnew _
    |c ca sid op err rep r Hc Hw Hr Hd|c ca sid r Hc Hw Hd].
  - apply world_inv_sys; [done.. |]. apply ok_trace_returns; [done | apply I].
  - by eapply world_inv_handle.
  - by apply world_inv_call.
  - by apply world_inv_send.
  - by eapply world_inv_answer.
  - destruct (wi_clerk _ I c) as [Hck Hs].
    destruct (attempt_failed _ _ _ Hck Hd) as (ck' & rs & -> & Hck' & Hs' & Hr).
    apply world_inv_loop; [done | done | by split; [| congruence] | by apply (wi_call _ I c ca) |].
    intros -> Hp. by specialize (Hr Hp).
Qed.

End World.

(** ** One order of the calls *)

(** The registers after the first [k] operations of a log. *)
Definition kv_at (ops : list KvOp) (k : nat) : kv_map :=
  foldl (fun kv op => (Kvraft.DoOp (Rsm.Command_ op) kv).1) ∅ (take k ops).

(** The [k]-th operation is a put that changes its register. *)
Definition effective (ops : list KvOp) (k : nat) (args : PutArgs) : Prop :=
  exists op, ops !! k = Some op /\ Rsm.Command_ op = Kvraft.ReqPut args /\
    version_of (kv_at ops k) (pa_Key args) = pa_Version args.

(** Call [c] takes place at the [k]-th operation: one of its attempts is
    there, which changed the register, or whose answer the call returned.
    ([ErrMaybe] leaves open which attempt it was.) *)
Definition point (t : list event) (ops : list KvOp) (c k : nat) : Prop :=
  exists o sid i op index l,
    Sent c o sid i ∈ t /\ Sys (Invoked sid op index l) ∈ t /\ ops !! k = Some op /\
    ((exists args, effective ops k args) \/ (exists res, CReturn c sid res ∈ t /\ res <> RPut ErrMaybe)).

(** A call that returned [ErrMaybe] because the version it named was still
    ahead of the register when its last attempt ran. *)
Definition ahead (t : list event) (ops : list KvOp) (c : nat) : Prop :=
  exists sid op args p, CReturn c sid (RPut ErrMaybe) ∈ t /\ CInvoke c (CPut args) ∈ t /\
    Rsm.Command_ op = Kvraft.ReqPut args /\ ops !! p = Some op /\
    version_of (kv_at ops p) (pa_Key args) < pa_Version args.

Record clients_linearized (t : list event) (ops : list KvOp) : Prop := mkClientsLin {
  cl_once : forall c k k', point t ops c k -> point t ops c k' -> k = k';
  cl_apart : forall c c' k, point t ops c k -> point t ops c' k -> c = c';
  cl_changes : forall k args, effective ops k args -> exists c, point t ops c k /\ CInvoke c (CPut args) ∈ t;
  cl_get : forall c sid r, CReturn c sid (RGet r) ∈ t -> exists key k,
    CInvoke c (CGet key) ∈ t /\ point t ops c k /\ r = KvsrvClerk.get_result (kv_at ops k) key;
  cl_put : forall c sid err, CReturn c sid (RPut err) ∈ t -> exists args,
    CInvoke c (CPut args) ∈ t /\
    (err = ErrMaybe \/ exists k, point t ops c k /\
       (err = OK /\ effective ops k args \/
        err = ErrVersion /\ kv_at ops (S k) = kv_at ops k /\
          version_of (kv_at ops k) (pa_Key args) <> pa_Version args));
  cl_order : forall t1 t2 a sid res b o ka kb,
    t = t2 ++ CInvoke b o :: t1 -> CReturn a sid res ∈ t1 ->
    point t ops a ka -> point t ops b kb -> (ka < kb)%nat \/ res = RPut ErrMaybe /\ ahead t ops a;
}.

Section Order.
Context (ops : list KvOp).
Context (Hrange : forall op args, op ∈ ops -> Rsm.Command_ op = Kvraft.ReqPut args -> 0 <= pa_Version args < 2 ^ 64 - 1).

Lemma kv_at_S k op : ops !! k = Some op -> kv_at ops (S k) = (Kvraft.DoOp (Rsm.Command_ op) (kv_at ops k)).1.
Proof. intros H. unfold kv_at. rewrite (take_S_r _ _ _ H), foldl_app. done. Qed.

Lemma kv_at_past k : ops !! k = None -> kv_at ops (S k) = kv_at ops k.
Proof. intros H%lookup_ge_None. unfold kv_at. rewrite !take_ge by lia. done. Qed.

Lemma version_step k key : version_of (kv_at ops k) key <= version_of (kv_at ops (S k)) key.
Proof.
  destruct (ops !! k) as [op|] eqn:E; [| by rewrite kv_at_past].
  rewrite (kv_at_S _ _ E). destruct (Rsm.Command_ op) as [args|args|] eqn:Ec.
  - simpl. by destruct (kv_at ops k !! ga_Key args).
  - rewrite DoOp_Put. apply (apply_op_version (svc := kvsrv_service) (OPut args)).
    eapply Hrange; [| exact Ec]. by eapply list_elem_of_lookup_2.
  - done.
Qed.

Lemma version_mono j k key : (j <= k)%nat -> version_of (kv_at ops j) key <= version_of (kv_at ops k) key.
Proof. induction 1 as [|k _ IH]; [done |]. pose proof (version_step k key). lia. Qed.

Lemma effective_step k args : effective ops k args ->
  version_of (kv_at ops (S k)) (pa_Key args) = pa_Version args + 1.
Proof.
  intros (op & Hk & Hc & Hv). rewrite (kv_at_S _ _ Hk), Hc, DoOp_Put.
  assert (0 <= pa_Version args < 2 ^ 64 - 1) as Hr by (eapply Hrange; [by eapply list_elem_of_lookup_2 | done]).
  pose proof (put_version (svc := kvsrv_service) args (kv_at ops k) (pa_Key args) Hr) as H. simpl in H.
  simpl. rewrite H, decide_True; [lia |]. split; [done |].
  by apply (put_ok_version (svc := kvsrv_service)).
Qed.

Lemma effective_once k k' args : effective ops k args -> effective ops k' args -> k = k'.
Proof.
  intros H H'. pose proof (effective_step _ _ H) as E. pose proof (effective_step _ _ H') as E'.
  destruct H as (_ & _ & _ & V), H' as (_ & _ & _ & V').
  destruct (Nat.lt_trichotomy k k') as [Hlt|[?|Hlt]]; [| done |]; exfalso.
  - pose proof (version_mono (S k) k' (pa_Key args) Hlt). lia.
  - pose proof (version_mono (S k') k (pa_Key args) Hlt). lia.
Qed.

(** The answers of the operations, by their effect. *)
Lemma put_answer_at k args : let r := (Kvraft.DoOp (Kvraft.ReqPut args) (kv_at ops k)).2 in
  (r = Kvraft.RepPut (mkPutReply OK) <-> version_of (kv_at ops k) (pa_Key args) = pa_Version args) /\
  (r <> Kvraft.RepPut (mkPutReply OK) -> (Kvraft.DoOp (Kvraft.ReqPut args) (kv_at ops k)).1 = kv_at ops k).
Proof.
  rewrite DoOp_Put. cbn [fst snd].
  pose proof (Put_spec args (kv_at ops k)) as (_ & He & _).
  pose proof (put_ok_version (svc := kvsrv_service) args (kv_at ops k)) as Hv.
  change (svc_put args (kv_at ops k)) with (Kvsrv.Put args (kv_at ops k)) in Hv.
  split.
  - rewrite <- Hv. destruct (Kvsrv.Put args (kv_at ops k)).2 as [e]. simpl. split; congruence.
  - intros Hr. unfold Kvsrv.Put in *. destruct (kv_at ops k !! pa_Key args) as [v|]; case_decide; try done;
      by destruct Hr.
Qed.
End Order.

Section Linear.
Context `{!Codec kv_map} `{!Codec (RaftState KvOp)}.
Context (n : Z) (cmd_of : Z -> Kvraft.Req) (srvs : list string) (w : World) (ops : list KvOp).
Context (I : world_inv n cmd_of srvs w).
Context (L : linearized (sm := kv_machine) ∅ (history (w_sys w)) ops).
Notation t := (w_trace w).

Lemma run_kv l kv : RsmCluster.run (sm := kv_machine) kv l =
  Ok (foldl (fun kv op => (Kvraft.DoOp (Rsm.Command_ op) kv).1) kv l).
Proof. revert kv. induction l as [|op l IH]; intros kv; [done |]. simpl. by rewrite <- IH. Qed.

Lemma place_once k k' op : ops !! k = Some op -> ops !! k' = Some op -> k = k'.
Proof.
  intros H H'. pose proof (lin_once _ _ _ L) as Hnd. rewrite NoDup_alt in Hnd.
  apply (Hnd k k' (Id_ op)); by rewrite list_lookup_fmap, ?H, ?H'.
Qed.

Lemma op_sent op : op ∈ ops -> exists c o sid i index l, Sent c o sid i ∈ t /\
  Sys (Invoked sid op index l) ∈ t /\ Rsm.Command_ op = req_of o /\ CInvoke c o ∈ t.
Proof.
  intros H. destruct (lin_invoked _ _ _ L op H) as (sid & index & Hi).
  apply (in_history w) in Hi; [| apply I].
  destruct (invoked_sent _ (wi_trace _ _ _ _ I) _ _ _ _ Hi) as (c & o & i & Hs & Ho & Hc).
  by exists c, o, sid, i, index, true.
Qed.

Lemma ops_in_range op args : op ∈ ops -> Rsm.Command_ op = Kvraft.ReqPut args -> 0 <= pa_Version args < 2 ^ 64 - 1.
Proof.
  intros H Ha. destruct (op_sent op H) as (c & o & sid & i & index & l & _ & _ & Ho & Hc).
  destruct (ok_trace_in _ _ (wi_trace _ _ _ _ I) Hc) as (t2 & t1 & _ & Hr & _).
  rewrite Ha in Ho. destruct o; [done |]. by injection Ho as ->.
Qed.

Lemma answer_place sid op r : Sys (Returned sid op OK (Some r)) ∈ t ->
  exists k, ops !! k = Some op /\ r = (Kvraft.DoOp (Rsm.Command_ op) (kv_at ops k)).2.
Proof.
  intros H. apply (in_history w) in H; [| apply I].
  destruct (lin_result _ _ _ L _ _ _ H) as (k & kv & kv' & Hk & Hrun & Hdo). exists k. split; [done |].
  rewrite run_kv in Hrun. change (Ok (kv_at ops k) = Ok kv) in Hrun. injection Hrun as Hrun. subst kv.
  change (Ok (Kvraft.DoOp (Rsm.Command_ op) (kv_at ops k)) = Ok (kv', r)) in Hdo. injection Hdo as ->. done.
Qed.

(** The answer to an attempt belongs to the operation it was sent with. *)
Lemma answer_of c o sid i op err rep : Sent c o sid i ∈ t -> Sys (Returned sid op err rep) ∈ t ->
  exists index l, Sys (Invoked sid op index l) ∈ t /\ Rsm.Command_ op = req_of o.
Proof.
  intros Hs Hr. apply (in_history w) in Hr; [| apply I].
  destruct (lin_call _ _ _ L _ _ _ _ Hr) as (index & l & Hi). apply (in_history w) in Hi; [| apply I].
  destruct (invoked_sent _ (wi_trace _ _ _ _ I) _ _ _ _ Hi) as (c' & o' & i' & Hs' & Ho & _).
  destruct (sent_once _ (wi_trace _ _ _ _ I) _ _ _ _ _ _ _ Hs Hs') as (_ & -> & _). by exists index, l.
Qed.

(** A returned call and the operation its answer came from. *)
Lemma return_place c sid res : CReturn c sid res ∈ t -> exists o i op index l k,
  Sent c o sid i ∈ t /\ Sys (Invoked sid op index l) ∈ t /\ Rsm.Command_ op = req_of o /\
  Sys (Returned sid op OK (Some (Kvraft.DoOp (req_of o) (kv_at ops k)).2)) ∈ t /\ ops !! k = Some op /\
  explains o (Kvraft.DoOp (req_of o) (kv_at ops k)).2 res /\
  (res = RPut ErrVersion -> forall o' sid' i', Sent c o' sid' i' ∈ t -> sid' = sid \/ no_key sid' t).
Proof.
  intros H. destruct (creturn_facts _ (wi_trace _ _ _ _ I) _ _ _ H) as (o & i & op & rep & Hs & Hr & He & Hv).
  destruct (answer_of _ _ _ _ _ _ _ Hs Hr) as (index & l & Hi & Ho).
  destruct (answer_place _ _ _ Hr) as (k & Hk & ->). rewrite Ho in *.
  by exists o, i, op, index, l, k.
Qed.

Lemma return_point c sid res : CReturn c sid res ∈ t -> res <> RPut ErrMaybe -> exists o op k,
  point t ops c k /\ CInvoke c o ∈ t /\ ops !! k = Some op /\ Rsm.Command_ op = req_of o /\
  explains o (Kvraft.DoOp (req_of o) (kv_at ops k)).2 res.
Proof.
  intros H Hres. destruct (return_place _ _ _ H) as (o & i & op & index & l & k & Hs & Hi & Ho & _ & Hk & He & _).
  exists o, op, k. split_and!; [| by eapply sent_invoked; [apply I |] | done..].
  exists o, sid, i, op, index, l. split_and!; [done.. | right; by exists res].
Qed.

(** An effective attempt is answered [OK]. *)
Lemma effective_answer k args op : effective ops k args -> ops !! k = Some op ->
  (Kvraft.DoOp (Rsm.Command_ op) (kv_at ops k)).2 = Kvraft.RepPut (mkPutReply OK) /\ Rsm.Command_ op = Kvraft.ReqPut args.
Proof.
  intros (op' & Hk & Hc & Hv) Hk'. rewrite Hk in Hk'. injection Hk' as <-. rewrite Hc. split; [| done].
  by apply (put_answer_at ops k args).
Qed.

Lemma effective_not_returned c sid res k k' args op op' o i i' index l sid' :
  Sent c o sid' i' ∈ t -> Sys (Invoked sid' op index l) ∈ t -> ops !! k = Some op -> effective ops k args ->
  CReturn c sid res ∈ t -> res <> RPut ErrMaybe -> Sent c o sid i ∈ t ->
  ops !! k' = Some op' -> Rsm.Command_ op' = req_of o -> Sys (Returned sid op' OK (Some (Kvraft.DoOp (req_of o) (kv_at ops k')).2)) ∈ t ->
  k = k'.
Proof.
  intros Hs' Hi Hk He Hret Hres Hs Hk' Ho' Hr.
  destruct (effective_answer _ _ _ He Hk) as [Ha Hc].
  destruct (invoked_sent _ (wi_trace _ _ _ _ I) _ _ _ _ Hi) as (c1 & o1 & i1 & Hs1 & Ho & _).
  destruct (sent_once _ (wi_trace _ _ _ _ I) _ _ _ _ _ _ _ Hs' Hs1) as (_ & <- & _). clear Hs1.
  assert (o = CPut args) as -> by (rewrite Hc in Ho; destruct o; [done | by injection Ho as ->]).
  destruct (return_place _ _ _ Hret) as (o2 & i2 & op2 & ? & ? & k2 & Hs2 & _ & Ho2 & Hr2 & Hk2 & Hex & Hnk).
  destruct (sent_once _ (wi_trace _ _ _ _ I) _ _ _ _ _ _ _ Hs Hs2) as (_ & <- & _).
  assert (op2 = op' /\ k2 = k') as [-> ->].
  { destruct (answer_of _ _ _ _ _ _ _ Hs2 Hr2) as (? & ? & X2 & _).
    destruct (answer_of _ _ _ _ _ _ _ Hs Hr) as (? & ? & X1 & _).
    assert (op2 = op') as -> by (by eapply (invoked_sid _ (wi_trace _ _ _ _ I))).
    split; [done | by eapply place_once]. }
  destruct res as [r|err]; simpl in Hex; [done |]. destruct Hex as (e & Erep & Hcase).
  destruct Hcase as [[-> ->]|[[-> ->]|[-> _]]]; [| | done].
  - apply (effective_once ops ops_in_range k k' args); [done |].
    exists op'. split_and!; [done.. |]. by apply (put_answer_at ops k' args).
  - destruct (Hnk eq_refl _ _ _ Hs') as [->|[op3 Hop3]].
    + destruct (answer_of _ _ _ _ _ _ _ Hs Hr) as (? & ? & X1 & _).
      assert (op = op') as -> by (by eapply (invoked_sid _ (wi_trace _ _ _ _ I))). by eapply place_once.
    + exfalso. destruct (answer_of _ _ _ _ _ _ _ Hs' Hop3) as (? & ? & X1 & _).
      assert (op3 = op) as -> by (by eapply (invoked_sid _ (wi_trace _ _ _ _ I))).
      destruct (answer_place _ _ _ Hop3) as (k3 & Hk3 & E3).
      assert (k3 = k) as -> by (by eapply place_once). rewrite Ha in E3. done.
Qed.

Lemma point_once c k k' : point t ops c k -> point t ops c k' -> k = k'.
Proof.
  intros (o & sid & i & op & x & l & Hs & Hi & Hk & He) (o' & sid' & i' & op' & x' & l' & Hs' & Hi' & Hk' & He').
  assert (o' = o) as ->.
  { eapply (invoke_once _ (wi_trace _ _ _ _ I) c); by eapply sent_invoked; [apply I |]. }
  assert (Hreq : forall sid i op x l, Sent c o sid i ∈ t -> Sys (Invoked sid op x l) ∈ t -> Rsm.Command_ op = req_of o).
  { intros sid1 i1 op1 x1 l1 H1 H2. destruct (invoked_sent _ (wi_trace _ _ _ _ I) _ _ _ _ H2) as (? & ? & ? & H3 & Ho & _).
    by destruct (sent_once _ (wi_trace _ _ _ _ I) _ _ _ _ _ _ _ H1 H3) as (_ & <- & _). }
  assert (Hret : forall sid res k op i x l, Sent c o sid i ∈ t -> Sys (Invoked sid op x l) ∈ t -> ops !! k = Some op ->
    CReturn c sid res ∈ t -> Sys (Returned sid op OK (Some (Kvraft.DoOp (req_of o) (kv_at ops k)).2)) ∈ t).
  { intros sid1 res1 k1 op1 i1 x1 l1 H1 H2 H3 H4.
    destruct (return_place _ _ _ H4) as (o2 & i2 & op2 & ? & ? & k2 & Hs2 & Hi2 & _ & Hr2 & Hk2 & _).
    destruct (sent_once _ (wi_trace _ _ _ _ I) _ _ _ _ _ _ _ H1 Hs2) as (_ & <- & _).
    assert (op2 = op1) as -> by (by eapply (invoked_sid _ (wi_trace _ _ _ _ I))).
    by rewrite (place_once _ _ _ H3 Hk2). }
  destruct He as [[args He]|(res & Hr & Hm)], He' as [[args' He']|(res' & Hr' & Hm')].
  - assert (args = args') as <-.
    { destruct (effective_answer _ _ _ He Hk) as [_ E1], (effective_answer _ _ _ He' Hk') as [_ E2].
      rewrite (Hreq _ _ _ _ _ Hs Hi) in E1. rewrite (Hreq _ _ _ _ _ Hs' Hi') in E2. congruence. }
    by eapply (effective_once ops ops_in_range).
  - exact (effective_not_returned _ _ _ _ _ _ _ _ _ _ _ _ _ _ Hs Hi Hk He Hr' Hm' Hs' Hk'
      (Hreq _ _ _ _ _ Hs' Hi') (Hret _ _ _ _ _ _ _ Hs' Hi' Hk' Hr')).
  - symmetry. exact (effective_not_returned _ _ _ _ _ _ _ _ _ _ _ _ _ _ Hs' Hi' Hk' He' Hr Hm Hs Hk
      (Hreq _ _ _ _ _ Hs Hi) (Hret _ _ _ _ _ _ _ Hs Hi Hk Hr)).
  - destruct (return_once _ (wi_trace _ _ _ _ I) _ _ _ _ _ Hr Hr') as [<- _].
    assert (op = op') as -> by (by eapply (invoked_sid _ (wi_trace _ _ _ _ I))). by eapply place_once.
Qed.

(** What a call returned comes before every attempt at a later call. *)
Lemma attempt_after t1 t2 a sid res b o oB sidB iB opB x l kb :
  t = t2 ++ CInvoke b o :: t1 -> CReturn a sid res ∈ t1 ->
  Sent b oB sidB iB ∈ t -> Sys (Invoked sidB opB x l) ∈ t -> ops !! kb = Some opB ->
  exists oa ia opA xa la p, Sent a oa sid ia ∈ t /\ Sys (Invoked sid opA xa la) ∈ t /\
    Rsm.Command_ opA = req_of oa /\ ops !! p = Some opA /\
    explains oa (Kvraft.DoOp (req_of oa) (kv_at ops p)).2 res /\ (p < kb)%nat.
Proof.
  intros Ht Hret HsB HiB HkB.
  assert (Hsub : forall e, e ∈ t1 -> e ∈ t) by (intros e ?; rewrite Ht; apply elem_of_app; right; by right).
  pose proof (wi_trace _ _ _ _ I) as Hok. rewrite Ht in Hok. pose proof (ok_trace_split _ _ _ Hok) as [_ Hb].
  assert (Hok1 : ok_trace t1) by (clear -Hok; induction t2 as [|? ? IH]; [apply Hok | apply IH, Hok]).
  destruct (creturn_facts _ Hok1 _ _ _ Hret) as (oa & ia & opA & repA & Hs1 & Hr1 & _).
  destruct (return_place a sid res (Hsub _ Hret)) as (oa' & ia' & opA' & xa & la & p & HsA & HiA & HoA & HrA & HkA & HeA & _).
  (* the attempts of [b] come after its call *)
  assert (exists t3 t4, t2 = t3 ++ Sys (Invoked sidB opB x l) :: t4) as (t3 & t4 & Ht2).
  { rewrite Ht in HiB. apply elem_of_app in HiB as [HiB|[?|HiB]%elem_of_cons]; [by apply list_elem_of_split | done |].
    exfalso. destruct (invoked_sent _ Hok1 _ _ _ _ HiB) as (c' & o' & i' & Hs' & _ & Hc').
    destruct (sent_once _ (wi_trace _ _ _ _ I) _ _ _ _ _ _ _ HsB (Hsub _ Hs')) as (<- & _). by eapply Hb. }
  assert (opA' = opA) as ->.
  { destruct (answer_of _ _ _ _ _ _ _ (Hsub _ Hs1) (Hsub _ Hr1)) as (? & ? & X & _).
    by eapply (invoked_sid _ (wi_trace _ _ _ _ I)). }
  exists oa', ia', opA, xa, la, p. split_and!; [done.. |].
  eapply (lin_order _ _ _ L (omap sys_event (t4 ++ CInvoke b o :: t1)) (omap sys_event t3) sid opA (Some repA) sidB opB x l);
    [| | exact HkA | exact HkB].
  - rewrite <- (wi_history _ _ _ _ I), Ht, Ht2, <- (assoc_L (++)), omap_app. done.
  - apply list_elem_of_omap. exists (Sys (Returned sid opA OK (Some repA))). split; [| reflexivity].
    apply elem_of_app. right. right. exact Hr1.
Qed.

(** A call that returned before another was made comes first. *)
Lemma point_order t1 t2 a sid res b o ka kb :
  t = t2 ++ CInvoke b o :: t1 -> CReturn a sid res ∈ t1 -> point t ops a ka -> point t ops b kb ->
  (ka < kb)%nat \/ res = RPut ErrMaybe /\ ahead t ops a.
Proof.
  intros Ht Hret Ha (ob & sidB & ib & opB & x & l & HsB & HiB & HkB & _).
  assert (Hsub : forall e, e ∈ t1 -> e ∈ t) by (intros e ?; rewrite Ht; apply elem_of_app; right; by right).
  destruct (attempt_after _ _ _ _ _ _ _ _ _ _ _ _ _ _ Ht Hret HsB HiB HkB)
    as (oa' & ia' & opA & xa & la & p & HsA & HiA & HoA & HkA & HeA & Hlt).
  destruct (decide (ka < kb)%nat) as [?|Hge]; [by left | right].
  assert (Hne : ka <> p) by lia.
  assert (res = RPut ErrMaybe) as ->.
  { destruct (decide (res = RPut ErrMaybe)) as [?|Hm]; [done |]. exfalso. apply Hne.
    apply (point_once a); [done |]. exists oa', sid, ia', opA, xa, la. split_and!; [done.. |].
    right. exists res. split; [by apply Hsub | done]. }
  split; [done |].
  destruct Ha as (o2 & sid2 & i2 & op2 & x2 & l2 & Hs2 & Hi2 & Hk2 & [[args He]|(res2 & Hr2 & Hm)]).
  2: { exfalso. apply Hm. by destruct (return_once _ (wi_trace _ _ _ _ I) _ _ _ _ _ (Hsub _ Hret) Hr2) as [_ <-]. }
  assert (o2 = oa') as ->
    by (eapply (invoke_once _ (wi_trace _ _ _ _ I) a); by eapply sent_invoked; [apply I |]).
  destruct (effective_answer _ _ _ He Hk2) as [_ Hc2].
  destruct (invoked_sent _ (wi_trace _ _ _ _ I) _ _ _ _ Hi2) as (? & ? & ? & Hs3 & Ho3 & _).
  destruct (sent_once _ (wi_trace _ _ _ _ I) _ _ _ _ _ _ _ Hs2 Hs3) as (_ & <- & _). clear Hs3.
  assert (oa' = CPut args) as -> by (rewrite Hc2 in Ho3; destruct oa'; [done | by injection Ho3 as ->]).
  exists sid, opA, args, p. split_and!; [by apply Hsub | by eapply sent_invoked; [apply I |] | done | done |].
  destruct HeA as (e & Erep & HeA).
  assert (version_of (kv_at ops p) (pa_Key args) <> pa_Version args) as Hv.
  { intros Hv. apply (put_answer_at ops p args) in Hv. change (req_of (CPut args)) with (Kvraft.ReqPut args) in Erep.
    rewrite Erep in Hv. injection Hv as ->. by destruct HeA as [[? _]|[[? _]|[_ ?]]]. }
  destruct He as (_ & _ & _ & Hva).
  destruct (decide (p <= ka)%nat) as [Hle|Hgt]; [| lia].
  pose proof (version_mono ops ops_in_range p ka (pa_Key args) Hle). lia.
Qed.

Lemma clients_linearized_by_log : clients_linearized t ops.
Proof.
  split.
  - apply point_once.
  - intros c c' k (o & sid & i & op & x & l & Hs & Hi & Hk & _) (o' & sid' & i' & op' & x' & l' & Hs' & Hi' & Hk' & _).
    assert (op' = op) as -> by congruence.
    assert (sid = sid') as <- by (by eapply (invoked_op _ (wi_trace _ _ _ _ I))).
    by destruct (sent_once _ (wi_trace _ _ _ _ I) _ _ _ _ _ _ _ Hs Hs').
  - intros k args He. destruct He as (op & Hk & Hc & Hv).
    destruct (op_sent op) as (c & o & sid & i & x & l & Hs & Hi & Ho & Hci); [by eapply list_elem_of_lookup_2 |].
    exists c. split.
    + exists o, sid, i, op, x, l. split_and!; [done.. |]. left. by exists args, op.
    + rewrite Hc in Ho. destruct o; [done |]. by injection Ho as ->.
  - intros c sid r Hr. destruct (return_point _ _ _ Hr) as (o & op & k & Hp & Hc & Hk & Ho & He); [done |].
    destruct o as [key|args], r as [[v ver] err]; [| done]. exists key, k. split_and!; [done.. |].
    simpl in He. unfold KvsrvClerk.get_result. simpl in *.
    destruct (kv_at ops k !! key); simpl in *; by injection He as <- <- <-.
  - intros c sid err Hr. destruct (decide (RPut err = RPut ErrMaybe)) as [[= ->]|Hne].
    { destruct (return_place _ _ _ Hr) as (o & i & op & x & l & k & Hs & _ & _ & _ & _ & He & _).
      destruct o as [|args]; [done |]. exists args. split; [by eapply sent_invoked; [apply I |] | by left]. }
    destruct (return_point _ _ _ Hr Hne) as (o & op & k & Hp & Hc & Hk & Ho & He).
    destruct o as [|args]; [done |]. exists args. split; [done |]. right. exists k. split; [done |].
    destruct He as (e & Erep & He). change (req_of (CPut args)) with (Kvraft.ReqPut args) in *.
    destruct (put_answer_at ops k args) as [Hok Hsame].
    destruct He as [[-> ->]|[[-> ->]|[-> _]]]; [left | right | done].
    + split; [done |]. exists op. split_and!; [done | done |]. by apply Hok.
    + split; [done |]. assert ((Kvraft.DoOp (Kvraft.ReqPut args) (kv_at ops k)).2 <> Kvraft.RepPut (mkPutReply OK)) as Hno
        by (by rewrite Erep).
      split; [by rewrite (kv_at_S _ _ _ Hk), Ho; apply Hsame |]. intros Hv. by apply Hno, Hok.
  - intros t1 t2 a sid res b o ka kb. apply point_order.
Qed.

End Linear.

(** ** Executions as lists of labels *)
Section Run.
Context `{!Codec kv_map} `{!Codec (RaftState KvOp)}.
Variables (n : Z) (cmd_of : Z -> Kvraft.Req) (srvs : list string).

Inductive WLabel :=
| WServe (l : SLabel (Req := Kvraft.Req))
| WHandle (sid : nat) (id : Z)      (* request [sid] arrives and draws [id] *)
| WCall (c cid : nat) (o : COp)
| WSend (c sid : nat)
| WAnswer (c : nat)
| WFail (c : nat).

Fixpoint find_sent (sid : nat) (t : list event) : option (nat * COp * Z) :=
  match t with
  | [] => None
  | Sent cid o sid' i :: t => if decide (sid' = sid) then Some (cid, o, i) else find_sent sid t
  | _ :: t => find_sent sid t
  end.

Fixpoint find_returned (sid : nat) (t : list event) : option (KvOp * Err * option Kvraft.Rep) :=
  match t with
  | [] => None
  | Sys (Returned sid' op err rep) :: t => if decide (sid' = sid) then Some (op, err, rep) else find_returned sid t
  | _ :: t => find_returned sid t
  end.

Definition invokes (cid : nat) (e : event) : bool :=
  match e with CInvoke cid' _ => Nat.eqb cid' cid | _ => false end.

Definition in_range (o : COp) : bool :=
  match o with CGet _ => true | CPut args => (0 <=? pa_Version args) && (pa_Version args <? 2 ^ 64 - 1) end.

(** A step of the service, with what it records. *)
Definition serve (l : SLabel) (s : KvSystem) : option (KvSystem * list KvEvent) :=
  s' ← sys_label (sm := kv_machine) n ∅ cmd_of l s;
  let es := take (length (history s') - length (history s)) (history s') in
  if rc_check n (cluster s) (cluster s') && bool_decide (history s' = es ++ history s) then Some (s', es) else None.

Definition world_label (l : WLabel) (w : World) : option World :=
  match l with
  | WServe l =>
      '(s', es) ← serve l (w_sys w);
      if forallb (fun e => negb (is_invoked e)) es
      then Some (mkWorld s' (w_clients w) ((Sys <$> es) ++ w_trace w)) else None
  | WHandle sid id =>
      '(cid, o, i) ← find_sent sid (w_trace w);
      '(s', es) ← serve (SSubmit i sid (req_of o) id) (w_sys w);
      Some (mkWorld s' (w_clients w) ((Sys <$> es) ++ w_trace w))
  | WCall c cid o =>
      match cl_call (w_clients w c) with
      | Some _ => None
      | None =>
          if negb (existsb (invokes cid) (w_trace w)) && in_range o then
            Some (happens [CInvoke cid o] (set_client c
              (mkClient (cl_clerk (w_clients w c)) (Some (mkCall cid o false (mkGetReply "" 0 "") (mkPutReply "") None))) w))
          else None
      end
  | WSend c sid =>
      ca ← cl_call (w_clients w c);
      match ca_wait ca, find_sent sid (w_trace w),
        slice_get (servers (cl_clerk (w_clients w c))) (leader (cl_clerk (w_clients w c))) with
      | None, None, Ok _ =>
          Some (happens [Sent (ca_id ca) (ca_op ca) sid (leader (cl_clerk (w_clients w c)))] (set_client c
            (mkClient (cl_clerk (w_clients w c))
              (Some (mkCall (ca_id ca) (ca_op ca) (ca_resend ca) (ca_get ca) (ca_put ca) (Some sid)))) w))
      | _, _, _ => None
      end
  | WAnswer c =>
      ca ← cl_call (w_clients w c);
      sid ← ca_wait ca;
      '(op, err, rep) ← find_returned sid (w_trace w);
      r ← ok (attempt_done (cl_clerk (w_clients w c)) ca (Some (err, default Kvraft.RepNil rep)));
      Some (finish c (cl_clerk (w_clients w c)) ca sid r w)
  | WFail c =>
      ca ← cl_call (w_clients w c);
      sid ← ca_wait ca;
      r ← ok (attempt_done (cl_clerk (w_clients w c)) ca None);
      Some (finish c (cl_clerk (w_clients w c)) ca sid r w)
  end.

Lemma find_sent_Some sid t cid o i : find_sent sid t = Some (cid, o, i) -> Sent cid o sid i ∈ t.
Proof.
  induction t as [|[| |cid' o' sid' i'|] t IH]; simpl; intros H; try done; try (by right; apply IH).
  case_decide as E; [| by right; apply IH]. injection H as <- <- <-. rewrite E. by left.
Qed.

Lemma find_sent_None sid t : find_sent sid t = None -> forall cid o i, Sent cid o sid i ∉ t.
Proof.
  induction t as [|e t IH]; intros H cid o i Hin; [by apply not_elem_of_nil in Hin |].
  apply elem_of_cons in Hin as [<-|Hin]; simpl in H.
  - by rewrite decide_True in H.
  - destruct e; try (by eapply IH). case_decide; [done | by eapply IH].
Qed.

Lemma find_returned_Some sid t op err rep : find_returned sid t = Some (op, err, rep) ->
  Sys (Returned sid op err rep) ∈ t.
Proof.
  induction t as [|[[|sid' op' err' rep']| | |] t IH]; simpl; intros H; try done; try (by right; apply IH).
  case_decide as E; [| by right; apply IH]. injection H as <- <- <-. rewrite E. by left.
Qed.

Lemma serve_sound l s s' es : serve l s = Some (s', es) ->
  sys_label (sm := kv_machine) n ∅ cmd_of l s = Some s' /\ kv_quiet n cmd_of s s' /\ history s' = es ++ history s.
Proof.
  intros H. apply bind_Some in H as (s1 & Hl & H).
  destruct (rc_check n (cluster s) (cluster s1)) eqn:Hc; [| done]. simpl in H.
  case_bool_decide as Hh; [| done]. injection H as <- <-. split_and!; [done | | done].
  destruct (rc_check_conditions _ _ _ Hc). split_and!; [by eapply sys_label_sound | done..].
Qed.

Lemma submit_sound i sid req id s s' es :
  sys_label (sm := kv_machine) n ∅ cmd_of (SSubmit i sid req id) s = Some s' -> history s' = es ++ history s ->
  new_call sid (mkOp req id) s /\ submits i sid (mkOp req id) s s' es.
Proof.
  intros H Hh. unfold sys_label in H.
  apply bind_Some in H as (Hi & _ & H). apply bind_Some in H as (Hu & _ & H). apply bind_Some in H as (Hg & _ & H).
  split; [by apply unused_sound |].
  destruct (Start _ _) as [[rf [[index term] is_leader]] effs] eqn:E. injection H as <-.
  exists rf, index, term, is_leader, effs. split; [done |].
  cbn [history record set_rsm set_cluster] in Hh. apply app_inv_tail in Hh. by rewrite <- Hh.
Qed.

Lemma world_label_sound l w w' : world_label l w = Some w' -> world_step n cmd_of w w'.
Proof.
  intros H. destruct l as [l|sid id|c cid o|c sid|c|c]; unfold world_label in H.
  - apply bind_Some in H as ([s' es] & Hs & H). destruct (forallb _ es) eqn:Hf; [| done]. injection H as <-.
    apply serve_sound in Hs as (_ & Hq & Hh). apply ws_service; [done.. |].
    apply list.Forall_forall. intros e He. rewrite forallb_forall in Hf.
    apply list_elem_of_In, Hf in He. by destruct (is_invoked e).
  - apply bind_Some in H as ([[cid o] i] & Hs & H). apply bind_Some in H as ([s' es] & Hv & H). injection H as <-.
    apply serve_sound in Hv as (Hl & Hq & Hh). destruct (submit_sound _ _ _ _ _ _ _ Hl Hh) as [Hnew Hsub].
    eapply (ws_handle n cmd_of w cid o sid i (mkOp (req_of o) id)); try done. by apply find_sent_Some.
  - destruct (cl_call (w_clients w c)) eqn:Ec; [done |].
    destruct (existsb (invokes cid) (w_trace w)) eqn:Ex; [done |]. destruct (in_range o) eqn:Er; [| done].
    injection H as <-. apply ws_call; [done | |].
    + intros o' Hin. apply Bool.not_true_iff_false in Ex. apply Ex, existsb_exists. exists (CInvoke cid o').
      split; [by apply list_elem_of_In | apply Nat.eqb_refl].
    + destruct o; simpl in *; [done |]. apply andb_true_iff in Er as [?%Z.leb_le ?%Z.ltb_lt]. lia.
  - apply bind_Some in H as (ca & Hc & H). destruct (ca_wait ca) eqn:Hw; [done |].
    destruct (find_sent sid (w_trace w)) eqn:Hf; [done |]. destruct (slice_get _ _) as [srv|] eqn:Hs; [| done].
    injection H as <-. eapply ws_send; [done | done | by apply find_sent_None | done].
  - apply bind_Some in H as (ca & Hc & H). apply bind_Some in H as (sid & Hw & H).
    apply bind_Some in H as ([[op err] rep] & Hf & H). apply bind_Some in H as (r & Hr%ok_Some & [= <-]).
    eapply ws_answer; [done | done | by apply find_returned_Some | done].
  - apply bind_Some in H as (ca & Hc & H). apply bind_Some in H as (sid & Hw & H).
    apply bind_Some in H as (r & Hr%ok_Some & [= <-]). by eapply ws_fail.
Qed.

Fixpoint world_run (ls : list WLabel) (w : World) : option World :=
  match ls with
  | [] => Some w
  | l :: ls => w ← world_label l w; world_run ls w
  end.

Definition world_initial : World :=
  mkWorld (sys_initial n ∅) (fun _ => mkClient (MakeClerk srvs) None) [].

Lemma world_run_reachable ls w w' : reachable (world_init n srvs) (world_step n cmd_of) w ->
  world_run ls w = Some w' -> reachable (world_init n srvs) (world_step n cmd_of) w'.
Proof.
  revert w. induction ls as [|l ls IH]; intros w R H; simpl in H; [by injection H as <- |].
  apply bind_Some in H as (w1 & Hl & H). eapply IH; [| exact H].
  eapply reach_step; [done | by eapply world_label_sound].
Qed.

Lemma world_run_witness ls (P : World -> bool) :
  match world_run ls world_initial with Some w => P w | None => false end = true ->
  exists w, reachable (world_init n srvs) (world_step n cmd_of) w /\ P w = true.
Proof.
  destruct (world_run ls world_initial) as [w|] eqn:E; [| done]. intros H. exists w. split; [| done].
  eapply world_run_reachable; [| done]. apply reach_init. split_and!; [apply sys_initial_init | done..].
Qed.
End Run.

(** ** An execution with a lost reply, a wrong leader and a late request *)

Definition cl_put0 : COp := CPut (mkPutArgs "k" "a" 0).
Definition cl_ahead : COp := CPut (mkPutArgs "k" "z" 2).
Definition cl_put1 : COp := CPut (mkPutArgs "k" "b" 1).

Definition cl_cmds (id : Z) : Kvraft.Req :=
  if decide (id = 1 \/ id = 2 \/ id = 8) then req_of cl_put0
  else if decide (id = 3 \/ id = 4 \/ id = 7) then req_of cl_ahead
  else if decide (id = 5) then req_of cl_put1 else req_of (CGet "k").

Definition elect0 : list (WLabel) := WServe ∘ SPeers <$>
  [RTicker 0 1000000000; RElection (LTest 0); RElection (LStart 0 1100000000);
   RElection (LVote 1 0 1200000000); RElection (LReply 0 0 0 1)].

(** What server 0 does, as leader, with the request it has got. *)
Definition serve0 (sid : nat) (now : Z) : list WLabel := WServe <$>
  [SPeers (RSend 0); SPeers (RAppend 0 now); SPeers (RAnswer 0); SPeers (RCommit 0);
   SApply 0; SRead 0; SSend 0; SReceive 0 sid; SReturn 0 sid].

(** Client 0 puts: its request is executed and the reply lost; server 1 does
    not lead; what is sent to server 2 gets lost; then server 0 answers
    [ErrVersion].  Client 1 gets. *)
Definition put_run : list WLabel :=
  elect0 ++ [WCall 0 0 cl_put0; WSend 0 0; WHandle 0 1] ++ serve0 0 1300000000 ++
  [WFail 0; WSend 0 1; WHandle 1 2; WAnswer 0; WSend 0 2; WFail 0;
   WCall 1 1 (CGet "k"); WSend 1 10; WHandle 10 6] ++ serve0 10 1400000000 ++
  [WAnswer 1; WSend 0 3; WHandle 3 8] ++ serve0 3 1500000000 ++ [WAnswer 0].

Definition client_events (t : list event) : list event :=
  filter (fun e => sys_event e = None) t.

#[export] Instance COp_eq_dec : EqDecision COp.
Proof. solve_decision. Defined.
#[export] Instance event_eq_dec : EqDecision event.
Proof. solve_decision. Defined.

Abbreviation kv_world_reachable := (reachable (@world_init kv_codec _ 3 ["s0"; "s1"; "s2"]%string)
  (@world_step kv_codec _ 3 cl_cmds)).

Definition put_events : list event :=
  [CReturn 0 3 (RPut ErrMaybe); Sent 0 cl_put0 3 0; CReturn 1 10 (RGet ("a", 1, OK)%string); Sent 1 (CGet "k") 10 0; CInvoke 1 (CGet "k");
   Sent 0 cl_put0 2 2; Sent 0 cl_put0 1 1; Sent 0 cl_put0 0 0; CInvoke 0 cl_put0].

Lemma put_reachable : exists w, kv_world_reachable w /\ bool_decide (client_events (w_trace w) = put_events) = true.
Proof. apply (world_run_witness 3 cl_cmds ["s0"; "s1"; "s2"]%string put_run). vm_compute. reflexivity. Qed.

(** Halfway, when client 0 waits for an answer. *)
Lemma waiting_reachable : exists w, kv_world_reachable w /\
  bool_decide (is_Some (cl_call (w_clients w 0%nat))) = true.
Proof. apply (world_run_witness 3 cl_cmds ["s0"; "s1"; "s2"]%string (take 8 put_run)). vm_compute. reflexivity. Qed.

(** Client 1 names a version that the register has not reached.  Its first
    request is delayed; the attempt after it is answered [ErrVersion], and
    the call returns [ErrMaybe].  Then client 0 puts once more, the delayed
    request finds its version, and the register changes although no call is
    under way. *)
Definition late_run : list WLabel :=
  elect0 ++ [WCall 0 0 cl_put0; WSend 0 0; WHandle 0 1] ++ serve0 0 1300000000 ++
  [WAnswer 0; WCall 1 1 cl_ahead; WSend 1 1; WFail 1; WSend 1 2; WFail 1; WSend 1 3; WFail 1;
   WSend 1 4; WHandle 4 3] ++ serve0 4 1400000000 ++
  [WAnswer 1; WCall 0 2 cl_put1; WSend 0 5; WHandle 5 5] ++ serve0 5 1500000000 ++
  [WAnswer 0; WHandle 1 4] ++ serve0 1 1600000000 ++
  [WCall 2 3 (CGet "k"); WSend 2 6; WHandle 6 6] ++ serve0 6 1700000000 ++ [WAnswer 2].

Definition late_events : list event :=
  [CReturn 3 6 (RGet ("z", 3, OK)%string); Sent 3 (CGet "k") 6 0; CInvoke 3 (CGet "k");
   CReturn 2 5 (RPut OK); Sent 2 cl_put1 5 0; CInvoke 2 cl_put1;
   CReturn 1 4 (RPut ErrMaybe); Sent 1 cl_ahead 4 0; Sent 1 cl_ahead 3 2; Sent 1 cl_ahead 2 1; Sent 1 cl_ahead 1 0;
   CInvoke 1 cl_ahead; CReturn 0 0 (RPut OK); Sent 0 cl_put0 0 0; CInvoke 0 cl_put0].

Lemma late_put_takes_effect : exists w, kv_world_reachable w /\ bool_decide (client_events (w_trace w) = late_events) = true.
Proof. apply (world_run_witness 3 cl_cmds ["s0"; "s1"; "s2"]%string late_run). vm_compute. reflexivity. Qed.

(** ** Properties *)

(** C1: The replicated key/value store as its clients see it. In every
    execution in which no peer becomes leader between the role test of its
    [ticker] and the [startElection] that follows, no server takes snapshots
    ([maxraftstate] is -1), the random identities that [Submit] draws are
    distinct, puts name versions below 2^64 - 1, terms stay below 2^64 - 1
    and logs below 2^63 - 1 entries - with any number of clients and
    servers, requests and replies lost, requests that arrive after their
    call has returned, crashes and elections - there is one order of the
    operations in which each call takes place at most once and every change
    of a register is one put of a call. A [Get] returns its register as it
    is at its place, a [Put] that returned [OK] changes it there, one that
    returned [ErrVersion] finds another version there and never changes
    anything, and other answers than [ErrMaybe] do not occur. A call that
    returned before another was made has the earlier place, with one
    exception: a put that returned [ErrMaybe] and named a version that was
    still ahead of the register may take effect later, after calls made
    since ([late_put_takes_effect] shows that it can). *)
Theorem clients_linearizable `{!Codec kv_map} `{!Codec (RaftState KvOp)} n cmd_of srvs w :
  0 < n < 2 ^ 63 -> zlen srvs = n -> reachable (world_init n srvs) (world_step n cmd_of) w ->
  exists ops, clients_linearized (w_trace w) ops.
Proof.
  intros Hn Hs R. pose proof (world_inv_reachable n cmd_of srvs Hn Hs w R) as I.
  destruct (rsm_linearizable kv_machine n ∅ cmd_of (w_sys w)) as (ops & L & _); [lia | apply I |].
  exists ops. by eapply clients_linearized_by_log.
Qed.

Lemma clients_linearizable_witness : exists w, client_events (w_trace w) = put_events /\
  exists ops, clients_linearized (w_trace w) ops.
Proof.
  destruct put_reachable as (w & R & H). exists w. split; [by apply bool_decide_eq_true in H |].
  apply (@clients_linearizable kv_codec _ 3 cl_cmds ["s0"; "s1"; "s2"]%string w); [lia | reflexivity | exact R].
Defined.

(** A clerk never stops on a panic: it always addresses one of its servers,
    and whatever the answer to its request is, its loop goes on or returns. *)
Theorem clerks_never_panic `{!Codec kv_map} `{!Codec (RaftState KvOp)} n cmd_of srvs w c ca :
  0 < n < 2 ^ 63 -> zlen srvs = n -> reachable (world_init n srvs) (world_step n cmd_of) w ->
  cl_call (w_clients w c) = Some ca ->
  let ck := cl_clerk (w_clients w c) in
  is_ok (slice_get (servers ck) (leader ck)) /\ is_ok (attempt_done ck ca None) /\
  forall sid op err rep, ca_wait ca = Some sid -> Sys (Returned sid op err rep) ∈ w_trace w ->
    is_ok (attempt_done ck ca (Some (err, default Kvraft.RepNil rep))).
Proof.
  intros Hn Hs R Hc ck. pose proof (world_inv_reachable n cmd_of srvs Hn Hs w R) as I.
  destruct (wi_clerk _ _ _ _ I c) as [Hck _]. fold ck in Hck. split; [by apply wf_clerk_get |].
  split; [by apply attempt_done_ok |]. intros sid op err rep Hw Hr.
  destruct (ci_wait _ _ (wi_call _ _ _ _ I c ca Hc) sid Hw) as [i Hi].
  destruct (rsm_linearizable kv_machine n ∅ cmd_of (w_sys w)) as (ops & L & _); [lia | apply I |].
  destruct (answer_of n cmd_of srvs w ops I L _ _ _ _ _ _ _ Hi Hr) as (_ & _ & _ & Ho).
  apply attempt_done_ok; [done |]. intros sub [= <-].
  destruct (returned_shape n cmd_of (w_sys w) sid op err rep) as [[-> ->]|[-> [kv ->]]];
    [lia | apply I | by apply (in_history w); [apply I |] | |].
  - destruct (ca_op ca); by eexists.
  - rewrite Ho. destruct (ca_op ca) as [key|args].
    + simpl. destruct (kv !! key); by eexists.
    + change (req_of (CPut args)) with (Kvraft.ReqPut args). rewrite DoOp_Put. by eexists.
Qed.

Lemma clerks_never_panic_witness : exists w ca, kv_world_reachable w /\ cl_call (w_clients w 0%nat) = Some ca /\
  is_ok (attempt_done (cl_clerk (w_clients w 0%nat)) ca None).
Proof.
  destruct waiting_reachable as (w & R & H). destruct (cl_call (w_clients w 0%nat)) as [ca|] eqn:E; [| done].
  exists w, ca. split; [exact R |]. split; [exact E |].
  apply (@clerks_never_panic kv_codec _ 3 cl_cmds ["s0"; "s1"; "s2"]%string w 0 ca); [lia | reflexivity | exact R | exact E].
Defined.
