(* ===== verification/Labrpc.v ===== *)
(** * The simulated network ([labrpc/labrpc.go])

    Client ends are connected to servers by name; a request is executed
    by the server object found when it arrives, and its reply is passed on
    only if that object is still the one behind the end when the handler
    returns.  The state of the network at each of these moments and the
    random draws are arguments of [processReq]. *)
From S2P Require Import Prelude.
From Stdlib Require Import Ascii.
#[local] Open Scope Z_scope.

(** Bytes are integers. *)
Abbreviation bytes := (list Z) (only parsing).

Record reqMsg := mkReqMsg { rq_endname : string; rq_svcMeth : string; rq_args : bytes }.
Record replyMsg := mkReplyMsg { rm_ok : bool; rm_reply : bytes }.

Definition SHORTDELAY : Z := 27.
Definition LONGDELAY : Z := 7000.
Definition MAXDELAY : Z := LONGDELAY + 100.

(** A server is known by its address; [None] is a nil name or pointer. *)
Abbreviation server_ref := nat (only parsing).

Record Network := mkNetwork {
  reliable : bool;
  longDelays : bool;
  longReordering : bool;
  ends : gset string;
  enabled : gmap string bool;
  servers : gmap string (option server_ref);
  connections : gmap string (option string);
}.

Definition MakeNetwork : Network := mkNetwork true false false ∅ ∅ ∅ ∅.

Definition Reliable (yes : bool) (rn : Network) : Network :=
  mkNetwork yes (longDelays rn) (longReordering rn) (ends rn) (enabled rn) (servers rn) (connections rn).
Definition IsReliable (rn : Network) : bool := reliable rn.
Definition LongReordering (yes : bool) (rn : Network) : Network :=
  mkNetwork (reliable rn) (longDelays rn) yes (ends rn) (enabled rn) (servers rn) (connections rn).
Definition LongDelays (yes : bool) (rn : Network) : Network :=
  mkNetwork (reliable rn) yes (longReordering rn) (ends rn) (enabled rn) (servers rn) (connections rn).
Definition IsLongDelays (rn : Network) : bool := longDelays rn.

Definition set_enabled (rn : Network) (m : gmap string bool) : Network :=
  mkNetwork (reliable rn) (longDelays rn) (longReordering rn) (ends rn) m (servers rn) (connections rn).
Definition set_servers (rn : Network) (m : gmap string (option server_ref)) : Network :=
  mkNetwork (reliable rn) (longDelays rn) (longReordering rn) (ends rn) (enabled rn) m (connections rn).
Definition set_connections (rn : Network) (m : gmap string (option string)) : Network :=
  mkNetwork (reliable rn) (longDelays rn) (longReordering rn) (ends rn) (enabled rn) (servers rn) m.

(** [log.Fatalf] when the name is taken. *)
Definition MakeEnd (endname : string) (rn : Network) : Res Network :=
  if decide (endname ∈ ends rn) then Panic
  else Ok (mkNetwork (reliable rn) (longDelays rn) (longReordering rn) ({[ endname ]} ∪ ends rn)
             (<[endname := false]> (enabled rn)) (servers rn) (<[endname := None]> (connections rn))).

Definition LookupEnd (endname : string) (rn : Network) : Res string :=
  if decide (endname ∈ ends rn) then Ok endname else Panic.

Definition DeleteEnd (endname : string) (rn : Network) : Res Network :=
  if decide (endname ∈ ends rn) then
    Ok (mkNetwork (reliable rn) (longDelays rn) (longReordering rn) (ends rn ∖ {[ endname ]})
          (delete endname (enabled rn)) (servers rn) (delete endname (connections rn)))
  else Panic.

Definition AddServer (servername : string) (rs : server_ref) (rn : Network) : Network :=
  set_servers rn (<[servername := Some rs]> (servers rn)).
Definition DeleteServer (servername : string) (rn : Network) : Network :=
  set_servers rn (<[servername := None]> (servers rn)).
Definition Connect (endname servername : string) (rn : Network) : Network :=
  set_connections rn (<[endname := Some servername]> (connections rn)).
Definition Enable (endname : string) (b : bool) (rn : Network) : Network :=
  set_enabled rn (<[endname := b]> (enabled rn)).

(** Reading a missing key of a Go map gives the zero value. *)
Definition enabled_of (rn : Network) (endname : string) : bool := default false (enabled rn !! endname).
Definition server_of (rn : Network) (servername : string) : option server_ref := default None (servers rn !! servername).

Definition readEndnameInfo (rn : Network) (endname : string) :
    bool * option string * option server_ref * bool * bool :=
  let servername := default None (connections rn !! endname) in
  let server := match servername with Some sn => server_of rn sn | None => None end in
  (enabled_of rn endname, servername, server, reliable rn, longReordering rn).

Definition isServerDead (rn : Network) (endname servername : string) (server : server_ref) : bool :=
  negb (enabled_of rn endname) || negb (bool_decide (server_of rn servername = Some server)).

(** The values of the [rand.Int()] and [rand.Intn(900)] draws. *)
Record Draws := mkDraws { drop_request : Z; drop_reply : Z; reorder : Z }.

(** What became of a request: was the handler run, the reply to the
    client, and was the reply held back for long. *)
Record Outcome := mkOutcome { executed : bool; client_reply : replyMsg; delayed : bool }.

Definition noReply : replyMsg := mkReplyMsg false [].

(** The wait for the handler: [polls] are the states of the network at
    the 100 ms ticks before its reply arrived. *)
Fixpoint waitReply (polls : list Network) (endname servername : string) (server : server_ref) : bool :=
  match polls with
  | [] => true
  | rn :: polls =>
      if isServerDead rn endname servername server then false
      else waitReply polls endname servername server
  end.

(** [rn0] is the network when the request arrives, [final] when the wait
    is over; [dispatch] is the server's answer to the request. *)
Definition processReq (rn0 : Network) (polls : list Network) (final : Network) (draws : Draws)
    (dispatch : server_ref -> reqMsg -> replyMsg) (req : reqMsg) : Outcome :=
  match readEndnameInfo rn0 (rq_endname req) with
  | (true, Some servername, Some server, rel, longreordering) =>
      if negb rel && bool_decide (Z.rem (drop_request draws) 1000 < 100) then mkOutcome false noReply false
      else
        let reply := dispatch server req in
        let replyOK := waitReply polls (rq_endname req) servername server in
        let serverDead := isServerDead final (rq_endname req) servername server in
        if negb replyOK || serverDead then mkOutcome true noReply false
        else if negb rel && bool_decide (Z.rem (drop_reply draws) 1000 < 100) then mkOutcome true noReply false
        else if longreordering && bool_decide (reorder draws < 600) then mkOutcome true reply true
        else mkOutcome true reply false
  | _ => mkOutcome false noReply true
  end.

(** ** Servers and services *)
Record Service := mkService { svc_name : string; methods : gmap string (bytes -> bytes) }.

Record Server := mkServer { services : gmap string Service; count : Z }.

Definition MakeServer : Server := mkServer ∅ 0.

Definition AddService (svc : Service) (rs : Server) : Server :=
  mkServer (<[svc_name svc := svc]> (services rs)) (count rs).

Definition GetCount (rs : Server) : Z := count rs.

(** [strings.LastIndex(s, ".")], as the split at the last dot. *)
Fixpoint splitLast (s : string) : option (string * string) :=
  match s with
  | EmptyString => None
  | String c s =>
      match splitLast s with
      | Some (a, b) => Some (String c a, b)
      | None => if decide (c = "."%char) then Some (EmptyString, s) else None
      end
  end.

(** The method of a service: decode the argument, call, encode the reply.
    An unknown method is a [log.Fatalf]. *)
Definition Service_dispatch (methname : string) (req : reqMsg) (svc : Service) : Res replyMsg :=
  match methods svc !! methname with
  | Some method => Ok (mkReplyMsg true (method (rq_args req)))
  | None => Panic
  end.

(** A name without a dot makes the slice expression panic. *)
Definition Server_dispatch (req : reqMsg) (rs : Server) : Server * Res replyMsg :=
  (mkServer (services rs) (i64 (count rs + 1)),
   match splitLast (rq_svcMeth req) with
   | None => Panic
   | Some (serviceName, methodName) =>
       match services rs !! serviceName with
       | Some service => Service_dispatch methodName req service
       | None => Panic
       end
   end).

Section Call.
Context {A R : Type} `{!Codec A, !Codec R}.

Definition Marshall (args : A) : bytes := encode args.

Definition Unmarshall (b : bytes) : Res R :=
  match decode b with Some r => Ok r | None => Panic end.

(** [ClientEnd.Call]: the decoded reply, or [None] for [false]; [network]
    carries the request and brings the reply. *)
Definition Call (endname svcMeth : string) (args : A) (network : reqMsg -> replyMsg) : Res (option R) :=
  let rep := network (mkReqMsg endname svcMeth (Marshall args)) in
  if rm_ok rep then let* r := Unmarshall (rm_reply rep) in Ok (Some r) else Ok None.
End Call.

(** ** Lemmas *)
Lemma splitLast_spec s a b : splitLast s = Some (a, b) ->
  s = a +:+ String "."%char b /\ splitLast b = None.
Proof.
  revert a. induction s as [|c s IH]; intros a H; simpl in H; [done |].
  destruct (splitLast s) as [[a' b']|] eqn:E.
  - injection H as <- <-. destruct (IH a' eq_refl) as [-> Hb]. done.
  - case_decide; [| done]. by simplify_eq.
Qed.

Lemma isServerDead_false rn e sn sv :
  isServerDead rn e sn sv = false <-> enabled_of rn e = true /\ server_of rn sn = Some sv.
Proof.
  unfold isServerDead. rewrite orb_false_iff, !negb_false_iff, bool_decide_eq_true. done.
Qed.

Lemma waitReply_true polls e sn sv :
  waitReply polls e sn sv = true <-> forall rn, rn ∈ polls -> isServerDead rn e sn sv = false.
Proof.
  induction polls as [|rn polls IH]; simpl.
  - split; [by intros _ ? ?%not_elem_of_nil | done].
  - destruct (isServerDead rn e sn sv) eqn:E; split; try done.
    + intros H. rewrite (H rn) in E; [done |]. apply list_elem_of_here.
    + intros H rn' [->|Hin]%elem_of_cons; [done | by apply IH].
    + intros H. apply IH. intros rn' Hin. by apply H, list_elem_of_further.
Qed.

(** ** Properties *)

(** What a reply says.  The client gets a positive reply only if its
    end was enabled and connected, when the request arrived, to a live
    server object, the handler of that object ran on this request and
    produced the reply, and the same object was still reachable behind the
    end at every look up to the last one: once the server was deleted, no
    positive reply of the old object passes, even if a new server took its
    name.  Without a run of the handler there is no positive reply; on a
    reliable network with the server alive throughout, the reply passes. *)
Theorem processReq_outcome rn0 polls final draws dispatch req :
  let out := processReq rn0 polls final draws dispatch req in
  (rm_ok (client_reply out) = true ->
     executed out = true /\
     exists servername server,
       connections rn0 !! rq_endname req = Some (Some servername) /\
       enabled_of rn0 (rq_endname req) = true /\ server_of rn0 servername = Some server /\
       client_reply out = dispatch server req /\
       (forall rn, rn ∈ polls ++ [final] ->
          enabled_of rn (rq_endname req) = true /\ server_of rn servername = Some server)) /\
  (executed out = false -> client_reply out = noReply) /\
  (forall servername server,
     reliable rn0 = true -> connections rn0 !! rq_endname req = Some (Some servername) ->
     server_of rn0 servername = Some server -> enabled_of rn0 (rq_endname req) = true ->
     (forall rn, rn ∈ polls ++ [final] ->
        enabled_of rn (rq_endname req) = true /\ server_of rn servername = Some server) ->
     executed out = true /\ client_reply out = dispatch server req).
Proof.
  simpl. unfold processReq, readEndnameInfo.
  assert (forall sn sv, (waitReply polls (rq_endname req) sn sv = true /\ isServerDead final (rq_endname req) sn sv = false) <->
    (forall rn, rn ∈ polls ++ [final] -> enabled_of rn (rq_endname req) = true /\ server_of rn sn = Some sv)) as Hlive.
  { intros sn sv. rewrite waitReply_true. setoid_rewrite isServerDead_false. setoid_rewrite elem_of_app.
    setoid_rewrite list_elem_of_singleton. naive_solver. }
  split_and!.
  - destruct (enabled_of rn0 (rq_endname req)) eqn:Een; [| done].
    destruct (connections rn0 !! rq_endname req) as [[sn|]|] eqn:Ec; simpl; [| done..].
    destruct (server_of rn0 sn) as [sv|] eqn:Es; [| done].
    destruct (_ && _) in |- *; [done |].
    destruct (negb (waitReply _ _ _ _) || isServerDead final _ _ _) eqn:Ed; [done |].
    apply orb_false_iff in Ed as [Ew%negb_false_iff Ef].
    destruct (negb (reliable rn0) && bool_decide (Z.rem (drop_reply draws) 1000 < 100)); [done |].
    assert (forall rn, rn ∈ polls ++ [final] -> enabled_of rn (rq_endname req) = true /\ server_of rn sn = Some sv)
      by (by apply Hlive).
    destruct (_ && _) in |- *; simpl; intros Hok; (split; [done |]); exists sn, sv; done.
  - destruct (enabled_of rn0 (rq_endname req)); [| done].
    destruct (default None (connections rn0 !! rq_endname req)) as [sn|]; [| done].
    destruct (server_of rn0 sn) as [sv|]; [| done].
    destruct (_ && _) in |- *; [done |]. destruct (_ || _) in |- *; [done |].
    destruct (_ && _) in |- *; [done |]. by destruct (_ && _) in |- *.
  - intros sn sv Hrel Hc Hs Hen Hall. rewrite Hrel, Hc, Hen. simpl. rewrite Hs. simpl.
    apply Hlive in Hall as [-> ->]. simpl. by destruct (_ && _) in |- *.
Qed.

Definition ex_net : Network := AddServer "s" 0 (Connect "e" "s" (Enable "e" true MakeNetwork)).

Lemma processReq_outcome_witness :
  let req := mkReqMsg "e" "KVServer.Get" [1] in
  let out := processReq ex_net [] ex_net (mkDraws 0 0 0) (fun _ _ => mkReplyMsg true [2]) req in
  executed out = true /\ client_reply out = mkReplyMsg true [2].
Proof.
  pose proof (processReq_outcome ex_net [] ex_net (mkDraws 0 0 0) (fun _ _ => mkReplyMsg true [2])
    (mkReqMsg "e" "KVServer.Get" [1])) as (_ & _ & H).
  apply (H "s" 0%nat); try reflexivity. intros rn Hrn. simpl in Hrn.
  apply list_elem_of_singleton in Hrn as ->. split; reflexivity.
Defined.
