(* ===== verification/NetRun.v ===== *)
(** * The simulated network at work ([labrpc/labrpc.go])

    [Labrpc] gives one request as a function of what it saw of the
    network.  This file runs any number of calls at once: the goroutine
    that takes requests, the stages of [processReq], the handlers that run
    beside it, the timers, the counters, and the tester's changes of the
    network between any two of these.  A call's answer is the one that
    [Labrpc.processReq] gives for the states the call looked at, and a
    positive answer comes from one run of a handler that was over before
    its server was deleted. *)
From S2P Require Import Prelude Labrpc.
#[local] Open Scope Z_scope.

(** ** Servers and services, continued *)

(** A method as [reflect] shows it: whether it is exported, how many
    arguments it takes with the receiver, whether the third is a pointer,
    how many results it has, and what a call of it does. *)
Record Method := mkMethod {
  m_Name : string; m_PkgPath : string; m_NumIn : Z; m_in2_ptr : bool; m_NumOut : Z;
  m_call : bytes -> bytes;
}.

Definition is_handler (m : Method) : bool :=
  negb (negb (bool_decide (m_PkgPath m = "")) || negb (bool_decide (m_NumIn m = 3)) ||
        negb (m_in2_ptr m) || negb (bool_decide (m_NumOut m = 0))).

Definition MakeService (name : string) (ms : list Method) : Service :=
  mkService name (foldl (fun f m => if is_handler m then <[m_Name m := m_call m]> f else f) ∅ ms).

(** [Server.Dispatch]. *)
Definition Dispatch (svcMeth clnt : string) (args : bytes) (rs : Server) : Server * Res (bytes * bool) :=
  let '(rs, r) := Server_dispatch (mkReqMsg clnt svcMeth args) rs in
  (rs, let* rep := r in Ok (rm_reply rep, rm_ok rep)).

Lemma MakeService_methods name ms x f : NoDup (m_Name <$> ms) ->
  methods (MakeService name ms) !! x = Some f <->
  exists m, m ∈ ms /\ is_handler m = true /\ m_Name m = x /\ m_call m = f.
Proof.
  unfold MakeService. cbn [methods].
  enough (forall acc : gmap string (bytes -> bytes), NoDup (m_Name <$> ms) -> (forall m, m ∈ ms -> acc !! m_Name m = None) ->
    foldl (fun g m => if is_handler m then <[m_Name m := m_call m]> g else g) acc ms !! x = Some f <->
    acc !! x = Some f \/ exists m, m ∈ ms /\ is_handler m = true /\ m_Name m = x /\ m_call m = f) as Hgen.
  { intros Hnd. rewrite (Hgen ∅ Hnd); [| done]. rewrite lookup_empty. naive_solver. }
  induction ms as [|m ms IH]; intros acc Hnd Hacc; cbn [foldl].
  { setoid_rewrite elem_of_nil. naive_solver. }
  rewrite fmap_cons in Hnd. apply list.NoDup_cons in Hnd as [Hm Hnd].
  assert (forall m', m' ∈ ms -> m_Name m' <> m_Name m) as Hne.
  { intros m' Hin E. apply Hm. rewrite <- E. by apply list_elem_of_fmap_2. }
  rewrite IH; [| done |].
  - setoid_rewrite elem_of_cons. destruct (is_handler m) eqn:E.
    2: { split; (intros [?|(m' & Hin & Hh & Hr)]; [by left |]).
      - right. by eauto.
      - destruct Hin as [->|Hin]; [congruence |]. right. by eauto. }
    destruct (decide (m_Name m = x)) as [<-|Hx].
    + rewrite lookup_insert_eq. split.
      * intros [[= <-]|(m' & Hin & _ & En & _)]; [eauto 10 | exfalso; exact (Hne _ Hin En)].
      * intros [Ha|(m' & [->|Hin] & _ & En & Ef)].
        -- rewrite (Hacc m) in Ha; [done |]. apply list_elem_of_here.
        -- left. by rewrite Ef.
        -- exfalso. exact (Hne _ Hin En).
    + rewrite lookup_insert_ne by done. split; (intros [?|(m' & Hin & Hh & En & Ef)]; [by left |]).
      * right. by eauto 10.
      * destruct Hin as [->|Hin]; [done |]. right. by eauto 10.
  - intros m' Hin. assert (acc !! m_Name m' = None) by (by apply Hacc, list_elem_of_further).
    destruct (is_handler m); [| done]. rewrite lookup_insert_ne; [done |]. intros E. by destruct (Hne _ Hin).
Qed.

(** ** Calls under way *)

(** Where [processReq] is with a request.  [PExec] remembers what it read
    when the request arrived, the networks at its ticks since then and, once
    the handler has returned, what it returned; [PLate] is a reply on its
    way, after a long delay or at once. *)
Inductive phase :=
| PSend
| PArrived
| PExec (rn0 : Network) (servername : string) (server : server_ref) (polls : list Network) (got : option replyMsg)
| PLate (rep : replyMsg)
| PReply (rep : replyMsg)
| PDone (rep : replyMsg).

(** The goroutine that calls [server.dispatch]; it runs on when nobody
    waits for it any more. *)
Inductive handler :=
| HNone
| HStarted (server : server_ref)
| HRunning (server : server_ref).

(** The last two fields record what happened: the runs of the handler (the
    object, what it returned, and whether the object had been removed from
    the network by then), and the networks the answer was decided by. *)
Record NCall := mkNCall {
  nc_req : reqMsg;
  nc_phase : phase;
  nc_handler : handler;
  nc_runs : list (server_ref * replyMsg * bool);
  nc_seen : option (Network * list Network * Network);
}.

Record NetSys := mkNetSys {
  net : Network;
  total : Z;                        (* rn.count, an int32 *)
  nbytes : Z;                       (* rn.bytes, an int64 *)
  cleaned : bool;                   (* rn.done is closed *)
  running : bool;                   (* the goroutine of MakeNetwork *)
  objects : server_ref -> Server;
  ncalls : gmap nat NCall;
  removed : gset server_ref;        (* servers that had a name and lost it *)
}.

Definition net_init (s : NetSys) : Prop :=
  exists objs, s = mkNetSys MakeNetwork 0 0 false true objs ∅ ∅.

Definition set_net rn r s := mkNetSys rn (total s) (nbytes s) (cleaned s) (running s) (objects s) (ncalls s) r.
Definition set_call (c : nat) (nc : NCall) s :=
  mkNetSys (net s) (total s) (nbytes s) (cleaned s) (running s) (objects s) (<[c := nc]> (ncalls s)) (removed s).
Definition set_object (o : server_ref) rs s :=
  mkNetSys (net s) (total s) (nbytes s) (cleaned s) (running s)
    (fun o' => if decide (o' = o) then rs else objects s o') (ncalls s) (removed s).
Definition set_running b s :=
  mkNetSys (net s) (total s) (nbytes s) (cleaned s) b (objects s) (ncalls s) (removed s).
Definition count_request (len : Z) s :=
  mkNetSys (net s) (i32 (total s + 1)) (i64 (nbytes s + len)) (cleaned s) (running s) (objects s) (ncalls s) (removed s).
Definition count_bytes (len : Z) s :=
  mkNetSys (net s) (total s) (i64 (nbytes s + len)) (cleaned s) (running s) (objects s) (ncalls s) (removed s).

Definition GetTotalCount (s : NetSys) : Z := total s.
Definition GetTotalBytes (s : NetSys) : Z := nbytes s.

(** [Network.GetCount]: a name without a server is a nil pointer. *)
Definition Network_GetCount (servername : string) (s : NetSys) : Res Z :=
  match server_of (net s) servername with Some o => Ok (GetCount (objects s o)) | None => Panic end.

(** Closing a closed channel panics. *)
Definition Cleanup (s : NetSys) : Res NetSys :=
  if cleaned s then Panic
  else Ok (mkNetSys (net s) (total s) (nbytes s) true (running s) (objects s) (ncalls s) (removed s)).

Definition with_phase (p : phase) (nc : NCall) : NCall :=
  mkNCall (nc_req nc) p (nc_handler nc) (nc_runs nc) (nc_seen nc).
Definition with_handler (h : handler) (nc : NCall) : NCall :=
  mkNCall (nc_req nc) (nc_phase nc) h (nc_runs nc) (nc_seen nc).
Definition decided (p : phase) rn0 polls final (nc : NCall) : NCall :=
  mkNCall (nc_req nc) p (nc_handler nc) (nc_runs nc) (Some (rn0, polls, final)).

(** The server that a change of [sn] takes off the network. *)
Definition loses (sn : string) (s : NetSys) : gset server_ref :=
  removed s ∪ option_to_set (server_of (net s) sn).

(** What the tester does to the network.  A server object gets a name at
    most once: the tester makes a new one for every start. *)
Inductive control (s : NetSys) : NetSys -> Prop :=
| ct_reliable b : control s (set_net (Reliable b (net s)) (removed s) s)
| ct_reordering b : control s (set_net (LongReordering b (net s)) (removed s) s)
| ct_delays b : control s (set_net (LongDelays b (net s)) (removed s) s)
| ct_MakeEnd e rn : MakeEnd e (net s) = Ok rn -> control s (set_net rn (removed s) s)
| ct_DeleteEnd e rn : DeleteEnd e (net s) = Ok rn -> control s (set_net rn (removed s) s)
| ct_Connect e sn : control s (set_net (Connect e sn (net s)) (removed s) s)
| ct_Enable e b : control s (set_net (Enable e b (net s)) (removed s) s)
| ct_AddServer sn o :
    o ∉ removed s -> (forall sn', server_of (net s) sn' <> Some o) ->
    control s (set_net (AddServer sn o (net s)) (loses sn s) s)
| ct_DeleteServer sn : control s (set_net (DeleteServer sn (net s)) (loses sn s) s)
| ct_object o rs : control s (set_object o rs s)       (* its services, and their receivers' states *)
| ct_Cleanup s' : Cleanup s = Ok s' -> control s s'
| ct_stop : cleaned s = true -> control s (set_running false s).

(** A call's own steps. *)
Inductive call_step (s : NetSys) (c : nat) (nc : NCall) : NetSys -> Prop :=
| cs_destroyed :
    nc_phase nc = PSend -> cleaned s = true -> call_step s c nc (set_call c (with_phase (PDone noReply) nc) s)
| cs_take :
    nc_phase nc = PSend -> running s = true ->
    call_step s c nc (count_request (zlen (rq_args (nc_req nc))) (set_call c (with_phase PArrived nc) s))
| cs_no_server :
    (* the timer of [time.AfterFunc] included *)
    nc_phase nc = PArrived ->
    (forall sn sv rel lr, readEndnameInfo (net s) (rq_endname (nc_req nc)) <> (true, Some sn, Some sv, rel, lr)) ->
    call_step s c nc (set_call c (decided (PReply noReply) (net s) [] (net s) nc) s)
| cs_drop_request sn sv lr :
    nc_phase nc = PArrived ->
    readEndnameInfo (net s) (rq_endname (nc_req nc)) = (true, Some sn, Some sv, false, lr) ->
    call_step s c nc (set_call c (decided (PReply noReply) (net s) [] (net s) nc) s)
| cs_execute sn sv rel lr :
    nc_phase nc = PArrived ->
    readEndnameInfo (net s) (rq_endname (nc_req nc)) = (true, Some sn, Some sv, rel, lr) ->
    call_step s c nc (set_call c (with_handler (HStarted sv) (with_phase (PExec (net s) sn sv [] None) nc)) s)
| cs_dispatch sv rs r :
    (* counted, and the service found *)
    nc_handler nc = HStarted sv -> Server_dispatch (nc_req nc) (objects s sv) = (rs, Ok r) ->
    call_step s c nc (set_object sv rs (set_call c (with_handler (HRunning sv) nc) s))
| cs_return sv rs r :
    nc_handler nc = HRunning sv -> Server_dispatch (nc_req nc) (objects s sv) = (rs, Ok r) ->
    call_step s c nc (set_call c (mkNCall (nc_req nc)
      (match nc_phase nc with PExec rn0 sn sv' polls None => PExec rn0 sn sv' polls (Some r) | p => p end) HNone
      (nc_runs nc ++ [(sv, r, bool_decide (sv ∈ removed s))]) (nc_seen nc)) s)
| cs_tick rn0 sn sv polls got :
    nc_phase nc = PExec rn0 sn sv polls got -> isServerDead (net s) (rq_endname (nc_req nc)) sn sv = false ->
    call_step s c nc (set_call c (with_phase (PExec rn0 sn sv (polls ++ [net s]) got) nc) s)
| cs_dead rn0 sn sv polls got final :
    (* a tick finds the server dead; the check after the loop finds anything *)
    nc_phase nc = PExec rn0 sn sv polls got -> isServerDead (net s) (rq_endname (nc_req nc)) sn sv = true ->
    call_step s c nc (set_call c (decided (PReply noReply) rn0 (polls ++ [net s]) final nc) s)
| cs_killed rn0 sn sv polls r :
    nc_phase nc = PExec rn0 sn sv polls (Some r) -> isServerDead (net s) (rq_endname (nc_req nc)) sn sv = true ->
    call_step s c nc (set_call c (decided (PReply noReply) rn0 polls (net s) nc) s)
| cs_drop_reply rn0 sn sv polls r :
    nc_phase nc = PExec rn0 sn sv polls (Some r) -> reliable rn0 = false ->
    isServerDead (net s) (rq_endname (nc_req nc)) sn sv = false ->
    call_step s c nc (set_call c (decided (PReply noReply) rn0 polls (net s) nc) s)
| cs_reply rn0 sn sv polls r :
    nc_phase nc = PExec rn0 sn sv polls (Some r) ->
    isServerDead (net s) (rq_endname (nc_req nc)) sn sv = false ->
    call_step s c nc (set_call c (decided (PLate r) rn0 polls (net s) nc) s)
| cs_count rep :
    nc_phase nc = PLate rep ->
    call_step s c nc (count_bytes (zlen (rm_reply rep)) (set_call c (with_phase (PReply rep) nc) s))
| cs_receive rep :
    nc_phase nc = PReply rep -> call_step s c nc (set_call c (with_phase (PDone rep) nc) s).

Inductive net_step (s : NetSys) : NetSys -> Prop :=
| ns_control s' : control s s' -> net_step s s'
| ns_call c req :
    (* [Call] or [Forward] *)
    ncalls s !! c = None -> net_step s (set_call c (mkNCall req PSend HNone [] None) s)
| ns_step c nc s' : ncalls s !! c = Some nc -> call_step s c nc s' -> net_step s s'.

Definition net_reachable : NetSys -> Prop := reachable net_init net_step.

(** ** The invariant *)

(** The server object [sv] is what a call reached: its end was wired to a
    name, and enabled, and the name stood for [sv], on every network that
    the call looked at from the first to the last. *)
Definition reached (nc : NCall) (sv : server_ref) : Prop :=
  exists rn0 polls final sn, nc_seen nc = Some (rn0, polls, final) /\
    connections rn0 !! rq_endname (nc_req nc) = Some (Some sn) /\
    forall rn, rn ∈ rn0 :: polls ++ [final] ->
      enabled_of rn (rq_endname (nc_req nc)) = true /\ server_of rn sn = Some sv.

(** A [dispatch] that gives for the servers that ran the handler what they
    returned. *)
Definition as_run (nc : NCall) (dispatch : server_ref -> reqMsg -> replyMsg) : Prop :=
  forall sv r b, (sv, r, b) ∈ nc_runs nc -> dispatch sv (nc_req nc) = r.

(** What an answer says: no answer at all if the network was destroyed
    first, else [processReq]'s on the networks that the call looked at; a
    reply other than [noReply] came from the one run of the handler, at the
    server that the call reached, over before that server was removed. *)
Definition answered (nc : NCall) (rep : replyMsg) : Prop :=
  match nc_seen nc with
  | None => rep = noReply
  | Some (rn0, polls, final) =>
      exists draws, forall dispatch, as_run nc dispatch ->
        rep = client_reply (processReq rn0 polls final draws dispatch (nc_req nc))
  end /\
  (rep = noReply \/ nc_handler nc = HNone /\ exists sv, reached nc sv /\ nc_runs nc = [(sv, rep, false)]) /\
  (nc_runs nc = [] \/ nc_handler nc = HNone /\ length (nc_runs nc) = 1%nat).

Definition call_ok (rem : gset server_ref) (nc : NCall) : Prop :=
  match nc_phase nc with
  | PSend | PArrived => nc_handler nc = HNone /\ nc_runs nc = [] /\ nc_seen nc = None
  | PExec rn0 sn sv polls got =>
      nc_seen nc = None /\
      (exists rel lr, readEndnameInfo rn0 (rq_endname (nc_req nc)) = (true, Some sn, Some sv, rel, lr)) /\
      waitReply polls (rq_endname (nc_req nc)) sn sv = true /\
      match got with
      | None => nc_runs nc = [] /\ (nc_handler nc = HStarted sv \/ nc_handler nc = HRunning sv)
      | Some r => nc_handler nc = HNone /\ exists b, nc_runs nc = [(sv, r, b)] /\ (b = true -> sv ∈ rem)
      end
  | PLate rep | PReply rep => is_Some (nc_seen nc) /\ answered nc rep
  | PDone rep => answered nc rep
  end.

(** A server on the network has one name and was never taken off. *)
Definition named_ok (rn : Network) (rem : gset server_ref) : Prop :=
  forall sn sv, server_of rn sn = Some sv ->
    sv ∉ rem /\ forall sn', server_of rn sn' = Some sv -> sn' = sn.

(** What a call has added to the counters. *)
Definition taken (nc : NCall) : Z :=
  match nc_phase nc with PSend => 0 | PDone _ => if nc_seen nc then 1 else 0 | _ => 1 end.
Definition carried (nc : NCall) : Z :=
  taken nc * zlen (rq_args (nc_req nc)) +
  match nc_phase nc with PReply rep | PDone rep => zlen (rm_reply rep) | _ => 0 end.
Definition sum_calls (f : NCall -> Z) (m : gmap nat NCall) : Z := map_fold (fun _ nc acc => f nc + acc) 0 m.

Record net_inv (s : NetSys) : Prop := mkNetInv {
  ni_calls : forall c nc, ncalls s !! c = Some nc -> call_ok (removed s) nc;
  ni_named : named_ok (net s) (removed s);
  ni_total : total s = i32 (sum_calls taken (ncalls s));
  ni_bytes : nbytes s = i64 (sum_calls carried (ncalls s));
}.

Lemma sum_calls_new f m c nc : m !! c = None -> sum_calls f (<[c := nc]> m) = f nc + sum_calls f m.
Proof.
  intros H. unfold sum_calls. rewrite map_fold_insert_L; [done | | done]. intros. lia.
Qed.

Lemma sum_calls_insert f m c nc nc' : m !! c = Some nc ->
  sum_calls f (<[c := nc']> m) = sum_calls f m + (f nc' - f nc).
Proof.
  intros H. rewrite <- (insert_id m c nc H) at 2. rewrite <- (insert_delete_eq m c nc'), <- (insert_delete_eq m c nc).
  rewrite !sum_calls_new by apply lookup_delete_eq. lia.
Qed.

Lemma call_ok_more rem rem' nc : rem ⊆ rem' -> call_ok rem nc -> call_ok rem' nc.
Proof. unfold call_ok. intros Hsub. destruct (nc_phase nc) as [| |???? []| | |]; naive_solver. Qed.

(** One call changes: the rest of the invariant is about the others. *)
Lemma net_inv_call s s' c nc nc' : net_inv s -> ncalls s !! c = Some nc ->
  ncalls s' = <[c := nc']> (ncalls s) -> net s' = net s -> removed s' = removed s ->
  call_ok (removed s) nc' ->
  total s' = i32 (total s + (taken nc' - taken nc)) ->
  nbytes s' = i64 (nbytes s + (carried nc' - carried nc)) -> net_inv s'.
Proof.
  intros [Hc Hn Ht Hb] Hl Ec En Er Hok Et Eb. constructor.
  - rewrite Ec, Er. intros c' nc'' [[<- <-]|[_ Hl']]%lookup_insert_Some; eauto.
  - by rewrite En, Er.
  - rewrite Ec, (sum_calls_insert _ _ _ _ _ Hl), Et, Ht. apply i32_add.
  - rewrite Ec, (sum_calls_insert _ _ _ _ _ Hl), Eb, Hb. apply i64_add.
Qed.

Lemma net_inv_frame s s' : net_inv s -> ncalls s' = ncalls s -> total s' = total s -> nbytes s' = nbytes s ->
  removed s ⊆ removed s' -> named_ok (net s') (removed s') -> net_inv s'.
Proof.
  intros [Hc _ Ht Hb] Ec Et Eb Hr Hn. constructor; rewrite ?Ec, ?Et, ?Eb; try done.
  intros c nc Hl. eapply call_ok_more; eauto.
Qed.

Lemma named_ok_servers rn rn' rem : servers rn' = servers rn -> named_ok rn rem -> named_ok rn' rem.
Proof. unfold named_ok, server_of. by intros ->. Qed.

Lemma server_of_Add sn o rn sn' :
  server_of (AddServer sn o rn) sn' = if decide (sn' = sn) then Some o else server_of rn sn'.
Proof.
  unfold server_of, AddServer, set_servers. cbn [servers].
  case_decide; [subst; by rewrite lookup_insert_eq | by rewrite lookup_insert_ne].
Qed.

Lemma server_of_Delete sn rn sn' :
  server_of (DeleteServer sn rn) sn' = if decide (sn' = sn) then None else server_of rn sn'.
Proof.
  unfold server_of, DeleteServer, set_servers. cbn [servers].
  case_decide; [subst; by rewrite lookup_insert_eq | by rewrite lookup_insert_ne].
Qed.

Lemma not_lost rn rem sn sn' sv : named_ok rn rem -> server_of rn sn' = Some sv -> sn' <> sn ->
  sv ∉ rem ∪ option_to_set (server_of rn sn).
Proof.
  intros Hn Hs Hne. destruct (Hn _ _ Hs) as [Hrem Huniq].
  rewrite not_elem_of_union. split; [done |]. intros H%elem_of_option_to_set. by apply Hne; symmetry; apply Huniq.
Qed.

Lemma named_ok_Add sn o rn rem : named_ok rn rem -> o ∉ rem -> (forall sn', server_of rn sn' <> Some o) ->
  named_ok (AddServer sn o rn) (rem ∪ option_to_set (server_of rn sn)).
Proof.
  intros Hn Ho Hfree sn' sv. rewrite server_of_Add. case_decide as Hd.
  - intros [= <-]. split.
    + rewrite not_elem_of_union. split; [done |]. intros H%elem_of_option_to_set. by apply (Hfree sn).
    + intros sn''. rewrite server_of_Add. case_decide; [congruence |]. intros H'. by destruct (Hfree sn'').
  - intros Hs. split; [by eapply not_lost |]. intros sn''. rewrite server_of_Add.
    case_decide; [intros [= ->]; by destruct (Hfree sn') |]. by apply Hn.
Qed.

Lemma named_ok_Delete sn rn rem : named_ok rn rem ->
  named_ok (DeleteServer sn rn) (rem ∪ option_to_set (server_of rn sn)).
Proof.
  intros Hn sn' sv. rewrite server_of_Delete. case_decide; [done |].
  intros Hs. split; [by eapply not_lost |]. intros sn''. rewrite server_of_Delete.
  case_decide; [done |]. by apply Hn.
Qed.

Lemma loses_more sn s : removed s ⊆ loses sn s.
Proof. unfold loses. apply union_subseteq_l. Qed.

Lemma control_inv s s' : net_inv s -> control s s' -> net_inv s'.
Proof.
  intros HI Hs. pose proof (ni_named _ HI) as Hn.
  destruct Hs as [b|b|b|e rn Hm|e rn Hm|e sn|e b|sn o Ho Hfree|sn|o rs|s' Hc|Hc];
    try (apply (net_inv_frame s); [done..| exact Hn]).
  - unfold MakeEnd in Hm. case_decide; [done |]. injection Hm as <-. apply (net_inv_frame s); [done..| exact Hn].
  - unfold DeleteEnd in Hm. case_decide; [| done]. injection Hm as <-. apply (net_inv_frame s); [done..| exact Hn].
  - apply (net_inv_frame s); try done; [apply loses_more | by apply named_ok_Add].
  - apply (net_inv_frame s); try done; [apply loses_more | by apply named_ok_Delete].
  - unfold Cleanup in Hc. destruct (cleaned s); [done |]. injection Hc as <-.
    apply (net_inv_frame s); [done..| exact Hn].
Qed.

(** The answers of [processReq], by what decided them; some draws give
    each. *)
Lemma answer_none rn req dispatch :
  (forall sn sv rel lr, readEndnameInfo rn (rq_endname req) <> (true, Some sn, Some sv, rel, lr)) ->
  client_reply (processReq rn [] rn (mkDraws 0 0 0) dispatch req) = noReply.
Proof.
  intros H. unfold processReq. destruct (readEndnameInfo _ _) as [[[[[] [sn|]] [sv|]] rel] lr]; try done.
  by destruct (H sn sv rel lr).
Qed.

Lemma answer_dropped rn req dispatch sn sv lr :
  readEndnameInfo rn (rq_endname req) = (true, Some sn, Some sv, false, lr) ->
  client_reply (processReq rn [] rn (mkDraws 0 0 0) dispatch req) = noReply.
Proof. intros H. unfold processReq. by rewrite H. Qed.

Lemma answer_dead rn polls final req dispatch sn sv rel lr :
  readEndnameInfo rn (rq_endname req) = (true, Some sn, Some sv, rel, lr) ->
  waitReply polls (rq_endname req) sn sv = false \/ isServerDead final (rq_endname req) sn sv = true ->
  client_reply (processReq rn polls final (mkDraws 0 0 0) dispatch req) = noReply.
Proof.
  intros H Hd. unfold processReq. rewrite H. destruct (_ && _) in |- *; [done |].
  by destruct Hd as [->| ->]; rewrite ?orb_true_r.
Qed.

Lemma answer_lost rn polls final req dispatch sn sv rel lr :
  readEndnameInfo rn (rq_endname req) = (true, Some sn, Some sv, rel, lr) -> reliable rn = false ->
  client_reply (processReq rn polls final (mkDraws 0 0 0) dispatch req) = noReply.
Proof. intros H Hr. unfold processReq. rewrite H. injection H as _ _ _ <- _. by rewrite Hr. Qed.

Lemma answer_reply rn polls final req dispatch sn sv rel lr :
  readEndnameInfo rn (rq_endname req) = (true, Some sn, Some sv, rel, lr) ->
  waitReply polls (rq_endname req) sn sv = true -> isServerDead final (rq_endname req) sn sv = false ->
  client_reply (processReq rn polls final (mkDraws 100 100 0) dispatch req) = dispatch sv req.
Proof.
  intros H Hw Hd. unfold processReq. rewrite H, Hw, Hd. cbn. rewrite !andb_false_r. by destruct lr.
Qed.

Lemma waitReply_snoc polls rn e sn sv :
  waitReply (polls ++ [rn]) e sn sv = waitReply polls e sn sv && negb (isServerDead rn e sn sv).
Proof. induction polls as [|rn' polls IH]; simpl; [by destruct (isServerDead _ _ _ _) |]. by destruct (isServerDead rn' _ _ _). Qed.

(** A handler that is still at work when its request is given up. *)
Lemma call_ok_runs rem nc rn0 sn sv polls got : call_ok rem nc -> nc_phase nc = PExec rn0 sn sv polls got ->
  nc_runs nc = [] \/ nc_handler nc = HNone /\ length (nc_runs nc) = 1%nat.
Proof.
  unfold call_ok. intros H E. rewrite E in H. destruct H as (_ & _ & _ & H).
  destruct got as [r|]; [destruct H as (-> & b & -> & _); by right | left; apply H].
Qed.

Lemma reached_server nc rn polls final sn sv rel lr : nc_seen nc = Some (rn, polls, final) ->
  readEndnameInfo rn (rq_endname (nc_req nc)) = (true, Some sn, Some sv, rel, lr) ->
  waitReply polls (rq_endname (nc_req nc)) sn sv = true -> isServerDead final (rq_endname (nc_req nc)) sn sv = false ->
  reached nc sv.
Proof.
  intros Hs Hi Hw Hd. exists rn, polls, final, sn. split; [done |]. unfold readEndnameInfo in Hi. injection Hi as Hen Hc Hsv _ _.
  destruct (connections rn !! rq_endname (nc_req nc)) as [[sn'|]|]; simplify_eq/=. split; [done |].
  rewrite waitReply_true in Hw. apply isServerDead_false in Hd.
  intros rn' [->|[Hin|Hin]%elem_of_app]%elem_of_cons; [done | by apply isServerDead_false, Hw |].
  by apply list_elem_of_singleton in Hin as ->.
Qed.

(** A handler that returns after its call was given up. *)
Lemma answered_return req p p' sv x runs seen rep :
  answered (mkNCall req p (HRunning sv) runs seen) rep -> answered (mkNCall req p' HNone (runs ++ [x]) seen) rep.
Proof.
  intros (Ha & Hpos & [E|[? _]]); [| done]. cbn in E. subst runs.
  destruct Hpos as [->|[? _]]; [| done]. split; [| split; [by left | by right]].
  cbn in *. destruct seen as [[[rn0 polls] final]|]; [| done]. destruct Ha as [draws Ha]. exists draws.
  intros dispatch _. apply Ha. by intros ??? ?%not_elem_of_nil.
Qed.

Lemma decided_none rem nc rn0 polls final :
  nc_runs nc = [] \/ nc_handler nc = HNone /\ length (nc_runs nc) = 1%nat ->
  (forall dispatch, client_reply (processReq rn0 polls final (mkDraws 0 0 0) dispatch (nc_req nc)) = noReply) ->
  call_ok rem (decided (PReply noReply) rn0 polls final nc).
Proof. intros Hr Ha. split; [by eexists |]. split; [by eexists |]. split; [by left | done]. Qed.

Lemma net_inv_same s c nc nc' : net_inv s -> ncalls s !! c = Some nc -> call_ok (removed s) nc' ->
  taken nc' = taken nc -> carried nc' = carried nc -> net_inv (set_call c nc' s).
Proof.
  intros HI Hl Hok Et Eb. eapply net_inv_call; eauto; rewrite ?Et, ?Eb, Z.sub_diag; cbn [total nbytes set_call].
  - by rewrite (ni_total _ HI), i32_add, Z.add_0_r.
  - by rewrite (ni_bytes _ HI), i64_add, Z.add_0_r.
Qed.

Ltac weigh :=
  unfold carried, taken; cbn [nc_phase nc_seen nc_req nc_handler nc_runs with_phase with_handler decided];
  change (zlen (rm_reply noReply)) with 0; try match goal with |- i64 _ = i64 _ => f_equal | _ => idtac end; lia.

Lemma net_call_step_inv s c nc s' : net_inv s -> ncalls s !! c = Some nc -> call_step s c nc s' -> net_inv s'.
Proof.
  intros HI Hl Hs. pose proof (ni_calls _ HI _ _ Hl) as Hok.
  pose proof (fun rn0 sn sv polls got => call_ok_runs _ _ rn0 sn sv polls got Hok) as Hruns.
  destruct Hs as [Hp Hcl|Hp Hrun|Hp Hno|sn sv lr Hp Hi|sn sv rel lr Hp Hi|sv rs r Hh Hd|sv rs r Hh Hd|
    rn0 sn sv polls got Hp Hd|rn0 sn sv polls got final Hp Hd|rn0 sn sv polls r Hp Hd|rn0 sn sv polls r Hp Hrel Hd|
    rn0 sn sv polls r Hp Hd|rep Hp|rep Hp].
  all: destruct nc as [req ph h runs seen]; cbn in *; subst; cbn in *.
  all: try apply (net_inv_same _ _ _ _ HI Hl); try weigh.
  - destruct Hok as (_ & -> & ->). split_and!; [done | by left | by left].
  - destruct Hok as (_ & _ & ->). done.
  - destruct Hok as (_ & _ & ->). weigh.
  - apply (net_inv_call s _ c _ (mkNCall req PArrived h runs seen) HI Hl); try done; cbn [total nbytes set_call count_request]; weigh.
  - destruct Hok as (_ & -> & _). apply (decided_none _ _ _ _ _); [by left | intros dispatch; by apply answer_none].
  - destruct Hok as (_ & -> & _). apply (decided_none _ _ _ _ _); [by left | intros dispatch; by eapply answer_dropped].
  - destruct Hok as (_ & -> & ->). split_and!; eauto.
  - eapply (net_inv_frame (set_call c (mkNCall req ph (HRunning sv) runs seen) s)); try done; [| apply (ni_named _ HI)].
    apply (net_inv_same _ _ _ _ HI Hl); try done.
    unfold call_ok, answered in *. destruct ph as [| |? ? ? ? []| | |]; cbn in *; naive_solver.
  - destruct ph as [| |rn0 sn sv' polls []|rep|rep|rep]; unfold call_ok in *; cbn in *;
      try (by eapply answered_return); try (destruct Hok; split; [done | by eapply answered_return]); try naive_solver.
    + destruct Hok as (? & ? & ? & -> & [?|[= ->]]); [done |]. split_and!; try done.
      eexists. split; [done |]. by intros ?%bool_decide_eq_true.
  - by destruct ph as [| |? ? ? ? []| | |].
  - by destruct ph as [| |? ? ? ? []| | |].
  - destruct Hok as (-> & Hi & Hw & Hg). unfold call_ok. cbn. rewrite waitReply_snoc, Hw, Hd. by split_and!.
  - destruct Hok as (_ & (rel & lr & Hi) & Hw & _). apply (decided_none _ _ _ _ _); [by eapply Hruns |].
    intros dispatch. eapply answer_dead; [done |]. left. by rewrite waitReply_snoc; cbn [nc_req]; rewrite Hd, andb_false_r.
  - destruct Hok as (_ & (rel & lr & Hi) & Hw & _). apply (decided_none _ _ _ _ _); [by eapply Hruns |].
    intros dispatch. eapply answer_dead; [done |]. by right.
  - destruct Hok as (_ & (rel & lr & Hi) & Hw & _). apply (decided_none _ _ _ _ _); [by eapply Hruns |].
    intros dispatch. by eapply answer_lost.
  - destruct Hok as (_ & (rel & lr & Hi) & Hw & -> & b & -> & Hb). split; [by eexists |].
    split_and!; [| right; split; [done |]; exists sv | by right].
    + eexists. intros dispatch Hrun. cbn [nc_req decided]. erewrite answer_reply by done.
      symmetry. apply (Hrun sv r b), list_elem_of_here.
    + split; [by eapply reached_server |]. apply isServerDead_false in Hd as [_ Hsv]. destruct (ni_named _ HI _ _ Hsv) as [Hrem _].
      destruct b; [by destruct Hrem; apply Hb | done].
  - apply (net_inv_call s _ c _ (mkNCall req (PReply rep) h runs seen) HI Hl); try done; cbn [total nbytes set_call count_bytes];
      [by rewrite (ni_total _ HI), i32_add, Z.add_0_r | weigh].
  - apply Hok.
  - destruct Hok as [[x ->] _]. done.
  - destruct Hok as [[x ->] _]. done.
Qed.

Lemma net_inv_reachable s : net_reachable s -> net_inv s.
Proof.
  apply invariant_reachable.
  - intros ? [objs ->]. by constructor.
  - intros ? ? HI [s' Hs|c req Hl|c nc s' Hl Hs].
    + by eapply control_inv.
    + constructor; cbn [net removed total nbytes ncalls set_call].
      * intros c' nc' [[<- <-]|[_ Hl']]%lookup_insert_Some; [by split_and! | by eapply (ni_calls _ HI)].
      * apply (ni_named _ HI).
      * rewrite sum_calls_new by done. apply (ni_total _ HI).
      * rewrite sum_calls_new by done. apply (ni_bytes _ HI).
    + by eapply net_call_step_inv.
Qed.

(** ** A call always can return *)

(** How far a call is from its answer. *)
Definition call_rank (nc : NCall) : nat :=
  match nc_phase nc with
  | PSend => 7
  | PArrived => 6
  | PExec _ _ _ _ None => match nc_handler nc with HStarted _ => 5 | _ => 4 end
  | PExec _ _ _ _ (Some _) => 3
  | PLate _ => 2
  | PReply _ => 1
  | PDone _ => 0
  end.

Definition serves (s : NetSys) (req : reqMsg) : Prop :=
  forall sv, is_ok (Server_dispatch req (objects s sv)).2.

Lemma goroutine_runs s : net_reachable s -> running s = true \/ cleaned s = true.
Proof.
  apply (invariant_reachable _ _ (fun s => running s = true \/ cleaned s = true)).
  - intros ? [objs ->]. by left.
  - intros s1 s2 H [s' Hs|c req Hl|c nc s' Hl Hs]; [| done |].
    + destruct Hs as [| | | | | | | | | |s' Hc|Hc]; try done; [| by right].
      unfold Cleanup in Hc. destruct (cleaned s1); [done |]. injection Hc as <-. by right.
    + by destruct Hs.
Qed.

Lemma call_step_serves s c nc s' req : call_step s c nc s' -> serves s req -> serves s' req.
Proof.
  intros Hs Hr sv. destruct Hs as [| | | | |sv' rs r _ Hd| | | | | | | |]; try exact (Hr sv).
  cbn [objects set_object set_call]. case_decide; [| exact (Hr sv)]. subst sv'.
  injection Hd as <- _. specialize (Hr sv). exact Hr.
Qed.

Lemma serves_dispatch s req sv : serves s req -> exists rs r, Server_dispatch req (objects s sv) = (rs, Ok r).
Proof. intros H. destruct (H sv) as [r Hr]. exists (Server_dispatch req (objects s sv)).1, r. by rewrite <- Hr. Qed.

(** One step of call [c] that brings it closer to its answer. *)
Definition advances (s : NetSys) (c : nat) (nc : NCall) : Prop :=
  exists s' nc', call_step s c nc s' /\ ncalls s' !! c = Some nc' /\ nc_req nc' = nc_req nc /\
    (call_rank nc' < call_rank nc)%nat.

Lemma advances_by s c nc s' nc' : call_step s c nc s' -> ncalls s' = <[c := nc']> (ncalls s) ->
  nc_req nc' = nc_req nc -> (call_rank nc' < call_rank nc)%nat -> advances s c nc.
Proof. intros Hs Hl Hr Hk. exists s', nc'. rewrite Hl, lookup_insert_eq. by split_and!. Qed.

Lemma arrived_advances s c nc : nc_phase nc = PArrived -> advances s c nc.
Proof.
  intros Hp. destruct (readEndnameInfo (net s) (rq_endname (nc_req nc))) as [[[[en osn] osv] rel] lr] eqn:Hi.
  destruct nc as [req ph h runs seen]. cbn in *. subst ph.
  destruct en, osn as [sn|], osv as [sv|];
    try (eapply advances_by; [apply cs_no_server; [done | cbn; congruence] | done | done | unfold call_rank; cbn; lia]).
  eapply advances_by; [by eapply cs_execute | done | done | unfold call_rank; cbn; lia].
Qed.

Lemma returned_advances s c nc rn0 sn sv polls r : nc_phase nc = PExec rn0 sn sv polls (Some r) -> advances s c nc.
Proof.
  intros Hp. destruct nc as [req ph h runs seen]. cbn in Hp. subst ph.
  destruct (isServerDead (net s) (rq_endname req) sn sv) eqn:Hd.
  - eapply advances_by; [by eapply cs_killed | done | done | unfold call_rank; cbn; lia].
  - eapply advances_by; [by eapply cs_reply | done | done | unfold call_rank; cbn; lia].
Qed.

Lemma executing_advances s c nc rn0 sn sv polls : serves s (nc_req nc) ->
  nc_phase nc = PExec rn0 sn sv polls None -> nc_handler nc = HStarted sv \/ nc_handler nc = HRunning sv ->
  advances s c nc.
Proof.
  intros Hs Hp Hh. destruct (serves_dispatch _ _ sv Hs) as (rs & r & Hd).
  destruct nc as [req ph h runs seen]. cbn in *. subst ph. destruct Hh as [-> | ->].
  - eapply advances_by; [by eapply cs_dispatch | done | done | unfold call_rank; cbn; lia].
  - eapply advances_by; [by eapply cs_return | done | done | unfold call_rank; cbn; lia].
Qed.

Lemma call_progress s c nc : net_reachable s -> ncalls s !! c = Some nc -> serves s (nc_req nc) ->
  (exists rep, nc_phase nc = PDone rep) \/ advances s c nc.
Proof.
  intros HR Hl Hs. pose proof (ni_calls _ (net_inv_reachable _ HR) _ _ Hl) as Hok. unfold call_ok in Hok.
  destruct (nc_phase nc) as [| |rn0 sn sv polls [r|]|rep|rep|rep] eqn:Hp; [right..| by eauto].
  - destruct nc as [req ph h runs seen]. cbn in *. subst ph. destruct (goroutine_runs _ HR).
    + eapply advances_by; [by apply cs_take | done | done | unfold call_rank; cbn; lia].
    + eapply advances_by; [by apply cs_destroyed | done | done | unfold call_rank; cbn; lia].
  - by apply arrived_advances.
  - by eapply returned_advances.
  - eapply executing_advances; eauto. apply Hok.
  - destruct nc as [req ph h runs seen]. cbn in *. subst ph.
    eapply advances_by; [by apply cs_count | done | done | unfold call_rank; cbn; lia].
  - destruct nc as [req ph h runs seen]. cbn in *. subst ph.
    eapply advances_by; [by apply cs_receive | done | done | unfold call_rank; cbn; lia].
Qed.

Definition own_step (c : nat) (s s' : NetSys) : Prop :=
  exists nc, ncalls s !! c = Some nc /\ call_step s c nc s'.

(** ** Properties *)

(** C34: Any number of calls on a network that the tester changes all the
    time.  A call that has returned got the answer that [processReq] gives
    on the networks it looked at, with the handlers' replies as its servers
    gave them, or none because the network was destroyed.  Its handler ran
    at most once, and if the answer is positive then it ran exactly once, at
    the server object that stood behind the call's enabled end on every
    network the call looked at, from the first check to the last; the answer
    is what that run returned, and it had returned before the object was
    deleted or replaced: no client gets a positive reply for work done in a
    deleted server. *)
Theorem Call_answered s c nc rep :
  net_reachable s -> ncalls s !! c = Some nc -> nc_phase nc = PDone rep ->
  match nc_seen nc with
  | None => rep = noReply
  | Some (rn0, polls, final) =>
      exists draws, forall dispatch, as_run nc dispatch ->
        rep = client_reply (processReq rn0 polls final draws dispatch (nc_req nc))
  end /\
  (length (nc_runs nc) <= 1)%nat /\
  (rm_ok rep = true -> exists server, reached nc server /\ nc_runs nc = [(server, rep, false)]).
Proof.
  intros HR Hl Hp. pose proof (ni_calls _ (net_inv_reachable _ HR) _ _ Hl) as Hok.
  unfold call_ok in Hok. rewrite Hp in Hok. destruct Hok as (Ha & Hpos & Hlen). split_and!.
  - done.
  - destruct Hlen as [->|[_ ->]]; cbn; lia.
  - intros Hrep. destruct Hpos as [->|[_ Hr]]; [done | exact Hr].
Qed.

(** The statistics of the network count, modulo 2^32 and 2^64, the
    requests that were taken, the bytes of these requests and the bytes of
    the replies on their way. *)
Theorem network_counters s :
  net_reachable s ->
  GetTotalCount s = i32 (sum_calls taken (ncalls s)) /\ GetTotalBytes s = i64 (sum_calls carried (ncalls s)).
Proof. intros HR%net_inv_reachable. split; [apply (ni_total _ HR) | apply (ni_bytes _ HR)]. Qed.

(** C35: A call can always return, whatever the tester has done to the
    network - ends disabled, servers deleted, the network destroyed - as
    long as the servers know its method: some steps of the call itself lead
    to its answer. *)
Theorem Call_returns s c nc :
  net_reachable s -> ncalls s !! c = Some nc -> serves s (nc_req nc) ->
  exists s' nc' rep, rtc (own_step c) s s' /\ ncalls s' !! c = Some nc' /\ nc_phase nc' = PDone rep.
Proof.
  remember (call_rank nc) as k eqn:Hk. revert s nc Hk.
  induction k as [k IH] using lt_wf_ind. intros s nc -> HR Hl Hs.
  destruct (call_progress _ _ _ HR Hl Hs) as [[rep Hp]|(s1 & nc1 & Hst & Hl1 & Hreq & Hlt)].
  - exists s, nc, rep. by split_and!; [apply rtc_refl | |].
  - assert (net_step s s1) as Hns by by eapply ns_step.
    destruct (IH _ Hlt s1 nc1 eq_refl) as (s' & nc' & rep & Hr & Hl' & Hp);
      [by eapply reach_step | done | rewrite Hreq; by eapply call_step_serves |].
    exists s', nc', rep. split_and!; [| done | done].
    eapply rtc_l; [by exists nc | done].
Qed.

(** ** An execution: one call, answered *)
Definition ex_svc : Service := MakeService "KVServer"
  [mkMethod "Get" "" 3 true 0 (fun args => args ++ [7]); mkMethod "Kill" "" 1 false 0 (fun args => args)].
Definition ex_objs : server_ref -> Server := fun _ => AddService ex_svc MakeServer.
Definition ex_req : reqMsg := mkReqMsg "e" "KVServer.Get" [1; 2].
Definition ex_s0 : NetSys := mkNetSys MakeNetwork 0 0 false true ex_objs ∅ ∅.
Definition ex_wired : NetSys :=
  let s1 := set_net (Enable "e" true (net ex_s0)) (removed ex_s0) ex_s0 in
  let s2 := set_net (Connect "e" "s" (net s1)) (removed s1) s1 in
  set_net (AddServer "s" 0%nat (net s2)) (loses "s" s2) s2.
Definition ex_sent : NetSys := set_call 0 (mkNCall ex_req PSend HNone [] None) ex_wired.

Lemma ex_sent_reachable : net_reachable ex_sent.
Proof.
  eapply reach_step; [eapply reach_step; [eapply reach_step; [eapply reach_step; [apply reach_init|]|]|]|].
  - by exists ex_objs.
  - apply ns_control, (ct_Enable _ "e" true).
  - apply ns_control, (ct_Connect _ "e" "s").
  - apply ns_control, (ct_AddServer _ "s" 0%nat); [set_solver | done].
  - by apply (ns_call _ 0%nat ex_req).
Qed.

Definition ex_rep : replyMsg := mkReplyMsg true [1; 2; 7].
Definition ex_nc0 : NCall := mkNCall ex_req PSend HNone [] None.
Definition ex_nc1 : NCall := with_phase PArrived ex_nc0.
Definition ex_nc2 : NCall := with_handler (HStarted 0%nat) (with_phase (PExec (net ex_sent) "s" 0%nat [] None) ex_nc1).
Definition ex_nc3 : NCall := with_handler (HRunning 0%nat) ex_nc2.
Definition ex_nc4 : NCall :=
  mkNCall ex_req (PExec (net ex_sent) "s" 0%nat [] (Some ex_rep)) HNone [(0%nat, ex_rep, bool_decide (0%nat ∈ removed ex_sent))] None.
Definition ex_nc5 : NCall := decided (PLate ex_rep) (net ex_sent) [] (net ex_sent) ex_nc4.
Definition ex_nc6 : NCall := with_phase (PReply ex_rep) ex_nc5.
Definition ex_nc7 : NCall := with_phase (PDone ex_rep) ex_nc6.
Definition ex_s1 : NetSys := count_request 2 (set_call 0 ex_nc1 ex_sent).
Definition ex_s2 : NetSys := set_call 0 ex_nc2 ex_s1.
Definition ex_s3 : NetSys := set_object 0%nat (mkServer (services (ex_objs 0%nat)) 1) (set_call 0 ex_nc3 ex_s2).
Definition ex_s4 : NetSys := set_call 0 ex_nc4 ex_s3.
Definition ex_s5 : NetSys := set_call 0 ex_nc5 ex_s4.
Definition ex_s6 : NetSys := count_bytes 3 (set_call 0 ex_nc6 ex_s5).
Definition ex_s7 : NetSys := set_call 0 ex_nc7 ex_s6.

Lemma own_reachable s c nc s' :
  net_reachable s -> ncalls s !! c = Some nc -> call_step s c nc s' -> net_reachable s'.
Proof. intros HR Hl Hs. eapply reach_step; [exact HR | by eapply ns_step]. Qed.

Lemma ex_s7_reachable : net_reachable ex_s7.
Proof.
  apply (own_reachable ex_s6 0 ex_nc6); [| apply lookup_insert_eq | by apply (cs_receive _ _ _ ex_rep)].
  apply (own_reachable ex_s5 0 ex_nc5); [| apply lookup_insert_eq | by apply (cs_count _ _ _ ex_rep)].
  apply (own_reachable ex_s4 0 ex_nc4); [| apply lookup_insert_eq | exact (cs_reply ex_s4 0 ex_nc4 (net ex_sent) "s" 0%nat [] ex_rep eq_refl eq_refl)].
  apply (own_reachable ex_s3 0 ex_nc3); [| apply lookup_insert_eq | exact (cs_return ex_s3 0 ex_nc3 0%nat _ ex_rep eq_refl eq_refl)].
  apply (own_reachable ex_s2 0 ex_nc2); [| apply lookup_insert_eq | exact (cs_dispatch ex_s2 0 ex_nc2 0%nat _ ex_rep eq_refl eq_refl)].
  apply (own_reachable ex_s1 0 ex_nc1); [| apply lookup_insert_eq | exact (cs_execute ex_s1 0 ex_nc1 "s" 0%nat _ _ eq_refl eq_refl)].
  apply (own_reachable ex_sent 0 ex_nc0); [exact ex_sent_reachable | apply lookup_insert_eq | by apply cs_take].
Qed.

Lemma Call_answered_witness : exists server, reached ex_nc7 server /\ nc_runs ex_nc7 = [(server, ex_rep, false)].
Proof.
  apply (Call_answered ex_s7 0%nat ex_nc7 ex_rep ex_s7_reachable).
  - apply lookup_insert_eq.
  - reflexivity.
  - reflexivity.
Defined.

Lemma network_counters_witness : GetTotalCount ex_s7 = 1 /\ GetTotalBytes ex_s7 = 5.
Proof. destruct (network_counters ex_s7 ex_s7_reachable) as [-> ->]. split; vm_compute; reflexivity. Defined.

Lemma Call_returns_witness : exists s' nc' rep,
  rtc (own_step 0) ex_sent s' /\ ncalls s' !! 0%nat = Some nc' /\ nc_phase nc' = PDone rep.
Proof.
  eapply (Call_returns ex_sent 0%nat); [exact ex_sent_reachable | apply lookup_insert_eq |].
  intros sv. exists ex_rep. reflexivity.
Defined.
