(* ===== verification/Labgob.v ===== *)
(** * The encoder's checks ([labgob/labgob.go])

    [labgob] wraps [encoding/gob] and looks at every type and value that
    goes through it: fields whose names start with a small letter are not
    sent, and a reply variable that holds something already is not
    overwritten by a zero value.  This file models the two searches,
    [checkType] over the graph of types with the shared set [checked] and
    [checkDefault1] over a value, and the wrappers that run them; [gob]
    itself is a parameter.  The first half proves what one call does, the
    second what any number of goroutines do together. *)
From stdpp Require Import relations.
From Stdlib Require Import SpecFloat.
From S2P Require Import Prelude.
#[local] Open Scope Z_scope.

(** ** Types and values as [reflect] shows them

    A [reflect.Type] is compared by identity; what the code asks of it is
    its name and its shape.  The types of a program form a graph, with
    cycles for recursive types. *)
Definition typ := nat.

Record field := mkField { fName : string; fType : typ; Anonymous : bool }.

Inductive Kind :=
| Struct (fields : list field)
| Slice (elem : typ) | Array (elem : typ) | Ptr (elem : typ)
| Map (key elem : typ)
| Basic                     (* booleans, integers, floats and strings *)
| Other.                    (* interfaces, functions, channels, complex numbers *)

Record type_info := mkType { tName : string; tKind : Kind }.

(** A variable in memory; a pointer holds nil or an address. *)
Definition loc := nat.

Inductive basic :=
| BBool (b : bool) | BInt (z : Z) | BFloat (f : spec_float) | BString (s : string).

Inductive value :=
| VBasic (t : typ) (b : basic)
| VStruct (t : typ) (vs : list value)
| VPtr (t : typ) (p : option loc)
| VOther (t : typ).

Definition Type_ (v : value) : typ :=
  match v with VBasic t _ | VStruct t _ | VPtr t _ | VOther t => t end.

(** [reflect.DeepEqual] with the zero value of the same basic type. *)
Definition is_zero (b : basic) : bool :=
  match b with
  | BBool b => negb b
  | BInt z => Z.eqb z 0
  | BFloat (S754_zero _) => true
  | BFloat _ => false
  | BString s => String.eqb s ""
  end.

(** What [reflect] remembers of how a value was reached: through exported
    fields only, last through an embedded field of an unexported type, or
    through another unexported field somewhere. *)
Inductive flagRO := flagNone | flagEmbedRO | flagStickyRO.

(** [unicode.IsUpper] of the first rune of a name; [reflect] decides by the
    same test whether a field is exported. *)
Definition IsUpper (s : string) : bool :=
  match s with
  | String a _ => let n := Ascii.nat_of_ascii a in (65 <=? n)%nat && (n <=? 90)%nat
  | EmptyString => false
  end.

Definition Field_flag (ro : flagRO) (f : field) : flagRO :=
  if IsUpper (fName f) then match ro with flagStickyRO => flagStickyRO | _ => flagNone end
  else if Anonymous f then match ro with flagStickyRO => flagStickyRO | _ => flagEmbedRO end
  else flagStickyRO.

(** ** The state of the package *)
Inductive line :=
| LowerCase (f t : string)      (* labgob error: lower-case field f of t *)
| NonDefault (what : string).   (* labgob warning: decoding into what *)

(** [errorCount] and [checked] under [mu], and what was printed. *)
Record labgob := mkLabgob {
  errorCount : Z;
  checked : gset typ;
  output : list line;
}.

Definition mark (t : typ) (st : labgob) : labgob :=
  mkLabgob (errorCount st) ({[t]} ∪ checked st) (output st).
Definition print (l : line) (st : labgob) : labgob :=
  mkLabgob (errorCount st) (checked st) (output st ++ [l]).
Definition count (st : labgob) : labgob :=
  mkLabgob (i64 (errorCount st + 1)) (checked st) (output st).

(** The critical section of [checkDefault1]. *)
Definition warn (what : string) (st : labgob) : labgob :=
  count (if decide (errorCount st < 1) then print (NonDefault what) st else st).

Section Labgob.
Context (info : typ -> type_info).
Context (heap : loc -> value).

(** ** [checkType] *)
Fixpoint checkFields (check : typ -> labgob -> option labgob) (tn : string)
    (fs : list field) (st : labgob) : option labgob :=
  match fs with
  | [] => Some st
  | f :: fs =>
      let st := if IsUpper (fName f) then st
                else count (print (LowerCase (fName f) tn) st) in
      st ← check (fType f) st;
      checkFields check tn fs st
  end.

Fixpoint checkType (fuel : nat) (t : typ) (st : labgob) : option labgob :=
  match fuel with
  | O => None
  | S fuel =>
      if decide (t ∈ checked st) then Some st
      else
        let st := mark t st in
        match tKind (info t) with
        | Struct fs => checkFields (checkType fuel) (tName (info t)) fs st
        | Slice e | Array e | Ptr e => checkType fuel e st
        | Map k e => st ← checkType fuel e st; checkType fuel k st
        | Basic | Other => Some st
        end
  end.

(** [reflect.TypeOf(nil)] is nil, and asking it for its kind panics. *)
Definition checkValue (fuel : nat) (e : option value) (st : labgob) : option (Res labgob) :=
  match e with
  | None => Some Panic
  | Some v => Ok <$> checkType fuel (Type_ v) st
  end.

(** ** [checkDefault] *)
Definition fields_of (t : typ) : list field :=
  match tKind (info t) with Struct fs => fs | _ => [] end.

Definition join_name (name name1 : string) : string :=
  if decide (name = "") then name1 else (name +:+ "." +:+ name1)%string.

Fixpoint checkDefaultFields
    (check : flagRO -> value -> string -> labgob -> option (Res labgob))
    (ro : flagRO) (name : string) (fvs : list (field * value)) (st : labgob) :
    option (Res labgob) :=
  match fvs with
  | [] => Some (Ok st)
  | (f, vv) :: fvs =>
      r ← check (Field_flag ro f) vv (join_name name (fName f)) st;
      match r with
      | Panic => Some Panic
      | Ok st => checkDefaultFields check ro name fvs st
      end
  end.

Fixpoint checkDefault1 (fuel : nat) (ro : flagRO) (v : value) (depth : Z) (name : string)
    (st : labgob) : option (Res labgob) :=
  match fuel with
  | O => None
  | S fuel =>
      if decide (depth > 3) then Some (Ok st)
      else match v with
      | VStruct t vs =>
          checkDefaultFields (fun ro vv name1 => checkDefault1 fuel ro vv (depth + 1) name1)
            ro name (zip (fields_of t) vs) st
      | VPtr t None => Some (Ok st)
      | VPtr t (Some l) => checkDefault1 fuel ro (heap l) (depth + 1) name st
      | VBasic t b =>
          match ro with
          | flagNone =>
              if is_zero b then Some (Ok st)
              else Some (Ok (warn (if decide (name = "") then tName (info t) else name) st))
          | _ => Some Panic      (* [value.Interface()] *)
          end
      | VOther t => Some (Ok st)
      end
  end.

Definition checkDefault (fuel : nat) (e : option value) (st : labgob) : option (Res labgob) :=
  match e with
  | None => Some (Ok st)
  | Some v => checkDefault1 fuel flagNone v 1 "" st
  end.

End Labgob.

(** ** The wrappers *)
Section Wrappers.
Context (info : typ -> type_info).
(** [encoding/gob]: encoders, decoders and the registry, the memory that
    decoding writes to, and errors. *)
Context {Enc Dec Reg Err : Type}.
Context (gob_Encode : Enc -> (loc -> value) -> option value -> Enc * Err).
Context (gob_Decode : Dec -> (loc -> value) -> option value -> Dec * (loc -> value) * Err).
Context (gob_Register : option value -> Reg -> Res Reg).
Context (gob_RegisterName : string -> option value -> Reg -> Res Reg).

Record LabEncoder := NewEncoder { enc_gob : Enc }.
Record LabDecoder := NewDecoder { dec_gob : Dec }.

Definition Encode (fuel : nat) (enc : LabEncoder) (heap : loc -> value) (e : option value)
    (st : labgob) : option (Res (labgob * LabEncoder * Err)) :=
  r ← checkValue info fuel e st;
  Some (let* st := r in
        let '(g, err) := gob_Encode (enc_gob enc) heap e in
        Ok (st, NewEncoder g, err)).

Definition Decode (fuel : nat) (dec : LabDecoder) (heap : loc -> value) (e : option value)
    (st : labgob) : option (Res (labgob * LabDecoder * (loc -> value) * Err)) :=
  r ← checkValue info fuel e st;
  match r with
  | Panic => Some Panic
  | Ok st =>
      r ← checkDefault info heap fuel e st;
      Some (let* st := r in
            let '(g, heap, err) := gob_Decode (dec_gob dec) heap e in
            Ok (st, NewDecoder g, heap, err))
  end.

Definition Register (fuel : nat) (e : option value) (reg : Reg)
    (st : labgob) : option (Res (labgob * Reg)) :=
  r ← checkValue info fuel e st;
  Some (let* st := r in let* reg := gob_Register e reg in Ok (st, reg)).

Definition RegisterName (fuel : nat) (name : string) (e : option value) (reg : Reg)
    (st : labgob) : option (Res (labgob * Reg)) :=
  r ← checkValue info fuel e st;
  Some (let* st := r in let* reg := gob_RegisterName name e reg in Ok (st, reg)).

End Wrappers.

(** ** Calls as sequences of critical sections

    [checkType] takes [mu] to look a type up and mark it, prints outside of
    the lock, and takes it again to count.  A call is cut into tasks there;
    the work a goroutine has left is a list of tasks. *)
Inductive task :=
| TCheck (t : typ)
| TPrint (l : line)
| TCount
| TWarn (what : string).

Section Tasks.
Context (info : typ -> type_info).

Definition field_tasks (tn : string) (f : field) : list task :=
  (if IsUpper (fName f) then [] else [TPrint (LowerCase (fName f) tn); TCount]) ++
  [TCheck (fType f)].

(** What is left to do for a type once it is marked. *)
Definition expand (t : typ) : list task :=
  match tKind (info t) with
  | Struct fs => concat (field_tasks (tName (info t)) <$> fs)
  | Slice e | Array e | Ptr e => [TCheck e]
  | Map k e => [TCheck e; TCheck k]
  | Basic | Other => []
  end.

Definition run_task (a : task) (st : labgob) : list task * labgob :=
  match a with
  | TCheck t => if decide (t ∈ checked st) then ([], st) else (expand t, mark t st)
  | TPrint l => ([], print l st)
  | TCount => ([], count st)
  | TWarn what => ([], warn what st)
  end.

Inductive task_step : list task * labgob -> list task * labgob -> Prop :=
| task_step_run a k st : task_step (a :: k, st) ((run_task a st).1 ++ k, (run_task a st).2).

(** The types a type is made of. *)
Definition components (t : typ) : list typ :=
  match tKind (info t) with
  | Struct fs => fType <$> fs
  | Slice e | Array e | Ptr e => [e]
  | Map k e => [e; k]
  | Basic | Other => []
  end.

Definition part_of (t u : typ) : Prop := u ∈ components t.

(** The complaints about the fields of a type. *)
Definition complaints (t : typ) : list line :=
  match tKind (info t) with
  | Struct fs =>
      (fun f => LowerCase (fName f) (tName (info t))) <$> filter (fun f => IsUpper (fName f) = false) fs
  | _ => []
  end.

(** The function and the tasks do the same. *)
Lemma run_task_step a k st new st' : run_task a st = (new, st') ->
  task_step (a :: k, st) (new ++ k, st').
Proof. intros E. pose proof (task_step_run a k st) as H. by rewrite E in H. Qed.

Lemma check_fields_steps fuel tn fs k st st' :
  (forall t k st st', checkType info fuel t st = Some st' ->
     rtc task_step (TCheck t :: k, st) (k, st')) ->
  checkFields (checkType info fuel) tn fs st = Some st' ->
  rtc task_step (concat (field_tasks tn <$> fs) ++ k, st) (k, st').
Proof.
  intros IH. revert st. induction fs as [|f fs IHfs]; intros st H; simpl in H.
  { injection H as <-. apply rtc_refl. }
  apply bind_Some in H as (st1 & H1 & H2). specialize (IHfs _ H2).
  simpl. unfold field_tasks at 1. rewrite <- !(assoc_L (++)).
  destruct (IsUpper (fName f)); simpl in *.
  - etrans; [| exact IHfs]. by apply IH.
  - eapply rtc_l; [by apply run_task_step with (new := []) |].
    eapply rtc_l; [by apply run_task_step with (new := []) |]. simpl.
    etrans; [| exact IHfs]. by apply IH.
Qed.

Lemma checkType_steps fuel t k st st' : checkType info fuel t st = Some st' ->
  rtc task_step (TCheck t :: k, st) (k, st').
Proof.
  revert t k st st'. induction fuel as [|fuel IH]; intros t k st st' H; simpl in H; [done |].
  destruct (decide (t ∈ checked st)) as [Hin|Hin].
  { injection H as <-. apply rtc_once, run_task_step with (new := []). simpl.
    by rewrite decide_True. }
  eapply rtc_l; [apply run_task_step with (new := expand t) (st' := mark t st);
    simpl; by rewrite decide_False |].
  unfold expand. destruct (tKind (info t)); simpl.
  - by eapply check_fields_steps.
  - by apply IH.
  - by apply IH.
  - by apply IH.
  - apply bind_Some in H as (st1 & H1 & H2).
    etrans; [by apply IH |]. by apply IH.
  - injection H as <-. apply rtc_refl.
  - injection H as <-. apply rtc_refl.
Qed.

End Tasks.

(** ** Any number of goroutines

    A goroutine that calls [Encode] or [Register] checks a type; one that
    calls [Decode] checks a type and then warns about what its variable
    holds already.  The steps of all of them interleave. *)
Record calls := mkCalls {
  lib : labgob;
  threads : list (list task);
  roots : list typ;           (* ghost: the types whose check was called *)
  found : list string;        (* ghost: what the calls of [Decode] warn about *)
}.

Definition pending (s : calls) : list task := concat (threads s).

Definition prints_of (a : task) : list line :=
  match a with TPrint l => [l] | _ => [] end.
Definition counts_of (a : task) : list task :=
  match a with TCount | TWarn _ => [a] | _ => [] end.
Definition is_lower (l : line) : Prop :=
  match l with LowerCase _ _ => True | _ => False end.
#[global] Instance is_lower_dec l : Decision (is_lower l).
Proof. destruct l; apply _. Defined.

Section Calls.
Context (info : typ -> type_info).

Inductive run_step (s : calls) : calls -> Prop :=
| run_step_task i a k new st :
    threads s !! i = Some (a :: k) ->
    run_task info a (lib s) = (new, st) ->
    run_step s (mkCalls st (<[i := new ++ k]> (threads s)) (roots s) (found s)).

Inductive calls_step (s : calls) : calls -> Prop :=
| calls_start r ws :
    calls_step s (mkCalls (lib s) (threads s ++ [TCheck r :: (TWarn <$> ws)])
      (roots s ++ [r]) (found s ++ ws))
| calls_run s' : run_step s s' -> calls_step s s'.

Definition calls_init (st0 : labgob) (s : calls) : Prop := s = mkCalls st0 [] [] [].

(** Whatever is marked has its components marked: true at the start of the
    program, and again whenever no call is under way. *)
Definition closed (st : labgob) : Prop :=
  forall t u, t ∈ checked st -> part_of info t u -> u ∈ checked st.

(** The complaints due for the types marked since [st0]. *)
Definition due (st0 st : labgob) : list line :=
  elements (checked st ∖ checked st0) ≫= complaints info.

Record calls_inv (st0 : labgob) (rs : list typ) (ws : list string) (st : labgob)
    (P : list task) : Prop := {
  inv_sub : checked st0 ⊆ checked st;
  inv_reached : forall u, u ∈ checked st \/ TCheck u ∈ P ->
    u ∈ checked st0 \/ exists r, r ∈ rs /\ rtc (part_of info) r u;
  inv_parts : forall u c, u ∈ checked st -> part_of info u c ->
    c ∈ checked st \/ TCheck c ∈ P;
  inv_roots : forall r, r ∈ rs -> r ∈ checked st \/ TCheck r ∈ P;
  inv_prints :
    filter is_lower (output st ++ (P ≫= prints_of)) ≡ₚ filter is_lower (output st0) ++ due st0 st;
  inv_count : exists n, errorCount st = i64 (errorCount st0 + n) /\
    n + zlen (P ≫= counts_of) = zlen (due st0 st) + zlen ws;
}.

(** *** What a marked type leaves to do *)
Lemma expand_prints t : expand info t ≫= prints_of = complaints info t.
Proof.
  unfold expand, complaints. destruct (tKind (info t)); try done.
  generalize (tName (info t)). intros tn.
  induction fields as [|f fs IH]; [done |]. cbn [fmap list_fmap concat].
  rewrite bind_app. change (concat (field_tasks tn <$> fs)) with (concat (map (field_tasks tn) fs)) in *.
  unfold field_tasks at 1. rewrite filter_cons. rewrite IH.
  destruct (IsUpper (fName f)); simpl; done.
Qed.

Lemma expand_counts t : zlen (expand info t ≫= counts_of) = zlen (complaints info t).
Proof.
  unfold expand, complaints. destruct (tKind (info t)); try done.
  generalize (tName (info t)). intros tn.
  induction fields as [|f fs IH]; [done |]. cbn [fmap list_fmap concat].
  rewrite bind_app, zlen_app, IH.
  unfold field_tasks at 1. rewrite filter_cons.
  destruct (IsUpper (fName f)); simpl; rewrite ?zlen_cons, ?zlen_nil; unfold fmap; lia.
Qed.

Lemma expand_checks t u : TCheck u ∈ expand info t <-> part_of info t u.
Proof.
  unfold expand, part_of, components. destruct (tKind (info t)); try (set_solver).
  generalize (tName (info t)). intros tn.
  induction fields as [|f fs IH]; [set_solver |].
  change (concat (field_tasks tn <$> (f :: fs))) with
    (field_tasks tn f ++ concat (field_tasks tn <$> fs)).
  rewrite elem_of_app, IH. unfold field_tasks. destruct (IsUpper (fName f)); set_solver.
Qed.

Lemma complaints_lower t : filter is_lower (complaints info t) = complaints info t.
Proof.
  apply filter_all. unfold complaints. destruct (tKind (info t)); try set_solver.
Qed.

Lemma due_mark st0 st t : checked st0 ⊆ checked st -> t ∉ checked st ->
  due st0 (mark t st) ≡ₚ complaints info t ++ due st0 st.
Proof.
  intros Hsub Hn. unfold due. simpl.
  replace (({[t]} ∪ checked st) ∖ checked st0) with ({[t]} ∪ checked st ∖ checked st0) by set_solver.
  rewrite elements_union_singleton by set_solver. done.
Qed.

(** *** Every step keeps the invariant *)
Lemma i64_step e n : i64 (i64 (e + n) + 1) = i64 (e + (n + 1)).
Proof. rewrite i64_add. f_equal. lia. Qed.

Lemma calls_inv_perm st0 rs ws st P P' : P ≡ₚ P' ->
  calls_inv st0 rs ws st P -> calls_inv st0 rs ws st P'.
Proof.
  intros HP [H1 H2 H3 H4 H5 (n & Hn & H6)]. split.
  - done.
  - intros u. rewrite <- HP. apply H2.
  - intros u c. rewrite <- HP. apply H3.
  - intros r. rewrite <- HP. apply H4.
  - by rewrite <- HP.
  - exists n. split; [done |]. rewrite <- H6. unfold zlen. by rewrite HP.
Qed.

Lemma calls_inv_check st0 rs ws st t R : closed st0 ->
  calls_inv st0 rs ws st (TCheck t :: R) -> t ∉ checked st ->
  calls_inv st0 rs ws (mark t st) (expand info t ++ R).
Proof.
  intros Hcl [H1 H2 H3 H4 H5 (n & Hn & H6)] Ht.
  assert (Hreach : forall u, t = u \/ part_of info t u ->
    u ∈ checked st0 \/ exists r, r ∈ rs /\ rtc (part_of info) r u).
  { intros u Hu. destruct (H2 t) as [H|(r & Hr & Hrt)]; [set_solver | |].
    - left. destruct Hu as [<-|Hu]; [done | by eapply Hcl].
    - right. exists r. split; [done |]. destruct Hu as [<-|Hu]; [done | by eapply rtc_r]. }
  split.
  - simpl. set_solver.
  - intros u [Hu|Hu].
    + simpl in Hu. apply elem_of_union in Hu as [->%elem_of_singleton|Hu]; [by apply Hreach; left |].
      apply H2. by left.
    + apply elem_of_app in Hu as [Hu|Hu]; [apply Hreach; right; by apply expand_checks |].
      apply H2. right. by right.
  - intros u c Hu Hc. simpl in Hu.
    assert (c ∈ checked st \/ c = t \/ TCheck c ∈ R \/ part_of info t c) as Hc'.
    { apply elem_of_union in Hu as [->%elem_of_singleton|Hu]; [tauto |].
      destruct (H3 u c Hu Hc) as [?|[?|?]%elem_of_cons]; naive_solver. }
    simpl. rewrite elem_of_app, expand_checks. set_solver.
  - intros r Hr. simpl. rewrite elem_of_app.
    destruct (H4 r Hr) as [?|[?|?]%elem_of_cons]; [set_solver | | by right; right].
    left. simplify_eq. set_solver.
  - rewrite due_mark by done. rewrite bind_app, expand_prints.
    change ((TCheck t :: R) ≫= prints_of) with (R ≫= prints_of) in H5.
    change (output (mark t st)) with (output st).
    rewrite list.filter_app in H5. rewrite !list.filter_app. rewrite complaints_lower.
    rewrite (Permutation_app_swap_app (filter _ (output st))), H5. solve_Permutation.
  - exists n. split; [done |].
    change ((TCheck t :: R) ≫= counts_of) with (R ≫= counts_of) in H6.
    rewrite bind_app, zlen_app, expand_counts.
    unfold zlen in *. rewrite due_mark by done. rewrite length_app. lia.
Qed.

(** A task other than [TCheck] leaves the marks alone. *)
Lemma calls_inv_task st0 rs ws st a R st' :
  (forall t, a <> TCheck t) -> checked st' = checked st ->
  filter is_lower (output st' ++ (R ≫= prints_of)) =
    filter is_lower (output st ++ (prints_of a ++ (R ≫= prints_of))) ->
  (forall e n, errorCount st = i64 (e + n) -> errorCount st' = i64 (e + (n + zlen (counts_of a)))) ->
  calls_inv st0 rs ws st (a :: R) -> calls_inv st0 rs ws st' R.
Proof.
  intros Ha Hc Hp He [H1 H2 H3 H4 H5 (n & Hn & H6)].
  assert (Hin : forall t, TCheck t ∈ a :: R -> TCheck t ∈ R).
  { intros t [<-|?]%elem_of_cons; [by destruct (Ha t) | done]. }
  split; unfold due in *; rewrite ?Hc.
  - done.
  - intros u [?|?]; apply H2; [by left | right; by right].
  - intros u c Hu Hp'. destruct (H3 u c Hu Hp'); auto.
  - intros r Hr. destruct (H4 r Hr); auto.
  - rewrite Hp. exact H5.
  - exists (n + zlen (counts_of a)). split; [by apply He |].
    change ((a :: R) ≫= counts_of) with (counts_of a ++ (R ≫= counts_of)) in H6.
    rewrite zlen_app in H6. lia.
Qed.

Lemma run_task_inv st0 rs ws st a R new st' : closed st0 ->
  calls_inv st0 rs ws st (a :: R) -> run_task info a st = (new, st') ->
  calls_inv st0 rs ws st' (new ++ R).
Proof.
  intros Hcl HI. destruct a as [t|l| |w]; simpl.
  - destruct (decide (t ∈ checked st)) as [Hin|Hn]; intros [= <- <-];
      [| by apply calls_inv_check].
    destruct HI as [H1 H2 H3 H4 H5 H6]. split; [done | | | | done | done].
    + intros u Hu. apply H2. destruct Hu; [by left | right; by right].
    + intros u c Hu Hc. destruct (H3 u c Hu Hc) as [?|[?|?]%elem_of_cons]; naive_solver.
    + intros r Hr. destruct (H4 r Hr) as [?|[?|?]%elem_of_cons]; naive_solver.
  - intros [= <- <-]. refine (calls_inv_task _ _ _ _ _ _ _ _ _ _ _ HI); [done | done | |]; simpl.
    + by rewrite <- (assoc_L (++)).
    + intros e n ->. change (zlen []) with 0. by rewrite Z.add_0_r.
  - intros [= <- <-]. refine (calls_inv_task _ _ _ _ _ _ _ _ _ _ _ HI); [done | done | done |].
    intros e n Hn. simpl. rewrite Hn. apply i64_step.
  - intros [= <- <-].
    refine (calls_inv_task _ _ _ _ _ _ _ _ _ _ _ HI); [done | unfold warn; by case_decide | |].
    + unfold warn. case_decide; [| done]. simpl. by rewrite !list.filter_app, app_nil_r.
    + intros e n Hn. simpl. rewrite <- i64_step, <- Hn. unfold warn. by case_decide.
Qed.

Lemma pending_run ths i a k new : ths !! i = Some (a :: k) -> exists R : list task,
  concat ths ≡ₚ a :: R /\ concat (<[i := new ++ k]> ths) ≡ₚ new ++ R.
Proof.
  intros H. exists (k ++ concat (delete i ths)).
  assert (Hp : forall l, ths !! i = Some l -> concat ths ≡ₚ l ++ concat (delete i ths)).
  { clear. revert i. induction ths as [|x ths IH]; intros [|i] l; simpl; try done.
    - by intros [= ->].
    - intros Hl. rewrite (IH i l Hl). solve_Permutation. }
  split; [by rewrite (Hp _ H) |].
  clear Hp. revert i H. induction ths as [|x ths IH]; intros [|i]; simpl; try done.
  - intros _. by rewrite (assoc_L (++)).
  - intros Hl. rewrite (IH i Hl). solve_Permutation.
Qed.

Lemma calls_start_inv st0 rs ws st P r ws' :
  calls_inv st0 rs ws st P ->
  calls_inv st0 (rs ++ [r]) (ws ++ ws') st (P ++ TCheck r :: (TWarn <$> ws')).
Proof.
  intros [H1 H2 H3 H4 H5 (n & Hn & H6)].
  assert (Hp : (TCheck r :: (TWarn <$> ws')) ≫= prints_of = [])
    by (clear; induction ws'; done).
  assert (Hc : zlen ((TCheck r :: (TWarn <$> ws')) ≫= counts_of) = zlen ws').
  { clear. change (zlen ((TWarn <$> ws') ≫= counts_of) = zlen ws'). induction ws' as [|w ws' IH]; [done |].
    change ((TWarn <$> w :: ws') ≫= counts_of) with (TWarn w :: ((TWarn <$> ws') ≫= counts_of)).
    rewrite !zlen_cons. lia. }
  split.
  - done.
  - intros u Hu.
    assert ((u ∈ checked st \/ TCheck u ∈ P) \/ u = r) as [Hu'| ->].
    { destruct Hu as [?|[?|[?|(w & ? & _)%list_elem_of_fmap]%elem_of_cons]%elem_of_app]; naive_solver. }
    + destruct (H2 u Hu') as [?|(r' & Hr' & ?)]; [by left |].
      right. exists r'. split; [| done]. apply elem_of_app. by left.
    + right. exists r. split; [apply elem_of_app; right; by apply list_elem_of_singleton | apply rtc_refl].
  - intros u c Hu Hc'. rewrite elem_of_app. destruct (H3 u c Hu Hc'); tauto.
  - intros r' [Hr|Hr%list_elem_of_singleton]%elem_of_app; rewrite elem_of_app.
    + destruct (H4 r' Hr); tauto.
    + subst. right. right. apply list_elem_of_here.
  - rewrite bind_app, Hp, app_nil_r. done.
  - exists n. split; [done |]. rewrite bind_app, !zlen_app, Hc. lia.
Qed.

Lemma run_step_inv st0 s s' : closed st0 -> run_step s s' ->
  calls_inv st0 (roots s) (found s) (lib s) (pending s) ->
  calls_inv st0 (roots s') (found s') (lib s') (pending s').
Proof.
  intros Hcl [i a k new st Hi Hr] HI.
  destruct (pending_run _ _ _ _ new Hi) as (R & H1 & H2). unfold pending. simpl.
  eapply calls_inv_perm; [symmetry; exact H2 |].
  eapply run_task_inv; [done | | done]. by eapply calls_inv_perm.
Qed.

(** A state between calls: components are marked and the counter is an
    [int]. *)
Definition at_rest (st : labgob) : Prop :=
  closed st /\ i64 (errorCount st) = errorCount st.

Lemma calls_inv_start st0 : at_rest st0 -> calls_inv st0 [] [] st0 [].
Proof.
  intros [Hcl Hi]. split.
  - done.
  - intros u [Hu|Hu]; [by left | by apply not_elem_of_nil in Hu].
  - intros u c Hu Hc. left. by eapply Hcl.
  - intros r Hr. by apply not_elem_of_nil in Hr.
  - unfold due. by rewrite difference_diag_L, elements_empty, !app_nil_r.
  - exists 0. unfold due. rewrite difference_diag_L, elements_empty, Z.add_0_r. done.
Qed.

Lemma calls_inv_reachable st0 s : at_rest st0 ->
  reachable (calls_init st0) calls_step s ->
  calls_inv st0 (roots s) (found s) (lib s) (pending s).
Proof.
  intros Hcl Hr. induction Hr as [s ->|s s' Hr HI Hstep].
  - by apply calls_inv_start.
  - destruct Hstep as [r ws|s' Hs]; [| eapply run_step_inv; [apply Hcl | done | done]].
    unfold pending. simpl. rewrite concat_app. simpl. rewrite app_nil_r.
    by apply calls_start_inv.
Qed.

(** What the invariant says once nothing is left to do. *)
Record checked_once (st0 : labgob) (rs : list typ) (ws : list string) (st : labgob) : Prop := {
  once_types : forall u, u ∈ checked st <->
    u ∈ checked st0 \/ exists r, r ∈ rs /\ rtc (part_of info) r u;
  once_rest : at_rest st;
  once_printed :
    filter is_lower (output st) ≡ₚ filter is_lower (output st0) ++ due st0 st;
  once_counted :
    errorCount st = i64 (errorCount st0 + zlen (due st0 st) + zlen ws);
}.

Lemma i64_idem x : i64 (i64 x) = i64 x.
Proof. unfold i64. rewrite Z.sub_add, Z.mod_mod by lia. done. Qed.

Lemma calls_inv_end st0 rs ws st : closed st0 ->
  calls_inv st0 rs ws st [] -> checked_once st0 rs ws st.
Proof.
  intros Hcl [H1 H2 H3 H4 H5 (n & Hn & H6)].
  assert (Hst : closed st).
  { intros t u Ht Hu. destruct (H3 t u Ht Hu) as [?|?%not_elem_of_nil]; done. }
  split.
  - intros u. split; [intros Hu; apply H2; by left |].
    intros [Hu|(r & Hr & Hru)]; [by apply H1 |].
    destruct (H4 r Hr) as [Hin|?%not_elem_of_nil]; [| done].
    clear Hr. induction Hru as [|x y z Hxy _ IH]; [done |]. apply IH. by eapply Hst.
  - split; [done |]. rewrite Hn. apply i64_idem.
  - rewrite <- H5. simpl. by rewrite app_nil_r.
  - rewrite Hn. f_equal. change (zlen ([] ≫= counts_of)) with 0 in H6. lia.
Qed.

(** *** What has been checked when all calls have returned *)
Definition idle (s : calls) : Prop := forall k, k ∈ threads s -> k = [].

Lemma idle_pending s : idle s -> pending s = [].
Proof.
  unfold idle, pending. induction (threads s) as [|k ths IH]; intros H; [done |]. simpl.
  rewrite (H k) by apply list_elem_of_here. apply IH. intros k' ?. apply H. by right.
Qed.

Theorem checks_once st0 s : at_rest st0 ->
  reachable (calls_init st0) calls_step s -> idle s ->
  checked_once st0 (roots s) (found s) (lib s).
Proof.
  intros Hst Hr Hid. apply calls_inv_end; [apply Hst |].
  rewrite <- (idle_pending s Hid). by apply calls_inv_reachable.
Qed.

(** One call on its own. *)
Lemma task_steps_inv st0 rs ws P st P' st' : closed st0 ->
  rtc (task_step info) (P, st) (P', st') ->
  calls_inv st0 rs ws st P -> calls_inv st0 rs ws st' P'.
Proof.
  intros Hcl H. remember (P, st) as x eqn:Ex. remember (P', st') as y eqn:Ey.
  revert P st Ex. induction H as [x|x z y Hstep _ IH]; intros P st -> HI; [by simplify_eq |].
  inversion Hstep as [a k st1 E1 E2]; subst. eapply IH; [done | reflexivity |].
  eapply run_task_inv; [done | exact HI |]. by destruct (run_task info a st).
Qed.

Lemma checkType_once fuel t st st' : at_rest st ->
  checkType info fuel t st = Some st' -> checked_once st [t] [] st'.
Proof.
  intros Hst H. apply calls_inv_end; [apply Hst |].
  eapply task_steps_inv; [apply Hst | by eapply (checkType_steps info fuel t []) |].
  apply (calls_start_inv st [] [] st [] t []). by apply calls_inv_start.
Qed.

(** *** Every call returns *)
Definition type_closed (U : gset typ) : Prop :=
  forall t u, t ∈ U -> part_of info t u -> u ∈ U.

Definition unchecked (U : gset typ) (st : labgob) : nat := size (U ∖ checked st).

Lemma unchecked_mark U st t : t ∈ U -> t ∉ checked st ->
  (unchecked U (mark t st) < unchecked U st)%nat.
Proof. intros Ht Hn. apply subset_size. simpl. set_solver. Qed.

Lemma unchecked_mono U st st' : checked st ⊆ checked st' ->
  (unchecked U st' <= unchecked U st)%nat.
Proof. intros H. apply subseteq_size. set_solver. Qed.

Lemma checkFields_total (check : typ -> labgob -> option labgob) U n tn fs st :
  (forall t st, t ∈ U -> (unchecked U st < n)%nat ->
     exists st', check t st = Some st' /\ checked st ⊆ checked st') ->
  (forall f, f ∈ fs -> fType f ∈ U) -> (unchecked U st < n)%nat ->
  exists st', checkFields check tn fs st = Some st' /\ checked st ⊆ checked st'.
Proof.
  intros Hcheck. revert st. induction fs as [|f fs IH]; intros st Hfs Hn; [by exists st |].
  simpl. set (st1 := if IsUpper (fName f) then st else _).
  assert (Hst1 : checked st1 = checked st) by (subst st1; by destruct (IsUpper _)).
  destruct (Hcheck (fType f) st1) as (st2 & -> & H2).
  { apply Hfs, list_elem_of_here. }
  { unfold unchecked. by rewrite Hst1. }
  simpl. rewrite Hst1 in H2. destruct (IH st2) as (st3 & -> & H3).
  { intros f' ?. apply Hfs. by right. }
  { pose proof (unchecked_mono U _ _ H2). lia. }
  exists st3. split; [done |]. by etrans.
Qed.

Lemma checkType_total U fuel t st : type_closed U -> t ∈ U ->
  (unchecked U st < fuel)%nat ->
  exists st', checkType info fuel t st = Some st' /\ checked st ⊆ checked st'.
Proof.
  intros HU. revert t st. induction fuel as [|fuel IH]; intros t st Ht Hf; [lia |]. simpl.
  destruct (decide (t ∈ checked st)) as [Hin|Hn]; [by exists st |].
  assert (Hm : (unchecked U (mark t st) < fuel)%nat)
    by (pose proof (unchecked_mark U st t Ht Hn); lia).
  assert (Hsub : checked st ⊆ checked (mark t st)) by (simpl; set_solver).
  assert (Hparts : forall u, part_of info t u -> u ∈ U) by (intros u; by apply HU).
  unfold part_of, components in Hparts.
  assert (Hgo : forall r, (exists st', r = Some st' /\ checked (mark t st) ⊆ checked st') ->
    exists st', r = Some st' /\ checked st ⊆ checked st').
  { intros r (st' & -> & H). exists st'. split; [done | by etrans]. }
  apply Hgo. clear Hgo. destruct (tKind (info t)) as [fs|e|e|e|k e| |].
  - eapply checkFields_total; [apply IH | | done].
    intros f Hin. apply Hparts. by apply list_elem_of_fmap_2.
  - apply IH; [| done]. apply Hparts. set_solver.
  - apply IH; [| done]. apply Hparts. set_solver.
  - apply IH; [| done]. apply Hparts. set_solver.
  - destruct (IH e (mark t st)) as (st1 & -> & H1); [apply Hparts; set_solver | done |].
    destruct (IH k st1) as (st2 & E2 & H2); [apply Hparts; set_solver | |].
    { pose proof (unchecked_mono U _ _ H1). lia. }
    simpl. rewrite E2. exists st2. split; [done | by etrans].
  - by eexists.
  - by eexists.
Qed.

(** With any number of calls under way, only finitely many critical
    sections are left. *)
Lemma run_terminates U s : type_closed U ->
  (forall t, TCheck t ∈ pending s -> t ∈ U) -> Acc (fun s2 s1 => run_step s1 s2) s.
Proof.
  intros HU.
  remember (unchecked U (lib s)) as n eqn:En. revert s En.
  induction (lt_wf n) as [n _ IHn]. intros s.
  remember (length (pending s)) as m eqn:Em. revert s Em.
  induction (lt_wf m) as [m _ IHm]. intros s Em En Hp.
  constructor. intros s2 [i a k new st Hi Hr].
  destruct (pending_run _ _ _ _ new Hi) as (R & H1 & H2). fold (pending s) in H1.
  assert (Hlen : length (pending s) = S (length R)) by (by rewrite H1).
  assert (Hpend : (forall t, TCheck t ∈ new -> t ∈ U) ->
    forall t, TCheck t ∈ concat (<[i:=new ++ k]> (threads s)) -> t ∈ U).
  { intros Hnew t. rewrite H2. intros [?|?]%elem_of_app; [by apply Hnew |].
    apply Hp. rewrite H1. by right. }
  destruct a as [t|l| |w]; simpl in Hr.
  1: destruct (decide (t ∈ checked (lib s))) as [Hin|Hn]; injection Hr as <- <-.
  2: { assert (Ht : t ∈ U) by (apply Hp; rewrite H1; apply list_elem_of_here).
       eapply IHn; [| reflexivity |].
       - rewrite En. by apply unchecked_mark.
       - apply Hpend. intros u Hu%expand_checks. by eapply HU. }
  2-4: injection Hr as <- <-.
  all: eapply IHm; [| reflexivity | | apply Hpend; by intros ? ?%not_elem_of_nil];
    [unfold pending; cbn [threads]; rewrite H2; simpl; lia | cbn [lib]; subst n; unfold unchecked].
  - done.
  - done.
  - done.
  - unfold warn. by case_decide.
Qed.

End Calls.

(** ** What a variable holds already *)
Record leaf := mkLeaf { lf_ro : flagRO; lf_value : basic; lf_name : string }.

(** The warning about a leaf, if it deserves one. *)
Definition leaf_warning (l : leaf) : list string :=
  if is_zero (lf_value l) then [] else [lf_name l].

Definition readable (l : leaf) : Prop := lf_ro l = flagNone.
#[global] Instance readable_dec l : Decision (readable l).
Proof. unfold readable. destruct (lf_ro l); [by left | by right | by right]. Defined.

Definition warn_all (ws : list string) (st : labgob) : labgob := foldl (fun st w => warn w st) st ws.

Section Leaves.
Context (info : typ -> type_info) (heap : loc -> value).

(** The basic values at most [n] levels deep, in the order of the fields. *)
Fixpoint leaves (n : nat) (ro : flagRO) (v : value) (name : string) : list leaf :=
  match n with
  | O => []
  | S n =>
      match v with
      | VBasic t b => [mkLeaf ro b (if decide (name = "") then tName (info t) else name)]
      | VStruct t vs =>
          concat ((fun fv => leaves n (Field_flag ro fv.1) fv.2 (join_name name (fName fv.1))) <$>
            zip (fields_of info t) vs)
      | VPtr t (Some l) => leaves n ro (heap l) name
      | VPtr t None | VOther t => []
      end
  end.

(** What the search does with the leaves it finds. *)
Definition visit (ls : list leaf) (st : labgob) : Res labgob :=
  if decide (Forall readable ls) then Ok (warn_all (ls ≫= leaf_warning) st) else Panic.

Lemma visit_app l1 l2 st : visit (l1 ++ l2) st = let* st := visit l1 st in visit l2 st.
Proof.
  unfold visit. destruct (decide (Forall readable l1)) as [H1|H1]; simpl.
  - destruct (decide (Forall readable l2)) as [H2|H2].
    + rewrite decide_True by (by apply Forall_app). rewrite bind_app. unfold warn_all. by rewrite foldl_app.
    + rewrite decide_False; [done |]. intros [? ?]%Forall_app. done.
  - rewrite decide_False; [done |]. intros [? ?]%Forall_app. done.
Qed.

Lemma visit_nil st : visit [] st = Ok st.
Proof. unfold visit. by rewrite decide_True by constructor. Qed.

Lemma checkDefault1_leaves fuel n ro v depth name st :
  (n < fuel)%nat -> Z.of_nat n = Z.max 0 (4 - depth) ->
  checkDefault1 info heap fuel ro v depth name st = Some (visit (leaves n ro v name) st).
Proof.
  revert n ro v depth name st. induction fuel as [|fuel IH]; intros n ro v depth name st Hf Hn; [lia |].
  simpl. destruct (decide (depth > 3)) as [Hd|Hd].
  { replace n with O by lia. simpl. by rewrite visit_nil. }
  destruct n as [|n]; [lia |].
  assert (Hrec : forall ro v name st, checkDefault1 info heap fuel ro v (depth + 1) name st =
    Some (visit (leaves n ro v name) st)) by (intros; apply IH; lia).
  destruct v as [t b|t vs|t [l|]|t]; simpl.
  - unfold visit. destruct ro.
    + rewrite (decide_True (P := Forall readable _)) by (by apply Forall_singleton). unfold leaf_warning. simpl.
      by destruct (is_zero b).
    + rewrite (decide_False (P := Forall readable _)); [done |]. by intros [=]%Forall_singleton.
    + rewrite (decide_False (P := Forall readable _)); [done |]. by intros [=]%Forall_singleton.
  - generalize (zip (fields_of info t) vs). intros fvs. clear Hf Hn Hd. revert st.
    induction fvs as [|[f vv] fvs IHf]; intros st; simpl; [by rewrite visit_nil |].
    rewrite Hrec, visit_app. simpl.
    destruct (visit (leaves n _ vv _) st) as [st1|]; simpl; [apply IHf | done].
  - apply Hrec.
  - by rewrite visit_nil.
  - by rewrite visit_nil.
Qed.

(** [checkDefault] looks three levels deep, and no deeper. *)
Lemma checkDefault_leaves fuel v st : (4 <= fuel)%nat ->
  checkDefault info heap fuel (Some v) st = Some (visit (leaves 3 flagNone v "") st).
Proof. intros H. apply checkDefault1_leaves; lia. Qed.

Lemma warn_all_checked ws st : checked (warn_all ws st) = checked st.
Proof.
  unfold warn_all. revert st. induction ws as [|w ws IH]; intros st; simpl; [done |].
  rewrite IH. unfold warn. by case_decide.
Qed.

(** Only the first warning of a program is printed, all are counted. *)
Lemma warn_all_spec ws st : 0 <= errorCount st -> errorCount st + zlen ws < 2 ^ 63 ->
  warn_all ws st = mkLabgob (errorCount st + zlen ws) (checked st)
    (output st ++ (if decide (errorCount st = 0) then NonDefault <$> take 1 ws else [])).
Proof.
  unfold warn_all. revert st. induction ws as [|w ws IH]; intros [e ch out] He Ho; simpl in *.
  - change (zlen []) with 0. rewrite Z.add_0_r. case_decide; by rewrite app_nil_r.
  - rewrite zlen_cons in *. pose proof (zlen_nonneg ws).
    assert (Hw : warn w (mkLabgob e ch out) =
      mkLabgob (e + 1) ch (out ++ if decide (e = 0) then [NonDefault w] else [])).
    { unfold warn, count. simpl. destruct (decide (e < 1)); simpl; rewrite i64_small by lia.
      - by rewrite decide_True by lia.
      - by rewrite decide_False, app_nil_r by lia. }
    rewrite Hw, IH by (simpl; lia). simpl. rewrite (decide_False (P := e + 1 = 0)), app_nil_r by lia.
    f_equal. lia.
Qed.

End Leaves.

(** ** The promises of the package *)
Section Promises.
Context (info : typ -> type_info).
Context {Enc Dec Err : Type}.
Context (gob_Encode : Enc -> (loc -> value) -> option value -> Enc * Err).
Context (gob_Decode : Dec -> (loc -> value) -> option value -> Dec * (loc -> value) * Err).

Lemma unchecked_size U st fuel : (size U < fuel)%nat -> (unchecked U st < fuel)%nat.
Proof.
  intros H. unfold unchecked.
  assert (size (U ∖ checked st) <= size U)%nat by (apply subseteq_size; set_solver). lia.
Qed.

(** Encoding a value returns, whatever the graph of types looks like
    (recursive types included) and whatever was checked before: it does what
    [gob] does, the types the value is made of are checked, and the counter
    grows by one for each small-letter field of a type seen for the first
    time, each of which is reported once. *)
Theorem Encode_checks U fuel enc heap v st :
  type_closed info U -> Type_ v ∈ U -> (size U < fuel)%nat -> at_rest info st ->
  exists st', Encode info gob_Encode fuel enc heap (Some v) st =
      Some (Ok (st', NewEncoder (gob_Encode (enc_gob enc) heap (Some v)).1,
                (gob_Encode (enc_gob enc) heap (Some v)).2)) /\
    checked_once info st [Type_ v] [] st'.
Proof.
  intros HU Hv Hf Hst.
  destruct (checkType_total info U fuel (Type_ v) st HU Hv) as (st' & E & _); [by apply unchecked_size |].
  exists st'. split; [| by eapply checkType_once].
  unfold Encode, checkValue. rewrite E. simpl. by destruct (gob_Encode _ _ _).
Qed.

(** Decoding into a variable returns too; it stops the process exactly
    if a basic value at most three levels into the variable sits below an
    unexported field, and otherwise hands over to [gob], having counted the
    small-letter fields of new types and the basic values of the first three
    levels that are not zero. *)
Theorem Decode_checks U fuel dec heap v st :
  type_closed info U -> Type_ v ∈ U -> (size U < fuel)%nat -> (4 <= fuel)%nat ->
  at_rest info st ->
  let ls := leaves info heap 3 flagNone v "" in
  exists st1, checkType info fuel (Type_ v) st = Some st1 /\
    checked_once info st [Type_ v] [] st1 /\
    (if decide (Forall readable ls)
     then Decode info gob_Decode fuel dec heap (Some v) st =
       Some (Ok (warn_all (ls ≫= leaf_warning) st1,
         NewDecoder (gob_Decode (dec_gob dec) heap (Some v)).1.1,
         (gob_Decode (dec_gob dec) heap (Some v)).1.2,
         (gob_Decode (dec_gob dec) heap (Some v)).2))
     else Decode info gob_Decode fuel dec heap (Some v) st = Some Panic).
Proof.
  intros HU Hv Hf Hf4 Hst ls.
  destruct (checkType_total info U fuel (Type_ v) st HU Hv) as (st1 & E & _); [by apply unchecked_size |].
  exists st1. split; [done |]. split; [by eapply checkType_once |].
  pose proof (checkDefault_leaves info heap fuel v st1 Hf4) as Hd. fold ls in Hd. clearbody ls.
  unfold Decode, checkValue. rewrite E. cbn -[checkDefault]. rewrite Hd. unfold visit.
  destruct (decide (Forall readable ls)); simpl; [| done].
  by destruct (gob_Decode _ _ _) as [[? ?] ?].
Qed.

(** [gob] discards a value that is decoded into nil; with the check before
    it the process stops, and the test for nil in [checkDefault] is not
    reached. *)
Theorem Decode_nil fuel dec heap st :
  Decode info gob_Decode fuel dec heap None st = Some Panic.
Proof. done. Qed.

(** C39: Any number of goroutines that encode, decode and register at the
    same time: from every state they reach, only finitely many critical
    sections are left unless new calls begin; and when all have returned, the
    checked types are those checked before and those that the types of the
    calls are made of, every small-letter field of a newly checked type was
    reported exactly once, and the counter has grown by these and by the
    warnings. *)
Theorem concurrent_checks U st0 s :
  type_closed info U -> at_rest info st0 ->
  reachable (calls_init st0) (calls_step info) s ->
  (forall r, r ∈ roots s -> r ∈ U) -> checked st0 ⊆ U ->
  Acc (fun s2 s1 => run_step info s1 s2) s /\
  (idle s -> checked_once info st0 (roots s) (found s) (lib s)).
Proof.
  intros HU Hst Hr Hroots H0. split; [| by apply checks_once].
  apply (run_terminates info U); [done |]. intros t Ht.
  destruct (calls_inv_reachable info st0 s Hst Hr) as [_ H2 _ _ _ _].
  destruct (H2 t (or_intror Ht)) as [?|(r & Hr' & Hrt)]; [by apply H0 |].
  specialize (Hroots r Hr'). clear -HU Hroots Hrt. induction Hrt; [done |]. eauto.
Qed.

End Promises.

(** ** The tests of the package, computed ([labgob/test_test.go]) *)
Module LabgobTest.

(** [T4] with a small-letter field, and the slices and maps over it. *)
Definition int := 0%nat.
Definition T4 := 1%nat.
Definition pT4 := 2%nat.
Definition map_pT4 := 3%nat.
Definition slice1 := 4%nat.
Definition map_T4 := 5%nat.
Definition slice2 := 6%nat.
Definition p_slice2 := 7%nat.
Definition DD := 8%nat.
Definition pDD := 9%nat.
Definition List_ := 10%nat.
Definition pList := 11%nat.
Definition p_T4 := 12%nat.

Definition info (t : typ) : type_info :=
  match t with
  | 0 => mkType "int" Basic
  | 1 => mkType "T4" (Struct [mkField "Yes" int false; mkField "no" int false])
  | 2 => mkType "" (Ptr T4)
  | 3 => mkType "" (Map pT4 int)
  | 4 => mkType "" (Slice map_pT4)
  | 5 => mkType "" (Map T4 int)
  | 6 => mkType "" (Slice map_T4)
  | 7 => mkType "" (Ptr slice2)
  | 8 => mkType "DD" (Struct [mkField "X" int false])
  | 9 => mkType "" (Ptr DD)
  | 10 => mkType "List" (Struct [mkField "Value" int false; mkField "next" pList false])
  | 11 => mkType "" (Ptr List_)
  | 12 => mkType "" (Ptr T4)
  | _ => mkType "" Other
  end%nat.

Definition U : gset typ := list_to_set (seq 0 13).
Definition start : labgob := mkLabgob 0 ∅ [].

(** The variables [v1], [reply := DD{99}] and [T4{1, 2}]. *)
Definition heap (l : loc) : value :=
  match l with
  | 0 => VOther slice2
  | 1 => VStruct DD [VBasic int (BInt 99)]
  | _ => VStruct T4 [VBasic int (BInt 1); VBasic int (BInt 2)]
  end%nat.

Definition gob_Encode (e : nat) (_ : loc -> value) (_ : option value) : nat * bool := (S e, true).
Definition gob_Decode (d : nat) (h : loc -> value) (_ : option value) : nat * (loc -> value) * bool :=
  (S d, h, true).

Definition encode1 (v : value) (st : labgob) : labgob :=
  match Encode info gob_Encode 20 (NewEncoder 0%nat) heap (Some v) st with
  | Some (Ok (st, _, _)) => st
  | _ => st
  end.
Definition decode1 (l : loc) (t : typ) (st : labgob) : option (Res labgob) :=
  r ← Decode info gob_Decode 20 (NewDecoder 0%nat) heap (Some (VPtr t (Some l))) st;
  Some (let* r := r in Ok r.1.1.1).

(** [TestCapital] ends with one error, although [T4] is met twice. *)
Example TestCapital_counts :
  (fun st => (errorCount st, output st)) <$>
    match decode1 0%nat p_slice2 (encode1 (VOther slice1) start) with Some (Ok st) => Some st | _ => None end
  = Some (1, [LowerCase "no" "T4"]).
Proof. vm_compute. reflexivity. Qed.

(** [TestDefault] counts one; since there is an error already, nothing is
    printed. *)
Example TestDefault_counts :
  (fun st => (errorCount st, output st)) <$>
    match decode1 1%nat pDD (mkLabgob 1 ∅ []) with Some (Ok st) => Some st | _ => None end
  = Some (2, []).
Proof. vm_compute. reflexivity. Qed.

(** Decoding into a struct that has a small-letter field of a basic type
    stops the process after the error about the field. *)
Example decode_lower_case_panics : decode1 2%nat p_T4 start = Some Panic.
Proof. vm_compute. reflexivity. Qed.

Lemma U_closed : type_closed info U.
Proof.
  intros t u Ht Hu. apply elem_of_list_to_set, elem_of_seq in Ht.
  unfold part_of, components in Hu. apply elem_of_list_to_set, elem_of_seq.
  do 13 (destruct t as [|t]; [simpl in Hu; repeat apply elem_of_cons in Hu as [->|Hu];
    try (by apply not_elem_of_nil in Hu); cbv; lia |]). lia.
Qed.

Lemma start_at_rest : at_rest info start.
Proof. split; [intros t u Ht; by apply not_elem_of_empty in Ht | done]. Qed.

End LabgobTest.

Import LabgobTest.

(** A list type that refers to itself. *)
Lemma Encode_checks_witness :
  (size U < 20)%nat /\ exists st', Encode info gob_Encode 20 (NewEncoder 0%nat) heap (Some (VStruct List_ [])) start =
      Some (Ok (st', NewEncoder 1%nat, true)) /\
    checked_once info start [List_] [] st'.
Proof.
  split; [vm_compute; lia |].
  apply (Encode_checks info gob_Encode U 20 (NewEncoder 0%nat) heap (VStruct List_ []) start U_closed).
  - by vm_compute.
  - vm_compute. lia.
  - apply start_at_rest.
Defined.

Lemma Decode_checks_witness :
  exists st1, checkType info 20 pDD start = Some st1 /\
    checked_once info start [pDD] [] st1 /\
    Decode info gob_Decode 20 (NewDecoder 0%nat) heap (Some (VPtr pDD (Some 1%nat))) start =
      Some (Ok (warn_all ["X"%string] st1, NewDecoder 1%nat, heap, true)).
Proof.
  apply (Decode_checks info gob_Decode U 20 (NewDecoder 0%nat) heap (VPtr pDD (Some 1%nat)) start U_closed).
  - by vm_compute.
  - vm_compute. lia.
  - lia.
  - apply start_at_rest.
Defined.

(** A run of the goroutines, given by who goes next. *)
Fixpoint sched (sc : list nat) (s : calls) : calls :=
  match sc with
  | [] => s
  | i :: sc =>
      match threads s !! i with
      | Some (a :: k) =>
          let r := run_task info a (lib s) in
          sched sc (mkCalls r.2 (<[i := r.1 ++ k]> (threads s)) (roots s) (found s))
      | _ => sched sc s
      end
  end.

Lemma sched_reachable st0 sc s : reachable (calls_init st0) (calls_step info) s ->
  reachable (calls_init st0) (calls_step info) (sched sc s).
Proof.
  revert s. induction sc as [|i sc IH]; intros s Hs; [done |]. simpl.
  destruct (threads s !! i) as [[|a k]|] eqn:E; [by apply IH | | by apply IH].
  apply IH. eapply reach_step; [exact Hs |]. apply calls_run.
  apply (run_step_task info s i a k); [done | by destruct (run_task info a (lib s))].
Qed.

(** Two goroutines check the same recursive type, one of them for a
    [Decode]; they take turns. *)
Definition two_calls : calls :=
  mkCalls start [[TCheck List_]; [TCheck pList; TWarn "X"%string]] [List_; pList] ["X"%string].

Definition two_done : calls := sched [0; 1; 0; 1; 0; 1; 0; 0; 1; 0; 1; 0]%nat two_calls.

Lemma two_done_reachable : reachable (calls_init start) (calls_step info) two_done.
Proof.
  apply sched_reachable.
  eapply reach_step; [eapply reach_step; [by apply reach_init |] |].
  - apply (calls_start info (mkCalls start [] [] []) List_ []).
  - apply (calls_start info (mkCalls start [[TCheck List_]] [List_] []) pList ["X"%string]).
Qed.

Example two_done_result :
  threads two_done = [[]; []] /\ errorCount (lib two_done) = 2 /\
  output (lib two_done) = [LowerCase "next" "List"; NonDefault "X"].
Proof. vm_compute. done. Qed.

Lemma concurrent_checks_witness :
  Acc (fun s2 s1 => run_step info s1 s2) two_done /\
  (idle two_done -> checked_once info start (roots two_done) (found two_done) (lib two_done)).
Proof.
  apply (concurrent_checks info U start two_done U_closed start_at_rest two_done_reachable).
  - intros r Hr. change (roots two_done) with [List_; pList] in Hr.
    repeat apply elem_of_cons in Hr as [->|Hr]; try (by apply not_elem_of_nil in Hr); by vm_compute.
  - intros x Hx. by apply not_elem_of_empty in Hx.
Defined.
