(* ===== verification/Transport.v ===== *)
(** * Messages on a connection ([tester1/demux/transport.go])

    A transport sends messages over a stream socket, each as the length of
    its encoding in four bytes followed by the encoding.  The byte stream
    of one direction is a list of bytes, of which the reader has what it
    has not consumed yet, and the reason for which nothing more will come,
    once there is one.  The second half of the file replaces the bytes by
    a queue of messages and proves that a transport implements it. *)
From S2P Require Import Prelude Labrpc.
#[local] Open Scope Z_scope.

(** ** The code *)
Definition MSGLEN : Z := 65536.

Record msg := mkMsg { Tag : Z; Data : bytes; Ok_ : bool }.

(** What a read of a connection returns: it waits for more bytes, it fails,
    or it succeeds and leaves the rest of the stream. *)
Inductive rerr := EOF | ErrUnexpectedEOF | ErrConn.

Inductive read_result (A : Type) := Waits | Failed (e : rerr) | Read (a : A) (rest : bytes).
Arguments Waits {A}. Arguments Failed {A} e. Arguments Read {A} a rest.

(** [io.ReadFull] of [n] bytes. *)
Definition ReadFull (n : nat) (s : bytes) (end_ : option rerr) : read_result bytes :=
  if decide (n <= length s)%nat then Read (take n s) (drop n s)
  else match end_ with
       | None => Waits
       | Some EOF => if decide (s = []) then Failed EOF else Failed ErrUnexpectedEOF
       | Some e => Failed e
       end.

(** [binary.LittleEndian]: [PutUint32] and [Uint32]. *)
Definition byte_ (v : Z) : Z := Z.land v 255.
Definition PutUint32 (v : Z) : bytes :=
  [byte_ v; byte_ (Z.shiftr v 8); byte_ (Z.shiftr v 16); byte_ (Z.shiftr v 24)].
Definition Uint32 (b : bytes) : Z :=
  match b with
  | [b0; b1; b2; b3] =>
      Z.lor (Z.lor (Z.lor b0 (Z.shiftl b1 8)) (Z.shiftl b2 16)) (Z.shiftl b3 24)
  | _ => 0
  end.

Section Transport.
Context `{!Codec msg}.

(** The bytes that one [WriteCall] puts into the writer's buffer. *)
Definition frame (m : msg) : bytes :=
  let b := Marshall m in PutUint32 (u32 (zlen b)) ++ b.

(** The writing half of a transport.  A [bufio.Writer] that failed once
    fails from then on without writing. *)
Record writer := mkWriter { wr_failed : bool }.

(** [WriteCall]: [fault] is the number of bytes after which the connection
    fails, if it does so during the call.  Returns the writer, the bytes
    that went out and whether the call returned nil. *)
Definition WriteCall (tag : Z) (d : bytes) (ok : bool) (fault : option nat) (w : writer) :
  writer * bytes * bool :=
  if wr_failed w then (w, [], false)
  else
    let b := frame (mkMsg tag d ok) in
    match fault with
    | None => (w, b, true)
    | Some n => (mkWriter true, take n b, false)
    end.

(** [ReadCall]; a message that does not decode is a [log.Fatalf]. *)
Definition ReadCall (s : bytes) (end_ : option rerr) : Res (read_result msg) :=
  match ReadFull 4 s end_ with
  | Waits => Ok Waits
  | Failed e => Ok (Failed e)
  | Read h s =>
      let nbyte := Uint32 h in
      match ReadFull (Z.to_nat nbyte) s end_ with
      | Waits => Ok Waits
      | Failed e => Ok (Failed e)
      | Read b s => let* m := Unmarshall b in Ok (Read m s)
      end
  end.

(** ** The queue of messages behind the bytes *)

(** A message whose encoding is not longer than the header can say. *)
Definition fits (m : msg) : Prop := zlen (encode m) < 2 ^ 32.

(** The bytes [s] are the frames of [ms]; [torn] says that the connection
    failed, so that a part of one more frame may follow. *)
Definition stream_of (ms : list msg) (torn : bool) (s : bytes) : Prop :=
  exists part, s = concat (frame <$> ms) ++ part /\
    (part = [] \/ torn = true /\ exists m, fits m /\ part `prefix_of` frame m /\ part <> frame m).

(** ** Lemmas *)
Lemma byte_testbit v i : 0 <= i -> Z.testbit (byte_ v) i = bool_decide (i < 8) && Z.testbit v i.
Proof.
  intros Hi. unfold byte_. change 255 with (Z.ones 8). rewrite Z.land_spec.
  case_bool_decide.
  - rewrite Z.ones_spec_low by lia. by rewrite andb_comm.
  - rewrite Z.ones_spec_high by lia. by rewrite andb_false_r.
Qed.

Lemma Uint32_PutUint32 v : 0 <= v < 2 ^ 32 -> Uint32 (PutUint32 v) = v.
Proof.
  intros Hv. apply Z.bits_inj'. intros i Hi. unfold PutUint32, Uint32.
  rewrite !Z.lor_spec, !Z.shiftl_spec by lia.
  assert (forall j, 32 <= j -> Z.testbit v j = false) as Hhigh.
  { intros j Hj. destruct (decide (v = 0)) as [->|]; [apply Z.bits_0 |].
    apply Z.bits_above_log2; [lia |]. apply Z.log2_lt_pow2; [lia |].
    apply Z.lt_le_trans with (2 ^ 32); [lia |]. apply Z.pow_le_mono_r; lia. }
  assert (forall k, 0 <= k -> Z.testbit (byte_ (Z.shiftr v k)) (i - k) =
    bool_decide (k <= i < k + 8) && Z.testbit v i) as Hbyte.
  { intros k Hk. destruct (decide (i < k)).
    - rewrite Z.testbit_neg_r by lia. rewrite bool_decide_eq_false_2 by lia. done.
    - rewrite byte_testbit, Z.shiftr_spec by lia. replace (i - k + k) with i by lia.
      f_equal. apply bool_decide_ext. lia. }
  rewrite !Hbyte, byte_testbit by lia.
  destruct (decide (32 <= i)); [rewrite (Hhigh i) by lia; by rewrite !andb_false_r |].
  destruct (Z.testbit v i); rewrite ?andb_false_r, ?andb_true_r; [| done].
  repeat case_bool_decide; simpl; try done; lia.
Qed.

Lemma ReadFull_app n s rest e : length s = n -> ReadFull n (s ++ rest) e = Read s rest.
Proof.
  intros <-. unfold ReadFull. rewrite decide_True by (rewrite length_app; lia).
  by rewrite take_app_length, drop_app_length.
Qed.

Lemma ReadFull_short n s e : (length s < n)%nat ->
  ReadFull n s e = match e with None => Waits
    | Some EOF => if decide (s = []) then Failed EOF else Failed ErrUnexpectedEOF
    | Some x => Failed x end.
Proof. intros. unfold ReadFull. by rewrite decide_False by lia. Qed.

Lemma length_frame m : length (frame m) = (4 + length (encode m))%nat.
Proof. unfold frame, Marshall. by rewrite length_app. Qed.

Lemma ReadFull_end n s e : (length s < n)%nat ->
  exists e', ReadFull n s (Some e) = Failed e' /\ ReadFull n s None = Waits.
Proof.
  intros H. rewrite !ReadFull_short by done. destruct e; [case_decide |..]; eauto.
Qed.

Lemma frame_part m part : fits m -> part `prefix_of` frame m -> part <> frame m ->
  ReadCall part None = Ok Waits /\ forall e, exists e', ReadCall part (Some e) = Ok (Failed e').
Proof.
  intros Hfit [k Hk] Hne. unfold fits in Hfit.
  assert (k <> []) as Hk0 by (intros ->; rewrite app_nil_r in Hk; done).
  unfold ReadCall. destruct (decide (length part < 4)%nat) as [Hs|Hs].
  - split; [by rewrite ReadFull_short by done |]. intros e.
    destruct (ReadFull_end 4 part e) as (e' & -> & _); eauto.
  - unfold frame, Marshall in Hk.
    assert (part = PutUint32 (u32 (zlen (encode m))) ++ drop 4 part /\
      encode m = drop 4 part ++ k) as [Hp Hd].
    { assert (take 4 part = PutUint32 (u32 (zlen (encode m)))) as Ht.
      { apply (f_equal (take 4)) in Hk. rewrite (take_app_le part) in Hk by lia. rewrite <- Hk.
        by rewrite take_app_length' by done. }
      rewrite <- Ht, take_drop. split; [done |].
      apply (f_equal (drop 4)) in Hk. rewrite (drop_app_le part) in Hk by lia. rewrite <- Hk.
      by rewrite drop_app_length' by done. }
    assert (length (drop 4 part) < Z.to_nat (Uint32 (PutUint32 (u32 (zlen (encode m))))))%nat as Hlt.
    { rewrite u32_small, Uint32_PutUint32 by (unfold zlen in *; lia).
      unfold zlen. rewrite Nat2Z.id, Hd, length_app. destruct k; [done | simpl; lia]. }
    rewrite Hp. split.
    + rewrite ReadFull_app by done. by rewrite ReadFull_short by done.
    + intros e. rewrite ReadFull_app by done.
      destruct (ReadFull_end _ _ e Hlt) as (e' & -> & _). eauto.
Qed.

Lemma ReadCall_frame m s e : fits m -> ReadCall (frame m ++ s) e = Ok (Read m s).
Proof.
  intros Hfit. unfold fits in Hfit. unfold ReadCall, frame, Marshall. rewrite <- app_assoc.
  rewrite ReadFull_app by done.
  rewrite u32_small, Uint32_PutUint32 by (unfold zlen in *; lia).
  unfold zlen. rewrite Nat2Z.id, ReadFull_app by done.
  unfold Unmarshall. by rewrite decode_encode.
Qed.

#[local] Opaque frame.

Lemma stream_of_nil torn : stream_of [] torn [].
Proof. exists []. split; [done | by left]. Qed.

Lemma stream_of_snoc ms m s : stream_of ms false s -> stream_of (ms ++ [m]) false (s ++ frame m).
Proof.
  intros (part & -> & [-> | [? _]]); [| done]. exists []. split; [| by left].
  rewrite fmap_app, concat_app. simpl. by rewrite !app_nil_r.
Qed.

Lemma stream_of_torn ms torn s : stream_of ms torn s -> stream_of ms true s.
Proof. intros (part & -> & H). exists part. split; [done |]. naive_solver. Qed.

(** Cutting a stream anywhere leaves the first messages, and part of one. *)
Lemma stream_of_take ms torn s n : Forall fits ms -> stream_of ms torn s ->
  exists ms', ms' `prefix_of` ms /\ stream_of ms' true (take n s).
Proof.
  intros Hfit (part & -> & Hpart). revert n. induction ms as [|m ms IH]; intros n; csimpl.
  - exists []. split; [done |]. exists (take n part). split; [done |].
    destruct Hpart as [-> | (-> & m & Hm & Hp & Hne)]; [left; by rewrite take_nil |]. right.
    split; [done |]. exists m. split; [done |]. destruct Hp as [k Hk].
    split; [exists (drop n part ++ k); by rewrite app_assoc, take_drop |].
    intros Heq. apply Hne. rewrite Hk in Heq |- *.
    apply (f_equal length) in Heq. rewrite length_app, length_take in Heq.
    destruct k; [by rewrite app_nil_r | simpl in Heq; lia].
  - apply Forall_cons_1 in Hfit as [Hm Hfit]. rewrite <- app_assoc.
    destruct (decide (length (frame m) <= n)%nat) as [Hle|Hgt].
    + destruct (IH Hfit (n - length (frame m))%nat) as (ms' & Hpre & part' & Heq & Hp').
      exists (m :: ms'). split; [by apply prefix_cons |]. exists part'. split; [| done].
      rewrite take_app_ge by done. rewrite Heq. csimpl. by rewrite <- app_assoc.
    + exists []. split; [apply prefix_nil |]. exists (take n (frame m)).
      split; [by rewrite take_app_le by lia |]. right. split; [done |]. exists m.
      split; [done |]. split; [exists (drop n (frame m)); by rewrite take_drop |].
      intros Heq. apply (f_equal length) in Heq. rewrite length_take in Heq. lia.
Qed.

(** ** Properties *)

(** C38: A transport implements a queue of messages.  If the stream holds
    the messages [ms], a write that returns nil on a connection that never
    failed appends its message; a write that fails appends nothing, or its
    message as a whole, never part of a message that could be read, and
    every later write fails; a read returns the oldest message and leaves
    the rest, and with no message left it waits while the connection is
    open and fails once it has ended; when the connection loses the end of
    the stream, the first messages stay readable.  This holds for messages
    whose encoding is below 4 GiB. *)
Theorem transport_is_queue ms s w : Forall fits ms -> stream_of ms (wr_failed w) s ->
  (forall tag d ok fault, fits (mkMsg tag d ok) ->
     let '(w', out, nil_) := WriteCall tag d ok fault w in
     (nil_ = true -> fault = None /\ wr_failed w' = false /\
        stream_of (ms ++ [mkMsg tag d ok]) false (s ++ out)) /\
     (nil_ = false -> wr_failed w' = true /\
        exists ms', (ms' = ms \/ ms' = ms ++ [mkMsg tag d ok]) /\ stream_of ms' true (s ++ out)) /\
     (wr_failed w = true -> nil_ = false /\ out = [])) /\
  (forall m ms1 end_, ms = m :: ms1 ->
     exists s1, ReadCall s end_ = Ok (Read m s1) /\ stream_of ms1 (wr_failed w) s1) /\
  (ms = [] -> ReadCall s None = Ok Waits /\
     forall e, exists e', ReadCall s (Some e) = Ok (Failed e')) /\
  (forall n, exists ms', ms' `prefix_of` ms /\ stream_of ms' true (take n s)).
Proof.
  intros Hfit Hs. split_and!.
  - intros tag d ok fault Hm. unfold WriteCall. destruct (wr_failed w) eqn:Ew.
    { split_and!; [done | | done]. intros _. split; [done |]. exists ms. rewrite app_nil_r. eauto. }
    destruct fault as [n|]; simpl.
    + split_and!; [done | | done]. intros _. split; [done |].
      destruct (decide (take n (frame (mkMsg tag d ok)) = frame (mkMsg tag d ok))) as [->|Hne].
      * eexists. split; [by right |]. eapply stream_of_torn, stream_of_snoc, Hs.
      * exists ms. split; [by left |]. destruct Hs as (part & -> & [-> | [? _]]); [| done].
        exists (take n (frame (mkMsg tag d ok))). rewrite app_nil_r. split; [done |]. right.
        split; [done |]. eexists. split; [exact Hm |]. split; [| done].
        exists (drop n (frame (mkMsg tag d ok))). by rewrite take_drop.
    + split_and!; [| done | done]. intros _. split_and!; [done | done |]. by apply stream_of_snoc.
  - intros m ms1 end_ ->. apply Forall_cons_1 in Hfit as [Hm _].
    destruct Hs as (part & -> & Hpart). simpl. rewrite <- app_assoc.
    rewrite ReadCall_frame by done. eexists. split; [done |]. by exists part.
  - intros ->. destruct Hs as (part & -> & [-> | (_ & m & Hm & Hp & Hne)]).
    + split; [done |]. intros e. destruct (ReadFull_end 4 [] e) as (e' & He & _); [simpl; lia |].
      exists e'. unfold ReadCall. simpl. by rewrite He.
    + simpl. by apply (frame_part m).
  - intros n. by eapply stream_of_take.
Qed.
#[local] Transparent frame.
End Transport.

(** ** A concrete stream *)
#[export] Instance msg_eq_dec : EqDecision msg.
Proof. solve_decision. Defined.
#[export] Instance msg_countable : Countable msg.
Proof.
  by apply (inj_countable' (fun m => (Tag m, Data m, Ok_ m)) (fun '(t, d, o) => mkMsg t d o)); intros [].
Defined.

Section Example.
#[local] Instance msg_codec : Codec msg := countable_codec msg.

Lemma transport_is_queue_witness :
  fits (mkMsg 1 [7] true) /\
  exists s1, ReadCall (frame (mkMsg 1 [7] true) ++ take 3 (frame (mkMsg 2 [8] true))) (Some EOF) =
    Ok (Read (mkMsg 1 [7] true) s1) /\ stream_of [] true s1.
Proof.
  assert (fits (mkMsg 1 [7] true)) as H1 by (unfold fits; vm_compute; reflexivity).
  split; [exact H1 |].
  destruct (transport_is_queue [mkMsg 1 [7] true]
    (frame (mkMsg 1 [7] true) ++ take 3 (frame (mkMsg 2 [8] true))) (mkWriter true)) as (_ & H & _).
  - constructor; [exact H1 | constructor].
  - exists (take 3 (frame (mkMsg 2 [8] true))). split; [reflexivity |]. right.
    split; [done |]. exists (mkMsg 2 [8] true). split; [unfold fits; vm_compute; reflexivity |].
    split; [exists (drop 3 (frame (mkMsg 2 [8] true))); by rewrite take_drop |].
    intros Heq. apply (f_equal length) in Heq. vm_compute in Heq. discriminate.
  - exact (H _ _ _ eq_refl).
Defined.
End Example.
