(* ===== verification/Demux.v ===== *)
(** * Calls over one connection ([tester1/demux])

    A [DemuxClnt] sends the requests of any number of callers over one
    connection, each under a tag of its own; one goroutine reads the
    replies and hands each to the caller whose tag it bears.  A [DemuxSrv]
    reads the requests and runs a goroutine for each.  The connection is a
    pair of message queues ([Transport] shows that a transport is one).
    Steps are the critical sections of [callMap] and of the two mutexes, the
    reads and writes of the connection, and the sends on the callers'
    channels, which wait for the receiver. *)
From S2P Require Import Prelude Labrpc Transport.
#[local] Open Scope Z_scope.

(** ** The table of outstanding calls ([callmap.go])

    A channel is known by the number of the call that made it. *)
Record callMap := mkCallMap { cm_closed : bool; cm_calls : gmap Z nat }.

Definition newCallMap : callMap := mkCallMap false ∅.

Definition close (cm : callMap) : callMap := mkCallMap true (cm_calls cm).
Definition isClosed (cm : callMap) : bool := cm_closed cm.

(** [put] fails with "conn closed" ([None]). *)
Definition put (tag : Z) (ch : nat) (cm : callMap) : option callMap :=
  if cm_closed cm then None else Some (mkCallMap false (<[tag := ch]> (cm_calls cm))).

Definition remove (tag : Z) (cm : callMap) : option (nat * callMap) :=
  match cm_calls cm !! tag with
  | Some ch => Some (ch, mkCallMap (cm_closed cm) (delete tag (cm_calls cm)))
  | None => None
  end.

(** [outstanding] returns the keys in the order in which Go visits the map. *)
Definition outstanding (cm : callMap) (ts : list Z) : Prop :=
  NoDup ts /\ forall t, t ∈ ts <-> is_Some (cm_calls cm !! t).

(** ** The client ([dmxclnt.go]) *)
Inductive dmx_err := ErrConnClosed | ErrReaderFail.
Record reply := mkReply { rep : bytes; ok : bool; err : option dmx_err }.

Record InitMsg := mkInitMsg { Clnt : string }.

(** Where a call of [SendReceive] is: it has its tag; its channel is in the
    map; it has written and waits for its channel; it has returned. *)
Inductive call_pc := Tagged | Entered | Waiting | Returned (r : reply).
Record call := mkCall { c_req : bytes; c_tag : Z; c_pc : call_pc }.

(** Where [reader] is: at [ReadCall]; in [reply], at [remove] and at the
    send; after an error at [close] and at [outstanding]; in the loop over
    the tags that are left.  The rest of a loop under way is [Some ts]. *)
Inductive reader :=
| RRead
| RReply (tag : Z) (r : reply) (loop : option (list Z))
| RSend (ch : nat) (r : reply) (loop : option (list Z))
| RClose
| ROut
| RDrain (ts : list Z)
| RExit
| RFatal.

Record DemuxClnt := mkClnt {
  callmap : callMap;
  nextTag : Z;
  calls : list call;
  rdr : reader;
  closing : nat;    (* calls of Close between trans.Close and callmap.close *)
}.

(** The two directions of a connection, and whether it has been closed by
    either side or failed. *)
Record wire := mkWire { queue : list msg; failed : bool }.
Record conn := mkConn { requests_w : wire; replies_w : wire; broken : bool }.

(** [WriteCall] on a connection. *)
Definition wire_write (broken : bool) (m : msg) (w w' : wire) : Prop :=
  if failed w then w' = w
  else if broken then failed w' = true /\ (queue w' = queue w \/ queue w' = queue w ++ [m])
  else w' = mkWire (queue w ++ [m]) false.

Definition set_calls (f : list call -> list call) (c : DemuxClnt) : DemuxClnt :=
  mkClnt (callmap c) (nextTag c) (f (calls c)) (rdr c) (closing c).
Definition set_rdr (r : reader) (c : DemuxClnt) : DemuxClnt :=
  mkClnt (callmap c) (nextTag c) (calls c) r (closing c).
Definition set_callmap (cm : callMap) (c : DemuxClnt) : DemuxClnt :=
  mkClnt cm (nextTag c) (calls c) (rdr c) (closing c).

Definition set_pc (i : nat) (pc : call_pc) : DemuxClnt -> DemuxClnt :=
  set_calls (alter (fun k => mkCall (c_req k) (c_tag k) pc) i).

(** [tag]: the next tag, and the client after it. *)
Definition tag (c : DemuxClnt) : Z * DemuxClnt :=
  (nextTag c, mkClnt (callmap c) (u32 (nextTag c + 1)) (calls c) (rdr c) (closing c)).

Definition break_ (n : conn) : conn := mkConn (requests_w n) (replies_w n) true.

(** Where [reader] goes on after [reply]. *)
Definition after_reply (loop : option (list Z)) : reader :=
  match loop with None => RRead | Some ts => RDrain ts end.

Definition failReply : reply := mkReply [] false (Some ErrReaderFail).

Section Demux.
Context `{!Codec InitMsg} (clnt : string).

(** [NewDemuxClnt] on a fresh connection: tag 0 goes to the message with
    the client's name, which awaits no reply.  If its write fails ([w] is
    the connection after it), there is no client. *)
Definition initMsg : msg := mkMsg 0 (Marshall (mkInitMsg clnt)) true.

Definition NewDemuxClnt (w : wire) : option (DemuxClnt * conn) :=
  let '(t, c) := tag (mkClnt newCallMap 0 [] RRead 0) in
  if failed w then None else Some (c, mkConn w (mkWire [] false) false).

(** The start of a call is the one step that is not the program's own. *)
Definition SendReceive_start (b : bytes) (c : DemuxClnt) : DemuxClnt :=
  let '(t, c) := tag c in set_calls (fun l => l ++ [mkCall b t Tagged]) c.

(** [Close] up to the closing of the connection. *)
Definition Close_start (c : DemuxClnt) (n : conn) : DemuxClnt * conn :=
  if isClosed (callmap c) then (c, n)
  else (mkClnt (callmap c) (nextTag c) (calls c) (rdr c) (closing c + 1), break_ n).

Definition IsClosed (c : DemuxClnt) : bool := isClosed (callmap c).

Inductive clnt_step : DemuxClnt -> conn -> DemuxClnt -> conn -> Prop :=
| call_put c n i k cm : calls c !! i = Some k -> c_pc k = Tagged ->
    put (c_tag k) i (callmap c) = Some cm ->
    clnt_step c n (set_pc i Entered (set_callmap cm c)) n
| call_closed c n i k : calls c !! i = Some k -> c_pc k = Tagged ->
    put (c_tag k) i (callmap c) = None ->
    clnt_step c n (set_pc i (Returned (mkReply [] false (Some ErrConnClosed))) c) n
| call_write c n i k w : calls c !! i = Some k -> c_pc k = Entered ->
    wire_write (broken n) (mkMsg (c_tag k) (c_req k) true) (requests_w n) w ->
    clnt_step c n (set_pc i Waiting c) (mkConn w (replies_w n) (broken n))
| rdr_read c n m q : rdr c = RRead -> queue (replies_w n) = m :: q ->
    clnt_step c n (set_rdr (RReply (Tag m) (mkReply (Data m) (Ok_ m) None) None) c)
      (mkConn (requests_w n) (mkWire q (failed (replies_w n))) (broken n))
| rdr_fail c n : rdr c = RRead -> broken n = true -> clnt_step c n (set_rdr RClose c) n
| rdr_close c n : rdr c = RClose ->
    clnt_step c n (set_rdr ROut (set_callmap (close (callmap c)) c)) n
| rdr_out c n ts : rdr c = ROut -> outstanding (callmap c) ts ->
    clnt_step c n (set_rdr (RDrain ts) c) n
| rdr_exit c n : rdr c = RDrain [] -> clnt_step c n (set_rdr RExit c) n
| rdr_drain c n t ts : rdr c = RDrain (t :: ts) ->
    clnt_step c n (set_rdr (RReply t failReply (Some ts)) c) n
| rdr_remove c n t r loop ch cm : rdr c = RReply t r loop ->
    remove t (callmap c) = Some (ch, cm) ->
    clnt_step c n (set_rdr (RSend ch r loop) (set_callmap cm c)) n
| rdr_fatal c n t r loop : rdr c = RReply t r loop -> remove t (callmap c) = None ->
    clnt_step c n (set_rdr RFatal c) n
| rdr_send c n ch r loop k : rdr c = RSend ch r loop ->
    calls c !! ch = Some k -> c_pc k = Waiting ->
    clnt_step c n (set_pc ch (Returned r) (set_rdr (after_reply loop) c)) n
| close_end c n x : closing c = S x ->
    clnt_step c n (mkClnt (close (callmap c)) (nextTag c) (calls c) (rdr c) x) n.

(** ** The server ([dmxsrv.go]) *)

(** [NewDemuxSrv] at its first read; its [reader]; that one after an error;
    [log.Fatalf]. *)
Inductive srv_pc := SInit | SRead | SExit | SFatal.

(** One run of [ServeRequest]. *)
Record exec := mkExec { e_tag : Z; e_req : bytes; e_rep : bytes; e_ok : bool }.

(** The goroutines before and after [ServeRequest]; [served] records the
    runs and is read by no step. *)
Record DemuxSrv := mkSrv {
  srv : srv_pc;
  srv_closed : bool;
  clntEnd : string;
  serving : list (Z * bytes);
  answering : list exec;
  served : list exec;
}.

Context (ServeRequest : string -> bytes -> bytes * bool -> Prop).

Definition NewDemuxSrv : DemuxSrv := mkSrv SInit false "" [] [] [].

Inductive srv_step : DemuxSrv -> conn -> DemuxSrv -> conn -> Prop :=
| srv_init v n m q i : srv v = SInit -> queue (requests_w n) = m :: q ->
    Unmarshall (Data m) = Ok i ->
    srv_step v n (mkSrv SRead (srv_closed v) (Clnt i) (serving v) (answering v) (served v))
      (mkConn (mkWire q (failed (requests_w n))) (replies_w n) (broken n))
| srv_init_fail v n : srv v = SInit -> broken n = true ->
    srv_step v n (mkSrv SFatal (srv_closed v) (clntEnd v) (serving v) (answering v) (served v)) n
| srv_read v n m q : srv v = SRead -> queue (requests_w n) = m :: q ->
    srv_step v n
      (mkSrv SRead (srv_closed v) (clntEnd v) ((Tag m, Data m) :: serving v) (answering v) (served v))
      (mkConn (mkWire q (failed (requests_w n))) (replies_w n) (broken n))
| srv_read_fail v n (eof : bool) : srv v = SRead -> broken n = true ->
    srv_step v n
      (mkSrv SExit (srv_closed v || eof) (clntEnd v) (serving v) (answering v) (served v)) n
| srv_serve v n l1 t req l2 r okr : serving v = l1 ++ (t, req) :: l2 ->
    ServeRequest (clntEnd v) req (r, okr) ->
    srv_step v n (mkSrv (srv v) (srv_closed v) (clntEnd v) (l1 ++ l2)
      (mkExec t req r okr :: answering v) (mkExec t req r okr :: served v)) n
| srv_write v n l1 e l2 w : answering v = l1 ++ e :: l2 ->
    wire_write (broken n) (mkMsg (e_tag e) (e_rep e) (e_ok e)) (replies_w n) w ->
    srv_step v n (mkSrv (srv v) (srv_closed v) (clntEnd v) (serving v) (l1 ++ l2) (served v))
      (mkConn (requests_w n) w (broken n)).

(** [DemuxSrv.Close]. *)
Definition DemuxSrv_Close (v : DemuxSrv) (n : conn) : DemuxSrv * conn :=
  if srv_closed v then (v, n)
  else (mkSrv (srv v) true (clntEnd v) (serving v) (answering v) (served v), break_ n).

(** ** Client, connection and server *)
Record sys := mkSys { sc : DemuxClnt; sn : conn; sv : DemuxSrv }.

Definition sys_init (s : sys) : Prop := exists w c n,
  wire_write false initMsg (mkWire [] false) w /\ NewDemuxClnt w = Some (c, n) /\
  s = mkSys c n NewDemuxSrv.

(** Steps of the program itself, and those its environment decides on: new
    calls, [Close] on either side, failures of the connection. *)
Inductive sys_internal : sys -> sys -> Prop :=
| int_clnt s c n : clnt_step (sc s) (sn s) c n -> sys_internal s (mkSys c n (sv s))
| int_srv s v n : srv_step (sv s) (sn s) v n -> sys_internal s (mkSys (sc s) n v).

Inductive sys_step : sys -> sys -> Prop :=
| step_internal s s' : sys_internal s s' -> sys_step s s'
| step_call s b : sys_step s (mkSys (SendReceive_start b (sc s)) (sn s) (sv s))
| step_close s c n : Close_start (sc s) (sn s) = (c, n) -> sys_step s (mkSys c n (sv s))
| step_srv_close s v n : DemuxSrv_Close (sv s) (sn s) = (v, n) -> sys_step s (mkSys (sc s) n v)
| step_break s : sys_step s (mkSys (sc s) (break_ (sn s)) (sv s)).

Definition sys_reachable : sys -> Prop := reachable sys_init sys_step.

(** No tag has been drawn twice. *)
Definition tags_last (s : sys) : Prop := Z.of_nat (length (calls (sc s))) < 2 ^ 32 - 1.

(** ** Termination

    Every internal step makes the system lighter: a request gets lighter on
    its way through the server and back, and a caller when it returns. *)
Definition call_weight (k : call) : nat :=
  match c_pc k with Tagged => 15 | Entered => 14 | Waiting => 5 | Returned _ => 0 end.

Definition reader_weight (r : reader) : nat :=
  match r with
  | RReply _ _ None => 8 | RSend _ _ None => 7 | RRead => 6
  | RClose => 5 | ROut => 4 | RDrain _ => 3
  | RReply _ _ (Some _) => 2 | RSend _ _ (Some _) => 1
  | RExit | RFatal => 0
  end.

Definition srv_weight (p : srv_pc) : nat :=
  match p with SInit => 2 | SRead => 1 | SExit | SFatal => 0 end.

Definition clnt_weight (c : DemuxClnt) : nat :=
  sum_list_with call_weight (calls c) + reader_weight (rdr c) + closing c.
Definition conn_weight (n : conn) : nat :=
  8 * length (queue (requests_w n)) + 3 * length (queue (replies_w n)).
Definition server_weight (v : DemuxSrv) : nat :=
  srv_weight (srv v) + 7 * length (serving v) + 4 * length (answering v).
Definition weight (s : sys) : nat :=
  clnt_weight (sc s) + conn_weight (sn s) + server_weight (sv s).

Lemma sum_list_with_alter {A} (f : A -> nat) (g : A -> A) l i x : l !! i = Some x ->
  (sum_list_with f (alter g i l) + f x = sum_list_with f l + f (g x))%nat.
Proof.
  revert i. induction l as [|y l IH]; intros [|i] H; simpl in *; [done.. | |].
  - injection H as ->. lia.
  - specialize (IH _ H). unfold alter in IH. lia.
Qed.

Lemma weight_set_pc i pc c k : calls c !! i = Some k ->
  (sum_list_with call_weight (calls (set_pc i pc c)) + call_weight k =
   sum_list_with call_weight (calls c) + call_weight (mkCall (c_req k) (c_tag k) pc))%nat.
Proof. intros H. simpl. by rewrite (sum_list_with_alter _ _ _ _ _ H). Qed.

Lemma wire_write_length b m w w' : wire_write b m w w' ->
  (length (queue w') <= length (queue w) + 1)%nat.
Proof.
  unfold wire_write. destruct (failed w); [intros ->; lia |].
  destruct b; [intros [_ [-> | ->]] | intros ->]; simpl; rewrite ?length_app; simpl; lia.
Qed.

#[local] Arguments Nat.mul : simpl never.
#[local] Arguments set_pc : simpl never.

Lemma clnt_weight_set_pc i pc c k : calls c !! i = Some k ->
  (clnt_weight (set_pc i pc c) + call_weight k =
   clnt_weight c + call_weight (mkCall (c_req k) (c_tag k) pc))%nat.
Proof. intros H. unfold clnt_weight. pose proof (weight_set_pc i pc c k H). simpl in *. lia. Qed.

Ltac weigh :=
  repeat match goal with
  | H : calls _ !! _ = Some ?k, P : c_pc ?k = _ |- context [set_pc ?i ?pc ?c] =>
      let W := fresh in pose proof (clnt_weight_set_pc i pc c k H) as W;
      unfold call_weight in W; rewrite P in W; clear P
  | H : wire_write _ _ _ _ |- _ => apply wire_write_length in H
  end; unfold clnt_weight, conn_weight, server_weight in *; simpl in *;
  repeat match goal with
  | H : rdr _ = _ |- _ => rewrite H in *; clear H
  | H : queue _ = _ |- _ => rewrite H in *; clear H
  | H : closing _ = _ |- _ => rewrite H in *; clear H
  | H : srv _ = _ |- _ => rewrite H in *; clear H
  | H : serving _ = _ |- _ => rewrite H in *; clear H
  | H : answering _ = _ |- _ => rewrite H in *; clear H
  end; rewrite ?length_app in *; simpl in *; try lia.

Lemma clnt_step_weight c n c' n' : clnt_step c n c' n' ->
  (clnt_weight c' + conn_weight n' < clnt_weight c + conn_weight n)%nat.
Proof. destruct 1; weigh; destruct loop; simpl in *; lia. Qed.

Lemma srv_step_weight v n v' n' : srv_step v n v' n' ->
  (server_weight v' + conn_weight n' < server_weight v + conn_weight n)%nat.
Proof. destruct 1; weigh. Qed.

Lemma internal_weight s s' : sys_internal s s' -> (weight s' < weight s)%nat.
Proof.
  unfold weight. destruct 1 as [s c n H|s v n H]; simpl;
    [apply clnt_step_weight in H | apply srv_step_weight in H]; lia.
Qed.

(** Sequences of internal steps are finite. *)
Lemma internal_acc s : Acc (fun s' s => sys_internal s s') s.
Proof.
  induction s as [s IH] using (induction_ltof1 _ weight). constructor.
  intros s' Hs. apply IH. by apply internal_weight.
Qed.

(** ** Invariants *)
Definition tag_of (i : nat) : Z := Z.of_nat i + 1.

Definition has_pc (c : DemuxClnt) (i : nat) (P : call_pc -> Prop) : Prop :=
  exists k, calls c !! i = Some k /\ P (c_pc k).
Definition open_ (pc : call_pc) : Prop := pc = Entered \/ pc = Waiting.
Definition sent (pc : call_pc) : Prop := pc = Waiting \/ exists r, pc = Returned r.

(** The call whose channel [reader] is about to send on. *)
Definition sending (r : reader) : option nat :=
  match r with RSend ch _ _ => Some ch | _ => None end.

(** [reader] has not met an error yet. *)
Definition live (r : reader) : Prop :=
  match r with RRead | RReply _ _ None | RSend _ _ None => True | _ => False end.

(** What [reader] knows of the map in the loop over the tags left. *)
Definition drains (cm : callMap) (r : reader) : Prop :=
  match r with
  | RRead | RReply _ _ None | RSend _ _ None | RFatal => True
  | RClose => True
  | ROut => isClosed cm = true
  | RReply t r (Some ts) => isClosed cm = true /\ outstanding cm (t :: ts) /\ r = failReply
  | RSend _ r (Some ts) => isClosed cm = true /\ outstanding cm ts /\ r = failReply
  | RDrain ts => isClosed cm = true /\ outstanding cm ts
  | RExit => isClosed cm = true /\ outstanding cm []
  end.

(** The client: the map holds the calls under way, apart from the one being
    answered. *)
Record clnt_inv (c : DemuxClnt) (n : conn) : Prop := {
  ci_next : nextTag c = u32 (Z.of_nat (length (calls c)) + 1);
  ci_tags : forall i k, calls c !! i = Some k -> c_tag k = tag_of i;
  ci_map : forall t i, cm_calls (callmap c) !! t = Some i <->
    t = tag_of i /\ has_pc c i open_ /\ sending (rdr c) <> Some i;
  ci_send : forall i, sending (rdr c) = Some i -> has_pc c i open_;
  ci_drains : drains (callmap c) (rdr c);
  ci_broken : isClosed (callmap c) = true \/ (0 < closing c)%nat \/ ~ live (rdr c) /\ rdr c <> RFatal ->
    broken n = true;
}.

Lemma tag_of_inj i j : tag_of i = tag_of j -> i = j.
Proof. unfold tag_of. lia. Qed.

Lemma outstanding_remove cm t ts ch cm' : outstanding cm (t :: ts) -> remove t cm = Some (ch, cm') ->
  outstanding cm' ts.
Proof.
  intros [Hall Hts] Hr. inversion Hall as [|? ? Hn Hnd]; subst. unfold remove in Hr. destruct (cm_calls cm !! t); [| done].
  injection Hr as <- <-. split; [done |]. intros t'. simpl. rewrite lookup_delete_is_Some, <- Hts, elem_of_cons.
  split; [| naive_solver]. intros Hin. split; [by intros -> | by right].
Qed.

Lemma lookup_set_pc i pc c j :
  calls (set_pc i pc c) !! j = if decide (i = j) then (fun k => mkCall (c_req k) (c_tag k) pc) <$> calls c !! i
    else calls c !! j.
Proof.
  unfold set_pc, set_calls. simpl. case_decide as H; [subst; apply list_lookup_alter_eq | by apply list_lookup_alter_ne].
Qed.

Lemma has_pc_set_pc i pc c j (P : call_pc -> Prop) k : calls c !! i = Some k ->
  has_pc (set_pc i pc c) j P <-> if decide (i = j) then P pc else has_pc c j P.
Proof.
  intros Hk. unfold has_pc. rewrite lookup_set_pc. case_decide; [| done]. rewrite Hk. simpl.
  naive_solver.
Qed.

Lemma has_pc_not c i k (P : call_pc -> Prop) :
  calls c !! i = Some k -> ~ P (c_pc k) -> ~ has_pc c i P.
Proof. intros Hk Hn (k' & Hk' & HP). simplify_eq. done. Qed.

Lemma not_open_Tagged : ~ open_ Tagged.
Proof. by intros [?|?]. Qed.
Lemma not_open_Returned r : ~ open_ (Returned r).
Proof. by intros [?|?]. Qed.
#[local] Hint Resolve not_open_Tagged not_open_Returned : core.

Lemma tags_set_pc c i pc : (forall i k, calls c !! i = Some k -> c_tag k = tag_of i) ->
  forall j k, calls (set_pc i pc c) !! j = Some k -> c_tag k = tag_of j.
Proof.
  intros Ht j k. rewrite lookup_set_pc. case_decide as H; [| apply Ht]. subst.
  intros (k' & Hk & ->)%fmap_Some. simpl. by apply Ht.
Qed.

Lemma clnt_inv_conn c n n' : clnt_inv c n -> (broken n = true -> broken n' = true) -> clnt_inv c n'.
Proof. intros [????? Hb] H. split; auto. Qed.

(** A call that stays in the map, or stays out of it. *)
Lemma clnt_inv_pc c n i k pc : clnt_inv c n -> calls c !! i = Some k ->
  (open_ (c_pc k) <-> open_ pc) -> clnt_inv (set_pc i pc c) n.
Proof.
  intros [Hnext Htags Hmap Hsend Hdr Hbr] Hk Ho.
  assert (forall j, has_pc (set_pc i pc c) j open_ <-> has_pc c j open_) as Heq.
  { intros j. rewrite has_pc_set_pc by done. case_decide; [subst | done].
    split; [intros; exists k; by split; [| apply Ho] |]. intros (k' & Hk' & ?). simplify_eq. by apply Ho. }
  split; simpl; try done.
  - by rewrite length_alter.
  - by apply tags_set_pc.
  - intros t j. rewrite Heq. apply Hmap.
  - intros j. rewrite Heq. apply Hsend.
Qed.

Lemma clnt_inv_rdr c n r : clnt_inv c n -> sending r = sending (rdr c) -> drains (callmap c) r ->
  (~ live r -> r <> RFatal -> broken n = true) -> clnt_inv (set_rdr r c) n.
Proof.
  intros [Hnext Htags Hmap Hsend Hdr Hbr] Hs Hd Hb. split; simpl; try done.
  - intros t i. rewrite Hs. apply Hmap.
  - intros i. rewrite Hs. apply Hsend.
  - intros [H|[H|[H1 H2]]]; auto.
Qed.

Lemma clnt_inv_put c n i k cm : clnt_inv c n -> calls c !! i = Some k -> c_pc k = Tagged ->
  put (c_tag k) i (callmap c) = Some cm -> clnt_inv (set_pc i Entered (set_callmap cm c)) n.
Proof.
  intros [Hnext Htags Hmap Hsend Hdr Hbr] Hk Hpc Hput. unfold put in Hput.
  destruct (cm_closed (callmap c)) eqn:Ecl; [done |]. injection Hput as <-.
  assert (~ has_pc c i open_) as Hno by (apply (has_pc_not _ _ k); [done | rewrite Hpc; auto]).
  split; simpl.
  - by rewrite length_alter.
  - by apply tags_set_pc.
  - intros t j. rewrite lookup_insert_Some, has_pc_set_pc, (Htags i k), Hmap by done.
    unfold has_pc at 1. simpl. fold (has_pc c j open_).
    destruct (decide (i = j)) as [->|Hij].
    + split; [intros [[<- _]|(_ & _ & ? & _)] | intros (-> & _)]; [| done | by left].
      split_and!; [done | by left |]. intros Hse. by apply Hno, Hsend.
    + split; [naive_solver |]. intros (-> & Hh & Hse). right. split_and!; try done.
      intros Heq%tag_of_inj. done.
  - intros j Hj. rewrite has_pc_set_pc by done. case_decide; [by left | by apply Hsend].
  - unfold isClosed in Hdr. rewrite <- Ecl.
    destruct (rdr c) as [|? ? []|? ? []| | | | |]; simpl in *; unfold isClosed in *; try done;
      rewrite Ecl in Hdr; naive_solver.
  - unfold isClosed in *. simpl. rewrite Ecl in Hbr. exact Hbr.
Qed.

Lemma clnt_inv_close c n : clnt_inv c n -> broken n = true ->
  clnt_inv (set_callmap (close (callmap c)) c) n.
Proof.
  intros [Hnext Htags Hmap Hsend Hdr Hbr] Hb. split; simpl; try done.
  destruct (rdr c) as [|? ? []|? ? []| | | | |]; simpl in *; unfold outstanding in *; naive_solver.
Qed.

Lemma clnt_inv_remove c n t r loop ch cm : clnt_inv c n -> rdr c = RReply t r loop ->
  remove t (callmap c) = Some (ch, cm) -> clnt_inv (set_rdr (RSend ch r loop) (set_callmap cm c)) n.
Proof.
  intros [Hnext Htags Hmap Hsend Hdr Hbr] Hr Hrem. pose proof Hrem as Hrem'. unfold remove in Hrem.
  destruct (cm_calls (callmap c) !! t) as [ch'|] eqn:Et; [| done]. injection Hrem as -> <-.
  pose proof Et as Et'. rewrite Hr in *. apply Hmap in Et as (-> & Ho & _). split; simpl; try done.
  - intros t j. rewrite lookup_delete_Some, Hmap. simpl. split.
    + intros (Hne & -> & Hj & _). split_and!; [done | done |]. intros [= ->]. done.
    + intros (-> & Hj & Hne). split_and!; [| done..]. intros Heq%tag_of_inj. subst. done.
  - by intros i [= <-].
  - destruct loop as [ts|]; [| done]. destruct Hdr as (Hc & Hout & ->). unfold isClosed in *. simpl.
    split_and!; [done | | done]. by eapply (outstanding_remove _ _ _ ch).
  - unfold isClosed in *. simpl. intros [H|[H|H]]; apply Hbr; [by left | by right; left |].
    right; right. destruct loop; simpl in *; [| naive_solver]. split; [naive_solver | done].
Qed.

Lemma clnt_inv_send c n ch r loop k : clnt_inv c n -> rdr c = RSend ch r loop ->
  calls c !! ch = Some k -> clnt_inv (set_pc ch (Returned r) (set_rdr (after_reply loop) c)) n.
Proof.
  intros [Hnext Htags Hmap Hsend Hdr Hbr] Hr Hk. rewrite Hr in *.
  assert (sending (after_reply loop) = None) as Hs by (by destruct loop).
  split; simpl; try done.
  - by rewrite length_alter.
  - by apply (tags_set_pc (set_rdr (after_reply loop) c)).
  - intros t j. rewrite Hmap, has_pc_set_pc, Hs by done. unfold has_pc at 2. simpl.
    fold (has_pc c j open_). case_decide as Hj; [subst |].
    + split; [naive_solver |]. intros (_ & H & _). by apply not_open_Returned in H.
    + split; [naive_solver |]. intros (-> & Hh & _). split_and!; [done | done |]. naive_solver.
  - intros i. by rewrite Hs.
  - destruct loop; simpl in *; naive_solver.
  - intros [H|[H|[H1 H2]]]; apply Hbr; [by left | by right; left |]. right; right.
    destruct loop; simpl in *; [| naive_solver]. split; [naive_solver | done].
Qed.

Lemma clnt_step_inv c n c' n' : clnt_step c n c' n' -> clnt_inv c n -> clnt_inv c' n'.
Proof.
  destruct 1 as [c n i k cm Hk Hp Hput|c n i k Hk Hp Hput|c n i k w Hk Hp Hw|c n m q Hr Hq|c n Hr Hb
    |c n Hr|c n ts Hr Ho|c n Hr|c n t ts Hr|c n t r loop ch cm Hr Hrem|c n t r loop Hr Hrem
    |c n ch r loop k Hr Hk Hp|c n x Hx]; intros Hi; pose proof (ci_drains _ _ Hi) as Hd;
    pose proof (ci_broken _ _ Hi) as Hbr; try rewrite Hr in Hd; try rewrite Hr in Hbr; simpl in Hd.
  - by eapply clnt_inv_put.
  - eapply clnt_inv_pc; [done | done |]. rewrite Hp.
    by split; intros [].
  - eapply clnt_inv_conn with n; [| done]. eapply clnt_inv_pc; [done | done |].
    rewrite Hp. split; intros _; [by right | by left].
  - eapply clnt_inv_conn with n; [| done]. apply clnt_inv_rdr; [done | by rewrite Hr | done |]. simpl. naive_solver.
  - apply clnt_inv_rdr; [done | by rewrite Hr | done | done].
  - assert (broken n = true) as Hb by (apply Hbr; right; right; split; [simpl; tauto | done]).
    apply (clnt_inv_rdr (set_callmap (close (callmap c)) c)); [by apply clnt_inv_close | by simpl; rewrite Hr | done | done].
  - apply clnt_inv_rdr; [done | by rewrite Hr | done |]. intros _ _. apply Hbr. by left.
  - apply clnt_inv_rdr; [done | by rewrite Hr | done |]. intros _ _. apply Hbr. left. apply Hd.
  - apply clnt_inv_rdr; [done | by rewrite Hr | simpl; tauto |]. intros _ _. apply Hbr. left. apply Hd.
  - by eapply clnt_inv_remove.
  - apply clnt_inv_rdr; [done | by rewrite Hr | done | done].
  - by eapply clnt_inv_send.
  - assert (broken n = true) as Hb by (apply Hbr; right; left; lia).
    destruct (clnt_inv_close c n Hi Hb) as [? ? ? ? ? Hbr']. by split.
Qed.

Lemma u32_step v : u32 (u32 v + 1) = u32 (v + 1).
Proof. unfold u32. by rewrite Zplus_mod_idemp_l. Qed.

Lemma lookup_start b c i :
  calls (SendReceive_start b c) !! i =
  if decide (i = length (calls c)) then Some (mkCall b (nextTag c) Tagged) else calls c !! i.
Proof.
  unfold SendReceive_start, tag, set_calls. simpl. case_decide as H.
  - subst. by rewrite list_lookup_middle.
  - destruct (decide (i < length (calls c))%nat).
    + by rewrite lookup_app_l by done.
    + rewrite lookup_app_r, (lookup_ge_None_2 (calls c)) by lia.
      destruct (i - length (calls c))%nat eqn:E; [lia | done].
Qed.

Lemma has_pc_start b c i (P : call_pc -> Prop) : ~ P Tagged ->
  has_pc (SendReceive_start b c) i P <-> has_pc c i P.
Proof.
  intros HP. unfold has_pc. setoid_rewrite lookup_start. case_decide; [subst | done].
  rewrite lookup_ge_None_2 by lia. split; intros (k & [= <-] & ?); done.
Qed.

Lemma clnt_inv_start c n b : Z.of_nat (length (calls c)) + 1 < 2 ^ 32 -> clnt_inv c n ->
  clnt_inv (SendReceive_start b c) n.
Proof.
  intros Hlen [Hnext Htags Hmap Hsend Hdr Hbr].
  assert (forall j, has_pc (SendReceive_start b c) j open_ <-> has_pc c j open_) as Heq
    by (intros j; by apply has_pc_start).
  split; [| | intros t j; rewrite Heq; apply Hmap | intros j; rewrite Heq; apply Hsend | done | done].
  - unfold SendReceive_start, tag. simpl. rewrite length_app, Hnext, u32_step. simpl. f_equal. lia.
  - intros i k. rewrite lookup_start. case_decide as H; [| apply Htags]. intros [= <-]. simpl. subst.
    rewrite Hnext. unfold tag_of. apply u32_small. lia.
Qed.

(** *** Requests, runs and replies *)

(** The requests that the server has not read. *)
Definition pending (p : srv_pc) (q : list msg) : list msg :=
  match p with SInit | SFatal => tail q | SRead | SExit => q end.
Definition requests (n : conn) (v : DemuxSrv) : list msg := pending (srv v) (queue (requests_w n)).

Definition rdr_tag (r : reader) : list Z := match r with RReply t _ None => [t] | _ => [] end.

(** The tags of what is between [WriteCall] and [remove]. *)
Definition flight (s : sys) : list Z :=
  (Tag <$> requests (sn s) (sv s)) ++ (fst <$> serving (sv s)) ++ (e_tag <$> answering (sv s)) ++
  (Tag <$> queue (replies_w (sn s))) ++ rdr_tag (rdr (sc s)).

(** The tags of the runs of [ServeRequest], over and to come. *)
Definition runs (s : sys) : list Z :=
  (Tag <$> requests (sn s) (sv s)) ++ (fst <$> serving (sv s)) ++ (e_tag <$> served (sv s)).

(** Tag [t] and request [b] are those of a call that has been written. *)
Definition asked (c : DemuxClnt) (t : Z) (b : bytes) : Prop :=
  exists i k, t = tag_of i /\ calls c !! i = Some k /\ sent (c_pc k) /\ b = c_req k.

Definition answered (v : DemuxSrv) (t : Z) (r : reply) : Prop :=
  err r = None /\ exists b, mkExec t b (rep r) (ok r) ∈ served v.

Definition rdr_answered (v : DemuxSrv) (r : reader) : Prop :=
  match r with
  | RReply t r None => answered v t r
  | RSend i r None => answered v (tag_of i) r
  | _ => True
  end.

(** What a call returns: the reply of a run under its tag, or an error. *)
Definition returns_ok (v : DemuxSrv) (i : nat) (r : reply) : Prop :=
  answered v (tag_of i) r \/ (err r <> None /\ rep r = [] /\ ok r = false).

Definition starting (p : srv_pc) : Prop := p = SInit \/ p = SFatal.

Record runs_inv (s : sys) : Prop := {
  ri_init : starting (srv (sv s)) -> exists q, queue (requests_w (sn s)) = initMsg :: q;
  ri_early : starting (srv (sv s)) -> serving (sv s) = [];
  ri_name : ~ starting (srv (sv s)) -> clntEnd (sv s) = clnt;
  ri_runs : NoDup (runs s);
  ri_reqs : forall m, m ∈ requests (sn s) (sv s) -> asked (sc s) (Tag m) (Data m);
  ri_serving : forall t b, (t, b) ∈ serving (sv s) -> asked (sc s) t b;
  ri_served : forall e, e ∈ served (sv s) -> asked (sc s) (e_tag e) (e_req e) /\
    ServeRequest clnt (e_req e) (e_rep e, e_ok e);
  ri_answering : forall e, e ∈ answering (sv s) -> e ∈ served (sv s);
  ri_replies : forall m, m ∈ queue (replies_w (sn s)) ->
    exists b, mkExec (Tag m) b (Data m) (Ok_ m) ∈ served (sv s);
  ri_reader : rdr_answered (sv s) (rdr (sc s));
  ri_ret : forall i k r, calls (sc s) !! i = Some k -> c_pc k = Returned r -> returns_ok (sv s) i r;
}.

(** As long as [reader] has met no error, each reply under way finds its
    call in the map; as long as the connection holds, every waiting call
    has its request or reply under way. *)
Record flight_inv (s : sys) : Prop := {
  fi_nodup : NoDup (flight s);
  fi_live : live (rdr (sc s)) -> forall t, t ∈ flight s -> is_Some (cm_calls (callmap (sc s)) !! t);
  fi_fatal : rdr (sc s) <> RFatal;
  fi_lost : broken (sn s) = false ->
    failed (requests_w (sn s)) = false /\ failed (replies_w (sn s)) = false /\
    forall i k, calls (sc s) !! i = Some k -> c_pc k = Waiting ->
      sending (rdr (sc s)) = Some i \/ tag_of i ∈ flight s;
}.

(** Calls are never taken back. *)
Definition calls_le (c c' : DemuxClnt) : Prop :=
  forall i k, calls c !! i = Some k -> sent (c_pc k) ->
    exists k', calls c' !! i = Some k' /\ sent (c_pc k') /\ c_req k' = c_req k.

Lemma asked_mono c c' t b : calls_le c c' -> asked c t b -> asked c' t b.
Proof.
  intros Hle (i & k & -> & Hk & Hs & ->). destruct (Hle i k Hk Hs) as (k' & Hk' & Hs' & Hr).
  by exists i, k'.
Qed.

Lemma calls_le_set_pc c c' i k pc : calls c !! i = Some k -> (sent (c_pc k) -> sent pc) ->
  calls c' = calls (set_pc i pc c) -> calls_le c c'.
Proof.
  intros Hk Hpc Heq j kj Hj Hs. rewrite Heq, lookup_set_pc. case_decide as H; [subst | by eauto].
  rewrite Hk. simplify_eq. eexists. split; [done |]. simpl. auto.
Qed.

Lemma calls_le_eq c c' : calls c' = calls c -> calls_le c c'.
Proof. intros Heq i k Hk Hs. rewrite Heq. eauto. Qed.

Lemma requests_asked c n v t : runs_inv (mkSys c n v) -> t ∈ runs (mkSys c n v) -> exists b, asked c t b.
Proof.
  intros Hi. unfold runs. rewrite !elem_of_app, !list_elem_of_fmap. simpl.
  intros [(m & -> & Hm)|[([t' b] & -> & Hb)|(e & -> & He)]].
  - eexists. by apply (ri_reqs _ Hi).
  - eexists. by apply (ri_serving _ Hi).
  - eexists. by apply (ri_served _ Hi).
Qed.

Lemma flight_asked s t : runs_inv s -> t ∈ flight s -> exists b, asked (sc s) t b.
Proof.
  intros Hi. destruct s as [c n v]. unfold flight. rewrite !elem_of_app, !list_elem_of_fmap. simpl.
  intros [(m & -> & Hm)|[([t' b] & -> & Hb)|[(e & -> & He)|[(m & -> & Hm)|Hr]]]].
  - eexists. by apply (ri_reqs _ Hi).
  - eexists. by apply (ri_serving _ Hi).
  - eexists. by apply (ri_served _ Hi), (ri_answering _ Hi).
  - destruct (ri_replies _ Hi m Hm) as [b Hb]. eexists. apply (ri_served _ Hi) in Hb as [Hb _]. exact Hb.
  - pose proof (ri_reader _ Hi) as Hrd. simpl in Hrd.
    destruct (rdr c) as [|t' r []| | | | | |]; simpl in *; try by apply not_elem_of_nil in Hr.
    apply list_elem_of_singleton in Hr as ->. destruct Hrd as (_ & b & Hb).
    eexists. apply (ri_served _ Hi) in Hb as [Hb _]. exact Hb.
Qed.

(** Steps of the client that leave the queues alone. *)
Lemma runs_inv_clnt c n v c' n' : runs_inv (mkSys c n v) -> calls_le c c' ->
  queue (requests_w n') = queue (requests_w n) -> queue (replies_w n') = queue (replies_w n) ->
  rdr_answered v (rdr c') ->
  (forall i k r, calls c' !! i = Some k -> c_pc k = Returned r -> returns_ok v i r) ->
  runs_inv (mkSys c' n' v).
Proof.
  intros [Hin Hea Hna Hru Hre Hse Hsd Han Hrp Hrd Hret] Hle Hq1 Hq2 Hrd' Hret'.
  unfold runs, requests in *. simpl in *.
  split; unfold runs, requests; simpl; rewrite ?Hq1, ?Hq2; try done.
  - intros m Hm. by eapply asked_mono, Hre.
  - intros t b Hm. by eapply asked_mono, Hse.
  - intros e He. destruct (Hsd e He). split; [by eapply asked_mono | done].
Qed.

Lemma returned_set_pc v c i k pc : calls c !! i = Some k ->
  (forall j k r, calls c !! j = Some k -> c_pc k = Returned r -> returns_ok v j r) ->
  (forall r, pc = Returned r -> returns_ok v i r) ->
  forall j k r, calls (set_pc i pc c) !! j = Some k -> c_pc k = Returned r -> returns_ok v j r.
Proof.
  intros Hk Hret Hpc j k' r. rewrite lookup_set_pc. case_decide as H; [subst | apply Hret].
  rewrite Hk. simpl. intros [= <-]. simpl. apply Hpc.
Qed.

(** The server has read the first message before it can read a request. *)
Lemma pending_push p q m : (starting p -> exists q', q = initMsg :: q') ->
  pending p (q ++ [m]) = pending p q ++ [m].
Proof.
  intros Hin. destruct p; simpl; [| done | done |];
    (destruct Hin as [q' ->]; [unfold starting; tauto | done]).
Qed.

Lemma wire_write_queue b m w w' : wire_write b m w w' ->
  queue w' = queue w \/ queue w' = queue w ++ [m] /\ failed w = false.
Proof.
  unfold wire_write. destruct (failed w); [intros ->; by left |].
  destruct b; [intros [_ [-> | ->]] | intros ->]; auto.
Qed.

Lemma sent_not_Entered : ~ sent Entered.
Proof. by intros [?|[? ?]]. Qed.

Lemma runs_inv_write c n v i k w : clnt_inv c n -> runs_inv (mkSys c n v) ->
  calls c !! i = Some k -> c_pc k = Entered ->
  wire_write (broken n) (mkMsg (c_tag k) (c_req k) true) (requests_w n) w ->
  runs_inv (mkSys (set_pc i Waiting c) (mkConn w (replies_w n) (broken n)) v).
Proof.
  intros Hci Hri Hk Hp Hw.
  assert (calls_le c (set_pc i Waiting c)) as Hle.
  { eapply calls_le_set_pc; [done | | done]. intros _. by left. }
  assert (runs_inv (mkSys (set_pc i Waiting c) n v)) as Hri'.
  { eapply runs_inv_clnt; try done; [apply (ri_reader _ Hri) |].
    eapply returned_set_pc; [done | apply (ri_ret _ Hri) | done]. }
  apply wire_write_queue in Hw as [Hq|[Hq _]].
  { eapply runs_inv_clnt; [exact Hri' | by apply calls_le_eq | done | done | apply (ri_reader _ Hri') | apply (ri_ret _ Hri')]. }
  assert (c_tag k ∉ runs (mkSys c n v)) as Hfresh.
  { rewrite (ci_tags _ _ Hci i k Hk). intros Hin. apply (requests_asked _ _ _ _ Hri) in Hin as (b & j & kj & Hj & Hkj & Hs & _).
    apply tag_of_inj in Hj as <-. simplify_eq. rewrite Hp in Hs. by apply sent_not_Entered in Hs. }
  destruct Hri' as [Hin Hea Hna Hru Hre Hse Hsd Han Hrp Hrd Hret].
  unfold runs, requests in *. simpl in *.
  split; unfold runs, requests; simpl; rewrite ?Hq; try done.
  - intros Hst. destruct (Hin Hst) as [q' ->]. eauto.
  - rewrite pending_push by done.
    assert ((Tag <$> pending (srv v) (queue (requests_w n)) ++ [mkMsg (c_tag k) (c_req k) true]) ++
      (fst <$> serving v) ++ (e_tag <$> served v) ≡ₚ c_tag k ::
      (Tag <$> pending (srv v) (queue (requests_w n))) ++ (fst <$> serving v) ++ (e_tag <$> served v)) as ->.
    { rewrite fmap_app. simpl. solve_Permutation. }
    by constructor.
  - rewrite pending_push by done. intros m [Hm| ->%list_elem_of_singleton]%elem_of_app; [by apply Hre |].
    exists i, (mkCall (c_req k) (c_tag k) Waiting). split_and!; [by apply (ci_tags _ _ Hci) | | by left | done].
    by rewrite lookup_set_pc, decide_True, Hk.
Qed.

Lemma runs_inv_rdr c n v c' r : runs_inv (mkSys c n v) -> calls c' = calls c -> rdr c' = r ->
  rdr_answered v r -> runs_inv (mkSys c' n v).
Proof.
  intros Hi Hc Hr Hans. eapply runs_inv_clnt; [exact Hi | by apply calls_le_eq | done | done | by rewrite Hr |].
  rewrite Hc. apply (ri_ret _ Hi).
Qed.

(** A caller returns. *)
Lemma runs_inv_return c n v c' i k r : runs_inv (mkSys c n v) -> calls c !! i = Some k ->
  calls c' = calls (set_pc i (Returned r) c) -> rdr_answered v (rdr c') -> returns_ok v i r ->
  runs_inv (mkSys c' n v).
Proof.
  intros Hi Hk Hc Hr Hok. eapply runs_inv_clnt; [exact Hi | | done | done | done |].
  - eapply calls_le_set_pc; [done | | done]. intros _. right. eauto.
  - rewrite Hc. eapply returned_set_pc; [done | apply (ri_ret _ Hi) |]. by intros ? [= <-].
Qed.

Lemma clnt_step_runs c n v c' n' : clnt_step c n c' n' -> clnt_inv c n ->
  runs_inv (mkSys c n v) -> runs_inv (mkSys c' n' v).
Proof.
  destruct 1 as [c n i k cm Hk Hp Hput|c n i k Hk Hp Hput|c n i k w Hk Hp Hw|c n m q Hr Hq|c n Hr Hb
    |c n Hr|c n ts Hr Ho|c n Hr|c n t ts Hr|c n t r loop ch cm Hr Hrem|c n t r loop Hr Hrem
    |c n ch r loop k Hr Hk Hp|c n x Hx]; intros Hci Hi; pose proof (ri_reader _ Hi) as Hrd; simpl in Hrd;
    try rewrite Hr in Hrd.
  - eapply runs_inv_clnt; [exact Hi | | done | done | done |].
    + eapply (calls_le_set_pc _ _ i k Entered); [done | | done]. rewrite Hp. by intros [|[]].
    + apply (returned_set_pc v (set_callmap cm c) i k); [done | apply (ri_ret _ Hi) | done].
  - eapply runs_inv_return; [done | done | done | done |]. by right.
  - by eapply runs_inv_write.
  - destruct Hi as [Hin Hea Hna Hru Hre Hse Hsd Han Hrp _ Hret].
    unfold runs, requests in *. simpl in *.
    split; unfold runs, requests; simpl; rewrite ?Hq in Hrp; try done.
    + intros m' Hm'. apply Hrp. by right.
    + split; [done |]. apply Hrp. by left.
  - by eapply runs_inv_rdr.
  - by eapply runs_inv_rdr.
  - by eapply runs_inv_rdr.
  - by eapply runs_inv_rdr.
  - by eapply runs_inv_rdr.
  - eapply runs_inv_rdr; [done | done | done |]. destruct loop; [done |]. simpl in *.
    unfold remove in Hrem. destruct (cm_calls (callmap c) !! t) eqn:Et; [| done]. injection Hrem as -> _.
    apply (ci_map _ _ Hci) in Et as [-> _]. exact Hrd.
  - by eapply runs_inv_rdr.
  - eapply (runs_inv_return c n v _ ch k r Hi Hk); [done | by destruct loop |].
    destruct loop as [ts|]; [| by left]. right.
    pose proof (ci_drains _ _ Hci) as Hd. rewrite Hr in Hd. destruct Hd as (_ & _ & ->). done.
  - by eapply runs_inv_rdr.
Qed.

Lemma srv_step_runs c n v v' n' : srv_step v n v' n' ->
  runs_inv (mkSys c n v) -> runs_inv (mkSys c n' v').
Proof.
  destruct 1 as [v n m q i Hs Hq Hu|v n Hs Hb|v n m q Hs Hq|v n eof Hs Hb|v n l1 t req l2 r okr Hl Hsv
    |v n l1 e l2 w Hl Hw]; intros [Hin Hea Hna Hru Hre Hse Hsd Han Hrp Hrd Hret];
    unfold runs, requests in *; simpl in *; rewrite ?Hs in *; simpl in *.
  - destruct Hin as [q' Hq']; [by left |]. rewrite Hq in Hq', Hru, Hre. injection Hq' as -> <-.
    unfold Unmarshall, initMsg, Marshall in Hu. simpl in Hu. rewrite decode_encode in Hu. injection Hu as <-.
    split; unfold runs, requests; simpl; try done; by intros [|].
  - split; unfold runs, requests; simpl; try done.
    + intros _. apply Hin. by left.
    + intros _. apply Hea. by left.
    + intros H. exfalso. apply H. by right.
  - rewrite Hq in *. split; unfold runs, requests; simpl; try done.
    + by intros [|].
    + by intros [|].
    + assert ((Tag <$> q) ++ Tag m :: (fst <$> serving v) ++ (e_tag <$> served v) ≡ₚ
        (Tag <$> m :: q) ++ (fst <$> serving v) ++ (e_tag <$> served v)) as ->; [simpl; solve_Permutation | done].
    + intros m' Hm'. apply Hre. by right.
    + intros t b [[= -> ->]|Hin']%elem_of_cons; [apply Hre; by left | by apply Hse].
  - split; unfold runs, requests; simpl; try done.
    + by intros [|].
    + by intros [|].
    + intros _. apply Hna. by intros [|].
  - assert (~ starting (srv v)) as Hst.
    { intros Hst. specialize (Hea Hst). rewrite Hl in Hea. by destruct l1. }
    rewrite (Hna Hst) in Hsv.
    split; unfold runs, requests; simpl; try done.
    + assert ((Tag <$> pending (srv v) (queue (requests_w n))) ++ (fst <$> l1 ++ l2) ++ t :: (e_tag <$> served v) ≡ₚ
        (Tag <$> pending (srv v) (queue (requests_w n))) ++ (fst <$> serving v) ++ (e_tag <$> served v)) as ->; [| done].
      rewrite Hl, !fmap_app. simpl. solve_Permutation.
    + intros t' b Hb. apply Hse. rewrite Hl. rewrite elem_of_app in Hb |- *. rewrite elem_of_cons. tauto.
    + intros e [->|He]%elem_of_cons; [| by apply Hsd]. simpl. split; [| done]. apply Hse. rewrite Hl.
      apply elem_of_app. right. left.
    + intros e [->|He]%elem_of_cons; [left | right; auto].
    + intros m Hm. destruct (Hrp m Hm) as [b Hb]. exists b. by right.
    + destruct (rdr c) as [|? ? []|? ? []| | | | |]; simpl in *; try done;
        (destruct Hrd as (? & b & Hb); split; [done | exists b; by right]).
    + intros i k r' Hk Hp. destruct (Hret i k r' Hk Hp) as [(? & b & Hb)|H]; [left | by right].
      split; [done | exists b; by right].
  - split; unfold runs, requests; simpl; try done.
    + intros e' He'. apply Han. rewrite Hl. rewrite elem_of_app in He' |- *. rewrite elem_of_cons. tauto.
    + apply wire_write_queue in Hw as [Hq|[Hq _]]; rewrite Hq; [done |].
      intros m [Hm| ->%list_elem_of_singleton]%elem_of_app; [by apply Hrp |].
      exists (e_req e). simpl. assert (e ∈ answering v) as He; [| apply Han in He; by destruct e].
      rewrite Hl. apply elem_of_app. right. left.
Qed.

(** Steps that put nothing new under way. *)
Lemma flight_inv_sub s s' : flight_inv s -> flight s' ⊆+ flight s ->
  (live (rdr (sc s')) -> forall t, t ∈ flight s' -> is_Some (cm_calls (callmap (sc s')) !! t)) ->
  rdr (sc s') <> RFatal ->
  (broken (sn s') = false ->
     failed (requests_w (sn s')) = false /\ failed (replies_w (sn s')) = false /\
     forall i k, calls (sc s') !! i = Some k -> c_pc k = Waiting ->
       sending (rdr (sc s')) = Some i \/ tag_of i ∈ flight s') ->
  flight_inv s'.
Proof.
  intros [Hnd _ _ _] [k Hk]%submseteq_Permutation. split; try done.
  rewrite Hk in Hnd. by apply list.NoDup_app in Hnd as [? _].
Qed.

(** Nor does a step of [reader] after an error. *)
Lemma flight_inv_dead c n v c' : flight_inv (mkSys c n v) -> rdr_tag (rdr c') = [] ->
  ~ live (rdr c') -> rdr c' <> RFatal -> broken n = true -> flight_inv (mkSys c' n v).
Proof.
  intros Hi Ht Hl Hf Hb. eapply flight_inv_sub; [exact Hi | | done | done | simpl; by rewrite Hb].
  unfold flight. simpl. rewrite Ht. solve_submseteq.
Qed.

Lemma waiting_set_pc c i pc (P : nat -> Prop) :
  (forall j k, calls c !! j = Some k -> c_pc k = Waiting -> P j) -> (pc = Waiting -> P i) ->
  forall j k, calls (set_pc i pc c) !! j = Some k -> c_pc k = Waiting -> P j.
Proof.
  intros H Hi j k. rewrite lookup_set_pc. case_decide as E; [subst | by apply H].
  intros (k' & _ & ->)%fmap_Some. simpl. exact Hi.
Qed.

(** A step of a caller other than [WriteCall]. *)
Lemma flight_inv_pc c n v c' i pc : flight_inv (mkSys c n v) -> pc <> Waiting ->
  calls c' = calls (set_pc i pc c) -> rdr c' = rdr c ->
  (forall t, is_Some (cm_calls (callmap c) !! t) -> is_Some (cm_calls (callmap c') !! t)) ->
  flight_inv (mkSys c' n v).
Proof.
  intros Hi Hpc Hc Hr Hcm. pose proof Hi as [Hnd Hlive Hf Hlost]. simpl in *.
  assert (flight (mkSys c' n v) = flight (mkSys c n v)) as Hfl by (unfold flight; simpl; by rewrite Hr).
  apply (flight_inv_sub (mkSys c n v)); simpl; rewrite ?Hfl, ?Hr; try done.
  - intros Hl t Ht. apply Hcm, Hlive; done.
  - intros Hb. destruct (Hlost Hb) as (? & ? & Hw). split_and!; [done | done |]. rewrite Hc.
    by apply (waiting_set_pc c i pc (fun j => sending (rdr c) = Some j \/ tag_of j ∈ flight (mkSys c n v))).
Qed.

Lemma sending_sent c n v i k : runs_inv (mkSys c n v) -> live (rdr c) -> sending (rdr c) = Some i ->
  calls c !! i = Some k -> sent (c_pc k).
Proof.
  intros Hi Hl Hs Hk. pose proof (ri_reader _ Hi) as Hr. simpl in Hr.
  destruct (rdr c) as [| |ch r []| | | | |]; simpl in *; try done. injection Hs as ->.
  destruct Hr as (_ & b & Hb). apply (ri_served _ Hi) in Hb as [(j & kj & Hj & Hkj & Hsent & _) _].
  apply tag_of_inj in Hj as <-. simpl in Hkj. by simplify_eq.
Qed.

Lemma flight_inv_write c n v i k w : clnt_inv c n -> runs_inv (mkSys c n v) ->
  flight_inv (mkSys c n v) -> calls c !! i = Some k -> c_pc k = Entered ->
  wire_write (broken n) (mkMsg (c_tag k) (c_req k) true) (requests_w n) w ->
  flight_inv (mkSys (set_pc i Waiting c) (mkConn w (replies_w n) (broken n)) v).
Proof.
  intros Hci Hri [Hnd Hlive Hf Hlost] Hk Hp Hw. simpl in *.
  pose proof (ci_tags _ _ Hci i k Hk) as Htag. rewrite Htag in Hw.
  assert (tag_of i ∉ flight (mkSys c n v)) as Hfresh.
  { intros (b & j & kj & Hj & Hkj & Hs & _)%(flight_asked _ _ Hri). apply tag_of_inj in Hj as <-.
    simpl in Hkj. simplify_eq. rewrite Hp in Hs. by apply sent_not_Entered in Hs. }
  assert (queue w = queue (requests_w n) ++ [mkMsg (tag_of i) (c_req k) true] ->
    flight (mkSys (set_pc i Waiting c) (mkConn w (replies_w n) (broken n)) v) ≡ₚ
    tag_of i :: flight (mkSys c n v)) as Hperm.
  { intros Hq. unfold flight, requests. simpl. rewrite Hq, pending_push by apply (ri_init _ Hri).
    rewrite fmap_app. simpl. solve_Permutation. }
  pose proof (wire_write_queue _ _ _ _ Hw) as [Hq|[Hq _]].
  - assert (flight (mkSys (set_pc i Waiting c) (mkConn w (replies_w n) (broken n)) v) = flight (mkSys c n v)) as Hfl
      by (unfold flight, requests; simpl; by rewrite Hq).
    split; simpl; rewrite ?Hfl; try done. intros Hb. destruct (Hlost Hb) as (Hf1 & _).
    unfold wire_write in Hw. rewrite Hb, Hf1 in Hw. subst w. simpl in Hq.
    apply (f_equal length) in Hq. rewrite length_app in Hq. simpl in Hq. lia.
  - specialize (Hperm Hq). split; [| | done |].
    + rewrite Hperm. by constructor.
    + simpl. intros Hl t Ht. rewrite Hperm in Ht. apply elem_of_cons in Ht as [->|Ht]; [| by apply Hlive].
      exists i. apply (ci_map _ _ Hci). split_and!; [done | exists k; split; [done | by left] |].
      intros Hs. pose proof (sending_sent _ _ _ _ _ Hri Hl Hs Hk) as H. rewrite Hp in H.
      by apply sent_not_Entered in H.
    + simpl. intros Hb. destruct (Hlost Hb) as (Hf1 & Hf2 & Hwait). unfold wire_write in Hw.
      rewrite Hb, Hf1 in Hw. split_and!; [by subst w | done |].
      apply (waiting_set_pc c i Waiting (fun j => sending (rdr c) = Some j \/ tag_of j ∈ flight _)).
      * intros j kj Hj Hpj. destruct (Hwait j kj Hj Hpj) as [?|?]; [by left | right]. rewrite Hperm. by right.
      * intros _. right. rewrite Hperm. by left.
Qed.

Lemma flight_remove c n v t r ch cm : rdr c = RReply t r None ->
  flight (mkSys c n v) ≡ₚ t :: flight (mkSys (set_rdr (RSend ch r None) (set_callmap cm c)) n v).
Proof. intros Hr. unfold flight. simpl. rewrite Hr. simpl. solve_Permutation. Qed.

Lemma flight_inv_remove c n v t r ch cm : clnt_inv c n -> flight_inv (mkSys c n v) ->
  rdr c = RReply t r None -> remove t (callmap c) = Some (ch, cm) ->
  flight_inv (mkSys (set_rdr (RSend ch r None) (set_callmap cm c)) n v).
Proof.
  intros Hci Hi Hr Hrem. pose proof Hi as [Hnd Hlive _ Hlost]. simpl in *.
  pose proof (flight_remove c n v t r ch cm Hr) as Hp. rewrite Hp in Hnd.
  apply list.NoDup_cons in Hnd as [Hnt _].
  unfold remove in Hrem. destruct (cm_calls (callmap c) !! t) as [ch'|] eqn:Et; [| done].
  injection Hrem as -> <-. apply (ci_map _ _ Hci) in Et as (-> & _ & _).
  eapply flight_inv_sub; [exact Hi | rewrite Hp; by apply submseteq_cons | | done |].
  - simpl. intros _ t' Ht'. rewrite lookup_delete_is_Some. split; [by intros <- |].
    apply Hlive; [by rewrite Hr |]. rewrite Hp. by right.
  - simpl. intros Hb. destruct (Hlost Hb) as (Hf1 & Hf2 & Hw). split_and!; [done | done |].
    intros j kj Hj Hpj. destruct (Hw j kj Hj Hpj) as [Hs|Hin]; [by rewrite Hr in Hs |].
    rewrite Hp in Hin. apply elem_of_cons in Hin as [Heq|Hin]; [left | by right].
    apply tag_of_inj in Heq. by subst.
Qed.

Lemma clnt_step_flight c n v c' n' : clnt_step c n c' n' -> clnt_inv c n -> clnt_inv c' n' ->
  runs_inv (mkSys c n v) -> flight_inv (mkSys c n v) -> flight_inv (mkSys c' n' v).
Proof.
  destruct 1 as [c n i k cm Hk Hp Hput|c n i k Hk Hp Hput|c n i k w Hk Hp Hw|c n m q Hr Hq|c n Hr Hb
    |c n Hr|c n ts Hr Ho|c n Hr|c n t ts Hr|c n t r loop ch cm Hr Hrem|c n t r loop Hr Hrem
    |c n ch r loop k Hr Hk Hp|c n x Hx]; intros Hci Hci' Hri Hi;
    pose proof (ci_drains _ _ Hci) as Hd; try rewrite Hr in Hd; simpl in Hd;
    pose proof (ci_broken _ _ Hci') as Hbr; simpl in Hbr.
  - eapply (flight_inv_pc _ _ _ _ i Entered); [exact Hi | done | done | done |].
    unfold put in Hput. destruct (cm_closed (callmap c)); [done |]. injection Hput as <-. simpl.
    intros t Ht. rewrite lookup_insert_is_Some. destruct (decide (c_tag k = t)); [by left | by right].
  - by eapply (flight_inv_pc _ _ _ _ i (Returned _)); [exact Hi |..].
  - by eapply flight_inv_write.
  - destruct Hi as [Hnd Hlive Hf Hlost]. simpl in *.
    assert (flight (mkSys (set_rdr (RReply (Tag m) (mkReply (Data m) (Ok_ m) None) None) c)
      (mkConn (requests_w n) (mkWire q (failed (replies_w n))) (broken n)) v) ≡ₚ flight (mkSys c n v)) as Hp.
    { unfold flight. simpl. rewrite Hq, Hr. simpl. solve_Permutation. }
    rewrite Hr in Hlive, Hlost. split; [by rewrite Hp | | done |]; simpl.
    + intros _ t Ht. apply Hlive; [done | by rewrite <- Hp].
    + intros Hb. destruct (Hlost Hb) as (? & ? & Hw). split_and!; [done | done |].
      intros j kj Hj Hpj. destruct (Hw j kj Hj Hpj) as [Hs|Hin]; [done |].
      right. by rewrite Hp.
  - by eapply flight_inv_dead; [exact Hi | | simpl; tauto |..].
  - eapply flight_inv_dead; [exact Hi | done | simpl; tauto | done | apply Hbr; auto].
  - eapply flight_inv_dead; [exact Hi | done | simpl; tauto | done | apply Hbr; auto].
  - eapply flight_inv_dead; [exact Hi | done | simpl; tauto | done | apply Hbr; left; apply Hd].
  - eapply flight_inv_dead; [exact Hi | done | simpl; tauto | done | apply Hbr; left; apply Hd].
  - destruct loop as [ts|]; [| by eapply flight_inv_remove].
    eapply flight_inv_dead; [exact Hi | done | simpl; tauto | done | apply Hbr; right; right].
    split; [simpl; tauto | done].
  - exfalso. assert (is_Some (cm_calls (callmap c) !! t)) as [ch Hch].
    { destruct loop as [ts|]; [apply Hd; by left |].
      apply (fi_live _ Hi); [simpl; by rewrite Hr |]. unfold flight. simpl. rewrite Hr.
      rewrite !elem_of_app. simpl. rewrite list_elem_of_singleton. tauto. }
    unfold remove in Hrem. by rewrite Hch in Hrem.
  - pose proof Hi as [Hnd Hlive Hf Hlost]. simpl in *.
    destruct loop as [ts|].
    { eapply flight_inv_dead; [exact Hi | done | simpl; tauto | done | apply Hbr; right; right].
      split; [simpl; tauto | done]. }
    change (after_reply None) with RRead.
    assert (flight (mkSys (set_pc ch (Returned r) (set_rdr RRead c)) n v) = flight (mkSys c n v)) as Hfl
      by (unfold flight; simpl; by rewrite Hr).
    eapply flight_inv_sub; [exact Hi | by rewrite Hfl | | done |]; simpl; rewrite Hfl.
    + intros _. apply Hlive. by rewrite Hr.
    + intros Hb. destruct (Hlost Hb) as (? & ? & Hw). split_and!; [done | done |].
      intros j kj Hj Hpj. right. destruct (decide (ch = j)) as [<-|E].
      { rewrite list_lookup_alter_eq in Hj. by apply fmap_Some in Hj as (k' & _ & ->). }
      rewrite list_lookup_alter_ne in Hj by done. destruct (Hw j kj Hj Hpj) as [Hs|Hin]; [| done]. rewrite Hr in Hs. by injection Hs.
  - destruct Hi as [Hnd Hlive Hf Hlost]. by split.
Qed.

Lemma srv_step_flight c n v v' n' : srv_step v n v' n' -> runs_inv (mkSys c n v) ->
  flight_inv (mkSys c n v) -> flight_inv (mkSys c n' v').
Proof.
  intros Hst Hri Hi. pose proof Hi as [Hnd Hlive Hf Hlost]. simpl in *.
  assert (broken n' = broken n /\ flight (mkSys c n' v') ⊆+ flight (mkSys c n v) /\
    (broken n = false -> failed (requests_w n') = false /\ failed (replies_w n') = false /\
       flight (mkSys c n v) ⊆+ flight (mkSys c n' v'))) as (Hb & Hsub & Hsame).
  { pose proof (ri_init _ Hri) as Hin. unfold flight, requests in *.
    destruct Hst as [v n m q i Hs Hq Hu|v n Hs Hb|v n m q Hs Hq|v n eof Hs Hb|v n l1 t req l2 r okr Hl Hsv
      |v n l1 e l2 w Hl Hw]; simpl in *; rewrite ?Hs, ?Hq, ?Hl, ?fmap_app in *; simpl in *.
    - split_and!; [done | done |]. intros Hb. destruct (Hlost Hb) as (? & ? & _). done.
    - split_and!; [done | done |]. by rewrite Hb.
    - split_and!; [done | solve_submseteq |]. intros Hb. destruct (Hlost Hb) as (? & ? & _).
      split_and!; [done | done | solve_submseteq].
    - split_and!; [done | done |]. by rewrite Hb.
    - split_and!; [done | solve_submseteq |]. intros Hb. destruct (Hlost Hb) as (? & ? & _).
      split_and!; [done | done | solve_submseteq].
    - split; [done |]. destruct (wire_write_queue _ _ _ _ Hw) as [Hq|[Hq _]]; rewrite Hq, ?fmap_app; simpl;
        (split; [solve_submseteq |]); intros Hb; destruct (Hlost Hb) as (? & Hf2 & _);
        unfold wire_write in Hw; rewrite Hb, Hf2 in Hw; subst w; split_and!; try done; simpl in *;
        rewrite ?fmap_app; simpl; [| solve_submseteq].
      apply (f_equal length) in Hq. rewrite length_app in Hq. simpl in Hq. lia. }
  apply (flight_inv_sub (mkSys c n v)); simpl; [done | done | | done |].
  - intros Hl t Ht. apply Hlive; [done |]. by eapply elem_of_submseteq.
  - rewrite Hb. intros Hb0. destruct (Hsame Hb0) as (? & ? & Hsup). split_and!; [done | done |].
    intros j kj Hj Hpj. destruct (Hlost Hb0) as (_ & _ & Hw). destruct (Hw j kj Hj Hpj) as [?|?]; [by left |].
    right. by eapply elem_of_submseteq.
Qed.

(** *** The whole system *)

(** Calls fail, and the server's reader stops, only if the connection
    broke. *)
Record broken_inv (s : sys) : Prop := {
  bi_srv : srv (sv s) = SExit \/ srv (sv s) = SFatal -> broken (sn s) = true;
  bi_ret : forall i k r, calls (sc s) !! i = Some k -> c_pc k = Returned r -> err r <> None ->
    broken (sn s) = true;
}.

Definition sys_inv (s : sys) : Prop :=
  clnt_inv (sc s) (sn s) /\ runs_inv s /\ flight_inv s /\ broken_inv s.

Lemma clnt_step_broken c n c' n' : clnt_step c n c' n' -> broken n' = broken n.
Proof. by destruct 1. Qed.

Lemma srv_step_broken v n v' n' : srv_step v n v' n' -> broken n' = broken n.
Proof. by destruct 1. Qed.

Lemma clnt_step_length c n c' n' : clnt_step c n c' n' -> length (calls c') = length (calls c).
Proof. destruct 1; simpl; by rewrite ?length_alter. Qed.

(** Which calls a step makes return, and with what. *)
Lemma clnt_step_returned c n c' n' i k r : clnt_step c n c' n' -> clnt_inv c n ->
  calls c' !! i = Some k -> c_pc k = Returned r ->
  calls c !! i = Some k \/ isClosed (callmap c) = true \/ exists l, rdr c = RSend i r l.
Proof.
  destruct 1 as [c n j kj cm Hk Hp Hput|c n j kj Hk Hp Hput| c n j kj w Hk Hp Hw| | | | | | | |
    |c n ch rp loop kj Hr Hk Hp|]; intros Hci; try (intros; by left); rewrite lookup_set_pc; case_decide as E;
    try (intros; by left); subst; intros (k' & _ & ->)%fmap_Some; simpl; try done.
  - intros _. right; left. revert Hput. unfold put, isClosed. by destruct (cm_closed (callmap c)).
  - intros [= ->]. right; right. eauto.
Qed.

Lemma clnt_step_broken_inv c n v c' n' : clnt_step c n c' n' -> clnt_inv c n -> runs_inv (mkSys c n v) ->
  broken_inv (mkSys c n v) -> broken_inv (mkSys c' n' v).
Proof.
  intros Hst Hci Hri [Hsv Hret]. pose proof (clnt_step_broken _ _ _ _ Hst) as Hb.
  simpl in *. split; simpl; rewrite Hb; [done |]. intros i k r Hk Hp He.
  destruct (clnt_step_returned _ _ _ _ _ _ _ Hst Hci Hk Hp) as [Hk'|[Hc|[l Hr]]].
  - by eapply Hret.
  - apply (ci_broken _ _ Hci). by left.
  - pose proof (ri_reader _ Hri) as Hrd. pose proof (ci_drains _ _ Hci) as Hd. simpl in Hrd.
    rewrite Hr in Hrd, Hd. destruct l; simpl in *; [| by destruct Hrd].
    apply (ci_broken _ _ Hci). left. apply Hd.
Qed.

Lemma internal_inv s s' : sys_internal s s' -> sys_inv s -> sys_inv s'.
Proof.
  destruct 1 as [[c n v] c' n' H|[c n v] v' n' H]; intros (Hc & Hr & Hf & Hb); simpl in *.
  - pose proof (clnt_step_inv _ _ _ _ H Hc) as Hc'. split_and!; [done | | |].
    + by eapply clnt_step_runs.
    + by eapply clnt_step_flight.
    + by eapply clnt_step_broken_inv.
  - pose proof (srv_step_broken _ _ _ _ H) as Hbn. split_and!.
    + eapply clnt_inv_conn; [exact Hc |]. simpl. by rewrite Hbn.
    + by eapply srv_step_runs.
    + by eapply srv_step_flight.
    + destruct Hb as [Hsv Hret]. split; simpl in *; rewrite Hbn; [| done].
      destruct H; simpl in *; naive_solver.
Qed.

Lemma break_inv s c v : sys_inv s -> calls c = calls (sc s) -> rdr c = rdr (sc s) ->
  callmap c = callmap (sc s) -> nextTag c = nextTag (sc s) ->
  srv v = srv (sv s) -> clntEnd v = clntEnd (sv s) -> serving v = serving (sv s) ->
  answering v = answering (sv s) -> served v = served (sv s) ->
  sys_inv (mkSys c (break_ (sn s)) v).
Proof.
  destruct s as [[cm nt cl rd clo] [n1 n2 b] [p sc e l1 l2 l3]], c as [cm' nt' cl' rd' clo'], v as [p' sc' e' l1' l2' l3'].
  simpl. intros (Hc & Hr & Hf & Hb) -> -> -> -> -> -> -> -> ->. split_and!.
  - destruct Hc as [????? _]. by split.
  - destruct Hr. by split.
  - destruct Hf as [??? _]. by split.
  - by split.
Qed.

Lemma start_inv s b : Z.of_nat (length (calls (sc s))) + 1 < 2 ^ 32 -> sys_inv s ->
  sys_inv (mkSys (SendReceive_start b (sc s)) (sn s) (sv s)).
Proof.
  intros Hlen (Hc & Hr & Hf & Hb). destruct s as [c n v]. simpl in *.
  assert (forall i k, calls (SendReceive_start b c) !! i = Some k -> c_pc k <> Tagged -> calls c !! i = Some k) as Hold.
  { intros i k. rewrite lookup_start. case_decide; [by intros [= <-] | done]. }
  split_and!; simpl.
  - by apply clnt_inv_start.
  - eapply runs_inv_clnt; [exact Hr | | done | done | apply (ri_reader _ Hr) |].
    + intros i k Hk Hs. exists k. split; [| done]. rewrite lookup_start. case_decide as E; [| done].
      subst. by rewrite lookup_ge_None_2 in Hk by lia.
    + intros i k r Hk Hp. eapply (ri_ret _ Hr); [| done]. apply Hold; [done | by rewrite Hp].
  - destruct Hf as [Hnd Hlive Hft Hlost]. simpl in *. split; simpl; try done.
    intros Hbr. destruct (Hlost Hbr) as (? & ? & Hw). split_and!; [done | done |].
    intros i k Hk Hp. apply (Hw i k); [| done]. apply Hold; [done | by rewrite Hp].
  - destruct Hb as [Hsv Hret]. split; simpl in *; [done |]. intros i k r Hk Hp.
    eapply Hret; [| done]. apply Hold; [done | by rewrite Hp].
Qed.

Lemma sys_init_inv s : sys_init s -> sys_inv s.
Proof.
  intros (w & c & n & Hw & Hn & ->). unfold wire_write in Hw. simpl in Hw. subst w.
  unfold NewDemuxClnt, tag in Hn. simpl in Hn. injection Hn as <- <-. split_and!.
  - split; simpl; try done.
    + intros t i. rewrite lookup_empty. split; [done | by intros (_ & (k & Hk & _) & _)].
    + intros [?|[?|[[] _]]]; [done | lia |]. done.
  - split; simpl; try done; try (by intros ? ?%not_elem_of_nil); try (by intros ? ? ?%not_elem_of_nil).
    + eauto.
    + intros []. by left.
    + constructor.
  - split; simpl; try done.
    + constructor.
    + by intros _ t ?%not_elem_of_nil.
  - split; simpl; [by intros [|] | by intros i k r Hk].
Qed.

Lemma sys_reachable_inv s : sys_reachable s -> tags_last s -> sys_inv s.
Proof.
  unfold tags_last. induction 1 as [s Hs|s s' Hr IH Hst]; [intros _; by apply sys_init_inv |].
  destruct Hst as [s s' Hint|s b|s c n Hcl|s v n Hcl|s]; simpl; intros Hlen.
  - eapply internal_inv; [done |]. apply IH.
    destruct Hint as [s c n H|s v n H]; simpl in *; [by rewrite <- (clnt_step_length _ _ _ _ H) | done].
  - unfold SendReceive_start, tag in Hlen. simpl in Hlen. rewrite length_app in Hlen. simpl in Hlen.
    apply start_inv; [lia |]. apply IH. lia.
  - unfold Close_start in Hcl. destruct (isClosed (callmap (sc s))); injection Hcl as <- <-.
    + destruct s. by apply IH.
    + by apply break_inv; [apply IH |..].
  - unfold DemuxSrv_Close in Hcl. destruct (srv_closed (sv s)); injection Hcl as <- <-.
    + destruct s. by apply IH.
    + by apply break_inv; [apply IH |..].
  - by apply break_inv; [apply IH |..].
Qed.

(** *** Progress *)
Lemma wire_write_total b m w : exists w', wire_write b m w w'.
Proof.
  unfold wire_write. destruct (failed w); [by eexists |].
  destruct b; [exists (mkWire (queue w) true); auto | by eexists].
Qed.

Lemma outstanding_exists cm : exists ts, outstanding cm ts.
Proof.
  exists (map_to_list (cm_calls cm)).*1. split; [apply NoDup_fst_map_to_list |].
  intros t. rewrite list_elem_of_fmap. split.
  - intros ([t' i] & -> & Hin%elem_of_map_to_list). by eexists.
  - intros [i Hi]. exists (t, i). split; [done |]. by apply elem_of_map_to_list.
Qed.

Lemma idle_server c n v : (forall clnt req, exists r, ServeRequest clnt req r) ->
  runs_inv (mkSys c n v) -> broken_inv (mkSys c n v) -> broken n = false ->
  (forall v' n', ~ srv_step v n v' n') ->
  requests n v = [] /\ serving v = [] /\ answering v = [].
Proof.
  intros Htot Hri [Hbs _] Hb Hidle. simpl in *. split_and!.
  - unfold requests. destruct (srv v) eqn:Es; simpl.
    + exfalso. destruct (ri_init _ Hri) as [q Hq]; [by left |]. simpl in Hq.
      eapply Hidle. eapply srv_init; [done | exact Hq |]. simpl. unfold Unmarshall, Marshall. by rewrite decode_encode.
    + destruct (queue (requests_w n)) as [|m q] eqn:Eq; [done |]. exfalso. eapply Hidle. by eapply srv_read.
    + rewrite Hbs in Hb; [done | by left].
    + rewrite Hbs in Hb; [done | by right].
  - destruct (serving v) as [|[t req] l] eqn:El; [done |]. exfalso.
    destruct (Htot (clntEnd v) req) as [[r okr] Hr]. eapply Hidle. by eapply (srv_serve _ _ []).
  - destruct (answering v) as [|e l] eqn:El; [done |]. exfalso.
    destruct (wire_write_total (broken n) (mkMsg (e_tag e) (e_rep e) (e_ok e)) (replies_w n)) as [w Hw].
    eapply Hidle. by eapply (srv_write _ _ []).
Qed.

(** Where no step is possible, [reader] waits for replies or has exited. *)
Lemma idle_reader c n : clnt_inv c n -> rdr c <> RFatal -> (forall c' n', ~ clnt_step c n c' n') ->
  rdr c = RExit \/ rdr c = RRead /\ broken n = false /\ queue (replies_w n) = [].
Proof.
  intros Hci Hf Hidle. destruct (rdr c) as [|t r loop|ch r loop| | |[|t ts]| |] eqn:Er.
  - right. split; [done |]. destruct (broken n) eqn:Eb; [exfalso; eapply Hidle; by apply rdr_fail |].
    split; [done |]. destruct (queue (replies_w n)) eqn:Eq; [done |]. exfalso. eapply Hidle. by eapply rdr_read.
  - exfalso. destruct (remove t (callmap c)) as [[ch cm]|] eqn:E; eapply Hidle;
      [by eapply rdr_remove | by eapply rdr_fatal].
  - exfalso. destruct (ci_send _ _ Hci ch) as (k & Hk & [Hp|Hp]); [by rewrite Er | |].
    + destruct (wire_write_total (broken n) (mkMsg (c_tag k) (c_req k) true) (requests_w n)) as [w Hw].
      eapply Hidle. by eapply call_write.
    + eapply Hidle. by eapply rdr_send.
  - exfalso. eapply Hidle. by apply rdr_close.
  - exfalso. destruct (outstanding_exists (callmap c)) as [ts Hts]. eapply Hidle. by eapply rdr_out.
  - exfalso. eapply Hidle. by apply rdr_exit.
  - exfalso. eapply Hidle. by eapply rdr_drain.
  - by left.
  - done.
Qed.

Lemma idle_returned s : (forall clnt req, exists r, ServeRequest clnt req r) -> sys_inv s ->
  (forall s', ~ sys_internal s s') ->
  forall i k, calls (sc s) !! i = Some k -> exists r, c_pc k = Returned r.
Proof.
  intros Htot (Hci & Hri & Hfi & Hbi) Hidle i k Hk. destruct s as [c n v]. simpl in *.
  assert (forall c' n', ~ clnt_step c n c' n') as Hic by (intros c' n' H; eapply Hidle; by apply int_clnt).
  assert (forall v' n', ~ srv_step v n v' n') as Hiv by (intros v' n' H; eapply Hidle; by apply int_srv).
  destruct (c_pc k) as [| | |r] eqn:Ep; [exfalso..| by exists r].
  - destruct (put (c_tag k) i (callmap c)) eqn:E; eapply Hic; [by eapply call_put | by eapply call_closed].
  - destruct (wire_write_total (broken n) (mkMsg (c_tag k) (c_req k) true) (requests_w n)) as [w Hw].
    eapply Hic. by eapply call_write.
  - destruct (idle_reader c n Hci (fi_fatal _ Hfi) Hic) as [Hr|(Hr & Hb & Hq)].
    + pose proof (ci_drains _ _ Hci) as Hd. rewrite Hr in Hd. destruct Hd as (_ & _ & Hout).
      assert (cm_calls (callmap c) !! tag_of i = Some i) as Hi.
      { apply (ci_map _ _ Hci). split_and!; [done | | by rewrite Hr]. exists k. split; [done | by right]. }
      apply (not_elem_of_nil (tag_of i)), Hout. by eexists.
    + destruct (idle_server c n v Htot Hri Hbi Hb Hiv) as (H1 & H2 & H3).
      destruct (fi_lost _ Hfi Hb) as (_ & _ & Hw). simpl in Hw.
      destruct (Hw i k Hk Ep) as [Hs|Hin]; [by rewrite Hr in Hs |].
      unfold flight in Hin. simpl in Hin. rewrite H1, H2, H3, Hq, Hr in Hin. by apply not_elem_of_nil in Hin.
Qed.

(** What the invariant says of a run of the service and of a call that has
    returned. *)
Lemma served_call s e : sys_inv s -> e ∈ served (sv s) ->
  exists i k, calls (sc s) !! i = Some k /\ e_tag e = c_tag k /\ e_req e = c_req k /\
    ServeRequest clnt (e_req e) (e_rep e, e_ok e).
Proof.
  intros (Hci & Hri & _) He. destruct (ri_served _ Hri e He) as [(i & k & Ht & Hk & _ & Hb) Hs].
  exists i, k. by rewrite Ht, (ci_tags _ _ Hci i k Hk).
Qed.

Lemma returned_call s i k r : sys_inv s -> calls (sc s) !! i = Some k -> c_pc k = Returned r ->
  match err r with
  | None => mkExec (c_tag k) (c_req k) (rep r) (ok r) ∈ served (sv s)
  | Some _ => rep r = [] /\ ok r = false /\ broken (sn s) = true
  end.
Proof.
  intros (Hci & Hri & _ & Hbi) Hk Hp. destruct (ri_ret _ Hri i k r Hk Hp) as [(-> & b & Hb)|(He & ? & ?)].
  - destruct (ri_served _ Hri _ Hb) as [(j & kj & Hj & Hkj & _ & Hreq) _]. simpl in *.
    apply tag_of_inj in Hj as <-. simplify_eq. by rewrite (ci_tags _ _ Hci i k Hk).
  - pose proof (bi_ret _ Hbi i k r Hk Hp) as Hbr. destruct (err r); [by auto | done].
Qed.

(** ** Properties *)

(** C36: A call gets the reply to its own request.  In every reachable state
    the client's [reader] has not stopped the process over a reply that
    matches no call; [ServeRequest] has run at most once under each tag and
    only on the request of the call that drew the tag, under the name the
    client gave; a call that returned without an error returned the result
    of that one run; a call that returned an error returned no data and
    [false], and the connection had failed or been closed.  This holds
    until 2^32 - 1 tags have been drawn. *)
Theorem SendReceive_reply s : sys_reachable s -> tags_last s ->
  rdr (sc s) <> RFatal /\
  NoDup (e_tag <$> served (sv s)) /\
  (forall e, e ∈ served (sv s) -> exists i k, calls (sc s) !! i = Some k /\
     e_tag e = c_tag k /\ e_req e = c_req k /\ ServeRequest clnt (e_req e) (e_rep e, e_ok e)) /\
  (forall i k r, calls (sc s) !! i = Some k -> c_pc k = Returned r ->
     match err r with
     | None => mkExec (c_tag k) (c_req k) (rep r) (ok r) ∈ served (sv s)
     | Some _ => rep r = [] /\ ok r = false /\ broken (sn s) = true
     end).
Proof.
  intros Hr Hl. pose proof (sys_reachable_inv s Hr Hl) as Hi. split_and!.
  - apply Hi.
  - destruct Hi as (_ & Hri & _). pose proof (ri_runs _ Hri) as Hnd. unfold runs in Hnd.
    apply list.NoDup_app in Hnd as (_ & _ & Hnd). by apply list.NoDup_app in Hnd as (_ & _ & ?).
  - intros e He. by apply served_call.
  - intros i k r. by apply returned_call.
Qed.

(** C37: Every call returns.  If the service answers every request, then
    from any reachable state - whatever was closed or broken before - the
    program cannot go on for ever by itself, and wherever it comes to rest
    every call has returned; without an error, as long as the connection
    holds. *)
Theorem SendReceive_returns s : (forall clnt req, exists r, ServeRequest clnt req r) ->
  sys_reachable s -> tags_last s ->
  Acc (fun s' s => sys_internal s s') s /\
  forall s', rtc sys_internal s s' -> (forall s'', ~ sys_internal s' s'') ->
    length (calls (sc s')) = length (calls (sc s)) /\
    forall i k, calls (sc s') !! i = Some k ->
      exists r, c_pc k = Returned r /\ (broken (sn s') = false -> err r = None).
Proof.
  intros Htot Hr Hl. split; [apply internal_acc |]. intros s' Hs' Hidle.
  pose proof (sys_reachable_inv s Hr Hl) as Hi. clear Hr Hl.
  assert (sys_inv s' /\ length (calls (sc s')) = length (calls (sc s))) as [Hi' Hlen].
  { induction Hs' as [s|s s1 s' H1 _ IH]; [done |]. destruct (IH Hidle (internal_inv _ _ H1 Hi)) as [? ->].
    split; [done |]. by destruct H1 as [s c n Hst|s v n Hst]; simpl; [apply (clnt_step_length _ _ _ _ Hst) |]. }
  split; [done |]. intros i k Hk. destruct (idle_returned s' Htot Hi' Hidle i k Hk) as [r Hp].
  exists r. split; [done |]. intros Hb. destruct Hi' as (_ & _ & _ & Hbi).
  pose proof (bi_ret _ Hbi i k r Hk Hp) as Hbr. destruct (err r); [| done].
  rewrite Hbr in Hb; done.
Qed.
(** ** One call from its start to its return *)
Lemma clnt_go s c n : sys_reachable s -> clnt_step (sc s) (sn s) c n -> sys_reachable (mkSys c n (sv s)).
Proof. intros Hr H. eapply reach_step; [exact Hr |]. by apply step_internal, int_clnt. Qed.

Lemma srv_go s v n : sys_reachable s -> srv_step (sv s) (sn s) v n -> sys_reachable (mkSys (sc s) n v).
Proof. intros Hr H. eapply reach_step; [exact Hr |]. by apply step_internal, int_srv. Qed.

Definition one_call (b rp : bytes) (o : bool) : sys :=
  mkSys (mkClnt (mkCallMap false ∅) 2 [mkCall b 1 (Returned (mkReply rp o None))] RRead 0)
        (mkConn (mkWire [] false) (mkWire [] false) false)
        (mkSrv SRead false clnt [] [] [mkExec 1 b rp o]).

#[local] Ltac run H lem rule :=
  eapply lem in H; [| eapply rule; reflexivity]; cbn in H.

Lemma one_call_reachable b rp o : ServeRequest clnt b (rp, o) -> sys_reachable (one_call b rp o).
Proof.
  intros Hs.
  assert (sys_reachable
    (mkSys (mkClnt newCallMap 1 [] RRead 0)
       (mkConn (mkWire [initMsg] false) (mkWire [] false) false) NewDemuxSrv)) as H.
  { apply reach_init. do 3 eexists. split; [reflexivity |]. split; reflexivity. }
  pose proof (reach_step _ _ _ _ H (step_call _ b)) as H1. clear H. cbn in H1.
  eapply srv_go in H1; [| eapply srv_init; [reflexivity.. |];
    unfold Unmarshall, initMsg, Marshall; simpl; by rewrite decode_encode]. cbn in H1.
  run H1 clnt_go (fun c n => call_put c n 0).
  eapply clnt_go in H1; [| eapply (call_write _ _ 0 _ (mkWire [mkMsg 1 b true] false)); reflexivity]. cbn in H1.
  run H1 srv_go srv_read.
  eapply srv_go in H1; [| eapply (srv_serve _ _ [] 1 b [] rp o); [reflexivity | exact Hs]]. cbn in H1.
  eapply srv_go in H1; [| eapply (srv_write _ _ [] _ [] (mkWire [mkMsg 1 rp o] false)); reflexivity]. cbn in H1.
  run H1 clnt_go rdr_read.
  run H1 clnt_go rdr_remove.
  run H1 clnt_go rdr_send.
  exact H1.
Qed.
End Demux.

(** ** A concrete run *)
#[export] Instance InitMsg_eq_dec : EqDecision InitMsg.
Proof. solve_decision. Defined.
#[export] Instance InitMsg_countable : Countable InitMsg.
Proof. by apply (inj_countable' Clnt mkInitMsg); intros []. Defined.

Section Example.
#[local] Instance InitMsg_codec : Codec InitMsg := countable_codec InitMsg.

Definition ex_serve (clnt : string) (req : bytes) (r : bytes * bool) : Prop := r = (req ++ req, true).
Definition ex_end : sys := one_call "tester" [7] [7; 7] true.
Definition ex_end_reachable := one_call_reachable "tester" ex_serve [7] [7; 7] true eq_refl.

Lemma SendReceive_reply_witness :
  calls (sc ex_end) !! 0%nat = Some (mkCall [7] 1 (Returned (mkReply [7; 7] true None))) /\
  mkExec 1 [7] [7; 7] true ∈ served (sv ex_end).
Proof.
  split; [reflexivity |].
  destruct (SendReceive_reply "tester" ex_serve ex_end ex_end_reachable) as (_ & _ & _ & H); [reflexivity |].
  exact (H 0%nat _ _ eq_refl eq_refl).
Defined.

Lemma SendReceive_returns_witness : Acc (fun s' s => sys_internal ex_serve s s') ex_end.
Proof.
  refine (proj1 (SendReceive_returns "tester" ex_serve ex_end _ ex_end_reachable _)).
  - intros clnt req. exists (req ++ req, true). reflexivity.
  - reflexivity.
Defined.
End Example.
