(* ===== verification/Sockrpc.v ===== *)
(** * Remote calls between processes ([tester1/sockrpc],
      [tester1/testsrv.go], [testclnt.go], and [forward] of
      [daemonsrv.go] and [daemonclnt.go])

    An [RPCClnt] sends a method name and encoded arguments as one request
    of [Demux]; an [RPCSrv] dispatches it to the services of a [labrpc]
    server.  Servers run in processes of their own, but their calls to one
    another go through the simulated network of the tester: the end of a
    server forwards each call to the tester over such a connection. *)
From S2P Require Import Prelude Labrpc Transport Demux.
#[local] Open Scope Z_scope.

(** ** [rpcclnt.go] *)
Record RPCArgs := mkRPCArgs { Method : string; Args : bytes }.

Definition MAXRETRY : nat := 100.

(** [dial]: [attempts] are the outcomes of [net.Dial], in order. *)
Fixpoint dial_loop (n : nat) (attempts : nat -> bool) (i : nat) : bool :=
  match n with
  | O => false
  | S n => if attempts i then true else dial_loop n attempts (S i)
  end.
Definition dial (attempts : nat -> bool) : bool := dial_loop MAXRETRY attempts 0.

Section Clnt.
Context `{!Codec RPCArgs}.

(** [RPC] around [SendReceive]: the request it sends, and what it makes of
    the reply. *)
Definition RPC_request (method : string) (args : bytes) : bytes := Marshall (mkRPCArgs method args).

Definition RPC_result (r : reply) : bytes * bool :=
  match err r with Some _ => ([], false) | None => (rep r, ok r) end.

(** [RPCMarshall] returns the decoded reply, or [None] for [false]. *)
Definition RPCMarshall_result {R} `{!Codec R} (r : reply) : Res (option R) :=
  let '(rep, ok) := RPC_result r in
  if ok then let* v := Unmarshall rep in Ok (Some v) else Ok None.

(** ** [rpcsrv.go]

    [ServeRequest] of a server with the services of [rs]. *)
Definition ServeRequest (rs : Server) (clntEnd : string) (b : bytes) : Server * Res (bytes * bool) :=
  match Unmarshall b with
  | Panic => (rs, Panic)
  | Ok req =>
      let '(rs', r) := Server_dispatch (mkReqMsg clntEnd (Method req) (Args req)) rs in
      (rs', let* m := r in Ok (rm_reply m, rm_ok m))
  end.

(** An [RPCSrv] with the connections it has accepted. *)
Record RPCSrv := mkRPCSrv {
  rs_sock : string;
  rs_listening : bool;
  rs_srv : Server;
  rs_conns : list DemuxSrv;
}.

Definition SockName (endName : string) : string := "/tmp/6.5840-" +:+ endName.

Definition NewRPCSrv (sock : string) : RPCSrv := mkRPCSrv sock true MakeServer [].

Definition RPCSrv_AddService (svc : Service) (r : RPCSrv) : RPCSrv :=
  mkRPCSrv (rs_sock r) (rs_listening r) (AddService svc (rs_srv r)) (rs_conns r).

(** One round of [listen], when a client connects. *)
Definition listen_accept (r : RPCSrv) : RPCSrv :=
  if rs_listening r then mkRPCSrv (rs_sock r) true (rs_srv r) (rs_conns r ++ [NewDemuxSrv]) else r.

(** [Close] closes the listener. *)
Definition RPCSrv_Close (r : RPCSrv) : RPCSrv :=
  mkRPCSrv (rs_sock r) false (rs_srv r) (rs_conns r).

(** The runs of [ServeRequest], as [Demux] sees them. *)
Definition serves (rs : Server) (clntEnd : string) (b : bytes) (r : bytes * bool) : Prop :=
  snd (ServeRequest rs clntEnd b) = Ok r.

(** ** Forwarding *)

Record ForwardArgs := mkForwardArgs { f_Method : string; f_End : string; f_Args : bytes; f_Id : Z }.
Record ForwardReply := mkForwardReply { f_Rep : bytes; f_Ok : bool }.

(** [ClientEnd.Forward]: [send] is the network. *)
Definition ClientEnd_Forward (endname svcMeth : string) (args : bytes) (send : reqMsg -> replyMsg) :
  bytes * bool :=
  let rep := send (mkReqMsg endname svcMeth args) in (rm_reply rep, rm_ok rep).

(** [TesterRPC.Forward]: into the network of the tester. *)
Definition TesterRPC_Forward (net : Network) (send : reqMsg -> replyMsg) (args : ForwardArgs) : Res ForwardReply :=
  let* e := LookupEnd (f_End args) net in
  let '(rep, ok) := ClientEnd_Forward e (f_Method args) (f_Args args) send in
  Ok (mkForwardReply rep ok).

Context `{!Codec ForwardArgs, !Codec ForwardReply}.

(** [DaemonSrv.forward]: the request, with the next identifier, and what
    it makes of the outcome. *)
Definition forward_request (id : Z) (end_ method : string) (b : bytes) : Z * bytes :=
  let id := i64 (id + 1) in
  (id, RPC_request "TesterRPC.Forward" (Marshall (mkForwardArgs method end_ b id))).

Definition forward_result (r : reply) : Res (bytes * bool) :=
  let* reply := RPCMarshall_result (R := ForwardReply) r in
  match reply with
  | None => Ok ([], false)
  | Some reply => Ok (f_Rep reply, f_Ok reply)
  end.

(** [ClientEnd.Call] of an end with a [callf] ([SetCall]), given what that
    returned. *)
Definition Call_callf {R} `{!Codec R} (callf : Res (bytes * bool)) : Res (option R) :=
  let* p := callf in
  let '(rep, ok) := p in
  if ok then let* v := Unmarshall rep in Ok (Some v) else Ok None.

(** [Server.dispatch] of a server with a [dispatchf] ([SetDispatch]): the
    service is looked up and not used. *)
Definition Server_dispatch_f (dispatchf : string -> bytes -> bytes * bool) (req : reqMsg) (rs : Server) :
  Server * Res replyMsg :=
  (mkServer (services rs) (i64 (count rs + 1)),
   match splitLast (rq_svcMeth req) with
   | None => Panic
   | Some _ => let '(rep, ok) := dispatchf (rq_svcMeth req) (rq_args req) in Ok (mkReplyMsg ok rep)
   end).

(** ** Lemmas *)
Lemma dial_loop_spec n attempts i :
  dial_loop n attempts i = true <-> exists j, (i <= j < i + n)%nat /\ attempts j = true.
Proof.
  revert i. induction n as [|n IH]; intros i; simpl.
  - split; [done | intros (j & ? & _); lia].
  - destruct (attempts i) eqn:E.
    + split; [intros _; exists i; split; [lia | done] | done].
    + rewrite IH. split; intros (j & Hj & Ha); exists j; (split; [| done]); [lia |].
      destruct (decide (j = i)) as [->|]; [by rewrite E in Ha | lia].
Qed.

Lemma serves_spec rs clntEnd method args r :
  serves rs clntEnd (RPC_request method args) r <->
  exists sn mn svc f, splitLast method = Some (sn, mn) /\ services rs !! sn = Some svc /\
    methods svc !! mn = Some f /\ r = (f args, true).
Proof.
  unfold serves, ServeRequest, RPC_request, Marshall, Unmarshall. rewrite decode_encode. simpl.
  destruct (splitLast method) as [[sn mn]|] eqn:Es; [| split; [done | naive_solver]].
  destruct (services rs !! sn) as [svc|] eqn:Ev; [| split; [done | naive_solver]].
  unfold Service_dispatch. simpl.
  destruct (methods svc !! mn) as [f|] eqn:Ef; simpl; [| split; [done | naive_solver]].
  split; [intros [= <-]; by exists sn, mn, svc, f | naive_solver].
Qed.

(** Serving requests changes neither the services nor later answers. *)
Lemma ServeRequest_services rs clntEnd b :
  services (fst (ServeRequest rs clntEnd b)) = services rs.
Proof. unfold ServeRequest. by destruct (Unmarshall b). Qed.

(** ** Properties *)
Context `{!Codec InitMsg}.

(** What [RPC] returned, for a client connected to an [RPCSrv] with the
    services of [rs]. *)
Lemma RPC_returned clnt rs s i k r method args : sys_reachable clnt (serves rs) s -> tags_last s ->
  calls (sc s) !! i = Some k -> c_req k = RPC_request method args -> c_pc k = Returned r ->
  (RPC_result r = ([], false) /\ broken (sn s) = true) \/
  exists svcname methname svc f,
    splitLast method = Some (svcname, methname) /\ services rs !! svcname = Some svc /\
    methods svc !! methname = Some f /\ RPC_result r = (f args, true).
Proof.
  intros Hr Hl Hk Hq Hp. pose proof (sys_reachable_inv clnt (serves rs) s Hr Hl) as Hi.
  pose proof (returned_call clnt (serves rs) s i k r Hi Hk Hp) as Hret. unfold RPC_result.
  destruct (err r); [left; naive_solver |]. right.
  destruct (served_call clnt (serves rs) s _ Hi Hret) as (_ & _ & _ & _ & _ & Hserves).
  simpl in Hserves. rewrite Hq in Hserves.
  apply serves_spec in Hserves as (sn & mn & svc & f & Hsp & Hsv & Hf & [= -> ->]).
  by exists sn, mn, svc, f.
Qed.

(** A remote call that returns [true] ran its method.  Let a client be
    connected to an [RPCSrv] with the services of [rs].  If a call of
    [RPCMarshall] on a method with encoded arguments [args] has returned,
    either it returned [false] and the connection had failed or been
    closed, or the service and method it names exist and what it decodes
    is the method's result on [args]. *)
Theorem RPCMarshall_result_of_method clnt rs s i k r method args {R} `{!Codec R} :
  sys_reachable clnt (serves rs) s -> tags_last s ->
  calls (sc s) !! i = Some k -> c_req k = RPC_request method args -> c_pc k = Returned r ->
  (RPCMarshall_result (R := R) r = Ok None /\ broken (sn s) = true) \/
  exists svcname methname svc f,
    splitLast method = Some (svcname, methname) /\ services rs !! svcname = Some svc /\
    methods svc !! methname = Some f /\
    RPCMarshall_result (R := R) r = let* v := Unmarshall (f args) in Ok (Some v).
Proof.
  intros Hr Hl Hk Hq Hp. unfold RPCMarshall_result.
  destruct (RPC_returned clnt rs s i k r method args Hr Hl Hk Hq Hp)
    as [[-> Hb]|(sn & mn & svc & f & Hsp & Hsv & Hf & ->)]; [by left | right].
  by exists sn, mn, svc, f.
Qed.

(** Forwarding is transparent.  A server's process forwards the call
    of an end to the tester, which knows the end and sends the request into
    its network.  When the forwarding call has returned, the server's
    [Call] yields what the same [Call] on an end of the tester's network
    yields, or [false] when the connection to the tester had failed or been
    closed. *)
Theorem forwarded_Call clnt rs net send s i k r svc f end_ method id {A R} `{!Codec A, !Codec R} (args : A) :
  services rs !! "TesterRPC" = Some svc -> methods svc !! "Forward" = Some f ->
  (forall fa reply, TesterRPC_Forward net send fa = Ok reply -> f (Marshall fa) = Marshall reply) ->
  LookupEnd end_ net = Ok end_ ->
  sys_reachable clnt (serves rs) s -> tags_last s ->
  calls (sc s) !! i = Some k -> c_req k = snd (forward_request id end_ method (Marshall args)) ->
  c_pc k = Returned r ->
  Call_callf (R := R) (forward_result r) = Call (R := R) end_ method args send \/
  Call_callf (R := R) (forward_result r) = Ok None /\ broken (sn s) = true.
Proof.
  intros Hsvc Hf Hspec He Hr Hl Hk Hq Hp. unfold forward_result, RPCMarshall_result.
  destruct (RPC_returned clnt rs s i k r _ _ Hr Hl Hk Hq Hp)
    as [[-> Hb]|(sn & mn & svc' & f' & Hsp & Hsv & Hf' & ->)]; [by right | left].
  injection Hsp as <- <-. rewrite Hsvc in Hsv. injection Hsv as <-. rewrite Hf in Hf'. injection Hf' as <-.
  erewrite Hspec by (unfold TesterRPC_Forward; simpl; by rewrite He).
  unfold Unmarshall, Marshall. rewrite decode_encode. simpl. unfold Call, Marshall.
  by destruct (rm_ok _).
Qed.
End Clnt.

(** ** A concrete call *)
#[export] Instance RPCArgs_eq_dec : EqDecision RPCArgs.
Proof. solve_decision. Defined.
#[export] Instance RPCArgs_countable : Countable RPCArgs.
Proof. by apply (inj_countable' (fun a => (Method a, Args a)) (fun '(m, a) => mkRPCArgs m a)); intros []. Defined.
#[export] Instance ForwardArgs_eq_dec : EqDecision ForwardArgs.
Proof. solve_decision. Defined.
#[export] Instance ForwardArgs_countable : Countable ForwardArgs.
Proof.
  by apply (inj_countable' (fun a => (f_Method a, f_End a, f_Args a, f_Id a))
    (fun '(m, e, a, i) => mkForwardArgs m e a i)); intros [].
Defined.
#[export] Instance ForwardReply_eq_dec : EqDecision ForwardReply.
Proof. solve_decision. Defined.
#[export] Instance ForwardReply_countable : Countable ForwardReply.
Proof. by apply (inj_countable' (fun r => (f_Rep r, f_Ok r)) (fun '(r, o) => mkForwardReply r o)); intros []. Defined.

Section Example.
#[local] Instance ex_init_codec : Codec InitMsg := countable_codec InitMsg.
#[local] Instance ex_rpc_codec : Codec RPCArgs := countable_codec RPCArgs.
#[local] Instance ex_fargs_codec : Codec ForwardArgs := countable_codec ForwardArgs.
#[local] Instance ex_freply_codec : Codec ForwardReply := countable_codec ForwardReply.

Definition ex_net : Network := mkNetwork true false false {[ "e" ]} ∅ ∅ ∅.
Definition ex_send (req : reqMsg) : replyMsg := mkReplyMsg true (rq_args req).
Definition ex_forward (b : bytes) : bytes :=
  match Unmarshall b with
  | Ok fa => match TesterRPC_Forward ex_net ex_send fa with Ok r => Marshall r | Panic => [] end
  | Panic => []
  end.
Definition ex_service : Service := mkService "TesterRPC" {[ "Forward" := ex_forward ]}.
Definition ex_server : Server := AddService ex_service MakeServer.
Definition ex_args : bytes := Marshall (mkForwardArgs "S.M" "e" (Marshall 5) (i64 (0 + 1))).
Definition ex_sys : sys :=
  one_call "daemon" (RPC_request "TesterRPC.Forward" ex_args) (ex_forward ex_args) true.

Lemma ex_forward_spec fa reply :
  TesterRPC_Forward ex_net ex_send fa = Ok reply -> ex_forward (Marshall fa) = Marshall reply.
Proof. intros H. unfold ex_forward, Unmarshall, Marshall at 1. by rewrite decode_encode, H. Qed.

Lemma ex_sys_reachable : sys_reachable "daemon" (serves ex_server) ex_sys.
Proof.
  apply one_call_reachable, serves_spec. exists "TesterRPC", "Forward", ex_service, ex_forward. done.
Qed.

Lemma RPCMarshall_result_of_method_witness :
  exists svcname methname, splitLast "TesterRPC.Forward" = Some (svcname, methname).
Proof.
  destruct (RPCMarshall_result_of_method "daemon" ex_server ex_sys 0
    (mkCall (RPC_request "TesterRPC.Forward" ex_args) 1 (Returned (mkReply (ex_forward ex_args) true None)))
    (mkReply (ex_forward ex_args) true None) "TesterRPC.Forward" ex_args (R := ForwardReply)
    ex_sys_reachable eq_refl eq_refl eq_refl eq_refl) as [[_ H]|(sn & mn & svc & f & H & _)].
  - discriminate H.
  - exists sn, mn. exact H.
Defined.

Lemma forwarded_Call_witness :
  Call_callf (R := Z) (forward_result (mkReply (ex_forward ex_args) true None)) =
  Call (R := Z) "e" "S.M" 5 ex_send.
Proof.
  destruct (forwarded_Call "daemon" ex_server ex_net ex_send ex_sys 0
    (mkCall (RPC_request "TesterRPC.Forward" ex_args) 1 (Returned (mkReply (ex_forward ex_args) true None)))
    (mkReply (ex_forward ex_args) true None) ex_service ex_forward "e" "S.M" 0 (A := Z) (R := Z) 5
    eq_refl eq_refl ex_forward_spec eq_refl ex_sys_reachable eq_refl eq_refl
    eq_refl eq_refl) as [H|[_ H]].
  - exact H.
  - discriminate H.
Defined.
End Example.
