(* ===== verification/Daemon.v ===== *)
(** * Server processes ([tester1/daemonsrv.go], [tester1/daemonclnt.go],
      [tester1/srv.go])

    The tester runs each server in a process of its own: it passes the
    server's place on the command line and its durable state in a remote
    call, waits until the services exist, and before it kills the process
    fetches the durable state back, for the next process to start from. *)
From S2P Require Import Prelude Persister Labrpc Transport Demux Sockrpc.
From stdpp Require Import pretty.
From Stdlib Require Import Ascii.
#[local] Open Scope Z_scope.

(** ** Command lines *)

(** [strconv.Itoa] is [pretty]; [strconv.Atoi]: an optional sign and decimal
    digits, in the range of [int]. *)
Definition digit (c : ascii) : option Z :=
  let n := Z.of_nat (nat_of_ascii c) in
  if decide (48 <= n <= 57) then Some (n - 48) else None.

Fixpoint digits (acc : Z) (s : string) : option Z :=
  match s with
  | EmptyString => Some acc
  | String c s => match digit c with Some d => digits (10 * acc + d) s | None => None end
  end.

Definition in_int (z : Z) : option Z := if decide (- 2 ^ 63 <= z < 2 ^ 63) then Some z else None.

Definition Atoi (s : string) : option Z :=
  match s with
  | EmptyString => None
  | String c s' =>
      let '(neg, body) := if decide (c = "-"%char) then (true, s') else
        if decide (c = "+"%char) then (false, s') else (false, s) in
      match body with
      | EmptyString => None
      | _ => match digits 0 body with
             | Some v => in_int (if (neg : bool) then - v else v)
             | None => None
             end
      end
  end.

(** [options], from the flag [UseRaftStateMachine]. *)
Definition options (useRaftStateMachine : bool) : list string :=
  if useRaftStateMachine then ["--raft-state-machine"] else [].

(** The arguments that [runDaemon] gives to the process. *)
Definition runDaemon_args (pargs : list string) (useRaftStateMachine : bool) (endName : string)
    (gid srv : Z) (endNames : list string) : list string :=
  pargs ++ options useRaftStateMachine ++
  [pretty gid; pretty srv; pretty (zlen endNames); endName] ++ endNames.

(** The loop of [InitDaemon] over the optional arguments: the index of the
    first other one.  An empty argument has no first byte. *)
Fixpoint skip_options (args : list string) : Res nat :=
  match args with
  | [] => Ok 0%nat
  | EmptyString :: _ => Panic
  | String c _ :: args =>
      if decide (c = "-"%char) then let* s := skip_options args in Ok (S s) else Ok 0%nat
  end.

Record place := mkPlace { pl_gid : Z; pl_sid : Z; pl_tester : string; pl_ends : list string; pl_end : string }.

(** [args[lo:hi]] of a slice without spare capacity. *)
Definition subslice {A} (l : list A) (lo hi : Z) : Res (list A) :=
  if decide (0 <= lo <= hi /\ hi <= zlen l) then
    Ok (take (Z.to_nat (hi - lo)) (drop (Z.to_nat lo) l))
  else Panic.

(** [InitDaemon] up to the names of the ends; [None] is an error of
    [Atoi]. *)
Definition InitDaemon_args (args : list string) : Res (option place) :=
  let* s := skip_options args in
  let s := Z.of_nat s in
  let* a := slice_get args s in
  match Atoi a with
  | None => Ok None
  | Some gid =>
  let* a := slice_get args (s + 1) in
  match Atoi a with
  | None => Ok None
  | Some sid =>
  let* a := slice_get args (s + 2) in
  match Atoi a with
  | None => Ok None
  | Some nsrv =>
      let* testerEndName := slice_get args (s + 3) in
      let* endNames := subslice args (s + 4) (s + 4 + nsrv) in
      let* endName := slice_get endNames sid in
      Ok (Some (mkPlace gid sid testerEndName endNames endName))
  end end end.

(** *** Lemmas *)
Lemma digit_pretty x : (x < 10)%N -> digit (pretty_N_char x) = Some (Z.of_N x).
Proof.
  intros Hx. assert (x = 0 \/ x = 1 \/ x = 2 \/ x = 3 \/ x = 4 \/ x = 5 \/ x = 6 \/ x = 7 \/ x = 8 \/ x = 9)%N by lia.
  naive_solver.
Qed.

Lemma digits_pretty x s : digits 0 (pretty_N_go x s) = digits (Z.of_N x) s.
Proof.
  revert s. induction (N.lt_wf_0 x) as [x _ IH]; intros s.
  destruct (decide (x = 0)%N) as [->|Hx]; [by rewrite pretty_N_go_0 |].
  rewrite pretty_N_go_step by lia. rewrite IH by (apply N.div_lt; lia). simpl.
  rewrite digit_pretty by (apply N.mod_lt; lia). f_equal.
  rewrite N2Z.inj_div, N2Z.inj_mod. pose proof (Z.div_mod (Z.of_N x) 10). lia.
Qed.

Lemma digits_pretty_N (x : N) : digits 0 (pretty x) = Some (Z.of_N x).
Proof.
  unfold pretty, pretty_N. case_decide as H; [by subst |]. by rewrite digits_pretty.
Qed.

(** A decimal number starts with a digit. *)
Lemma pretty_N_head (x : N) : exists c s, pretty x = String c s /\ digit c <> None.
Proof.
  assert (forall y s, (exists c s', s = String c s' /\ digit c <> None) ->
    exists c s', pretty_N_go y s = String c s' /\ digit c <> None) as Hgo.
  { intros y. induction (N.lt_wf_0 y) as [y _ IH]; intros s Hs.
    destruct (decide (y = 0)%N) as [->|Hy]; [by rewrite pretty_N_go_0 |].
    rewrite pretty_N_go_step by lia. apply IH; [apply N.div_lt; lia |].
    do 2 eexists. split; [done |]. rewrite digit_pretty by (apply N.mod_lt; lia). done. }
  unfold pretty, pretty_N. case_decide as H; [by do 2 eexists |].
  rewrite pretty_N_go_step by lia. apply Hgo. do 2 eexists. split; [done |].
  rewrite digit_pretty by (apply N.mod_lt; lia). done.
Qed.

Lemma Atoi_pretty z : - 2 ^ 63 <= z < 2 ^ 63 -> Atoi (pretty z) = Some z.
Proof.
  intros Hz. assert (in_int z = Some z) as Hin by (unfold in_int; by rewrite decide_True).
  destruct z as [|p|p]; [done | |]; destruct (pretty_N_head (N.pos p)) as (c & s & Heq & Hc);
    pose proof (digits_pretty_N (N.pos p)) as Hd; rewrite Heq in Hd.
  - change (pretty (Z.pos p)) with (pretty (N.pos p)). rewrite Heq. unfold Atoi.
    rewrite decide_False by (by intros ->). rewrite decide_False by (by intros ->). by rewrite Hd.
  - change (pretty (Z.neg p)) with ("-" +:+ pretty (N.pos p)). rewrite Heq. unfold Atoi. simpl.
    simpl in Hd. by rewrite Hd.
Qed.

Lemma pretty_nonneg_head z : 0 <= z -> exists c s, pretty z = String c s /\ c <> "-"%char.
Proof.
  intros Hz. destruct z as [|p|p]; [by do 2 eexists | | lia].
  destruct (pretty_N_head (N.pos p)) as (c & s & Heq & Hc). exists c, s. split; [exact Heq |].
  by intros ->.
Qed.

Definition is_option (a : string) : Prop := exists s, a = String "-"%char s.

Lemma skip_options_app opts a rest : Forall is_option opts ->
  (exists c s, a = String c s /\ c <> "-"%char) -> skip_options (opts ++ a :: rest) = Ok (length opts).
Proof.
  intros Hopts (c & s & -> & Hc). induction Hopts as [|o opts [s' ->] _ IH]; simpl.
  - by rewrite decide_False.
  - by rewrite IH.
Qed.

Lemma slice_get_app {A} (l1 l2 : list A) (i : nat) a :
  l2 !! i = Some a -> slice_get (l1 ++ l2) (zlen l1 + Z.of_nat i) = Ok a.
Proof.
  intros H. unfold slice_get, zlookup, zlen. rewrite decide_True by lia.
  replace (Z.to_nat (Z.of_nat (length l1) + Z.of_nat i)) with (length l1 + i)%nat by lia.
  by rewrite lookup_app_r, Nat.add_comm, Nat.add_sub, H by lia.
Qed.

Lemma subslice_app {A} (l1 l2 : list A) : subslice (l1 ++ l2) (zlen l1) (zlen l1 + zlen l2) = Ok l2.
Proof.
  unfold subslice, zlen. rewrite length_app, decide_True by lia.
  rewrite Nat2Z.id, drop_app_length. f_equal. apply take_ge. lia.
Qed.

(** ** Start, state transfer and shutdown *)

(** The control calls of a process and its one channel of persisters. *)
Section Startup.
Context {Svcs : Type} (mks : place -> Persister -> Svcs).

(** [InitDaemon] after the command line: at its first receive; making the
    services; at the send of nil; at the last receive; returned, which ends the
    process. *)
Inductive main_pc := MRecv | MMake (p : Persister) | MSend | MWait | MReturn.

(** A call of the tester to [Init] or [InitWait]: in the handler at its
    channel operation, or over. *)
Inductive handler_pc := HInit (p : Persister) | HWait | HDone.

(** [StartServer] of the tester: before [init]; in it; before [waitInit];
    in it; after it. *)
Inductive tester_pc := TInit | TInInit | TWait | TInWait | TReady.

Record startup := mkStartup {
  st_main : main_pc;
  st_handler : handler_pc;
  st_tester : tester_pc;
  st_svcs : option (Persister * Svcs);  (* ds.persister and the services added *)
}.

(** [DaemonClnt.init] sends what it reads from the saved persister;
    [DaemonSrv.Init] stores it in a new one. *)
Definition InitArgs_of (p : Persister) : bytes * bytes := (ReadRaftState p, ReadSnapshot p).
Definition DaemonSrv_Init (args : bytes * bytes) : Persister := Save (fst args) (snd args) MakePersister.

Inductive startup_step (pl : place) (saved : Persister) : startup -> startup -> Prop :=
| start_init m sv : startup_step pl saved (mkStartup m HDone TInit sv)
    (mkStartup m (HInit (DaemonSrv_Init (InitArgs_of saved))) TInInit sv)
| start_recv p t sv : startup_step pl saved (mkStartup MRecv (HInit p) t sv) (mkStartup (MMake p) HDone t sv)
| start_init_return m sv : startup_step pl saved (mkStartup m HDone TInInit sv) (mkStartup m HDone TWait sv)
| start_make p h t sv : startup_step pl saved (mkStartup (MMake p) h t sv)
    (mkStartup MSend h t (Some (p, mks pl p)))
| start_wait m sv : startup_step pl saved (mkStartup m HDone TWait sv) (mkStartup m HWait TInWait sv)
| start_rendezvous t sv : startup_step pl saved (mkStartup MSend HWait t sv) (mkStartup MWait HDone t sv)
| start_wait_return m sv : startup_step pl saved (mkStartup m HDone TInWait sv) (mkStartup m HDone TReady sv)
| start_return p t sv : startup_step pl saved (mkStartup MWait (HInit p) t sv) (mkStartup MReturn HDone t sv).

Definition startup_init (s : startup) : Prop := s = mkStartup MRecv HDone TInit None.

(** Which states a start goes through. *)
Inductive startup_ok (pl : place) (p : Persister) : startup -> Prop :=
| ok_before : startup_ok pl p (mkStartup MRecv HDone TInit None)
| ok_init : startup_ok pl p (mkStartup MRecv (HInit p) TInInit None)
| ok_make h t : (h, t) = (HDone, TInInit) \/ (h, t) = (HDone, TWait) \/ (h, t) = (HWait, TInWait) ->
    startup_ok pl p (mkStartup (MMake p) h t None)
| ok_send h t : (h, t) = (HDone, TInInit) \/ (h, t) = (HDone, TWait) \/ (h, t) = (HWait, TInWait) ->
    startup_ok pl p (mkStartup MSend h t (Some (p, mks pl p)))
| ok_ready t : t = TInWait \/ t = TReady -> startup_ok pl p (mkStartup MWait HDone t (Some (p, mks pl p))).

Lemma startup_step_ok pl saved s s' : startup_ok pl (DaemonSrv_Init (InitArgs_of saved)) s ->
  startup_step pl saved s s' -> startup_ok pl (DaemonSrv_Init (InitArgs_of saved)) s'.
Proof.
  destruct 1 as [| |h t H|h t H|t H]; inversion 1; subst; try (by constructor);
    try (constructor; naive_solver); exfalso; naive_solver.
Qed.

Lemma DaemonSrv_Init_id p : DaemonSrv_Init (InitArgs_of p) = p.
Proof. destruct p. unfold DaemonSrv_Init, InitArgs_of, ReadRaftState, ReadSnapshot, Save. simpl. by rewrite !clone_id. Qed.

Lemma startup_reachable_ok pl saved s : reachable startup_init (startup_step pl saved) s ->
  startup_ok pl saved s.
Proof.
  rewrite <- (DaemonSrv_Init_id saved) at 2. induction 1 as [s ->|s s' _ IH Hst].
  - constructor.
  - by eapply startup_step_ok.
Qed.

(** A started server is ready.  When the tester's [waitInit] has
    returned, the services of the server have been made, for its place and
    with exactly the durable state that the tester had saved, and before that
    the start never stops half way: some step is possible, and the process
    does not end. *)
Theorem waitInit_services pl saved s : reachable startup_init (startup_step pl saved) s ->
  st_main s <> MReturn /\
  (st_tester s = TReady -> st_svcs s = Some (saved, mks pl saved)) /\
  (st_tester s <> TReady -> exists s', startup_step pl saved s s').
Proof.
  intros Hr. destruct (startup_reachable_ok pl saved s Hr) as [| |h t H|h t H|t H]; simpl.
  - split_and!; [done | done |]. intros _. eexists. constructor.
  - split_and!; [done | done |]. intros _. eexists. constructor.
  - split_and!; [done | naive_solver |]. intros _. eexists. constructor.
  - split_and!; [done | done |]. intros _. destruct H as [[= -> ->]|[[= -> ->]|[= -> ->]]]; eexists; constructor.
  - split_and!; [done | done |]. destruct H as [-> | ->]; [| done]. intros _. eexists. constructor.
Qed.

End Startup.

(** *** The server as the tester holds it ([srv.go]) *)

(** A daemon after its start: its durable state, and what [Checkpoint]
    closes. *)
Record DaemonSrv := mkDaemonSrv {
  ds_persister : Persister;
  ds_rpcc_closed : bool;    (* the client of the tester's service *)
  ds_rpcs : RPCSrv;
}.

Definition CheckpointPersister (ds : DaemonSrv) : DaemonSrv * (bytes * bytes) :=
  let ds := mkDaemonSrv (ds_persister ds) true (RPCSrv_Close (ds_rpcs ds)) in
  let p := Checkpoint (ds_persister ds) in
  (ds, (ReadRaftState p, ReadSnapshot p)).

Definition StateSize (ds : DaemonSrv) : Z * Z :=
  (RaftStateSize (ds_persister ds), SnapshotSize (ds_persister ds)).

(** [DaemonClnt.checkpointPersister] and [stateSize]: no reply is a
    [log.Fatalf]. *)
Definition checkpointPersister (reply : option (bytes * bytes)) : Res Persister :=
  match reply with
  | None => Panic
  | Some (rs, sn) => Ok (Save rs sn MakePersister)
  end.

Definition stateSize (reply : option (Z * Z)) : Res (Z * Z) :=
  match reply with None => Panic | Some p => Ok p end.

Record TServer := mkTServer { ts_saved : option Persister; ts_dc : option DaemonSrv }.

(** [startServer], and the rest of [StartServer] once the process is
    ready with the persister it was sent. *)
Definition startServer (s : TServer) : Persister :=
  match ts_saved s with None => MakePersister | Some p => p end.

Definition StartServer_daemon (rpcs : RPCSrv) (s : TServer) : TServer :=
  let saved := startServer s in
  mkTServer (Some saved) (Some (mkDaemonSrv (DaemonSrv_Init (InitArgs_of saved)) false rpcs)).

(** [shutdownServer]; [replied] says that the control call got its reply. *)
Definition shutdownServer (replied : bool) (s : TServer) : Res TServer :=
  match ts_dc s with
  | None => Ok s
  | Some ds =>
      let '(_, reply) := CheckpointPersister ds in
      let* p := checkpointPersister (if replied then Some reply else None) in
      Ok (mkTServer (Some p) None)
  end.

Definition snapshotSize (s : TServer) : Res Z :=
  match ts_dc s with
  | Some ds => let* p := stateSize (Some (StateSize ds)) in Ok (snd p)
  | None => match ts_saved s with Some p => Ok (SnapshotSize p) | None => Panic end
  end.

Definition raftSize (s : TServer) : Res Z :=
  match ts_dc s with
  | Some ds => let* p := stateSize (Some (StateSize ds)) in Ok (fst p)
  | None => match ts_saved s with Some p => Ok (RaftStateSize p) | None => Panic end
  end.

(** The running server saves its state. *)
Definition server_saves (rs sn : bytes) (s : TServer) : TServer :=
  match ts_dc s with
  | Some ds => mkTServer (ts_saved s) (Some (mkDaemonSrv (Save rs sn (ds_persister ds)) (ds_rpcc_closed ds) (ds_rpcs ds)))
  | None => s
  end.

(** ** Properties of the processes *)

(** The command line carries the place of a server.  [InitDaemon]
    reads back the group, the index, the tester's end and the ends that
    [runDaemon] wrote, whatever the optional arguments and the random names
    of the ends are. *)
Theorem InitDaemon_args_roundtrip pargs useRsm endName gid srv endNames e :
  Forall is_option pargs -> 0 <= gid < 2 ^ 63 -> 0 <= srv -> zlen endNames < 2 ^ 63 ->
  endNames !! Z.to_nat srv = Some e ->
  InitDaemon_args (runDaemon_args pargs useRsm endName gid srv endNames) =
  Ok (Some (mkPlace gid srv endName endNames e)).
Proof.
  intros Hp Hg Hs Hn He. unfold InitDaemon_args, runDaemon_args. rewrite app_assoc.
  set (opts := pargs ++ options useRsm).
  assert (Forall is_option opts) as Hopts.
  { apply Forall_app. split; [exact Hp |]. unfold options. destruct useRsm; [| constructor].
    constructor; [by eexists | constructor]. }
  assert (srv < zlen endNames) as Hlt.
  { apply lookup_lt_Some in He. unfold zlen. lia. }
  simpl. rewrite skip_options_app by (first [done | apply pretty_nonneg_head; lia]). simpl.
  set (l := pretty gid :: pretty srv :: pretty (zlen endNames) :: endName :: endNames).
  assert (forall i a, l !! i = Some a -> slice_get (opts ++ l) (zlen opts + Z.of_nat i) = Ok a) as Hget
    by (intros; by apply slice_get_app).
  pose proof (Hget 0%nat _ eq_refl) as H0. rewrite Z.add_0_r in H0.
  pose proof (Hget 1%nat _ eq_refl) as H1. pose proof (Hget 2%nat _ eq_refl) as H2.
  pose proof (Hget 3%nat _ eq_refl) as H3. 
  change (Z.of_nat 1) with 1 in H1. change (Z.of_nat 2) with 2 in H2. change (Z.of_nat 3) with 3 in H3.
  fold (zlen opts). rewrite H0. simpl. rewrite Atoi_pretty by lia. rewrite H1. simpl. rewrite Atoi_pretty by lia.
  rewrite H2. simpl. rewrite Atoi_pretty by (unfold zlen in *; lia). rewrite H3. simpl.
  assert (subslice (opts ++ l) (zlen opts + 4) (zlen opts + 4 + zlen endNames) = Ok endNames) as ->.
  { replace (opts ++ l) with ((opts ++ take 4 l) ++ endNames) by (by rewrite <- app_assoc).
    replace (zlen opts + 4) with (zlen (opts ++ take 4 l)) by (unfold zlen; rewrite length_app; simpl; lia).
    apply subslice_app. }
  simpl. assert (slice_get endNames srv = Ok e) as ->; [| done].
  unfold slice_get, zlookup. rewrite decide_True by lia. by rewrite He.
Qed.

Lemma InitDaemon_args_roundtrip_witness :
  InitDaemon_args (runDaemon_args ["--max-raft-state=-1"] true "-tester" 0 1 ["-a"; "b"]) =
  Ok (Some (mkPlace 0 1 "-tester" ["-a"; "b"] "b")).
Proof.
  apply (InitDaemon_args_roundtrip ["--max-raft-state=-1"] true "-tester" 0 1 ["-a"; "b"] "b").
  - constructor; [eexists; reflexivity | constructor].
  - lia.
  - lia.
  - vm_compute. reflexivity.
  - reflexivity.
Defined.

(** A restart keeps the durable state.  Shutting a server down and
    starting it again gives the new process exactly the Raft state and the
    snapshot that the old one held when its [CheckpointPersister] ran; the
    sizes the tester reports are those of the running process, and stay the
    same while the server is down; what the old process saves later is
    lost; a server that never ran starts from an empty state. *)
Theorem restart_keeps_state s ds rpcs : ts_dc s = Some ds ->
  exists s1, shutdownServer true s = Ok s1 /\ ts_dc s1 = None /\
    raftSize s1 = raftSize s /\ snapshotSize s1 = snapshotSize s /\
    (forall rs sn, server_saves rs sn s1 = s1) /\
    exists ds', ts_dc (StartServer_daemon rpcs s1) = Some ds' /\ ds_persister ds' = ds_persister ds.
Proof.
  intros Hds. unfold shutdownServer, raftSize, snapshotSize. rewrite Hds. simpl.
  eexists. split; [done |]. simpl. unfold RaftStateSize, SnapshotSize, ReadRaftState, ReadSnapshot, Save, Checkpoint.
  simpl. rewrite !clone_id. split_and!; try done. eexists. split; [done |]. simpl.
  rewrite DaemonSrv_Init_id. by destruct (ds_persister ds).
Qed.

Lemma restart_keeps_state_witness :
  let s := mkTServer None (Some (mkDaemonSrv (mkPersister [1; 2] [3]) false (NewRPCSrv "e"))) in
  ts_dc s = Some (mkDaemonSrv (mkPersister [1; 2] [3]) false (NewRPCSrv "e")) /\
  exists s1, shutdownServer true s = Ok s1 /\ raftSize s1 = Ok 2.
Proof.
  split; [reflexivity |].
  destruct (restart_keeps_state (mkTServer None (Some (mkDaemonSrv (mkPersister [1; 2] [3]) false (NewRPCSrv "e"))))
    (mkDaemonSrv (mkPersister [1; 2] [3]) false (NewRPCSrv "e")) (NewRPCSrv "e") eq_refl)
    as (s1 & H1 & _ & H2 & _).
  exists s1. split; [exact H1 |]. rewrite H2. reflexivity.
Defined.

(** [CheckpointPersister] closes the listener of the server, and not the
    connections it has accepted: a request that comes in on one of them
    after the state was copied is still served, and its reply is sent. *)
Lemma checkpoint_still_replies (serve : string -> bytes -> bytes * bool -> Prop) `{!Codec InitMsg} ds v n m q r o :
  v ∈ rs_conns (ds_rpcs ds) -> srv v = SRead -> queue (requests_w n) = m :: q -> serving v = [] -> answering v = [] ->
  broken n = false -> failed (replies_w n) = false -> serve (clntEnd v) (Data m) (r, o) ->
  v ∈ rs_conns (ds_rpcs (fst (CheckpointPersister ds))) /\
  exists v' n', rtc (fun a b => srv_step serve a.1 a.2 b.1 b.2) (v, n) (v', n') /\
    queue (replies_w n') = queue (replies_w n) ++ [mkMsg (Tag m) r o].
Proof.
  intros Hv Hs Hq Hse Han Hb Hf Hr. split; [done |]. do 2 eexists. split.
  - eapply (rtc_l _ _ (_, _)); [eapply srv_read; [done | exact Hq] |].
    eapply (rtc_l _ _ (_, _)); [eapply (srv_serve _ _ _ []); [by simpl; rewrite Hse | exact Hr] |].
    eapply (rtc_l _ _ (_, _)); [| apply rtc_refl].
    eapply (srv_write _ _ _ []); [by simpl; rewrite Han |]. unfold wire_write. simpl. by rewrite Hf, Hb.
  - done.
Qed.

(** A start from the tester's first step to its last. *)
Definition ex_place : place := mkPlace 0 0 "tester" ["e"] "e".
Definition ex_saved : Persister := mkPersister [1] [2].

#[local] Abbreviation ex_reachable :=
  (reachable startup_init (startup_step (fun _ p => zlen (raftstate p)) ex_place ex_saved)).

Lemma ex_go s s' : ex_reachable s -> startup_step (fun _ p => zlen (raftstate p)) ex_place ex_saved s s' ->
  ex_reachable s'.
Proof. apply reach_step. Qed.

Lemma ex_startup : ex_reachable (mkStartup MWait HDone TReady (Some (ex_saved, 1))).
Proof.
  assert (ex_reachable (mkStartup MRecv HDone TInit None)) as H by (by apply reach_init).
  eapply ex_go in H; [| apply start_init].
  eapply ex_go in H; [| apply start_recv].
  eapply ex_go in H; [| apply start_make].
  eapply ex_go in H; [| apply start_init_return].
  eapply ex_go in H; [| apply start_wait].
  eapply ex_go in H; [| apply start_rendezvous].
  eapply ex_go in H; [| apply start_wait_return].
  exact H.
Qed.

Lemma waitInit_services_witness :
  st_svcs (mkStartup MWait HDone TReady (Some (ex_saved, 1))) = Some (ex_saved, zlen (raftstate ex_saved)).
Proof.
  destruct (waitInit_services (fun _ p => zlen (raftstate p)) ex_place ex_saved _ ex_startup) as (_ & H & _).
  exact (H eq_refl).
Defined.
