(* ===== verification/TesterGroup.v ===== *)
(** * Groups of servers and clients on the simulated network
      ([tester1/group.go], [tester1/srv.go], [tester1/clnts.go])

    The tester cuts and restores the links between the servers of a group
    by disabling and enabling client ends of the network.  Server [i]
    owns one end per server [j]: the link from [i] to [j]. *)
From S2P Require Import Prelude Labrpc.
From stdpp Require Import pretty.
#[local] Open Scope Z_scope.

(** Indexing a slice with an index that is not negative. *)
Definition at_index {A} (l : list A) (i : nat) : Res A :=
  match l !! i with Some a => Ok a | None => Panic end.

Fixpoint for_each {A S} (f : A -> S -> Res S) (l : list A) (s : S) : Res S :=
  match l with
  | [] => Ok s
  | a :: l => let* s := f a s in for_each f l s
  end.

Definition ServerName (gid : Z) (i : nat) : string :=
  "server-" +:+ pretty gid +:+ "-" +:+ pretty (Z.of_nat i).

(** ** Servers and groups *)

(** [makeServer]: a fresh end to every server of the group; [names] are
    the random names drawn. *)
Fixpoint makeServer_loop (gid : Z) (names : list string) (j : nat) (net : Network) : Res Network :=
  match names with
  | [] => Ok net
  | name :: names =>
      let* net := MakeEnd name net in
      makeServer_loop gid names (S j) (Connect name (ServerName gid j) net)
  end.

Definition makeServer (gid : Z) (names : list string) (net : Network) : Res (Network * list string) :=
  let* net := makeServer_loop gid names 0 net in Ok (net, names).

Record ServerGrp := mkServerGrp {
  gid : Z;
  srvs : list (list string);  (* endNames of each server *)
  connected : list bool;
}.

Definition N (sg : ServerGrp) : nat := length (srvs sg).
Definition all (sg : ServerGrp) : list nat := seq 0 (N sg).
Definition SrvNames (sg : ServerGrp) : list string := ServerName (gid sg) <$> all sg.
Definition SrvName (sg : ServerGrp) (i : nat) : Res string := at_index (SrvNames sg) i.

Fixpoint SrvNamesTo (sg : ServerGrp) (to : list nat) : Res (list string) :=
  match to with
  | [] => Ok []
  | i :: to => let* n := SrvName sg i in let* ns := SrvNamesTo sg to in Ok (n :: ns)
  end.

Fixpoint makeServers (gid : Z) (names : list (list string)) (net : Network) : Res (Network * list (list string)) :=
  match names with
  | [] => Ok (net, [])
  | ns :: names =>
      let* p := makeServer gid ns net in
      let* q := makeServers gid names p.1 in
      Ok (q.1, p.2 :: q.2)
  end.

Definition makeSrvGrp (gid : Z) (names : list (list string)) (net : Network) : Res (Network * ServerGrp) :=
  let* p := makeServers gid names net in
  Ok (p.1, mkServerGrp gid p.2 (replicate (length names) false)).

Definition IsConnected (sg : ServerGrp) (i : nat) : Res bool := at_index (connected sg) i.
Definition GetConnected (sg : ServerGrp) : list bool := connected sg.

Definition set_connected (sg : ServerGrp) (i : nat) (b : bool) : Res ServerGrp :=
  let* _ := at_index (connected sg) i in
  Ok (mkServerGrp (gid sg) (srvs sg) (<[i := b]> (connected sg))).

(** [Server.connect]: the outgoing ends. *)
Definition srv_connect (sg : ServerGrp) (endNames : list string) (to : list nat) (net : Network) : Res Network :=
  for_each (fun j net =>
    let* c := IsConnected sg j in
    if c then let* endname := at_index endNames j in Ok (Enable endname true net) else Ok net) to net.

Definition srv_disconnect (endNames : list string) (from : list nat) (net : Network) : Res Network :=
  for_each (fun j net => let* endname := at_index endNames j in Ok (Enable endname false net)) from net.

(** [ServerGrp.connect] and [ServerGrp.disconnect]. *)
Definition connect (i : nat) (to : list nat) (p : ServerGrp * Network) : Res (ServerGrp * Network) :=
  let* sg := set_connected p.1 i true in
  let* endNames := at_index (srvs sg) i in
  let* net := srv_connect sg endNames to p.2 in
  let* net := for_each (fun j net =>
    let* c := IsConnected sg j in
    if c then
      let* ends := at_index (srvs sg) j in
      let* endname := at_index ends i in
      Ok (Enable endname true net)
    else Ok net) to net in
  Ok (sg, net).

Definition disconnect (i : nat) (from : list nat) (p : ServerGrp * Network) : Res (ServerGrp * Network) :=
  let* sg := set_connected p.1 i false in
  let* endNames := at_index (srvs sg) i in
  let* net := srv_disconnect endNames from p.2 in
  let* net := for_each (fun j net =>
    let* ends := at_index (srvs sg) j in
    let* endname := at_index ends i in
    Ok (Enable endname false net)) from net in
  Ok (sg, net).

Definition ConnectOne (i : nat) (p : ServerGrp * Network) : Res (ServerGrp * Network) := connect i (all p.1) p.
Definition ConnectAll (p : ServerGrp * Network) : Res (ServerGrp * Network) := for_each ConnectOne (all p.1) p.
Definition DisconnectAll (i : nat) (p : ServerGrp * Network) : Res (ServerGrp * Network) := disconnect i (all p.1) p.

(** [ShutdownServer], as far as the network goes. *)
Definition ShutdownServer (i : nat) (p : ServerGrp * Network) : Res (ServerGrp * Network) :=
  let* p := disconnect i (all p.1) p in
  Ok (p.1, DeleteServer (ServerName (gid p.1) i) p.2).

(** [StartServer], as far as the network goes: fresh ends, and the server
    object [obj] of the new process, if the process started. *)
Definition StartServer (i : nat) (names : list string) (obj : option server_ref) (p : ServerGrp * Network)
    : Res (ServerGrp * Network) :=
  let* old := at_index (srvs p.1) i in
  let* q := makeServer (gid p.1) (take (length old) names) p.2 in
  let sg := mkServerGrp (gid p.1) (<[i := q.2]> (srvs p.1)) (connected p.1) in
  match obj with
  | Some s => Ok (sg, AddServer (ServerName (gid sg) i) s q.1)
  | None => Ok (sg, q.1)
  end.

Fixpoint StartSrvs (l : list (nat * list string * option server_ref)) (p : ServerGrp * Network)
    : Res (ServerGrp * Network) :=
  match l with
  | [] => Ok p
  | (i, names, obj) :: l => let* p := StartServer i names obj p in StartSrvs l p
  end.

(** [RaftSize], [SnapshotSize] and [MemSize] over the servers' sizes. *)
Definition maxSize (sizes : list Z) : Z := foldl (fun m n => if decide (n > m) then n else m) 0 sizes.


Definition Kill (l : list nat) (p : ServerGrp * Network) : Res (ServerGrp * Network) := for_each ShutdownServer l p.
Definition Shutdown (p : ServerGrp * Network) : Res (ServerGrp * Network) := Kill (all p.1) p.

Definition Partition (p1 p2 : list nat) (p : ServerGrp * Network) : Res (ServerGrp * Network) :=
  let* p := for_each (fun i p => let* p := disconnect i p2 p in connect i p1 p) p1 p in
  for_each (fun i p => let* p := disconnect i p1 p in connect i p2 p) p2 p.

(** [MakePartition]: [l] and the tables it fills. *)
Fixpoint makePartition_loop (l i fuel j : nat) (p1 p2 : list nat) : list nat * list nat :=
  match fuel with
  | O => (p1, p2)
  | S fuel =>
      if decide (i <> l) then
        if decide (j < length p1)%nat then makePartition_loop l (S i) fuel (S j) (<[j := i]> p1) p2
        else makePartition_loop l (S i) fuel (S j) p1 (<[(j - length p1)%nat := i]> p2)
      else makePartition_loop l (S i) fuel j p1 p2
  end.

Definition MakePartition (l : nat) (sg : ServerGrp) : Res (list nat * list nat) :=
  let n := N sg in
  let '(p1, p2) := makePartition_loop l 0 n 0 (replicate (n / 2 + 1)%nat 0%nat) (replicate (n / 2)%nat 0%nat) in
  if decide (length p2 = 0)%nat then Panic
  else Ok (p1, <[(length p2 - 1)%nat := l]> p2).

(** ** Clients *)
Module Clnt.
(** The ends of a client, by server name; [None] for [srvs] allows all
    servers. *)
Record Clnt := mkClnt { cl_ends : gmap string string; cl_srvs : option (list string) }.

Definition makeClntTo (allowed : option (list string)) : Clnt := mkClnt ∅ allowed.

Definition allowedL (clnt : Clnt) (server : string) : bool :=
  match cl_srvs clnt with
  | None => true
  | Some l => existsb (fun n => bool_decide (n = server)) l
  end.

(** [name] is the random name of a new end. *)
Definition makeEnd (server name : string) (p : Clnt * Network) : Res (Clnt * Network * string) :=
  let '(clnt, net) := p in
  match cl_ends clnt !! server with
  | Some e => Ok (clnt, net, e)
  | None =>
      let* net := MakeEnd name net in
      let net := Connect name server net in
      let net := Enable name (allowedL clnt server) net in
      Ok (mkClnt (<[server := name]> (cl_ends clnt)) (cl_srvs clnt), net, name)
  end.

Definition enable_where (allow : string -> bool) (b : bool) (clnt : Clnt) (net : Network) : Network :=
  map_fold (fun srv e net => if allow srv then Enable e b net else net) net (cl_ends clnt).

Definition ConnectAll (p : Clnt * Network) : Clnt * Network :=
  (mkClnt (cl_ends p.1) None, enable_where (fun _ => true) true p.1 p.2).

Definition ConnectTo (srvs : option (list string)) (p : Clnt * Network) : Clnt * Network :=
  let clnt := mkClnt (cl_ends p.1) srvs in
  (clnt, enable_where (allowedL clnt) true clnt p.2).

Definition Disconnect (srv : string) (p : Clnt * Network) : Clnt * Network :=
  (p.1, enable_where (fun s => bool_decide (s = srv)) false p.1 p.2).

Definition DisconnectAll (p : Clnt * Network) : Clnt * Network :=
  (mkClnt (cl_ends p.1) (Some []), enable_where (fun _ => true) false p.1 p.2).

Definition remove (p : Clnt * Network) : Res Network :=
  for_each DeleteEnd (map_to_list (cl_ends p.1)).*2 p.2.

(** The clerks of a test, by address. *)
Record Clnts := mkClnts { clerks : gmap nat Clnt }.

Definition makeClnts : Clnts := mkClnts ∅.

(** An end of the tester's own, not bound to a clerk. *)
Definition Clnts_makeEnd (servername name : string) (net : Network) : Res Network :=
  let* net := MakeEnd name net in Ok (Enable name true (Connect name servername net)).

Definition MakeClientTo (srvs : option (list string)) (a : nat) (cs : Clnts) : Clnts :=
  mkClnts (<[a := makeClntTo srvs]> (clerks cs)).
Definition MakeClient (a : nat) (cs : Clnts) : Clnts := MakeClientTo None a cs.

Definition Clnts_cleanup (p : Clnts * Network) : Res (Clnts * Network) :=
  let* net := for_each (fun c net => remove (c, net)) (map_to_list (clerks p.1)).*2 p.2 in
  Ok (mkClnts ∅, net).

Definition DeleteClient (a : nat) (p : Clnts * Network) : Res (Clnts * Network) :=
  match clerks p.1 !! a with
  | Some c => let* net := remove (c, p.2) in Ok (mkClnts (delete a (clerks p.1)), net)
  | None => Ok p
  end.
End Clnt.

(** ** The groups *)
Module Groups.
Definition Groups : Type := gmap Z ServerGrp.

Definition newGroups : Groups := ∅.
Definition MakeGroup (gid : Z) (names : list (list string)) (p : Groups * Network) : Res (Groups * Network) :=
  let* q := makeSrvGrp gid names p.2 in Ok (<[gid := q.2]> p.1, q.1).
Definition lookupGroup (gid : Z) (gs : Groups) : option ServerGrp := gs !! gid.
Definition delete (gid : Z) (gs : Groups) : Groups := base.delete gid gs.
Definition cleanup (p : Groups * Network) : Res (Groups * Network) :=
  for_each (fun g p => let* r := Shutdown (g.2, p.2) in Ok (<[g.1 := r.1]> p.1, r.2))
    (map_to_list p.1) p.
End Groups.

(** ** Links *)
Definition link (sg : ServerGrp) (i j : nat) : option string :=
  match srvs sg !! i with Some e => e !! j | None => None end.

(** Can server [i] send to server [j]? *)
Definition link_up (p : ServerGrp * Network) (i j : nat) : bool :=
  match link p.1 i j with Some x => enabled_of p.2 x | None => false end.

Definition is_conn (sg : ServerGrp) (i : nat) : bool := default false (connected sg !! i).

Record grp_ok (sg : ServerGrp) : Prop := mkGrpOk {
  go_conn : length (connected sg) = N sg;
  go_ends : forall e, e ∈ srvs sg -> length e = N sg;
  go_names : NoDup (concat (srvs sg));
}.

(** [MakeEnd] refuses a name that is taken: the names of a group that was
    made are distinct. *)
Lemma makeServer_loop_names gid names : forall j net net', makeServer_loop gid names j net = Ok net' ->
  NoDup names /\ (forall x, x ∈ names -> x ∉ ends net) /\ ends net' = list_to_set names ∪ ends net.
Proof.
  induction names as [|name names IH]; intros j net net' H; simpl in H.
  { injection H as <-. split_and!; [constructor | by intros ? ?%not_elem_of_nil | simpl; set_solver]. }
  unfold MakeEnd in H. destruct (decide (name ∈ ends net)) as [|Hn]; [done |]. simpl in H.
  apply IH in H as (Hnd & Hdis & ->). simpl in *. split_and!.
  - constructor; [intros Hin; apply (Hdis name Hin); set_solver | done].
  - intros x [->|Hx]%elem_of_cons; [done |]. intros Hx'. apply (Hdis x Hx). set_solver.
  - set_solver.
Qed.

Lemma makeServers_names gid names : forall net net' l, makeServers gid names net = Ok (net', l) ->
  l = names /\ NoDup (concat names) /\ (forall x, x ∈ concat names -> x ∉ ends net).
Proof.
  induction names as [|ns names IH]; intros net net' l H; cbn [makeServers] in H.
  { injection H as <- <-. split_and!; [done | constructor | by intros ? ?%not_elem_of_nil]. }
  unfold makeServer in H. res_inv. simpl in *.
  match goal with E : makeServer_loop _ _ _ _ = Ok _ |- _ => apply makeServer_loop_names in E as (Hnd & Hdis & He) end.
  match goal with E : makeServers _ _ _ = Ok _ |- _ => apply IH in E as (-> & Hnd' & Hdis') end.
  rewrite He in Hdis'. split_and!; [done | |].
  - apply NoDup_app. split_and!; [done | | done]. intros x Hx Hc. apply (Hdis' x Hc). set_solver.
  - intros x [Hx|Hx]%elem_of_app; [by apply Hdis |]. intros He'. apply (Hdis' x Hx). set_solver.
Qed.

Lemma makeSrvGrp_ok gid names net net' sg : makeSrvGrp gid names net = Ok (net', sg) ->
  (forall e, e ∈ names -> length e = length names) -> grp_ok sg.
Proof.
  unfold makeSrvGrp. intros H Hsq. res_inv. apply makeServers_names in E as (-> & Hnd & _).
  split; simpl; [apply length_replicate | done | done].
Qed.

Lemma at_index_ok {A} (l : list A) i : (i < length l)%nat -> exists a, l !! i = Some a /\ at_index l i = Ok a.
Proof. intros H. destruct (lookup_lt_is_Some_2 l i H) as [a Ha]. exists a. unfold at_index. by rewrite Ha. Qed.

Lemma concat_lookup_elem {A} (ls : list (list A)) i l j x :
  ls !! i = Some l -> l !! j = Some x -> x ∈ concat ls.
Proof.
  revert i. induction ls as [|l0 ls IH]; intros [|i] Hi Hj; simplify_eq/=; apply elem_of_app.
  - left. by eapply list_elem_of_lookup_2.
  - right. by eapply IH.
Qed.

Lemma NoDup_concat_inj {A} (ls : list (list A)) : NoDup (concat ls) -> forall i i' l l' j j' x,
  ls !! i = Some l -> l !! j = Some x -> ls !! i' = Some l' -> l' !! j' = Some x -> i = i' /\ j = j'.
Proof.
  induction ls as [|l0 ls IH]; simpl; intros Hnd; [by intros [] |].
  apply NoDup_app in Hnd as (Hnd0 & Hdis & Hnd).
  intros [|i] [|i'] l l' j j' x Hi Hj Hi' Hj'; simplify_eq/=.
  - split; [done |]. by apply (NoDup_lookup l j j' x).
  - exfalso. apply (Hdis x); [by eapply list_elem_of_lookup_2 | by eapply concat_lookup_elem].
  - exfalso. apply (Hdis x); [by eapply list_elem_of_lookup_2 | by eapply concat_lookup_elem].
  - destruct (IH Hnd i i' l l' j j' x); auto.
Qed.

Lemma link_inj sg i j i' j' x : grp_ok sg -> link sg i j = Some x -> link sg i' j' = Some x -> i = i' /\ j = j'.
Proof.
  intros [_ _ Hnd]. unfold link. destruct (srvs sg !! i) as [e|] eqn:Ei; [| done].
  destruct (srvs sg !! i') as [e'|] eqn:Ei'; [| done]. intros Hj Hj'. by eapply NoDup_concat_inj.
Qed.

Lemma link_exists sg i j : grp_ok sg -> (i < N sg)%nat -> (j < N sg)%nat -> exists x, link sg i j = Some x.
Proof.
  intros [_ He _] Hi Hj. unfold link. destruct (lookup_lt_is_Some_2 (srvs sg) i Hi) as [e Ee]. rewrite Ee.
  apply lookup_lt_is_Some_2. rewrite (He e); [done |]. by eapply list_elem_of_lookup_2.
Qed.

Lemma enabled_of_Enable x b net y : enabled_of (Enable x b net) y = if decide (x = y) then b else enabled_of net y.
Proof.
  unfold enabled_of, Enable. simpl. case_decide as H; [subst; by rewrite lookup_insert_eq | by rewrite lookup_insert_ne].
Qed.

(** A loop that enables or disables the ends that [sel] names. *)
Lemma for_each_enable b (f : nat -> Network -> Res Network) (sel : nat -> option string) l :
  (forall j net, j ∈ l -> f j net = Ok (match sel j with Some x => Enable x b net | None => net end)) ->
  forall net, exists net', for_each f l net = Ok net' /\
    forall y, ((exists j, j ∈ l /\ sel j = Some y) -> enabled_of net' y = b) /\
      (~ (exists j, j ∈ l /\ sel j = Some y) -> enabled_of net' y = enabled_of net y).
Proof.
  induction l as [|j l IH]; intros Hf net.
  { exists net. split; [done |]. intros y. split; [by intros (? & ?%not_elem_of_nil & _) | done]. }
  simpl. rewrite Hf by apply list_elem_of_here. simpl.
  destruct (IH ltac:(intros; apply Hf; by apply list_elem_of_further)
    (match sel j with Some x => Enable x b net | None => net end)) as (net' & Hrun & Heff).
  exists net'. split; [done |]. intros y. destruct (Heff y) as [H1 H2]. split.
  - intros (j' & [->|Hj']%elem_of_cons & Hs); [| apply H1; eauto].
    destruct (decide (Exists (fun j => sel j = Some y) l)) as [(j' & Hj' & Hs')%Exists_exists|Hn].
    + apply H1. exists j'. split; [done | done].
    + rewrite H2; [rewrite Hs, enabled_of_Enable; by rewrite decide_True |].
      intros (j' & Hj' & Hs'). apply Hn, Exists_exists. exists j'. split; [done | done].
  - intros Hn. rewrite H2.
    + destruct (sel j) as [x|] eqn:Es; [| done]. rewrite enabled_of_Enable, decide_False; [done |].
      intros ->. apply Hn. exists j. split; [apply list_elem_of_here | done].
    + intros (j' & Hj' & Hs'). apply Hn. exists j'. split; [by apply list_elem_of_further | done].
Qed.

(** What one call of [connect] or [disconnect] did to the links: those
    between [i] and the servers of [sel] have value [b]. *)
Definition links_set (b : bool) (i : nat) (sel : nat -> Prop) (p p' : ServerGrp * Network) : Prop :=
  forall x y, (x < N p.1)%nat -> (y < N p.1)%nat ->
    ((x = i /\ sel y \/ y = i /\ sel x) -> link_up p' x y = b) /\
    (~ (x = i /\ sel y \/ y = i /\ sel x) -> link_up p' x y = link_up p x y).

Definition same_group (p p' : ServerGrp * Network) (conn : list bool) : Prop :=
  p'.1 = mkServerGrp (gid p.1) (srvs p.1) conn.

Lemma links_set_two b i sg conn net net1 net2 (sel : nat -> bool) (l : list nat) :
  grp_ok sg -> (i < N sg)%nat -> (forall j, j ∈ l -> (j < N sg)%nat) ->
  (forall y, ((exists j, j ∈ l /\ sel j = true /\ link sg i j = Some y) -> enabled_of net1 y = b) /\
     (~ (exists j, j ∈ l /\ sel j = true /\ link sg i j = Some y) -> enabled_of net1 y = enabled_of net y)) ->
  (forall y, ((exists j, j ∈ l /\ sel j = true /\ link sg j i = Some y) -> enabled_of net2 y = b) /\
     (~ (exists j, j ∈ l /\ sel j = true /\ link sg j i = Some y) -> enabled_of net2 y = enabled_of net1 y)) ->
  links_set b i (fun j => j ∈ l /\ sel j = true) (sg, net) (mkServerGrp (gid sg) (srvs sg) conn, net2).
Proof.
  intros Hok Hi Hl H1 H2 x y Hx Hy. simpl in *. unfold link_up. simpl.
  change (link (mkServerGrp (gid sg) (srvs sg) conn) x y) with (link sg x y).
  destruct (link_exists sg x y Hok Hx Hy) as [e He]. rewrite He. specialize (H1 e). specialize (H2 e).
  destruct (decide (y = i /\ x ∈ l /\ sel x = true)) as [(-> & Hxl & Hsx)|Hn2].
  - split; [intros _; apply H2; by exists x | tauto].
  - destruct H2 as [_ H2].
    assert (~ (exists j, j ∈ l /\ sel j = true /\ link sg j i = Some e)) as Hne.
    { intros (j & Hj & Hs & Hlk). destruct (link_inj sg _ _ _ _ _ Hok He Hlk) as [-> ->]. tauto. }
    rewrite (H2 Hne).
    destruct (decide (x = i /\ y ∈ l /\ sel y = true)) as [(-> & Hyl & Hsy)|Hn1].
    + split; [intros _; apply H1; by exists y | tauto].
    + destruct H1 as [_ H1]. split; [tauto |]. intros _. apply H1.
      intros (j & Hj & Hs & Hlk). destruct (link_inj sg _ _ _ _ _ Hok He Hlk) as [-> ->]. tauto.
Qed.

Lemma grp_ok_conn sg conn : grp_ok sg -> length conn = N sg -> grp_ok (mkServerGrp (gid sg) (srvs sg) conn).
Proof. intros [H1 H2 H3] Hl. by split. Qed.

Lemma set_connected_ok sg i b : grp_ok sg -> (i < N sg)%nat ->
  set_connected sg i b = Ok (mkServerGrp (gid sg) (srvs sg) (<[i := b]> (connected sg))).
Proof.
  intros [Hc _ _] Hi. unfold set_connected. destruct (at_index_ok (connected sg) i) as (c & _ & ->); [lia | done].
Qed.

Lemma link_at sg i j : grp_ok sg -> (i < N sg)%nat -> (j < N sg)%nat ->
  exists e x, at_index (srvs sg) i = Ok e /\ at_index e j = Ok x /\ link sg i j = Some x.
Proof.
  intros Hok Hi Hj. destruct (at_index_ok (srvs sg) i Hi) as (e & He & Hat).
  destruct (at_index_ok e j) as (x & Hx & Hatx).
  { rewrite (go_ends sg Hok e); [done |]. by eapply list_elem_of_lookup_2. }
  exists e, x. split_and!; [done.. |]. unfold link. by rewrite He.
Qed.

Lemma IsConnected_ok sg j : grp_ok sg -> (j < N sg)%nat -> IsConnected sg j = Ok (is_conn sg j).
Proof.
  intros [Hc _ _] Hj. unfold IsConnected, is_conn. destruct (at_index_ok (connected sg) j) as (c & Hlk & ->); [lia |].
  by rewrite Hlk.
Qed.

Lemma disconnect_spec i from p : grp_ok p.1 -> (i < N p.1)%nat -> (forall j, j ∈ from -> (j < N p.1)%nat) ->
  exists p', disconnect i from p = Ok p' /\ same_group p p' (<[i := false]> (connected p.1)) /\
    links_set false i (fun j => j ∈ from) p p'.
Proof.
  destruct p as [sg net]. simpl. intros Hok Hi Hf. unfold disconnect. simpl. rewrite set_connected_ok by done. simpl.
  destruct (at_index_ok (srvs sg) i Hi) as (e & He & ->). simpl.
  destruct (for_each_enable false (fun j net => let* endname := at_index e j in Ok (Enable endname false net))
    (fun j => link sg i j) from) with (net := net) as (net1 & Hr1 & H1).
  { intros j net0 Hj. destruct (link_at sg i j Hok Hi (Hf j Hj)) as (e' & x & Hat & Hx & ->).
    unfold at_index in Hat. rewrite He in Hat. injection Hat as ->. by rewrite Hx. }
  unfold srv_disconnect. rewrite Hr1. simpl.
  destruct (for_each_enable false (fun j net => let* ends := at_index (srvs sg) j in
    let* endname := at_index ends i in Ok (Enable endname false net)) (fun j => link sg j i) from)
    with (net := net1) as (net2 & Hr2 & H2).
  { intros j net0 Hj. destruct (link_at sg j i Hok (Hf j Hj) Hi) as (e' & x & -> & Hx & ->). simpl. by rewrite Hx. }
  rewrite Hr2. eexists. split_and!; [done | done |].
  intros x y Hx Hy. pose proof (links_set_two false i sg (<[i := false]> (connected sg)) net net1 net2 (fun _ => true) from
    Hok Hi Hf) as H. destruct (fun A B => H A B x y Hx Hy) as [Ha Hb].
  - intros z. destruct (H1 z) as [Ha Hb]. split; [intros (j & ? & _ & ?); apply Ha; eauto | intros Hn; apply Hb; naive_solver].
  - intros z. destruct (H2 z) as [Ha Hb]. split; [intros (j & ? & _ & ?); apply Ha; eauto | intros Hn; apply Hb; naive_solver].
  - split; [intros K; apply Ha; naive_solver | intros K; apply Hb; naive_solver].
Qed.

Lemma connect_spec i to p : grp_ok p.1 -> (i < N p.1)%nat -> (forall j, j ∈ to -> (j < N p.1)%nat) ->
  exists p', connect i to p = Ok p' /\ same_group p p' (<[i := true]> (connected p.1)) /\
    links_set true i (fun j => j ∈ to /\ is_conn p'.1 j = true) p p'.
Proof.
  destruct p as [sg net]. simpl. intros Hok Hi Hf. unfold connect. simpl. rewrite set_connected_ok by done. simpl.
  set (sg' := mkServerGrp _ _ _).
  assert (grp_ok sg') as Hok' by (apply grp_ok_conn; [done | rewrite length_insert; apply Hok]).
  destruct (at_index_ok (srvs sg) i Hi) as (e & He & ->). simpl.
  destruct (for_each_enable true (fun j net => let* c := IsConnected sg' j in
      if c then let* endname := at_index e j in Ok (Enable endname true net) else Ok net)
    (fun j => if is_conn sg' j then link sg i j else None) to) with (net := net) as (net1 & Hr1 & H1).
  { intros j net0 Hj. rewrite IsConnected_ok by (done || by apply Hf). simpl.
    destruct (is_conn sg' j); [| done]. destruct (link_at sg i j Hok Hi (Hf j Hj)) as (e' & x & Hat & Hx & ->).
    unfold at_index in Hat. rewrite He in Hat. injection Hat as ->. by rewrite Hx. }
  unfold srv_connect. rewrite Hr1. simpl.
  destruct (for_each_enable true (fun j net => let* c := IsConnected sg' j in
      if c then let* ends := at_index (srvs sg) j in let* endname := at_index ends i in Ok (Enable endname true net)
      else Ok net)
    (fun j => if is_conn sg' j then link sg j i else None) to) with (net := net1) as (net2 & Hr2 & H2).
  { intros j net0 Hj. rewrite IsConnected_ok by (done || by apply Hf). simpl.
    destruct (is_conn sg' j); [| done].
    destruct (link_at sg j i Hok (Hf j Hj) Hi) as (e' & x & -> & Hx & ->). simpl. by rewrite Hx. }
  rewrite Hr2. eexists. split_and!; [done | done |]. simpl.
  apply (links_set_two true i sg (<[i := true]> (connected sg)) net net1 net2 (is_conn sg') to Hok Hi Hf).
  - intros z. destruct (H1 z) as [Ha Hb]. split.
    + intros (j & ? & Hs & ?). apply Ha. exists j. by rewrite Hs.
    + intros Hn. apply Hb. intros (j & Hj & Hlk). apply Hn. exists j. destruct (is_conn sg' j); [done | done].
  - intros z. destruct (H2 z) as [Ha Hb]. split.
    + intros (j & ? & Hs & ?). apply Ha. exists j. by rewrite Hs.
    + intros Hn. apply Hb. intros (j & Hj & Hlk). apply Hn. exists j. destruct (is_conn sg' j); [done | done].
Qed.

(** ** Partition *)

(** The servers of [l], part of a side, are cut off from [other] and
    connected among themselves. *)
Definition side_done (p : ServerGrp * Network) (l other : list nat) : Prop :=
  (forall i, i ∈ l -> is_conn p.1 i = true) /\
  (forall i j, i ∈ l -> j ∈ l -> link_up p i j = true) /\
  (forall i j, i ∈ l -> j ∈ other -> link_up p i j = false /\ link_up p j i = false).

Definition in_range (sg : ServerGrp) (l : list nat) : Prop := forall i, i ∈ l -> (i < N sg)%nat.

Definition side_step (side other : list nat) (i : nat) (p : ServerGrp * Network) : Res (ServerGrp * Network) :=
  let* p := disconnect i other p in connect i side p.

Lemma is_conn_insert sg i b j : grp_ok sg -> (i < N sg)%nat ->
  is_conn (mkServerGrp (gid sg) (srvs sg) (<[i := b]> (connected sg))) j = if decide (i = j) then b else is_conn sg j.
Proof.
  intros [Hc _ _] Hi. unfold is_conn. simpl. case_decide as H.
  - subst. by rewrite list_lookup_insert_eq by lia.
  - by rewrite list_lookup_insert_ne.
Qed.

(** One server of a side: what the step does to every link. *)
Lemma side_step_spec side other i p :
  grp_ok p.1 -> in_range p.1 side -> in_range p.1 other -> (forall x, x ∈ side -> x ∉ other) -> i ∈ side ->
  exists p', side_step side other i p = Ok p' /\ srvs p'.1 = srvs p.1 /\ grp_ok p'.1 /\
    (forall j, is_conn p'.1 j = if decide (i = j) then true else is_conn p.1 j) /\
    (forall x, x ∈ side -> is_conn p'.1 x = true -> link_up p' i x = true /\ link_up p' x i = true) /\
    (forall x, x ∈ other -> link_up p' i x = false /\ link_up p' x i = false) /\
    (forall x y, (x < N p.1)%nat -> (y < N p.1)%nat -> x <> i -> y <> i -> link_up p' x y = link_up p x y).
Proof.
  intros Hok Hs Ho Hdis Hi. pose proof (Hs i Hi) as HiN.
  destruct (disconnect_spec i other p Hok HiN Ho) as (p1 & Hr1 & Hg1 & Hl1).
  assert (grp_ok p1.1) as Hok1 by (rewrite Hg1; apply grp_ok_conn; [done | rewrite length_insert; apply Hok]).
  assert (N p1.1 = N p.1) as HN1 by (by rewrite Hg1).
  destruct (connect_spec i side p1) as (p2 & Hr2 & Hg2 & Hl2); [done | lia | intros j Hj; rewrite HN1; by apply Hs |].
  assert (forall j, is_conn p2.1 j = if decide (i = j) then true else is_conn p.1 j) as Hconn.
  { intros j. rewrite Hg2, is_conn_insert by (done || lia). case_decide; [done |].
    rewrite Hg1, is_conn_insert by (done || lia). by case_decide. }
  assert (srvs p2.1 = srvs p.1) as Hsrv by (by rewrite Hg2; simpl; rewrite Hg1).
  exists p2. split_and!.
  - unfold side_step. by rewrite Hr1.
  - done.
  - rewrite Hg2. apply grp_ok_conn; [done | rewrite length_insert; apply Hok1].
  - done.
  - intros x Hx Hc. pose proof (Hs x Hx). split; apply (Hl2 _ _); try lia; naive_solver.
  - intros x Hx. pose proof (Ho x Hx).
    assert (x ∉ side) as Hns by (intros Hxs; by apply (Hdis x)).
    assert (i ∉ other) as Hno by (by apply Hdis).
    split.
    + destruct (Hl2 i x ltac:(lia) ltac:(lia)) as [_ Hk]. rewrite Hk by naive_solver.
      apply (Hl1 i x); [lia | lia | naive_solver].
    + destruct (Hl2 x i ltac:(lia) ltac:(lia)) as [_ Hk]. rewrite Hk by naive_solver.
      apply (Hl1 x i); [lia | lia | naive_solver].
  - intros x y Hx Hy Hxi Hyi. destruct (Hl2 x y ltac:(lia) ltac:(lia)) as [_ Hk]. rewrite Hk by naive_solver.
    apply (Hl1 x y); [lia | lia | naive_solver].
Qed.

Lemma side_loop side other : (forall x, x ∈ side -> x ∉ other) -> forall l dn p,
  grp_ok p.1 -> in_range p.1 side -> in_range p.1 other -> l ⊆ side -> dn ⊆ side ->
  side_done p dn other ->
  exists p', for_each (side_step side other) l p = Ok p' /\ srvs p'.1 = srvs p.1 /\ grp_ok p'.1 /\
    side_done p' (l ++ dn) other /\
    (forall x y, (x < N p.1)%nat -> (y < N p.1)%nat -> x ∉ side -> y ∉ side -> link_up p' x y = link_up p x y) /\
    (forall x, x ∉ side -> is_conn p'.1 x = is_conn p.1 x).
Proof.
  intros Hdis. induction l as [|i l IH]; intros dn p Hok Hs Ho Hl Hd Hdone.
  { exists p. by split_and!. }
  assert (i ∈ side) as Hi by (apply Hl, list_elem_of_here).
  destruct (side_step_spec side other i p Hok Hs Ho Hdis Hi) as (p1 & Hr & Hsrv & Hok1 & Hc & Hin & Hout & Hrest).
  assert (N p1.1 = N p.1) as HN by (unfold N; by rewrite Hsrv).
  destruct Hdone as (Hd1 & Hd2 & Hd3).
  destruct (IH (i :: dn) p1) as (p2 & Hr2 & Hsrv2 & Hok2 & Hdone2 & Hrest2 & Hc2).
  - done.
  - intros x Hx. rewrite HN. by apply Hs.
  - intros x Hx. rewrite HN. by apply Ho.
  - intros x Hx. by apply Hl, list_elem_of_further.
  - intros x [->|Hx]%elem_of_cons; [done | by apply Hd].
  - assert (forall x, x ∈ i :: dn -> is_conn p1.1 x = true) as Hc1.
    { intros x [->|Hx]%elem_of_cons; rewrite Hc; case_decide; try done. by apply Hd1. }
    assert (forall x, x ∈ i :: dn -> x ∈ side) as Hside.
    { intros x [->|Hx]%elem_of_cons; [done | by apply Hd]. }
    split_and!; [done | |].
    + intros x y Hx Hy. destruct (decide (x = i)) as [->|Hxi]; [apply Hin; auto |].
      destruct (decide (y = i)) as [->|Hyi]; [apply Hin; auto |].
      rewrite Hrest by (auto || by apply Hs, Hside). apply elem_of_cons in Hx as [?|Hx]; [done |].
      apply elem_of_cons in Hy as [?|Hy]; [done |].
      by apply Hd2.
    + intros x y Hx Hy. destruct (decide (x = i)) as [->|Hxi]; [by apply Hout |].
      assert (y <> i) as Hyi by (intros ->; by apply (Hdis i)).
      apply elem_of_cons in Hx as [?|Hx]; [done |].
      rewrite !Hrest by (auto || (by apply Ho) || by apply Hs, Hd). by apply Hd3.
  - exists p2. simpl. rewrite Hr. simpl. rewrite Hr2. split_and!; [done | congruence | done | | |].
    + destruct Hdone2 as (K1 & K2 & K3). assert (forall x, x ∈ i :: l ++ dn -> x ∈ l ++ i :: dn) as Hp.
      { intros x. rewrite !elem_of_app, !elem_of_cons, elem_of_app. tauto. }
      split_and!; intros; [apply K1 | apply K2 | apply K3]; auto.
    + intros x y Hx Hy Hxs Hys. rewrite Hrest2 by (done || lia). apply Hrest; try done; by intros ->.
    + intros x Hx. rewrite Hc2 by done. rewrite Hc. by rewrite decide_False by (by intros ->).
Qed.

Lemma Partition_sides p1 p2 p : Partition p1 p2 p = (let* p := for_each (side_step p1 p2) p1 p in
  for_each (side_step p2 p1) p2 p).
Proof. done. Qed.

(** [Partition] splits the group, whatever links were up before: for
    two disjoint sides it terminates without a failed index, marks every
    server of both sides connected, and afterwards every link inside a
    side is up and every link between the sides is down in both
    directions; links between servers on neither side are untouched. *)
Theorem Partition_isolates (p1 p2 : list nat) (p : ServerGrp * Network) :
  grp_ok p.1 -> in_range p.1 p1 -> in_range p.1 p2 -> (forall x, x ∈ p1 -> x ∉ p2) ->
  exists p', Partition p1 p2 p = Ok p' /\
    (forall i, i ∈ p1 ++ p2 -> is_conn p'.1 i = true) /\
    (forall i j, i ∈ p1 -> j ∈ p1 -> link_up p' i j = true) /\
    (forall i j, i ∈ p2 -> j ∈ p2 -> link_up p' i j = true) /\
    (forall i j, i ∈ p1 -> j ∈ p2 -> link_up p' i j = false /\ link_up p' j i = false) /\
    (forall i j, (i < N p.1)%nat -> (j < N p.1)%nat -> i ∉ p1 ++ p2 -> j ∉ p1 ++ p2 ->
       link_up p' i j = link_up p i j).
Proof.
  intros Hok H1 H2 Hdis. rewrite Partition_sides.
  assert (forall q other, side_done q [] other) as Hnil.
  { intros q other. split_and!; by intros ? ?%not_elem_of_nil || (intros ? ? ?%not_elem_of_nil). }
  destruct (side_loop p1 p2 Hdis p1 [] p) as (q & -> & Hsrv & Hokq & Hd & Hrest & Hconn);
    [done.. | set_solver | apply Hnil |].
  assert (N q.1 = N p.1) as HN by (unfold N; by rewrite Hsrv).
  destruct (side_loop p2 p1) with (l := p2) (dn := @nil nat) (p := q) as (r & Hr & Hsrv2 & Hokr & Hd2 & Hrest2 & Hconn2).
  { intros x Hx Hx1. by apply (Hdis x). }
  { done. }
  { intros i Hi. rewrite HN. by apply H2. }
  { intros i Hi. rewrite HN. by apply H1. }
  { done. }
  { set_solver. }
  { apply Hnil. }
  simpl. rewrite Hr. exists r. rewrite app_nil_r in Hd, Hd2.
  destruct Hd as (Ha & Hb & Hc). destruct Hd2 as (Ha2 & Hb2 & Hc2). split_and!; [done | | | done | |].
  - intros i [Hi|Hi]%elem_of_app; [| by apply Ha2]. rewrite Hconn2 by auto. by apply Ha.
  - intros i j Hi Hj. rewrite Hrest2; [by apply Hb | rewrite HN; by apply H1.. | by apply Hdis | by apply Hdis].
  - intros i j Hi Hj. destruct (Hc2 j i Hj Hi) as [? ?]. done.
  - intros i j Hi Hj Hni Hnj. rewrite not_elem_of_app in Hni, Hnj.
    rewrite Hrest2 by (try lia; tauto). apply Hrest; [done | done | tauto | tauto].
Qed.

(** Three servers, all links down at first. *)
Definition grp3 : ServerGrp * Network :=
  match makeSrvGrp 0 [["a0"; "a1"; "a2"]; ["b0"; "b1"; "b2"]; ["c0"; "c1"; "c2"]] MakeNetwork with
  | Ok p => (p.2, p.1)
  | Panic => (mkServerGrp 0 [] [], MakeNetwork)
  end.

Lemma Partition_isolates_witness :
  exists p', Partition [0%nat; 2%nat] [1%nat] grp3 = Ok p' /\
    (forall i, i ∈ [0%nat; 2%nat] ++ [1%nat] -> is_conn p'.1 i = true) /\
    (forall i j, i ∈ [0%nat; 2%nat] -> j ∈ [0%nat; 2%nat] -> link_up p' i j = true) /\
    (forall i j, i ∈ [1%nat] -> j ∈ [1%nat] -> link_up p' i j = true) /\
    (forall i j, i ∈ [0%nat; 2%nat] -> j ∈ [1%nat] -> link_up p' i j = false /\ link_up p' j i = false) /\
    (forall i j, (i < N grp3.1)%nat -> (j < N grp3.1)%nat -> i ∉ [0%nat; 2%nat] ++ [1%nat] ->
       j ∉ [0%nat; 2%nat] ++ [1%nat] -> link_up p' i j = link_up grp3 i j).
Proof.
  apply (Partition_isolates [0%nat; 2%nat] [1%nat] grp3).
  - split; [vm_compute; reflexivity | |].
    + apply Forall_forall. vm_compute. repeat constructor.
    + apply (bool_decide_unpack _). vm_compute. constructor.
  - unfold in_range. apply Forall_forall. vm_compute. repeat constructor.
  - unfold in_range. apply Forall_forall. vm_compute. repeat constructor.
  - set_solver.
Defined.

(** For an odd number of servers [MakePartition] gives two disjoint sides
    that cover the group; for an even one server 0 is on both sides, since
    the two tables have one slot too many. *)
Lemma MakePartition_examples :
  let g n := mkServerGrp 0 (replicate n []) [] in
  MakePartition 1 (g 5%nat) = Ok ([0%nat; 2%nat; 3%nat], [4%nat; 1%nat]) /\
  MakePartition 1 (g 4%nat) = Ok ([0%nat; 2%nat; 3%nat], [0%nat; 1%nat]).
Proof. vm_compute. done. Qed.
