(* ===== verification/Annotate.v ===== *)
(** * Annotations of a test run ([tester1/annotation.go])

    The tester records what happens during a test (checks, partitions,
    crashes) as annotations of the visualised history.  A timestamp
    ([timestamp]) is an argument of the operation that takes it. *)
From S2P Require Import Prelude.
From stdpp Require Import pretty.
#[local] Open Scope Z_scope.

(** [porcupine.Annotation], the fields the code sets; a point annotation
    leaves [End] at 0. *)
Record Ann := mkAnn {
  Tag : string; Start : Z; End : Z;
  Description : string; Details : string; BackgroundColor : string;
}.

Record Continuous := mkContinuous { start : Z; desp : string; details : string; bgcolor : string }.

Record Annotation := mkAnnotation_ {
  annotations : list Ann;
  continuous : gmap string Continuous;
  finalized : bool;
}.

Record CheckerBegin := mkCheckerBegin { ts : Z; ck_details : string }.

Record FrameworkInfo := mkFinfo {
  nservers : nat;
  connected : list bool;
  crashed : list bool;
  ckbegin : CheckerBegin;
}.

(** The package's globals [annotation] and [finfo]; [finfo] is nil until
    the first [AnnotateTest]. *)
Record World := mkWorld { annotation : Annotation; finfo : option FrameworkInfo }.

Definition COLOR_INFO : string := "#FAFAFA".
Definition COLOR_NEUTRAL : string := "#FFECB3".
Definition COLOR_SUCCESS : string := "#C8E6C9".
Definition COLOR_FAILURE : string := "#FFCDD2".
Definition COLOR_FAULT : string := "#B3E5FC".
Definition COLOR_USER : string := "#FFF176".
Definition TAG_CHECKER : string := "$ Checker".
Definition TAG_PARTITION : string := "$ Failure".
Definition TAG_INFO : string := "$ Test Info".

Definition mkAnnotation : Annotation := mkAnnotation_ [] ∅ false.

Definition mkFrameworkInfo (nservers : nat) : FrameworkInfo :=
  mkFinfo nservers (replicate nservers true) (replicate nservers false) (mkCheckerBegin 0 "").

(** ** Methods of [Annotation] *)
Definition add_ann (a : Ann) (an : Annotation) : Annotation :=
  mkAnnotation_ (annotations an ++ [a]) (continuous an) (finalized an).

(** [finalize]: the recorded annotations followed by the on-going ones,
    which [range] visits in some order [cs] of the map. *)
Definition finalize (t : Z) (cs : list (string * Continuous)) (an : Annotation) : Annotation * list Ann :=
  (mkAnnotation_ (annotations an) (continuous an) true,
   annotations an ++ ((fun p => mkAnn p.1 (start p.2) t (desp p.2) (details p.2) (bgcolor p.2)) <$> cs)).

Definition clear (an : Annotation) : Annotation := mkAnnotation_ [] ∅ false.

Definition annotatePointColor (t : Z) (tag desp details bgcolor : string) (an : Annotation) : Annotation :=
  add_ann (mkAnn tag t 0 desp details bgcolor) an.

Definition annotateIntervalColor (t : Z) (tag : string) (start : Z) (desp details bgcolor : string)
    (an : Annotation) : Annotation :=
  add_ann (mkAnn tag start t desp details bgcolor) an.

Definition annotateContinuousColor (t : Z) (tag d det bg : string) (an : Annotation) : Annotation :=
  match continuous an !! tag with
  | None =>
      mkAnnotation_ (annotations an) (<[tag := mkContinuous t d det bg]> (continuous an)) (finalized an)
  | Some cont =>
      let aprev := mkAnn tag (start cont) t (desp cont) (details cont) (bgcolor cont) in
      mkAnnotation_ (annotations an ++ [aprev]) (<[tag := mkContinuous t d det bg]> (continuous an))
        (finalized an)
  end.

(** The branch for no on-going annotation falls through: [cont] is then
    the zero value. *)
Definition annotateContinuousEnd (t : Z) (tag : string) (an : Annotation) : Annotation :=
  let cont := default (mkContinuous 0 "" "" "") (continuous an !! tag) in
  let aprev := mkAnn tag (start cont) t (desp cont) (details cont) (bgcolor cont) in
  mkAnnotation_ (annotations an ++ [aprev]) (delete tag (continuous an)) (finalized an).

(** [cleanup], for the value [enabled] of VIS_ENABLE and the outcome
    [opened] of opening the file: the annotations drawn, if any. *)
Definition cleanup (t t' : Z) (cs : list (string * Continuous)) (enabled : string) (opened : bool)
    (failed : bool) (end_ : string) (an : Annotation) : Annotation * option (list Ann) :=
  if (bool_decide (enabled = "never") || (negb failed && negb (bool_decide (enabled = "always"))) || finalized an)%bool
  then (clear an, None)
  else
    let '(an, anns) := finalize t cs an in
    match anns with
    | [] => (an, None)
    | _ =>
        let anns := anns ++ [mkAnn TAG_INFO t' 0 end_ end_ COLOR_INFO] in
        if opened then (an, Some anns) else (an, None)
    end.

(** ** The package's functions *)
Definition on_annotation (f : Annotation -> Annotation) (w : World) : World :=
  mkWorld (f (annotation w)) (finfo w).

Definition get_finfo (w : World) : Res FrameworkInfo :=
  match finfo w with Some fi => Ok fi | None => Panic end.

Definition FinalizeAnnotations (t t' : Z) (cs : list (string * Continuous)) (end_ : string) (w : World)
    : World * list Ann :=
  let p := finalize t cs (annotation w) in
  (mkWorld p.1 (finfo w), p.2 ++ [mkAnn TAG_INFO t' 0 end_ end_ COLOR_INFO]).

Definition AnnotatePointColor (t : Z) (tag desp details bgcolor : string) : World -> World :=
  on_annotation (annotatePointColor t tag desp details bgcolor).
Definition AnnotateIntervalColor (t : Z) (tag : string) (start : Z) (desp details bgcolor : string) : World -> World :=
  on_annotation (annotateIntervalColor t tag start desp details bgcolor).
Definition AnnotateContinuousColor (t : Z) (tag desp details bgcolor : string) : World -> World :=
  on_annotation (annotateContinuousColor t tag desp details bgcolor).
Definition AnnotateContinuousEnd (t : Z) (tag : string) : World -> World :=
  on_annotation (annotateContinuousEnd t tag).

Definition AnnotatePoint (t : Z) (tag desp details : string) : World -> World :=
  on_annotation (annotatePointColor t tag desp details COLOR_USER).
Definition AnnotateInterval (t : Z) (tag : string) (start : Z) (desp details : string) : World -> World :=
  on_annotation (annotateIntervalColor t tag start desp details COLOR_USER).
Definition AnnotateContinuous (t : Z) (tag desp details : string) : World -> World :=
  on_annotation (annotateContinuousColor t tag desp details COLOR_USER).
Definition AnnotateInfo (t : Z) (desp details : string) : World -> World :=
  AnnotatePointColor t TAG_INFO desp details COLOR_INFO.
Definition AnnotateInfoInterval (t start : Z) (desp details : string) : World -> World :=
  AnnotateIntervalColor t TAG_INFO start desp details COLOR_INFO.

Definition AnnotateTest (t : Z) (d : string) (nservers : nat) (w : World) : World :=
  let details := d +:+ " (" +:+ pretty nservers +:+ " servers)" in
  AnnotateInfo t details details (mkWorld (clear (annotation w)) (Some (mkFrameworkInfo nservers))).

Definition AnnotateCheckerBegin (t : Z) (details : string) (w : World) : Res World :=
  let* fi := get_finfo w in
  Ok (mkWorld (annotation w) (Some (mkFinfo (nservers fi) (connected fi) (crashed fi) (mkCheckerBegin t details)))).

(** [ckbegin] is a copy of the struct: setting its [ts] to 0 at the end
    changes nothing. *)
Definition AnnotateCheckerEnd (t : Z) (desp details color : string) (w : World) : Res World :=
  let* fi := get_finfo w in
  if decide (ts (ckbegin fi) = 0)
  then Ok (AnnotatePointColor t TAG_CHECKER desp details color w)
  else
    let d := ck_details (ckbegin fi) +:+ ": " +:+ details in
    Ok (AnnotateIntervalColor t TAG_CHECKER (ts (ckbegin fi)) desp d color w).

Definition AnnotateCheckerSuccess (t : Z) (desp details : string) : World -> Res World :=
  AnnotateCheckerEnd t desp details COLOR_SUCCESS.
Definition AnnotateCheckerFailure (t : Z) (desp details : string) : World -> Res World :=
  AnnotateCheckerEnd t desp details COLOR_FAILURE.
Definition AnnotateCheckerNeutral (t : Z) (desp details : string) : World -> Res World :=
  AnnotateCheckerEnd t desp details COLOR_NEUTRAL.

Definition SetAnnotationFinalized : World -> World :=
  on_annotation (fun an => mkAnnotation_ (annotations an) (continuous an) true).
Definition GetAnnotationFinalized (w : World) : bool := finalized (annotation w).

(** The check fails and the program is about to end. *)
Definition AnnotateCheckerFailureBeforeExit (t t1 t2 : Z) (cs : list (string * Continuous)) (enabled : string)
    (opened : bool) (desp details : string) (w : World) : Res (World * option (list Ann)) :=
  let* w := AnnotateCheckerFailure t desp details w in
  let p := cleanup t1 t2 cs enabled opened true "test failed" (annotation w) in
  Ok (mkWorld p.1 (finfo w), p.2).

(** *** Faults *)

(** [%v] of a slice of ints. *)
Definition fmt_ints (l : list nat) : string :=
  "[" +:+ String.concat " " (pretty <$> l) +:+ "]".

(** The loop of [annotateFault] over [connected]: the ids connected, the
    ids crashed and the text written. *)
Fixpoint annotateFault_loop (connected crashed : list bool) (id : nat) (conn crashes : list nat) (text : string)
    : Res (list nat * list nat * string) :=
  match connected with
  | [] => Ok (conn, crashes, text)
  | c :: connected =>
      match crashed !! id with
      | None => Panic
      | Some true => annotateFault_loop connected crashed (S id) conn (crashes ++ [id]) text
      | Some false =>
          if (c : bool) then annotateFault_loop connected crashed (S id) (conn ++ [id]) crashes text
          else annotateFault_loop connected crashed (S id) conn crashes (text +:+ "[" +:+ pretty id +:+ "] ")
      end
  end.

Definition annotateFault (t : Z) (fi : FrameworkInfo) (w : World) : Res World :=
  if decide (connected fi = replicate (nservers fi) true /\ crashed fi = replicate (nservers fi) false)
  then Ok (AnnotateContinuousEnd t TAG_PARTITION w)
  else
    let* '(conn, crashes, text) := annotateFault_loop (connected fi) (crashed fi) 0 [] [] "partition = " in
    let text := if decide (0 < length conn)%nat then text +:+ fmt_ints conn else text in
    let text := if decide (0 < length crashes)%nat then text +:+ " / crash = " +:+ fmt_ints crashes else text in
    Ok (AnnotateContinuousColor t TAG_PARTITION text text COLOR_FAULT w).

(** Go's [copy]: the common prefix is overwritten. *)
Definition copy {A} (dst src : list A) : list A := take (length dst) src ++ drop (length src) dst.

Definition AnnotateConnection (t : Z) (connection : list bool) (w : World) : Res World :=
  let* fi := get_finfo w in
  if decide (connected fi = connection) then Ok w
  else
    let fi := mkFinfo (nservers fi) (copy (connected fi) connection) (crashed fi) (ckbegin fi) in
    annotateFault t fi (mkWorld (annotation w) (Some fi)).

Definition AnnotateTwoPartitions (t : Z) (p1 p2 : list nat) (w : World) : World :=
  let text := "partition = " +:+ fmt_ints p1 +:+ " " +:+ fmt_ints p2 in
  AnnotateContinuousColor t TAG_PARTITION text text COLOR_FAULT w.

Definition AnnotateClearFailure (t : Z) (w : World) : Res World :=
  let* fi := get_finfo w in
  let fi := mkFinfo (nservers fi) ((fun _ => true) <$> connected fi) ((fun _ => false) <$> crashed fi) (ckbegin fi) in
  Ok (AnnotateContinuousEnd t TAG_PARTITION (mkWorld (annotation w) (Some fi))).

(** The loops of [AnnotateShutdown] ([b] true) and [AnnotateRestart]
    ([b] false) over the servers. *)
Fixpoint set_crashed (b : bool) (servers : list nat) (crashed : list bool) (changed : bool) : Res (list bool * bool) :=
  match servers with
  | [] => Ok (crashed, changed)
  | id :: servers =>
      match crashed !! id with
      | None => Panic
      | Some c => set_crashed b servers (<[id := b]> crashed) (changed || negb (eqb c b))
      end
  end.

Definition annotate_crashed (b : bool) (t : Z) (servers : list nat) (w : World) : Res World :=
  let* fi := get_finfo w in
  let* '(cr, changed) := set_crashed b servers (crashed fi) false in
  let fi := mkFinfo (nservers fi) (connected fi) cr (ckbegin fi) in
  let w := mkWorld (annotation w) (Some fi) in
  if (changed : bool) then annotateFault t fi w else Ok w.

Definition AnnotateShutdown : Z -> list nat -> World -> Res World := annotate_crashed true.
Definition AnnotateRestart : Z -> list nat -> World -> Res World := annotate_crashed false.

Definition AnnotateShutdownAll (t : Z) (w : World) : Res World :=
  let* fi := get_finfo w in AnnotateShutdown t (seq 0 (nservers fi)) w.
Definition AnnotateRestartAll (t : Z) (w : World) : Res World :=
  let* fi := get_finfo w in AnnotateRestart t (seq 0 (nservers fi)) w.

(** ** The timeline of a tag *)

(** A call of [annotateContinuousColor] ([Some]) or of
    [annotateContinuousEnd] ([None]). *)
Record Op := mkOp { op_time : Z; op_tag : string; op_text : option (string * string * string) }.

Definition run_op (o : Op) (an : Annotation) : Annotation :=
  match op_text o with
  | Some (d, det, bg) => annotateContinuousColor (op_time o) (op_tag o) d det bg an
  | None => annotateContinuousEnd (op_time o) (op_tag o) an
  end.

(** The newest call comes first. *)
Fixpoint run (ops : list Op) (an : Annotation) : Annotation :=
  match ops with [] => an | o :: ops => run_op o (run ops an) end.

(** What the calls so far say is the case for [tag] at time [x]. *)
Fixpoint active (tag : string) (ops : list Op) (x : Z) : option (string * string * string) :=
  match ops with
  | [] => None
  | o :: ops => if decide (op_tag o = tag /\ op_time o <= x) then op_text o else active tag ops x
  end.

(** The last call for [tag]. *)
Fixpoint latest (tag : string) (ops : list Op) : option Op :=
  match ops with
  | [] => None
  | o :: ops => if decide (op_tag o = tag) then Some o else latest tag ops
  end.

Definition text_of (a : Ann) : string * string * string := (Description a, Details a, BackgroundColor a).

Definition covers (l : list Ann) (tag : string) (x : Z) (text : string * string * string) : Prop :=
  exists a, a ∈ l /\ Tag a = tag /\ Start a <= x < End a /\ text_of a = text.

(** Timestamps do not decrease, and only an on-going annotation is ended. *)
Fixpoint timed (ops : list Op) : Prop :=
  match ops with
  | [] => True
  | o :: ops => (forall o', latest (op_tag o) ops = Some o' -> op_time o' <= op_time o) /\
      (op_text o = None -> exists o', latest (op_tag o) ops = Some o' /\ op_text o' <> None) /\ timed ops
  end.

Definition cont_of (o : Op) : option Continuous :=
  match op_text o with Some (d, det, bg) => Some (mkContinuous (op_time o) d det bg) | None => None end.

Definition text_of_cont (c : Continuous) : string * string * string := (desp c, details c, bgcolor c).

Lemma active_latest tag ops x o : latest tag ops = Some o -> op_time o <= x -> active tag ops x = op_text o.
Proof.
  induction ops as [|o' ops IH]; simpl; [done |]. intros Hl Hx.
  destruct (decide (op_tag o' = tag)) as [Ht|Ht].
  - simplify_eq. by rewrite decide_True.
  - rewrite decide_False by tauto. by apply IH.
Qed.

Lemma active_none tag ops x : latest tag ops = None -> active tag ops x = None.
Proof.
  induction ops as [|o' ops IH]; simpl; [done |]. destruct (decide (op_tag o' = tag)) as [Ht|Ht]; [done |].
  intros H. rewrite decide_False by tauto. by apply IH.
Qed.

Lemma cont_of_Some o c : cont_of o = Some c <-> op_text o = Some (text_of_cont c) /\ op_time o = start c.
Proof.
  unfold cont_of, text_of_cont. destruct (op_text o) as [[[d det] bg]|]; [| naive_solver].
  destruct c; simpl. naive_solver.
Qed.

Lemma covers_snoc l a tag x text :
  covers (l ++ [a]) tag x text <-> covers l tag x text \/ (Tag a = tag /\ Start a <= x < End a /\ text_of a = text).
Proof.
  unfold covers. split.
  - intros (b & [Hb|Hb]%elem_of_app & H); [left; by exists b | apply list_elem_of_singleton in Hb as ->; by right].
  - intros [(b & Hb & H)|H]; [exists b | exists a]; (split; [apply elem_of_app; auto | done]).
    right. by apply list_elem_of_singleton.
Qed.

(** One call, whichever it is: the on-going annotation of the tag becomes
    an interval, and the new one, if any, is on-going. *)
Lemma run_op_spec o an : (op_text o = None -> is_Some (continuous an !! op_tag o)) ->
  continuous (run_op o an) = partial_alter (fun _ => cont_of o) (op_tag o) (continuous an) /\
  annotations (run_op o an) = annotations an ++
    match continuous an !! op_tag o with
    | Some c => [mkAnn (op_tag o) (start c) (op_time o) (desp c) (details c) (bgcolor c)]
    | None => []
    end.
Proof.
  intros H. unfold run_op, cont_of. destruct (op_text o) as [[[d det] bg]|].
  - unfold annotateContinuousColor. destruct (continuous an !! op_tag o); simpl; [done |].
    by rewrite app_nil_r.
  - unfold annotateContinuousEnd. destruct (H eq_refl) as [c Hc]. by rewrite Hc.
Qed.

(** What a tag's annotations cover when the on-going one, left by the
    last call [o'], is concretised at time [t]. *)
Lemma covers_concretised tag ops l o' t :
  latest tag ops = Some o' -> op_time o' <= t ->
  (forall x text, covers l tag x text <->
     active tag ops x = Some text /\ exists o, latest tag ops = Some o /\ x < op_time o) ->
  forall x text,
    covers (l ++ match cont_of o' with
                 | Some c => [mkAnn tag (start c) t (desp c) (details c) (bgcolor c)]
                 | None => []
                 end) tag x text <->
    x < t /\ active tag ops x = Some text.
Proof.
  intros Hl Hle Ha x text. setoid_rewrite Hl in Ha.
  assert (op_time o' <= x -> active tag ops x = op_text o') as Hact by (intros; by eapply active_latest).
  destruct (cont_of o') as [c|] eqn:Ec.
  - apply cont_of_Some in Ec as [Htx Hst]. rewrite covers_snoc, Ha, <- Hst. simpl.
    change (text_of _) with (text_of_cont c). split.
    + intros [(Hac & ? & [= <-] & ?) | (_ & Hr & <-)]; [split; [lia | done] |].
      split; [lia |]. rewrite Hact by lia. done.
    + intros [Hx Hac]. destruct (decide (x < op_time o')); [left; eauto | right].
      rewrite Hact, Htx in Hac by lia. injection Hac as <-. split_and!; [done | lia.. | done].
  - rewrite app_nil_r, Ha. split.
    + intros (Hac & ? & [= <-] & ?). split; [lia | done].
    + intros [Hx Hac]. split; [done |]. exists o'. split; [done |].
      destruct (decide (x < op_time o')); [done |]. rewrite Hact in Hac by lia.
      unfold cont_of in Ec. rewrite Hac in Ec. by destruct text as [[? ?] ?].
Qed.

Lemma run_spec ops : timed ops ->
  (forall tag, continuous (run ops mkAnnotation) !! tag = latest tag ops ≫= cont_of) /\
  (forall tag x text, covers (annotations (run ops mkAnnotation)) tag x text <->
     active tag ops x = Some text /\ exists o, latest tag ops = Some o /\ x < op_time o).
Proof.
  induction ops as [|o ops IH].
  { intros _. split; [done |]. intros tag x text. simpl. split; [| naive_solver].
    intros (a & Ha & _). by apply not_elem_of_nil in Ha. }
  cbn [timed run]. intros (Htime & Hend & Hok). destruct (IH Hok) as [Hc Ha].
  destruct (run_op_spec o (run ops mkAnnotation)) as [-> ->].
  { intros Hn. rewrite Hc. destruct (Hend Hn) as (o' & -> & Ho'). simpl.
    unfold cont_of. destruct (op_text o') as [[[? ?] ?]|]; [eauto | done]. }
  split; intros tag; cbn [latest active].
  - destruct (decide (op_tag o = tag)) as [<-|Ht].
    + by rewrite lookup_partial_alter_eq.
    + rewrite lookup_partial_alter_ne by done. apply Hc.
  - intros x text. rewrite Hc. destruct (decide (op_tag o = tag)) as [<-|Ht].
    + assert (covers (annotations (run ops mkAnnotation) ++
          match latest (op_tag o) ops ≫= cont_of with
          | Some c => [mkAnn (op_tag o) (start c) (op_time o) (desp c) (details c) (bgcolor c)]
          | None => []
          end) (op_tag o) x text <-> x < op_time o /\ active (op_tag o) ops x = Some text) as ->.
      { destruct (latest (op_tag o) ops) as [o'|] eqn:Hl; simpl.
        - eapply covers_concretised; [done | by apply Htime | intros; apply Ha].
        - rewrite app_nil_r, Ha, (active_none _ _ _ Hl). naive_solver. }
      destruct (decide (op_tag o = op_tag o /\ op_time o <= x)) as [[_ ?]|Hx].
      * split; [lia | intros (_ & ? & [= <-] & ?); lia].
      * split; [intros [? ?]; split; [done | eauto] | intros (? & ? & [= <-] & ?); done].
    + rewrite (decide_False (P := _ /\ _)) by tauto. rewrite <- Ha.
      destruct (latest (op_tag o) ops ≫= cont_of); [| by rewrite app_nil_r].
      rewrite covers_snoc. naive_solver.
Qed.

(** The continuous annotations of a test tell its timeline: after any
    sequence of calls of [annotateContinuousColor] and
    [annotateContinuousEnd] with timestamps that do not decrease, in which
    only an on-going annotation is ended, the annotations that [finalize]
    returns at a time [t] not before the last call cover, for each tag and
    at each time before [t], exactly what the most recent call for this
    tag said; nothing is covered before the first call or after an end. *)
Theorem continuous_timeline (ops : list Op) (t : Z) (cs : list (string * Continuous)) :
  timed ops -> (forall tag o, latest tag ops = Some o -> op_time o <= t) ->
  cs ≡ₚ map_to_list (continuous (run ops mkAnnotation)) ->
  forall tag x text, x < t ->
    (covers (finalize t cs (run ops mkAnnotation)).2 tag x text <-> active tag ops x = Some text).
Proof.
  intros Hok Ht Hcs tag x text Hx. destruct (run_spec ops Hok) as [Hc Ha].
  assert (forall k c, (k, c) ∈ cs <-> latest k ops ≫= cont_of = Some c) as Hin.
  { intros k c. by rewrite Hcs, elem_of_map_to_list, Hc. }
  split.
  - intros (a & Hel & Htag & Hr & Htx). simpl in Hel. apply elem_of_app in Hel as [Hel|Hel].
    + apply (Ha tag x text). exists a. done.
    + apply list_elem_of_fmap in Hel as ([k c] & -> & Hel). simpl in *. subst k.
      apply Hin in Hel. destruct (latest tag ops) as [o|] eqn:Hl; [| done]. simpl in Hel.
      apply cont_of_Some in Hel as [Hot Hst]. rewrite (active_latest _ _ _ _ Hl) by lia. rewrite Hot. by rewrite <- Htx.
  - intros Hact. destruct (latest tag ops) as [o|] eqn:Hl; [| by rewrite active_none in Hact].
    destruct (decide (x < op_time o)) as [Hlt|Hge].
    + destruct (proj2 (Ha tag x text)) as (a & Hel & Hrest); [split; [done | eauto] |].
      exists a. split; [apply elem_of_app; by left | done].
    + rewrite (active_latest _ _ _ _ Hl) in Hact by lia. destruct text as [[d det] bg].
      exists (mkAnn tag (op_time o) t d det bg). simpl. split_and!; [| done | lia | done | done].
      apply elem_of_app. right. apply list_elem_of_fmap. exists (tag, mkContinuous (op_time o) d det bg).
      split; [done |]. apply Hin. rewrite Hl. simpl. unfold cont_of. by rewrite Hact.
Qed.

(** A partition from 10 to 20, another from 20 to 30, and a check that is
    still going on. *)
Definition demo_ops : list Op :=
  [mkOp 30 TAG_PARTITION None; mkOp 25 TAG_CHECKER (Some ("c", "c", "w"));
   mkOp 20 TAG_PARTITION (Some ("b", "b", "w")); mkOp 10 TAG_PARTITION (Some ("a", "a", "w"))].

Lemma continuous_timeline_witness :
  covers (finalize 40 [(TAG_CHECKER, mkContinuous 25 "c" "c" "w")] (run demo_ops mkAnnotation)).2
    TAG_PARTITION 20 ("b", "b", "w") <-> active TAG_PARTITION demo_ops 20 = Some ("b", "b", "w").
Proof.
  apply (continuous_timeline demo_ops 40).
  - unfold demo_ops, TAG_PARTITION, TAG_CHECKER. simpl. split_and!; try done; intros; simplify_eq; simpl; try lia.
    by eexists.
  - intros tag o. unfold demo_ops. simpl. repeat case_decide; intros; simplify_eq; simpl; lia.
  - replace (map_to_list _) with [(TAG_CHECKER, mkContinuous 25 "c" "c" "w")] by (vm_compute; reflexivity). done.
  - lia.
Defined.

(** Ending a continuous annotation that does not exist records one
    without text that spans all of time up to now; [AnnotateClearFailure]
    does so whenever there was no failure. *)
Lemma ContinuousEnd_records_nothing_ongoing :
  exists an, AnnotateTest 1000 "t" 1 (mkWorld mkAnnotation None) = an /\
    (forall an', AnnotateClearFailure 2000 an = Ok an' ->
       covers (annotations (annotation an')) TAG_PARTITION 0 ("", "", "") /\
       active TAG_PARTITION [] 0 = None).
Proof.
  eexists. split; [done |]. intros an' H. injection H as <-. split; [| done].
  exists (mkAnn TAG_PARTITION 0 2000 "" "" ""). vm_compute. split_and!; try done. repeat constructor.
Qed.

(** A check that ends without a [AnnotateCheckerBegin] of its own is drawn
    from the begin of the previous check, which has ended. *)
Lemma CheckerEnd_keeps_begin t t1 t2 d d1 x1 d2 x2 c1 c2 w w1 w2 w3 : t <> 0 ->
  AnnotateCheckerBegin t d w = Ok w1 -> AnnotateCheckerEnd t1 d1 x1 c1 w1 = Ok w2 ->
  AnnotateCheckerEnd t2 d2 x2 c2 w2 = Ok w3 ->
  annotations (annotation w3) = annotations (annotation w) ++
    [mkAnn TAG_CHECKER t t1 d1 (d +:+ ": " +:+ x1) c1; mkAnn TAG_CHECKER t t2 d2 (d +:+ ": " +:+ x2) c2].
Proof.
  intros Ht. unfold AnnotateCheckerBegin, AnnotateCheckerEnd, get_finfo.
  destruct w as [an [fi|]]; simpl; [| done]. intros [= <-]. simpl. rewrite !decide_False by done.
  intros [= <-]. simpl. rewrite !decide_False by done. intros [= <-]. simpl. by rewrite <- app_assoc.
Qed.
