(* ===== verification/KvHistory.v ===== *)
(** * The linearizability check of the tests ([kvtest1/porcupine.go])

    The tests record the calls of all clients in one log and let porcupine
    compare it with the model of [models1/kv.go].  The file models the
    check and joins it with the executions of [KvCluster]: the log of any
    execution under the conditions of [KvCluster] passes, provided that
    every put has returned and names a version that was known when it was
    called, as the clients of the tests do. *)
From stdpp Require Import sorting.
From S2P Require Import Prelude Annotate.
From S2P Require Import RaftNode RaftCluster Rsm RsmCluster RsmRun RsmSafety Kv KvClerk KvModel KvCluster.
Import Rpc.
#[local] Open Scope Z_scope.

(** ** What porcupine decides *)

(** Nothing comes before an operation that had returned when it was called. *)
Fixpoint in_time (ops : list Operation) : bool :=
  match ops with
  | [] => true
  | a :: ops => forallb (fun b => negb (bool_decide (op_Return b < op_Call a))) ops && in_time ops
  end.

Definition linearization (ops l : list Operation) : Prop :=
  l ≡ₚ ops /\ KvModel.accepts KvModel.Init l = true /\ in_time l = true.

(** The partitions of a history are independent. *)
Definition linearizable (history : list Operation) : Prop :=
  forall ops, ops ∈ KvModel.Partition history -> exists l, linearization ops l.

(** [porcupine.CheckResult]. *)
Inductive CheckResult := Unknown | Legal | Illegal.

#[export] Instance CheckResult_eq_dec : EqDecision CheckResult.
Proof. solve_decision. Defined.

Definition linearizabilityCheckTimeout : Z := 10 ^ 9.

Section Check.
(** [porcupine.CheckOperationsVerbose] of the model, and what it promises:
    it finds a history illegal only if it has no linearization. *)
Variable CheckOperations : list Operation -> Z -> CheckResult.
Definition sound_checker : Prop := forall history nsec, CheckOperations history nsec = Illegal -> ~ linearizable history.

(** [checkPorcupine]: the environment variable [VIS_ENABLE], whether the
    file for the drawing could be opened, and two readings of the clock;
    [t.Fatal] is [Panic].  The annotations returned are those drawn. *)
Definition checkPorcupine (enabled : string) (opened : bool) (t t' : Z) (cs : list (string * Continuous))
    (opLog : OpLog.log) (nsec : Z) (w : Annotate.World) : Annotate.World * option (list Ann) * Res unit :=
  let res := CheckOperations (OpLog.Read opLog) nsec in
  if decide (res = Illegal) then
    if negb opened then (w, None, Panic)
    else if negb (bool_decide (enabled = "never")) then
      let '(w, annotations) := FinalizeAnnotations t t' cs "test failed" w in (w, Some annotations, Panic)
    else (w, None, Panic)
  else if bool_decide (enabled = "always") && GetAnnotationFinalized w then
    if negb opened then (w, None, Ok tt)
    else
      let '(w, annotations) := FinalizeAnnotations t t' cs "test passed" w in (w, Some annotations, Ok tt)
  else (w, None, Ok tt).

Definition CheckPorcupineT (enabled : string) opened t t' cs (oplog : OpLog.log) (nsec : Z) :=
  checkPorcupine enabled opened t t' cs oplog nsec.
Definition CheckPorcupine (enabled : string) opened t t' cs (oplog : OpLog.log) :=
  CheckPorcupineT enabled opened t t' cs oplog linearizabilityCheckTimeout.

Lemma checkPorcupine_passes enabled opened t t' cs oplog nsec w :
  sound_checker -> linearizable oplog -> (checkPorcupine enabled opened t t' cs oplog nsec w).2 = Ok tt.
Proof.
  intros Hs Hl. unfold checkPorcupine. rewrite decide_False; [by repeat case_match |].
  intros E. by apply (Hs _ _ E).
Qed.
End Check.

(** A checker that tries every order. *)
Definition try_orders (history : list Operation) (nsec : Z) : CheckResult :=
  if forallb (fun ops => existsb (fun l => KvModel.accepts KvModel.Init l && in_time l) (permutations ops))
       (KvModel.Partition history)
  then Legal else Illegal.

Lemma try_orders_iff history nsec : try_orders history nsec = Legal <-> linearizable history.
Proof.
  unfold try_orders, linearizable. transitivity (forallb (fun ops => existsb (fun l => KvModel.accepts KvModel.Init l && in_time l)
    (permutations ops)) (KvModel.Partition history) = true); [by destruct (forallb _ _) |].
  rewrite forallb_forall. setoid_rewrite existsb_exists. setoid_rewrite <- list_elem_of_In. split.
  - intros H ops Hops. destruct (H ops Hops) as (l & Hl & [Ha Ht]%andb_true_iff). exists l. split_and!; [| done..].
    by apply permutations_Permutation in Hl.
  - intros H ops Hops. destruct (H ops Hops) as (l & Hp & Ha & Ht). exists l. split; [by apply permutations_Permutation |].
    by rewrite Ha, Ht.
Qed.

Lemma try_orders_sound : sound_checker try_orders.
Proof. intros history nsec E Hl. apply (try_orders_iff _ nsec) in Hl. congruence. Qed.

(** ** The log of an execution *)
Section Log.
(** The readings of the clock before and after each call, and the client
    that made it. *)
Variables (start finish cli : nat -> Z).

(** The recorder appends a call when it has returned. *)
Definition log_call (oplog : option OpLog.log) (x : nat * COp * CRes) : option OpLog.log :=
  match x with
  | (c, CGet key, RGet r) => OpLog.Get (start c) (finish c) key (cli c) r oplog
  | (c, CPut args, RPut err) =>
      OpLog.Put (start c) (finish c) (pa_Key args) (pa_Value args) (pa_Version args) (cli c) err oplog
  | _ => oplog
  end.

Record recorded (t : list event) (l : OpLog.log) : Prop := mkRecorded {
  rec_calls : exists calls : list (nat * COp * CRes), NoDup calls.*1.*1 /\
    (forall c o res, (c, o, res) ∈ calls <-> CInvoke c o ∈ t /\ exists sid, CReturn c sid res ∈ t) /\
    foldl log_call (Some []) calls = Some l;
  rec_clock : exists now : nat -> Z, (forall i j, (i <= j)%nat -> now i <= now j) /\
    (forall t2 c o t1, t = t2 ++ CInvoke c o :: t1 -> start c <= now (length t1)) /\
    (forall t2 c sid res t1, t = t2 ++ CReturn c sid res :: t1 -> now (length t1) <= finish c);
}.
End Log.

(** The version is that of a missing key, or some call returned it: a get
    of the key, or a put that made it. *)
Definition known (t : list event) (key : string) (v : Z) : Prop :=
  v = 0 \/
  (exists c sid val err, CInvoke c (CGet key) ∈ t /\ CReturn c sid (RGet (val, v, err)) ∈ t) \/
  (exists c sid args, CInvoke c (CPut args) ∈ t /\ CReturn c sid (RPut OK) ∈ t /\ pa_Key args = key /\
     v = pa_Version args + 1).

Definition informed (t : list event) : Prop :=
  forall t2 c args t1, t = t2 ++ CInvoke c (CPut args) :: t1 -> known t1 (pa_Key args) (pa_Version args).

Definition puts_returned (t : list event) : Prop :=
  forall c args, CInvoke c (CPut args) ∈ t -> exists sid res, CReturn c sid res ∈ t.

(** ** Where the calls take place *)
Section Places.
Context `{!Codec kv_map} `{!Codec (RaftState KvOp)}.
Context (n : Z) (cmd_of : Z -> Kvraft.Req) (srvs : list string) (w : KvCluster.World) (ops : list KvOp).
Context (I : world_inv n cmd_of srvs w).
Context (L : linearized (sm := kv_machine) ∅ (history (w_sys w)) ops).
Notation t := (w_trace w).

Definition attempt (c : nat) (o : COp) (k : nat) : Prop :=
  exists sid i op x l, Sent c o sid i ∈ t /\ Sys (Invoked sid op x l) ∈ t /\ ops !! k = Some op /\
    Rsm.Command_ op = req_of o.

Definition answered (c : nat) (o : COp) (res : CRes) (k : nat) : Prop :=
  exists sid i op x l, CReturn c sid res ∈ t /\ Sent c o sid i ∈ t /\ Sys (Invoked sid op x l) ∈ t /\
    ops !! k = Some op /\ Rsm.Command_ op = req_of o /\ explains o (Kvraft.DoOp (req_of o) (kv_at ops k)).2 res.

(** A call takes place where an attempt of it changed the register, and if
    none did where it was answered. *)
Definition takes_place (c : nat) (o : COp) (res : CRes) (k : nat) : Prop :=
  attempt c o k /\
  ((exists args, effective ops k args) \/ answered c o res k /\ forall k' args, attempt c o k' -> ~ effective ops k' args).

Lemma answered_attempt c o res k : answered c o res k -> attempt c o k.
Proof. intros (sid & i & op & x & l & _ & ? & ? & ? & ? & _). by exists sid, i, op, x, l. Qed.

Lemma attempt_apart c o k c' o' : attempt c o k -> attempt c' o' k -> c = c' /\ o = o'.
Proof.
  intros (sid & i & op & x & l & Hs & Hi & Hk & _) (sid' & i' & op' & x' & l' & Hs' & Hi' & Hk' & _).
  assert (op' = op) as -> by congruence.
  assert (sid = sid') as <- by (by eapply (invoked_op _ (wi_trace _ _ _ _ I))).
  by destruct (sent_once _ (wi_trace _ _ _ _ I) _ _ _ _ _ _ _ Hs Hs') as (-> & -> & _).
Qed.

Lemma op_attempt k op : ops !! k = Some op -> exists c o, attempt c o k.
Proof.
  intros Hk. destruct (op_sent n cmd_of srvs w ops I L op) as (c & o & sid & i & x & l & Hs & Hi & Ho & _);
    [by eapply list_elem_of_lookup_2 |]. by exists c, o, sid, i, op, x, l.
Qed.

Lemma attempt_dec c o k : attempt c o k \/ ~ attempt c o k.
Proof.
  destruct (ops !! k) as [op|] eqn:Hk; [| right; intros (? & ? & ? & ? & ? & _ & _ & ? & _); congruence].
  destruct (op_attempt k op Hk) as (c' & o' & Ha).
  destruct (decide (c' = c /\ o' = o)) as [[-> ->]|Hne]; [by left | right].
  intros Ha'. apply Hne. by eapply attempt_apart.
Qed.

Lemma attempt_effective c o k args : attempt c o k -> effective ops k args -> o = CPut args.
Proof.
  intros (sid & i & op & x & l & _ & _ & Hk & Ho) (op' & Hk' & Hc & _).
  assert (op' = op) as -> by congruence. rewrite Ho in Hc. destruct o; [done | by injection Hc as ->].
Qed.

Lemma attempt_at c args k : attempt c (CPut args) k ->
  effective ops k args \/ version_of (kv_at ops k) (pa_Key args) <> pa_Version args.
Proof.
  intros (sid & i & op & x & l & _ & _ & Hk & Ho).
  destruct (decide (version_of (kv_at ops k) (pa_Key args) = pa_Version args)) as [E|]; [left | by right]. by exists op.
Qed.

Lemma effective_search c o :
  (exists k args, attempt c o k /\ effective ops k args) \/ forall k args, attempt c o k -> ~ effective ops k args.
Proof.
  destruct o as [key|args]; [right; intros k args Ha He; by pose proof (attempt_effective _ _ _ _ Ha He) |].
  enough (forall m, (exists k, attempt c (CPut args) k /\ effective ops k args) \/
    forall k, (k < m)%nat -> attempt c (CPut args) k -> ~ effective ops k args) as Hm.
  { destruct (Hm (length ops)) as [[k Hk]|Hno]; [left; by exists k, args | right].
    intros k args' Ha He. pose proof (attempt_effective _ _ _ _ Ha He) as [= <-].
    destruct He as (op & Hk & He). eapply (Hno k); [by eapply lookup_lt_Some | done | by exists op]. }
  induction m as [|m [?|IH]]; [by right; lia | by left |].
  destruct (attempt_dec c (CPut args) m) as [Ha|Ha].
  2: { right. intros k Hk Hka. destruct (decide (k = m)) as [->|]; [done |]. apply IH; [lia | done]. }
  destruct (attempt_at _ _ _ Ha) as [He|Hv]; [left; eauto | right].
  intros k Hk Hka. destruct (decide (k = m)) as [->|]; [by intros (? & _ & _ & ?) |]. apply IH; [lia | done].
Qed.

Lemma returned_answered c o sid res : CInvoke c o ∈ t -> CReturn c sid res ∈ t -> exists k, answered c o res k.
Proof.
  intros Hc Hr. destruct (return_place n cmd_of srvs w ops I L _ _ _ Hr)
    as (o' & i & op & x & l & k & Hs & Hi & Ho & _ & Hk & He & _).
  assert (o' = o) as ->.
  { eapply (invoke_once _ (wi_trace _ _ _ _ I) c); [| done]. by eapply sent_invoked; [apply I |]. }
  by exists k, sid, i, op, x, l.
Qed.

Lemma takes_place_exists c o sid res : CInvoke c o ∈ t -> CReturn c sid res ∈ t -> exists k, takes_place c o res k.
Proof.
  intros Hc Hr. destruct (effective_search c o) as [(k & args & Ha & He)|Hno].
  - exists k. split; [done | left; by exists args].
  - destruct (returned_answered _ _ _ _ Hc Hr) as [k Hk]. exists k. split; [by eapply answered_attempt | by right].
Qed.

(** What a put reports about the place that it takes. *)
Lemma put_reports c args sid res k : CReturn c sid res ∈ t -> takes_place c (CPut args) res k ->
  exists err, res = RPut err /\
    (version_of (kv_at ops k) (pa_Key args) = pa_Version args /\ (err = OK \/ err = ErrMaybe) \/
     version_of (kv_at ops k) (pa_Key args) <> pa_Version args /\ (err = ErrVersion \/ err = ErrMaybe)).
Proof.
  intros Hr [Ha Hp].
  destruct (returned_answered c (CPut args) sid res) as [p Hans]; [| done |].
  { destruct Ha as (? & ? & ? & ? & ? & Hs & _). by eapply sent_invoked; [apply I |]. }
  pose proof Hans as (sid' & i & op & x & l & Hr' & Hs & Hi & Hk & Ho & He).
  destruct res as [|err]; [done |]. exists err. split; [done |]. destruct He as (e & Ee & He).
  change (req_of (CPut args)) with (Kvraft.ReqPut args) in Ee.
  destruct (put_answer_at ops p args) as [Hok _].
  assert (err = OK -> version_of (kv_at ops p) (pa_Key args) = pa_Version args) as H1.
  { intros ->. apply Hok. destruct He as [[_ ->]|[[? _]|[? _]]]; done. }
  assert (err <> OK -> version_of (kv_at ops p) (pa_Key args) <> pa_Version args) as H2.
  { intros Hne Hv%Hok. rewrite Ee in Hv. injection Hv as ->. by destruct He as [[-> _]|[[_ ?]|[_ ?]]]. }
  destruct Hp as [[args' Hk']|[Hk' Hno]].
  - pose proof (attempt_effective _ _ _ _ Ha Hk') as [= <-].
    left. split; [by destruct Hk' as (? & _ & _ & ?) |].
    destruct He as [[-> _]|[[-> _]|[-> _]]]; [by left | | by right]. exfalso.
    assert (k = p) as ->; [| by apply H2; [| destruct Hk' as (? & _ & _ & ?)]].
    destruct Ha as (s1 & i1 & op1 & x1 & l1 & Hs1 & Hi1 & Hk1 & Ho1).
    apply (point_once n cmd_of srvs w ops I L c).
    + exists (CPut args), s1, i1, op1, x1, l1. split_and!; [done.. |]. left. by exists args.
    + exists (CPut args), sid', i, op, x, l. split_and!; [done.. |]. right. by exists (RPut ErrVersion).
  - right. assert (version_of (kv_at ops k) (pa_Key args) <> pa_Version args) as Hne.
    { destruct (attempt_at _ _ _ Ha) as [He'|]; [| done]. by destruct (Hno _ _ Ha He'). }
    split; [done |]. destruct He as [[-> _]|[[-> _]|[-> _]]]; [| by left | by right]. exfalso.
    destruct (attempt_at c args p) as [He'|Hv]; [by eapply answered_attempt | | by apply Hv, H1].
    by eapply Hno; [eapply answered_attempt |].
Qed.

Context (Hinf : informed t).
Notation in_range := (ops_in_range n cmd_of srvs w ops I L).

Lemma version_reached c args k : attempt c (CPut args) k -> pa_Version args <= version_of (kv_at ops k) (pa_Key args).
Proof.
  intros Ha. pose proof Ha as (sid & i & op & x & l & Hs & Hi & Hk & Ho).
  assert (CInvoke c (CPut args) ∈ t) as Hc by (by eapply sent_invoked; [apply I |]).
  apply list_elem_of_split in Hc as (t2 & t1 & Ht).
  assert (forall e, e ∈ t1 -> e ∈ t) as Hsub by (intros e ?; rewrite Ht; apply elem_of_app; right; by right).
  assert (forall a o sid' res, CInvoke a o ∈ t1 -> CReturn a sid' res ∈ t1 -> exists p,
    explains o (Kvraft.DoOp (req_of o) (kv_at ops p)).2 res /\ (p < k)%nat /\ attempt a o p) as Hbefore.
  { intros a o sid' res Hca Hra.
    destruct (attempt_after n cmd_of srvs w ops I L _ _ _ _ _ _ _ _ _ _ _ _ _ _ Ht Hra Hs Hi Hk)
      as (oa & ia & opA & xa & la & p & HsA & HiA & HoA & HkA & HeA & Hlt).
    assert (oa = o) as ->.
    { eapply (invoke_once _ (wi_trace _ _ _ _ I) a); [by eapply sent_invoked; [apply I |] | by apply Hsub]. }
    exists p. split_and!; [done.. |]. by exists sid', ia, opA, xa, la. }
  destruct (Hinf _ _ _ _ Ht) as [->|[(a & sid' & val & err & Hca & Hra)|(a & sid' & args' & Hca & Hra & <- & ->)]].
  - pose proof (version_mono ops in_range 0 k (pa_Key args) ltac:(lia)) as Hm.
    change (version_of (kv_at ops 0) (pa_Key args)) with 0 in Hm. lia.
  - destruct (Hbefore _ _ _ _ Hca Hra) as (p & He & Hlt & _). simpl in He.
    pose proof (version_mono ops in_range p k (pa_Key args) ltac:(lia)) as Hm.
    enough (pa_Version args = version_of (kv_at ops p) (pa_Key args)) by lia.
    unfold version_of. destruct (kv_at ops p !! pa_Key args) as [v|]; by injection He.
  - destruct (Hbefore _ _ _ _ Hca Hra) as (p & He & Hlt & Hp).
    destruct (attempt_at _ _ _ Hp) as [Heff|Hv].
    + pose proof (effective_step ops in_range _ _ Heff).
      pose proof (version_mono ops in_range (S p) k (pa_Key args') Hlt). lia.
    + exfalso. apply Hv, (put_answer_at ops p args'). destruct He as (e & Ee & He).
      change (req_of (CPut args')) with (Kvraft.ReqPut args') in Ee. rewrite Ee.
      by destruct He as [[_ ->]|[[? _]|[? _]]].
Qed.

(** The first attempt that finds the version it names is the effective one,
    so no answer comes before the effect. *)
Lemma effect_before_answer c o res k p : takes_place c o res k -> answered c o res p -> (k <= p)%nat.
Proof.
  intros [Ha [[args He]|[Hk _]]] Hp.
  - pose proof (attempt_effective _ _ _ _ Ha He) as ->. pose proof (answered_attempt _ _ _ _ Hp) as Hap.
    destruct (attempt_at _ _ _ Hap) as [He'|Hne].
    { by rewrite (effective_once ops in_range _ _ _ He He'). }
    pose proof (version_reached _ _ _ Hap). destruct (decide (k <= p)%nat) as [|Hlt]; [done | exfalso].
    pose proof (version_mono ops in_range p k (pa_Key args) ltac:(lia)).
    destruct He as (_ & _ & _ & E). lia.
  - destruct Hk as (sid & i & op & x & l & Hr & Hs & Hi & Hk & _), Hp as (sid' & i' & op' & x' & l' & Hr' & _ & Hi' & Hk' & _).
    destruct (return_once _ (wi_trace _ _ _ _ I) _ _ _ _ _ Hr Hr') as [<- _].
    assert (op = op') as <- by (by eapply (invoked_sid _ (wi_trace _ _ _ _ I))).
    by rewrite (place_once _ _ L _ _ _ Hk Hk').
Qed.

Lemma takes_place_order t2 t1 a oa sid resa ka b o ob resb kb :
  t = t2 ++ CInvoke b o :: t1 -> CReturn a sid resa ∈ t1 ->
  takes_place a oa resa ka -> takes_place b ob resb kb -> (ka < kb)%nat.
Proof.
  intros Ht Hret Ha [(sidB & iB & opB & x & l & HsB & HiB & HkB & _) _].
  assert (CReturn a sid resa ∈ t) as Hret' by (rewrite Ht; apply elem_of_app; right; by right).
  destruct (attempt_after n cmd_of srvs w ops I L _ _ _ _ _ _ _ _ _ _ _ _ _ _ Ht Hret HsB HiB HkB)
    as (o' & ia & opA & xa & la & p & HsA & HiA & HoA & HkA & HeA & Hlt).
  assert (o' = oa) as ->.
  { destruct Ha as [(s' & i' & ? & ? & ? & Hs' & _) _].
    eapply (invoke_once _ (wi_trace _ _ _ _ I) a); by eapply sent_invoked; [apply I |]. }
  enough (ka <= p)%nat by lia. eapply (effect_before_answer a oa resa); [done |].
  by exists sid, ia, opA, xa, la.
Qed.

(** ** The model explains the calls in this order *)
Lemma kv_at_key j key : (forall args, effective ops j args -> pa_Key args <> key) ->
  kv_at ops (S j) !! key = kv_at ops j !! key.
Proof.
  intros Hno. destruct (ops !! j) as [op|] eqn:Hj; [| by rewrite kv_at_past].
  rewrite (kv_at_S ops _ _ Hj). destruct (Rsm.Command_ op) as [args|args|] eqn:Hc; [| | done].
  - simpl. by destruct (kv_at ops j !! ga_Key args).
  - destruct (decide (version_of (kv_at ops j) (pa_Key args) = pa_Version args)) as [E|Hne].
    + rewrite DoOp_Put. destruct (Put_spec args (kv_at ops j)) as (_ & _ & Hframe). apply Hframe.
      apply not_eq_sym, Hno. by exists op.
    + destruct (put_answer_at ops j args) as [Hok Hsame]. by rewrite Hsame by (by intros ?%Hok).
Qed.

Lemma kv_at_unchanged m k key : (m <= k)%nat ->
  (forall j args, (m <= j < k)%nat -> effective ops j args -> pa_Key args <> key) ->
  kv_at ops k !! key = kv_at ops m !! key.
Proof.
  induction 1 as [|k Hle IH]; intros Hno; [done |].
  rewrite kv_at_key by (intros args; apply Hno; lia). apply IH. intros j args Hj. apply Hno. lia.
Qed.

Definition key_of (o : COp) : string := match o with CGet key => key | CPut args => pa_Key args end.

Section Order.
Variables (start finish cli : nat -> Z).

Definition operation (x : nat * COp * CRes) : option Operation :=
  match x with
  | (c, CGet key, RGet (val, ver, err)) =>
      Some (mkOperation (mkKvInput 0 key "" 0) (mkKvOutput val ver err) (start c) (finish c) (cli c))
  | (c, CPut args, RPut err) =>
      Some (mkOperation (mkKvInput 1 (pa_Key args) (pa_Value args) (pa_Version args)) (mkKvOutput "" 0 err)
        (start c) (finish c) (cli c))
  | _ => None
  end.

Lemma log_calls calls l : foldl (log_call start finish cli) (Some l) calls = Some (l ++ omap operation calls).
Proof.
  revert l. induction calls as [|[[c [key|args]] [[[val ver] err]|err]] calls IH]; intros l; cbn [foldl omap list_omap];
    [by rewrite app_nil_r | ..]; simpl; rewrite IH; unfold OpLog.Append; by rewrite <- ?app_assoc.
Qed.

Lemma operation_key c o res op : operation (c, o, res) = Some op ->
  in_Key (op_Input op) = key_of o /\ op_Call op = start c /\ op_Return op = finish c.
Proof. destruct o, res as [[[??]?]|]; simpl; intros [= <-]; done. Qed.

Lemma place_step c o sid res k : CReturn c sid res ∈ t -> takes_place c o res k -> exists op,
  operation (c, o, res) = Some op /\
  KvModel.Step (repr (kv_at ops k !! key_of o)) (op_Input op) (op_Output op) =
    (true, Some (repr (kv_at ops (S k) !! key_of o))).
Proof.
  intros Hr Hp. destruct o as [key|args].
  - destruct Hp as [Ha [[args He]|[Hans _]]]; [by pose proof (attempt_effective _ _ _ _ Ha He) |].
    destruct Hans as (sid' & i & op & x & l & _ & _ & _ & Hk & Ho & He). destruct res as [[[val ver] err]|]; [| done].
    eexists. split; [reflexivity |]. rewrite (kv_at_S ops _ _ Hk), Ho. simpl in He |- *. unfold KvModel.Step. cbn [in_Op].
    rewrite decide_True by done. cbn [out_Value op_Output].
    destruct (kv_at ops k !! key) as [v|] eqn:E; injection He as <- <- <-; cbn [fst]; by rewrite E, bool_decide_true.
  - destruct (put_reports _ _ _ _ _ Hr Hp) as (err & -> & He). eexists. split; [reflexivity |].
    pose proof Hp as [(sid' & i & op & x & l & _ & _ & Hk & Ho) _].
    rewrite (kv_at_S ops _ _ Hk), Ho. change (req_of (CPut args)) with (Kvraft.ReqPut args). rewrite DoOp_Put. cbn [fst].
    destruct (Put_spec args (kv_at ops k)) as (Hreg & _). cbn [key_of]. rewrite Hreg, Spec_put_repr.
    assert (st_Version (repr (kv_at ops k !! pa_Key args)) = version_of (kv_at ops k) (pa_Key args)) as Ev
      by (unfold version_of; by destruct (kv_at ops k !! pa_Key args)).
    unfold KvModel.Step. cbn [op_Input op_Output in_Op in_Version in_Value out_Err].
    rewrite decide_False by done. rewrite (decide_True (P := 1 = 1)) by done. rewrite Ev.
    destruct He as [[-> [->| ->]]|[Hne [->| ->]]]; [rewrite !decide_True by done; done.. | |];
      rewrite !decide_False by done; done.
Qed.

(** Calls on [key] in the order of their places. *)
Abbreviation placed := (nat * (nat * COp * CRes))%type.
Definition before (p q : placed) : Prop := (p.1 < q.1)%nat.
Definition at_place (key : string) (p : placed) : Prop :=
  let '(k, (c, o, res)) := p in
  takes_place c o res k /\ CInvoke c o ∈ t /\ (exists sid, CReturn c sid res ∈ t) /\ key_of o = key.

Lemma accepts_from key m s : StronglySorted before s -> Forall (fun p => (m <= p.1)%nat /\ at_place key p) s ->
  (forall j args, (m <= j)%nat -> effective ops j args -> pa_Key args = key -> exists x, (j, x) ∈ s) ->
  KvModel.accepts (repr (kv_at ops m !! key)) (omap operation s.*2) = true.
Proof.
  intros Hs. revert m. induction Hs as [|[k [[c o] res]] s Hs IH Hlt]; intros m Hall Hin; [done |].
  apply list.Forall_cons in Hall as [(Hm & Hp & _ & [sid Hr] & Hkey) Hall]. cbn [fst] in Hm.
  destruct (place_step _ _ _ _ _ Hr Hp) as (op & Hop & Hstep). rewrite Hkey in Hstep.
  cbn [fmap list_fmap snd omap list_omap]. rewrite Hop. cbn [KvModel.accepts].
  rewrite <- (kv_at_unchanged m k key Hm), Hstep.
  2: { intros j args Hj He Hk. destruct (Hin j args ltac:(lia) He Hk) as [x [[= -> ->]|Hx]%elem_of_cons]; [lia |].
    rewrite list.Forall_forall in Hlt. specialize (Hlt _ Hx). unfold before in Hlt. simpl in Hlt. lia. }
  apply IH.
  - rewrite list.Forall_forall in Hall, Hlt |- *. intros p Hpin. split; [| by apply Hall].
    specialize (Hlt _ Hpin). unfold before in Hlt. simpl in Hlt. lia.
  - intros j args Hj He Hk. destruct (Hin j args ltac:(lia) He Hk) as [x [[= -> ->]|Hx]%elem_of_cons]; [lia | by exists x].
Qed.

(** What had returned by the clock before a call was made had returned. *)
Lemma later_in {A} (t2 t1 t2' t1' : list A) e e' :
  t2 ++ e :: t1 = t2' ++ e' :: t1' -> (length t1 < length t1')%nat -> e ∈ t1'.
Proof.
  intros [(k & -> & E)|(k & -> & E)]%app_eq_inv Hlt; destruct k as [|x k]; injection E as; subst.
  - lia.
  - apply elem_of_app. right. left.
  - lia.
  - rewrite length_app in Hlt. simpl in Hlt. lia.
Qed.

Lemma in_time_sorted key s l : recorded start finish cli t l -> StronglySorted before s -> Forall (at_place key) s ->
  in_time (omap operation s.*2) = true.
Proof.
  intros [_ (now & Hmono & Hcall & Hret)] Hs. induction Hs as [|[k [[a oa] ra]] s Hs IH Hlt]; intros Hall; [done |].
  apply list.Forall_cons in Hall as [(Hp & Ha & _ & _) Hall]. specialize (IH Hall).
  cbn [fmap list_fmap snd omap list_omap]. destruct (operation (a, oa, ra)) as [op|] eqn:Hop; [| done].
  cbn [in_time]. apply andb_true_iff. split; [| done].
  apply forallb_forall. intros op' Hin%list_elem_of_In. apply list_elem_of_omap in Hin as ([[b ob] rb] & Hin & Hop').
  apply list_elem_of_fmap in Hin as ([kb [[b' ob'] rb']] & [= <- <- <-] & Hin).
  apply negb_true_iff, bool_decide_eq_false. intros Htime.
  destruct (operation_key _ _ _ _ Hop) as (_ & Ec & _), (operation_key _ _ _ _ Hop') as (_ & _ & Er). rewrite Ec, Er in Htime.
  rewrite list.Forall_forall in Hlt, Hall. specialize (Hlt _ Hin). destruct (Hall _ Hin) as (Hpb & _ & [sid Hr] & _).
  apply list_elem_of_split in Ha as (t2 & t1 & Ht), Hr as (t4 & t3 & Ht').
  pose proof (Hcall _ _ _ _ Ht). pose proof (Hret _ _ _ _ _ Ht').
  assert (length t3 < length t1)%nat as Hlen.
  { destruct (decide (length t3 < length t1)%nat) as [|Hge]; [done |]. pose proof (Hmono (length t1) (length t3) ltac:(lia)). lia. }
  assert (CReturn b sid rb ∈ t1) as Hr1 by (eapply later_in; [by rewrite <- Ht', Ht | done]).
  pose proof (takes_place_order _ _ _ _ _ _ _ _ _ _ _ _ Ht Hr1 Hpb Hp). unfold before in Hlt. simpl in Hlt. lia.
Qed.

#[local] Instance le_place_dec : RelDecision (fun p q : placed => (p.1 <= q.1)%nat).
Proof. intros p q. apply _. Defined.
#[local] Instance le_place_total : Total (fun p q : placed => (p.1 <= q.1)%nat).
Proof. intros p q. destruct (Nat.le_ge_cases p.1 q.1); [by left | by right]. Qed.
#[local] Instance le_place_trans : Transitive (fun p q : placed => (p.1 <= q.1)%nat).
Proof. intros p q r. apply Nat.le_trans. Qed.

Lemma strictly_sorted key s : StronglySorted (fun p q : placed => (p.1 <= q.1)%nat) s ->
  NoDup (s.*2).*1.*1 -> Forall (at_place key) s -> StronglySorted before s.
Proof.
  induction 1 as [|[k [[c o] res]] s Hs IH Hle]; intros Hnd Hall; [constructor |].
  apply list.Forall_cons in Hall as [((Ha & _) & _) Hall]. rewrite !fmap_cons in Hnd. apply list.NoDup_cons in Hnd as [Hc Hnd].
  constructor; [by apply IH |]. rewrite list.Forall_forall in Hle, Hall |- *. intros [k' [[c' o'] res']] Hin.
  specialize (Hle _ Hin). destruct (Hall _ Hin) as ((Ha' & _) & _). unfold before. simpl in *.
  destruct (decide (k = k')) as [<-|]; [exfalso | lia].
  destruct (attempt_apart _ _ _ _ _ Ha Ha') as [<- _]. apply Hc.
  change c with (k, (c, o', res')).2.1.1. by do 3 apply list_elem_of_fmap_2.
Qed.

(** The calls on a key, each with a place. *)
Lemma places_of key calls : Forall (fun x : nat * COp * CRes => key_of x.1.2 = key /\ CInvoke x.1.1 x.1.2 ∈ t /\
    exists sid, CReturn x.1.1 sid x.2 ∈ t) calls ->
  exists s : list placed, s.*2 = calls /\ Forall (at_place key) s.
Proof.
  induction 1 as [|[[c o] res] calls (Hk & Hc & [sid Hr]) _ (s & <- & Hs)]; [by exists [] |].
  destruct (takes_place_exists _ _ _ _ Hc Hr) as [k Hp]. exists ((k, (c, o, res)) :: s). split; [done |].
  constructor; [| done]. simpl. split_and!; [done.. | by exists sid | done].
Qed.

Lemma of_key_calls key calls : of_key key (omap operation calls) = omap operation (filter (fun x => key_of x.1.2 = key) calls).
Proof.
  induction calls as [|[[c o] res] calls IH]; [done |].
  unfold of_key in *. cbn [omap list_omap]. rewrite filter_cons. cbn [fst snd].
  destruct (operation (c, o, res)) as [op|] eqn:E.
  - destruct (operation_key _ _ _ _ E) as (Ek & _). rewrite filter_cons, Ek, IH. case_decide; [| done].
    cbn [omap list_omap]. by rewrite E.
  - rewrite IH. case_decide; [| done]. cbn [omap list_omap]. by rewrite E.
Qed.

Lemma linearizable_log l : puts_returned t -> recorded start finish cli t l -> linearizable l.
Proof.
  intros Hputs Hrec. pose proof Hrec as [(calls & Hnd & Hcalls & Hlog) _].
  rewrite log_calls in Hlog. injection Hlog as <-. intros part Hpart. rewrite Partition_eq in Hpart.
  apply list_elem_of_fmap in Hpart as (key & -> & _). cbn [app].
  rewrite of_key_calls. set (mine := filter _ calls).
  assert (mine ⊆ calls) as Hmine by (intros x Hx; apply list_elem_of_filter in Hx; tauto).
  destruct (places_of key mine) as (s & Es & Hs).
  { apply list.Forall_forall. intros [[c o] res] Hin. pose proof (Hmine _ Hin) as Hc%Hcalls.
    apply list_elem_of_filter in Hin as [Hk _]. tauto. }
  set (s' := merge_sort (fun p q : placed => (p.1 <= q.1)%nat) s).
  assert (s' ≡ₚ s) as Hp by apply merge_sort_Permutation.
  assert (Forall (at_place key) s') as Hs' by (by rewrite Hp).
  assert (StronglySorted before s') as Hsort.
  { apply (strictly_sorted key); [apply StronglySorted_merge_sort; apply _ | | done].
    rewrite Hp, Es. eapply sublist_NoDup; [exact Hnd |]. do 2 apply fmap_sublist. apply sublist_filter. }
  exists (omap operation s'.*2). split_and!.
  - by rewrite Hp, Es.
  - change KvModel.Init with (repr (kv_at ops 0 !! key)). apply accepts_from; [done | |].
    + eapply list.Forall_impl; [exact Hs' |]. intros p Hat. split; [lia | done].
    + intros j args _ He Hk. destruct He as (op & Hj & Hc & Hv).
      destruct (op_attempt _ _ Hj) as (c & o & Ha).
      assert (effective ops j args) as He by (by exists op).
      pose proof (attempt_effective _ _ _ _ Ha He) as ->.
      assert (CInvoke c (CPut args) ∈ t) as Hci.
      { destruct Ha as (? & ? & ? & ? & ? & ? & _). by eapply sent_invoked; [apply I |]. }
      destruct (Hputs _ _ Hci) as (sid & res & Hr).
      assert ((c, CPut args, res) ∈ mine) as Hin by (apply list_elem_of_filter; split; [done | apply Hcalls; eauto]).
      rewrite <- Es in Hin. apply list_elem_of_fmap in Hin as ([k x] & Ex & Hin). simpl in Ex. subst x.
      exists (c, CPut args, res). rewrite Hp. rewrite list.Forall_forall in Hs. destruct (Hs _ Hin) as [(_ & Hk') _].
      assert (k = j) as <-; [| done]. destruct Hk' as [[args' He']|[_ Hno]]; [| by destruct (Hno _ _ Ha He)].
      destruct (Hs _ Hin) as [(Ha' & _) _]. pose proof (attempt_effective _ _ _ _ Ha' He') as [= <-].
      exact (effective_once ops in_range _ _ _ He' He).
  - by eapply in_time_sorted.
Qed.
End Order.
End Places.

(** ** Clocks that count the events of the clients *)
Section Clock.
Variables (start finish : nat -> Z).

Fixpoint clocked (es : list event) : Prop :=
  match es with
  | [] => True
  | e :: es =>
      match e with
      | CInvoke c _ => start c <= zlen es
      | CReturn c _ _ => zlen es <= finish c
      | _ => True
      end /\ clocked es
  end.

Lemma clocked_split t2 e t1 : clocked (t2 ++ e :: t1) -> clocked (e :: t1).
Proof. induction t2 as [|x t2 IH]; [done |]. intros [_ H]. by apply IH. Qed.

Lemma client_events_split t2 e t1 : sys_event e = None ->
  client_events (t2 ++ e :: t1) = client_events t2 ++ e :: client_events t1.
Proof. intros He. unfold client_events. by rewrite list.filter_app, filter_cons_True. Qed.

Lemma client_event_in e t : sys_event e = None -> e ∈ t <-> e ∈ client_events t.
Proof. intros He. unfold client_events. rewrite list_elem_of_filter. tauto. Qed.

Lemma recorded_by_clients cli t l calls :
  clocked (client_events t) -> NoDup calls.*1.*1 ->
  (forall c o res, (c, o, res) ∈ calls <->
    CInvoke c o ∈ client_events t /\ exists sid, CReturn c sid res ∈ client_events t) ->
  foldl (log_call start finish cli) (Some []) calls = Some l -> recorded start finish cli t l.
Proof.
  intros Hclock Hnd Hcalls Hlog. split.
  { exists calls. split_and!; [done | | done]. intros c o res. rewrite Hcalls, <- client_event_in by done.
    by setoid_rewrite <- client_event_in; [| done]. }
  exists (fun i => zlen (client_events (drop (length t - i) t))). split_and!.
  - intros i j Hij. replace (drop (length t - i) t) with (drop (length t - i - (length t - j)) (drop (length t - j) t))
      by (rewrite drop_drop; f_equal; lia).
    generalize (drop (length t - j) t), (length t - i - (length t - j))%nat. clear. intros l m.
    rewrite <- (take_drop m l) at 2. unfold client_events. rewrite list.filter_app, zlen_app.
    pose proof (zlen_nonneg (filter (fun e => sys_event e = None) (take m l))). lia.
  - intros t2 c o t1 Ht. rewrite Ht in Hclock |- *. rewrite client_events_split in Hclock by done.
    apply clocked_split in Hclock as [Hc _]. rewrite length_app. cbn [length].
    replace (length t2 + S (length t1) - length t1)%nat with (length t2 + 1)%nat by lia.
    by rewrite <- drop_drop, drop_app_length.
  - intros t2 c sid res t1 Ht. rewrite Ht in Hclock |- *. rewrite client_events_split in Hclock by done.
    apply clocked_split in Hclock as [Hc _]. rewrite length_app. cbn [length].
    replace (length t2 + S (length t1) - length t1)%nat with (length t2 + 1)%nat by lia.
    by rewrite <- drop_drop, drop_app_length.
Qed.
End Clock.

(** ** Two executions *)

(** The clocks of the execution [put_run]: client 0's call lasts all the
    time, client 1's lies within. *)
Definition put_start (c : nat) : Z := if decide (c = 0%nat) then 0 else 4.
Definition put_finish (c : nat) : Z := if decide (c = 0%nat) then 8 else 6.
Definition put_log : OpLog.log :=
  [mkOperation (mkKvInput 0 "k" "" 0) (mkKvOutput "a" 1 OK) 4 6 1;
   mkOperation (mkKvInput 1 "k" "a" 0) (mkKvOutput "" 0 ErrMaybe) 0 8 0].

Ltac listed H := repeat (apply elem_of_cons in H as [H|H]; [try discriminate H; try (injection H as; subst) |]);
  try (by apply not_elem_of_nil in H).
Ltac is_listed := refine (bool_decide_eq_true_1 _ _); reflexivity.

Lemma put_recorded w : client_events (w_trace w) = put_events ->
  recorded put_start put_finish Z.of_nat (w_trace w) put_log /\ informed (w_trace w) /\ puts_returned (w_trace w).
Proof.
  intros E. split_and!.
  - apply recorded_by_clients with (calls := [(1%nat, CGet "k", RGet ("a", 1, OK)%string); (0%nat, cl_put0, RPut ErrMaybe)]).
    + rewrite E. vm_compute. split_and!; (done || by intros ?).
    + rewrite !fmap_cons. simpl. repeat constructor; set_solver.
    + rewrite E. intros c o res. split.
      * intros H. listed H; (split; [is_listed |]); [exists 10%nat | exists 3%nat]; is_listed.
      * intros [H [sid H']]. listed H; listed H'; is_listed.
    + reflexivity.
  - intros t2 c args t1 Ht. left.
    assert (CInvoke c (CPut args) ∈ client_events (w_trace w)) as Hin.
    { rewrite <- client_event_in by done. rewrite Ht. apply elem_of_app. right. left. }
    rewrite E in Hin. by listed Hin.
  - intros c args Hin. rewrite client_event_in, E in Hin by done.
    exists 3%nat, (RPut ErrMaybe). rewrite client_event_in, E by done. listed Hin. is_listed.
Qed.

(** The execution [late_run] of [KvCluster], in which client 1 names a
    version that the register has not reached: its late request takes effect
    after the call has returned, and no order of the four calls explains what
    the last one got. *)
Definition late_start (c : nat) : Z := match c with 0%nat => 0 | 1%nat => 3 | 2%nat => 9 | _ => 12 end.
Definition late_finish (c : nat) : Z := match c with 0%nat => 2 | 1%nat => 8 | 2%nat => 11 | _ => 14 end.
Definition late_calls : list (nat * COp * CRes) :=
  [(0%nat, cl_put0, RPut OK); (1%nat, cl_ahead, RPut ErrMaybe); (2%nat, cl_put1, RPut OK);
   (3%nat, CGet "k", RGet ("z", 3, OK)%string)].
Definition late_log : OpLog.log := default [] (foldl (log_call late_start late_finish Z.of_nat) (Some []) late_calls).

Lemma late_recorded w : client_events (w_trace w) = late_events ->
  recorded late_start late_finish Z.of_nat (w_trace w) late_log /\ puts_returned (w_trace w).
Proof.
  intros E. split.
  - apply recorded_by_clients with (calls := late_calls).
    + rewrite E. vm_compute. split_and!; (done || by intros ?).
    + unfold late_calls. rewrite !fmap_cons. simpl. repeat constructor; set_solver.
    + rewrite E. intros c o res. split.
      * intros H. listed H; (split; [is_listed |]); [exists 0%nat | exists 4%nat | exists 5%nat | exists 6%nat]; is_listed.
      * intros [H [sid H']]. listed H; listed H'; is_listed.
    + reflexivity.
  - intros c args Hin. rewrite client_event_in, E in Hin by done.
    setoid_rewrite client_event_in; [| done]. rewrite E.
    listed Hin; [exists 5%nat, (RPut OK) | exists 4%nat, (RPut ErrMaybe) | exists 0%nat, (RPut OK)]; is_listed.
Qed.

Lemma late_put_fails_check : exists w, kv_world_reachable w /\ puts_returned (w_trace w) /\
  recorded late_start late_finish Z.of_nat (w_trace w) late_log /\ ~ linearizable late_log /\
  forall enabled opened t t' cs aw, (CheckPorcupine try_orders enabled opened t t' cs late_log aw).2 = Panic.
Proof.
  destruct late_put_takes_effect as (w & R & H). apply bool_decide_eq_true in H.
  destruct (late_recorded w H) as [Hrec Hputs].
  assert (try_orders late_log linearizabilityCheckTimeout = Illegal) as E by (vm_compute; reflexivity).
  exists w. split_and!; [done.. | by apply (try_orders_sound _ _ E) |].
  intros enabled opened t t' cs aw. unfold CheckPorcupine, CheckPorcupineT, checkPorcupine, OpLog.Read. rewrite E.
  rewrite decide_True by done. by repeat case_match.
Qed.

(** ** Properties *)

(** C2: The linearizability check of the tests passes. In every execution of
    clerks and servers in which no peer becomes leader between the role test
    of its [ticker] and the [startElection] that follows, no server takes
    snapshots ([maxraftstate] is -1), the random identities that [Submit]
    draws are distinct, puts name versions below 2^64 - 1, terms stay below
    2^64 - 1 and logs below 2^63 - 1 entries - any number of both, lost and
    late requests and replies, crashes and elections - and in which every
    put has returned and every put names the version of a missing key or one
    that an earlier call returned, the log of all returned calls, with times
    that respect the order of calls and returns, has for each key an order
    that the model of [models1/kv.go] explains and that respects the times;
    so [CheckPorcupine] does not fail the test, whatever sound checker
    decides it. *)
Theorem CheckPorcupine_passes `{!Codec kv_map} `{!Codec (RaftState KvOp)} n cmd_of srvs w start finish cli oplog :
  0 < n < 2 ^ 63 -> zlen srvs = n -> reachable (world_init n srvs) (world_step n cmd_of) w ->
  informed (w_trace w) -> puts_returned (w_trace w) -> recorded start finish cli (w_trace w) oplog ->
  linearizable oplog /\
  forall CheckOperations, sound_checker CheckOperations -> forall enabled opened t t' cs aw,
    (CheckPorcupine CheckOperations enabled opened t t' cs oplog aw).2 = Ok tt.
Proof.
  intros Hn Hs R Hinf Hputs Hrec. pose proof (world_inv_reachable n cmd_of srvs Hn Hs w R) as I.
  destruct (rsm_linearizable kv_machine n ∅ cmd_of (w_sys w)) as (ops & L & _); [lia | apply I |].
  assert (linearizable oplog) as Hl by (by eapply linearizable_log).
  split; [done |]. intros Check Hsound enabled opened t t' cs aw. by apply checkPorcupine_passes.
Qed.

Lemma CheckPorcupine_passes_witness : linearizable put_log /\
  (CheckPorcupine try_orders "" true 0 0 [] put_log (Annotate.mkWorld mkAnnotation None)).2 = Ok tt.
Proof.
  destruct put_reachable as (w & R & H). apply bool_decide_eq_true in H.
  destruct (put_recorded w H) as (Hrec & Hinf & Hputs).
  destruct (@CheckPorcupine_passes kv_codec _ 3 cl_cmds ["s0"; "s1"; "s2"]%string w put_start put_finish Z.of_nat put_log
    ltac:(lia) eq_refl R Hinf Hputs Hrec) as [Hl Hc].
  split; [exact Hl |]. apply Hc. exact try_orders_sound.
Defined.
