(* ===== verification/RsmTest.v ===== *)
(** * The tests of the replicated state machine layer ([kvraft1/rsm/test.go])

    The tester submits requests through [onePartition], which tries the
    servers in turn from the last known leader, and compares the counters
    of the servers.  Here are the functions of the tester and of its proxy
    ([rsm/proxy.go]), and what the tests rely on: the answers to [Inc]
    count the increments. *)
From stdpp Require Import functions.
From S2P Require Import Prelude Annotate Labrpc TesterGroup.
From S2P Require Import Persister RaftNode RaftElection RaftElectionRun RaftCluster RaftRefine RaftSafety.
From S2P Require Import Kv Rsm RsmCluster RsmRun RsmSafety.
Import Rpc RsmSrv.
#[local] Open Scope Z_scope.

(** ** The tester *)
Definition NSRV : Z := 3.
Definition NSEC : Z := 10.

(** [rsmServer]: its proxy, or nil when the server was killed. *)
Abbreviation rsmServer := (option nat).
Definition newRSMServer (rsm : nat) : rsmServer := Some rsm.
Definition getRSM (rs : rsmServer) : option nat := rs.
Definition rsmServer_Kill (rs : rsmServer) : rsmServer := None.

Record RTest := mkRTest { maxraftstate : Z; rt_srvs : list rsmServer; rt_leader : Z }.

Definition getLeader (ts : RTest) : Z := rt_leader ts.

(** [mksrv], with the daemon client of the server. *)
Definition rsm_mksrv (srv dc : nat) (ts : RTest) : RTest :=
  mkRTest (maxraftstate ts) (<[srv := newRSMServer dc]> (rt_srvs ts)) (rt_leader ts).

Definition rsm_makeTest (maxraftstate : Z) (dcs : nat -> nat) : RTest :=
  foldl (fun ts i => rsm_mksrv i (dcs i) ts)
    (mkRTest maxraftstate (replicate (Z.to_nat NSRV) None) 0) (seq 0 (Z.to_nat NSRV)).

Definition rsm_kill (t : Z) (srvs : list nat) (p : ServerGrp * Network) (w : Annotate.World) :
    Res (ServerGrp * Network * Annotate.World) :=
  let* p := TesterGroup.Kill srvs p in
  let* w := AnnotateShutdown t srvs w in Ok (p, w).

(** [restart], on the names and processes of the new servers and their
    daemon clients. *)
Definition rsm_restart (t : Z) (srvs : list nat) (started : list (list string * option server_ref)) (dcs : nat -> nat)
    (ts : RTest) (p : ServerGrp * Network) (w : Annotate.World) : Res (RTest * (ServerGrp * Network) * Annotate.World) :=
  let* p := StartSrvs (zip_with (fun i s => (i, s.1, s.2)) srvs started) p in
  let* p := TesterGroup.ConnectAll p in
  let* w := AnnotateRestart t srvs w in
  Ok (foldl (fun ts srv => rsm_mksrv srv (dcs srv) ts) ts srvs, p, w).

Definition disconnectLeader (ts : RTest) (p : ServerGrp * Network) : Res (Z * (ServerGrp * Network)) :=
  if decide (rt_leader ts < 0) then Panic
  else let* p := TesterGroup.DisconnectAll (Z.to_nat (rt_leader ts)) p in Ok (rt_leader ts, p).
Definition rsm_connect (i : nat) (p : ServerGrp * Network) : Res (ServerGrp * Network) := ConnectOne i p.

(** *** The proxy: what a call returned, if it returned *)
Definition RSMproxy_Submit (called : option (Err * option Rep)) : Err * option Rep := default ("", None) called.
Definition RSMproxy_GetCounter (called : option Z) : Z := default 0 called.

(** *** Submitting *)
Definition inPartition (s : Z) (p : option (list Z)) : bool :=
  match p with None => true | Some p => existsb (fun i => bool_decide (s = i)) p end.

(** What one iteration finds: which servers are connected, and what a call
    of [Submit] through each proxy gives. *)
Record Probe := mkProbe { pb_connected : Z -> bool; pb_called : Z -> option (Err * option Rep) }.

(** One round, an iteration per probe: the server that answered [OK] and
    its answer. *)
Fixpoint sweep (p : option (list Z)) (srvs : list rsmServer) (ps : list Probe) (index : Z) :
    Res (option (Z * option Rep)) :=
  match ps with
  | [] => Ok None
  | pb :: ps =>
      let next := sweep p srvs ps (Z.rem (index + 1) (zlen srvs)) in
      if decide (index >= NSRV) then Panic
      else if decide (index = -1) then next
      else if decide (index < 0) then Panic
      else if pb_connected pb index then
        let* s := slice_get srvs index in
        if bool_decide (is_Some (getRSM s)) && inPartition index p then
          let '(err, rep) := RSMproxy_Submit (pb_called pb index) in
          if decide (err = OK) then Ok (Some (index, rep)) else next
        else next
      else next
  end.

(** [onePartition] while time lasts: a round starts at the leader that
    [getLeader] reads.  Returned are the answer, nil if there was none, the
    tester with its new leader, and whether [OpInc] was called. *)
Fixpoint onePartition (p : option (list Z)) (rounds : list (Z * list Probe)) (ts : RTest) :
    Res (option Rep * RTest * bool) :=
  match rounds with
  | [] => Ok (None, ts, false)
  | (index, ps) :: rounds =>
      let* r := sweep p (rt_srvs ts) ps index in
      match r with
      | Some (leader, rep) => Ok (rep, mkRTest (maxraftstate ts) (rt_srvs ts) leader, true)
      | None => onePartition p rounds ts
      end
  end.

(** The type assertions of [oneInc] and [oneNull]. *)
Definition oneInc (rounds : list (Z * list Probe)) (ts : RTest) : Res (Z * RTest * bool) :=
  let* '(rep, ts, inc) := onePartition None rounds ts in
  match rep with None => Ok (0, ts, inc) | Some (IncRep N) => Ok (N, ts, inc) | Some _ => Panic end.
Definition oneNull (rounds : list (Z * list Probe)) (ts : RTest) : Res (RTest * bool) :=
  let* '(rep, ts, inc) := onePartition None rounds ts in
  match rep with None | Some NullRep => Ok (ts, inc) | Some _ => Panic end.

(** *** Comparing the counters *)

(** [countValue], on what the calls to the servers return. *)
Fixpoint countValue (v : Z) (srvs : list rsmServer) (called : list (option Z)) : Res Z :=
  match srvs, called with
  | s :: srvs, c :: called =>
      if bool_decide (is_Some (getRSM s)) then
        let* n := countValue v srvs called in
        Ok (if decide (RSMproxy_GetCounter c = v) then n + 1 else n)
      else Panic
  | _, _ => Ok 0
  end.

(** The loop of [checkCounter], on what its iterations find: [Ok] if it
    returns, else the last count and the time slept, in milliseconds. *)
Fixpoint checkCounter_loop (v nsrv : Z) (srvs : list rsmServer) (samples : list (list (option Z))) (n to slept : Z) :
    Res (option unit * Z * Z) :=
  match samples with
  | [] => Ok (None, n, slept)
  | called :: samples =>
      let* n := countValue v srvs called in
      if decide (n >= nsrv) then Ok (Some tt, n, slept)
      else checkCounter_loop v nsrv srvs samples n (if decide (to < 1000) then to * 2 else to) (slept + to)
  end.

(** [checkCounter]: the [samples] are those of its 30 iterations. *)
Definition checkCounter (v nsrv : Z) (samples : list (list (option Z))) (ts : RTest) : Res unit :=
  let* '(r, _, _) := checkCounter_loop v nsrv (rt_srvs ts) samples 0 10 0 in
  match r with Some _ => Ok tt | None => Panic end.

(** ** Lemmas on the rounds *)
Lemma rsm_makeTest_srvs m dcs : rt_srvs (rsm_makeTest m dcs) = [Some (dcs 0%nat); Some (dcs 1%nat); Some (dcs 2%nat)] /\
  getLeader (rsm_makeTest m dcs) = 0.
Proof. done. Qed.

(** A round returns the answer of a server that it may ask. *)
Lemma sweep_answer p srvs ps index leader rep : sweep p srvs ps index = Ok (Some (leader, rep)) ->
  exists pb, pb ∈ ps /\ pb_connected pb leader = true /\ inPartition leader p = true /\
    pb_called pb leader = Some (OK, rep) /\ exists c, slice_get srvs leader = Ok (Some c).
Proof.
  revert index. induction ps as [|pb ps IH]; intros index H; [done |]. cbn [sweep] in H.
  assert (sweep p srvs ps (Z.rem (index + 1) (zlen srvs)) = Ok (Some (leader, rep)) -> exists pb', pb' ∈ pb :: ps /\
    pb_connected pb' leader = true /\ inPartition leader p = true /\ pb_called pb' leader = Some (OK, rep) /\
    exists c, slice_get srvs leader = Ok (Some c)) as Hnext.
  { intros (pb' & Hin & ?)%IH. exists pb'. split; [by right | done]. }
  repeat (case_decide; [done || by apply Hnext |]). destruct (pb_connected pb index) eqn:Ec; [| by apply Hnext].
  destruct (slice_get srvs index) as [s|] eqn:Es; [| done]. cbn [res_bind] in H.
  destruct (bool_decide (is_Some (getRSM s)) && inPartition index p) eqn:Eb; [| by apply Hnext].
  apply andb_true_iff in Eb as [[c Hc]%bool_decide_eq_true Hp].
  unfold RSMproxy_Submit in H. destruct (pb_called pb index) as [[err rep']|] eqn:Eq; [| by apply Hnext].
  simpl in H. case_decide; [| by apply Hnext]. injection H as <- <-. subst err.
  exists pb. split_and!; [left | done..|]. exists c. by rewrite Es; unfold getRSM in Hc; subst.
Qed.

(** A round over three live servers asks every one of them. *)
Lemma sweep_finds p srvs ps index leader : zlen srvs = NSRV -> length ps = length srvs -> 0 <= index < NSRV ->
  (forall s, s ∈ srvs -> is_Some s) -> 0 <= leader < NSRV -> inPartition leader p = true ->
  (forall pb, pb ∈ ps -> pb_connected pb leader = true /\ exists rep, pb_called pb leader = Some (OK, rep)) ->
  exists l rep, sweep p srvs ps index = Ok (Some (l, rep)).
Proof.
  intros Hn Hl Hi Hlive Hleader Hp Hall. unfold NSRV, zlen in *.
  assert (length srvs = 3%nat) as E by lia. rewrite E in Hl.
  destruct ps as [|p1 [|p2 [|p3 [|? ?]]]]; [done.. | clear Hl | done].
  assert (forall pb i ps, 0 <= i < 3 -> pb ∈ [p1; p2; p3] ->
    (exists r, sweep p srvs (pb :: ps) i = Ok (Some (i, r))) \/
    (i <> leader /\ sweep p srvs (pb :: ps) i = sweep p srvs ps (Z.rem (i + 1) 3))) as Hstep.
  { intros pb i ps Hir Hin. cbn [sweep]. unfold NSRV, zlen. rewrite E. change (Z.of_nat 3) with 3.
    rewrite !decide_False by lia. destruct (Hall _ Hin) as (Hc & rep & Hs).
    destruct (decide (i = leader)) as [->|Hne].
    - left. exists rep. rewrite Hc. destruct (slice_get_ok srvs leader) as (s & Ez & ->); [by unfold zlen; rewrite E |].
      cbn [res_bind]. assert (is_Some s) as Hs' by (apply Hlive; unfold zlookup in Ez; rewrite decide_True in Ez by lia; by eapply list_elem_of_lookup_2).
      rewrite (bool_decide_true (is_Some (getRSM s))) by done. by rewrite Hp, Hs.
    - destruct (pb_connected pb i) eqn:Ec; [| by right].
      destruct (slice_get_ok srvs i) as (s & Ez & ->); [by unfold zlen; rewrite E |].
      cbn [res_bind]. destruct (bool_decide _ && inPartition i p); [| by right].
      unfold RSMproxy_Submit. destruct (pb_called pb i) as [[err rep']|]; [| by right].
      simpl. case_decide; [left; by exists rep' | by right]. }
  destruct (Hstep p1 index [p2; p3] ltac:(lia) ltac:(left)) as [[r ->]|[N1 ->]]; [by eauto |].
  assert (forall i, 0 <= i < 3 -> Z.rem (i + 1) 3 = if decide (i = 2) then 0 else i + 1) as Hrem.
  { intros i Hir. assert (i = 0 \/ i = 1 \/ i = 2) as [->|[->| ->]] by lia; done. }
  rewrite Hrem by lia. set (i2 := if decide (index = 2) then 0 else index + 1).
  assert (0 <= i2 < 3) as Hi2 by (unfold i2; case_decide; lia).
  destruct (Hstep p2 i2 [p3] Hi2 ltac:(right; left)) as [[r ->]|[N2 ->]]; [by eauto |].
  rewrite Hrem by lia. set (i3 := if decide (i2 = 2) then 0 else i2 + 1).
  assert (0 <= i3 < 3) as Hi3 by (unfold i3; case_decide; lia).
  destruct (Hstep p3 i3 [] Hi3 ltac:(right; right; left)) as [[r ->]|[N3 _]]; [by eauto |].
  exfalso. revert N1 N2 N3. unfold i3, i2. repeat case_decide; lia.
Qed.

(** ** What the answers count *)
Abbreviation CounterOp := (Rsm.Op Req).
Abbreviation CounterEvent := (@CallEvent Req Rep).

#[export] Instance CReq_eq_dec : EqDecision Req.
Proof. solve_decision. Defined.
#[export] Instance CRep_eq_dec : EqDecision Rep.
Proof. solve_decision. Defined.

Definition is_inc (op : CounterOp) : Prop := Rsm.Command_ op = Inc.
#[export] Instance is_inc_dec op : Decision (is_inc op).
Proof. unfold is_inc. apply _. Defined.

Definition incs (l : list CounterOp) : list CounterOp := filter is_inc l.

(** The increments that were submitted, at whatever server. *)
Definition inc_calls (h : list CounterEvent) : list CounterOp :=
  omap (fun e => match e with Invoked _ op _ _ => if decide (is_inc op) then Some op else None | _ => None end) h.

Lemma inc_calls_elem h op : op ∈ inc_calls h <-> is_inc op /\ exists sid index l, Invoked sid op index l ∈ h.
Proof.
  unfold inc_calls. rewrite list_elem_of_omap. split.
  - intros ([sid op' index l|] & Hin & E); [| done]. case_decide; [| done]. injection E as ->. eauto.
  - intros (Hi & sid & index & l & Hin). exists (Invoked sid op index l). split; [done | by rewrite decide_True].
Qed.

Lemma inc_calls_length h : (length (inc_calls h) <= length h)%nat.
Proof.
  unfold inc_calls. induction h as [|e h IH]; [done |]. cbn [omap list_omap length].
  destruct (match e with Invoked _ op _ _ => _ | _ => _ end); cbn [length]; lia.
Qed.

Section Count.
Context `{!Codec Z}.

Lemma run_counts (l : list CounterOp) c st : 0 <= c -> c + zlen (incs l) < 2 ^ 63 ->
  RsmCluster.run (sm := counter_machine) c l = Ok st -> st = c + zlen (incs l).
Proof.
  revert c. induction l as [|op l IH]; intros c Hc Hb Hr; [injection Hr as <-; unfold incs, zlen; simpl; lia |].
  unfold incs in *. rewrite filter_cons in *. cbn [RsmCluster.run] in Hr.
  change (sm_DoOp (Rsm.Command_ op) c) with (RsmSrv.DoOp (Rsm.Command_ op) c) in Hr.
  destruct (decide (is_inc op)) as [Hi|Hi].
  - unfold is_inc in Hi. rewrite Hi in Hr. cbn [RsmSrv.DoOp res_bind fst] in Hr.
    rewrite zlen_cons in *. pose proof (zlen_nonneg (filter is_inc l)).
    rewrite i64_small in Hr by lia. apply IH in Hr; lia.
  - unfold is_inc in Hi. destruct (Rsm.Command_ op); [done | by apply IH | done].
Qed.

Context (h : list CounterEvent) (ops : list CounterOp) (L : linearized (sm := counter_machine) 0 h ops).
Context (Hlen : zlen h < 2 ^ 63).

Lemma incs_NoDup k : NoDup (incs (take k ops)).
Proof.
  apply list.NoDup_filter. eapply sublist_NoDup; [| apply sublist_take].
  eapply NoDup_fmap_1, (lin_once _ _ _ L).
Qed.

Lemma counted_bound k h1 : (forall op, op ∈ incs (take k ops) -> op ∈ inc_calls h1) ->
  zlen (incs (take k ops)) <= zlen (inc_calls h1).
Proof.
  intros H. unfold zlen. apply Nat2Z.inj_le, submseteq_length, NoDup_submseteq; [apply incs_NoDup | exact H].
Qed.

Lemma counted_invoked k op : op ∈ incs (take k ops) -> op ∈ inc_calls h.
Proof.
  intros [Hi Hin]%list_elem_of_filter. apply inc_calls_elem. split; [done |].
  destruct (lin_invoked _ _ _ L op) as (sid & index & ?); [| by exists sid, index, true].
  rewrite <- (take_drop k ops). apply elem_of_app. by left.
Qed.

Lemma counter_at k st : RsmCluster.run (sm := counter_machine) 0 (take k ops) = Ok st -> st = zlen (incs (take k ops)).
Proof.
  intros Hr. apply run_counts in Hr; [lia | lia |]. pose proof (counted_bound k h (counted_invoked k)).
  pose proof (inc_calls_length h). unfold zlen in *. lia.
Qed.
End Count.

(** An answer to [Inc] is the number of increments up to its own. *)
Lemma inc_answer `{!Codec Z} h ops sid op N : linearized (sm := counter_machine) 0 h ops -> zlen h < 2 ^ 63 ->
  Returned sid op OK (Some (IncRep N)) ∈ h ->
  exists k, ops !! k = Some op /\ is_inc op /\ N = zlen (incs (take (S k) ops)) /\ N = zlen (incs (take k ops)) + 1.
Proof.
  intros L Hlen Hr. destruct (lin_result _ _ _ L _ _ _ Hr) as (k & st & st' & Hk & Hrun & Hdo).
  pose proof (counter_at _ _ L Hlen _ _ Hrun) as ->. exists k.
  change (RsmSrv.DoOp (Rsm.Command_ op) (zlen (incs (take k ops))) = Ok (st', IncRep N)) in Hdo.
  destruct (Rsm.Command_ op) eqn:E; [| done..]. cbn [RsmSrv.DoOp] in Hdo. injection Hdo as _ <-.
  assert (zlen (incs (take (S k) ops)) = zlen (incs (take k ops)) + 1) as E1.
  { unfold incs. rewrite (take_S_r _ _ _ Hk), list.filter_app, filter_cons_True, zlen_app by done. done. }
  pose proof (counted_bound h ops L (S k) h (counted_invoked h ops L (S k))) as Hb.
  pose proof (inc_calls_length h). pose proof (zlen_nonneg (incs (take k ops))).
  rewrite i64_small by (unfold zlen in *; lia). by rewrite E1.
Qed.

(** ** Properties *)

(** C33: The answers that the tests of this layer compare. In every
    execution of the counter service in which no peer becomes leader between
    the role test of its [ticker] and the [startElection] that follows, no
    server takes snapshots ([maxraftstate] is -1), the random identities
    that [Submit] draws are distinct, terms stay below 2^64 - 1 and logs
    below 2^63 - 1 entries, and with fewer than 2^63 calls and returns, an
    answer to [Inc] is at most the number of increments submitted before it
    was returned, to whatever server and whatever they were answered, and
    more than the number of increments answered before it was submitted; no
    two calls get the same answer; and no counter of a server is above the
    number of increments submitted. *)
Theorem Inc_answers_count `{!Codec Z} `{!Codec (RaftState CounterOp)} n cmd_of
    (s : System (State := Z) (Req := Req) (Rep := Rep)) h2 sid op N h1 :
  0 <= n -> reachable (system_init (sm := counter_machine) n 0) (sys_quiet (sm := counter_machine) n 0 cmd_of) s ->
  zlen (history s) < 2 ^ 63 -> history s = h2 ++ Returned sid op OK (Some (IncRep N)) :: h1 ->
  1 <= N <= zlen (inc_calls h1) /\
  (forall h4 sid' index l h3 done, history s = h4 ++ Invoked sid' op index l :: h3 -> NoDup done ->
     (forall o, o ∈ done -> is_inc o /\ exists sid' rep, Returned sid' o OK rep ∈ h3) -> zlen done < N) /\
  (forall sid' op', Returned sid' op' OK (Some (IncRep N)) ∈ history s -> op' = op) /\
  (forall i, is_peer n i -> 0 <= GetCounter (sm_state (rsms s i)) <= zlen (inc_calls (history s))).
Proof.
  intros Hn R Hlen Hh. destruct (rsm_linearizable counter_machine n 0 cmd_of s Hn R) as (ops & L & Hrep).
  assert (Returned sid op OK (Some (IncRep N)) ∈ history s) as Hr by (rewrite Hh; apply elem_of_app; right; left).
  destruct (inc_answer _ _ _ _ _ L Hlen Hr) as (k & Hk & Hi & E1 & E0). split_and!.
  - pose proof (zlen_nonneg (incs (take k ops))). lia.
  - rewrite E1. apply counted_bound with (h := history s); [done |]. intros o Ho.
    apply list_elem_of_filter in Ho as [Hio (b & Hb)%list_elem_of_lookup].
    apply lookup_take_Some in Hb as [Hb Hlt]. apply inc_calls_elem. split; [done |].
    destruct (lin_invoked _ _ _ L o) as (sid' & index & Hin); [by eapply list_elem_of_lookup_2 |].
    exists sid', index, true. rewrite Hh in Hin. apply elem_of_app in Hin as [Hin|[?|?]%elem_of_cons]; [| done..].
    exfalso. apply list_elem_of_split in Hin as (h4 & h3 & ->).
    enough (k < b)%nat by lia.
    eapply (lin_order _ _ _ L (h3 ++ Returned sid op OK (Some (IncRep N)) :: h1) h4); [| | exact Hk | exact Hb].
    + rewrite Hh. by rewrite <- (assoc_L (++)).
    + apply elem_of_app. right. left.
  - intros h4 sid' index l h3 done Hh' Hnd Hdone.
    enough (zlen done <= zlen (incs (take k ops))) by lia.
    unfold zlen. apply Nat2Z.inj_le, submseteq_length, NoDup_submseteq; [done |].
    intros o Ho. destruct (Hdone _ Ho) as (Hio & sid1 & rep & Hr1). apply list_elem_of_filter. split; [done |].
    assert (Returned sid1 o OK rep ∈ history s) as Hr1' by (rewrite Hh'; apply elem_of_app; right; by right).
    destruct (lin_errors _ _ _ L _ _ _ _ Hr1') as [[_ [r ->]]|[? _]]; [| done].
    destruct (lin_result _ _ _ L _ _ _ Hr1') as (a & st & st' & Ha & _).
    apply list_elem_of_lookup. exists a. apply lookup_take_Some. split; [done |].
    exact (lin_order _ _ _ L _ _ _ _ _ _ _ _ _ Hh' Hr1 _ _ Ha Hk).
  - intros sid' op' Hr'. destruct (inc_answer _ _ _ _ _ L Hlen Hr') as (k' & Hk' & Hi' & E1' & E0').
    assert (forall a b o, (a < b)%nat -> ops !! a = Some o -> is_inc o -> zlen (incs (take a ops)) < zlen (incs (take b ops))) as Hmono.
    { intros a b o Hab Ha Ho. replace b with (S a + (b - S a))%nat by lia. rewrite <- take_take_drop. unfold incs.
      rewrite list.filter_app, zlen_app, (take_S_r _ _ _ Ha), list.filter_app, filter_cons_True, zlen_app by done.
      rewrite zlen_cons. pose proof (zlen_nonneg (filter is_inc (take (b - S a) (drop (S a) ops)))).
      pose proof (zlen_nonneg (filter is_inc (@nil CounterOp))). lia. }
    destruct (Nat.lt_trichotomy k k') as [Hlt|[<-|Hlt]].
    + pose proof (Hmono _ _ _ Hlt Hk Hi). lia.
    + congruence.
    + pose proof (Hmono _ _ _ Hlt Hk' Hi'). lia.
  - intros i Hp. destruct (Hrep i Hp) as [m Hrun]. unfold GetCounter. rewrite (counter_at _ _ L Hlen _ _ Hrun).
    split; [apply zlen_nonneg |]. apply counted_bound with (h := history s); [done |]. apply counted_invoked; done.
Qed.

#[export] Instance CReq_countable : Countable Req.
Proof.
  apply (inj_countable' (fun r => match r with Inc => 0 | Null => 1 | Dec => 2 end)
    (fun x => if decide (x = 0) then Inc else if decide (x = 1) then Null else Dec)).
  by intros [].
Defined.
#[export] Instance CounterOp_eq_dec : EqDecision CounterOp.
Proof. solve_decision. Defined.
#[export] Instance COp_countable : Countable CounterOp.
Proof. apply (inj_countable' (fun o => (Rsm.Command_ o, Id_ o)) (fun p => mkOp p.1 p.2)). by intros []. Defined.
#[export] Instance CEvent_eq_dec : EqDecision CounterEvent.
Proof. solve_decision. Defined.

(** Server 0 is elected and increments; server 1 does not lead; then server 0
    increments again. *)
Definition count_run : list (SLabel (Req := Req)) :=
  let peers := SPeers in
  [peers (RTicker 0 1000000000); peers (RElection (LTest 0)); peers (RElection (LStart 0 1100000000));
   peers (RElection (LVote 1 0 1200000000)); peers (RElection (LReply 0 0 0 1));
   SSubmit 0 0 Inc 7; SSubmit 1 1 Inc 8;
   peers (RSend 0); peers (RAppend 0 1300000000); peers (RAnswer 0); peers (RCommit 0);
   SApply 0; SRead 0; SSend 0; SReceive 0 0; SReturn 0 0;
   SSubmit 0 2 Inc 9;
   peers (RSend 0); peers (RAppend 0 1400000000); peers (RAnswer 0); peers (RCommit 0);
   SApply 0; SRead 0; SSend 0; SReceive 0 2; SReturn 0 2].

Definition count_before : list CounterEvent :=
  [Invoked 2 (mkOp Inc 9) 2 true; Returned 0 (mkOp Inc 7) OK (Some (IncRep 1));
   Returned 1 (mkOp Inc 8) ErrWrongLeader None; Invoked 1 (mkOp Inc 8) 0 false; Invoked 0 (mkOp Inc 7) 1 true].
Definition count_history : list CounterEvent := Returned 2 (mkOp Inc 9) OK (Some (IncRep 2)) :: count_before.

Abbreviation counter_reachable :=
  (reachable (system_init (sm := @counter_machine (countable_codec Z)) 3 0)
     (sys_quiet (sm := @counter_machine (countable_codec Z)) 3 0 (fun _ => Inc))).

Lemma count_reachable : exists s : System (State := Z) (Req := Req) (Rep := Rep),
  counter_reachable s /\ bool_decide (history s = count_history) = true.
Proof.
  apply (sys_run_witness (sm := @counter_machine (countable_codec Z)) 3 0 (fun _ => Inc) count_run
    (fun s => bool_decide (history s = count_history))).
  vm_compute. reflexivity.
Qed.

Lemma Inc_answers_count_witness : exists s : System (State := Z) (Req := Req) (Rep := Rep),
  counter_reachable s /\ history s = count_history /\ 0 <= GetCounter (sm_state (rsms s 0)) <= 3.
Proof.
  destruct count_reachable as (s & R & H). apply bool_decide_eq_true in H. exists s. split_and!; [done | done | |].
  all: destruct (@Inc_answers_count (countable_codec Z) _ 3 (fun _ => Inc) s [] 2 (mkOp Inc 9) 2 count_before
    ltac:(lia) R ltac:(rewrite H; vm_compute; reflexivity) H) as (_ & _ & _ & Hc).
  all: specialize (Hc 0 ltac:(unfold is_peer; lia)); rewrite H in Hc.
  all: change (zlen (inc_calls count_history)) with 3 in Hc; apply Hc.
Defined.
