(* ===== verification/Config.v ===== *)
(** * The configuration of a test ([tester1/config.go])

    [Config] holds the network, the server groups and the clients of one
    test, its time limit and its statistics.  Also here: the random names
    of ends and sockets ([Randstring], [RandString] of [mr/util.go]) and
    the random order of servers ([random_handles]). *)
From stdpp Require Import pretty.
From S2P Require Import Prelude Annotate Labrpc NetRun Sockrpc TesterGroup.
From Stdlib Require Import Ascii.
From Stdlib Require Strings.String.
#[local] Open Scope Z_scope.

(** ** Random names *)

(** [base64.URLEncoding]: the alphabet and the digits of 6 bits that
    [Encode] takes from its bytes; the last group is filled up with zeros
    in the value and with padding in the text. *)
Definition encodeURL : list ascii :=
  String.list_ascii_of_string "ABCDEFGHIJKLMNOPQRSTUVWXYZabcdefghijklmnopqrstuvwxyz0123456789-_".

Definition sextet (val shift : Z) : Z := Z.land (Z.shiftr val shift) 63.

Fixpoint b64_digits (src : bytes) : list Z :=
  match src with
  | s0 :: s1 :: s2 :: src =>
      let val := Z.lor (Z.lor (Z.shiftl s0 16) (Z.shiftl s1 8)) s2 in
      sextet val 18 :: sextet val 12 :: sextet val 6 :: sextet val 0 :: b64_digits src
  | [s0; s1] =>
      let val := Z.lor (Z.shiftl s0 16) (Z.shiftl s1 8) in
      [sextet val 18; sextet val 12; sextet val 6]
  | [s0] => let val := Z.shiftl s0 16 in [sextet val 18; sextet val 12]
  | [] => []
  end.

Definition b64_padding (src : bytes) : nat :=
  match (length src mod 3)%nat with 1%nat => 2 | 2%nat => 1 | _ => 0 end.

Definition b64_char (d : Z) : ascii := default zero (encodeURL !! Z.to_nat d).

Definition EncodeToString (src : bytes) : list ascii :=
  (b64_char <$> b64_digits src) ++ replicate (b64_padding src) "="%char.

(** [Randstring], on the bytes [b] that [crand.Read] delivers. *)
Definition Randstring (n : Z) (b : bytes) : Res string :=
  let* s := slice_sub (EncodeToString b) 0 n in Ok (String.string_of_list_ascii s).

(** The number that a list of digits writes. *)
Definition number (base : Z) (ds : list Z) : Z := foldl (fun acc d => acc * base + d) 0 ds.

Definition is_byte (x : Z) : Prop := 0 <= x < 256.

Lemma number_app base ds es :
  number base (ds ++ es) = number base ds * base ^ zlen es + number base es.
Proof.
  unfold number. rewrite foldl_app. generalize (foldl (fun acc d => acc * base + d) 0 ds) as a.
  induction es as [|e es IH] using rev_ind; intros a; [rewrite zlen_nil; simpl; lia |].
  rewrite !foldl_app. cbn [foldl]. rewrite IH, zlen_app.
  replace (zlen [e]) with 1 by done. rewrite Z.pow_add_r, Z.pow_1_r by (pose proof (zlen_nonneg es); lia). ring.
Qed.

Lemma number_range base ds : 0 < base -> Forall (fun d => 0 <= d < base) ds -> 0 <= number base ds < base ^ zlen ds.
Proof.
  intros Hb. induction ds as [|d ds IH] using rev_ind; intros H; [change (0 <= 0 < base ^ 0); rewrite Z.pow_0_r; lia |].
  apply list.Forall_app in H as [H Hd]. apply IH in H. rewrite list.Forall_singleton in Hd.
  rewrite number_app, zlen_app. replace (zlen [d]) with 1 by done. replace (number base [d]) with d by (unfold number; simpl; lia).
  rewrite Z.pow_add_r, Z.pow_1_r by (pose proof (zlen_nonneg ds); lia). nia.
Qed.

(** Cutting the last digits off divides. *)
Lemma number_take base ds n : 0 < base -> Forall (fun d => 0 <= d < base) ds -> (n <= length ds)%nat ->
  number base (take n ds) = number base ds / base ^ (zlen ds - Z.of_nat n).
Proof.
  intros Hb H Hn. rewrite <- (take_drop n ds) at 2. rewrite number_app.
  replace (zlen (drop n ds)) with (zlen ds - Z.of_nat n) by (unfold zlen; rewrite length_drop; lia).
  assert (0 <= number base (drop n ds) < base ^ (zlen ds - Z.of_nat n)).
  { replace (zlen ds - Z.of_nat n) with (zlen (drop n ds)) by (unfold zlen; rewrite length_drop; lia).
    apply number_range; [done |]. by apply list.Forall_drop. }
  rewrite Z.div_add_l by lia. rewrite Z.div_small by lia. lia.
Qed.

Lemma lor_shiftl a b k : 0 <= k -> 0 <= b < 2 ^ k -> Z.lor (Z.shiftl a k) b = a * 2 ^ k + b.
Proof.
  intros Hk Hb. pose proof (Z.add_lor_land (Z.shiftl a k) b) as H.
  assert (Z.land (Z.shiftl a k) b = 0) as Hz.
  { apply Z.bits_inj'. intros n Hn. rewrite Z.land_spec, Z.bits_0.
    destruct (decide (n < k)).
    - by rewrite Z.shiftl_spec_low.
    - rewrite <- (Z.mod_small b (2 ^ k)) by done. rewrite Z.mod_pow2_bits_high by lia. apply andb_false_r. }
  rewrite Z.shiftl_mul_pow2 in H by done. rewrite Z.shiftl_mul_pow2 in Hz |- * by done. lia.
Qed.

Lemma sextet_div val k : 0 <= k -> sextet val k = (val / 2 ^ k) mod 64.
Proof. intros H. unfold sextet. change 63 with (Z.ones 6). by rewrite Z.land_ones, Z.shiftr_div_pow2. Qed.

Lemma sextet_range val k : 0 <= k -> 0 <= sextet val k < 64.
Proof. intros H. rewrite sextet_div by done. apply Z.mod_pos_bound. lia. Qed.

(** The digits of one group. *)
Lemma three_bytes s0 s1 s2 : is_byte s0 -> is_byte s1 -> is_byte s2 ->
  Z.lor (Z.lor (Z.shiftl s0 16) (Z.shiftl s1 8)) s2 = number 256 [s0; s1; s2].
Proof.
  unfold is_byte, number. intros H0 H1 H2. cbn [foldl].
  rewrite (lor_shiftl s0 _ 16) by (rewrite ?Z.shiftl_mul_pow2; lia).
  replace (s0 * 2 ^ 16 + Z.shiftl s1 8) with (Z.shiftl (s0 * 256 + s1) 8) by (rewrite !Z.shiftl_mul_pow2 by lia; lia).
  rewrite lor_shiftl; lia.
Qed.

Lemma two_bytes s0 s1 : is_byte s0 -> is_byte s1 ->
  Z.lor (Z.shiftl s0 16) (Z.shiftl s1 8) = number 256 [s0; s1] * 2 ^ 8.
Proof.
  unfold is_byte, number. intros H0 H1. cbn [foldl].
  rewrite (lor_shiftl s0 _ 16) by (rewrite ?Z.shiftl_mul_pow2; lia). rewrite Z.shiftl_mul_pow2; lia.
Qed.

Lemma number_sextets val : 0 <= val < 2 ^ 24 ->
  number 64 [sextet val 18; sextet val 12; sextet val 6; sextet val 0] = val.
Proof. intros H. rewrite !sextet_div by lia. unfold number. cbn [foldl]. Z.div_mod_to_equations. lia. Qed.

(** Induction by groups of three. *)
Lemma groups_ind (P : bytes -> Prop) :
  P [] -> (forall a, P [a]) -> (forall a b, P [a; b]) -> (forall a b c l, P l -> P (a :: b :: c :: l)) -> forall l, P l.
Proof.
  intros H0 H1 H2 H3. fix IH 1. intros [|a [|b [|c l]]]; [done | apply H1 | apply H2 | apply H3, IH].
Qed.

Lemma b64_digits_range src : Forall (fun d => 0 <= d < 64) (b64_digits src).
Proof.
  induction src as [| | |a b c l IH] using groups_ind; cbn [b64_digits];
    repeat (apply list.Forall_cons_2; [by apply sextet_range |]); [constructor.. | exact IH].
Qed.

Definition fill (src : bytes) : Z := match (length src mod 3)%nat with 1%nat => 4 | 2%nat => 2 | _ => 0 end.

Lemma length_mod_3 {A} (a b c : A) l : (length (a :: b :: c :: l) mod 3 = length l mod 3)%nat.
Proof.
  change (length (a :: b :: c :: l)) with (3 + length l)%nat. rewrite Nat.add_comm.
  replace (length l + 3)%nat with (length l + 1 * 3)%nat by lia. apply Nat.Div0.mod_add.
Qed.

Lemma b64_digits_length src : 6 * zlen (b64_digits src) = 8 * zlen src + fill src.
Proof.
  induction src as [| | |a b c l IH] using groups_ind; [done..|].
  unfold fill in *. rewrite length_mod_3. cbn [b64_digits]. rewrite !zlen_cons. lia.
Qed.

(** The text and the bytes write the same number, up to the filling. *)
Lemma b64_digits_number src : Forall is_byte src -> number 64 (b64_digits src) = number 256 src * 2 ^ fill src.
Proof.
  induction src as [|a|a b|a b c l IH] using groups_ind; intros Hs; cbn [b64_digits]; cbv zeta.
  - done.
  - rewrite list.Forall_singleton in Hs. unfold is_byte in Hs. rewrite Z.shiftl_mul_pow2 by lia.
    rewrite !sextet_div by lia. unfold number, fill. cbn. Z.div_mod_to_equations. lia.
  - rewrite !list.Forall_cons in Hs. destruct Hs as (Ha & Hb & _). rewrite two_bytes by done.
    unfold is_byte in *. rewrite !sextet_div by lia. unfold number, fill. cbn. Z.div_mod_to_equations. lia.
  - rewrite !list.Forall_cons in Hs. destruct Hs as (Ha & Hb & Hc & Hl). rewrite three_bytes by done.
    assert (0 <= number 256 [a; b; c] < 2 ^ 24) as Hr.
    { change (2 ^ 24) with (256 ^ zlen [a; b; c]). apply number_range; [lia |]. by repeat apply list.Forall_cons_2. }
    change (?a :: ?b :: ?c :: ?d :: b64_digits l) with ([a; b; c; d] ++ b64_digits l).
    change (a :: b :: c :: l) with ([a; b; c] ++ l). rewrite !number_app, number_sextets, IH by done.
    assert (fill ([a; b; c] ++ l) = fill l) as -> by (unfold fill; cbn [app]; by rewrite length_mod_3).
    assert (64 ^ zlen (b64_digits l) = 256 ^ zlen l * 2 ^ fill l) as ->; [| ring].
    pose proof (b64_digits_length l) as Hlen.
    assert (0 <= fill l) by (unfold fill; repeat case_match; lia).
    change 64 with (2 ^ 6). change 256 with (2 ^ 8). rewrite <- !Z.pow_mul_r, <- Z.pow_add_r by (try apply zlen_nonneg; pose proof (zlen_nonneg l); lia).
    f_equal. lia.
Qed.

Lemma b64_char_inj d e : 0 <= d < 64 -> 0 <= e < 64 -> b64_char d = b64_char e -> d = e.
Proof.
  intros Hd He H. unfold b64_char in H.
  assert (NoDup encodeURL) as Hnd by (by apply (bool_decide_unpack (NoDup encodeURL)); vm_compute).
  assert (forall x, 0 <= x < 64 -> exists c, encodeURL !! Z.to_nat x = Some c) as Hin.
  { intros x Hx. apply lookup_lt_is_Some_2. change (length encodeURL) with 64%nat. lia. }
  destruct (Hin d Hd) as [c Hc], (Hin e He) as [c' Hc']. rewrite Hc, Hc' in H. cbn in H. subst c'.
  pose proof (NoDup_lookup _ _ _ _ Hnd Hc Hc'). lia.
Qed.

(** What [Randstring] returns, in terms of its digits. *)
Lemma Randstring_digits n b : 0 <= n -> Forall is_byte b -> zlen b = 2 * n ->
  exists ds, Randstring n b = Ok (String.string_of_list_ascii (b64_char <$> ds)) /\ zlen ds = n /\
    Forall (fun d => 0 <= d < 64) ds /\ number 64 ds = number 256 b / 2 ^ (10 * n).
Proof.
  intros Hn Hb Hlen. pose proof (b64_digits_length b) as Hd.
  assert (0 <= fill b) as Hf by (unfold fill; repeat case_match; lia).
  exists (take (Z.to_nat n) (b64_digits b)). split_and!.
  - unfold Randstring, slice_sub, EncodeToString. rewrite zlen_app.
    assert (zlen (b64_char <$> b64_digits b) = zlen (b64_digits b)) as -> by (unfold zlen; by rewrite length_fmap).
    rewrite decide_True; [| pose proof (zlen_nonneg (replicate (b64_padding b) "="%char)); lia].
    cbn [res_bind]. rewrite drop_0, Z.sub_0_r, take_app_le by (rewrite length_fmap; unfold zlen in *; lia).
    by rewrite fmap_take.
  - unfold zlen in *. rewrite length_take. lia.
  - apply list.Forall_take, b64_digits_range.
  - rewrite number_take; [| lia | apply b64_digits_range | unfold zlen in *; lia].
    rewrite b64_digits_number by done. rewrite Z2Nat.id by done.
    change 64 with (2 ^ 6). rewrite <- Z.pow_mul_r by lia.
    replace (6 * (zlen (b64_digits b) - n)) with (fill b + 10 * n) by lia.
    rewrite Z.pow_add_r by lia. rewrite Z.mul_comm, Z.div_mul_cancel_l by lia. done.
Qed.

Lemma number_inj base ds es : Forall (fun d => 0 <= d < base) ds -> Forall (fun d => 0 <= d < base) es ->
  length ds = length es -> number base ds = number base es -> ds = es.
Proof.
  revert es. induction ds as [|d ds IH] using rev_ind; intros es Hd He Hl H.
  - by destruct es.
  - destruct es as [|e es _] using rev_ind; [rewrite length_app in Hl; cbn in Hl; lia |].
    rewrite !length_app in Hl. cbn in Hl. apply list.Forall_app in Hd as [Hds Hd], He as [Hes He].
    rewrite list.Forall_singleton in Hd. rewrite list.Forall_singleton in He.
    rewrite !number_app in H. unfold number at 2 4 in H. cbn [foldl] in H.
    replace (zlen [d]) with 1 in H by done. replace (zlen [e]) with 1 in H by done.
    rewrite !Z.pow_1_r in H. destruct (Z.lt_trichotomy (number base ds) (number base es)) as [Hlt|[Heq|Hlt]]; [nia | | nia].
    f_equal; [apply IH; auto; lia | f_equal; lia].
Qed.

Lemma string_of_list_inj l k : String.string_of_list_ascii l = String.string_of_list_ascii k -> l = k.
Proof.
  intros H%(f_equal String.list_ascii_of_string). by rewrite !String.list_ascii_of_string_of_list_ascii in H.
Qed.

(** ** The random order of servers *)
Section handles.
Context {A : Type}.

Definition swap (sa : list A) (i j : nat) : Res (list A) :=
  let* a := at_index sa i in
  let* b := at_index sa j in
  Ok (<[j := a]> (<[i := b]> sa)).

Fixpoint handles_loop (i : nat) (js : list nat) (sa : list A) : Res (list A) :=
  match js with
  | [] => Ok sa
  | j :: js => let* sa := swap sa i j in handles_loop (S i) js sa
  end.

(** [js] are the values of [rand.Intn]. *)
Definition random_handles (js : list nat) (kvh : list A) : Res (list A) := handles_loop 0 js kvh.

(** One value of [rand.Intn(i + 1)] for each [i]. *)
Definition draws_ok (n : nat) (js : list nat) : Prop :=
  length js = n /\ forall i j, js !! i = Some j -> (j <= i)%nat.

Lemma draws_ok_snoc n js j : draws_ok (S n) (js ++ [j]) <-> draws_ok n js /\ (j <= n)%nat.
Proof.
  unfold draws_ok. rewrite length_app. cbn. split.
  - intros [Hl H]. assert (length js = n) as Hn by lia. split_and!; [done | |].
    + intros i k Hk. apply H. by apply lookup_app_l_Some.
    + apply H. rewrite <- Hn. rewrite lookup_app_r, Nat.sub_diag; done.
  - intros [[Hl H] Hj]. split; [lia |]. intros i k [Hk|[Hi Hk]]%lookup_app_Some; [by apply H |].
    destruct (i - length js)%nat eqn:E; [| done]. injection Hk as <-. lia.
Qed.

Lemma handles_loop_app i js ks sa :
  handles_loop i (js ++ ks) sa = let* sa := handles_loop i js sa in handles_loop (i + length js) ks sa.
Proof.
  revert i sa. induction js as [|j js IH]; intros i sa; cbn [app handles_loop length res_bind].
  - by rewrite Nat.add_0_r.
  - destruct (swap sa i j) as [sa'|]; [| done]. cbn [res_bind]. rewrite IH. by rewrite Nat.add_succ_r.
Qed.

Lemma swap_app sa k i j : (i < length sa)%nat -> (j < length sa)%nat ->
  swap (sa ++ k) i j = let* sa := swap sa i j in Ok (sa ++ k).
Proof.
  intros Hi Hj. unfold swap, at_index. rewrite !lookup_app_l by done.
  destruct (lookup_lt_is_Some_2 _ _ Hi) as [a ->], (lookup_lt_is_Some_2 _ _ Hj) as [b ->]. cbn [res_bind].
  rewrite insert_app_l by done. rewrite insert_app_l by (by rewrite length_insert). done.
Qed.

Lemma swap_length sa sa' i j : swap sa i j = Ok sa' -> length sa' = length sa.
Proof. unfold swap. intros H. res_inv. by rewrite !length_insert. Qed.

Lemma handles_loop_short i js sa k : (i + length js <= length sa)%nat ->
  (forall n j, js !! n = Some j -> (j <= i + n)%nat) ->
  handles_loop i js (sa ++ k) = let* sa := handles_loop i js sa in Ok (sa ++ k).
Proof.
  revert i sa. induction js as [|j js IH]; intros i sa Hl Hj; cbn [handles_loop length] in *; [done |].
  pose proof (Hj 0%nat j eq_refl). rewrite swap_app by lia.
  destruct (swap sa i j) as [sa'|] eqn:E; [| done]. cbn [res_bind]. apply IH.
  - apply swap_length in E. lia.
  - intros n j' Hn. pose proof (Hj (S n) j' Hn). lia.
Qed.

(** A shuffle of one more server: shuffle the others, then put the last one
    in its place. *)
Lemma random_handles_snoc js j l x : draws_ok (length l) js ->
  random_handles (js ++ [j]) (l ++ [x]) =
  let* m := random_handles js l in swap (m ++ [x]) (length l) j.
Proof.
  intros [Hl Hj]. unfold random_handles. rewrite handles_loop_app, handles_loop_short by (try lia; auto).
  destruct (handles_loop 0 js l) as [m|]; [| done]. cbn [res_bind Nat.add]. rewrite Hl.
  cbn [handles_loop]. by destruct (swap _ _ _).
Qed.

Lemma insert_Permutation (l : list A) j x b : l !! j = Some x -> x :: <[j := b]> l ≡ₚ b :: l.
Proof.
  intros H. rewrite insert_take_drop by (by eapply lookup_lt_Some).
  rewrite <- (take_drop_middle l j x H) at 3. rewrite Permutation_app_comm. cbn.
  rewrite (Permutation_app_comm _ (x :: _)). cbn. apply perm_swap.
Qed.

(** The two ways the last step can go. *)
Lemma swap_last (m : list A) x j : (j <= length m)%nat ->
  (j = length m /\ swap (m ++ [x]) (length m) j = Ok (m ++ [x])) \/
  (exists b, m !! j = Some b /\ swap (m ++ [x]) (length m) j = Ok (<[j := x]> m ++ [b])).
Proof.
  intros Hj. unfold swap, at_index. rewrite (lookup_app_r m [x] (length m)), Nat.sub_diag by done. cbn [lookup list_lookup res_bind].
  destruct (decide (j = length m)) as [->|Hne].
  - left. split; [done |]. rewrite lookup_app_r, Nat.sub_diag by done. cbn.
    rewrite !insert_app_r_alt by (rewrite ?length_app; done). rewrite Nat.sub_diag. done.
  - right. destruct (lookup_lt_is_Some_2 m j) as [b Hb]; [lia |]. exists b. split; [done |].
    rewrite lookup_app_l, Hb by (apply lookup_lt_Some in Hb; done). cbn.
    rewrite insert_app_r_alt by done. rewrite Nat.sub_diag. cbn.
    by rewrite insert_app_l by (by eapply lookup_lt_Some).
Qed.

Lemma random_handles_permutes l : forall js, draws_ok (length l) js ->
  exists l', random_handles js l = Ok l' /\ l' ≡ₚ l.
Proof.
  induction l as [|x l IH] using rev_ind; intros js Hjs.
  - destruct Hjs as [Hl _]. destruct js; [| done]. by exists [].
  - rewrite length_app, Nat.add_1_r in Hjs. destruct js as [|j js _] using rev_ind; [by destruct Hjs |].
    apply draws_ok_snoc in Hjs as [Hjs Hj]. destruct (IH js Hjs) as (m & Hm & Hp).
    rewrite random_handles_snoc, Hm by done. cbn [res_bind]. pose proof (Permutation_length Hp) as Hlen. rewrite <- Hlen in *.
    destruct (swap_last m x j Hj) as [[_ ->]|(b & Hb & ->)]; eexists; (split; [done |]).
    + by rewrite Hp.
    + rewrite <- Hp. rewrite !(Permutation_app_comm _ [_]). cbn. exact (insert_Permutation _ _ _ _ Hb).
Qed.

Lemma random_handles_reaches l : forall l', l' ≡ₚ l -> exists js, draws_ok (length l) js /\ random_handles js l = Ok l'.
Proof.
  induction l as [|x l IH] using rev_ind; intros l' Hp.
  - apply Permutation_nil_r in Hp as ->. exists []. split; [split |]; done.
  - destruct l' as [|b m _] using rev_ind; [by apply Permutation_length in Hp; rewrite length_app in Hp; cbn in Hp; lia |].
    pose proof (Permutation_length Hp) as Hlen. rewrite !length_app, !Nat.add_1_r in Hlen. injection Hlen as Hlen.
    rewrite !(Permutation_app_comm _ [_]) in Hp. cbn in Hp. rewrite length_app, Nat.add_1_r.
    assert (x ∈ b :: m) as Hin by (rewrite Hp; apply list_elem_of_here).
    apply elem_of_cons in Hin as [->|(j & Hj)%list_elem_of_lookup_1].
    + apply Permutation.Permutation_cons_inv in Hp. destruct (IH _ Hp) as (js & Hok & Hjs).
      exists (js ++ [length l]). split; [by apply draws_ok_snoc; split |].
      rewrite random_handles_snoc, Hjs, <- Hlen by done. cbn [res_bind].
      destruct (swap_last m b (length m)) as [[_ ->]|(b' & Hb & _)]; [done | done |].
      apply lookup_lt_Some in Hb. lia.
    + pose proof (insert_Permutation _ _ _ b Hj) as Hi. rewrite Hp in Hi. apply Permutation.Permutation_cons_inv in Hi.
      destruct (IH _ Hi) as (js & Hok & Hjs). pose proof (lookup_lt_Some _ _ _ Hj).
      exists (js ++ [j]). split; [apply draws_ok_snoc; split; [done | lia] |].
      rewrite random_handles_snoc, Hjs, <- Hlen by done. cbn [res_bind].
      destruct (swap_last (<[j := b]> m) x j) as [[E _]|(b' & Hb & E)]; rewrite length_insert in *; [lia | lia |].
      rewrite E. rewrite list_lookup_insert_eq in Hb by done. injection Hb as <-.
      by rewrite list_insert_insert_eq, list_insert_id.
Qed.

Lemma random_handles_once l : NoDup l -> forall js js' l', draws_ok (length l) js -> draws_ok (length l) js' ->
  random_handles js l = Ok l' -> random_handles js' l = Ok l' -> js = js'.
Proof.
  induction l as [|x l IH] using rev_ind; intros Hnd js js' l' Hjs Hjs' H H'.
  - destruct Hjs as [? _], Hjs' as [? _]. by destruct js, js'.
  - rewrite length_app, Nat.add_1_r in *. apply list.NoDup_app in Hnd as (Hnd & Hx & _).
    destruct js as [|j js _] using rev_ind; [by destruct Hjs |].
    destruct js' as [|j' js' _] using rev_ind; [by destruct Hjs' |].
    apply draws_ok_snoc in Hjs as [Hjs Hj], Hjs' as [Hjs' Hj'].
    rewrite random_handles_snoc in H, H' by done.
    destruct (random_handles_permutes l js Hjs) as (m & Hm & Hp), (random_handles_permutes l js' Hjs') as (m' & Hm' & Hp').
    rewrite Hm in H. rewrite Hm' in H'. cbn [res_bind] in *.
    assert (forall k, k ≡ₚ l -> x ∉ k) as Hnot.
    { intros k Hk Hin. rewrite Hk in Hin. apply (Hx x Hin). apply list_elem_of_here. }
    pose proof (Permutation_length Hp) as Hl. pose proof (Permutation_length Hp') as Hl'.
    rewrite <- Hl in H, Hj. rewrite <- Hl' in H', Hj'.
    destruct (swap_last m x j Hj) as [[-> E]|(b & Hb & E)], (swap_last m' x j' Hj') as [[-> E']|(b' & Hb' & E')];
      rewrite E in H; rewrite E' in H'; rewrite <- H' in H; injection H as H;
      apply app_inj_tail in H as [Hmm Hbb].
    + subst m'. f_equal. by eapply IH.
    + subst b'. exfalso. apply (Hnot m' Hp'). by eapply list_elem_of_lookup_2.
    + subst b. exfalso. apply (Hnot m Hp). by eapply list_elem_of_lookup_2.
    + subst b'. assert (j = j') as <-.
      { pose proof (lookup_lt_Some _ _ _ Hb). pose proof (lookup_lt_Some _ _ _ Hb').
        assert (<[j:=x]> m !! j = Some x) as H1 by (by apply list_lookup_insert_eq).
        rewrite Hmm in H1. apply list_lookup_insert_Some in H1 as [(-> & _)|(_ & H1)]; [done |].
        exfalso. apply (Hnot m' Hp'). by eapply list_elem_of_lookup_2. }
      assert (m = m') as ->.
      { rewrite <- (list_insert_id m j b Hb), <- (list_insert_id m' j b Hb').
        rewrite <- (list_insert_insert_eq m j b x), <- (list_insert_insert_eq m' j b x). by rewrite Hmm. }
      f_equal. by eapply IH.
Qed.
End handles.

(** ** The configuration *)
Definition GRP0 : Z := 0.

(** Times are in nanoseconds, as [time.Duration]. *)
Definition Second : Z := 10 ^ 9.

Record Config := mkConfig {
  cf_clnts : Clnt.Clnts;
  cf_groups : Groups.Groups;
  t_failed : bool;                 (* t.Failed() *)
  start : Z;
  t0 : Z;
  rpcs0 : Z;
  ops : Z;                         (* an int32 *)
  endName : string;
  trpc : option RPCSrv;
}.

(** [newTesterRPCSrv] and its [cleanup]; [svc] is the service that
    [TesterRPC] itself is. *)
Definition newTesterRPCSrv (endname : string) (svc : Service) : RPCSrv := RPCSrv_AddService svc (NewRPCSrv endname).
Definition trpc_cleanup (r : RPCSrv) : RPCSrv := RPCSrv_Close r.

(** [StartServers], on the names drawn and the processes started. *)
Definition StartServers (started : list (list string * option server_ref)) (p : ServerGrp * Network) :
    Res (ServerGrp * Network) :=
  let* p := StartSrvs (zip_with (fun i s => (i, s.1, s.2)) (all p.1) started) p in TesterGroup.ConnectAll p.

Definition on_group (gid : Z) (f : ServerGrp * Network -> Res (ServerGrp * Network)) (p : Groups.Groups * Network) :
    Res (Groups.Groups * Network) :=
  match Groups.lookupGroup gid p.1 with
  | Some sg => let* r := f (sg, p.2) in Ok (<[gid := r.1]> p.1, r.2)
  | None => Panic
  end.

Definition MakeGroupStart (gid : Z) (names : list (list string)) (started : list (list string * option server_ref))
    (p : Groups.Groups * Network) : Res (Groups.Groups * Network) :=
  let* p := Groups.MakeGroup gid names p in on_group gid (StartServers started) p.

Definition ExitGroup (gid : Z) (p : Groups.Groups * Network) : Res (Groups.Groups * Network) :=
  let* p := on_group gid Shutdown p in Ok (Groups.delete gid p.1, p.2).

(** The number of servers is the number of rows of [names]. *)
Definition MakeConfig (now : Z) (name : string) (svc : Service) (names : list (list string))
    (started : list (list string * option server_ref)) (rel : bool) : Res (Config * Network) :=
  let* p := MakeGroupStart GRP0 names started (Groups.newGroups, MakeNetwork) in
  Ok (mkConfig Clnt.makeClnts p.1 false now 0 0 0 name (Some (newTesterRPCSrv name svc)), Reliable rel p.2).

Definition SetReliable : bool -> Network -> Network := Reliable.
Definition Config_IsReliable : Network -> bool := IsReliable.
Definition SetLongReordering : bool -> Network -> Network := LongReordering.
Definition SetLongDelays : bool -> Network -> Network := LongDelays.
Definition Group (gid : Z) (cfg : Config) : option ServerGrp := Groups.lookupGroup gid (cf_groups cfg).

Definition set_trpc (r : option RPCSrv) (cfg : Config) : Config :=
  mkConfig (cf_clnts cfg) (cf_groups cfg) (t_failed cfg) (start cfg) (t0 cfg) (rpcs0 cfg) (ops cfg) (endName cfg) r.
Definition Config_AddService (svc : Service) (cfg : Config) : Config :=
  match trpc cfg with Some r => set_trpc (Some (RPCSrv_AddService svc r)) cfg | None => cfg end.

(** [Cleanup]; [closed] says whether [rn.done] is closed already.  [t],
    [t'], [cs], [enabled] and [opened] are the arguments of
    [Annotate.cleanup]: times, ongoing annotations, VIS_ENABLE and the
    outcome of opening the file. *)
Definition Config_Cleanup (t t' : Z) (cs : list (string * Continuous)) (enabled : string) (opened closed : bool)
    (p : Config * Network) (an : Annotation) : Res (Config * Network * (Annotation * option (list Ann))) :=
  let cfg := p.1 in
  let* c := Clnt.Clnts_cleanup (cf_clnts cfg, p.2) in
  let* g := Groups.cleanup (cf_groups cfg, c.2) in
  if closed then Panic
  else
    let cfg := mkConfig c.1 g.1 (t_failed cfg) (start cfg) (t0 cfg) (rpcs0 cfg) (ops cfg) (endName cfg)
                 (trpc_cleanup <$> trpc cfg) in
    Ok (cfg, g.2,
        if t_failed cfg then Annotate.cleanup t t' cs enabled opened true "test failed" an
        else Annotate.cleanup t t' cs enabled opened false "test passed" an).

Definition RpcTotal (s : NetSys) : Z := GetTotalCount s.
Definition BytesTotal (s : NetSys) : Z := GetTotalBytes s.

(** [Begin]: the line it prints, and the new state. *)
Definition Begin (description : string) (now : Z) (s : NetSys) (cfg : Config) : string * Config :=
  (description +:+ " (" +:+ (if IsReliable (net s) then "reliable" else "unreliable") +:+ " network)...",
   mkConfig (cf_clnts cfg) (cf_groups cfg) (t_failed cfg) (start cfg) now (RpcTotal s) 0 (endName cfg) (trpc cfg)).

Definition OpInc (cfg : Config) : Config :=
  mkConfig (cf_clnts cfg) (cf_groups cfg) (t_failed cfg) (start cfg) (t0 cfg) (rpcs0 cfg) (i32 (ops cfg + 1)) (endName cfg) (trpc cfg).

Definition CheckTimeout (now : Z) (cfg : Config) : Res unit :=
  if negb (t_failed cfg) && bool_decide (now - start cfg > 120 * Second) then Panic else Ok tt.

(** The numbers of the line that [End] prints. *)
Record Report := mkReport { r_time : Z; r_peers : nat; r_rpcs : Z; r_ops : Z }.

Definition End (now : Z) (s : NetSys) (cfg : Config) : Res (option Report) :=
  let* _ := CheckTimeout now cfg in
  if t_failed cfg then Ok None
  else
    match Group GRP0 cfg with
    | None => Panic
    | Some sg => Ok (Some (mkReport (now - t0 cfg) (N sg) (i64 (RpcTotal s - rpcs0 cfg)) (ops cfg)))
    end.

(** [strings.Contains]. *)
Fixpoint Contains (s sub : string) : bool :=
  String.prefix sub s || match s with EmptyString => false | String _ s => Contains s sub end.

(** [Fatalf]: the frames (file and line) that it prints before it fails
    the test; it panics when there are none. *)
Definition Fatalf (frames : list (string * Z)) : list (string * Z) * Res unit :=
  match frames with
  | [] => ([], Panic)
  | _ => (filter (fun f => Contains f.1 "test.go" = true) frames, Panic)
  end.

(** ** The wiring of a group *)

(** End [j] of a server leads to server [j]. *)
Definition wired_row (gid : Z) (net : Network) (e : list string) : Prop :=
  forall j x, e !! j = Some x -> connections net !! x = Some (Some (ServerName gid j)) /\ x ∈ ends net.

Definition wired (p : ServerGrp * Network) : Prop := forall e, e ∈ srvs p.1 -> wired_row (gid p.1) p.2 e.

(** Nothing changed but ends and their connections. *)
Definition same_servers (net net' : Network) : Prop :=
  servers net' = servers net /\ reliable net' = reliable net /\ longReordering net' = longReordering net.

Lemma makeServer_loop_conn gid names : forall j net net', makeServer_loop gid names j net = Ok net' ->
  (forall k x, names !! k = Some x -> connections net' !! x = Some (Some (ServerName gid (j + k)))) /\
  (forall y, y ∉ names -> connections net' !! y = connections net !! y) /\ same_servers net net'.
Proof.
  induction names as [|x names IH]; intros j net net' H.
  { injection H as <-. by split_and!. }
  pose proof (makeServer_loop_names _ _ _ _ _ H) as (Hnd & _). apply list.NoDup_cons in Hnd as [Hx _].
  cbn [makeServer_loop] in H. unfold MakeEnd in H. destruct (decide (x ∈ ends net)) as [|Hn]; [done |].
  cbn [res_bind] in H. apply IH in H as (Hc & Ho & Hs). split_and!.
  - intros [|k] y Hk.
    + injection Hk as <-. rewrite Ho by done. rewrite Nat.add_0_r. cbn. by rewrite lookup_insert_eq.
    + rewrite (Hc k y Hk). by rewrite Nat.add_succ_r.
  - intros y [Hyx Hy]%not_elem_of_cons. rewrite Ho by done. cbn.
    by rewrite !lookup_insert_ne by done.
  - exact Hs.
Qed.

Lemma makeServer_wired gid names net net' e : makeServer gid names net = Ok (net', e) ->
  e = names /\ wired_row gid net' e /\ NoDup e /\ (forall x, x ∈ e -> x ∉ ends net) /\ same_servers net net' /\
  ends net' = list_to_set names ∪ ends net /\
  (forall e', wired_row gid net e' -> wired_row gid net' e').
Proof.
  unfold makeServer. intros H. res_inv.
  destruct (makeServer_loop_names _ _ _ _ _ E) as (Hnd & Hfresh & Hends).
  destruct (makeServer_loop_conn _ _ _ _ _ E) as (Hc & Ho & Hs). split_and!; try done.
  - intros j x Hx. split; [by apply Hc |]. rewrite Hends. apply elem_of_union_l, elem_of_list_to_set.
    by eapply list_elem_of_lookup_2.
  - intros e' Hw j x Hx. destruct (Hw j x Hx) as [Hcx Hin]. rewrite Hends. split; [| by apply elem_of_union_r].
    rewrite Ho; [done |]. intros Hx'. by apply (Hfresh x).
Qed.

Lemma same_servers_trans n1 n2 n3 : same_servers n1 n2 -> same_servers n2 n3 -> same_servers n1 n3.
Proof. intros (? & ? & ?) (? & ? & ?). split_and!; congruence. Qed.

Lemma makeServers_wired gid names : forall net net' l, makeServers gid names net = Ok (net', l) ->
  (forall e, e ∈ l -> wired_row gid net' e) /\ same_servers net net' /\
  (forall e', wired_row gid net e' -> wired_row gid net' e').
Proof.
  induction names as [|ns names IH]; intros net net' l H; cbn [makeServers] in H.
  { injection H as <- <-. split_and!; [by intros ? ?%not_elem_of_nil | done | done]. }
  res_inv. cbn [fst snd] in *.
  match goal with E : makeServer _ _ _ = Ok _ |- _ => apply makeServer_wired in E as (-> & Hw & _ & _ & Hs & _ & Hk) end.
  match goal with E : makeServers _ _ _ = Ok _ |- _ => apply IH in E as (Hw' & Hs' & Hk') end.
  split_and!.
  - intros e [->|He]%elem_of_cons; [by apply Hk' | by apply Hw'].
  - by eapply same_servers_trans.
  - intros e' He'. by apply Hk', Hk.
Qed.

(** A group as [MakeConfig] handles it. *)
Definition wired_group (n : nat) (p : ServerGrp * Network) : Prop := grp_ok p.1 /\ wired p /\ N p.1 = n.

Lemma makeSrvGrp_wired gid names net net' sg : makeSrvGrp gid names net = Ok (net', sg) ->
  (forall e, e ∈ names -> length e = length names) ->
  wired_group (length names) (sg, net') /\ same_servers net net' /\ TesterGroup.gid sg = gid.
Proof.
  intros H Hsq. pose proof (makeSrvGrp_ok _ _ _ _ _ H Hsq) as Hok.
  unfold makeSrvGrp in H. res_inv. cbn [fst snd] in *.
  pose proof (makeServers_wired _ _ _ _ _ E) as (Hw & Hs & _). apply makeServers_names in E as (-> & _ & _).
  split_and!; try done.
Qed.

Lemma elem_of_concat {A} (x : A) ls : x ∈ concat ls <-> exists l, l ∈ ls /\ x ∈ l.
Proof.
  rewrite list_elem_of_In, in_concat. split; intros (l & ? & ?); exists l; by rewrite ?list_elem_of_In in *.
Qed.

Lemma wired_concat p x : wired p -> x ∈ concat (srvs p.1) -> x ∈ ends p.2.
Proof.
  intros Hw (e & He & Hx)%elem_of_concat. apply list_elem_of_lookup_1 in Hx as [j Hj].
  by apply (Hw e He j x).
Qed.

Lemma NoDup_concat_insert {A} (ls : list (list A)) i e :
  NoDup (concat ls) -> NoDup e -> (forall x, x ∈ e -> x ∉ concat ls) -> NoDup (concat (<[i := e]> ls)).
Proof.
  revert i. induction ls as [|l ls IH]; intros i Hnd He Hdis; [by destruct i |].
  cbn [concat] in *. apply list.NoDup_app in Hnd as (Hl & Hll & Hnd).
  assert (forall x, x ∈ e -> x ∉ l /\ x ∉ concat ls) as Hdis' by (intros x Hx; by apply not_elem_of_app, Hdis).
  destruct i as [|i]; cbn [insert list_insert concat]; apply list.NoDup_app; split_and!; try done.
  - intros x Hx. by destruct (Hdis' x Hx).
  - intros x Hx (l' & Hl' & Hxl')%elem_of_concat.
    apply list_elem_of_lookup_1 in Hl' as [k Hk]. apply list_lookup_insert_Some in Hk as [(_ & <- & _)|[_ Hk]].
    + by destruct (Hdis' x Hxl').
    + apply (Hll x Hx), elem_of_concat. exists l'. split; [by eapply list_elem_of_lookup_2 | done].
  - apply IH; [done | done |]. intros x Hx. by destruct (Hdis' x Hx).
Qed.

Lemma StartServer_wired n i names obj p p' : wired_group n p -> length names = n ->
  StartServer i names obj p = Ok p' ->
  wired_group n p' /\ gid p'.1 = gid p.1 /\ connected p'.1 = connected p.1 /\
  reliable p'.2 = reliable p.2 /\ longReordering p'.2 = longReordering p.2 /\
  servers p'.2 = match obj with
                 | Some s => <[ServerName (gid p.1) i := Some s]> (servers p.2)
                 | None => servers p.2
                 end.
Proof.
  intros (Hok & Hw & HN) Hl H. unfold StartServer in H.
  apply res_bind_ok in H as (old & Hold & H). unfold at_index in Hold.
  destruct (srvs p.1 !! i) as [old'|] eqn:Eold; [| done]. injection Hold as ->.
  assert (length old = n) as Hlo.
  { rewrite <- HN. apply (go_ends _ Hok). by eapply list_elem_of_lookup_2. }
  rewrite take_ge in H by lia. apply res_bind_ok in H as ([net1 e] & E & H). cbn [fst snd] in H.
  apply makeServer_wired in E as (-> & Hwe & Hnd & Hfresh & Hs & Hends & Hk).
  set (sg := mkServerGrp (gid p.1) (<[i := names]> (srvs p.1)) (connected p.1)) in *.
  assert (N sg = N p.1) as HNsg by (unfold N; cbn; by rewrite length_insert).
  assert (grp_ok sg) as Hok'.
  { destruct Hok as [Hc He Hnc]. split; cbn [connected srvs sg].
    - by rewrite HNsg.
    - intros e [k Hek]%list_elem_of_lookup_1. rewrite HNsg.
      apply list_lookup_insert_Some in Hek as [(_ & <- & _)|[_ Hek]]; [lia |]. apply He. by eapply list_elem_of_lookup_2.
    - apply NoDup_concat_insert; [done | done |]. intros x Hx Hc'. apply (Hfresh x Hx).
      by apply (wired_concat p). }
  assert (forall e, e ∈ srvs sg -> wired_row (gid p.1) net1 e) as Hw'.
  { intros e [k Hek]%list_elem_of_lookup_1. cbn [srvs sg] in Hek.
    apply list_lookup_insert_Some in Hek as [(_ & <- & _)|[_ Hek]]; [done |]. apply Hk, Hw. by eapply list_elem_of_lookup_2. }
  destruct Hs as (Hs1 & Hs2 & Hs3).
  assert (wired_group n (sg, net1)) as Hg by (split; [done |]; split; [exact Hw' | exact (eq_trans HNsg HN)]).
  destruct obj as [s|]; injection H as <-; (split; [exact Hg |]); cbn [fst snd gid connected sg]; split_and!; try done.
  cbn. by rewrite Hs1.
Qed.

Lemma ServerName_inj gid i j : ServerName gid i = ServerName gid j -> i = j.
Proof. unfold ServerName. intros H%(inj (String.append _))%(inj (String.append _))%(inj (String.append _))%(inj pretty). lia. Qed.

(** What [StartSrvs] leaves: each server whose process started is on the
    network under its name. *)
Lemma StartSrvs_wired n l : forall p p', wired_group n p -> (forall i names obj, (i, names, obj) ∈ l -> length names = n) ->
  NoDup l.*1.*1 -> StartSrvs l p = Ok p' ->
  wired_group n p' /\ gid p'.1 = gid p.1 /\ connected p'.1 = connected p.1 /\ reliable p'.2 = reliable p.2 /\
  longReordering p'.2 = longReordering p.2 /\
  (forall i names s, (i, names, Some s) ∈ l -> server_of p'.2 (ServerName (gid p.1) i) = Some s) /\
  (forall i, i ∉ l.*1.*1 -> server_of p'.2 (ServerName (gid p.1) i) = server_of p.2 (ServerName (gid p.1) i)).
Proof.
  induction l as [|[[i names] obj] l IH]; intros p p' Hg Hl Hnd H; cbn [StartSrvs] in H.
  { injection H as <-. split_and!; try done. by intros ? ? ? ?%not_elem_of_nil. }
  apply res_bind_ok in H as (p1 & E & H). cbn in Hnd. apply list.NoDup_cons in Hnd as [Hi Hnd].
  destruct (StartServer_wired n i names obj p p1 Hg) as (Hg1 & Hgid & Hc & Hr & Hlr & Hs);
    [by eapply (Hl i names obj), list_elem_of_here | done |].
  destruct (IH p1 p' Hg1) as (Hg' & Hgid' & Hc' & Hr' & Hlr' & Hin & Hout); [| done | done |].
  { intros i' names' obj' Hin. eapply Hl. by apply list_elem_of_further. }
  rewrite Hgid in Hin, Hout, Hgid'.
  split_and!; try done; try congruence.
  - intros i' names' s [Heq|Hi']%elem_of_cons; [| by eapply Hin]. injection Heq as ? ? ?. subst i' names' obj.
    rewrite Hout by done. unfold server_of. rewrite Hs. cbn match. by rewrite lookup_insert_eq.
  - intros i' [Hne Hi']%not_elem_of_cons. rewrite Hout by done. unfold server_of. rewrite Hs.
    destruct obj as [s|]; [| done]. rewrite lookup_insert_ne; [done |]. by intros ?%ServerName_inj.
Qed.

(** Enabling and disabling ends leaves the wiring alone. *)
Definition same_wires (net net' : Network) : Prop :=
  connections net' = connections net /\ ends net' = ends net /\ same_servers net net'.

Lemma for_each_wires (f : nat -> Network -> Res Network) l :
  (forall j net net', f j net = Ok net' -> same_wires net net') ->
  forall net net', for_each f l net = Ok net' -> same_wires net net'.
Proof.
  intros Hf. induction l as [|j l IH]; intros net net' H; cbn [for_each] in H; [by injection H as <- |].
  apply res_bind_ok in H as (net1 & E & H). apply Hf in E as (? & ? & ? & ? & ?). apply IH in H as (? & ? & ? & ? & ?).
  unfold same_wires, same_servers. split_and!; congruence.
Qed.

Lemma connect_wires i to p p' : TesterGroup.connect i to p = Ok p' -> same_wires p.2 p'.2.
Proof.
  unfold TesterGroup.connect, srv_connect. intros H.
  apply res_bind_ok in H as (sg & _ & H). apply res_bind_ok in H as (e & _ & H).
  apply res_bind_ok in H as (n1 & E1 & H). apply res_bind_ok in H as (n2 & E2 & H). injection H as <-.
  apply for_each_wires in E1; [apply for_each_wires in E2 |].
  - destruct E1 as (? & ? & ? & ? & ?), E2 as (? & ? & ? & ? & ?). unfold same_wires, same_servers. cbn [snd].
    split_and!; congruence.
  - intros j net net' H. res_inv. destruct x; [| by injection H as <-]. res_inv. done.
  - intros j net net' H. res_inv. destruct x; [| by injection H as <-]. res_inv. done.
Qed.

Definition group_wires (p p' : ServerGrp * Network) : Prop :=
  gid p'.1 = gid p.1 /\ srvs p'.1 = srvs p.1 /\ same_wires p.2 p'.2.

(** [ConnectAll] brings every link up. *)
Lemma connect_loop n l : forall dn p, grp_ok p.1 -> N p.1 = n -> (forall i, i ∈ l ++ dn -> (i < n)%nat) ->
  (forall i, i ∈ dn -> is_conn p.1 i = true) -> (forall i j, i ∈ dn -> j ∈ dn -> link_up p i j = true) ->
  exists p', for_each ConnectOne l p = Ok p' /\ grp_ok p'.1 /\ group_wires p p' /\
    (forall i j, i ∈ l ++ dn -> j ∈ l ++ dn -> link_up p' i j = true).
Proof.
  induction l as [|i l IH]; intros dn p Hok HN Hr Hc Hl.
  { exists p. by split_and!. }
  assert (i < n)%nat as Hi by (apply Hr, list_elem_of_here).
  destruct (connect_spec i (seq 0 n) p) as (p1 & E & Hg & Hls); [done | lia | by intros j [_ ?]%elem_of_seq; lia |].
  assert (N p1.1 = n) as HN1 by (by rewrite Hg).
  assert (grp_ok p1.1) as Hok1 by (rewrite Hg; apply grp_ok_conn; [done | rewrite length_insert; apply Hok]).
  assert (forall j, is_conn p1.1 j = if decide (i = j) then true else is_conn p.1 j) as Hc1
    by (intros j; rewrite Hg; apply is_conn_insert; [done | lia]).
  destruct (IH (i :: dn) p1) as (p' & E' & Hok' & Hw' & Hl'); [done | done | | | |].
  - intros j Hj. apply Hr. rewrite elem_of_app, elem_of_cons in Hj. rewrite <- app_comm_cons, elem_of_cons, elem_of_app. tauto.
  - intros j Hj. rewrite Hc1. case_decide; [done |]. apply elem_of_cons in Hj as [->|Hj]; [done | by apply Hc].
  - intros x y Hx Hy.
    assert (forall z, z ∈ i :: dn -> (z < n)%nat) as Hlt.
    { intros z Hz. apply Hr. rewrite <- app_comm_cons, elem_of_cons, elem_of_app. apply elem_of_cons in Hz. tauto. }
    assert (forall z, z ∈ i :: dn -> is_conn p1.1 z = true) as Hcz.
    { intros z Hz. rewrite Hc1. case_decide; [done |]. apply elem_of_cons in Hz as [->|Hz]; [done | by apply Hc]. }
    assert (forall z, z ∈ i :: dn -> z ∈ seq 0 n) as Hseq by (intros z Hz; apply elem_of_seq; pose proof (Hlt z Hz); lia).
    pose proof (Hlt x Hx). pose proof (Hlt y Hy).
    destruct (Hls x y) as [Hup Hsame]; [lia | lia |].
    destruct (decide (x = i)) as [->|Hxi]; [apply Hup; left; by eauto |].
    destruct (decide (y = i)) as [->|Hyi]; [apply Hup; right; by eauto |].
    rewrite Hsame by tauto. apply elem_of_cons in Hx as [?|Hx]; [done |]. apply elem_of_cons in Hy as [?|Hy]; [done |].
    by apply Hl.
  - exists p'. cbn [for_each]. unfold ConnectOne at 1, all. rewrite HN, E. cbn [res_bind]. split_and!; [done | done | |].
    + apply connect_wires in E. destruct Hw' as (? & ? & ? & ? & ? & ? & ?), E as (? & ? & ? & ? & ?).
      rewrite Hg in *. cbn in *. unfold group_wires, same_wires, same_servers. split_and!; congruence.
    + intros x y Hx Hy. apply Hl'; rewrite elem_of_app, elem_of_cons;
        rewrite <- app_comm_cons, elem_of_cons, elem_of_app in Hx, Hy; tauto.
Qed.

Lemma zip_start (l : list nat) (st : list (list string * option server_ref)) : length l = length st ->
  (zip_with (fun i s => (i, s.1, s.2)) l st).*1.*1 = l.
Proof.
  revert st. induction l as [|i l IH]; intros [|s st] H; try done. cbn. f_equal. apply IH. by injection H.
Qed.

Lemma zip_start_elem (l : list nat) (st : list (list string * option server_ref)) i names obj :
  (i, names, obj) ∈ zip_with (fun i s => (i, s.1, s.2)) l st -> (names, obj) ∈ st.
Proof.
  intros [k Hk]%list_elem_of_lookup_1. apply lookup_zip_with_Some in Hk as (i' & [ns o] & Heq & _ & Ht).
  injection Heq as -> -> ->. by eapply list_elem_of_lookup_2.
Qed.

Lemma zip_start_lookup n (st : list (list string * option server_ref)) j s : n = length st -> st !! j = Some s ->
  (j, s.1, s.2) ∈ zip_with (fun i s => (i, s.1, s.2)) (seq 0 n) st.
Proof.
  intros -> Hj. apply (list_elem_of_lookup_2 _ j), lookup_zip_with_Some. exists j, s. split_and!; [done | | done].
  apply lookup_seq. split; [done |]. by apply lookup_lt_Some in Hj.
Qed.

Lemma lookupGroup_insert g sg (gs : Groups.Groups) : Groups.lookupGroup g (<[g := sg]> gs) = Some sg.
Proof. apply lookup_insert_eq. Qed.

(** ** Properties *)

(** A name of [n] characters is decided by the first [6 n] of the
    [16 n] random bits, and by each of them: it is never cut short or
    padded, and two draws give the same name exactly if those bits agree,
    so all [2^(6 n)] names are equally likely. *)
Theorem Randstring_uniform n b b' :
  0 <= n -> Forall is_byte b -> Forall is_byte b' -> zlen b = 2 * n -> zlen b' = 2 * n ->
  (exists s, Randstring n b = Ok s /\ Z.of_nat (String.length s) = n) /\
  (Randstring n b = Randstring n b' <-> number 256 b / 2 ^ (10 * n) = number 256 b' / 2 ^ (10 * n)).
Proof.
  intros Hn Hb Hb' Hl Hl'. destruct (Randstring_digits n b Hn Hb Hl) as (ds & Hr & Hds & Hdr & Hnum).
  destruct (Randstring_digits n b' Hn Hb' Hl') as (ds' & Hr' & Hds' & Hdr' & Hnum'). rewrite Hr, Hr'. split.
  - eexists. split; [done |]. rewrite <- Hds. unfold zlen. f_equal.
    clear. induction ds as [|d ds IH]; [done |]. cbn. by rewrite IH.
  - rewrite <- Hnum, <- Hnum'. split.
    + intros [= H%string_of_list_inj]. f_equal. clear -H Hdr Hdr'. revert ds' Hdr' H.
      induction Hdr as [|d ds Hd Hdr IH]; intros [|d' ds'] Hdr' H; try done. cbn in H. injection H as Hc H.
      apply Forall_cons_1 in Hdr' as [Hd' Hdr']. f_equal; [by apply b64_char_inj | by apply IH].
    + intros H. do 3 f_equal. apply (number_inj 64); try done. unfold zlen in *. lia.
Qed.

(** [random_handles] returns the servers in another order, and for
    distinct servers every order comes from exactly one sequence of draws:
    the shuffle is unbiased. *)
Theorem random_handles_uniform {A} (kvh : list A) :
  (forall js, draws_ok (length kvh) js -> exists l, random_handles js kvh = Ok l /\ l ≡ₚ kvh) /\
  (forall l, l ≡ₚ kvh -> exists js, draws_ok (length kvh) js /\ random_handles js kvh = Ok l) /\
  (NoDup kvh -> forall js js' l, draws_ok (length kvh) js -> draws_ok (length kvh) js' ->
     random_handles js kvh = Ok l -> random_handles js' kvh = Ok l -> js = js').
Proof.
  split_and!; [apply random_handles_permutes | apply random_handles_reaches | apply random_handles_once].
Qed.

(** After [MakeConfig] has returned, whatever names were drawn, every
    server of the group reaches every server: its end is enabled, leads to
    the name of the other one, and behind that name is the object that was
    made for its process, on a network of the kind asked for. *)
Theorem MakeConfig_connects now name svc names started rel cfg rn :
  (forall e, e ∈ names -> length e = length names) -> length started = length names ->
  (forall s, s ∈ started -> length s.1 = length names) ->
  MakeConfig now name svc names started rel = Ok (cfg, rn) ->
  exists sg, Group GRP0 cfg = Some sg /\ N sg = length names /\ grp_ok sg /\
    forall i j e s, (i < length names)%nat -> started !! j = Some (e, Some s) ->
      exists x, link sg i j = Some x /\
        readEndnameInfo rn x = (true, Some (ServerName GRP0 j), Some s, rel, false).
Proof.
  intros Hsq Hls Hst H. unfold MakeConfig, MakeGroupStart, Groups.MakeGroup in H.
  apply res_bind_ok in H as (p & H & [= <- <-]). apply res_bind_ok in H as (q & E & H).
  apply res_bind_ok in E as ([net1 sg1] & E & [= <-]). cbn [fst snd] in H.
  apply makeSrvGrp_wired in E as (Hg1 & Hs1 & Hgid1); [| done].
  unfold on_group in H. cbn [fst snd] in H. rewrite lookupGroup_insert in H.
  apply res_bind_ok in H as (r & E & [= <-]). unfold StartServers in E. apply res_bind_ok in E as (p2 & E2 & E3).
  set (n := length names) in *. assert (all (sg1, net1).1 = seq 0 n) as Hall by (unfold all; f_equal; apply Hg1).
  rewrite Hall in E2.
  destruct (fun A B => StartSrvs_wired n _ (sg1, net1) p2 Hg1 A B E2) as ((Hok2 & Hw2 & HN2) & Hgid2 & _ & _ & Hlr2 & Hin & _).
  { intros i ns obj Hi%zip_start_elem. by apply (Hst (ns, obj)). }
  { rewrite zip_start by (rewrite length_seq; lia). apply NoDup_seq. }
  unfold TesterGroup.ConnectAll, all in E3. rewrite HN2 in E3.
  destruct (connect_loop n (seq 0 n) [] p2 Hok2 HN2) as (r' & Er & Hokr & (Hgr & Hsr & Hcr & Her & Hvr & Hrr & Hlr) & Hup).
  { intros i. rewrite app_nil_r. intros [_ ?]%elem_of_seq. lia. }
  { by intros ? ?%not_elem_of_nil. }
  { by intros ? ? ?%not_elem_of_nil. }
  rewrite Er in E3. injection E3 as ->. exists r.1. cbn [fst snd] in *.
  split; [apply lookupGroup_insert |]. split; [unfold N in *; congruence |]. split; [done |].
  intros i j e s Hi Hj. pose proof (lookup_lt_Some _ _ _ Hj) as Hjn. rewrite Hls in Hjn.
  destruct (link_exists r.1 i j Hokr) as [x Hx]; [unfold N in *; congruence.. |].
  exists x. split; [done |]. unfold readEndnameInfo. cbn [connections enabled servers reliable longReordering Reliable].
  assert (enabled_of (Reliable rel r.2) x = true) as ->.
  { assert (link_up r i j = true) as Hl by (apply Hup; rewrite app_nil_r; apply elem_of_seq; lia).
    unfold link_up in Hl. by rewrite Hx in Hl. }
  assert (connections r.2 !! x = Some (Some (ServerName GRP0 j))) as ->.
  { rewrite Hcr. unfold link in Hx. rewrite Hsr in Hx. destruct (srvs p2.1 !! i) as [row|] eqn:Erow; [| done].
    assert (row ∈ srvs p2.1) as Hrow by (by eapply list_elem_of_lookup_2).
    destruct (Hw2 row Hrow j x Hx) as [Hc _]. by rewrite Hc, Hgid2, Hgid1. }
  cbn [from_option id]. assert (server_of (Reliable rel r.2) (ServerName GRP0 j) = Some s) as ->.
  { unfold server_of, Reliable. cbn [servers]. rewrite Hvr. rewrite <- Hgid1. apply (Hin j e s).
    by apply (zip_start_lookup n started j (e, Some s)). }
  repeat f_equal. rewrite Hlr, Hlr2. apply Hs1.
Qed.

(** The requests the network has taken so far. *)
Definition requests (s : NetSys) : Z := sum_calls taken (ncalls s).

Lemma requests_nonneg s : 0 <= requests s.
Proof.
  unfold requests. induction (ncalls s) as [|c nc m Hm IH] using map_ind; [done |].
  rewrite sum_calls_new by done. assert (0 <= taken nc); [| lia].
  unfold taken. destruct (nc_phase nc); try lia. destruct (nc_seen nc); lia.
Qed.

Lemma RpcTotal_small s : net_reachable s -> requests s < 2 ^ 31 -> RpcTotal s = requests s.
Proof.
  intros H%net_inv_reachable Hs. unfold RpcTotal, GetTotalCount. rewrite (ni_total _ H).
  pose proof (requests_nonneg s). unfold requests, i32 in *. rewrite Z.mod_small by lia. lia.
Qed.

Lemma OpInc_iter k cfg : Nat.iter k OpInc cfg =
  mkConfig (cf_clnts cfg) (cf_groups cfg) (t_failed cfg) (start cfg) (t0 cfg) (rpcs0 cfg)
    (match k with O => ops cfg | _ => i32 (ops cfg + Z.of_nat k) end) (endName cfg) (trpc cfg).
Proof.
  induction k as [|k IH]; [by destruct cfg |]. cbn [Nat.iter]. unfold Nat.iter in *. cbn [nat_rect]. rewrite IH.
  unfold OpInc. cbn [cf_clnts cf_groups t_failed start t0 rpcs0 ops endName trpc]. f_equal.
  destruct k; [done |]. rewrite i32_add. f_equal. lia.
Qed.

(** What a test reports.  Between [Begin] and [End] of a test that has
    not failed and made [k] clerk operations while the network took [n]
    requests, [End] fails the test if it has run for more than two minutes,
    and otherwise reports its time, the size of the group, [n], and [k] as
    an int32 - as long as the network has taken fewer than 2^31 requests
    in all. *)
Theorem End_reports description now now' s s' cfg sg k n :
  net_reachable s -> net_reachable s' -> 0 <= n -> requests s' = requests s + n -> requests s' < 2 ^ 31 ->
  Group GRP0 cfg = Some sg -> t_failed cfg = false ->
  End now' s' (Nat.iter k OpInc (Begin description now s cfg).2) =
  if decide (now' - start cfg > 120 * Second) then Panic
  else Ok (Some (mkReport (now' - now) (N sg) n (i32 (Z.of_nat k)))).
Proof.
  intros HR HR' Hn Hs Hlim Hsg Hf. rewrite OpInc_iter. unfold Begin, End, CheckTimeout, Group in *.
  cbn [snd cf_clnts cf_groups t_failed start t0 rpcs0 ops endName trpc]. rewrite Hf. cbn [negb andb].
  pose proof (requests_nonneg s). rewrite !RpcTotal_small, Hs by (done || lia).
  destruct (decide (now' - start cfg > 120 * Second)) as [Hlong|Hshort].
  - by rewrite bool_decide_eq_true_2.
  - rewrite bool_decide_eq_false_2 by done. cbn [res_bind]. rewrite Hsg. do 3 f_equal.
    + rewrite i64_small by lia. lia.
    + by destruct k.
Qed.

(** ** Witnesses *)
Definition ex_bytes : bytes := [0; 16; 131; 16; 81; 135].

Lemma Randstring_uniform_witness :
  (exists s, Randstring 3 ex_bytes = Ok s /\ Z.of_nat (String.length s) = 3) /\ Randstring 3 ex_bytes = Ok "ABC".
Proof.
  split; [| reflexivity].
  apply (Randstring_uniform 3 ex_bytes ex_bytes); unfold ex_bytes, is_byte;
    repeat constructor; discriminate.
Defined.

Definition ex_names : list (list string) := [["a0"; "a1"]; ["b0"; "b1"]].
Definition ex_started : list (list string * option server_ref) := [(["c0"; "c1"], Some 7%nat); (["d0"; "d1"], Some 8%nat)].
Definition ex_made : Config * Network :=
  match MakeConfig 5 "t" ex_svc ex_names ex_started true with
  | Ok p => p
  | Panic => (mkConfig Clnt.makeClnts ∅ false 0 0 0 0 "" None, MakeNetwork)
  end.

Lemma MakeConfig_connects_witness : exists sg, Group GRP0 ex_made.1 = Some sg /\ N sg = 2%nat /\ grp_ok sg /\
  forall i j e s, (i < 2)%nat -> ex_started !! j = Some (e, Some s) ->
    exists x, link sg i j = Some x /\ readEndnameInfo ex_made.2 x = (true, Some (ServerName GRP0 j), Some s, true, false).
Proof.
  apply (MakeConfig_connects 5 "t" ex_svc ex_names ex_started true).
  - intros e He. unfold ex_names in He. repeat (apply elem_of_cons in He as [->|He]; [reflexivity |]).
    by apply not_elem_of_nil in He.
  - reflexivity.
  - intros s Hs. unfold ex_started in Hs. repeat (apply elem_of_cons in Hs as [->|Hs]; [reflexivity |]).
    by apply not_elem_of_nil in Hs.
  - vm_compute. reflexivity.
Defined.

Lemma End_reports_witness :
  End (6 * Second) ex_s7 (Nat.iter 2 OpInc (Begin "one call" Second ex_s0 ex_made.1).2) =
  Ok (Some (mkReport (5 * Second) 2 1 2)).
Proof.
  rewrite (End_reports "one call" Second (6 * Second) ex_s0 ex_s7 ex_made.1
    (match Group GRP0 ex_made.1 with Some sg => sg | None => mkServerGrp 0 [] [] end) 2 1).
  - vm_compute. reflexivity.
  - apply reach_init. by exists ex_objs.
  - exact ex_s7_reachable.
  - lia.
  - vm_compute. reflexivity.
  - vm_compute. reflexivity.
  - vm_compute. reflexivity.
  - vm_compute. reflexivity.
Defined.
