(* ===== verification/Fixtures.v ===== *)
(** * The fixtures of the key/value tests ([kvraft1/test.go],
      [kvsrv1/test.go], the construction of [kvtest1/kvtest.go])

    How a test gets its servers and its clerks, and which servers a clerk
    can reach: the ends of a client are made lazily, enabled for the
    servers that the client may use. *)
From stdpp Require Import pretty.
From S2P Require Import Prelude Annotate Labrpc NetRun Kv KvClerk KvModel KvTest TesterGroup Config.
#[local] Open Scope Z_scope.
Import Clnt.

(** ** The harness *)

(** [kvtest.MakeTest], on the registers of the servers. *)
Definition kvtest_MakeTest (kv : kv_map) : KvTest.World := KvTest.mkWorld kv 0 (Some []).

(** [kvtest.Test.Cleanup]: the report of [End], then [Config.Cleanup]. *)
Definition kvtest_Cleanup (now : Z) (s : NetSys) (t t' : Z) (cs : list (string * Continuous)) (enabled : string)
    (opened closed : bool) (p : Config * Network) (an : Annotation) :
    Res (option Report * (Config * Network * (Annotation * option (list Ann)))) :=
  let* r := End now s p.1 in
  let* q := Config_Cleanup t t' cs enabled opened closed p an in Ok (r, q).

Fixpoint ConnectClnts (clnts : list nat) (p : Clnts * Network) : Res (Clnts * Network) :=
  match clnts with
  | [] => Ok p
  | a :: clnts =>
      match clerks p.1 !! a with
      | Some c => let '(c, net) := ConnectAll (c, p.2) in ConnectClnts clnts (mkClnts (<[a := c]> (clerks p.1)), net)
      | None => Panic
      end
  end.

(** A round of [Partitioner], on the random sides; [t] is the time of the
    annotation. *)
Definition Partitioner_round (t : Z) (gid : Z) (rands : list Z) (p : Groups.Groups * Network) (w : Annotate.World) :
    Res (Groups.Groups * Network * Annotate.World) :=
  let pa := Partitioner_sides rands in
  let '(p1, p2) := (Z.to_nat <$> pa.1, Z.to_nat <$> pa.2) in
  let* p := on_group gid (Partition p1 p2) p in
  Ok (p, AnnotateTwoPartitions t p1 p2 w).

(** ** [kvraft1] *)
Record KTest := mkKTest {
  part : string; nclients : Z; nservers : Z; kt_crash : bool; kt_partitions : bool; maxraftstate : Z; randomkeys : bool;
}.

Definition makeTitle (ts : KTest) : string :=
  let title := "Test: " in
  let title := if kt_crash ts then title +:+ "restarts, " else title in
  let title := if kt_partitions ts then title +:+ "partitions, " else title in
  let title := if decide (maxraftstate ts <> -1) then title +:+ "snapshots, " else title in
  let title := if randomkeys ts then title +:+ "random keys, " else title in
  let title := if decide (nclients ts > 1) then title +:+ "many clients" else title +:+ "one client" in
  title +:+ " (" +:+ part ts +:+ ")".

Definition kt_killall (t : Z) (p : Groups.Groups * Network) (w : Annotate.World) :
    Res (Groups.Groups * Network * Annotate.World) :=
  let* p := on_group GRP0 Shutdown p in let* w := AnnotateShutdownAll t w in Ok (p, w).

Definition kt_restartall (t : Z) (started : list (list string * option server_ref)) (p : Groups.Groups * Network)
    (w : Annotate.World) : Res (Groups.Groups * Network * Annotate.World) :=
  let* p := on_group GRP0 (StartServers started) p in let* w := AnnotateRestartAll t w in Ok (p, w).

Definition with_clnts (cs : Clnts) (cfg : Config) : Config :=
  mkConfig cs (cf_groups cfg) (t_failed cfg) (start cfg) (t0 cfg) (rpcs0 cfg) (ops cfg) (endName cfg) (trpc cfg).

(** The clerks of [kvraft1]: a clerk of the replicated service and its
    client, at the address [a]. *)
Definition kt_MakeClerk (a : nat) (cfg : Config) : Res (Config * KvraftClerk.Clerk) :=
  match Group GRP0 cfg with
  | Some sg => Ok (with_clnts (MakeClient a (cf_clnts cfg)) cfg, KvraftClerk.MakeClerk (SrvNames sg))
  | None => Panic
  end.

Definition kt_MakeClerkTo (to : list nat) (a : nat) (cfg : Config) : Res (Config * KvraftClerk.Clerk) :=
  match Group GRP0 cfg with
  | Some sg =>
      let* ns := SrvNamesTo sg to in
      Ok (with_clnts (MakeClientTo (Some ns) a (cf_clnts cfg)) cfg, KvraftClerk.MakeClerk (SrvNames sg))
  | None => Panic
  end.

Definition kt_DeleteClerk (a : nat) (p : Config * Network) : Res (Config * Network) :=
  let* q := DeleteClient a (cf_clnts p.1, p.2) in Ok (with_clnts q.1 p.1, q.2).

(** ** [kvsrv1]: the clerk of the single server *)
Definition ks_MakeClerk (a : nat) (cfg : Config) : Config * string :=
  (with_clnts (MakeClient a (cf_clnts cfg)) cfg, ServerName GRP0 0).

(** ** What a client reaches *)

(** What happens to a client and the network until the client is removed:
    its own operations, and what others do, who leave its ends alone. *)
Inductive clnt_op :=
| OCall (server : string)                         (* the makeEnd of Call *)
| OConnectAll
| ODisconnectAll
| OConnectTo (srvs : option (list string))        (* None is a nil slice *)
| ODisconnect (server : string)
| OOther.

Inductive client_step (p : Clnt * Network) : clnt_op -> Clnt * Network -> Prop :=
| st_makeEnd server name c net e : makeEnd server name p = Ok (c, net, e) -> client_step p (OCall server) (c, net)
| st_ConnectAll : client_step p OConnectAll (ConnectAll p)
| st_DisconnectAll : client_step p ODisconnectAll (DisconnectAll p)
| st_ConnectTo srvs : client_step p (OConnectTo srvs) (ConnectTo srvs p)
| st_Disconnect server : client_step p (ODisconnect server) (Disconnect server p)
| st_other net : (forall s e, cl_ends p.1 !! s = Some e ->
      e ∈ ends net /\ connections net !! e = connections p.2 !! e /\ enabled_of net e = enabled_of p.2 e) ->
    client_step p OOther (p.1, net).

(** Executions, with the operations so far, the latest one first. *)
Inductive client_run (p : Clnt * Network) : list clnt_op -> Clnt * Network -> Prop :=
| run_start : client_run p [] p
| run_step h q op r : client_run p h q -> client_step q op r -> client_run p (op :: h) r.

(** *** The specification: which servers a client reaches, by its history *)
Definition allows (srvs : option (list string)) (s : string) : bool :=
  match srvs with None => true | Some l => bool_decide (s ∈ l) end.

Definition called (s : string) (h : list clnt_op) : bool :=
  existsb (fun op => match op with OCall s' => bool_decide (s' = s) | _ => false end) h.

(** The latest operation that concerns [s] decides.  [ConnectTo] without
    [s] concerns it only as long as it was not called yet, [Disconnect] of
    [s] only from its first call on. *)
Fixpoint reaches (allowed : option (list string)) (s : string) (h : list clnt_op) : bool :=
  match h with
  | [] => allows allowed s
  | OConnectAll :: _ => true
  | ODisconnectAll :: _ => false
  | OConnectTo srvs :: h => allows srvs s || called s h && reaches allowed s h
  | ODisconnect s' :: h => negb (bool_decide (s' = s) && called s h) && reaches allowed s h
  | (OCall _ | OOther) :: h => reaches allowed s h
  end.

(** Each end of the client is wired to its server, and its state, or the
    state that a new end would get, is what the history says. *)
Record clnt_ok (allowed : option (list string)) (h : list clnt_op) (p : Clnt * Network) : Prop := mkClntOk {
  ck_made : forall s e, cl_ends p.1 !! s = Some e -> e ∈ ends p.2;
  ck_wired : forall s e, cl_ends p.1 !! s = Some e -> connections p.2 !! e = Some (Some s);
  ck_apart : forall s s' e, cl_ends p.1 !! s = Some e -> cl_ends p.1 !! s' = Some e -> s = s';
  ck_called : forall s, called s h = bool_decide (is_Some (cl_ends p.1 !! s));
  ck_reaches : forall s, reaches allowed s h =
    match cl_ends p.1 !! s with Some e => enabled_of p.2 e | None => allowedL p.1 s end;
}.

Lemma allowedL_allows c s : allowedL c s = allows (cl_srvs c) s.
Proof.
  unfold allowedL, allows. destruct (cl_srvs c) as [l|]; [| done]. apply Bool.eq_iff_eq_true.
  rewrite existsb_exists, bool_decide_eq_true. split.
  - by intros (n & Hn%list_elem_of_In & ->%bool_decide_eq_true).
  - intros Hs. exists s. split; [by apply list_elem_of_In | by apply bool_decide_eq_true].
Qed.

Lemma enable_where_spec allow b clnt net : let net' := enable_where allow b clnt net in
  ends net' = ends net /\ connections net' = connections net /\ servers net' = servers net /\
  (forall s e, cl_ends clnt !! s = Some e -> allow s = true -> enabled_of net' e = b) /\
  (forall e, (forall s, cl_ends clnt !! s = Some e -> allow s = false) -> enabled_of net' e = enabled_of net e).
Proof.
  unfold enable_where. simpl.
  apply (map_fold_weak_ind (fun net' m => ends net' = ends net /\ connections net' = connections net /\ servers net' = servers net /\
    (forall s e, m !! s = Some e -> allow s = true -> enabled_of net' e = b) /\
    (forall e, (forall s, m !! s = Some e -> allow s = false) -> enabled_of net' e = enabled_of net e))).
  - by split_and!.
  - intros s e m net' Hs (H1 & H2 & H3 & H4 & H5). destruct (allow s) eqn:Ea.
    + split_and!; [done.. | |].
      * intros s' e' Hs' Ha'. rewrite enabled_of_Enable. case_decide as Hd; [done |].
        destruct (decide (s = s')) as [<-|Hne]; [rewrite lookup_insert_eq in Hs'; congruence |].
        rewrite lookup_insert_ne in Hs' by done. by apply (H4 s').
      * intros e' He'. rewrite enabled_of_Enable. case_decide as Hd.
        { subst e'. specialize (He' s). rewrite lookup_insert_eq in He'. by rewrite He' in Ea. }
        apply H5. intros s' Hs'. apply He'. rewrite lookup_insert_ne; [done |]. by intros ->; rewrite Hs in Hs'.
    + split_and!; [done.. | |].
      * intros s' e' Hs' Ha'. destruct (decide (s = s')) as [<-|Hne]; [congruence |].
        rewrite lookup_insert_ne in Hs' by done. by apply (H4 s').
      * intros e' He'. apply H5. intros s' Hs'. apply He'. rewrite lookup_insert_ne; [done |]. by intros ->; rewrite Hs in Hs'.
Qed.

Lemma called_cons s op h : called s (op :: h) =
  match op with OCall s' => bool_decide (s' = s) || called s h | _ => called s h end.
Proof. by destruct op. Qed.

(** An end that is there is used again, a new one gets what the history
    says. *)
Lemma makeEnd_ok allowed h server name p c net e : clnt_ok allowed h p -> makeEnd server name p = Ok (c, net, e) ->
  clnt_ok allowed (OCall server :: h) (c, net) /\ cl_ends c !! server = Some e.
Proof.
  intros [Hm Hw Ha Hc Hr] H. destruct p as [c0 net0]. unfold makeEnd in H. cbn [fst snd] in *.
  destruct (cl_ends c0 !! server) as [e0|] eqn:Es.
  { injection H as <- <- <-. split; [| done]. split; cbn [fst snd]; try done. intros s. rewrite called_cons, Hc.
    case_bool_decide as Hs; [subst s; rewrite Es; symmetry; by apply bool_decide_eq_true_2; eexists | done]. }
  unfold MakeEnd in H. case_decide as Hd; [done |]. cbn [res_bind] in H. injection H as <- <- <-.
  cbn [cl_srvs cl_ends]. split; [| apply lookup_insert_eq].
  assert (forall s e, <[server := name]> (cl_ends c0) !! s = Some e ->
    s = server /\ e = name \/ s <> server /\ e <> name /\ cl_ends c0 !! s = Some e) as Hcase.
  { intros s e H. destruct (decide (s = server)) as [->|Hne]; [rewrite lookup_insert_eq in H; left; split; congruence |].
    rewrite lookup_insert_ne in H by done. right. split_and!; [done | | done]. intros ->. by apply Hd, (Hm s). }
  split; cbn [fst snd cl_ends ends connections Enable Connect set_enabled set_connections].
  - intros s e [[-> ->]|(_ & _ & H)]%Hcase; [set_solver | apply Hm in H; set_solver].
  - intros s e [[-> ->]|(_ & Hne & H)]%Hcase; [by rewrite lookup_insert_eq |].
    rewrite lookup_insert_ne by done. rewrite lookup_insert_ne by done. by apply Hw.
  - intros s s' e H1%Hcase H2%Hcase.
    destruct H1 as [[? ?]|(? & ? & ?)], H2 as [[? ?]|(? & ? & ?)]; [congruence.. | by eapply Ha].
  - intros s. rewrite called_cons, Hc. destruct (decide (s = server)) as [->|Hne].
    + rewrite lookup_insert_eq, (bool_decide_eq_true_2 (server = server)) by done. symmetry. by apply bool_decide_eq_true_2; eexists.
    + by rewrite lookup_insert_ne, (bool_decide_eq_false_2 (server = s)) by done.
  - intros s. cbn [reaches]. rewrite Hr. destruct (decide (s = server)) as [->|Hne].
    + rewrite Es, lookup_insert_eq. unfold enabled_of. cbn [enabled Enable set_enabled]. by rewrite lookup_insert_eq.
    + rewrite lookup_insert_ne by done. destruct (cl_ends c0 !! s) as [e|] eqn:E; [| done].
      assert (e <> name) as Hn by (intros ->; by apply Hd, (Hm s)). unfold enabled_of. cbn [enabled Enable set_enabled].
      rewrite lookup_insert_ne by done. cbn. by rewrite lookup_insert_ne by done.
Qed.

(** An operation that switches the ends of the servers [allow]. *)
Lemma clnt_ok_enable allowed h op (allow : string -> bool) (b : bool) c net srvs : clnt_ok allowed h (c, net) ->
  (forall s, called s (op :: h) = called s h) ->
  (forall s, reaches allowed s (op :: h) =
     if called s h then (if allow s then b else reaches allowed s h) else allows srvs s) ->
  clnt_ok allowed (op :: h) (mkClnt (cl_ends c) srvs, enable_where allow b (mkClnt (cl_ends c) srvs) net).
Proof.
  intros [Hm Hw Ha Hc Hr] Hcall Hall. destruct (enable_where_spec allow b (mkClnt (cl_ends c) srvs) net) as (E1 & E2 & _ & E4 & E5).
  split; cbn [fst snd cl_ends] in *.
  - intros s e H. rewrite E1. by eapply Hm.
  - intros s e H. rewrite E2. by apply Hw.
  - exact Ha.
  - intros s. by rewrite Hcall.
  - intros s. rewrite Hall, Hc, Hr, !allowedL_allows. cbn [cl_srvs].
    destruct (cl_ends c !! s) as [e|] eqn:E; [| done]. rewrite bool_decide_eq_true_2 by by eexists.
    destruct (allow s) eqn:Eal; symmetry; [by eapply E4 |]. apply E5. intros s' H'. by rewrite (Ha _ _ _ H' E).
Qed.

Lemma client_step_ok allowed h p op p' : client_step p op p' -> clnt_ok allowed h p -> clnt_ok allowed (op :: h) p'.
Proof.
  destruct p as [c net]. intros Hst Hok. pose proof (ck_reaches _ _ _ Hok) as Hr. pose proof (ck_called _ _ _ Hok) as Hc.
  destruct Hst as [server name c' net' e H| | |srvs|server|net' H].
  - by eapply makeEnd_ok.
  - apply (clnt_ok_enable _ _ _ (fun _ => true) true c net None Hok); [done |]. intros s. by destruct (called s h).
  - apply (clnt_ok_enable _ _ _ (fun _ => true) false c net (Some []) Hok); [done |]. intros s. by destruct (called s h).
  - apply (clnt_ok_enable _ _ _ (allowedL (mkClnt (cl_ends c) srvs)) true c net srvs Hok); [done |].
    intros s. cbn [reaches]. rewrite allowedL_allows. cbn [cl_srvs]. destruct (allows srvs s), (called s h); done.
  - destruct c as [es srvs]. apply (clnt_ok_enable _ _ _ (fun s => bool_decide (s = server)) false (mkClnt es srvs) net srvs Hok); [done |].
    intros s. specialize (Hr s). specialize (Hc s). cbn [reaches]. rewrite (bool_decide_ext (server = s) (s = server)) by done.
    destruct (called s h), (bool_decide (s = server)); try done; rewrite Hr; cbn [fst cl_ends] in *;
      (destruct (es !! s); [by rewrite bool_decide_eq_true_2 in Hc by by eexists | by rewrite allowedL_allows]).
  - destruct Hok as [Hm Hw Ha _ _]. cbn [fst snd] in *. split; cbn [fst snd]; try done.
    + intros s e Hs. by apply (H s).
    + intros s e Hs. destruct (H s e Hs) as (_ & -> & _). by apply Hw.
    + intros s. cbn [reaches]. rewrite Hr. cbn [fst snd]. destruct (cl_ends c !! s) as [e|] eqn:E; [| done].
      by destruct (H s e E) as (_ & _ & ->).
Qed.

Lemma clnt_ok_run allowed net0 h p : client_run (makeClntTo allowed, net0) h p -> clnt_ok allowed h p.
Proof.
  induction 1 as [|h q op r _ IH Hs]; [| by eapply client_step_ok].
  split; cbn [fst snd makeClntTo cl_ends]; intros s; rewrite ?lookup_empty; try done.
  by rewrite allowedL_allows.
Qed.

Lemma makeEnd_reads allowed h server name p c net e : clnt_ok allowed h p -> makeEnd server name p = Ok (c, net, e) ->
  readEndnameInfo net e = (reaches allowed server h, Some server, server_of net server, reliable net, longReordering net).
Proof.
  intros Hok H. destruct (makeEnd_ok _ _ _ _ _ _ _ _ Hok H) as ([_ Hw _ _ Hr] & Hin).
  specialize (Hr server). cbn [reaches fst snd] in *. rewrite Hin in Hr.
  unfold readEndnameInfo. by rewrite (Hw _ _ Hin), Hr.
Qed.

(** As long as nobody connects or disconnects the client. *)
Definition only_calls (op : clnt_op) : Prop := match op with OCall _ | OOther => True | _ => False end.

Lemma reaches_only_calls allowed s h : Forall only_calls h -> reaches allowed s h = allows allowed s.
Proof. induction 1 as [|op h Ho _ IH]; [done |]. by destruct op. Qed.

Lemma SrvNamesTo_elem sg to ns : SrvNamesTo sg to = Ok ns -> ns = ServerName (gid sg) <$> to.
Proof.
  revert ns. induction to as [|i to IH]; intros ns H; [by injection H as <- |]. cbn [SrvNamesTo] in H.
  apply res_bind_ok in H as (n & Hn & H). apply res_bind_ok in H as (l & Hl & H). injection H as <-.
  rewrite (IH _ Hl), fmap_cons. f_equal. unfold SrvName, at_index, SrvNames in Hn.
  rewrite list_lookup_fmap in Hn. destruct (all sg !! i) as [k|] eqn:E; [| done].
  injection Hn as <-. unfold all in E. apply lookup_seq in E as [-> _]. by rewrite Nat.add_0_l.
Qed.

(** ** Properties *)

(** C40: The fault injection on clients does what it is told.  After any
    history of a client's calls, of [ConnectAll], [DisconnectAll],
    [ConnectTo] and [Disconnect], and of what others do to the network
    meanwhile, who leave the client's ends alone: a call finds its end wired
    to the server that it names, and enabled exactly if the history says so
    ([reaches]).  The latest operation that concerns the server decides:
    [ConnectAll], and [ConnectTo] that names it, let it through;
    [DisconnectAll] cuts it off; [Disconnect] cuts off a server that the
    client has called before, and is without effect on any other;
    [ConnectTo] that does not name the server cuts it off only if the client
    has not called it before; at the start the servers given to
    [MakeClientTo] are let through. *)
Theorem client_reaches_allowed allowed net0 h p server name c net e :
  client_run (makeClntTo allowed, net0) h p -> makeEnd server name p = Ok (c, net, e) ->
  readEndnameInfo net e = (reaches allowed server h, Some server, server_of net server, reliable net, longReordering net).
Proof. intros R H. eapply makeEnd_reads; [by eapply clnt_ok_run | done]. Qed.

(** A client cut off, restored, cut off from one server, and given others. *)
Definition ex_history : list clnt_op :=
  [OConnectTo (Some ["u"%string]); ODisconnect "s"; OConnectAll; ODisconnectAll; OCall "s"].
Definition ex_restored : Clnt * Network :=
  match makeEnd "s" "e" (makeClntTo (Some ["t"%string]), MakeNetwork) with
  | Ok (c, net, _) => ConnectTo (Some ["u"%string]) (Disconnect "s" (ConnectAll (DisconnectAll (c, net))))
  | Panic => (makeClntTo None, MakeNetwork)
  end.

Lemma client_reaches_allowed_witness :
  makeEnd "s" "f" ex_restored = Ok (ex_restored.1, ex_restored.2, "e"%string) /\
  readEndnameInfo ex_restored.2 "e" = (false, Some "s"%string, None, true, false).
Proof.
  assert (makeEnd "s" "f" ex_restored = Ok (ex_restored.1, ex_restored.2, "e"%string)) as E by (vm_compute; reflexivity).
  split; [exact E |].
  rewrite (client_reaches_allowed (Some ["t"%string]) MakeNetwork ex_history ex_restored "s" "f" ex_restored.1 ex_restored.2 "e");
    [vm_compute; reflexivity | | exact E].
  destruct (makeEnd "s" "e" (makeClntTo (Some ["t"%string]), MakeNetwork)) as [[[c net] e]|] eqn:Em; [| done].
  assert (ex_restored = ConnectTo (Some ["u"%string]) (Disconnect "s" (ConnectAll (DisconnectAll (c, net))))) as ->
    by (unfold ex_restored; by rewrite Em).
  eapply run_step; [| apply st_ConnectTo]. eapply run_step; [| apply st_Disconnect].
  eapply run_step; [| apply st_ConnectAll]. eapply run_step; [| apply st_DisconnectAll].
  eapply run_step; [apply run_start | apply (st_makeEnd _ "s" "e" _ _ _ Em)].
Defined.

(** A clerk made by [MakeClerkTo] knows all servers and its calls reach
    exactly those of [to], whatever others do, as long as nobody connects or
    disconnects its client. *)
Theorem MakeClerkTo_reaches to a cfg cfg' ck sg :
  Group GRP0 cfg = Some sg -> kt_MakeClerkTo to a cfg = Ok (cfg', ck) ->
  KvraftClerk.servers ck = SrvNames sg /\
  exists c, clerks (cf_clnts cfg') !! a = Some c /\
    forall net0 h p i name c' net e, Forall only_calls h -> client_run (c, net0) h p -> makeEnd (ServerName (gid sg) i) name p = Ok (c', net, e) ->
      readEndnameInfo net e = (bool_decide (i ∈ to), Some (ServerName (gid sg) i), server_of net (ServerName (gid sg) i),
        reliable net, longReordering net).
Proof.
  intros Hg H. unfold kt_MakeClerkTo in H. rewrite Hg in H. apply res_bind_ok in H as (ns & Hns & H). injection H as <- <-.
  split; [done |]. exists (makeClntTo (Some ns)). split; [apply lookup_insert_eq |].
  intros net0 h p i name c' net e Ho R H. apply SrvNamesTo_elem in Hns as ->.
  rewrite (makeEnd_reads _ _ _ _ p _ _ _ (clnt_ok_run _ net0 h p R) H), reaches_only_calls by done.
  do 4 f_equal. apply bool_decide_ext. rewrite list_elem_of_fmap. split; [| by eauto].
  by intros (j & ->%ServerName_inj & Hj).
Qed.

Definition ex_cfg : Config :=
  mkConfig makeClnts {[ GRP0 := mkServerGrp 0 [["a"; "b"]; ["c"; "d"]]%string [true; true] ]} false 0 0 0 0 "" None.

Definition ex_to : Config := with_clnts (MakeClientTo (Some ["server-0-1"%string]) 5 makeClnts) ex_cfg.
Definition ex_called : Clnt * Network :=
  match makeEnd "server-0-0" "e" (makeClntTo (Some ["server-0-1"%string]), MakeNetwork) with
  | Ok (c, net, _) => (c, net)
  | Panic => (makeClntTo None, MakeNetwork)
  end.

Lemma MakeClerkTo_reaches_witness :
  kt_MakeClerkTo [1%nat] 5 ex_cfg = Ok (ex_to, KvraftClerk.MakeClerk ["server-0-0"; "server-0-1"]%string) /\
  readEndnameInfo ex_called.2 "e" = (false, Some "server-0-0"%string, None, true, false).
Proof.
  assert (kt_MakeClerkTo [1%nat] 5 ex_cfg = Ok (ex_to, KvraftClerk.MakeClerk ["server-0-0"; "server-0-1"]%string)) as E
    by (vm_compute; reflexivity).
  split; [exact E |].
  destruct (MakeClerkTo_reaches [1%nat] 5 ex_cfg ex_to _ (mkServerGrp 0 [["a"; "b"]; ["c"; "d"]]%string [true; true]) eq_refl E)
    as (_ & c & Hc & H).
  injection Hc as <-.
  rewrite (H MakeNetwork [] (makeClntTo (Some ["server-0-1"%string]), MakeNetwork) 0%nat "e"%string ex_called.1 ex_called.2 "e"%string
    (Forall_nil_2 _) (run_start _) ltac:(vm_compute; reflexivity)).
  vm_compute. reflexivity.
Defined.

(** [ConnectTo] enables ends but disables none: a client keeps reaching the
    servers that it has called before, although it may use none. *)
Lemma ConnectTo_keeps_others : exists c net e,
  makeEnd "server-0-0" "e" (makeClntTo None, MakeNetwork) = Ok (c, net, e) /\
  let p := ConnectTo (Some []) (c, net) in
  allowedL p.1 "server-0-0" = false /\ enabled_of p.2 e = true /\ enabled_of (DisconnectAll (c, net)).2 e = false.
Proof. do 3 eexists. split; [reflexivity |]. vm_compute. done. Qed.
